(* ===== verification/_CoqProject ===== *)
-Q . S2P
Prelude.v
GoLang.v
Conc.v
Rely.v
Group.v
Loops.v
GoString.v
Utf8.v
Runtime.v
Id.v
Domain.v
Breaker.v
Retry.v
Store.v
Memory.v
MemoryFacts.v
GoJson.v
JsonFacts.v
Tool.v
ToolExamples.v
Llm.v
OpenAi.v
World.v
Engine.v
EngineSpec.v
EngineProof.v
EngineLogs.v
EngineFacts.v
EngineGroup.v
EngineTools.v
EngineCancel.v
EngineDemo.v
Queue.v
Service.v
ServiceFacts.v
StartFacts.v
Worker.v
RedisQueue.v
Serving.v
Requests.v
ServingLogs.v
ServiceGroup.v
GroupDemo.v
WorkerPool.v
Stream.v
Broker.v
WebSocket.v
Sha256.v
Auth.v
Url.v
Http.v
HttpFacts.v
HttpMetrics.v
Observability.v
GoTime.v
GoDate.v
ApiJson.v
UnitTests.v
RedisStream.v
StreamFacts.v
Postgres.v
PostgresFacts.v
PostgresState.v
PostgresTypes.v
PostgresReads.v
PostgresStore.v
PostgresWorld.v
PostgresDemo.v
Config.v
Main.v
