(* ===== verification/Prelude.v ===== *)
(** * AgentFlow: a verification development

    AgentFlow is a Go service that runs LLM agents: an HTTP API takes agents and execution
    requests, a queue carries jobs to workers, an engine calls a model and its tools in
    rounds, a store keeps the records and an event stream reports progress.  This library
    models that program, shallowly: its functions are Rocq functions, its shared state is an explicit
    world, its goroutines are trees of atomic actions, its errors are values.

    ** How the program's parts fit, and where they are modelled

    - A request enters [httpapi/server.go] ([Http]: routes, middleware chain [serve], one
      handler per route), is authenticated, checked for its role and rate limited ([auth/auth.go]: [Auth],
      with SHA-256 computed in [Sha256] and JWT a parameter), and calls the service ([app/service.go]:
      [Service]), which calls a store and a queue through their interfaces.
    - The store's interface is the class [StoreOps] of [Store] with its laws [StoreLaws],
      [StoreAvailable] and [StoreHonorsContext].  The laws speak of a view of the store's state
      ([StoreView]): records by identifier, up to what a store makes of identifiers ([key]) and of the
      records it is given ([kept]), and which records may be removed with an agent ([apart]).  [Memory] and
      [MemoryFacts] model and verify the in-memory store, which keeps everything as it is;
      [Postgres] models [store/postgres/postgres.go], one function per SQL
      statement over the tables of the migration; [PostgresFacts], [PostgresState], [PostgresTypes] and
      [PostgresReads] hold what is shown of it, [PostgresStore] that it keeps the same laws, [PostgresWorld] what
      follows for the program on top of it, and [PostgresDemo] a concrete server.
    - The queue's interface is [QueueOps] with [QueueLaws] ([Queue]); the buffered channel of
      [queue/queue.go] is in the same file, the Redis list of [queue/redis.go] in [RedisQueue].
    - A worker ([worker/worker.go]) takes a job and runs the engine: [Worker] is one iteration of
      its loop over the whole world, the loop, and the goroutines that [Run] starts, and [WorkerPool] how the pool ends.
      [ServiceGroup] puts these goroutines and any number of requests to start executions over one queue, store
      and engine: [Serving] is how a worker may change that world while all others act, [Requests] the same for
      [StartExecution], [ServingLogs] what their interleaved logs add up to.
    - The engine ([workflow/engine.go], [workflow/events.go]: [Engine] over [World]) calls the provider
      ([llm/provider.go], [llm/mock.go]: [Llm]; [llm/openai.go]: [OpenAi]), the circuit
      breaker and retry of [reliability] ([Breaker], [Retry]), the tools ([tool/tool.go]: [Tool];
      [tool/examples.go]: [ToolExamples]), the store and the event sink.
    - Events reach subscribers through [realtime/broker.go] ([Broker]) or [realtime/redis.go]
      ([RedisStream]), two implementations of the interface [realtime.Stream].  [Stream] has this interface as the class
      [StreamOps] with its laws [StreamLaws] and the loop of [streamExecution] over it; [StreamFacts] shows
      that both implementations keep the laws.  [WebSocket] is that loop for any number of connections and
      publishers at once, over the broker.
    - [cmd/api/main.go] wires all of it together: [Main], with [Config] for [config/config.go];
      [HttpMetrics] is the HTTP middleware of [observability/metrics.go], [Observability] the registration of its
      collectors and [InitTracing] of [observability/tracing.go].
    - [domain/models.go] and [id/id.go] are [Domain] and [Id].  [UnitTests] runs the repository's unit tests on
      the definitions.

    Below these lie the parts of Go and its standard library that the source uses: [GoLang]
    (64-bit integers that wrap, errors and their chains, contexts, values of type any), [GoString] and [Utf8]
    (byte strings, trimming, case folding, numbers as text, UTF-8 both ways), [Url] (the host of a URL, as the
    origin check of the websocket upgrade reads it), [GoJson] and [JsonFacts]
    (the parser and printer of encoding/json, and a calculus of what printed texts
    read as), [GoTime] and [GoDate] (durations and RFC 3339 times), [Conc] (goroutines, forks and
    their interleavings, total-correctness weakest preconditions), [Rely] (goroutines and processes under
    interference, processes that learn about the world they share, and how their logs interleave), [Group] (any number of
    tasks at once), [Loops] (endless loops among them, and when such a group comes to rest), [Runtime] (clock, randomness, timers).
    State corresponds as follows: a mutex-protected method is one transition of a record with the
    struct's fields; a Go map is a gmap, a slice a list, a channel a bounded list; the
    engine's, service's and handlers' bodies are [prog] or [proc] terms with one action per call of
    a component; the broker, a Redis subscription, the worker pool, the websockets and the process are step relations.

    ** What the theorems show

    - The engine: [EngineSpec] says which calls a run makes, in order and without concurrency;
      [EngineProof] and [EngineFacts] show that the engine terminates without a panic under every
      interleaving and refines it ([execute_refines_spec]); from that, the final state, its
      recording, events, conversation, accounting modulo 2^64, bounds on calls, use of the
      breaker and isolation ([EngineLogs], [EngineFacts]).  [EngineTools]: concurrent tool calls equal
      sequential ones.  [EngineGroup]: any number of runs at once, each as if alone.  [EngineCancel]: what a cancelled run does not record.  [EngineDemo]: a concrete run.
    - Stores: both implementations keep the laws ([stores_implement_contract]), so the theorems on the engine, the
      service and the handlers hold for either; the in-memory store isolates owners; the PostgreSQL store is
      all or nothing, consistent and well typed in every reachable state under any failures, answers
      with the caller's records only, reads back what was written and honours contexts.  [PostgresWorld]: what
      a run leaves in the tables, and what it means for streams and conversations that the
      tables give identifiers another form.
    - Requests: [StartFacts], [ServiceFacts] and [HttpFacts] give each service method and the
      API's access rules, non-interference and the origins that may open a stream on every path; [ApiJson]: the
      JSON of request bodies, down to the call of the service, and of executions in answers, which reads back.
      [Worker] composes service, queue, store, worker and engine into the progress of a request.  [ServiceGroup]: whatever the schedule of requests and workers that share a queue, every
      execution a request was told is accepted is run by one worker, once, and ends in a final state, or
      still waits; with a queue that hands out what it has and takes what it can, every schedule ends, none
      is left and every request is answered ([GroupDemo]: two workers, and a
      request that waits for room).
    - Messages: round trips of jobs and events, delivery in order and at most once through the queues,
      the broker and the Redis stream, and through the websockets on top of either, down to the
      published event; the OpenAI-compatible provider reads a documented reply.
    - Shutdown: the pool of workers ends, with the in-process queue; the process releases what it opened, in reverse order,
      exactly when it ends with code 0; it does not wait for its workers.
    - Mechanisms: the circuit breaker refines a two-state machine, retry terminates with bounded
      delays, the limiter's rate, the configuration's checks, the tools' arithmetic.

    ** Bounds and fuel

    JSON parsing takes fuel 2n+1 for n bytes, which [reads] shows to be enough for every printed text
    ([JsonFacts.reads_parse]); digits of integers take fuel from their logarithm
    ([JsonFacts.digits_fuel_spec]); the engine's loop takes [maxSteps] of the code, retry
    [MaxAttempts], so both terminate by construction of the code.  The endless loop of [Worker.consume] has no
    fuel: it is a [Loop] ([Loops]) that begins its body again whenever that says so, and that a group with
    such loops comes to rest is a theorem about the queue ([requests_and_workers]).

    ** Parameters

    What is not under src is a class with its documented behaviour as laws, each with a concrete instance
    in a witness: the environment ([Env]), Unicode tables, JWT ([Jwt]), gin's context
    and binding, of which [ApiJson.json_gin] is what encoding/json makes of a body, and gorilla's upgrade ([Gin]),
    Prometheus counters and registry ([Counters], [Prometheus]), OpenTelemetry's exporter ([Otel]), the HTTP client of the provider, the Redis client, the PostgreSQL server ([PgServer], [PgLaws]), the host of
    the process ([Host]).

    ** Not modelled

    Logging and spans (pure output), the text of responses that carry lists (the model's lists do not tell a nil
    slice, printed as null, from an empty one), the exposition of the metrics, gin's routing and panic recovery,
    what net/http does with the server's timeouts (the record is in [Main]), isolation anomalies
    between concurrent SQL transactions (each is atomic here), the memory model of Go
    below the level of its mutexes and channels, and the text of the errors of other packages.

    ** Plan

    What a continuation would take up: nil slices, for the JSON of responses that carry lists; the progress of requests over PostgreSQL and Redis, for servers that do not fail. *)

From stdpp Require Export prelude strings list gmap relations fin_maps.
From Stdlib Require Export ZArith Lia.

#[export] Set Default Goal Selector "!".

(** ** Automation shared by every component *)

(** Lemmas that close the common side conditions of the components. *)
Create HintDb agentflow discriminated.

(** [case_mt] splits the outermost [match] of the goal or of a hypothesis and
    cleans up the equations it produces. *)
Ltac case_mt :=
  match goal with
  | |- context [ match ?x with _ => _ end ] => destruct x eqn:?
  | H : context [ match ?x with _ => _ end ] |- _ => destruct x eqn:?
  end; simplify_eq/=.

(** [case_cmp] splits on an integer comparison of the goal, keeping the order as a
    hypothesis [lia] can use; [cmp_lia] splits all of them and calls [lia]. *)
Ltac case_cmp :=
  match goal with
  | |- context [ (?a <=? ?b)%Z ] => destruct (Z.leb_spec a b)
  | |- context [ (?a <? ?b)%Z ] => destruct (Z.ltb_spec a b)
  | |- context [ (?a =? ?b)%Z ] => destruct (Z.eqb_spec a b)
  end; simpl.
Ltac cmp_lia := repeat case_cmp; try done; try lia.

(** [done_auto] closes goals that follow from the hint database. *)
Ltac done_auto := solve [ eauto with agentflow | naive_solver eauto with agentflow ].

(** ** Lists *)

Lemma omap_none {A B} (f : A → option B) l : Forall (λ a, f a = None) l → omap f l = [].
Proof. induction 1 as [|a l Ha _ IH]; csimpl; [done|]. by rewrite Ha. Qed.

Lemma omap_nil_Forall {A B} (f : A → option B) l : omap f l = [] → Forall (λ a, f a = None) l.
Proof. induction l as [|a l IH]; csimpl; [done|]. destruct (f a) eqn:E; [done|]. constructor; auto. Qed.

Lemma omap_concat_none {A B} (f : A → option B) (ls : list (list A)) :
  Forall (λ l, omap f l = []) ls → omap f (concat ls) = [].
Proof. induction 1 as [|l ls Hl _ IH]; [done|]. rewrite concat_cons, omap_app. by rewrite Hl, IH. Qed.

Lemma omap_then_fmap {A B C} (f : A → option B) (g : B → C) (l : list A) :
  omap (λ a, g <$> f a) l = g <$> omap f l.
Proof. induction l as [|a l IH]; [done|]. csimpl. by destruct (f a); csimpl; rewrite IH. Qed.

Lemma length_omap_le {A B} (f : A → option B) (l : list A) : length (omap f l) ≤ length l.
Proof. induction l as [|a l IH]; [done|]. csimpl. destruct (f a); simpl; lia. Qed.

(** If [f] takes different values on [l], elements with one value are one element. *)
Lemma NoDup_omap_inj {A B} (f : A → option B) (l : list A) a a' b :
  NoDup (omap f l) → a ∈ l → a' ∈ l → f a = Some b → f a' = Some b → a = a'.
Proof.
  assert (∀ (l : list A) c, c ∈ l → f c = Some b → b ∈ omap f l) as Hin.
  { intros k c Hc E. apply list_elem_of_omap. by exists c. }
  induction l as [|c l IH]; [by intros _ ?%not_elem_of_nil|]. csimpl. intros Hnd Ha Ha' E E'.
  apply elem_of_cons in Ha as [->|Ha], Ha' as [->|Ha']; [done|..];
    destruct (f c) as [b'|] eqn:Ec; simplify_eq; try apply NoDup_cons in Hnd as [Hn Hnd]; eauto;
    destruct Hn; eauto.
Qed.

Section lists.
Context {A : Type}.
Implicit Types (l : list A).

Lemma elem_of_concat (a : A) l ls : l ∈ ls → a ∈ l → a ∈ concat ls.
Proof. rewrite !list_elem_of_In, in_concat. intros Hl Ha. by exists l. Qed.
Lemma elem_of_concat_inv (a : A) ls : a ∈ concat ls → ∃ l, l ∈ ls ∧ a ∈ l.
Proof.
  rewrite list_elem_of_In, in_concat. intros (l & Hl & Ha). exists l. by rewrite !list_elem_of_In.
Qed.

Lemma NoDup_concat_inj {B} (f : B → list A) (k : list B) b b' a :
  NoDup (concat (f <$> k)) → b ∈ k → b' ∈ k → a ∈ f b → a ∈ f b' → b = b'.
Proof.
  assert (∀ k c, c ∈ k → a ∈ f c → a ∈ concat (f <$> k)) as Hin.
  { intros k' c Hc Ha. eapply elem_of_concat; [by apply list_elem_of_fmap_2|done]. }
  induction k as [|c k IH]; [by intros _ ?%not_elem_of_nil|]. csimpl.
  intros (_ & Hd & Hnd)%NoDup_app Hb Hb' Ha Ha'.
  apply elem_of_cons in Hb as [->|Hb], Hb' as [->|Hb']; [done|..|by apply IH];
    by edestruct Hd; eauto.
Qed.

(** The last [n] elements of a list, the whole list when it is shorter. *)
Definition last_n (n : nat) (l : list A) : list A := drop (length l - n) l.

Lemma length_last_n n l : length (last_n n l) = Nat.min n (length l).
Proof. unfold last_n. rewrite length_drop. lia. Qed.

Lemma last_n_suffix n l : last_n n l `suffix_of` l.
Proof. exists (take (length l - n) l). symmetry. apply take_drop. Qed.

Lemma last_n_all n l : length l ≤ n → last_n n l = l.
Proof. intros H. unfold last_n. replace (length l - n) with 0 by lia. done. Qed.
End lists.

(** Every element of [fmap f l] comes from an element of [l] at the same index. *)
Lemma fmap_lookup_inv {A B} (f : A → B) (l : list A) i y :
  (f <$> l) !! i = Some y → ∃ x, l !! i = Some x ∧ y = f x.
Proof. rewrite list_lookup_fmap. intros H. apply fmap_Some in H. naive_solver. Qed.

Lemma Forall3_forget {A B C} (P : A → B → C → Prop) (Q : A → B → Prop) l k m :
  Forall3 P l k m → (∀ x y z, x ∈ l → z ∈ m → P x y z → Q x y) → Forall2 Q l k.
Proof. induction 1; intros HPQ; constructor; eauto using list_elem_of_here, list_elem_of_further. Qed.

(** Updating the first two lists of a [Forall3] at an index. *)
Lemma Forall3_insert_12 {A B C} (P : A → B → C → Prop) l k m i x y z :
  Forall3 P l k m → m !! i = Some z → P x y z → Forall3 P (<[i:=x]> l) (<[i:=y]> k) m.
Proof.
  intros H. revert i. induction H; intros [|i] Hz HP; simplify_eq/=; constructor; auto.
Qed.

(** Looking up after an insert, with the test in the order of a map's reader. *)
Lemma lookup_insert_case {A} (m : gmap string A) k i x :
  <[k:=x]> m !! i = if decide (i = k) then Some x else m !! i.
Proof.
  destruct (decide (i = k)) as [->|]; [apply lookup_insert_eq|by apply lookup_insert_ne].
Qed.
