(* ===== verification/GoLang.v ===== *)
(** * The Go language and run-time values the program uses

    Errors with [errors.Is] and [errors.Join], 64-bit integers, [time.Time],
    [time.Duration] and [context.Context].  Nothing here models a line of the
    repository; the component files build on it. *)

From Stdlib Require Export Floats.SpecFloat.
From S2P Require Import Prelude.
Open Scope Z_scope.

(** ** Errors *)

(** The error values the program compares by identity ([errors.Is]). *)
Inductive sentinel : Set :=
| NotFound | Conflict | CircuitOpen | Canceled | DeadlineExceeded | NoRows | ServerClosed.

#[export] Instance sentinel_eq_dec : EqDecision sentinel.
Proof. solve_decision. Defined.

(** An [error]: a sentinel, [errors.New]/[fmt.Errorf] text, [fmt.Errorf] with a
    [": %w"] verb at the end, [errors.Join], or an error of a library, which may
    unwrap to another one. *)
Inductive error : Set :=
| Sentinel (s : sentinel)
| ErrorString (text : string)
| Wrap (prefix : string) (inner : error)
| Join (first second : error)
| Foreign (text : string)
| ForeignWrap (text : string) (inner : error).

#[export] Instance error_eq_dec : EqDecision error.
Proof. solve_decision. Defined.

(** [errors.Is(err, target)] for a sentinel target. *)
Fixpoint Is (err : error) (target : sentinel) : bool :=
  match err with
  | Sentinel s => bool_decide (s = target)
  | ErrorString _ | Foreign _ => false
  | Wrap _ inner | ForeignWrap _ inner => Is inner target
  | Join first second => Is first target || Is second target
  end.

Definition sentinel_text (s : sentinel) : string :=
  match s with
  | NotFound => "not found"
  | Conflict => "conflict"
  | CircuitOpen => "circuit breaker is open"
  | Canceled => "context canceled"
  | DeadlineExceeded => "context deadline exceeded"
  | NoRows => "no rows in result set"
  | ServerClosed => "http: Server closed"
  end.

Definition newline : string := String (Ascii.ascii_of_nat 10) EmptyString.

(** [err.Error()]. *)
Fixpoint Error (err : error) : string :=
  match err with
  | Sentinel s => sentinel_text s
  | ErrorString text | Foreign text | ForeignWrap text _ => text
  | Wrap prefix inner => prefix +:+ ": " +:+ Error inner
  | Join first second => Error first +:+ newline +:+ Error second
  end.

(** A Go [(T, error)] pair of which callers read [T] only when the error is nil. *)
Inductive result (A : Type) : Type :=
| Ok (a : A)
| Err (e : error).
Arguments Ok {A} a.
Arguments Err {A} e.

#[export] Instance result_eq_dec `{EqDecision A} : EqDecision (result A).
Proof. solve_decision. Defined.

#[export] Instance result_ret : MRet result := λ A a, Ok a.
#[export] Instance result_bind : MBind result :=
  λ A B f r, match r with Ok a => f a | Err e => Err e end.
#[export] Instance result_fmap : FMap result :=
  λ A B f r, match r with Ok a => Ok (f a) | Err e => Err e end.

Definition is_ok {A} (r : result A) : bool :=
  match r with Ok _ => true | Err _ => false end.

Definition result_error {A} (r : result A) : option error :=
  match r with Ok _ => None | Err e => Some e end.

Lemma Is_Wrap prefix inner s : Is (Wrap prefix inner) s = Is inner s.
Proof. done. Qed.

Lemma Is_Join e1 e2 s : Is (Join e1 e2) s = Is e1 s || Is e2 s.
Proof. done. Qed.

(** ** Integers ([int] and [int64] are both 64 bits wide) *)

Definition max_int64 : Z := 2 ^ 63 - 1.
Definition min_int64 : Z := - 2 ^ 63.
Definition int64 (z : Z) : Prop := min_int64 ≤ z ≤ max_int64.

(** Two's complement wrap-around of a 64-bit result. *)
Definition wrap64 (z : Z) : Z := (z + 2 ^ 63) mod 2 ^ 64 - 2 ^ 63.

Definition add64 (a b : Z) : Z := wrap64 (a + b).
(** [a << n] of an [int64] for a non-negative shift count. *)
Definition shl64 (a n : Z) : Z := wrap64 (Z.shiftl a n).

Lemma wrap64_range z : int64 (wrap64 z).
Proof.
  unfold int64, wrap64, min_int64, max_int64.
  pose proof (Z.mod_pos_bound (z + 2 ^ 63) (2 ^ 64)). lia.
Qed.

Lemma wrap64_id z : int64 z → wrap64 z = z.
Proof.
  unfold int64, wrap64, min_int64, max_int64. intros H.
  rewrite Z.mod_small; lia.
Qed.

Lemma wrap64_add_l a b : wrap64 (wrap64 a + b) = wrap64 (a + b).
Proof.
  unfold wrap64.
  replace ((a + 2 ^ 63) mod 2 ^ 64 - 2 ^ 63 + b + 2 ^ 63)
    with ((a + 2 ^ 63) mod 2 ^ 64 + b) by lia.
  rewrite Zplus_mod_idemp_l. f_equal. f_equal. lia.
Qed.

Lemma add64_assoc a b c : add64 (add64 a b) c = wrap64 (a + (b + c)).
Proof. unfold add64. rewrite wrap64_add_l. f_equal. lia. Qed.

Lemma shl64_multiple a n : 64 ≤ n → shl64 a n = 0.
Proof.
  intros H. unfold shl64, wrap64. rewrite Z.shiftl_mul_pow2 by lia.
  replace n with (64 + (n - 64)) by lia. rewrite Z.pow_add_r by lia.
  replace (a * (2 ^ 64 * 2 ^ (n - 64)) + 2 ^ 63)
    with (2 ^ 63 + (a * 2 ^ (n - 64)) * 2 ^ 64) by lia.
  rewrite Z.mod_add by lia. reflexivity.
Qed.

#[export] Hint Resolve wrap64_range : agentflow.

(** ** Time *)

(** [time.Time] as nanoseconds since Go's zero time (January 1, year 1, UTC). *)
Abbreviation time := Z (only parsing).
(** [time.Duration]: nanoseconds in an [int64]. *)
Abbreviation duration := Z (only parsing).

Definition zero_time : time := 0.
Definition IsZero (t : time) : bool := t =? zero_time.

Definition Millisecond : duration := 1000000.
Definition Second : duration := 1000 * Millisecond.
Definition Minute : duration := 60 * Second.
Definition Hour : duration := 60 * Minute.

(** [t.Sub(u)]: the difference saturates at the ends of [Duration]. *)
Definition Sub (t u : time) : duration := Z.max min_int64 (Z.min max_int64 (t - u)).

Lemma Sub_exact t u : int64 (t - u) → Sub t u = t - u.
Proof. unfold Sub, int64. lia. Qed.

(** For a duration in range (and above the least one), comparing the saturated
    difference is comparing times. *)
Lemma Sub_ge t u d : min_int64 < d ≤ max_int64 → (d ≤ Sub t u ↔ d ≤ t - u).
Proof. unfold Sub, min_int64, max_int64. lia. Qed.

(** ** Contexts *)

(** A [context.Context] is described by the moment its [Done] channel closes
    and the error it then reports; [None] for a context that is never done.
    An external cancellation is the moment [cancel] is called. *)
Record Context := mkContext { ctx_done : option (time * error) }.

Definition Background : Context := mkContext None.
(** A context whose cancel function runs at [t]. *)
Definition CancelledAt (t : time) : Context := mkContext (Some (t, Sentinel Canceled)).

(** [ctx.Err()] at time [now]. *)
Definition ctx_err (ctx : Context) (now : time) : option error :=
  match ctx_done ctx with
  | Some (t, e) => if t <=? now then Some e else None
  | None => None
  end.

(** [context.WithTimeout(parent, d)] at time [now]: the child is done with its
    parent, or with [DeadlineExceeded] when its own deadline comes first. *)
Definition WithTimeout (parent : Context) (now : time) (d : duration) : Context :=
  match ctx_done parent with
  | Some (t, e) => if t <=? now + d then parent else mkContext (Some (now + d, Sentinel DeadlineExceeded))
  | None => mkContext (Some (now + d, Sentinel DeadlineExceeded))
  end.

Lemma ctx_err_mono ctx t t' e : ctx_err ctx t = Some e → t ≤ t' → ctx_err ctx t' = Some e.
Proof. unfold ctx_err. destruct (ctx_done ctx) as [[td ed]|]; cmp_lia. Qed.

(** A done parent makes the child done with the same error. *)
Lemma WithTimeout_parent ctx now d t e :
  0 ≤ d → ctx_err ctx now = Some e → now ≤ t → ctx_err (WithTimeout ctx now d) t = Some e.
Proof.
  unfold WithTimeout, ctx_err. destruct (ctx_done ctx) as [[td ed]|] eqn:E; [|done].
  repeat (case_cmp; rewrite ?E); try done; lia.
Qed.

(** The child is done at the latest when its own deadline passes. *)
Lemma WithTimeout_deadline ctx now d t :
  now + d ≤ t → is_Some (ctx_err (WithTimeout ctx now d) t).
Proof.
  unfold WithTimeout, ctx_err. intros H.
  destruct (ctx_done ctx) as [[td ed]|] eqn:E; simpl;
    repeat (case_cmp; rewrite ?E); eauto; lia.
Qed.

(** What a call into a component sees of its surroundings: the context it is
    given, the time, and the position [call_tick] in the run that makes two calls
    of a non-deterministic component distinguishable. *)
Record Call := mkCall { call_ctx : Context; call_now : time; call_tick : nat }.

Definition call_err (c : Call) : option error := ctx_err (call_ctx c) (call_now c).

(** ** Values of type [any] *)

(** The dynamic values the program stores in [map[string]any] and encodes as JSON;
    [VFloat] holds an IEEE 754 binary64 number. *)
Abbreviation float64 := spec_float (only parsing).
Definition prec64 : Z := 53.
Definition emax64 : Z := 1024.

#[export] Instance float64_eq_dec : EqDecision float64.
Proof. solve_decision. Defined.

Unset Elimination Schemes.
Inductive value : Set :=
| VNull
| VBool (b : bool)
| VInt (z : Z)
| VFloat (f : float64)
| VString (s : string)
| VRaw (json : string)
| VArray (items : list value)
| VObject (members : list (string * value)).
Set Elimination Schemes.

(** Induction over the nested lists of a [value]. *)
Lemma value_ind (P : value → Prop) :
  P VNull → (∀ b, P (VBool b)) → (∀ z, P (VInt z)) → (∀ f, P (VFloat f)) →
  (∀ s, P (VString s)) → (∀ s, P (VRaw s)) →
  (∀ items, Forall P items → P (VArray items)) →
  (∀ members, Forall (λ kv, P kv.2) members → P (VObject members)) →
  ∀ v, P v.
Proof.
  intros Hn Hb Hz Hf Hs Hr Ha Ho. fix IH 1. intros [ | | | | | |items|members].
  - done.
  - apply Hb.
  - apply Hz.
  - apply Hf.
  - apply Hs.
  - apply Hr.
  - apply Ha. induction items; constructor; [apply IH|done].
  - apply Ho. induction members as [|[k v] ms]; constructor; [apply IH|done].
Qed.
