(* ===== verification/Conc.v ===== *)
(** * Effectful and concurrent code

    A goroutine is a [prog]: a finite tree of atomic actions on a shared world
    [W].  An action is one critical section of the Go code (a mutex-protected
    method, a channel operation, a call of an external component); it returns
    [None] where the Go code would block or panic.  A [proc] may also fork a group of
    goroutines and wait for all of them ([sync.WaitGroup]); their actions then
    interleave in any order.  [wp] and [pwp] are total-correctness weakest
    preconditions: they say that the code terminates without blocking or panicking, under
    every interleaving, in a state that satisfies the postcondition. *)

From S2P Require Import Prelude.

(** ** Sequential programs over a shared world *)

Inductive prog (W A : Type) : Type :=
| Ret (a : A)
| Act {X : Type} (f : W → option (X * W)) (k : X → prog W A).
Arguments Ret {W A} a.
Arguments Act {W A X} f k.

#[export] Instance prog_ret W : MRet (prog W) := λ A a, Ret a.
#[export] Instance prog_bind W : MBind (prog W) :=
  λ A B f, fix go (p : prog W A) : prog W B :=
    match p with
    | Ret a => f a
    | Act g k => Act g (λ x, go (k x))
    end.

(** A total action. *)
Definition act {W X} (f : W → X * W) : prog W X := Act (λ w, Some (f w)) Ret.

#[global] Arguments act : simpl never.

Section sequential.
Context {W : Type}.

(** Running a program alone, from a world. *)
Fixpoint run {A} (p : prog W A) (w : W) : option (A * W) :=
  match p with
  | Ret a => Some (a, w)
  | Act f k => match f w with Some (x, w') => run (k x) w' | None => None end
  end.

Fixpoint wp {A} (p : prog W A) (Q : A → W → Prop) (w : W) : Prop :=
  match p with
  | Ret a => Q a w
  | Act f k => match f w with Some (x, w') => wp (k x) Q w' | None => False end
  end.

Lemma wp_run {A} (p : prog W A) Q w :
  wp p Q w ↔ ∃ a w', run p w = Some (a, w') ∧ Q a w'.
Proof.
  revert w. induction p as [a|X f k IH]; intros w; simpl.
  - naive_solver.
  - destruct (f w) as [[x w']|]; [apply IH|naive_solver].
Qed.

Lemma wp_bind {A B} (p : prog W A) (k : A → prog W B) Q w :
  wp (p ≫= k) Q w ↔ wp p (λ a, wp (k a) Q) w.
Proof.
  revert w. induction p as [a|X f g IH]; intros w; simpl; [done|].
  destruct (f w) as [[x w']|]; [apply IH|done].
Qed.

Lemma wp_mono {A} (p : prog W A) (Q Q' : A → W → Prop) w :
  wp p Q w → (∀ a w', Q a w' → Q' a w') → wp p Q' w.
Proof. rewrite !wp_run. naive_solver. Qed.

Lemma wp_act {X} (f : W → X * W) Q w : wp (act f) Q w ↔ Q (f w).1 (f w).2.
Proof. unfold act. simpl. by destruct (f w). Qed.

Lemma run_bind {A B} (p : prog W A) (k : A → prog W B) w :
  run (p ≫= k) w = '(a, w') ← run p w; run (k a) w'.
Proof.
  revert w. induction p as [a|X f g IH]; intros w; simpl; [done|].
  destruct (f w) as [[x w']|]; [apply IH|done].
Qed.

(** A program none of whose actions ever blocks. *)
Fixpoint nonblocking {A} (p : prog W A) : Prop :=
  match p with
  | Ret _ => True
  | Act f k => (∀ w, is_Some (f w)) ∧ ∀ x, nonblocking (k x)
  end.

Lemma nonblocking_act {X} (f : W → X * W) : nonblocking (act f).
Proof. split; [eauto|done]. Qed.

Lemma nonblocking_bind {A B} (p : prog W A) (k : A → prog W B) :
  nonblocking p → (∀ a, nonblocking (k a)) → nonblocking (p ≫= k).
Proof. intros Hp Hk. induction p as [a|X f g IH]; simpl in *; naive_solver. Qed.

Lemma nonblocking_ret {A} (a : A) : nonblocking (mret a).
Proof. done. Qed.
End sequential.

#[export] Hint Resolve nonblocking_act nonblocking_ret : agentflow.

(** ** Lists one of whose elements moves *)

Section one_of.
Context {A : Type} (R : A → A → Prop).

Definition one_of (l' l : list A) : Prop :=
  ∃ i a a', l !! i = Some a ∧ R a' a ∧ l' = <[i:=a']> l.

(** If no element can move forever, the list cannot. *)
Lemma one_of_wf l : Forall (Acc R) l → Acc one_of l.
Proof.
  induction 1 as [|a l Ha _ IH].
  { constructor. intros l' (i & b & b' & H & _). done. }
  revert l IH. induction Ha as [a _ IHa]. induction 1 as [l Hl IHl].
  constructor. intros l' ([|i] & b & b' & H & Hs & ->); simplify_eq/=.
  - apply IHa; [done|by constructor].
  - apply IHl. by exists i, b, b'.
Qed.
End one_of.

(** ** Pools of goroutines *)

Section pools.
Context {W R : Type}.
Abbreviation thread := (prog W R).
Implicit Types (t : thread) (ts : list thread) (w : W).

(** One action of one goroutine. *)
Definition thread_step t w : option (thread * W) :=
  match t with
  | Ret _ => None
  | Act f k => '(x, w') ← f w; Some (k x, w')
  end.

(** One step of the pool: any goroutine that can act does. *)
Definition pool_step (s s' : list thread * W) : Prop :=
  ∃ i t t' w', s.1 !! i = Some t ∧ thread_step t s.2 = Some (t', w') ∧
               s' = (<[i:=t']> s.1, w').

Definition pool_run := rtc pool_step.

(** The pool never gets stuck before every goroutine has returned. *)
Definition pool_progress ts w : Prop :=
  ∀ ts' w', pool_run (ts, w) (ts', w') →
    (∃ rs, ts' = Ret <$> rs) ∨ ∃ s, pool_step (ts', w') s.

(** Every schedule is finite: an action moves a goroutine to a subtree. *)
Definition subtree t' t : Prop :=
  match t with Ret _ => False | Act f k => ∃ x, t' = k x end.

Lemma subtree_wf t : Acc subtree t.
Proof. induction t as [a|X f k IH]; constructor; intros t' H; naive_solver. Qed.

Definition pool_sub : list thread → list thread → Prop := one_of subtree.

Lemma pool_sub_wf ts : Acc pool_sub ts.
Proof. apply one_of_wf, Forall_true, subtree_wf. Qed.

Lemma pool_step_sub ts w ts' w' : pool_step (ts, w) (ts', w') → pool_sub ts' ts.
Proof.
  intros (i & t & t' & w1 & H & Hs & [= -> ->]). exists i, t, t'. split_and!; try done.
  destruct t as [a|X f k]; simpl in *; [done|].
  destruct (f w) as [[x w2]|]; simplify_eq/=. eauto.
Qed.

Lemma pool_step_wf ts w : sn pool_step (ts, w).
Proof.
  revert w. induction (pool_sub_wf ts) as [ts _ IH]. intros w.
  constructor. intros [ts' w'] H. apply IH. by eapply pool_step_sub.
Qed.

Lemma pool_step_here t t' ts w w' :
  thread_step t w = Some (t', w') → pool_step (t :: ts, w) (t' :: ts, w').
Proof. intros H. by exists 0, t, t', w'. Qed.

Lemma pool_step_tail t ts ts' w w' :
  pool_step (ts, w) (ts', w') → pool_step (t :: ts, w) (t :: ts', w').
Proof. intros (i & u & u' & w1 & H & Hs & [= -> ->]). by exists (S i), u, u', w1. Qed.

(** Whether some goroutine can act is decidable. *)
Lemma pool_step_dec ts w :
  (∃ s, pool_step (ts, w) s) ∨ (∀ s, ¬ pool_step (ts, w) s).
Proof.
  induction ts as [|t ts IH].
  { right. intros s (i & u & u' & w1 & H & _). done. }
  destruct (thread_step t w) as [[t' w']|] eqn:E.
  { left. eexists. by apply pool_step_here. }
  destruct IH as [[[ts' w'] H]|Hn]; [left; eexists; by apply pool_step_tail|].
  right. intros s ([|i] & u & u' & w1 & H & Hs & ->); simplify_eq/=.
  eapply (Hn (_, w1)). by exists i, u, u', w1.
Qed.

Lemma pool_normalises s : ∃ s', pool_run s s' ∧ ∀ s'', ¬ pool_step s' s''.
Proof.
  destruct s as [ts w]. induction (pool_step_wf ts w) as [[us v] _ IH].
  destruct (pool_step_dec us v) as [[s' H]|Hn].
  - destruct (IH s' H) as (s'' & Hr & Hn). exists s''. split; [|done].
    by eapply rtc_l.
  - by exists (us, v); split; [constructor|].
Qed.

(** A pool that makes progress finishes. *)
Lemma pool_finishes ts w :
  pool_progress ts w → ∃ rs w', pool_run (ts, w) (Ret <$> rs, w').
Proof.
  intros Hp. destruct (pool_normalises (ts, w)) as ([ts' w'] & Hr & Hn).
  destruct (Hp ts' w' Hr) as [[rs ->]|[s Hs]]; [by exists rs, w'|by destruct (Hn s)].
Qed.

(** Goroutines that never block make progress. *)
Lemma nonblocking_thread_step t w t' w' :
  nonblocking t → thread_step t w = Some (t', w') → nonblocking t'.
Proof.
  destruct t as [a|X f k]; simpl; [done|]. intros [_ Hk].
  destruct (f w) as [[x w1]|]; naive_solver.
Qed.

Lemma nonblocking_pool_run ts w ts' w' :
  Forall nonblocking ts → pool_run (ts, w) (ts', w') → Forall nonblocking ts'.
Proof.
  intros H Hr. remember (ts, w) as s eqn:E. remember (ts', w') as s' eqn:E'.
  revert ts w E H. induction Hr as [s|s s1 s2 Hs _ IH]; intros ts w -> H; [naive_solver|].
  destruct Hs as (i & t & t' & w1 & Hi & Ht & ->).
  eapply IH; [done..|]. apply Forall_insert; [done|].
  eapply nonblocking_thread_step; [|done]. by eapply Forall_lookup_1.
Qed.

Lemma nonblocking_enabled ts w :
  Forall nonblocking ts → (∃ rs, ts = Ret <$> rs) ∨ ∃ s, pool_step (ts, w) s.
Proof.
  induction 1 as [|t ts Ht _ IH]; [left; by exists []|].
  destruct t as [a|X f k].
  - destruct IH as [[rs ->]|[[ts' w'] H]]; [left; by exists (a :: rs)|].
    right. eexists. by apply pool_step_tail.
  - right. destruct Ht as [Hf _]. destruct (Hf w) as [[x w'] E].
    exists (k x :: ts, w'). apply pool_step_here. simpl. by rewrite E.
Qed.

Lemma nonblocking_progress ts w : Forall nonblocking ts → pool_progress ts w.
Proof.
  intros H ts' w' Hr. apply nonblocking_enabled. by eapply nonblocking_pool_run.
Qed.

(** An executable scheduler: [sched] lists the goroutines in the order they act. *)
Fixpoint run_sched (sched : list nat) ts w : list thread * W :=
  match sched with
  | [] => (ts, w)
  | i :: rest =>
      match ts !! i ≫= λ t, thread_step t w with
      | Some (t', w') => run_sched rest (<[i:=t']> ts) w'
      | None => run_sched rest ts w
      end
  end.

Definition returned t : option R := match t with Ret a => Some a | Act _ _ => None end.
Definition results ts : option (list R) := mapM returned ts.

Lemma results_Some ts rs : results ts = Some rs → ts = Ret <$> rs.
Proof.
  unfold results. rewrite mapM_Some. induction 1 as [|t r ts rs Ht _ IH]; [done|].
  destruct t; simplify_eq/=. done.
Qed.

Lemma run_sched_sound sched ts w : pool_run (ts, w) (run_sched sched ts w).
Proof.
  revert ts w. induction sched as [|i sched IH]; intros ts w; simpl; [constructor|].
  destruct (ts !! i) as [t|] eqn:Hi; simpl; [|apply IH].
  destruct (thread_step t w) as [[t' w']|] eqn:Ht; [|apply IH].
  eapply rtc_l; [|apply IH]. by exists i, t, t', w'.
Qed.

(** A computed result is one of an interleaving. *)
Lemma run_sched_result {B} sched ts w (f : list R → W → B) b :
  results (run_sched sched ts w).1 ≫= (λ rs, Some (f rs (run_sched sched ts w).2)) = Some b →
  ∃ rs w', pool_run (ts, w) (Ret <$> rs, w') ∧ f rs w' = b.
Proof.
  pose proof (run_sched_sound sched ts w) as Hr. destruct (run_sched sched ts w) as [ts' w'].
  simpl. destruct (results ts') as [rs|] eqn:E; simpl; [|done]. intros [= <-].
  apply results_Some in E as ->. by exists rs, w'.
Qed.
End pools.

(** ** Processes that fork and join goroutines *)

Inductive proc (W R A : Type) : Type :=
| PRet (a : A)
| PAct {X : Type} (f : W → option (X * W)) (k : X → proc W R A)
| PGo (ts : list (prog W R)) (k : list R → proc W R A).
Arguments PRet {W R A} a.
Arguments PAct {W R A X} f k.
Arguments PGo {W R A} ts k.

#[export] Instance proc_ret W R : MRet (proc W R) := λ A a, PRet a.
#[export] Instance proc_bind W R : MBind (proc W R) :=
  λ A B f, fix go (p : proc W R A) : proc W R B :=
    match p with
    | PRet a => f a
    | PAct g k => PAct g (λ x, go (k x))
    | PGo ts k => PGo ts (λ rs, go (k rs))
    end.

(** Code that forks nothing, as part of a process. *)
Fixpoint lift {W R A} (p : prog W A) : proc W R A :=
  match p with
  | Ret a => PRet a
  | Act f k => PAct f (λ x, lift (k x))
  end.

(** Start one goroutine per program, wait for all, collect their results by index. *)
Definition go_wait {W R} (ts : list (prog W R)) : proc W R (list R) := PGo ts PRet.

Section processes.
Context {W R : Type}.

(** [exec p w a w']: some interleaving of [p] from [w] returns [a] in [w']. *)
Fixpoint exec {A} (p : proc W R A) (w : W) (a : A) (w' : W) : Prop :=
  match p with
  | PRet b => a = b ∧ w' = w
  | PAct f k => ∃ x w1, f w = Some (x, w1) ∧ exec (k x) w1 a w'
  | PGo ts k => ∃ rs w1, pool_run (ts, w) (Ret <$> rs, w1) ∧ exec (k rs) w1 a w'
  end.

Fixpoint pwp {A} (p : proc W R A) (Q : A → W → Prop) (w : W) : Prop :=
  match p with
  | PRet a => Q a w
  | PAct f k => match f w with Some (x, w') => pwp (k x) Q w' | None => False end
  | PGo ts k => pool_progress ts w ∧
      ∀ rs w', pool_run (ts, w) (Ret <$> rs, w') → pwp (k rs) Q w'
  end.

Lemma pwp_bind {A B} (p : proc W R A) (k : A → proc W R B) Q w :
  pwp p (λ a, pwp (k a) Q) w → pwp (p ≫= k) Q w.
Proof.
  revert w. induction p as [a|X f g IH|ts g IH]; intros w; simpl; [done| |].
  - destruct (f w) as [[x w']|]; [apply IH|done].
  - intros [Hp H]. split; [done|]. intros rs w' Hr. by apply IH, H.
Qed.

Lemma pwp_lift {A} (p : prog W A) Q w : wp p Q w → pwp (lift p) Q w.
Proof.
  revert w. induction p as [a|X f g IH]; intros w; simpl; [done|].
  destruct (f w) as [[x w']|]; [apply IH|done].
Qed.

Lemma pwp_mono {A} (p : proc W R A) (Q Q' : A → W → Prop) w :
  pwp p Q w → (∀ a w', Q a w' → Q' a w') → pwp p Q' w.
Proof.
  intros H HQ. revert w H. induction p as [a|X f g IH|ts g IH]; intros w; simpl.
  - apply HQ.
  - destruct (f w) as [[x w']|]; [apply IH|done].
  - intros [Hp H]. split; [done|]. intros rs w' Hr. by apply IH, H.
Qed.

Lemma pwp_and {A} (p : proc W R A) (Q Q' : A → W → Prop) w :
  pwp p Q w → pwp p Q' w → pwp p (λ a w', Q a w' ∧ Q' a w') w.
Proof.
  revert w. induction p as [a|X f g IH|ts g IH]; intros w; simpl; [done| |].
  - destruct (f w) as [[x w']|]; [apply IH|done].
  - intros [Hp H] [_ H']. split; [done|]. intros rs w' Hr. apply IH; [by apply H|by apply H'].
Qed.

Lemma pwp_go_wait ts Q w :
  Forall nonblocking ts →
  (∀ rs w', pool_run (ts, w) (Ret <$> rs, w') → Q rs w') → pwp (go_wait ts) Q w.
Proof. intros Hn H. split; [by apply nonblocking_progress|done]. Qed.

(** Every execution satisfies the postcondition. *)
Lemma pwp_exec {A} (p : proc W R A) Q w a w' : pwp p Q w → exec p w a w' → Q a w'.
Proof.
  revert w. induction p as [b|X f g IH|ts g IH]; intros w; simpl.
  - by intros H [-> ->].
  - intros H (x & w1 & Hf & He). rewrite Hf in H. by eapply IH.
  - intros [_ H] (rs & w1 & Hr & He). eapply IH; [|done]. by apply H.
Qed.

(** And there is one: the process terminates. *)
Lemma pwp_terminates {A} (p : proc W R A) Q w : pwp p Q w → ∃ a w', exec p w a w' ∧ Q a w'.
Proof.
  revert w. induction p as [b|X f g IH|ts g IH]; intros w; simpl.
  - naive_solver.
  - destruct (f w) as [[x w1]|] eqn:E; [|done]. intros H.
    destruct (IH x w1 H) as (a & w' & He & HQ). eauto 10.
  - intros [Hp H]. destruct (pool_finishes ts w Hp) as (rs & w1 & Hr).
    destruct (IH rs w1 (H rs w1 Hr)) as (a & w' & He & HQ). eauto 10.
Qed.

(** One step of a process: of itself, of one of its goroutines, or the join. *)
Definition proc_step {A} (s s' : proc W R A * W) : Prop :=
  match s.1 with
  | PRet _ => False
  | PAct f k => ∃ x w', f s.2 = Some (x, w') ∧ s' = (k x, w')
  | PGo ts k => (∃ ts' w', pool_step (ts, s.2) (ts', w') ∧ s' = (PGo ts' k, w')) ∨
                ∃ rs, ts = Ret <$> rs ∧ s' = (k rs, s.2)
  end.

(** An interleaving of a process is a sequence of its steps, and conversely. *)
Lemma exec_steps {A} (p : proc W R A) w a w' :
  exec p w a w' ↔ rtc proc_step (p, w) (PRet a, w').
Proof.
  split.
  - revert w. induction p as [b|X f g IH|ts g IH]; intros w; simpl.
    + by intros [-> ->].
    + intros (x & w1 & Hf & He). eapply rtc_l; [|by apply IH]. by exists x, w1.
    + intros (rs & w1 & Hr & He).
      assert (rtc proc_step (PGo ts g, w) (PGo (Ret <$> rs) g, w1)) as Hg.
      { remember (ts, w) as s eqn:E. remember (Ret <$> rs, w1) as s' eqn:E'. clear He IH.
        revert ts w E. induction Hr as [s|s [ts2 w2] s' Hs _ IH]; intros ts w ->.
        - by injection E' as -> ->.
        - eapply rtc_l; [|by apply IH]. left. by exists ts2, w2. }
      etrans; [exact Hg|]. eapply rtc_l; [|by apply IH]. right. by exists rs.
  - intros Hr. remember (p, w) as s eqn:E. remember (PRet a, w') as s' eqn:E'.
    revert p w E. induction Hr as [s|s [p2 w2] s' Hs _ IH]; intros p w ->.
    { injection E' as -> ->. done. }
    specialize (IH E' _ _ eq_refl). destruct p as [b|X f g|ts g]; simpl in *; [done| |].
    + destruct Hs as (x & w3 & Hf & [= -> ->]). eauto.
    + destruct Hs as [(ts' & w3 & Hst & [= -> ->])|(rs & -> & [= -> ->])].
      * destruct IH as (rs & w1 & Hrun & He). exists rs, w1. split; [|done].
        by eapply rtc_l.
      * exists rs, w. split; [constructor|done].
Qed.

(** Executable runs: every fork uses the schedule [sched]. *)
Fixpoint prun {A} (sched : list nat) (p : proc W R A) (w : W) : option (A * W) :=
  match p with
  | PRet a => Some (a, w)
  | PAct f k => match f w with Some (x, w') => prun sched (k x) w' | None => None end
  | PGo ts k => match run_sched sched ts w with
                | (ts', w') => match results ts' with
                               | Some rs => prun sched (k rs) w'
                               | None => None
                               end
                end
  end.

Lemma prun_exec {A} sched (p : proc W R A) w a w' :
  prun sched p w = Some (a, w') → exec p w a w'.
Proof.
  revert w. induction p as [b|X f g IH|ts g IH]; intros w; simpl; [naive_solver| |].
  - destruct (f w) as [[x w1]|]; [|done]. intros H. apply IH in H. eauto.
  - destruct (run_sched sched ts w) as [ts' w1] eqn:E.
    destruct (results ts') as [rs|] eqn:Er; [|done]. intros H.
    apply results_Some in Er as ->. exists rs, w1.
    rewrite <-E. split; [apply run_sched_sound|by apply IH].
Qed.

(** A computed result is one of an interleaving. *)
Lemma prun_result {A B} sched (p : proc W R A) w (f : A → B) b :
  (fst <$> prun sched p w) ≫= (λ a, Some (f a)) = Some b →
  ∃ a w', exec p w a w' ∧ f a = b.
Proof.
  destruct (prun sched p w) as [[a w']|] eqn:E; simpl; [|done]. intros [= <-].
  exists a, w'. split; [by eapply prun_exec|done].
Qed.
End processes.
