(* ===== verification/Rely.v ===== *)
(** * Rely-guarantee reasoning about goroutines

    [G w e w'] says that the world may go from [w] to [w'] while [e] is logged, and [I] is
    an invariant of the world.  [tspec] describes one goroutine and [pspec] one process that
    forks goroutines under arbitrary interference that keeps [I]: every action is a step of
    [G], and what is returned and logged satisfies a postcondition.  The logs of goroutines
    that run at the same time are interleaved, each in its own order ([shuffled]). *)

From S2P Require Import Prelude Conc.

(** ** Interleaved logs *)

Section shuffled.
Context {O : Type}.
Implicit Types (l tr : list O) (ls : list (list O)).

(** [tr] is an interleaving of [ls]: each of them grows at its end as [tr] does. *)
Inductive shuffled : list (list O) → list O → Prop :=
| shuffled_nil n : shuffled (replicate n []) []
| shuffled_app ls tr i l e :
    shuffled ls tr → ls !! i = Some l → shuffled (<[i := l ++ e]> ls) (tr ++ e).

Lemma concat_insert_app ls i l e :
  ls !! i = Some l → concat (<[i := l ++ e]> ls) ≡ₚ concat ls ++ e.
Proof.
  revert i. induction ls as [|l0 ls IH]; intros [|i] H; simplify_eq/=.
  - rewrite <-!(assoc_L (++)). f_equiv. apply Permutation_app_comm.
  - rewrite (IH i) by done. by rewrite (assoc_L (++)).
Qed.

Lemma shuffled_perm ls tr : shuffled ls tr → tr ≡ₚ concat ls.
Proof.
  induction 1 as [n|ls tr i l e _ IH Hi].
  - by induction n.
  - by rewrite (concat_insert_app _ _ _ _ Hi), IH.
Qed.

(** What only one of the lists contains is in the interleaving in that list's order. *)
Lemma shuffled_omap {B} (f : O → option B) ls tr i l :
  shuffled ls tr → ls !! i = Some l →
  (∀ j l', j ≠ i → ls !! j = Some l' → Forall (λ o, f o = None) l') →
  omap f tr = omap f l.
Proof.
  intros Hs. revert l. induction Hs as [n|ls tr j l0 e Hs IH Hj]; intros l Hi Ho.
  { apply lookup_replicate in Hi as [-> _]. done. }
  assert (∀ k l', k ≠ i → ls !! k = Some l' → Forall (λ o, f o = None) l') as Ho'.
  { intros k l' Hk Hl. destruct (decide (k = j)) as [->|Hkj].
    - rewrite Hj in Hl. injection Hl as <-. eapply (Forall_app _ l0 e), Ho; [exact Hk|].
      by apply list_lookup_insert_eq, (lookup_lt_Some _ _ _ Hj).
    - apply (Ho k l' Hk). by rewrite list_lookup_insert_ne. }
  rewrite omap_app. destruct (decide (i = j)) as [->|Hij].
  - rewrite list_lookup_insert_eq in Hi by (by eapply lookup_lt_Some). injection Hi as <-.
    by rewrite omap_app, (IH l0 Hj Ho').
  - rewrite list_lookup_insert_ne in Hi by done. rewrite (IH l Hi Ho').
    rewrite (omap_none f e); [by apply app_nil_r|].
    eapply (Forall_app _ l0 e), (Ho j); [done|].
    by apply list_lookup_insert_eq, (lookup_lt_Some _ _ _ Hj).
Qed.

(** The same for one piece of one of the lists. *)
Lemma shuffled_piece {B} (f : O → option B) (pss : list (list (list O))) tr p rest :
  shuffled ((λ ps, concat ps) <$> pss) tr → concat pss ≡ₚ p :: rest →
  Forall (λ r, omap f r = []) rest → omap f tr = omap f p.
Proof.
  intros Hs Hp Hr. assert (p ∈ concat pss) as Hin by (rewrite Hp; apply list_elem_of_here).
  apply elem_of_concat_inv in Hin as (ps & Hps & Hin).
  apply list_elem_of_split in Hps as (R1 & R2 & ->).
  apply list_elem_of_split in Hin as (a & b & ->).
  assert (∀ r, r ∈ concat R1 ++ a ++ b ++ concat R2 → omap f r = []) as Hnone.
  { intros r Hin. rewrite Forall_forall in Hr. apply Hr.
    enough (rest ≡ₚ concat R1 ++ a ++ b ++ concat R2) as -> by done.
    apply (Permutation_cons_inv (a := p)). rewrite <-Hp, concat_app. csimpl. solve_Permutation. }
  assert (∀ rs, (∀ r, r ∈ rs → r ∈ concat R1 ++ a ++ b ++ concat R2) → omap f (concat rs) = [])
    as Hnones by (intros rs Hrs; apply omap_concat_none, Forall_forall; auto).
  rewrite (shuffled_omap f _ _ (length R1) (concat (a ++ p :: b)) Hs).
  - rewrite concat_app, concat_cons, !omap_app, !Hnones, app_nil_r; [done| |];
      intros r Hin; rewrite !elem_of_app; auto.
  - by rewrite list_lookup_fmap, list_lookup_middle.
  - intros j l' Hj Hl. rewrite list_lookup_fmap in Hl. apply fmap_Some in Hl as (rs & Hrs & ->).
    apply omap_nil_Forall, Hnones. intros r Hin. rewrite !elem_of_app.
    apply lookup_app_Some in Hrs as [Hrs|[Hle Hrs]].
    + left. eapply elem_of_concat; [by eapply list_elem_of_lookup_2|done].
    + destruct (j - length R1)%nat as [|k] eqn:E; [lia|]. do 3 right.
      eapply elem_of_concat; [by eapply list_elem_of_lookup_2|done].
Qed.
End shuffled.

(** The entries may be renamed. *)
Lemma shuffled_fmap {O O'} (f : O → O') (ls : list (list O)) tr :
  shuffled ls tr → shuffled (fmap (M := list) f <$> ls) (f <$> tr).
Proof.
  induction 1 as [n|ls tr i l e _ IH Hi].
  - rewrite fmap_replicate. constructor.
  - rewrite list_fmap_insert, !fmap_app. apply shuffled_app; [done|].
    by rewrite list_lookup_fmap, Hi.
Qed.

Lemma shuffled_fmap_inv {O O'} (f : O → O') (ls : list (list O)) tr' :
  shuffled (fmap (M := list) f <$> ls) tr' → ∃ tr, tr' = f <$> tr ∧ shuffled ls tr.
Proof.
  intros Hs. remember (fmap (M := list) f <$> ls) as ls' eqn:E. revert ls E.
  induction Hs as [n|ls' tr' i l e Hs IH Hi]; intros ls E.
  - exists []. split; [done|]. assert (ls = replicate n []) as ->; [|constructor].
    revert n E. induction ls as [|[|o l] ls IH]; intros [|n]; try done.
    csimpl. intros [= E]. f_equal. by apply IH.
  - assert (fmap (M := list) f <$> ls !! i = Some (l ++ e)) as Hli.
    { rewrite <-list_lookup_fmap, <-E. by apply list_lookup_insert_eq, (lookup_lt_Some _ _ _ Hi). }
    apply fmap_Some in Hli as (m & Hm & Hml). symmetry in Hml.
    apply fmap_app_inv in Hml as (l0 & e0 & -> & -> & ->).
    destruct (IH (<[i:=l0]> ls)) as (tr & -> & Hs').
    { rewrite list_fmap_insert, <-E, list_insert_insert_eq. symmetry. by apply list_insert_id. }
    exists (tr ++ e0). split; [by rewrite fmap_app|].
    assert (ls = <[i := l0 ++ e0]> (<[i := l0]> ls)) as ->.
    { by rewrite list_insert_insert_eq, list_insert_id. }
    rewrite list_insert_insert_eq, list_insert_id by done.
    rewrite <-(list_insert_id ls i (l0 ++ e0)) at 1 by done.
    rewrite <-(list_insert_insert_eq ls i (l0 ++ e0) l0).
    apply shuffled_app; [done|]. by apply list_lookup_insert_eq, (lookup_lt_Some _ _ _ Hm).
Qed.

(** ** Labelled transitions *)

(** The transitions compose, and keep the invariant. *)
Class Labelled {W O : Type} (G : W → list O → W → Prop) (I : W → Prop) : Prop := {
  label_nil w : G w [] w;
  label_app w e w1 e' w2 : G w e w1 → G w1 e' w2 → G w (e ++ e') w2;
  label_keeps w e w' : G w e w' → I w → I w'
}.

Section rely_guarantee.
Context {W O : Type} (G : W → list O → W → Prop) (I : W → Prop).

(** One goroutine, which must never block. *)
Fixpoint tspec {A} (t : prog W A) (acc : list O) (P : A → list O → Prop) : Prop :=
  match t with
  | Ret a => P a acc
  | Act f k => ∀ w, I w →
      match f w with
      | Some (x, w') => ∃ e, G w e w' ∧ tspec (k x) (acc ++ e) P
      | None => False
      end
  end.

Lemma tspec_bind {A B} (t : prog W A) (k : A → prog W B) acc P :
  tspec t acc (λ a acc', tspec (k a) acc' P) → tspec (t ≫= k) acc P.
Proof.
  revert acc. induction t as [a|X f g IH]; intros acc H; [done|]. intros w HI.
  specialize (H w HI). simpl. destruct (f w) as [[x w']|]; [|done].
  destruct H as (e & He & Hk). eauto.
Qed.

Lemma tspec_act {X} (f : W → X * W) acc P :
  (∀ w, I w → ∃ e, G w e (f w).2 ∧ P (f w).1 (acc ++ e)) → tspec (act f) acc P.
Proof. intros H w HI. specialize (H w HI). by destruct (f w). Qed.

Lemma tspec_mono {A} (t : prog W A) acc (P Q : A → list O → Prop) :
  tspec t acc P → (∀ a acc', P a acc' → Q a acc') → tspec t acc Q.
Proof.
  intros H HPQ. revert acc H. induction t as [a|X f g IH]; intros acc H; [by apply HPQ|].
  intros w HI. specialize (H w HI). destruct (f w) as [[x w']|]; [|done].
  destruct H as (e & He & Hk). eauto.
Qed.

(** A goroutine's log starts from what it has logged before. *)
Lemma tspec_app {A} (t : prog W A) acc acc' (P : A → list O → Prop) :
  tspec t acc' (λ a e, P a (acc ++ e)) → tspec t (acc ++ acc') P.
Proof.
  revert acc'. induction t as [a|X f g IH]; intros acc' H; [done|]. intros w HI.
  specialize (H w HI). destruct (f w) as [[x w']|]; [|done].
  destruct H as (e & He & Hk). exists e. split; [done|].
  rewrite <-(assoc_L (++)). by apply IH.
Qed.

(** *** Pools of goroutines *)

Section pool.
Context `{!Labelled G I} {R : Type}.

Definition pool_inv (w0 : W) (e0 : list O) (Ps : list (R → list O → Prop))
    (ts : list (prog W R)) (w : W) : Prop :=
  I w ∧ ∃ e accs, G w0 e w ∧ shuffled accs (e0 ++ e) ∧
                  Forall3 (λ t acc P, tspec t acc P) ts accs Ps.

Lemma pool_inv_start w e0 Ps ts accs :
  Forall3 (λ t acc P, tspec t acc P) ts accs Ps → shuffled accs e0 → I w →
  pool_inv w e0 Ps ts w.
Proof.
  intros HF Hs HI. split; [done|]. exists [], accs. rewrite (right_id_L [] (++)).
  split_and!; [apply label_nil|done..].
Qed.

Lemma pool_inv_step w0 e0 Ps s s' :
  pool_inv w0 e0 Ps s.1 s.2 → pool_step s s' → pool_inv w0 e0 Ps s'.1 s'.2.
Proof.
  intros (HI & e & accs & HG & Hs & HF) (i & t & t' & w' & Hi & Ht & ->). simpl.
  destruct (Forall3_lookup_l _ _ _ _ _ _ HF Hi) as (acc & P & Hacc & HP & Hsp).
  destruct t as [a|X f k]; [done|]. simpl in Ht, Hsp. specialize (Hsp s.2 HI).
  destruct (f s.2) as [[x w1]|] eqn:Hf; simplify_eq/=.
  destruct Hsp as (e' & He & Hk).
  split; [by eapply label_keeps|]. exists (e ++ e'), (<[i:=acc ++ e']> accs). split_and!.
  - by eapply label_app.
  - rewrite (assoc_L (++)). by apply shuffled_app.
  - by eapply Forall3_insert_12.
Qed.

Lemma pool_inv_run w0 e0 Ps s s' :
  pool_run s s' → pool_inv w0 e0 Ps s.1 s.2 → pool_inv w0 e0 Ps s'.1 s'.2.
Proof. induction 1; eauto using pool_inv_step. Qed.

Lemma tspec_enabled ts accs (Ps : list (R → list O → Prop)) w :
  I w → Forall3 (λ t acc P, tspec t acc P) ts accs Ps →
  (∃ rs, ts = Ret <$> rs) ∨ ∃ s, pool_step (ts, w) s.
Proof.
  intros HI HF. induction HF as [|t acc P ts accs Ps Ht _ IH].
  { left. by exists []. }
  destruct t as [a|X f k].
  - destruct IH as [[rs ->]|[[ts' w'] H]]; [left; by exists (a :: rs)|].
    right. eexists. by apply pool_step_tail.
  - right. specialize (Ht w HI). destruct (f w) as [[x w']|] eqn:E; [|done].
    exists (k x :: ts, w'). apply pool_step_here. simpl. by rewrite E.
Qed.

Lemma tspec_returned (rs : list R) accs Ps :
  Forall3 (λ t acc P, tspec t acc P) (Ret <$> rs) accs Ps →
  Forall3 (λ r acc (P : R → list O → Prop), P r acc) rs accs Ps.
Proof.
  intros HF. remember (Ret <$> rs) as us eqn:E. revert rs E.
  induction HF as [|t acc P ts accs Ps Ht _ IH]; intros [|r rs] E; simplify_eq/=;
    constructor; eauto.
Qed.

Lemma tspec_start (ts : list (prog W R)) Ps :
  Forall2 (λ t P, tspec t [] P) ts Ps →
  ∃ accs, shuffled accs [] ∧ Forall3 (λ t acc P, tspec t acc P) ts accs Ps.
Proof.
  intros HF. exists (replicate (length ts) []). split; [constructor|].
  induction HF; simpl; constructor; done.
Qed.

(** Whatever the schedule, the goroutines finish, with results that satisfy their
    postconditions, and their logs are interleaved. *)
Lemma pool_spec (ts : list (prog W R)) accs e0 Ps w :
  Forall3 (λ t acc P, tspec t acc P) ts accs Ps → shuffled accs e0 → I w →
  pool_progress ts w ∧
  ∀ rs w', pool_run (ts, w) (Ret <$> rs, w') →
    ∃ e es, G w e w' ∧ shuffled es (e0 ++ e) ∧
            Forall3 (λ r e (P : R → list O → Prop), P r e) rs es Ps.
Proof.
  intros HF Hs HI. pose proof (pool_inv_start w e0 Ps ts accs HF Hs HI) as Hinv.
  split.
  { intros ts' w' Hr. destruct (pool_inv_run _ _ _ _ _ Hr Hinv) as (HI' & e & accs' & _ & _ & HF').
    by eapply tspec_enabled. }
  intros rs w' Hr. destruct (pool_inv_run _ _ _ _ _ Hr Hinv) as (_ & e & accs' & He & Hs' & HF').
  exists e, accs'. split_and!; [done..|]. by apply tspec_returned.
Qed.

(** Goroutines described by [tspec]: the join point knows what each returned and
    logged, but not in which order. *)
Lemma pwp_go_wait_spec ts Ps (Q : list R → W → Prop) w :
  Forall2 (λ t P, tspec t [] P) ts Ps → I w →
  (∀ rs w' e es, G w e w' → shuffled es e →
     Forall3 (λ r e (P : R → list O → Prop), P r e) rs es Ps → Q rs w') →
  pwp (go_wait ts) Q w.
Proof.
  intros HF HI HQ. destruct (tspec_start ts Ps HF) as (accs & Hs & HF3).
  destruct (pool_spec ts accs [] Ps w HF3 Hs HI) as [Hp Hr].
  split; [done|]. intros rs w' Hrun. destruct (Hr rs w' Hrun) as (e & es & He & Hes & H3).
  by eapply HQ.
Qed.
End pool.
End rely_guarantee.

(** ** Processes *)

Section processes.
Context {W O R : Type} (G : W → list O → W → Prop) (I : W → Prop).
Abbreviation tspecs := (Forall3 (λ t acc P, tspec G I t acc P)).
Abbreviation posts := (Forall3 (λ (r : R) e (P : R → list O → Prop), P r e)).

(** One process; [B acc w] holds where it may have to wait.  A process that has forked knows
    what each of its goroutines has logged so far, and that the order is theirs. *)
Fixpoint pspec {A} (B : list O → W → Prop) (p : proc W R A) (acc : list O)
    (P : A → list O → Prop) : Prop :=
  match p with
  | PRet a => P a acc
  | PAct f k => ∀ w, I w →
      match f w with
      | Some (x, w') => ∃ e, G w e w' ∧ pspec B (k x) (acc ++ e) P
      | None => B acc w
      end
  | PGo ts k => ∃ front e0 accs Ps, acc = front ++ e0 ∧ shuffled accs e0 ∧ tspecs ts accs Ps ∧
      ∀ rs es e, posts rs es Ps → shuffled es e → pspec B (k rs) (front ++ e) P
  end.

Lemma pspec_mono {A} B (p : proc W R A) acc (P Q : A → list O → Prop) :
  pspec B p acc P → (∀ a acc', P a acc' → Q a acc') → pspec B p acc Q.
Proof.
  intros H HPQ. revert acc H. induction p as [a|X f g IH|ts g IH]; intros acc H; [by apply HPQ| |].
  - intros w HI. specialize (H w HI). destruct (f w) as [[x w']|]; [|done].
    destruct H as (e & He & Hk). eauto.
  - destruct H as (front & e0 & accs & Ps & -> & Hs & HF & Hk).
    exists front, e0, accs, Ps. split_and!; eauto.
Qed.

Lemma pspec_bind {A B} Bl (p : proc W R A) (k : A → proc W R B) acc P :
  pspec Bl p acc (λ a acc', pspec Bl (k a) acc' P) → pspec Bl (p ≫= k) acc P.
Proof.
  revert acc. induction p as [a|X f g IH|ts g IH]; intros acc H; [done| |].
  - intros w HI. specialize (H w HI). simpl. destruct (f w) as [[x w']|]; [|done].
    destruct H as (e & He & Hk). eauto.
  - destruct H as (front & e0 & accs & Ps & -> & Hs & HF & Hk).
    exists front, e0, accs, Ps. split_and!; [done..|]. intros rs es e H3 He. by eapply IH, Hk.
Qed.

(** A process's log starts from what it has logged before. *)
Lemma pspec_app {A} (B B' : list O → W → Prop) (p : proc W R A) acc acc'
    (P : A → list O → Prop) :
  pspec B' p acc' (λ a e, P a (acc ++ e)) → (∀ l w, B' l w → B (acc ++ l) w) →
  pspec B p (acc ++ acc') P.
Proof.
  intros H HB. revert acc' H. induction p as [a|X f g IH|ts g IH]; intros acc' H; [done| |].
  - intros w HI. specialize (H w HI). destruct (f w) as [[x w']|]; [|by apply HB].
    destruct H as (e & He & Hk). exists e. split; [done|].
    rewrite <-(assoc_L (++)). by apply IH.
  - destruct H as (front & e0 & accs & Ps & -> & Hs & HF & Hk).
    exists (acc ++ front), e0, accs, Ps. split_and!; [by rewrite (assoc_L (++))|done..|].
    intros rs es e H3 He. rewrite <-(assoc_L (++)). by eapply IH, Hk.
Qed.

(** A process that runs after [acc] has been logged. *)
Lemma pspec_sub {A} (B B' : list O → W → Prop) (p : proc W R A) acc
    (P Q : A → list O → Prop) :
  pspec B' p [] P → (∀ a e, P a e → Q a (acc ++ e)) → (∀ l w, B' l w → B (acc ++ l) w) →
  pspec B p acc Q.
Proof.
  intros HP HQ HB. rewrite <-(right_id_L [] (++) acc). eapply pspec_app; [|exact HB].
  eapply pspec_mono; [exact HP|]. auto.
Qed.

Lemma pspec_lift {A} B (p : prog W A) acc (P : A → list O → Prop) :
  tspec G I p acc P → pspec B (lift p) acc P.
Proof.
  revert acc. induction p as [a|X f g IH]; intros acc H; [done|]. intros w HI.
  specialize (H w HI). simpl. destruct (f w) as [[x w']|]; [|done].
  destruct H as (e & He & Hk). eauto.
Qed.

Lemma pspec_go_wait B ts Ps acc (P : list R → list O → Prop) :
  Forall2 (λ t P, tspec G I t [] P) ts Ps →
  (∀ rs es e, posts rs es Ps → shuffled es e → P rs (acc ++ e)) →
  pspec B (go_wait ts) acc P.
Proof.
  intros HF HP. destruct (tspec_start _ _ ts Ps HF) as (accs & Hs & HF3).
  exists acc, [], accs, Ps. by rewrite (right_id_L [] (++)).
Qed.

Section alone.
Context `{!Labelled G I}.

(** Run alone, a process that never waits logs its own log. *)
Lemma pspec_pwp {A} (p : proc W R A) acc (P : A → list O → Prop) w :
  pspec (λ _ _, False) p acc P → I w →
  pwp p (λ a w', ∃ e, G w e w' ∧ P a (acc ++ e)) w.
Proof.
  revert acc w. induction p as [a|X f g IH|ts g IH]; intros acc w H HI; simpl.
  - exists []. rewrite (right_id_L [] (++)). split; [apply label_nil|done].
  - specialize (H w HI). destruct (f w) as [[x w']|]; [|done].
    destruct H as (e & He & Hk). eapply pwp_mono; [eapply IH; [done|by eapply label_keeps]|].
    intros a w2 (e2 & He2 & HP). exists (e ++ e2). rewrite (assoc_L (++)).
    split; [by eapply label_app|done].
  - destruct H as (front & e0 & accs & Ps & -> & Hs & HF & Hk).
    destruct (pool_spec G I ts accs e0 Ps w HF Hs HI) as [Hp Hr].
    split; [done|]. intros rs w' Hrun. destruct (Hr rs w' Hrun) as (e & es & He & Hes & H3).
    eapply pwp_mono; [eapply IH; [by apply (Hk rs es (e0 ++ e))|by eapply label_keeps]|].
    intros a w2 (e2 & He2 & HP). exists (e ++ e2). rewrite <-!(assoc_L (++)) in *.
    split; [by eapply label_app|done].
Qed.
End alone.
End processes.

(** ** Processes that learn

    What a process may assume of the world can grow as it goes: after an action it may go on
    with any stronger assertion that holds then and that no transition of [G] breaks.  The
    process itself may be held to fewer transitions [T] than the others make. *)

Class Guarantee {W O : Type} (G T : W → list O → W → Prop) : Prop := {
  guarantee_sub w e w' : T w e w' → G w e w';
  guarantee_nil w : T w [] w;
  guarantee_app w e w1 e' w2 : T w e w1 → T w1 e' w2 → T w (e ++ e') w2
}.

Lemma guarantee_keeps {W O} (G T : W → list O → W → Prop) I :
  Guarantee G T → Labelled G I → Labelled T I.
Proof.
  intros HT HL. split; [apply guarantee_nil|apply guarantee_app|].
  intros w e w' He. by apply (label_keeps w e), guarantee_sub.
Qed.

Lemma guaranteed {W O} (G T : W → list O → W → Prop) I w e w' :
  Guarantee G T → Labelled G I → T w e w' → I w → I w'.
Proof. intros HT HL He. by apply (label_keeps w e), guarantee_sub. Qed.

Lemma guarantee_all {W O} (G : W → list O → W → Prop) I : Labelled G I → Guarantee G G.
Proof. intros HL. split; [done|apply label_nil|apply label_app]. Qed.

Record learned {W O} (G : W → list O → W → Prop) (I J : W → Prop) (w : W) : Prop := {
  learned_stable : Labelled G J;
  learned_now : J w;
  learned_more v : J v → I v
}.

Section learning.
Context {W O R : Type} (G T : W → list O → W → Prop).
Abbreviation tspecs I := (Forall3 (λ t acc P, tspec T I t acc P)).
Abbreviation posts := (Forall3 (λ (r : R) e (P : R → list O → Prop), P r e)).
Implicit Types (I J : W → Prop) (B : list O → W → Prop).

Fixpoint rspec {A} B (p : proc W R A) I (acc : list O) (P : A → list O → Prop) : Prop :=
  match p with
  | PRet a => P a acc
  | PAct f k => ∀ w, I w →
      match f w with
      | Some (x, w') => ∃ e J, T w e w' ∧ learned G I J w' ∧ rspec B (k x) J (acc ++ e) P
      | None => B acc w
      end
  | PGo ts k => ∃ front e0 accs Ps, acc = front ++ e0 ∧ shuffled accs e0 ∧ tspecs I ts accs Ps ∧
      ∀ rs es e, posts rs es Ps → shuffled es e → rspec B (k rs) I (front ++ e) P
  end.

Lemma learned_nothing I w w' e : Labelled G I → I w → G w e w' → learned G I I w'.
Proof. intros HL HI He. split; [done|by eapply label_keeps|done]. Qed.

#[export] Instance labelled_and I J : Labelled G I → Labelled G J → Labelled G (λ w, I w ∧ J w).
Proof.
  intros HI HJ. split; [apply label_nil|apply label_app|].
  intros w e w' He [Hi Hj]. split; by eapply label_keeps.
Qed.

Lemma tspec_weaken I J {A} (t : prog W A) acc (P : A → list O → Prop) :
  (∀ w, J w → I w) → tspec T I t acc P → tspec T J t acc P.
Proof.
  intros HJ. revert acc. induction t as [a|X f k IH]; intros acc H; [done|]. intros w Hw.
  specialize (H w (HJ w Hw)). destruct (f w) as [[x w']|]; [|done].
  destruct H as (e & He & Hk). eauto.
Qed.

Lemma rspec_mono {A} B (p : proc W R A) I acc (P Q : A → list O → Prop) :
  rspec B p I acc P → (∀ a acc', P a acc' → Q a acc') → rspec B p I acc Q.
Proof.
  intros H HPQ. revert I acc H. induction p as [a|X f g IH|ts g IH]; intros I acc H; [by apply HPQ| |].
  - intros w HI. specialize (H w HI). destruct (f w) as [[x w']|]; [|done].
    destruct H as (e & J & He & HJ & Hk). eauto 10.
  - destruct H as (front & e0 & accs & Ps & -> & Hs & HF & Hk).
    exists front, e0, accs, Ps. split_and!; eauto.
Qed.

Context `{!Guarantee G T}.

Lemma rspec_weaken {A} B (p : proc W R A) I J acc P :
  Labelled G J → (∀ w, J w → I w) → rspec B p I acc P → rspec B p J acc P.
Proof.
  revert I J acc. induction p as [a|X f g IH|ts g IH]; intros I J acc HL HJ H; [done| |].
  - intros w Hw. specialize (H w (HJ w Hw)). destruct (f w) as [[x w']|]; [|done].
    destruct H as (e & K & He & [HK Hnow Hmore] & Hk). exists e, (λ v, K v ∧ J v).
    split_and!; [done| |].
    + split; [apply _|split; [done|by eapply (guaranteed G T)]|tauto].
    + eapply IH; [apply _|by intros v [? _]|done].
  - destruct H as (front & e0 & accs & Ps & -> & Hs & HF & Hk).
    exists front, e0, accs, Ps. split_and!; [done|done| |eauto].
    eapply Forall3_impl; [exact HF|]. intros t acc P'. by apply tspec_weaken.
Qed.

Lemma rspec_bind {A C} Bl (p : proc W R A) (k : A → proc W R C) I acc P :
  Labelled G I →
  rspec Bl p I acc (λ a acc', rspec Bl (k a) I acc' P) → rspec Bl (p ≫= k) I acc P.
Proof.
  intros HL H.
  enough (∀ J, Labelled G J → (∀ w, J w → I w) →
    rspec Bl p J acc (λ a acc', rspec Bl (k a) I acc' P) → rspec Bl (p ≫= k) J acc P) as Hg
    by (by apply (Hg I)).
  clear H. revert acc. induction p as [a|X f g IH|ts g IH]; intros acc J HLJ HJ H.
  - by eapply rspec_weaken.
  - intros w HI. specialize (H w HI). simpl. destruct (f w) as [[x w']|]; [|done].
    destruct H as (e & K & He & HK & Hk). exists e, K. split_and!; [done..|].
    apply IH; [apply HK| |done]. intros v Hv. by apply HJ, (learned_more _ _ _ _ HK).
  - destruct H as (front & e0 & accs & Ps & -> & Hs & HF & Hk).
    exists front, e0, accs, Ps. split_and!; [done..|]. intros rs es e H3 He. by eapply IH, Hk.
Qed.

(** The same for code that forks nothing. *)
Lemma rspec_lift_bind {A C} Bl (p : prog W A) (k : A → prog W C) I acc (P : C → list O → Prop) :
  Labelled G I →
  rspec Bl (lift p : proc W R A) I acc (λ a acc', rspec Bl (lift (k a) : proc W R C) I acc' P) →
  rspec Bl (lift (p ≫= k) : proc W R C) I acc P.
Proof.
  intros HL H.
  enough (∀ J, Labelled G J → (∀ w, J w → I w) →
    rspec Bl (lift p : proc W R A) J acc (λ a acc', rspec Bl (lift (k a) : proc W R C) I acc' P) →
    rspec Bl (lift (p ≫= k) : proc W R C) J acc P) as Hg by (by apply (Hg I)).
  clear H. revert acc. induction p as [a|X f g IH]; intros acc J HLJ HJ H.
  - by eapply rspec_weaken.
  - intros w HI. specialize (H w HI). simpl. destruct (f w) as [[x w']|]; [|done].
    destruct H as (e & K & He & HK & Hk). exists e, K. split_and!; [done..|].
    apply IH; [apply HK| |done]. intros v Hv. by apply HJ, (learned_more _ _ _ _ HK).
Qed.

(** A process that runs after [acc] has been logged. *)
Lemma rspec_app {A} B B' (p : proc W R A) I acc acc' (P : A → list O → Prop) :
  rspec B' p I acc' (λ a e, P a (acc ++ e)) → (∀ l w, B' l w → B (acc ++ l) w) →
  rspec B p I (acc ++ acc') P.
Proof.
  intros H HB. revert I acc' H. induction p as [a|X f g IH|ts g IH]; intros I acc' H; [done| |].
  - intros w HI. specialize (H w HI). destruct (f w) as [[x w']|]; [|by apply HB].
    destruct H as (e & J & He & HJ & Hk). exists e, J. split_and!; [done..|].
    rewrite <-(assoc_L (++)). by apply IH.
  - destruct H as (front & e0 & accs & Ps & -> & Hs & HF & Hk).
    exists (acc ++ front), e0, accs, Ps. split_and!; [by rewrite (assoc_L (++))|done..|].
    intros rs es e H3 He. rewrite <-(assoc_L (++)). by eapply IH, Hk.
Qed.

Lemma rspec_sub {A} B B' (p : proc W R A) I acc (P Q : A → list O → Prop) :
  rspec B' p I [] P → (∀ a e, P a e → Q a (acc ++ e)) → (∀ l w, B' l w → B (acc ++ l) w) →
  rspec B p I acc Q.
Proof.
  intros HP HQ HB. rewrite <-(right_id_L [] (++) acc). eapply rspec_app; [|exact HB].
  eapply rspec_mono; [exact HP|]. auto.
Qed.

Lemma pspec_rspec {A} B (p : proc W R A) I acc P :
  Labelled G I → pspec T I B p acc P → rspec B p I acc P.
Proof.
  intros HL. revert acc. induction p as [a|X f g IH|ts g IH]; intros acc H; [done| |].
  - intros w HI. specialize (H w HI). destruct (f w) as [[x w']|]; [|done].
    destruct H as (e & He & Hk). exists e, I. split_and!; [done|by eapply learned_nothing, (guarantee_sub (G := G))|by apply IH].
  - destruct H as (front & e0 & accs & Ps & -> & Hs & HF & Hk).
    exists front, e0, accs, Ps. split_and!; eauto.
Qed.

(** *** One step *)

Lemma rspec_step {A} B (p p' : proc W R A) I acc P w w' :
  Labelled G I → rspec B p I acc P → I w → proc_step (p, w) (p', w') →
  ∃ e J, T w e w' ∧ learned G I J w' ∧ rspec B p' J (acc ++ e) P.
Proof.
  intros HL. pose proof (guarantee_keeps G T I _ HL) as HLT. destruct p as [a|X f k|ts k]; simpl; [done| |].
  - intros H HI (x & w1 & Hf & [= -> ->]). specialize (H w HI). simpl in Hf. by rewrite Hf in H.
  - intros (front & e0 & accs & Ps & -> & Hs & HF & Hk) HI [(ts' & w1 & Hst & [= -> ->])|Hret].
    + pose proof (pool_inv_start T I w e0 Ps ts accs HF Hs HI) as Hinv.
      destruct (pool_inv_step _ _ _ _ _ (ts, w) _ Hinv Hst) as (HI' & e & accs' & He & Hs' & HF').
      exists e, I. split_and!; [done|split; [exact HL|exact HI'|done]|].
      exists front, (e0 ++ e), accs', Ps. by rewrite (assoc_L (++)).
    + destruct Hret as (rs & -> & [= -> ->]). exists [], I. rewrite (right_id_L [] (++)).
      split_and!; [apply guarantee_nil|by eapply learned_nothing, label_nil|]. eapply Hk; [|done]. by eapply tspec_returned.
Qed.

(** Where it cannot move, a process has returned or has to wait. *)
Lemma rspec_stuck {A} B (p : proc W R A) I acc P w :
  Labelled G I → rspec B p I acc P → I w → (∀ s, ¬ proc_step (p, w) s) →
  (∃ a, p = PRet a ∧ P a acc) ∨ (∀ a, p ≠ PRet a) ∧ B acc w.
Proof.
  intros HL. pose proof (guarantee_keeps G T I _ HL) as HLT.
  destruct p as [a|X f k|ts k]; simpl; intros H HI Hn; [left; by exists a| |].
  - right. split; [done|]. specialize (H w HI). destruct (f w) as [[x w']|] eqn:E; [|done].
    destruct (Hn (k x, w')). by exists x, w'.
  - destruct H as (front & e0 & accs & Ps & -> & Hs & HF & Hk).
    destruct (tspec_enabled T I ts accs Ps w HI HF) as [[rs ->]|[[ts' w'] Hst]].
    + destruct (Hn (k rs, w)). right. by exists rs.
    + destruct (Hn (PGo ts' k, w')). left. by exists ts', w'.
Qed.
End learning.

(** A process that is described by other transitions, under another name for its log. *)
Section embedding.
Context {W O O' R : Type} (G : W → list O → W → Prop) (G' T' : W → list O' → W → Prop).
Context (I J : W → Prop) `{!Guarantee G' T'} `{!Labelled G' J} (f : O → O').
Context (HJ : ∀ w, J w → I w) (HG : ∀ w e w', J w → G w e w' → T' w (f <$> e) w').

Definition renamed {A} (P : A → list O → Prop) (a : A) (l : list O') : Prop :=
  ∃ tr, l = f <$> tr ∧ P a tr.

Lemma tspec_embed {A} (t : prog W A) acc P :
  tspec G I t acc P → tspec T' J t (f <$> acc) (renamed P).
Proof.
  revert acc. induction t as [a|X h k IH]; intros acc H; [by exists acc|]. intros w Hw.
  specialize (H w (HJ w Hw)). destruct (h w) as [[x w']|]; [|done].
  destruct H as (e & He & Hk). exists (f <$> e). split; [by apply HG|].
  rewrite <-fmap_app. by apply IH.
Qed.

Lemma posts_embed (rs : list R) ls (Ps : list (R → list O → Prop)) :
  Forall3 (λ r l (P : R → list O' → Prop), P r l) rs ls (renamed <$> Ps) →
  ∃ trs, ls = fmap (M := list) f <$> trs ∧ Forall3 (λ r l (P : R → list O → Prop), P r l) rs trs Ps.
Proof.
  revert rs ls. induction Ps as [|P Ps IH]; csimpl; intros rs ls HF.
  - inversion HF; subst. exists []. by split; [|constructor].
  - inversion HF as [|r l P' rs' ls' Ps' Hr HF']; subst. destruct Hr as (tr & -> & HP).
    destruct (IH _ _ HF') as (trs & -> & HF2). exists (tr :: trs). by split; [|constructor].
Qed.

Lemma pspec_embed {A} B (p : proc W R A) acc P :
  pspec G I (λ _ _, False) p acc P → rspec G' T' B p J (f <$> acc) (renamed P).
Proof.
  revert acc. induction p as [a|X h k IH|ts k IH]; intros acc H; [by exists acc| |].
  - intros w Hw. specialize (H w (HJ w Hw)). destruct (h w) as [[x w']|]; [|done].
    destruct H as (e & He & Hk). exists (f <$> e), J. apply (HG w e w' Hw) in He.
    split_and!; [done|by eapply learned_nothing, (guarantee_sub (G := G'))|]. rewrite <-fmap_app. by apply IH.
  - destruct H as (front & e0 & accs & Ps & -> & Hs & HF & Hk).
    exists (f <$> front), (f <$> e0), (fmap (M := list) f <$> accs), (renamed <$> Ps). split_and!.
    + by rewrite fmap_app.
    + by apply shuffled_fmap.
    + clear Hk Hs. induction HF; csimpl; constructor; [by apply tspec_embed|done].
    + intros rs es e (trs & -> & HF')%posts_embed (tr & -> & Hs')%shuffled_fmap_inv.
      rewrite <-fmap_app. by eapply IH, Hk.
Qed.
End embedding.
