(* ===== verification/Group.v ===== *)
(** * Processes that run at the same time

    A group of tasks on one world: in a step any task that can act does.  A task is a process
    ([Conc.proc]), which may fork goroutines and wait for them, or a loop of processes ([Loops]).
    [group_described] is what a group of described tasks does under every schedule: its log is an
    interleaving of the logs of the tasks; [group_spec] says where processes that come to rest
    are: every one has returned or has to wait. *)

From S2P Require Import Prelude Conc Rely.

Lemma Forall3_impl_l {A B C} (P Q : A → B → C → Prop) l k k' :
  Forall3 P l k k' → (∀ x y z, x ∈ l → P x y z → Q x y z) → Forall3 Q l k k'.
Proof. induction 1; intros HPQ; constructor; eauto using list_elem_of_here, list_elem_of_further. Qed.

(** What tasks run by steps on a world promise the group. *)
Class Steps (T W : Type) : Type := steps : T * W → T * W → Prop.

Section groups.
Context {T W : Type} `{!Steps T W}.
Implicit Types (t : T) (ts : list T) (w : W).

Definition group_step (s s' : list T * W) : Prop :=
  ∃ i t t' w', s.1 !! i = Some t ∧ steps (t, s.2) (t', w') ∧ s' = (<[i:=t']> s.1, w').

Definition group_run := rtc group_step.

(** No task can act. *)
Definition at_rest (s : list T * W) : Prop := ∀ s', ¬ group_step s s'.

Lemma at_rest_task ts w i t :
  at_rest (ts, w) → ts !! i = Some t → ∀ s, ¬ steps (t, w) s.
Proof. intros Hr Hi [t' w'] Hs. apply (Hr (<[i:=t']> ts, w')). by exists i, t, t', w'. Qed.

(** *** Descriptions *)

(** [kept w t acc c]: in [w], having logged [acc], a task keeps its contract [c]; [acts c] are
    the transitions it may make itself. *)
Section described.
Context {O C : Type} (G : W → list O → W → Prop) `{!Labelled G (λ _, True)}.
Context (acts : C → W → list O → W → Prop) (kept : W → T → list O → C → Prop).
Context (Hlater : ∀ w e w' t acc c, G w e w' → kept w t acc c → kept w' t acc c)
        (Hkept : ∀ w t acc c t' w', kept w t acc c → steps (t, w) (t', w') →
           ∃ e, G w e w' ∧ acts c w e w' ∧ kept w' t' (acc ++ e) c).

Record described (w0 : W) (cs : list C) (tr : list O) (accs : list (list O))
    (s : list T * W) : Prop := {
  described_world : G w0 tr s.2;
  described_logs : shuffled accs tr;
  described_tasks : Forall3 (kept s.2) s.1 accs cs
}.

Lemma described_start w cs ts :
  Forall2 (λ t c, kept w t [] c) ts cs → described w cs [] (replicate (length ts) []) (ts, w).
Proof.
  intros HF. split; [apply label_nil|constructor|].
  simpl. induction HF; simpl; constructor; done.
Qed.

Lemma described_step w0 cs tr accs s i t t' w' :
  described w0 cs tr accs s → s.1 !! i = Some t → steps (t, s.2) (t', w') →
  ∃ acc c e, accs !! i = Some acc ∧ cs !! i = Some c ∧ acts c s.2 e w' ∧
    described w0 cs (tr ++ e) (<[i:=acc ++ e]> accs) (<[i:=t']> s.1, w').
Proof.
  intros [HG Hs HF] Hi Ht.
  destruct (Forall3_lookup_l _ _ _ _ _ _ HF Hi) as (acc & c & Hacc & Hc & Hk).
  destruct (Hkept _ _ _ _ _ _ Hk Ht) as (e & HGe & He & Hk').
  exists acc, c, e. split_and!; [done..|]. split; simpl.
  - by eapply label_app.
  - by apply shuffled_app.
  - eapply Forall3_insert_12; [|done|done]. eapply Forall3_impl; [exact HF|]. intros q a d. by apply (Hlater _ e).
Qed.

Lemma group_described w cs ts s :
  Forall2 (λ t c, kept w t [] c) ts cs → group_run (ts, w) s → ∃ tr accs, described w cs tr accs s.
Proof.
  intros HF%described_start Hrun.
  enough (∀ s1, group_run s1 s → ∀ tr accs, described w cs tr accs s1 →
          ∃ tr accs, described w cs tr accs s) as Hg by (by eapply Hg).
  clear HF Hrun. intros s1 Hrun. induction Hrun as [s1|s1 s2 s3 (i & t & t' & w' & Hi & Ht & ->) _ IH];
    intros tr accs Hd; [by exists tr, accs|].
  destruct (described_step _ _ _ _ _ _ _ _ _ Hd Hi Ht) as (acc & c & e & _ & _ & _ & Hd'). by eapply IH.
Qed.

(** A description of where tasks that cannot act are. *)
Lemma described_rest (ended : W → T → list O → C → Prop) w0 cs tr accs ts w :
  (∀ t acc c, kept w t acc c → (∀ s, ¬ steps (t, w) s) → ended w t acc c) →
  described w0 cs tr accs (ts, w) → at_rest (ts, w) → Forall3 (ended w) ts accs cs.
Proof.
  intros He [_ _ HF] Hrest. simpl in HF. eapply Forall3_impl_l; [exact HF|].
  intros t acc c [i Hi]%list_elem_of_lookup_1 Hk. apply He; [done|]. by eapply at_rest_task.
Qed.
End described.
End groups.

(** *** Executable schedules *)

(** The next step of a task; [j] is the goroutine to move if it has forked.  A task that is
    [halted] has returned, or waits. *)
Class Scheduled (T W : Type) `{!Steps T W} : Type := {
  next : nat → T → W → option (T * W);
  halted : W → T → bool;
  next_steps j t w s : next j t w = Some s → steps (t, w) s;
  halted_stays w t s : halted w t = true → ¬ steps (t, w) s
}.

Section schedules.
Context {T W : Type} `{Scheduled T W}.
Implicit Types (t : T) (ts : list T) (w : W).

Fixpoint run_group (sched : list (nat * nat)) ts w : list T * W :=
  match sched with
  | [] => (ts, w)
  | (i, j) :: rest =>
      match ts !! i ≫= λ t, next j t w with
      | Some (t', w') => run_group rest (<[i:=t']> ts) w'
      | None => run_group rest ts w
      end
  end.

Lemma run_group_sound sched ts w : group_run (ts, w) (run_group sched ts w).
Proof.
  revert ts w. induction sched as [|[i j] sched IH]; intros ts w; simpl; [constructor|].
  destruct (ts !! i) as [t|] eqn:Hi; simpl; [|apply IH].
  destruct (next j t w) as [[t' w']|] eqn:Hp; [|apply IH].
  eapply rtc_l; [|apply IH]. exists i, t, t', w'. split_and!; [done| |done].
  by apply next_steps in Hp.
Qed.

Lemma halted_rest ts w : forallb (halted w) ts = true → at_rest (ts, w).
Proof.
  intros Hh s (i & t & t' & w' & Hi & Hs & _). simpl in *.
  assert (halted w t = true) as Hp; [|by eapply halted_stays].
  rewrite forallb_forall in Hh. apply Hh. apply list_elem_of_In. by eapply list_elem_of_lookup_2.
Qed.
End schedules.

(** ** Groups of processes *)

Section processes.
Context {W R A : Type}.
Abbreviation P := (proc W R A).
Implicit Types (p : P) (ps : list P) (w : W).

#[export] Instance proc_steps : Steps P W := proc_step.

(** What is left of a process after a step: every schedule is finite. *)
Definition proc_sub p' p : Prop :=
  match p with
  | PRet _ => False
  | PAct f k => ∃ x, p' = k x
  | PGo ts k => (∃ ts', pool_sub ts' ts ∧ p' = PGo ts' k) ∨ ∃ rs, p' = k rs
  end.

Lemma proc_sub_wf p : Acc proc_sub p.
Proof.
  induction p as [a|X f k IH|ts k IH]; [constructor; done| |].
  - constructor. intros p' [x ->]. apply IH.
  - induction (pool_sub_wf ts) as [ts _ IHts]. constructor.
    intros p' [(ts' & Hs & ->)|[rs ->]]; [by apply IHts|apply IH].
Qed.

Lemma proc_step_sub p w p' w' : proc_step (p, w) (p', w') → proc_sub p' p.
Proof.
  destruct p as [a|X f k|ts k]; simpl; [done| |].
  - intros (x & w1 & _ & [= -> _]). by exists x.
  - intros [(ts' & w1 & Hs & [= -> _])|(rs & _ & [= -> _])]; [left|right; by exists rs].
    exists ts'. split; [by eapply pool_step_sub|done].
Qed.

Lemma group_terminates (s : list P * W) : sn group_step s.
Proof.
  destruct s as [ps w]. revert w.
  induction (one_of_wf proc_sub ps (Forall_true _ _ proc_sub_wf)) as [ps _ IH]. intros w.
  constructor. intros [ps' w'] (i & p & p' & w1 & Hi & Hs & [= -> ->]).
  apply IH. exists i, p, p'. split_and!; [done| |done]. by eapply proc_step_sub.
Qed.

Definition proc_next (j : nat) p w : option (P * W) :=
  match p with
  | PRet _ => None
  | PAct f k => '(x, w') ← f w; Some (k x, w')
  | PGo ts k =>
      match results ts with
      | Some rs => Some (k rs, w)
      | None => t ← ts !! j; '(t', w') ← thread_step t w; Some (PGo (<[j:=t']> ts) k, w')
      end
  end.

Lemma proc_next_step j p w p' w' : proc_next j p w = Some (p', w') → proc_step (p, w) (p', w').
Proof.
  destruct p as [a|X f k|ts k]; simpl; [done| |].
  - destruct (f w) as [[x w1]|] eqn:Hf; simpl; [|done]. intros [= <- <-]. by exists x, w1.
  - destruct (results ts) as [rs|] eqn:E.
    { intros [= <- <-]. right. exists rs. split; [by apply results_Some|done]. }
    destruct (ts !! j) as [t|] eqn:Hj; [|done]. simpl.
    destruct (thread_step t w) as [[t' w1]|] eqn:Ht; [|done]. simpl.
    intros [= <- <-]. left. exists (<[j:=t']> ts), w1. split; [|done]. by exists j, t, t', w1.
Qed.

Definition proc_halted w p : bool :=
  match p with
  | PRet _ => true
  | PAct f k => match f w with Some _ => false | None => true end
  | PGo _ _ => false
  end.

Lemma proc_halted_stays w p s : proc_halted w p = true → ¬ proc_step (p, w) s.
Proof.
  destruct p as [a|X f k|ts k], s as [p' w']; simpl; [by intros _ ?| |done].
  intros Hp (x & w1 & E & _). simpl in E. by rewrite E in Hp.
Qed.

#[export] Instance proc_scheduled : Scheduled P W.
Proof.
  refine {| next := proc_next; halted := proc_halted; halted_stays := proc_halted_stays |}.
  intros j p w [p' w']. apply proc_next_step.
Defined.

(** What is asked of a process: what it may do itself, when it may wait, and how it returns. *)
Section spec.
Context {O : Type} (G : W → list O → W → Prop).

Record contract := mk_contract {
  acts : W → list O → W → Prop;
  waits : list O → W → Prop;
  returns : A → list O → Prop
}.

(** In [w], having logged [acc], a process keeps its contract. *)
Definition kept_by w p (acc : list O) (c : contract) : Prop :=
  Guarantee G (acts c) ∧
  ∃ I, Labelled G I ∧ I w ∧ rspec G (acts c) (waits c) p I acc (returns c).

Lemma kept_by_later w e w' p acc c : G w e w' → kept_by w p acc c → kept_by w' p acc c.
Proof.
  intros He (HT & I & HL & HI & Hp). split; [done|]. exists I.
  split_and!; [done|by eapply label_keeps|done].
Qed.

Lemma kept_by_step w p acc c p' w' :
  kept_by w p acc c → proc_step (p, w) (p', w') →
  ∃ e, G w e w' ∧ acts c w e w' ∧ kept_by w' p' (acc ++ e) c.
Proof.
  intros (HT & I & HL & HI & Hp) Hs.
  destruct (rspec_step G _ _ p p' I acc _ w w' HL Hp HI Hs) as (e & J & He & [HLJ HJ _] & Hp').
  exists e. split_and!; [by apply guarantee_sub|done|]. split; [done|]. by exists J.
Qed.

(** How a process that logged [acc] ends: it has returned, or has to wait. *)
Definition ended w p (acc : list O) (c : contract) : Prop :=
  (∃ a, p = PRet a ∧ returns c a acc) ∨ (∀ a, p ≠ PRet a) ∧ waits c acc w.

Lemma kept_by_rest w p acc c :
  kept_by w p acc c → (∀ s, ¬ proc_step (p, w) s) → ended w p acc c.
Proof. intros (HT & I & HL & HI & Hp) Hs. by eapply rspec_stuck. Qed.

Lemma group_spec `{!Labelled G (λ _, True)} ps cs w ps' w' :
  Forall2 (λ p c, kept_by w p [] c) ps cs →
  group_run (ps, w) (ps', w') → at_rest (ps', w') →
  ∃ tr trs, G w tr w' ∧ shuffled trs tr ∧ Forall3 (ended w') ps' trs cs.
Proof.
  intros HF Hrun Hrest.
  destruct (group_described G acts kept_by kept_by_later kept_by_step w cs ps (ps', w'))
    as (tr & trs & Hd); [done..|].
  exists tr, trs. split_and!; [apply Hd..|].
  by apply (described_rest G kept_by ended w cs tr trs ps' w' (kept_by_rest w')).
Qed.
End spec.
End processes.
