(* ===== verification/Loops.v ===== *)
(** * Endless loops

    The loop [for { ... }] of a goroutine: its body is a process that says whether the loop goes
    on.  [Loop n body p] is such a loop in which [n] iterations have ended and [p] is what is left
    of the present one.  A loop need not end; [tasks_terminate] is a criterion for a group of
    processes and loops to come to rest under every schedule: the number of iterations that have
    ended stays below a bound that only the steps of the processes can move. *)

From S2P Require Import Prelude Conc Rely Group.

Section loops.
Context {W R A : Type}.

Inductive task : Type :=
| Once (p : proc W R A)
| Loop (n : nat) (body p : proc W R bool).
Implicit Types (t : task) (ts : list task) (w : W).

Definition task_step (s s' : task * W) : Prop :=
  match s.1 with
  | Once p => ∃ p', proc_step (p, s.2) (p', s'.2) ∧ s'.1 = Once p'
  | Loop n body (PRet more) => more = true ∧ s' = (Loop (S n) body body, s.2)
  | Loop n body p => ∃ p', proc_step (p, s.2) (p', s'.2) ∧ s'.1 = Loop n body p'
  end.

#[export] Instance task_steps : Steps task W := task_step.

(** A step of a loop either is a step of its iteration or begins the next. *)
Lemma loop_step n body p w t' w' :
  task_step (Loop n body p, w) (t', w') →
  (∃ p', proc_step (p, w) (p', w') ∧ t' = Loop n body p') ∨
  p = PRet true ∧ t' = Loop (S n) body body ∧ w' = w.
Proof.
  destruct p as [more|X f k|us k]; [|by left..]. intros [-> [= -> ->]]. by right.
Qed.

Lemma loop_stuck n body p w :
  (∀ s, ¬ task_step (Loop n body p, w) s) → p ≠ PRet true ∧ ∀ s, ¬ proc_step (p, w) s.
Proof.
  intros Hn. split.
  - intros ->. by apply (Hn (Loop (S n) body body, w)).
  - intros [p' w'] Hs. apply (Hn (Loop n body p', w')). destruct p as [more|X f k|us k]; [done| |];
      by exists p'.
Qed.

(** *** Executable schedules *)

Definition task_next (j : nat) t w : option (task * W) :=
  match t with
  | Once p => '(p', w') ← proc_next j p w; Some (Once p', w')
  | Loop n body (PRet more) => if more then Some (Loop (S n) body body, w) else None
  | Loop n body p => '(p', w') ← proc_next j p w; Some (Loop n body p', w')
  end.
Definition task_halted w t : bool :=
  match t with
  | Once p => proc_halted w p
  | Loop _ _ (PRet more) => negb more
  | Loop _ _ p => proc_halted w p
  end.

Lemma task_next_step j t w s : task_next j t w = Some s → task_step (t, w) s.
Proof.
  destruct t as [p|n body p].
  - simpl. destruct (proc_next j p w) as [[p' w']|] eqn:E; simpl; [|done]. intros [= <-].
    exists p'. split; [by eapply proc_next_step|done].
  - assert (proc_next j p w ≫= (λ '(p', w'), Some (Loop n body p', w')) = Some s →
      ∃ p', proc_step (p, w) (p', s.2) ∧ s.1 = Loop n body p') as Hp.
    { destruct (proc_next j p w) as [[p' w']|] eqn:E; simpl; [|done]. intros [= <-].
      exists p'. split; [by eapply proc_next_step|done]. }
    destruct p as [[]|X f k|us k]; [|done|exact Hp|exact Hp]. by intros [= <-].
Qed.

Lemma task_halted_stays w t s : task_halted w t = true → ¬ task_step (t, w) s.
Proof.
  destruct t as [p|n body p].
  - intros Hh (p' & Hs & _). exact (proc_halted_stays w p _ Hh Hs).
  - destruct p as [[]|X f k|us k]; [done|by intros _ [Hm _]; discriminate Hm| |];
      intros Hh (p' & Hs & _); exact (proc_halted_stays w _ _ Hh Hs).
Qed.

#[export] Instance task_scheduled : Scheduled task W :=
  {| next := task_next; halted := task_halted; next_steps := task_next_step;
     halted_stays := task_halted_stays |}.

(** *** Contracts *)

Section spec.
Context {O : Type} (G : W → list O → W → Prop).

(** What is asked of a loop: what it may do itself, when it may wait, what it has logged when so many
    iterations have ended, and how it returns. *)
Record loop_contract := mk_loop_contract {
  loop_acts : W → list O → W → Prop;
  loop_waits : list O → W → Prop;
  loop_heads : nat → list O → Prop;
  loop_returns : list O → Prop
}.

(** What an iteration leaves, where [n] have ended before. *)
Definition turned (c : loop_contract) (n : nat) (more : bool) (acc : list O) : Prop :=
  if more then loop_heads c (S n) acc else loop_returns c acc.

(** [I] is what every iteration may rely on; the present one, which began with [front] logged, may
    know more. *)
Definition kept_loop w n (body p : proc W R bool) (acc : list O) (c : loop_contract) : Prop :=
  ∃ I, Labelled G I ∧
    (∀ m acc, loop_heads c m acc →
       rspec G (loop_acts c) (loop_waits c) body I acc (turned c m)) ∧
    ∃ J front e, Labelled G J ∧ J w ∧ (∀ v, J v → I v) ∧
      acc = front ++ e ∧ loop_heads c n front ∧
      rspec G (loop_acts c) (loop_waits c) p J acc (turned c n).

Definition kept_task w t (acc : list O) (c : contract (W := W) (A := A) (O := O) + loop_contract) : Prop :=
  match t, c with
  | Once p, inl c => kept_by G w p acc c
  | Loop n body p, inr c => Guarantee G (loop_acts c) ∧ kept_loop w n body p acc c
  | _, _ => False
  end.

Definition task_acts (c : contract (W := W) (A := A) (O := O) + loop_contract) : W → list O → W → Prop :=
  match c with inl c => acts c | inr c => loop_acts c end.

(** Before the first iteration. *)
Lemma kept_loop_start I w body c :
  Labelled G I → I w → loop_heads c 0 [] →
  (∀ m acc, loop_heads c m acc → rspec G (loop_acts c) (loop_waits c) body I acc (turned c m)) →
  kept_loop w 0 body body [] c.
Proof. intros HL HI H0 Hb. exists I. split_and!; [done..|]. exists I, [], []. split_and!; try done. by apply Hb. Qed.

Lemma kept_task_later w e w' t acc c : G w e w' → kept_task w t acc c → kept_task w' t acc c.
Proof.
  intros He. destruct t as [p|n body p], c as [c|c]; try done; [by apply (kept_by_later _ _ e)|].
  intros (HT & I & HL & Hb & J & front & e0 & HLJ & HJ & Hk). split; [done|].
  exists I. split_and!; [done..|]. exists J, front, e0. split_and!; [done|by eapply label_keeps|apply Hk..].
Qed.

Lemma kept_task_step `{!Labelled G (λ _, True)} w t acc c t' w' :
  kept_task w t acc c → task_step (t, w) (t', w') →
  ∃ e, G w e w' ∧ task_acts c w e w' ∧ kept_task w' t' (acc ++ e) c.
Proof.
  destruct t as [p|n body p], c as [c|c]; try done.
  { intros Hk (p' & Hs & E). simpl in E. subst t'. by eapply kept_by_step. }
  intros (HT & I & HL & Hb & J & front & e0 & HLJ & HJ & HJI & -> & Hh & Hp).
  intros [(p' & Hs & ->)|(-> & -> & ->)]%loop_step.
  - destruct (rspec_step G _ _ p p' J _ _ w w' HLJ Hp HJ Hs) as (e & K & He & [HLK HK HKJ] & Hp').
    exists e. split_and!; [by apply guarantee_sub|done|split; [done|]]. exists I. split_and!; [done..|].
    exists K, front, (e0 ++ e). rewrite (assoc_L (++)). split_and!; auto.
  - exists []. rewrite (right_id_L [] (++)). split_and!; [apply label_nil|apply guarantee_nil|split; [done|]].
    exists I. split_and!; [done..|]. exists I, (front ++ e0), []. rewrite (right_id_L [] (++)).
    split_and!; auto.
Qed.

(** Where a task that cannot move is: it has returned, or has to wait. *)
Definition task_ended w t (acc : list O) (c : contract (W := W) (A := A) (O := O) + loop_contract) : Prop :=
  match t, c with
  | Once p, inl c => ended w p acc c
  | Loop n body p, inr c =>
      p = PRet false ∧ loop_returns c acc ∨ (∀ more, p ≠ PRet more) ∧ loop_waits c acc w
  | _, _ => False
  end.

Lemma kept_task_rest w t acc c :
  kept_task w t acc c → (∀ s, ¬ task_step (t, w) s) → task_ended w t acc c.
Proof.
  destruct t as [p|n body p], c as [c|c]; try done.
  { intros Hk Hs. eapply kept_by_rest; [exact Hk|]. intros [p' w'] Hp. apply (Hs (Once p', w')).
    by exists p'. }
  intros (HT & I & HL & Hb & J & front & e0 & HLJ & HJ & HJI & -> & Hh & Hp).
  intros [Hm Hs]%loop_stuck.
  destruct (rspec_stuck G _ _ p J _ _ w HLJ Hp HJ Hs) as [([] & -> & Ht)|Hw]; [done|by left|by right].
Qed.
End spec.

(** *** Groups that come to rest *)

(** The iterations that have ended. *)
Definition turns_of t : nat := match t with Once _ => 0 | Loop n _ _ => n end.
Definition all_turns ts : nat := sum_list (turns_of <$> ts).

(** What is left of a task after a step that begins no iteration. *)
Definition task_sub t' t : Prop :=
  match t, t' with
  | Once p, Once p' => proc_sub p' p
  | Loop n body p, Loop n' body' p' => n' = n ∧ body' = body ∧ proc_sub p' p
  | _, _ => False
  end.

Lemma task_sub_wf t : Acc task_sub t.
Proof.
  destruct t as [p|n body p].
  - induction (proc_sub_wf p) as [p _ IH]. constructor. intros [p'|] Hs; [by apply IH|done].
  - induction (proc_sub_wf p) as [p _ IH]. constructor. intros [|n' body' p'] Hs; [done|].
    destruct Hs as (-> & -> & Hs). by apply IH.
Qed.

(** The processes of a group, and what is left of one after its step. *)
Definition once t : option (proc W R A) := match t with Once p => Some p | Loop _ _ _ => None end.
Definition once_sub (o' o : option (proc W R A)) : Prop :=
  match o, o' with Some p, Some p' => proc_sub p' p | _, _ => False end.

Lemma once_sub_wf o : Acc once_sub o.
Proof.
  destruct o as [p|]; [|by constructor].
  induction (proc_sub_wf p) as [p _ IH]. constructor. intros [p'|] Hs; [by apply IH|done].
Qed.

Lemma turns_insert ts i t t' :
  ts !! i = Some t →
  (all_turns (<[i:=t']> ts) + turns_of t = all_turns ts + turns_of t')%nat.
Proof.
  unfold all_turns. revert i. induction ts as [|u ts IH]; intros [|i] Hi; simplify_eq/=; [lia|].
  specialize (IH i Hi). lia.
Qed.

(** [Inv s b] bounds the iterations that have ended in [s]; a step of a loop keeps the bound. *)
Section rest.
Context (Inv : list task * W → nat → Prop).
Context (Hbound : ∀ s b, Inv s b → (all_turns s.1 ≤ b)%nat).
Context (Hstep : ∀ s b i t t' w', Inv s b → s.1 !! i = Some t → task_step (t, s.2) (t', w') →
           ∃ b', Inv (<[i:=t']> s.1, w') b' ∧ (once t = None → b' = b)).

Lemma tasks_terminate s b : Inv s b → sn group_step s.
Proof.
  destruct s as [ts w]. intros Hinv.
  (* first the processes, then the iterations that are left, then what is left of these *)
  remember (once <$> ts) as os eqn:Eos. revert ts w b Eos Hinv.
  induction (one_of_wf once_sub os (Forall_true _ _ once_sub_wf)) as [os _ IHos].
  intros ts w b. remember (b - all_turns ts)%nat as m eqn:Em. revert ts w b Em.
  induction m as [m IHm] using lt_wf_ind.
  intros ts w b. revert w b.
  induction (one_of_wf task_sub ts (Forall_true _ _ task_sub_wf)) as [ts _ IHts].
  intros w b Em Eos Hinv. constructor. intros s' (i & t & t' & w' & Hi & Ht & ->). simpl in Hi, Ht.
  destruct (Hstep (ts, w) b i t t' w' Hinv Hi Ht) as (b' & Hinv' & Hb). simpl in Hinv'.
  pose proof (turns_insert ts i t t' Hi) as Hturns.
  destruct t as [p|n body p].
  - destruct Ht as (p' & Hs & E). simpl in Hs, E. subst t'.
    eapply (IHos (<[i:=Some p']> os)); [|by rewrite Eos, list_fmap_insert|done].
    exists i, (Some p), (Some p'). split_and!; [by rewrite Eos, list_lookup_fmap, Hi| |done].
    by eapply proc_step_sub.
  - rewrite (Hb eq_refl) in Hinv'.
    assert (os = once <$> <[i:=t']> ts) as Eos'.
    { rewrite list_fmap_insert, Eos. symmetry. apply list_insert_id. rewrite list_lookup_fmap, Hi.
      apply loop_step in Ht as [(p' & _ & ->)|(_ & -> & _)]; done. }
    apply loop_step in Ht as [(p' & Hs & ->)|(-> & -> & ->)]; simpl in Hturns.
    + eapply (IHts (<[i:=Loop n body p']> ts)); [| |done|done].
      * exists i, (Loop n body p), (Loop n body p'). split_and!; [done| |done].
        split_and!; [done..|by eapply proc_step_sub].
      * lia.
    + pose proof (Hbound _ _ Hinv') as Hle. simpl in Hle.
      by eapply (IHm (b - all_turns (<[i:=Loop (S n) body body]> ts))%nat); [lia|..].
Qed.
End rest.
End loops.

Arguments task : clear implicits.
