(* ===== verification/GoString.v ===== *)
(** * Go strings

    A Go string is a sequence of bytes; [string] (a list of 8-bit characters)
    represents it exactly.  This file holds the parts of [strings], [strconv],
    [unicode/utf8] and [encoding/hex] the program uses. *)

From S2P Require Import Prelude GoLang.
Open Scope Z_scope.

(** ** Bytes *)

Definition byte_of (a : Ascii.ascii) : Z := Z.of_N (Ascii.N_of_ascii a).
Definition of_byte (z : Z) : Ascii.ascii := Ascii.ascii_of_N (Z.to_N z).

(** The bytes of a string, and the string of a byte slice. *)
Definition bytes (s : string) : list Z := byte_of <$> String.list_ascii_of_string s.
Definition of_bytes (l : list Z) : string := String.string_of_list_ascii (of_byte <$> l).

Definition is_byte (z : Z) : Prop := 0 ≤ z < 256.

Lemma byte_of_range a : is_byte (byte_of a).
Proof. unfold is_byte, byte_of. pose proof (Ascii.N_ascii_bounded a). lia. Qed.

Lemma of_byte_of a : of_byte (byte_of a) = a.
Proof. unfold of_byte, byte_of. by rewrite N2Z.id, Ascii.ascii_N_embedding. Qed.

Lemma byte_of_of z : is_byte z → byte_of (of_byte z) = z.
Proof.
  unfold is_byte, of_byte, byte_of. intros H.
  rewrite Ascii.N_ascii_embedding; lia.
Qed.

Lemma of_bytes_bytes s : of_bytes (bytes s) = s.
Proof.
  unfold of_bytes, bytes. induction s as [|a s IH]; csimpl; [done|].
  by rewrite of_byte_of, IH.
Qed.

Lemma bytes_of_bytes l : Forall is_byte l → bytes (of_bytes l) = l.
Proof.
  intros H. unfold of_bytes, bytes.
  rewrite String.list_ascii_of_string_of_list_ascii.
  induction H as [|b l Hb _ IH]; csimpl; [done|]. rewrite IH. f_equal. by apply byte_of_of.
Qed.

Lemma bytes_range s : Forall is_byte (bytes s).
Proof. apply Forall_fmap, Forall_true, byte_of_range. Qed.

Lemma bytes_inj s1 s2 : bytes s1 = bytes s2 → s1 = s2.
Proof. intros H. by rewrite <-(of_bytes_bytes s1), H, of_bytes_bytes. Qed.

(** [len(s)]. *)
Definition len (s : string) : Z := Z.of_nat (length (bytes s)).

Lemma length_bytes s : length (bytes s) = String.length s.
Proof. unfold bytes. rewrite length_fmap. induction s; simpl; lia. Qed.

(** [s[:n]] for [0 ≤ n ≤ len(s)]. *)
Definition slice_to (s : string) (n : Z) : string := of_bytes (take (Z.to_nat n) (bytes s)).

Lemma bytes_slice_to s n : bytes (slice_to s n) = take (Z.to_nat n) (bytes s).
Proof. apply bytes_of_bytes, Forall_take, bytes_range. Qed.

(** ** UTF-8 ([unicode/utf8]) *)

Definition RuneError : Z := 65533.
Definition within (lo x hi : Z) : bool := (lo <=? x) && (x <=? hi).
Definition continuation (b : Z) : bool := within 128 b 191.

(** The well-formed two, three and four byte sequences. *)
Definition utf8_2 (a b : Z) : bool := within 194 a 223 && continuation b.
Definition utf8_3 (a b c : Z) : bool :=
  continuation c &&
  ((a =? 224) && within 160 b 191 || within 225 a 236 && continuation b ||
   (a =? 237) && within 128 b 159 || within 238 a 239 && continuation b).
Definition utf8_4 (a b c d : Z) : bool :=
  continuation c && continuation d &&
  ((a =? 240) && within 144 b 191 || within 241 a 243 && continuation b ||
   (a =? 244) && within 128 b 143).

Definition rune_2 (a b : Z) : Z := (a - 192) * 64 + (b - 128).
Definition rune_3 (a b c : Z) : Z := (a - 224) * 4096 + (b - 128) * 64 + (c - 128).
Definition rune_4 (a b c d : Z) : Z :=
  (a - 240) * 262144 + (b - 128) * 4096 + (c - 128) * 64 + (d - 128).

(** [for _, r := range s]: the runes of a byte sequence ([inr]); a byte that starts
    no well-formed sequence is [inl]. *)
Fixpoint decode_runes (l : list Z) : list (Z + Z) :=
  match l with
  | [] => []
  | a :: l1 =>
      if a <? 128 then inr a :: decode_runes l1 else
      match l1 with
      | [] => [inl a]
      | b :: l2 =>
          if utf8_2 a b then inr (rune_2 a b) :: decode_runes l2 else
          match l2 with
          | [] => inl a :: decode_runes l1
          | c :: l3 =>
              if utf8_3 a b c then inr (rune_3 a b c) :: decode_runes l3 else
              match l3 with
              | [] => inl a :: decode_runes l1
              | d :: l4 =>
                  if utf8_4 a b c d then inr (rune_4 a b c d) :: decode_runes l4
                  else inl a :: decode_runes l1
              end
          end
      end
  end.

Definition valid_runes (l : list (Z + Z)) : bool :=
  forallb (λ r, match r with inr _ => true | inl _ => false end) l.

(** [utf8.ValidString]. *)
Definition valid_utf8 (s : string) : bool := valid_runes (decode_runes (bytes s)).

(** The rune a [range] loop sees: an invalid byte reads as [RuneError]. *)
Definition rune_of (r : Z + Z) : Z := match r with inr r => r | inl _ => RuneError end.

(** [utf8.AppendRune]; surrogates and out-of-range runes encode as [RuneError]. *)
Definition encode_rune (r : Z) : list Z :=
  let r := if within 0 r 55295 || within 57344 r 1114111 then r else RuneError in
  if r <? 128 then [r]
  else if r <? 2048 then [192 + r / 64; 128 + r mod 64]
  else if r <? 65536 then [224 + r / 4096; 128 + r / 64 mod 64; 128 + r mod 64]
  else [240 + r / 262144; 128 + r / 4096 mod 64; 128 + r / 64 mod 64; 128 + r mod 64].

(** An ASCII rune encodes as itself, any other in bytes from 128 on. *)
Lemma encode_rune_cases r :
  (0 ≤ r < 128 ∧ encode_rune r = [r]) ∨ Forall (λ b, 128 ≤ b < 256) (encode_rune r).
Proof.
  unfold encode_rune.
  assert (∀ x, within 0 x 55295 || within 57344 x 1114111 = true → 0 ≤ x ≤ 1114111) as Hpos.
  { unfold within. intros x.
    destruct (Z.leb_spec 0 x), (Z.leb_spec x 55295), (Z.leb_spec 57344 x),
      (Z.leb_spec x 1114111); simpl; done || lia. }
  destruct (within 0 r 55295 || within 57344 r 1114111) eqn:Hw.
  - specialize (Hpos r Hw). repeat case_cmp; [left; split; [lia|done]|right..];
      repeat apply Forall_cons_2; try apply Forall_nil_2;
      match goal with
      | |- context [ ?x mod 64 ] => pose proof (Z.mod_pos_bound x 64); lia
      | |- context [ r / _ ] => Z.to_euclidean_division_equations; lia
      end.
  - right. cbv. repeat constructor; discriminate.
Qed.

Lemma encode_rune_range r : Forall is_byte (encode_rune r).
Proof.
  destruct (encode_rune_cases r) as [[Hr ->]|HF].
  - rewrite Forall_cons, Forall_nil. unfold is_byte. lia.
  - eapply Forall_impl; [exact HF|]. unfold is_byte. simpl. lia.
Qed.

(** ** [strings] *)

(** [unicode.IsSpace] on the encoded white space: one byte (tab to carriage
    return, space), two bytes (U+0085, U+00A0), three bytes (U+1680, U+2000 to
    U+200A, U+2028, U+2029, U+202F, U+205F, U+3000). *)
Definition space_1 (a : Z) : bool := within 9 a 13 || (a =? 32).
Definition space_2 (a b : Z) : bool := (a =? 194) && ((b =? 133) || (b =? 160)).
Definition space_3 (a b c : Z) : bool :=
  (a =? 225) && (b =? 154) && (c =? 128) ||
  (a =? 226) && (b =? 128) && (within 128 c 138 || (c =? 168) || (c =? 169) || (c =? 175)) ||
  (a =? 226) && (b =? 129) && (c =? 159) ||
  (a =? 227) && (b =? 128) && (c =? 128).

Fixpoint strip (s1 : Z → bool) (s2 : Z → Z → bool) (s3 : Z → Z → Z → bool) (l : list Z)
    : list Z :=
  match l with
  | [] => []
  | a :: l1 =>
      if s1 a then strip s1 s2 s3 l1 else
      match l1 with
      | [] => l
      | b :: l2 =>
          if s2 a b then strip s1 s2 s3 l2 else
          match l2 with
          | [] => l
          | c :: l3 => if s3 a b c then strip s1 s2 s3 l3 else l
          end
      end
  end.

Definition trim_left (l : list Z) : list Z := strip space_1 space_2 space_3 l.
Definition trim_right (l : list Z) : list Z :=
  reverse (strip space_1 (λ b a, space_2 a b) (λ c b a, space_3 a b c) (reverse l)).

(** [strings.TrimSpace]. *)
Definition TrimSpace (s : string) : string := of_bytes (trim_right (trim_left (bytes s))).

Lemma strip_suffix s1 s2 s3 l : strip s1 s2 s3 l `suffix_of` l.
Proof.
  remember (length l) as n eqn:E. revert l E.
  induction (lt_wf n) as [n _ IH]. intros l ->.
  assert (∀ k, (length k < length l)%nat → k `suffix_of` l →
               strip s1 s2 s3 k `suffix_of` l) as Hk.
  { intros k Hl Hs. etrans; [|exact Hs]. by eapply IH. }
  destruct l as [|a l]; [done|]. cbn [strip].
  case_match; [apply Hk; simpl; [lia|by exists [a]]|].
  destruct l as [|b l]; [done|]. cbv beta iota.
  case_match; [apply Hk; simpl; [lia|by exists [a; b]]|].
  destruct l as [|c l]; [done|]. cbv beta iota.
  case_match; [apply Hk; simpl; [lia|by exists [a; b; c]]|done].
Qed.

Lemma trim_right_prefix l : trim_right l `prefix_of` l.
Proof.
  unfold trim_right. rewrite <-(reverse_involutive l) at 2.
  apply suffix_prefix_reverse, strip_suffix.
Qed.

(** A trimmed string is a contiguous part of the original. *)
Lemma TrimSpace_infix s :
  ∃ l r, bytes s = l ++ bytes (TrimSpace s) ++ r.
Proof.
  unfold TrimSpace. destruct (strip_suffix space_1 space_2 space_3 (bytes s)) as [l Hl].
  destruct (trim_right_prefix (trim_left (bytes s))) as [r Hr].
  exists l, r. rewrite bytes_of_bytes.
  - rewrite <-Hr. exact Hl.
  - pose proof (bytes_range s) as H. rewrite Hl, Forall_app in H. destruct H as [_ H].
    unfold trim_left in Hr. rewrite Hr, Forall_app in H. tauto.
Qed.

Lemma TrimSpace_elem s b : b ∈ bytes (TrimSpace s) → b ∈ bytes s.
Proof. destruct (TrimSpace_infix s) as (l & r & ->). set_solver. Qed.

Lemma TrimSpace_length s : len (TrimSpace s) ≤ len s.
Proof.
  unfold len. destruct (TrimSpace_infix s) as (l & r & ->). rewrite !length_app. lia.
Qed.

(** The Unicode tables of the [unicode] package, outside ASCII. *)
Class Unicode := { unicode_lower : Z → Z; unicode_print : Z → bool }.

(** An example: no rune outside ASCII changes, and all can be printed. *)
Definition demo_unicode : Unicode := {| unicode_lower r := Z.max 128 r; unicode_print _ := true |}.

Definition rune_lower `{Unicode} (r : Z) : Z :=
  if r <? 128 then (if within 65 r 90 then r + 32 else r) else unicode_lower r.

(** [strings.ToLower]. *)
Definition ToLower `{Unicode} (s : string) : string :=
  of_bytes (concat ((λ r, encode_rune (rune_lower (rune_of r))) <$> decode_runes (bytes s))).

(** [strings.HasPrefix], [strings.TrimPrefix], and [strings.TrimRight] of one byte. *)
Definition HasPrefix (s p : string) : bool := bool_decide (bytes p `prefix_of` bytes s).
Definition TrimPrefix (s p : string) : string :=
  if HasPrefix s p then of_bytes (drop (length (bytes p)) (bytes s)) else s.

Lemma TrimPrefix_split s p :
  HasPrefix s p = true → bytes s = bytes p ++ bytes (TrimPrefix s p).
Proof.
  intros H. unfold TrimPrefix. rewrite H. apply bool_decide_eq_true in H as [k Hk].
  rewrite bytes_of_bytes by apply Forall_drop, bytes_range. by rewrite Hk, drop_app_length.
Qed.


Fixpoint drop_byte (b : Z) (l : list Z) : list Z :=
  match l with a :: l' => if a =? b then drop_byte b l' else l | [] => [] end.
Definition TrimRightByte (s : string) (b : Z) : string :=
  of_bytes (reverse (drop_byte b (reverse (bytes s)))).

(** ** [strconv] and [encoding/hex] *)

(** The digit of value [d < 36], as a byte. *)
Definition digit (d : Z) : Z := if d <? 10 then 48 + d else 87 + d.

Fixpoint digits_fuel (fuel : nat) (base n : Z) : list Z :=
  match fuel with
  | O => []
  | S fuel => if n <? base then [digit n]
              else digits_fuel fuel base (n / base) ++ [digit (n mod base)]
  end.

(** The digits of a natural number; 64 are enough for every [int64] and base. *)
Definition digits (base n : Z) : list Z := digits_fuel 64 base n.

(** [strconv.FormatInt(n, base)]; [strconv.Itoa] is base 10. *)
Definition FormatInt (n base : Z) : string :=
  of_bytes (if n <? 0 then 45 :: digits base (- n) else digits base n).
Definition Itoa (n : Z) : string := FormatInt n 10.

(** [n] hexadecimal digits of [z]. *)
Fixpoint hex_fixed (n : nat) (z : Z) : list Z :=
  match n with O => [] | S n => hex_fixed n (z / 16) ++ [digit (z mod 16)] end.

(** [hex.EncodeToString]. *)
Definition hex_byte (b : Z) : list Z := [digit (b / 16); digit (b mod 16)].
Definition EncodeToString (l : list Z) : string := of_bytes (concat (hex_byte <$> l)).

(** [hex.DecodeString], to state that no information is lost. *)
Definition undigit (b : Z) : option Z :=
  if within 48 b 57 then Some (b - 48)
  else if within 97 b 102 then Some (b - 87)
  else if within 65 b 70 then Some (b - 55) else None.
Fixpoint hex_decode (l : list Z) : option (list Z) :=
  match l with
  | [] => Some []
  | [_] => None
  | h :: l :: rest => h ← undigit h; l ← undigit l; t ← hex_decode rest; Some (h * 16 + l :: t)
  end.

Fixpoint parse_digits (acc : Z) (l : list Z) : option Z :=
  match l with
  | [] => Some acc
  | d :: l => if within 48 d 57 then parse_digits (acc * 10 + (d - 48)) l else None
  end.

(** [strconv.Quote], the text of the [%q] verb. *)
Definition quote_rune `{Unicode} (r : Z + Z) : list Z :=
  match r with
  | inl b => 92 :: 120 :: hex_fixed 2 b
  | inr r =>
      if (r =? 34) || (r =? 92) then [92; r]
      else if (if r <? 128 then within 32 r 126 else unicode_print r) then encode_rune r
      else if r =? 7 then [92; 97] else if r =? 8 then [92; 98]
      else if r =? 12 then [92; 102] else if r =? 10 then [92; 110]
      else if r =? 13 then [92; 114] else if r =? 9 then [92; 116]
      else if r =? 11 then [92; 118]
      else if (r <? 32) || (r =? 127) then 92 :: 120 :: hex_fixed 2 r
      else if r <? 65536 then 92 :: 117 :: hex_fixed 4 r
      else 92 :: 85 :: hex_fixed 8 r
  end.
Definition Quote `{Unicode} (s : string) : string :=
  of_bytes ([34] ++ concat (quote_rune <$> decode_runes (bytes s)) ++ [34]).

Definition num_error `{Unicode} (s reason : string) : error :=
  Foreign ("strconv.Atoi: parsing " +:+ Quote s +:+ ": " +:+ reason).

(** [strconv.Atoi]: on a syntax error the value is 0, out of range it is the
    nearest [int64]. *)
Definition Atoi `{Unicode} (s : string) : Z * option error :=
  let '(neg, ds) := match bytes s with
                    | 45 :: ds => (true, ds)
                    | 43 :: ds => (false, ds)
                    | ds => (false, ds)
                    end in
  match ds, parse_digits 0 ds with
  | _ :: _, Some n =>
      let n := if neg : bool then - n else n in
      if n <? min_int64 then (min_int64, Some (num_error s "value out of range"))
      else if max_int64 <? n then (max_int64, Some (num_error s "value out of range"))
      else (n, None)
  | _, _ => (0, Some (num_error s "invalid syntax"))
  end.

(** ** Facts about the encodings *)

Lemma undigit_digit d : 0 ≤ d < 16 → undigit (digit d) = Some d.
Proof.
  intros H. unfold undigit, digit, within.
  destruct (Z.ltb_spec d 10); repeat (case_cmp); simpl; try (f_equal; lia); lia.
Qed.

Lemma hex_byte_range b : is_byte b → Forall is_byte (hex_byte b).
Proof.
  unfold is_byte, hex_byte, digit. intros H.
  pose proof (Z.mod_pos_bound b 16). pose proof (Z.div_pos b 16).
  pose proof (Z.div_lt_upper_bound b 16 16).
  repeat constructor; cmp_lia.
Qed.

Lemma bytes_EncodeToString l :
  Forall is_byte l → bytes (EncodeToString l) = concat (hex_byte <$> l).
Proof.
  intros H. apply bytes_of_bytes.
  induction H as [|b l Hb _ IH]; [constructor|].
  apply (Forall_app_2 _ (hex_byte b)); [by apply hex_byte_range|done].
Qed.

Lemma hex_decode_encode l :
  Forall is_byte l → hex_decode (concat (hex_byte <$> l)) = Some l.
Proof.
  induction 1 as [|b l Hb _ IH]; [done|]. unfold is_byte in Hb.
  change (concat (hex_byte <$> b :: l))
    with (digit (b / 16) :: digit (b mod 16) :: concat (hex_byte <$> l)).
  simpl hex_decode. pose proof (Z.mod_pos_bound b 16). pose proof (Z.div_pos b 16).
  pose proof (Z.div_lt_upper_bound b 16 16).
  rewrite !undigit_digit by lia. simpl. rewrite IH. simpl.
  do 2 f_equal. pose proof (Z.div_mod b 16). lia.
Qed.

Lemma EncodeToString_inj l1 l2 :
  Forall is_byte l1 → Forall is_byte l2 → EncodeToString l1 = EncodeToString l2 → l1 = l2.
Proof.
  intros H1 H2 H. apply (f_equal bytes) in H. rewrite !bytes_EncodeToString in H by done.
  apply (f_equal hex_decode) in H. rewrite !hex_decode_encode in H by done. congruence.
Qed.

Lemma EncodeToString_length l : Forall is_byte l → len (EncodeToString l) = 2 * Z.of_nat (length l).
Proof.
  intros H. unfold len. rewrite bytes_EncodeToString by done. clear H.
  induction l as [|b l IH]; csimpl in *; lia.
Qed.
