(* ===== verification/Utf8.v ===== *)
(** * UTF-8: encoding and decoding are inverse

    Facts about [decode_runes] and [encode_rune] of [GoString]: a scalar value reads
    back as itself, a valid text is the encoding of its runes, and replacing invalid
    bytes ([sanitize]) is idempotent and leaves valid text as it is. *)

From S2P Require Import Prelude GoLang GoString.
Open Scope Z_scope.

(** The Unicode scalar values. *)
Definition scalar (r : Z) : Prop := 0 ≤ r ≤ 55295 ∨ 57344 ≤ r ≤ 1114111.

Lemma within_true lo x hi : within lo x hi = true ↔ lo ≤ x ≤ hi.
Proof. unfold within. destruct (Z.leb_spec lo x), (Z.leb_spec x hi); simpl; split; done || lia. Qed.
Lemma within_false lo x hi : within lo x hi = false ↔ x < lo ∨ hi < x.
Proof. unfold within. destruct (Z.leb_spec lo x), (Z.leb_spec x hi); simpl; split; done || lia. Qed.

Lemma scalar_within r :
  within 0 r 55295 || within 57344 r 1114111 = true ↔ scalar r.
Proof. unfold scalar. by rewrite orb_true_iff, !within_true. Qed.

(** A base 64 digit in front of the others. *)
Lemma split_64 r : ∃ q d, r = 64 * q + d ∧ 0 ≤ d < 64 ∧ r / 64 = q ∧ r mod 64 = d.
Proof.
  exists (r / 64), (r mod 64). pose proof (Z.div_mod r 64). pose proof (Z.mod_pos_bound r 64).
  split_and!; [lia..|done|done].
Qed.

(** [utf8_*] as orders. *)
Lemma utf8_2_true a b : utf8_2 a b = true ↔ 194 ≤ a ≤ 223 ∧ 128 ≤ b ≤ 191.
Proof. unfold utf8_2, continuation. by rewrite andb_true_iff, !within_true. Qed.
Lemma utf8_3_true a b c :
  utf8_3 a b c = true ↔ 128 ≤ c ≤ 191 ∧
    (a = 224 ∧ 160 ≤ b ≤ 191 ∨ 225 ≤ a ≤ 236 ∧ 128 ≤ b ≤ 191 ∨
     a = 237 ∧ 128 ≤ b ≤ 159 ∨ 238 ≤ a ≤ 239 ∧ 128 ≤ b ≤ 191).
Proof.
  unfold utf8_3, continuation.
  rewrite andb_true_iff, !orb_true_iff, !andb_true_iff, !within_true, !Z.eqb_eq. tauto.
Qed.
Lemma utf8_4_true a b c d :
  utf8_4 a b c d = true ↔ 128 ≤ c ≤ 191 ∧ 128 ≤ d ≤ 191 ∧
    (a = 240 ∧ 144 ≤ b ≤ 191 ∨ 241 ≤ a ≤ 243 ∧ 128 ≤ b ≤ 191 ∨ a = 244 ∧ 128 ≤ b ≤ 143).
Proof.
  unfold utf8_4, continuation.
  rewrite !andb_true_iff, !orb_true_iff, !andb_true_iff, !within_true, !Z.eqb_eq. tauto.
Qed.

Lemma not_utf8_2 a b : ¬ 194 ≤ a ≤ 223 → utf8_2 a b = false.
Proof. intros H. apply not_true_iff_false. rewrite utf8_2_true. lia. Qed.
Lemma not_utf8_3 a b c : ¬ 224 ≤ a ≤ 239 → utf8_3 a b c = false.
Proof. intros H. apply not_true_iff_false. rewrite utf8_3_true. lia. Qed.

Lemma decode_1 a l : 0 ≤ a < 128 → decode_runes (a :: l) = inr a :: decode_runes l.
Proof. intros H. simpl. by destruct (Z.ltb_spec a 128); [|lia]. Qed.
Lemma decode_2 a b l :
  utf8_2 a b = true → decode_runes (a :: b :: l) = inr (rune_2 a b) :: decode_runes l.
Proof.
  intros H. pose proof (proj1 (utf8_2_true _ _) H). simpl.
  destruct (Z.ltb_spec a 128); [lia|]. by rewrite H.
Qed.
Lemma decode_3 a b c l :
  utf8_3 a b c = true → decode_runes (a :: b :: c :: l) = inr (rune_3 a b c) :: decode_runes l.
Proof.
  intros H. pose proof (proj1 (utf8_3_true _ _ _) H). cbn [decode_runes].
  destruct (Z.ltb_spec a 128); [lia|]. rewrite (not_utf8_2 a b) by lia. by rewrite H.
Qed.
Lemma decode_4 a b c d l :
  utf8_4 a b c d = true →
  decode_runes (a :: b :: c :: d :: l) = inr (rune_4 a b c d) :: decode_runes l.
Proof.
  intros H. pose proof (proj1 (utf8_4_true _ _ _ _) H). cbn [decode_runes].
  destruct (Z.ltb_spec a 128); [lia|].
  rewrite (not_utf8_2 a b), (not_utf8_3 a b c) by lia. by rewrite H.
Qed.

(** A scalar value reads back as itself, whatever follows. *)
Lemma decode_encode r l : scalar r → decode_runes (encode_rune r ++ l) = inr r :: decode_runes l.
Proof.
  intros Hs. unfold encode_rune. rewrite (proj2 (scalar_within r) Hs). unfold scalar in Hs.
  destruct (Z.ltb_spec r 128) as [H1|H1]; [apply decode_1; lia|].
  replace (r / 4096) with (r / 64 / 64) by (rewrite Z.div_div by lia; done).
  replace (r / 262144) with (r / 64 / 64 / 64) by (rewrite !Z.div_div by lia; done).
  destruct (split_64 r) as (q & d & Hr & Hd & -> & ->).
  destruct (Z.ltb_spec r 2048) as [H2|H2].
  { simpl app. rewrite decode_2 by (rewrite utf8_2_true; lia). unfold rune_2. do 2 f_equal. lia. }
  destruct (split_64 q) as (q2 & d2 & Hr2 & Hd2 & -> & ->).
  destruct (Z.ltb_spec r 65536) as [H3|H3].
  { simpl app. rewrite decode_3 by (rewrite utf8_3_true; lia). unfold rune_3. do 2 f_equal. lia. }
  destruct (split_64 q2) as (q3 & d3 & Hr3 & Hd3 & -> & ->).
  simpl app. rewrite decode_4 by (rewrite utf8_4_true; lia). unfold rune_4. do 2 f_equal. lia.
Qed.

(** ** What [decode_runes] returns *)

Lemma rune_2_scalar a b : utf8_2 a b = true → scalar (rune_2 a b).
Proof. rewrite utf8_2_true. unfold scalar, rune_2. lia. Qed.
Lemma rune_3_scalar a b c : utf8_3 a b c = true → scalar (rune_3 a b c).
Proof. rewrite utf8_3_true. unfold scalar, rune_3. lia. Qed.
Lemma rune_4_scalar a b c d : utf8_4 a b c d = true → scalar (rune_4 a b c d).
Proof. rewrite utf8_4_true. unfold scalar, rune_4. lia. Qed.

Lemma encode_2 a b : utf8_2 a b = true → encode_rune (rune_2 a b) = [a; b].
Proof.
  intros H. unfold encode_rune. rewrite (proj2 (scalar_within _)) by by apply rune_2_scalar.
  rewrite utf8_2_true in H. unfold rune_2.
  destruct (Z.ltb_spec ((a - 192) * 64 + (b - 128)) 128); [lia|].
  destruct (Z.ltb_spec ((a - 192) * 64 + (b - 128)) 2048); [|lia].
  repeat f_equal; Z.to_euclidean_division_equations; lia.
Qed.
Lemma encode_3 a b c : utf8_3 a b c = true → encode_rune (rune_3 a b c) = [a; b; c].
Proof.
  intros H. unfold encode_rune. rewrite (proj2 (scalar_within _)) by by apply rune_3_scalar.
  rewrite utf8_3_true in H.
  assert (2048 ≤ rune_3 a b c < 65536) as Hr by (unfold rune_3; lia).
  destruct (Z.ltb_spec (rune_3 a b c) 128); [lia|].
  destruct (Z.ltb_spec (rune_3 a b c) 2048); [lia|].
  destruct (Z.ltb_spec (rune_3 a b c) 65536); [|lia].
  replace (rune_3 a b c / 4096) with (rune_3 a b c / 64 / 64) by (rewrite Z.div_div by lia; done).
  destruct (split_64 (rune_3 a b c)) as (q & d & Hr1 & Hd1 & -> & ->).
  destruct (split_64 q) as (q2 & d2 & Hr2 & Hd2 & -> & ->). unfold rune_3 in Hr1.
  repeat f_equal; lia.
Qed.
Lemma encode_4 a b c d : utf8_4 a b c d = true → encode_rune (rune_4 a b c d) = [a; b; c; d].
Proof.
  intros H. unfold encode_rune. rewrite (proj2 (scalar_within _)) by by apply rune_4_scalar.
  rewrite utf8_4_true in H.
  assert (65536 ≤ rune_4 a b c d) as Hr by (unfold rune_4; lia).
  destruct (Z.ltb_spec (rune_4 a b c d) 128); [lia|].
  destruct (Z.ltb_spec (rune_4 a b c d) 2048); [lia|].
  destruct (Z.ltb_spec (rune_4 a b c d) 65536); [lia|].
  replace (rune_4 a b c d / 4096) with (rune_4 a b c d / 64 / 64) by (rewrite Z.div_div by lia; done).
  replace (rune_4 a b c d / 262144) with (rune_4 a b c d / 64 / 64 / 64)
    by (rewrite !Z.div_div by lia; done).
  destruct (split_64 (rune_4 a b c d)) as (q & e & Hr1 & Hd1 & -> & ->).
  destruct (split_64 q) as (q2 & d2 & Hr2 & Hd2 & -> & ->).
  destruct (split_64 q2) as (q3 & d3 & Hr3 & Hd3 & -> & ->). unfold rune_4 in Hr1.
  repeat f_equal; lia.
Qed.

(** The induction principle of [decode_runes]: each step reads one sequence, or one
    invalid byte. *)
Lemma decode_ind (P : list Z → list (Z + Z) → Prop) :
  P [] [] →
  (∀ a l rs, a < 128 → P l rs → P (a :: l) (inr a :: rs)) →
  (∀ a b l rs, utf8_2 a b = true → P l rs → P (a :: b :: l) (inr (rune_2 a b) :: rs)) →
  (∀ a b c l rs, utf8_3 a b c = true → P l rs → P (a :: b :: c :: l) (inr (rune_3 a b c) :: rs)) →
  (∀ a b c d l rs, utf8_4 a b c d = true → P l rs →
     P (a :: b :: c :: d :: l) (inr (rune_4 a b c d) :: rs)) →
  (∀ a l rs, 128 ≤ a → P l rs → P (a :: l) (inl a :: rs)) →
  ∀ l, P l (decode_runes l).
Proof.
  intros Hn H1 H2 H3 H4 He l. remember (length l) as n eqn:E. revert l E.
  induction (lt_wf n) as [n _ IH]. intros l ->.
  assert (∀ k, (length k < length l)%nat → P k (decode_runes k)) as Hk by (intros k Hl; by eapply IH).
  destruct l as [|a l]; [done|]. cbn [decode_runes].
  destruct (Z.ltb_spec a 128); [apply H1; [done|apply Hk; simpl; lia]|].
  destruct l as [|b l]; [by apply He|].
  destruct (utf8_2 a b) eqn:E2; [apply H2; [done|apply Hk; simpl; lia]|].
  destruct l as [|c l]; [apply He; [done|apply Hk; simpl; lia]|].
  destruct (utf8_3 a b c) eqn:E3; [apply H3; [done|apply Hk; simpl; lia]|].
  destruct l as [|d l]; [apply He; [done|apply Hk; simpl; lia]|].
  destruct (utf8_4 a b c d) eqn:E4; [apply H4; [done|apply Hk; simpl; lia]|].
  apply He; [done|apply Hk; simpl; lia].
Qed.

(** What a decoded item can be. *)
Definition rune_ok (r : Z + Z) : Prop :=
  match r with inr r => scalar r | inl b => 128 ≤ b < 256 end.

Lemma decode_ok l : Forall is_byte l → Forall rune_ok (decode_runes l).
Proof.
  apply (decode_ind (λ l rs, Forall is_byte l → Forall rune_ok rs)); [done|..];
    intros; repeat match goal with H : Forall is_byte (_ :: _) |- _ => inv H end;
    constructor; simpl; eauto using rune_2_scalar, rune_3_scalar, rune_4_scalar;
    unfold is_byte, scalar in *; lia.
Qed.

(** The rune a reader sees is a scalar value. *)
Lemma rune_of_scalar r : rune_ok r → scalar (rune_of r).
Proof. destruct r; [unfold scalar; simpl; unfold RuneError; lia|done]. Qed.

(** ** Replacing invalid bytes *)

Definition sanitize (l : list Z) : list Z :=
  concat ((λ r, encode_rune (rune_of r)) <$> decode_runes l).

Lemma sanitize_byte l : Forall is_byte (sanitize l).
Proof.
  unfold sanitize. induction (decode_runes l) as [|r rs IH]; [constructor|].
  apply Forall_app_2; [apply encode_rune_range|done].
Qed.

Lemma decode_encodes rs l :
  Forall scalar rs → decode_runes (concat (encode_rune <$> rs) ++ l) = (inr <$> rs) ++ decode_runes l.
Proof.
  induction 1 as [|r rs Hr _ IH]; [done|]. csimpl.
  rewrite <-(assoc_L (++)), decode_encode by done. by rewrite IH.
Qed.

Lemma decode_sanitize l :
  Forall is_byte l → decode_runes (sanitize l) = (λ r, inr (rune_of r)) <$> decode_runes l.
Proof.
  intros Hl. unfold sanitize. rewrite <-(app_nil_r (concat _)).
  replace ((λ r, encode_rune (rune_of r)) <$> decode_runes l)
    with (encode_rune <$> (rune_of <$> decode_runes l)) by by rewrite <-list_fmap_compose.
  rewrite decode_encodes.
  - simpl. by rewrite app_nil_r, <-list_fmap_compose.
  - apply Forall_fmap. eapply Forall_impl; [by apply decode_ok|]. apply rune_of_scalar.
Qed.

Lemma sanitize_idem l : Forall is_byte l → sanitize (sanitize l) = sanitize l.
Proof.
  intros Hl. unfold sanitize at 1. rewrite decode_sanitize by done.
  by rewrite <-list_fmap_compose.
Qed.

Lemma sanitize_valid l :
  Forall is_byte l → valid_runes (decode_runes l) = true → sanitize l = l.
Proof.
  unfold sanitize.
  apply (decode_ind (λ l rs, Forall is_byte l → valid_runes rs = true →
           concat ((λ r, encode_rune (rune_of r)) <$> rs) = l)); [done|..];
    intros; repeat match goal with H : Forall is_byte (_ :: _) |- _ => inv H end; csimpl in *.
  - rewrite H0 by done. unfold is_byte in *.
    destruct (encode_rune_cases a) as [[_ ->]|Hf]; [done|]. unfold encode_rune in *.
    rewrite (proj2 (scalar_within a)) in * by (unfold scalar; lia).
    by destruct (Z.ltb_spec a 128); [|lia].
  - by rewrite H0, encode_2.
  - by rewrite H0, encode_3.
  - by rewrite H0, encode_4.
Qed.

(** [strings.ToValidUTF8] with [RuneError], as the JSON package applies it. *)
Definition clean (s : string) : string := of_bytes (sanitize (bytes s)).

Lemma bytes_clean s : bytes (clean s) = sanitize (bytes s).
Proof. apply bytes_of_bytes, sanitize_byte. Qed.

Lemma clean_valid s : valid_utf8 s = true → clean s = s.
Proof.
  intros H. apply bytes_inj. rewrite bytes_clean. apply sanitize_valid; [apply bytes_range|done].
Qed.

(** ASCII is valid, hexadecimal digits are ASCII. *)
Lemma ascii_valid l : Forall (λ b, 0 ≤ b < 128) l → valid_runes (decode_runes l) = true.
Proof. induction 1 as [|b l Hb _ IH]; [done|]. by rewrite decode_1. Qed.

Lemma hex_valid l : Forall is_byte l → valid_utf8 (EncodeToString l) = true.
Proof.
  intros Hl. unfold valid_utf8. rewrite bytes_EncodeToString by done. apply ascii_valid.
  induction Hl as [|b l Hb _ IH]; csimpl; [done|]. unfold is_byte in Hb.
  assert (∀ d, 0 ≤ d < 16 → 0 ≤ digit d < 128) as Hd by (intros d Hd; unfold digit; case_cmp; lia).
  unfold hex_byte. constructor; [apply Hd|constructor; [apply Hd|exact IH]].
  - split; [apply Z.div_pos; lia|apply Z.div_lt_upper_bound; lia].
  - apply Z.mod_pos_bound. lia.
Qed.
