(* ===== verification/Runtime.v ===== *)
(** * The run-time environment: clock, randomness and timers

    Every atomic action of the program happens at an instant of a clock that
    never runs backwards.  How much time passes between two actions, what
    [crypto/rand] and [math/rand] return, and which ready case a [select] takes
    are unknown functions of the class [Env], so a theorem about all [Env] covers
    every timing and every random outcome.  [HasRuntime] is the interface through
    which a component's code reaches the clock of the world it runs in. *)

From S2P Require Import Prelude GoLang GoString Conc.
Open Scope Z_scope.

Record Runtime := mkRuntime { rt_now : time; rt_tick : nat }.

Class Env := mkEnv {
  latency : nat → N;                    (* time spent before the n-th action *)
  entropy : nat → nat → Z;              (* crypto/rand: bytes drawn at the n-th action *)
  entropy_error : nat → option error;   (* crypto/rand: failure *)
  random : nat → Z;                     (* math/rand/v2 *)
  coin : nat → bool                     (* select with several ready cases *)
}.

(** Access to the clock of a world, with the laws of a field. *)
Class HasRuntime (W : Type) := {
  get_rt : W → Runtime;
  put_rt : Runtime → W → W;
  get_put_rt : ∀ rt w, get_rt (put_rt rt w) = rt;
  put_put_rt : ∀ rt rt' w, put_rt rt (put_rt rt' w) = put_rt rt w;
  put_get_rt : ∀ w, put_rt (get_rt w) w = w
}.

Section runtime.
Context `{Env} {W : Type} `{HasRuntime W}.

(** The world when the next action happens. *)
Definition advance (w : W) : W :=
  put_rt (mkRuntime (rt_now (get_rt w) + Z.of_N (latency (rt_tick (get_rt w))))
                    (S (rt_tick (get_rt w)))) w.

(** An action at the next instant, which sees the clock. *)
Definition atomic {X} (f : Runtime → W → X * W) : prog W X :=
  act (λ w, f (get_rt (advance w)) (advance w)).

(** The same for an action that may block. *)
Definition atomic_block {X} (f : Runtime → W → option (X * W)) : prog W X :=
  Act (λ w, f (get_rt (advance w)) (advance w)) Ret.

(** [time.Now()]. *)
Definition Now : prog W time := atomic (λ rt w, (rt_now rt, w)).

(** [rand.Read] of [n] bytes. *)
Definition random_bytes (tick n : nat) : list Z := (λ i, entropy tick i mod 256) <$> seq 0 n.
Definition ReadRandom (n : nat) : prog W (result (list Z)) :=
  atomic (λ rt w, (match entropy_error (rt_tick rt) with
                   | Some e => Err e
                   | None => Ok (random_bytes (rt_tick rt) n)
                   end, w)).

(** [rand.Int64N(n)], which panics unless [0 < n]. *)
Definition Int64N (n : Z) : prog W Z :=
  atomic_block (λ rt w, if n <=? 0 then None else Some (random (rt_tick rt) mod n, w)).

(** [select] between a done context and a timer of duration [d]: the error of
    the context, or [None] when the timer fires.  The goroutine wakes up when
    the first of the two is ready; if both become ready at once the choice is
    arbitrary. *)
Definition select_timer (ctx : Context) (d : duration) : prog W (option error) :=
  atomic (λ rt w,
    let fires := rt_now rt + Z.max d 0 in
    let sleep t := put_rt (mkRuntime t (rt_tick rt)) w in
    match ctx_done ctx with
    | Some (t, e) =>
        let done_at := Z.max t (rt_now rt) in
        if (done_at <? fires) || ((done_at =? fires) && coin (rt_tick rt))
        then (Some e, sleep done_at) else (None, sleep fires)
    | None => (None, sleep fires)
    end).

Lemma wp_atomic {X} (f : Runtime → W → X * W) Q w :
  wp (atomic f) Q w ↔ Q (f (get_rt (advance w)) (advance w)).1
                        (f (get_rt (advance w)) (advance w)).2.
Proof. unfold atomic. by rewrite wp_act. Qed.

Lemma nonblocking_atomic {X} (f : Runtime → W → X * W) : nonblocking (atomic f).
Proof. apply nonblocking_act. Qed.

Lemma wp_atomic_block {X} (f : Runtime → W → option (X * W)) Q w :
  wp (atomic_block f) Q w ↔
  match f (get_rt (advance w)) (advance w) with Some (x, w') => Q x w' | None => False end.
Proof. unfold atomic_block. simpl. by destruct (f _ _) as [[x w']|]. Qed.

Lemma wp_Int64N n Q w :
  0 < n → (∀ j, 0 ≤ j < n → Q j (advance w)) → wp (Int64N n) Q w.
Proof.
  intros Hn HQ. unfold Int64N. rewrite wp_atomic_block. case_cmp; [lia|].
  apply HQ, Z.mod_pos_bound. lia.
Qed.

(** The clock never runs backwards. *)
Lemma advance_now w : rt_now (get_rt w) ≤ rt_now (get_rt (advance w)).
Proof. unfold advance. rewrite get_put_rt. simpl. lia. Qed.

(** [w'] is [w] at a later instant: nothing but the clock has changed. *)
Definition later (w w' : W) : Prop :=
  ∃ rt, w' = put_rt rt w ∧ rt_now (get_rt w) ≤ rt_now rt.

#[export] Instance later_preorder : PreOrder later.
Proof.
  split.
  - intros w. exists (get_rt w). by rewrite put_get_rt.
  - intros w1 w2 w3 (rt & -> & Hle) (rt' & -> & Hle'). exists rt'.
    rewrite get_put_rt in Hle'. rewrite put_put_rt. split; [done|lia].
Qed.

Lemma later_advance w : later w (advance w).
Proof. eexists. split; [done|]. simpl. lia. Qed.

(** After a [select] the clock shows that the chosen case was ready. *)
Lemma wp_select_timer ctx d Q w :
  (∀ r w', later w w' →
     match r with
     | None => rt_now (get_rt w) + Z.max d 0 ≤ rt_now (get_rt w')
     | Some e => ∃ t, ctx_done ctx = Some (t, e) ∧ t ≤ rt_now (get_rt w')
     end → Q r w') →
  wp (select_timer ctx d) Q w.
Proof.
  intros HQ. unfold select_timer. apply wp_atomic. pose proof (later_advance w) as Ha.
  destruct Ha as (rt & Ha & Hle). rewrite Ha.
  destruct (ctx_done ctx) as [[t e]|]; simpl; rewrite ?get_put_rt.
  - case_match eqn:E; simpl; apply HQ; rewrite ?put_put_rt, ?get_put_rt; simpl.
    1,3: eexists; split; [done|simpl; lia].
    + eexists; split; [done|lia].
    + lia.
  - apply HQ; rewrite ?put_put_rt, ?get_put_rt; simpl; [|lia].
    eexists; split; [done|simpl; lia].
Qed.

(** A context that is done already wins against a timer that has not fired. *)
Lemma wp_select_timer_done ctx d t e Q w :
  ctx_done ctx = Some (t, e) → t ≤ rt_now (get_rt w) → 0 < d →
  (∀ w', later w w' → Q (Some e) w') → wp (select_timer ctx d) Q w.
Proof.
  intros Hc Ht Hd HQ. unfold select_timer. apply wp_atomic. rewrite Hc.
  pose proof (advance_now w). pose proof (later_advance w).
  destruct (Z.ltb_spec (Z.max t (rt_now (get_rt (advance w))))
              (rt_now (get_rt (advance w)) + Z.max d 0)); [|lia]. simpl.
  apply HQ. etrans; [done|]. eexists. split; [done|]. simpl. lia.
Qed.

Lemma random_bytes_range tick n : Forall is_byte (random_bytes tick n).
Proof.
  unfold random_bytes. apply Forall_fmap, Forall_true. intros i.
  apply Z.mod_pos_bound. lia.
Qed.

Lemma random_bytes_length tick n : length (random_bytes tick n) = n.
Proof. unfold random_bytes. by rewrite length_fmap, length_seq. Qed.
End runtime.

#[global] Arguments atomic : simpl never.
#[global] Arguments atomic_block : simpl never.
#[global] Arguments Now : simpl never.
#[global] Arguments ReadRandom : simpl never.
#[global] Arguments Int64N : simpl never.
#[global] Arguments select_timer : simpl never.
#[global] Arguments advance : simpl never.

#[export] Hint Resolve nonblocking_atomic random_bytes_range random_bytes_length : agentflow.

(** ** A concrete environment

    One microsecond passes before every action, nothing fails, and the random
    numbers are the positions of the run: it instantiates the interfaces of this
    file in the examples of the components. *)

Definition demo_env : Env :=
  mkEnv (λ _, 1000%N) (λ tick i, Z.of_nat (7 * tick + i)) (λ _, None) Z.of_nat (λ _, false).

#[export] Instance pair_runtime (S : Type) : HasRuntime (Runtime * S).
Proof.
  refine {| get_rt := fst; put_rt rt w := (rt, w.2) |}; [done|done|by intros []].
Defined.
