(* ===== verification/Id.v ===== *)
(** * [internal/id]: random identifiers

    [New] draws 16 random bytes, stamps the version and variant of a UUIDv4 into
    them and returns their 32 hexadecimal digits. *)

From S2P Require Import Prelude GoLang GoString Conc Runtime.
Open Scope Z_scope.

(** The two assignments to [bytes[6]] and [bytes[8]]. *)
Definition stamp (b : list Z) : list Z :=
  let b := <[6%nat := Z.lor (Z.land (b !!! 6%nat) 15) 64]> b in
  <[8%nat := Z.lor (Z.land (b !!! 8%nat) 63) 128]> b.

Definition New `{Env} {W} `{HasRuntime W} : prog W (result string) :=
  r ← ReadRandom 16;
  mret (match r with
        | Err e => Err (Wrap "generate id" e)
        | Ok b => Ok (EncodeToString (stamp b))
        end).

(** ** Properties *)

(** A decidable fact about bytes holds for all of them if it holds for 0 to 255. *)
Lemma byte_cases (P : Z → bool) :
  forallb P (Z.of_nat <$> seq 0 256) = true → ∀ b, is_byte b → P b = true.
Proof.
  intros H b Hb. rewrite forallb_forall in H. apply H, list_elem_of_In.
  apply list_elem_of_fmap. exists (Z.to_nat b). unfold is_byte in Hb.
  split; [lia|]. apply elem_of_seq. lia.
Qed.

Lemma stamp_6 b : is_byte b → Z.lor (Z.land b 15) 64 = 64 + b mod 16.
Proof.
  intros H. apply Z.eqb_eq. revert b H.
  apply (byte_cases (λ b, Z.lor (Z.land b 15) 64 =? 64 + b mod 16)). by vm_compute.
Qed.

Lemma stamp_8 b : is_byte b → Z.lor (Z.land b 63) 128 = 128 + b mod 64.
Proof.
  intros H. apply Z.eqb_eq. revert b H.
  apply (byte_cases (λ b, Z.lor (Z.land b 63) 128 =? 128 + b mod 64)). by vm_compute.
Qed.

(** The bits of the random bytes that the identifier keeps: all but the high
    nibble of byte 6 and the two high bits of byte 8. *)
Definition kept_bits (b : list Z) : list Z :=
  <[8%nat := b !!! 8%nat mod 64]> (<[6%nat := b !!! 6%nat mod 16]> b).

Lemma bytes_lookup b i : Forall is_byte b → (i < length b)%nat → is_byte (b !!! i).
Proof.
  intros H Hi. destruct (lookup_lt_is_Some_2 b i Hi) as [x Hx].
  rewrite (list_lookup_total_correct _ _ _ Hx). by eapply Forall_lookup_1.
Qed.

Lemma stamp_spec b :
  Forall is_byte b → length b = 16%nat →
  stamp b = <[8%nat := 128 + b !!! 8%nat mod 64]> (<[6%nat := 64 + b !!! 6%nat mod 16]> b).
Proof.
  intros H Hl. unfold stamp. rewrite list_lookup_total_insert_ne by done.
  rewrite stamp_6, stamp_8 by (apply bytes_lookup; [done|lia]). done.
Qed.

Lemma stamp_range b : Forall is_byte b → length b = 16%nat → Forall is_byte (stamp b).
Proof.
  intros H Hl. rewrite stamp_spec by done.
  pose proof (Z.mod_pos_bound (b !!! 8%nat) 64). pose proof (Z.mod_pos_bound (b !!! 6%nat) 16).
  repeat apply Forall_insert; try done; unfold is_byte; lia.
Qed.

Lemma stamp_length b : length (stamp b) = length b.
Proof. unfold stamp. by rewrite !length_insert. Qed.

(** An identifier is the hexadecimal text of 16 bytes of a version 4 UUID. *)
Definition uuid4_text (s : string) : Prop :=
  ∃ b, hex_decode (bytes s) = Some b ∧ length b = 16%nat ∧
       b !!! 6%nat / 16 = 4 ∧ b !!! 8%nat / 64 = 2.

Lemma stamp_uuid4 b :
  Forall is_byte b → length b = 16%nat → uuid4_text (EncodeToString (stamp b)).
Proof.
  intros H Hl. pose proof (stamp_range b H Hl) as Hr. exists (stamp b).
  rewrite bytes_EncodeToString, hex_decode_encode, stamp_length by done.
  rewrite stamp_spec by done. split_and!; try done.
  - rewrite list_lookup_total_insert_ne, list_lookup_total_insert_eq by (rewrite ?length_insert; lia).
    pose proof (Z.mod_pos_bound (b !!! 6%nat) 16). Z.to_euclidean_division_equations. lia.
  - rewrite list_lookup_total_insert_eq by (rewrite ?length_insert; lia).
    pose proof (Z.mod_pos_bound (b !!! 8%nat) 64). Z.to_euclidean_division_equations. lia.
Qed.

Section new.
Context `{Env} {W : Type} `{HasRuntime W}.

Lemma New_nonblocking : nonblocking (New : prog W _).
Proof. apply nonblocking_bind; eauto with agentflow. Qed.

(** [id.New] never blocks; it fails only when the random source fails, and
    otherwise returns 32 hexadecimal digits of a version 4, variant 1 UUID. *)
Theorem New_uuid4 (w : W) :
  wp New (λ r _, match r with
                 | Ok s => len s = 32 ∧ uuid4_text s
                 | Err e => ∃ cause, entropy_error (S (rt_tick (get_rt w))) = Some cause ∧
                                     e = Wrap "generate id" cause
                 end) w.
Proof.
  unfold New. apply wp_bind, wp_atomic. simpl. unfold advance.
  rewrite get_put_rt. simpl. destruct (entropy_error _) as [e|]; simpl; [eauto|].
  set (b := random_bytes _ _).
  assert (Forall is_byte b) by apply random_bytes_range.
  assert (length b = 16%nat) by apply random_bytes_length.
  split; [|by apply stamp_uuid4].
  rewrite EncodeToString_length by (by apply stamp_range). rewrite stamp_length. lia.
Qed.
End new.

(** Stamping and keeping determine each other. *)
Definition stamp_kept (k : list Z) : list Z :=
  <[8%nat := 128 + k !!! 8%nat]> (<[6%nat := 64 + k !!! 6%nat]> k).
Definition unstamp (s : list Z) : list Z :=
  <[8%nat := s !!! 8%nat - 128]> (<[6%nat := s !!! 6%nat - 64]> s).

Lemma stamp_of_kept b :
  Forall is_byte b → length b = 16%nat → stamp b = stamp_kept (kept_bits b).
Proof.
  intros H Hl. rewrite stamp_spec by done. unfold stamp_kept, kept_bits.
  do 16 (destruct b as [|? b]; [done|]). by destruct b.
Qed.

Lemma kept_of_stamp b :
  Forall is_byte b → length b = 16%nat → kept_bits b = unstamp (stamp b).
Proof.
  intros H Hl. rewrite stamp_spec by done. unfold unstamp, kept_bits.
  do 16 (destruct b as [|? b]; [done|]). destruct b; [|done].
  cbn -[Z.modulo]. repeat f_equal; lia.
Qed.

(** Two identifiers are equal exactly when the 122 random bits they were made from
    are: stamping loses only the six fixed bits, the encoding nothing. *)
Theorem New_injective (b1 b2 : list Z) :
  Forall is_byte b1 → Forall is_byte b2 → length b1 = 16%nat → length b2 = 16%nat →
  EncodeToString (stamp b1) = EncodeToString (stamp b2) ↔ kept_bits b1 = kept_bits b2.
Proof.
  intros H1 H2 L1 L2. split; intros E.
  - apply EncodeToString_inj in E; [|by apply stamp_range..].
    by rewrite !kept_of_stamp, E.
  - by rewrite !stamp_of_kept, E.
Qed.

Lemma New_injective_witness :
  let b1 := Z.of_nat <$> seq 0 16 in
  let b2 := <[6%nat := 246]> b1 in
  EncodeToString (stamp b1) = EncodeToString (stamp b2) ∧ b1 ≠ b2 ∧ kept_bits b1 = kept_bits b2.
Proof.
  intros b1 b2. split; [|split; [discriminate|vm_compute; reflexivity]].
  apply (New_injective b1 b2); [..|vm_compute; reflexivity].
  - repeat constructor; unfold is_byte; lia.
  - repeat constructor; unfold is_byte; lia.
  - reflexivity.
  - reflexivity.
Defined.
