(* ===== verification/Domain.v ===== *)
(** * [internal/domain]: the entities shared by every component

    One record per struct, with the fields of [models.go]; [Type_] stands for the
    field [Type], [Execution_] for the field [Execution].  A setter [set_F] is the
    assignment [x.F = v] on a copy of the struct. *)

From S2P Require Import Prelude GoLang.
Open Scope Z_scope.

Inductive ExecutionStatus : Set :=
| ExecutionQueued | ExecutionRunning | ExecutionSucceeded | ExecutionFailed | ExecutionCancelled.

#[export] Instance ExecutionStatus_eq_dec : EqDecision ExecutionStatus.
Proof. solve_decision. Defined.

Definition status_text (s : ExecutionStatus) : string :=
  match s with
  | ExecutionQueued => "queued"
  | ExecutionRunning => "running"
  | ExecutionSucceeded => "succeeded"
  | ExecutionFailed => "failed"
  | ExecutionCancelled => "cancelled"
  end.

#[export] Instance value_eq_dec : EqDecision value.
Proof.
  unfold EqDecision, Decision. fix IH 1. intros x y.
  pose proof (IH : EqDecision value) as IHi.
  destruct x as [|b|z|f|s|s|l|l], y as [|b'|z'|f'|s'|s'|l'|l']; try (right; congruence).
  - by left.
  - destruct (decide (b = b')); [left|right]; congruence.
  - destruct (decide (z = z')); [left|right]; congruence.
  - destruct (decide (f = f')); [left|right]; congruence.
  - destruct (decide (s = s')); [left|right]; congruence.
  - destruct (decide (s = s')); [left|right]; congruence.
  - destruct (list_eq_dec l l') as [->|]; [by left|right; congruence].
  - destruct (list_eq_dec (dec := prod_eq_dec) l l') as [->|]; [by left|right; congruence].
Defined.

Module Agent.
Record t := mk {
  ID : string;
  OwnerID : string;
  Name : string;
  Description : string;
  SystemPrompt : string;
  Model : string;
  Temperature : float64;
  MaxTokens : Z;
  Tools : list string;
  Version : Z;
  CreatedAt : time;
  UpdatedAt : time
}.

#[global] Instance eq_dec : EqDecision t.
Proof. solve_decision. Defined.

Definition set_Name (v : string) (x : t) : t :=
  mk (ID x) (OwnerID x) v (Description x) (SystemPrompt x) (Model x) (Temperature
     x) (MaxTokens x) (Tools x) (Version x) (CreatedAt x) (UpdatedAt x).

Definition set_Description (v : string) (x : t) : t :=
  mk (ID x) (OwnerID x) (Name x) v (SystemPrompt x) (Model x) (Temperature x)
     (MaxTokens x) (Tools x) (Version x) (CreatedAt x) (UpdatedAt x).

Definition set_SystemPrompt (v : string) (x : t) : t :=
  mk (ID x) (OwnerID x) (Name x) (Description x) v (Model x) (Temperature x)
     (MaxTokens x) (Tools x) (Version x) (CreatedAt x) (UpdatedAt x).

Definition set_Model (v : string) (x : t) : t :=
  mk (ID x) (OwnerID x) (Name x) (Description x) (SystemPrompt x) v (Temperature
     x) (MaxTokens x) (Tools x) (Version x) (CreatedAt x) (UpdatedAt x).

Definition set_Temperature (v : float64) (x : t) : t :=
  mk (ID x) (OwnerID x) (Name x) (Description x) (SystemPrompt x) (Model x) v
     (MaxTokens x) (Tools x) (Version x) (CreatedAt x) (UpdatedAt x).

Definition set_MaxTokens (v : Z) (x : t) : t :=
  mk (ID x) (OwnerID x) (Name x) (Description x) (SystemPrompt x) (Model x)
     (Temperature x) v (Tools x) (Version x) (CreatedAt x) (UpdatedAt x).

Definition set_Tools (v : list string) (x : t) : t :=
  mk (ID x) (OwnerID x) (Name x) (Description x) (SystemPrompt x) (Model x)
     (Temperature x) (MaxTokens x) v (Version x) (CreatedAt x) (UpdatedAt x).

Definition set_Version (v : Z) (x : t) : t :=
  mk (ID x) (OwnerID x) (Name x) (Description x) (SystemPrompt x) (Model x)
     (Temperature x) (MaxTokens x) (Tools x) v (CreatedAt x) (UpdatedAt x).

Definition set_CreatedAt (v : time) (x : t) : t :=
  mk (ID x) (OwnerID x) (Name x) (Description x) (SystemPrompt x) (Model x)
     (Temperature x) (MaxTokens x) (Tools x) (Version x) v (UpdatedAt x).

Definition set_UpdatedAt (v : time) (x : t) : t :=
  mk (ID x) (OwnerID x) (Name x) (Description x) (SystemPrompt x) (Model x)
     (Temperature x) (MaxTokens x) (Tools x) (Version x) (CreatedAt x) v.

End Agent.

Module Conversation.
Record t := mk {
  ID : string;
  OwnerID : string;
  AgentID : string;
  Title : string;
  CreatedAt : time;
  UpdatedAt : time
}.

#[global] Instance eq_dec : EqDecision t.
Proof. solve_decision. Defined.

End Conversation.

Module Message.
Record t := mk {
  ID : string;
  ConversationID : string;
  Role : string;
  Content : string;
  ToolCallID : string;
  Metadata : list (string * value);
  CreatedAt : time
}.

#[global] Instance eq_dec : EqDecision t.
Proof. solve_decision. Defined.

End Message.

Module Execution.
Record t := mk {
  ID : string;
  RequestID : string;
  IdempotencyKey : string;
  AgentID : string;
  OwnerID : string;
  ConversationID : string;
  Input : string;
  Output : string;
  Status : ExecutionStatus;
  Model : string;
  PromptTokens : Z;
  OutputTokens : Z;
  Error : string;
  RetryCount : Z;
  StartedAt : option time;
  CompletedAt : option time;
  CreatedAt : time
}.

#[global] Instance eq_dec : EqDecision t.
Proof. solve_decision. Defined.

Definition set_Output (v : string) (x : t) : t :=
  mk (ID x) (RequestID x) (IdempotencyKey x) (AgentID x) (OwnerID x)
     (ConversationID x) (Input x) v (Status x) (Model x) (PromptTokens x)
     (OutputTokens x) (Error x) (RetryCount x) (StartedAt x) (CompletedAt x)
     (CreatedAt x).

Definition set_Status (v : ExecutionStatus) (x : t) : t :=
  mk (ID x) (RequestID x) (IdempotencyKey x) (AgentID x) (OwnerID x)
     (ConversationID x) (Input x) (Output x) v (Model x) (PromptTokens x)
     (OutputTokens x) (Error x) (RetryCount x) (StartedAt x) (CompletedAt x)
     (CreatedAt x).

Definition set_Model (v : string) (x : t) : t :=
  mk (ID x) (RequestID x) (IdempotencyKey x) (AgentID x) (OwnerID x)
     (ConversationID x) (Input x) (Output x) (Status x) v (PromptTokens x)
     (OutputTokens x) (Error x) (RetryCount x) (StartedAt x) (CompletedAt x)
     (CreatedAt x).

Definition set_PromptTokens (v : Z) (x : t) : t :=
  mk (ID x) (RequestID x) (IdempotencyKey x) (AgentID x) (OwnerID x)
     (ConversationID x) (Input x) (Output x) (Status x) (Model x) v (OutputTokens
     x) (Error x) (RetryCount x) (StartedAt x) (CompletedAt x) (CreatedAt x).

Definition set_OutputTokens (v : Z) (x : t) : t :=
  mk (ID x) (RequestID x) (IdempotencyKey x) (AgentID x) (OwnerID x)
     (ConversationID x) (Input x) (Output x) (Status x) (Model x) (PromptTokens x)
     v (Error x) (RetryCount x) (StartedAt x) (CompletedAt x) (CreatedAt x).

Definition set_Error (v : string) (x : t) : t :=
  mk (ID x) (RequestID x) (IdempotencyKey x) (AgentID x) (OwnerID x)
     (ConversationID x) (Input x) (Output x) (Status x) (Model x) (PromptTokens x)
     (OutputTokens x) v (RetryCount x) (StartedAt x) (CompletedAt x) (CreatedAt x).

Definition set_RetryCount (v : Z) (x : t) : t :=
  mk (ID x) (RequestID x) (IdempotencyKey x) (AgentID x) (OwnerID x)
     (ConversationID x) (Input x) (Output x) (Status x) (Model x) (PromptTokens x)
     (OutputTokens x) (Error x) v (StartedAt x) (CompletedAt x) (CreatedAt x).

Definition set_StartedAt (v : option time) (x : t) : t :=
  mk (ID x) (RequestID x) (IdempotencyKey x) (AgentID x) (OwnerID x)
     (ConversationID x) (Input x) (Output x) (Status x) (Model x) (PromptTokens x)
     (OutputTokens x) (Error x) (RetryCount x) v (CompletedAt x) (CreatedAt x).

Definition set_CompletedAt (v : option time) (x : t) : t :=
  mk (ID x) (RequestID x) (IdempotencyKey x) (AgentID x) (OwnerID x)
     (ConversationID x) (Input x) (Output x) (Status x) (Model x) (PromptTokens x)
     (OutputTokens x) (Error x) (RetryCount x) (StartedAt x) v (CreatedAt x).

End Execution.

Module Step.
Record t := mk {
  ID : string;
  ExecutionID : string;
  Type_ : string;
  Name : string;
  Input : list (string * value);
  Output : list (string * value);
  Error : string;
  RetryCount : Z;
  StartedAt : time;
  CompletedAt : option time
}.

#[global] Instance eq_dec : EqDecision t.
Proof. solve_decision. Defined.

Definition set_Output (v : list (string * value)) (x : t) : t :=
  mk (ID x) (ExecutionID x) (Type_ x) (Name x) (Input x) v (Error x) (RetryCount
     x) (StartedAt x) (CompletedAt x).

Definition set_Error (v : string) (x : t) : t :=
  mk (ID x) (ExecutionID x) (Type_ x) (Name x) (Input x) (Output x) v (RetryCount
     x) (StartedAt x) (CompletedAt x).

Definition set_RetryCount (v : Z) (x : t) : t :=
  mk (ID x) (ExecutionID x) (Type_ x) (Name x) (Input x) (Output x) (Error x) v
     (StartedAt x) (CompletedAt x).

Definition set_CompletedAt (v : option time) (x : t) : t :=
  mk (ID x) (ExecutionID x) (Type_ x) (Name x) (Input x) (Output x) (Error x)
     (RetryCount x) (StartedAt x) v.

End Step.

Module Trace.
Record t := mk {
  Execution_ : Execution.t;
  Steps : list Step.t
}.

#[global] Instance eq_dec : EqDecision t.
Proof. solve_decision. Defined.

End Trace.


(** The fields an execution keeps for life. *)
Definition same_identity (x y : Execution.t) : Prop :=
  Execution.ID x = Execution.ID y ∧ Execution.OwnerID x = Execution.OwnerID y ∧
  Execution.AgentID x = Execution.AgentID y ∧
  Execution.ConversationID x = Execution.ConversationID y ∧
  Execution.Input x = Execution.Input y ∧
  Execution.IdempotencyKey x = Execution.IdempotencyKey y ∧
  Execution.RequestID x = Execution.RequestID y ∧
  Execution.CreatedAt x = Execution.CreatedAt y.

(** The fields a run of an execution determines. *)
Definition same_progress (x y : Execution.t) : Prop :=
  Execution.Output x = Execution.Output y ∧ Execution.Status x = Execution.Status y ∧
  Execution.Model x = Execution.Model y ∧
  Execution.PromptTokens x = Execution.PromptTokens y ∧
  Execution.OutputTokens x = Execution.OutputTokens y ∧
  Execution.Error x = Execution.Error y ∧ Execution.RetryCount x = Execution.RetryCount y ∧
  Execution.StartedAt x = Execution.StartedAt y ∧
  Execution.CompletedAt x = Execution.CompletedAt y.

#[export] Instance same_identity_equiv : Equivalence same_identity.
Proof. split; repeat intro; unfold same_identity in *; destruct_and?; split_and!; congruence. Qed.

#[export] Instance same_progress_equiv : Equivalence same_progress.
Proof. split; repeat intro; unfold same_progress in *; destruct_and?; split_and!; congruence. Qed.

Lemma same_both x y : same_identity x y → same_progress x y → x = y.
Proof.
  destruct x, y. unfold same_identity, same_progress. simpl. intros. destruct_and!.
  by simplify_eq.
Qed.

(** [Succeeded], [Failed] and [Cancelled] are the final states of an execution. *)
Definition terminal (s : ExecutionStatus) : bool :=
  match s with
  | ExecutionSucceeded | ExecutionFailed | ExecutionCancelled => true
  | ExecutionQueued | ExecutionRunning => false
  end.
