(* ===== verification/Breaker.v ===== *)
(** * [internal/reliability]: the circuit breaker

    The breaker's methods hold its mutex, so each is one transition of its state;
    [now] is the reading of the clock the method makes. *)

From S2P Require Import Prelude GoLang.
Open Scope Z_scope.

Module CircuitBreaker.
Record t := mk {
  failureThreshold : Z;
  resetTimeout : duration;
  failures : Z;
  openedAt : time
}.

#[global] Instance eq_dec : EqDecision t.
Proof. solve_decision. Defined.
End CircuitBreaker.
Import CircuitBreaker.

Definition NewCircuitBreaker (failureThreshold : Z) (resetTimeout : duration) : CircuitBreaker.t :=
  CircuitBreaker.mk failureThreshold resetTimeout 0 zero_time.

Definition Allow (now : time) (b : CircuitBreaker.t) : bool * CircuitBreaker.t :=
  if IsZero (openedAt b) then (true, b)
  else if resetTimeout b <=? Sub now (openedAt b)
  then (true, mk (failureThreshold b) (resetTimeout b) 0 zero_time)
  else (false, b).

Definition Success (b : CircuitBreaker.t) : CircuitBreaker.t :=
  mk (failureThreshold b) (resetTimeout b) 0 zero_time.

Definition Failure (now : time) (b : CircuitBreaker.t) : CircuitBreaker.t :=
  let n := add64 (failures b) 1 in
  mk (failureThreshold b) (resetTimeout b) n
     (if failureThreshold b <=? n then now else openedAt b).

(** ** The specification: closed with a count, or open since an instant *)

Inductive circuit : Set :=
| Closed (recent : Z)
| Open (since : time).

Section spec.
Context (threshold : Z) (cooldown : duration).

Definition spec_allow (now : time) (c : circuit) : bool * circuit :=
  match c with
  | Closed n => (true, Closed n)
  | Open since => if cooldown <=? now - since then (true, Closed 0) else (false, Open since)
  end.

Definition spec_success (_ : circuit) : circuit := Closed 0.

Definition spec_failure (now : time) (c : circuit) : circuit :=
  match c with
  | Closed n => if threshold <=? n + 1 then Open now else Closed (n + 1)
  | Open _ => Open now
  end.
End spec.

(** The calls a client makes, and the answers of a sequence of calls. *)
Inductive call : Set :=
| CallAllow (now : time) | CallSuccess | CallFailure (now : time).

Section client.
Context {S : Type} (allow : time → S → bool * S) (success : S → S) (failure : time → S → S).

Fixpoint answers (calls : list call) (s : S) : list bool :=
  match calls with
  | [] => []
  | CallAllow now :: calls => let '(a, s) := allow now s in a :: answers calls s
  | CallSuccess :: calls => answers calls (success s)
  | CallFailure now :: calls => answers calls (failure now s)
  end.
End client.

(** The clock is past year 1, and differences fit a [time.Duration]. *)
Definition call_time (c : call) : Prop :=
  match c with CallAllow now | CallFailure now => 0 < now | CallSuccess => True end.

Section refinement.
Context (threshold : Z) (cooldown : duration)
        (Hcooldown : min_int64 < cooldown ≤ max_int64).

(** [n] bounds the failures counted so far, so the counter does not wrap. *)
Definition refines (n : Z) (b : CircuitBreaker.t) (c : circuit) : Prop :=
  failureThreshold b = threshold ∧ resetTimeout b = cooldown ∧
  0 ≤ failures b ≤ n ∧
  match c with
  | Closed k => openedAt b = zero_time ∧ failures b = k
  | Open since => openedAt b = since ∧ 0 < since ∧ threshold ≤ failures b
  end.

Lemma refines_weaken n n' b c : refines n b c → n ≤ n' → refines n' b c.
Proof. unfold refines. intuition lia. Qed.

Lemma refines_New : refines 0 (NewCircuitBreaker threshold cooldown) (Closed 0).
Proof. unfold refines; simpl. intuition lia. Qed.

Lemma refines_Success n b c : 0 ≤ n → refines n b c → refines n (Success b) (spec_success c).
Proof. unfold refines; simpl. intuition lia. Qed.

Lemma refines_Allow n now b c :
  0 < now → 0 ≤ n → refines n b c →
  (Allow now b).1 = (spec_allow cooldown now c).1 ∧
  refines n (Allow now b).2 (spec_allow cooldown now c).2.
Proof.
  intros Hnow Hn (Ht & Hr & Hf & Hc). unfold Allow, IsZero.
  destruct c as [k|since]; destruct Hc as [Ho Hk]; rewrite Ho; simpl.
  - unfold refines. intuition lia.
  - destruct (Z.eqb_spec since zero_time) as [->|_]; [unfold zero_time in *; lia|].
    rewrite Hr. pose proof (Sub_ge now since cooldown Hcooldown).
    case_cmp; case_cmp; try lia; (split; [done|]); unfold refines; simpl; intuition lia.
Qed.

Lemma refines_Failure n now b c :
  0 < now → 0 ≤ n < max_int64 → refines n b c →
  refines (n + 1) (Failure now b) (spec_failure threshold now c).
Proof.
  intros Hnow Hn (Ht & Hr & Hf & Hc).
  assert (add64 (failures b) 1 = failures b + 1) as E.
  { apply wrap64_id. unfold int64, min_int64, max_int64 in *. lia. }
  unfold Failure, refines. rewrite E. simpl.
  destruct c as [k|since]; destruct Hc as [Ho Hk]; simpl.
  - rewrite <-Hk, Ht. case_cmp; intuition lia.
  - rewrite Ht. case_cmp; intuition lia.
Qed.

Lemma refines_answers calls n b c :
  Forall call_time calls → 0 ≤ n → n + Z.of_nat (length calls) ≤ max_int64 →
  refines n b c →
  answers Allow Success Failure calls b =
  answers (spec_allow cooldown) spec_success (spec_failure threshold) calls c.
Proof.
  intros H. revert n b c. induction H as [|k calls Hk _ IH]; intros n b c Hn Hl Hr; [done|].
  simpl length in Hl. destruct k as [now| |now]; simpl in *.
  - destruct (refines_Allow n now b c Hk Hn Hr) as [Ha Hr'].
    destruct (Allow now b) as [a b'], (spec_allow cooldown now c) as [a' c'].
    simpl in *. subst a'. f_equal. apply (IH n); [lia|lia|done].
  - apply (IH n); [lia|lia|]. by apply refines_Success.
  - apply (IH (n + 1)); [lia|lia|]. apply refines_Failure; [done|lia|done].
Qed.
End refinement.

(** C25: The mutex-protected record implements the two-state machine: for every sequence of
    fewer than 2^63 calls it gives the same answers as the specification. *)
Theorem breaker_refines_spec threshold cooldown calls :
  min_int64 < cooldown ≤ max_int64 →
  Forall call_time calls → Z.of_nat (length calls) ≤ max_int64 →
  answers Allow Success Failure calls (NewCircuitBreaker threshold cooldown) =
  answers (spec_allow cooldown) spec_success (spec_failure threshold) calls (Closed 0).
Proof.
  intros Hc Ht Hl. apply (refines_answers _ _ Hc _ 0); [done|lia|lia|].
  by apply refines_New.
Qed.

Lemma breaker_refines_spec_witness :
  let calls := [CallAllow 5; CallFailure 10; CallFailure 11; CallAllow 12; CallAllow 41] in
  answers Allow Success Failure calls (NewCircuitBreaker 2 30) =
    answers (spec_allow 30) spec_success (spec_failure 2) calls (Closed 0) ∧
  answers Allow Success Failure calls (NewCircuitBreaker 2 30) = [true; false; true].
Proof.
  split.
  - apply (breaker_refines_spec 2 30).
    + unfold min_int64, max_int64. lia.
    + repeat constructor; simpl; lia.
    + vm_compute. discriminate.
  - reflexivity.
Defined.

(** ** Failing fast *)

(** [k] failures in a row, the last at time [now]. *)
Definition fail_at (times : list time) (b : CircuitBreaker.t) : CircuitBreaker.t :=
  foldl (λ b now, Failure now b) b times.

Lemma fail_at_spec times now b :
  0 ≤ failures b → failures b + Z.of_nat (length times) + 1 ≤ max_int64 →
  let b' := fail_at (times ++ [now]) b in
  failureThreshold b' = failureThreshold b ∧ resetTimeout b' = resetTimeout b ∧
  failures b' = failures b + Z.of_nat (length times) + 1 ∧
  (failureThreshold b ≤ failures b' → openedAt b' = now).
Proof.
  revert b. induction times as [|t times IH]; intros b H0 Hm; simpl.
  - assert (add64 (failures b) 1 = failures b + 1) as ->.
    { apply wrap64_id. unfold int64, min_int64, max_int64 in *. simpl in *. lia. }
    case_cmp; intuition (simpl in *; lia).
  - simpl length in Hm.
    assert (failures (Failure t b) = failures b + 1) as E.
    { apply wrap64_id. unfold int64, min_int64, max_int64 in *. simpl in *. lia. }
    destruct (IH (Failure t b)) as (A & B & C & D); [lia|lia|].
    unfold fail_at in *. simpl in *. intuition lia.
Qed.

(** Once [failureThreshold] failures have happened without a success in between, the
    last one at time [t], every call of [Allow] before [t + resetTimeout] answers
    [false] and changes nothing; the first one from then on answers [true] and
    leaves the breaker as new. *)
Theorem breaker_fails_fast threshold cooldown times t now :
  0 < t → min_int64 < cooldown ≤ max_int64 →
  threshold ≤ Z.of_nat (length times) + 1 ≤ max_int64 →
  let b := fail_at (times ++ [t]) (NewCircuitBreaker threshold cooldown) in
  Allow now b = if now <? t + cooldown then (false, b)
                else (true, NewCircuitBreaker threshold cooldown).
Proof.
  intros Ht Hc Hth.
  destruct (fail_at_spec times t (NewCircuitBreaker threshold cooldown)) as (A & B & C & D);
    simpl in *; [lia|lia|].
  unfold Allow, IsZero. rewrite A, B, D by lia.
  destruct (Z.eqb_spec t zero_time) as [->|_]; [unfold zero_time in *; lia|].
  pose proof (Sub_ge now t cooldown Hc). case_cmp; case_cmp; done || lia.
Qed.

Lemma breaker_fails_fast_witness :
  let b := fail_at ([10; 20] ++ [25]) (NewCircuitBreaker 3 30) in
  Allow 54 b = (false, b) ∧ Allow 55 b = (true, NewCircuitBreaker 3 30).
Proof.
  split.
  - apply (breaker_fails_fast 3 30 [10; 20] 25 54); unfold min_int64, max_int64; simpl; lia.
  - reflexivity.
Defined.
