(* ===== verification/Retry.v ===== *)
(** * [internal/reliability]: retrying with exponential backoff *)

From S2P Require Import Prelude GoLang GoString Conc Runtime.
Open Scope Z_scope.

Module RetryPolicy.
Record t := mk { MaxAttempts : Z; BaseDelay : duration; MaxDelay : duration }.
End RetryPolicy.
Import RetryPolicy.

(** The delay after a failed attempt, before jitter. *)
Definition backoff (policy : RetryPolicy.t) (attempt : Z) : duration :=
  let delay := shl64 (BaseDelay policy) (attempt - 1) in
  if (0 <? MaxDelay policy) && (MaxDelay policy <? delay) then MaxDelay policy else delay.

(** The argument of [rand.Int64N]. *)
Definition jitter_bound (delay : duration) : Z := Z.max (Z.quot delay 2) 1.

Section retry.
Context `{Env} {W : Type} `{HasRuntime W} {T : Type}.
Context (ctx : Context) (policy : RetryPolicy.t) (operation : Context → prog W (result T)).

(** The loop body from [attempt] on; [fuel] is the number of attempts left. *)
Fixpoint retry_loop (fuel : nat) (attempt : Z) : prog W (result T * Z) :=
  match fuel with
  | O => mret (Err (ErrorString "retry exhausted"), MaxAttempts policy - 1)
  | S fuel =>
      r ← operation ctx;
      match r with
      | Ok result => mret (Ok result, attempt - 1)
      | Err err =>
          if attempt =? MaxAttempts policy then mret (Err err, attempt - 1) else
          let delay := backoff policy attempt in
          jitter ← Int64N (jitter_bound delay);
          fired ← select_timer ctx (add64 delay jitter);
          match fired with
          | Some ctxErr => mret (Err ctxErr, attempt - 1)
          | None => retry_loop fuel (attempt + 1)
          end
      end
  end.

(** [Retry(ctx, policy, operation)]: the result and the number of retries. *)
Definition Retry : prog W (result T * Z) :=
  if MaxAttempts policy <? 1
  then mret (Err (ErrorString "max attempts must be positive"), 0)
  else retry_loop (Z.to_nat (MaxAttempts policy)) 1.

(** The loop rule: [I a] holds before attempt [a]. *)
Lemma wp_Retry (I : Z → W → Prop) (Q : result T * Z → W → Prop) w :
  1 ≤ MaxAttempts policy → I 1 w →
  (∀ a w, 1 ≤ a ≤ MaxAttempts policy → I a w →
    wp (operation ctx) (λ r w1,
      match r with
      | Ok v => Q (Ok v, a - 1) w1
      | Err e =>
          (a = MaxAttempts policy → Q (Err e, a - 1) w1) ∧
          (a < MaxAttempts policy →
           ∀ j, 0 ≤ j < jitter_bound (backoff policy a) →
           wp (select_timer ctx (add64 (backoff policy a) j)) (λ r w2,
             match r with Some e' => Q (Err e', a - 1) w2 | None => I (a + 1) w2 end)
             (advance w1))
      end) w) →
  wp Retry Q w.
Proof.
  intros Hm HI Hop. unfold Retry. case_cmp; [lia|].
  assert (∀ fuel a w, Z.of_nat fuel = MaxAttempts policy - a + 1 → 1 ≤ a ≤ MaxAttempts policy →
            I a w → wp (retry_loop fuel a) Q w) as Hloop.
  { intros fuel. induction fuel as [|fuel IH]; intros a w' Hf Ha Hi; [lia|]. cbn [retry_loop].
    apply wp_bind. eapply wp_mono; [by apply Hop|].
    intros [v|e] w1; [done|]. intros [Hlast Hmore].
    destruct (Z.eqb_spec a (MaxAttempts policy)); [by apply Hlast|].
    cbv zeta. apply wp_bind, wp_Int64N; [unfold jitter_bound; lia|]. intros j Hj.
    apply wp_bind. eapply wp_mono; [apply Hmore; [lia|done]|].
    intros [e'|] w2 H2; [done|]. apply IH; [lia|lia|done]. }
  apply Hloop; [lia|lia|done].
Qed.
End retry.

(** ** Properties *)

Lemma shl64_exact a n : 0 ≤ a → 0 ≤ n → a * 2 ^ n ≤ max_int64 → shl64 a n = a * 2 ^ n.
Proof.
  intros Ha Hn Hm. unfold shl64. rewrite Z.shiftl_mul_pow2 by done.
  apply wrap64_id. unfold int64, min_int64. pose proof (Z.pow_nonneg 2 n). nia.
Qed.

(** C36: While [BaseDelay * 2^(attempt-1)] fits an [int64], the delay doubles with every
    attempt up to the cap, and the sleep adds a jitter of less than half of it: it
    is never shorter than the delay and always shorter than one and a half
    [MaxDelay] (plus the nanosecond of a delay of 1ns). *)
Theorem backoff_bounds policy attempt jitter :
  1 ≤ attempt → 1 ≤ BaseDelay policy → 1 ≤ MaxDelay policy →
  2 * MaxDelay policy ≤ max_int64 →
  BaseDelay policy * 2 ^ (attempt - 1) ≤ max_int64 →
  0 ≤ jitter < jitter_bound (backoff policy attempt) →
  let delay := Z.min (BaseDelay policy * 2 ^ (attempt - 1)) (MaxDelay policy) in
  backoff policy attempt = delay ∧
  delay ≤ add64 (backoff policy attempt) jitter ≤ delay + delay / 2 ∧
  2 * add64 (backoff policy attempt) jitter ≤ 3 * MaxDelay policy.
Proof.
  intros Ha Hb Hd Hd2 Hm Hj delay.
  assert (1 ≤ 2 ^ (attempt - 1)) by (pose proof (Z.pow_pos_nonneg 2 (attempt - 1)); lia).
  assert (backoff policy attempt = delay) as E.
  { unfold backoff, delay. rewrite shl64_exact by nia. cmp_lia. }
  split; [done|]. rewrite E in *. unfold jitter_bound in Hj.
  rewrite Z.quot_div_nonneg in Hj by (unfold delay; nia).
  assert (1 ≤ delay ≤ MaxDelay policy) by (unfold delay; nia).
  assert (add64 delay jitter = delay + jitter) as ->.
  { apply wrap64_id. unfold int64, min_int64. Z.to_euclidean_division_equations. lia. }
  Z.to_euclidean_division_equations. lia.
Qed.

Lemma backoff_bounds_witness :
  let p := RetryPolicy.mk 3 (200 * Millisecond) (2 * Second) in
  backoff p 2 = 400 * Millisecond ∧
  400 * Millisecond ≤ add64 (backoff p 2) 7 ≤ 600 * Millisecond.
Proof.
  destruct (backoff_bounds (RetryPolicy.mk 3 (200 * Millisecond) (2 * Second)) 2 7)
    as (A & B & _); try (vm_compute; split; discriminate || reflexivity);
    try (vm_compute; discriminate).
  split; [exact A|]. exact B.
Defined.

(** The shift wraps: from attempt 65 on the delay of every policy without a negative
    cap is 0, so the retries are no longer spaced out at all. *)
Theorem backoff_collapses policy attempt :
  0 ≤ MaxDelay policy → 65 ≤ attempt →
  backoff policy attempt = 0 ∧ jitter_bound (backoff policy attempt) = 1.
Proof.
  intros Hm Ha. assert (backoff policy attempt = 0) as E.
  { unfold backoff. rewrite shl64_multiple by lia. cmp_lia. }
  by rewrite E.
Qed.

Lemma backoff_collapses_witness :
  let p := RetryPolicy.mk 100 Second Minute in
  backoff p 66 = 0 ∧ backoff p 36 < 0 ∧ backoff p 7 = Minute.
Proof.
  split.
  - apply (backoff_collapses (RetryPolicy.mk 100 Second Minute) 66); vm_compute; discriminate.
  - split; vm_compute; reflexivity.
Defined.

Section properties.
Context `{Env} {W : Type} `{HasRuntime W} {T : Type}.
Context (ctx : Context) (policy : RetryPolicy.t) (operation : Context → prog W (result T)).

(** C28: With a policy of at least one attempt, if the operation always returns, so does [Retry], and without panicking; it calls the
    operation at least once and at most [MaxAttempts] times, once more than the
    number of retries it reports, and it answers with the first success, with the
    last attempt's error, or with the error of the context.  [count] is any
    measure of the calls: the operation adds one, the clock does not matter. *)
Theorem Retry_counts (count : W → Z) (good : T → Prop) (bad : error → Prop) w :
  (∀ rt w, count (put_rt rt w) = count w) →
  (∀ w, wp (operation ctx) (λ r w', count w' = count w + 1 ∧
              match r with Ok v => good v | Err e => bad e end) w) →
  1 ≤ MaxAttempts policy →
  wp (Retry ctx policy operation) (λ '(r, retries) w',
    0 ≤ retries < MaxAttempts policy ∧ count w' = count w + retries + 1 ∧
    match r with
    | Ok v => good v
    | Err e => (bad e ∧ retries = MaxAttempts policy - 1) ∨
               (∃ t, ctx_done ctx = Some (t, e) ∧ t ≤ rt_now (get_rt w'))
    end) w.
Proof.
  intros Hrt Hop Hm.
  assert (∀ w w', later w w' → count w' = count w) as Hlater.
  { intros ? ? (rt & -> & _). apply Hrt. }
  apply (wp_Retry _ _ _ (λ a w', count w' = count w + a - 1)); [done|lia|].
  intros a w1 Ha HI. eapply wp_mono; [apply Hop|]. intros [v|e] w2 [Hc Hr].
  { split_and!; [lia..|done]. }
  split.
  { intros ->. split_and!; [lia..|]. left. split; [done|lia]. }
  intros Hlt j Hj. apply wp_select_timer. intros r w3 Hl Hd.
  assert (count w3 = count w1 + 1) as Hc3.
  { rewrite (Hlater _ _ Hl), (Hlater _ _ (later_advance w2)). done. }
  destruct r as [e'|]; [|lia]. split_and!; [lia..|]. by right.
Qed.

(** Cancellation: when the context is done before the first wait, a failing
    operation is not called again: [Retry] answers with the error of the
    context after one call. *)
Theorem Retry_honors_cancellation (count : W → Z) t e w :
  (∀ rt w, count (put_rt rt w) = count w) →
  (∀ w, wp (operation ctx) (λ r w', count w' = count w + 1 ∧ is_ok r = false ∧
              rt_now (get_rt w) ≤ rt_now (get_rt w')) w) →
  2 ≤ MaxAttempts policy → ctx_done ctx = Some (t, e) → t ≤ rt_now (get_rt w) →
  0 < BaseDelay policy → 2 * BaseDelay policy ≤ max_int64 → 0 ≤ MaxDelay policy →
  wp (Retry ctx policy operation) (λ '(r, retries) w',
    r = Err e ∧ retries = 0 ∧ count w' = count w + 1) w.
Proof.
  intros Hrt Hop Hm Hctx Ht Hb Hb2 Hd.
  assert (backoff policy 1 = if (0 <? MaxDelay policy) && (MaxDelay policy <? BaseDelay policy)
                             then MaxDelay policy else BaseDelay policy) as Eb.
  { unfold backoff. rewrite shl64_exact by (simpl; lia).
    replace (BaseDelay policy * 2 ^ (1 - 1)) with (BaseDelay policy) by (simpl; lia). done. }
  assert (0 < backoff policy 1 ≤ BaseDelay policy) as Hbo.
  { rewrite Eb. cmp_lia. }
  apply (wp_Retry _ _ _ (λ a w', a = 1 ∧ w' = w)); [lia|done|].
  intros a w1 Ha [-> ->]. eapply wp_mono; [apply Hop|]. intros r w1 (Hc & Hr & Hn).
  destruct r as [v|e0]; [done|]. split; [lia|]. intros _ j Hj.
  pose proof (advance_now w1). eapply wp_select_timer_done; [done|lia| |].
  - unfold jitter_bound in Hj. rewrite Z.quot_div_nonneg in Hj by lia.
    unfold add64. rewrite wrap64_id; [lia|].
    unfold int64, min_int64. Z.to_euclidean_division_equations. lia.
  - intros w3 (rt & -> & _). split_and!; [done..|].
    rewrite Hrt. unfold advance. rewrite Hrt. done.
Qed.
End properties.

(** ** The properties on a concrete operation

    [script n] is the outcome of the [n]-th call; the world counts the calls. *)

Definition scripted `{Env} (script : Z → result string) (_ : Context)
    : prog (Runtime * Z) (result string) :=
  atomic (λ rt w, (script w.2, (w.1, w.2 + 1))).

Lemma wp_scripted `{Env} script ctx w :
  wp (scripted script ctx) (λ r w', w'.2 = w.2 + 1 ∧ r = script w.2 ∧
                                     rt_now (get_rt w) ≤ rt_now (get_rt w')) w.
Proof.
  unfold scripted. apply wp_atomic. pose proof (advance_now w). destruct w as [rt n].
  done.
Qed.

Definition third_time (n : Z) : result string :=
  if n <? 2 then Err (ErrorString "temporary") else Ok "ok".

#[local] Existing Instance demo_env.

Lemma Retry_counts_witness :
  let p := RetryPolicy.mk 3 Millisecond Millisecond in
  let w := (mkRuntime 0 0, 0) in
  wp (Retry Background p (scripted third_time)) (λ '(r, retries) w',
    0 ≤ retries < 3 ∧ w'.2 = 0 + retries + 1 ∧
    match r with
    | Ok v => v = "ok"
    | Err e => (e = ErrorString "temporary" ∧ retries = 3 - 1) ∨
               (∃ t, ctx_done Background = Some (t, e) ∧ t ≤ rt_now (get_rt w'))
    end) w ∧
  fst <$> run (Retry Background p (scripted third_time)) w = Some (Ok "ok", 2).
Proof.
  intros p w. split; [|vm_compute; reflexivity].
  apply (Retry_counts Background (RetryPolicy.mk 3 Millisecond Millisecond)
           (scripted third_time) snd (λ v, v = "ok") (λ e, e = ErrorString "temporary") w).
  - done.
  - intros v. eapply wp_mono; [apply wp_scripted|]. intros r w' (Hc & -> & _).
    split; [done|]. unfold third_time. by destruct (v.2 <? 2).
  - simpl. lia.
Defined.

Lemma Retry_honors_cancellation_witness :
  let p := RetryPolicy.mk 3 Second 0 in
  let failing := scripted (λ _, Err (ErrorString "temporary")) in
  wp (Retry (CancelledAt 0) p failing) (λ '(r, retries) w',
    r = Err (Sentinel Canceled) ∧ retries = 0 ∧ w'.2 = 0 + 1) (mkRuntime 0 0, 0).
Proof.
  intros p failing. apply (Retry_honors_cancellation (CancelledAt 0) (RetryPolicy.mk 3 Second 0)
           (scripted (λ _, Err (ErrorString "temporary"))) snd 0 _ (mkRuntime 0 0, 0)).
  - done.
  - intros w. eapply wp_mono; [apply wp_scripted|]. by intros r w' (Hc & -> & Hn).
  - simpl. lia.
  - done.
  - done.
  - done.
  - vm_compute. discriminate.
  - done.
Defined.
