(* ===== verification/Store.v ===== *)
(** * [internal/store]: the persistence contract

    [StoreOps] has one operation per method of the interface [store.Store]; a
    method that may change the database returns the new one.  [StoreLaws] is what
    the engine and the service rely on, [StoreAvailable] adds that the store does
    not fail on its own, and [StoreHonorsContext] that it refuses to work for a
    context that is done. *)

From S2P Require Import Prelude GoLang Domain.
Open Scope Z_scope.

Class StoreOps (DB : Type) := {
  CreateAgent : Call → Agent.t → DB → option error * DB;
  GetAgent : Call → string → string → DB → result Agent.t;
  UpdateAgent : Call → Agent.t → DB → option error * DB;
  DeleteAgent : Call → string → string → DB → option error * DB;
  CreateConversation : Call → Conversation.t → DB → option error * DB;
  GetConversation : Call → string → string → DB → result Conversation.t;
  AppendMessage : Call → Message.t → DB → option error * DB;
  (* [None]: the call panics *)
  ListMessages : Call → string → string → Z → DB → option (result (list Message.t));
  CreateExecution : Call → Execution.t → DB → option error * DB;
  GetExecution : Call → string → string → DB → result Execution.t;
  GetByIdempotencyKey : Call → string → string → DB → result Execution.t;
  UpdateExecution : Call → Execution.t → DB → option error * DB;
  AppendStep : Call → Step.t → DB → option error * DB;
  (* the execution and the steps are read at two moments *)
  TraceAt : Call → string → string → DB → DB → result Trace.t;
  ListAgentExecutions : Call → string → string → Z → DB → result (list Execution.t)
}.

(** What the methods that read one record answer to an owner. *)
Definition same_reads `{StoreOps DB} (o : string) (s s' : DB) : Prop :=
  ∀ c i limit,
    GetAgent c o i s' = GetAgent c o i s ∧ GetConversation c o i s' = GetConversation c o i s ∧
    GetExecution c o i s' = GetExecution c o i s ∧
    ListMessages c o i limit s' = ListMessages c o i limit s ∧
    TraceAt c o i s' s' = TraceAt c o i s s.

#[export] Instance same_reads_preorder `{StoreOps DB} o : PreOrder (same_reads (DB:=DB) o).
Proof.
  split; [by intros s c i n|]. intros s1 s2 s3 H1 H2 c i n.
  specialize (H1 c i n). specialize (H2 c i n). destruct_and!. split_and!; congruence.
Qed.

(** What a store keeps: the abstract state the laws talk about.  A database may know a record
    under a normal form of its identifier ([key]) and keep a record in a form of its own: the
    views are of the records as kept. *)
Class StoreView (DB : Type) := {
  agents_of : DB → string → option Agent.t;
  conversations_of : DB → string → option Conversation.t;
  stored : DB → string → option Execution.t;
  steps_of : DB → string → list Step.t;
  messages_of : DB → string → list Message.t;
  (* an execution is one of those in the store *)
  among : DB → Execution.t → Prop;
  (* what is filed under an agent belongs to its owner, where a deletion depends on it *)
  apart : DB → Prop;
  key : string → string;
  kept_agent : Agent.t → Agent.t;
  kept_conversation : Conversation.t → Conversation.t;
  kept : Execution.t → Execution.t;
  kept_step : Step.t → Step.t;
  kept_message : Message.t → Message.t
}.

Arguments key DB {_} _ : simpl never.
Arguments kept_agent DB {_} _ : simpl never.
Arguments kept_conversation DB {_} _ : simpl never.
Arguments kept DB {_} _ : simpl never.
Arguments kept_step DB {_} _ : simpl never.
Arguments kept_message DB {_} _ : simpl never.

(** Which parts of the abstract state two databases share. *)
Definition same_agents `{StoreView DB} (s s' : DB) : Prop := ∀ i, agents_of s' i = agents_of s i.
Definition same_conversations `{StoreView DB} (s s' : DB) : Prop :=
  ∀ i, conversations_of s' i = conversations_of s i.
Definition same_stored `{StoreView DB} (s s' : DB) : Prop := ∀ i, stored s' i = stored s i.
Definition same_steps `{StoreView DB} (s s' : DB) : Prop := ∀ i, steps_of s' i = steps_of s i.
Definition same_messages `{StoreView DB} (s s' : DB) : Prop :=
  ∀ i, messages_of s' i = messages_of s i.

(** Nothing of anybody but [owner] differs: neither the records others own nor what is filed
    under them. *)
Definition others_same `{StoreView DB} (owner : string) (s s' : DB) : Prop :=
  (∀ i a, Agent.OwnerID a ≠ key DB owner → agents_of s i = Some a ↔ agents_of s' i = Some a) ∧
  (∀ i v, Conversation.OwnerID v ≠ key DB owner →
     conversations_of s i = Some v ↔ conversations_of s' i = Some v) ∧
  (∀ i x, Execution.OwnerID x ≠ key DB owner → stored s i = Some x ↔ stored s' i = Some x) ∧
  (∀ i x, stored s i = Some x → Execution.OwnerID x ≠ key DB owner → steps_of s' i = steps_of s i) ∧
  (∀ i v, conversations_of s i = Some v → Conversation.OwnerID v ≠ key DB owner →
     messages_of s' i = messages_of s i).

Class StoreLaws (DB : Type) `{StoreOps DB, StoreView DB} := {
  (* the forms in which identifiers and records are kept *)
  key_idem i : key DB (key DB i) = key DB i;
  agents_key s i : agents_of s (key DB i) = agents_of s i;
  conversations_key s i : conversations_of s (key DB i) = conversations_of s i;
  stored_key s i : stored s (key DB i) = stored s i;
  kept_agent_ids a :
    Agent.ID (kept_agent DB a) = key DB (Agent.ID a) ∧
    Agent.OwnerID (kept_agent DB a) = key DB (Agent.OwnerID a);
  kept_conversation_ids v :
    Conversation.OwnerID (kept_conversation DB v) = key DB (Conversation.OwnerID v) ∧
    Conversation.AgentID (kept_conversation DB v) = key DB (Conversation.AgentID v);
  kept_owner x : Execution.OwnerID (kept DB x) = key DB (Execution.OwnerID x);
  kept_identity x y : same_identity x y → same_identity (kept DB x) (kept DB y);
  kept_status x : Execution.Status (kept DB x) = Execution.Status x;
  (* a failed write changes nothing *)
  update_failed c x s e : (UpdateExecution c x s).1 = Some e → (UpdateExecution c x s).2 = s;
  step_failed c st s e : (AppendStep c st s).1 = Some e → (AppendStep c st s).2 = s;
  message_failed c m s e : (AppendMessage c m s).1 = Some e → (AppendMessage c m s).2 = s;
  create_failed c x s e : (CreateExecution c x s).1 = Some e → (CreateExecution c x s).2 = s;
  conversation_failed c v s e :
    (CreateConversation c v s).1 = Some e → (CreateConversation c v s).2 = s;
  (* UpdateExecution stores the progress of an execution that exists *)
  update_exists c x s : (UpdateExecution c x s).1 = None → is_Some (stored s (Execution.ID x));
  update_stored c x y s i :
    (UpdateExecution c x s).1 = None → stored s (Execution.ID x) = Some y →
    same_identity (kept DB x) y → key DB (Execution.ID x) = key DB i →
    stored (UpdateExecution c x s).2 i = Some (kept DB x);
  update_other c x s i :
    key DB (Execution.ID x) ≠ key DB i → stored (UpdateExecution c x s).2 i = stored s i;
  update_frame c x s :
    same_agents s (UpdateExecution c x s).2 ∧ same_conversations s (UpdateExecution c x s).2 ∧
    same_steps s (UpdateExecution c x s).2 ∧ same_messages s (UpdateExecution c x s).2;
  (* AppendStep and AppendMessage add at the end of one list *)
  step_appended c st s i :
    (AppendStep c st s).1 = None →
    steps_of (AppendStep c st s).2 i =
      if decide (key DB i = key DB (Step.ExecutionID st)) then steps_of s i ++ [kept_step DB st]
      else steps_of s i;
  step_frame c st s :
    same_agents s (AppendStep c st s).2 ∧ same_conversations s (AppendStep c st s).2 ∧
    same_stored s (AppendStep c st s).2 ∧ same_messages s (AppendStep c st s).2;
  message_appended c m s i :
    (AppendMessage c m s).1 = None →
    messages_of (AppendMessage c m s).2 i =
      if decide (key DB i = key DB (Message.ConversationID m))
      then messages_of s i ++ [kept_message DB m] else messages_of s i;
  message_frame c m s :
    same_agents s (AppendMessage c m s).2 ∧ same_conversations s (AppendMessage c m s).2 ∧
    same_stored s (AppendMessage c m s).2 ∧ same_steps s (AppendMessage c m s).2;
  (* reads return what is stored, and only to its owner *)
  get_execution c o i s x :
    GetExecution c o i s = Ok x → stored s i = Some x ∧ Execution.OwnerID x = key DB o;
  get_by_key c o k s x :
    GetByIdempotencyKey c o k s = Ok x →
    Execution.OwnerID x = key DB o ∧ Execution.IdempotencyKey x = k ∧ among s x;
  get_agent c o i s a :
    GetAgent c o i s = Ok a → agents_of s i = Some a ∧ Agent.OwnerID a = key DB o;
  get_conversation c o i s v :
    GetConversation c o i s = Ok v →
    conversations_of s i = Some v ∧ Conversation.OwnerID v = key DB o;
  get_trace c o i s1 s2 t :
    TraceAt c o i s1 s2 = Ok t →
    GetExecution c o i s1 = Ok (Trace.Execution_ t) ∧ Trace.Steps t ≡ₚ steps_of s2 i;
  (* the listing is of the owner's executions of the agent, at most [limit] of them *)
  list_executions c o a limit s l :
    ListAgentExecutions c o a limit s = Ok l → 1 ≤ limit →
    Z.of_nat (length l) ≤ limit ∧
    Forall (λ x, Execution.OwnerID x = key DB o ∧ Execution.AgentID x = key DB a ∧ among s x) l;
  (* some of the messages, as many as asked for at most *)
  list_messages c o i n s l :
    ListMessages c o i (Z.of_nat n) s = Some (Ok l) →
    (length l ≤ n)%nat ∧ ∃ rest, l ++ rest ≡ₚ messages_of s i;
  list_messages_no_panic c o i n s : is_Some (ListMessages c o i (Z.of_nat n) s);
  (* creation *)
  create_stored c x s :
    (CreateExecution c x s).1 = None →
    stored s (Execution.ID x) = None ∧
    ∀ i, stored (CreateExecution c x s).2 i =
         if decide (key DB i = key DB (Execution.ID x)) then Some (kept DB x) else stored s i;
  create_frame c x s :
    same_agents s (CreateExecution c x s).2 ∧ same_conversations s (CreateExecution c x s).2 ∧
    same_steps s (CreateExecution c x s).2 ∧ same_messages s (CreateExecution c x s).2;
  conversation_created c v s :
    (CreateConversation c v s).1 = None →
    conversations_of s (Conversation.ID v) = None ∧
    ∀ i, conversations_of (CreateConversation c v s).2 i =
         if decide (key DB i = key DB (Conversation.ID v)) then Some (kept_conversation DB v)
         else conversations_of s i;
  conversation_frame c v s :
    same_agents s (CreateConversation c v s).2 ∧ same_stored s (CreateConversation c v s).2 ∧
    same_steps s (CreateConversation c v s).2 ∧ same_messages s (CreateConversation c v s).2;
  (* agents; an update keeps the time of the creation *)
  agent_create_failed c a s e : (CreateAgent c a s).1 = Some e → (CreateAgent c a s).2 = s;
  agent_update_failed c a s e : (UpdateAgent c a s).1 = Some e → (UpdateAgent c a s).2 = s;
  agent_created c a s :
    (CreateAgent c a s).1 = None →
    agents_of s (Agent.ID a) = None ∧
    ∀ i, agents_of (CreateAgent c a s).2 i =
         if decide (key DB i = key DB (Agent.ID a)) then Some (kept_agent DB a) else agents_of s i;
  agent_updated c a s old :
    (UpdateAgent c a s).1 = None → agents_of s (Agent.ID a) = Some old →
    Agent.CreatedAt a = Agent.CreatedAt old →
    Agent.OwnerID old = key DB (Agent.OwnerID a) ∧
    ∀ i, agents_of (UpdateAgent c a s).2 i =
         if decide (key DB i = key DB (Agent.ID a))
         then Some (Agent.set_CreatedAt (Agent.CreatedAt old) (kept_agent DB a)) else agents_of s i;
  agent_frame c a s s' :
    s' = (CreateAgent c a s).2 ∨ s' = (UpdateAgent c a s).2 →
    same_conversations s s' ∧ same_stored s s' ∧ same_steps s s' ∧ same_messages s s';
  (* a deletion is of an agent of the caller, with whatever the caller has under it *)
  agent_delete_failed c o i s e : (DeleteAgent c o i s).1 = Some e → (DeleteAgent c o i s).2 = s;
  agent_deleted c o i s :
    (DeleteAgent c o i s).1 = None →
    (∀ a, agents_of s i = Some a → Agent.OwnerID a = key DB o) ∧
    agents_of (DeleteAgent c o i s).2 i = None ∧ (apart s → others_same o s (DeleteAgent c o i s).2);
  (* what keeps the records of different owners apart: everything but the creation of a
     conversation or an execution under an agent or a conversation of somebody else *)
  apart_updated c x s : apart s → apart (UpdateExecution c x s).2;
  apart_step c st s : apart s → apart (AppendStep c st s).2;
  apart_message c m s : apart s → apart (AppendMessage c m s).2;
  apart_agent c a s s' :
    s' = (CreateAgent c a s).2 ∨ s' = (UpdateAgent c a s).2 → apart s → apart s';
  apart_deleted c o i s : apart s → apart (DeleteAgent c o i s).2;
  apart_conversation c v a s :
    agents_of s (Conversation.AgentID v) = Some a →
    Agent.OwnerID a = key DB (Conversation.OwnerID v) →
    apart s → apart (CreateConversation c v s).2;
  apart_execution c x a v s :
    agents_of s (Execution.AgentID x) = Some a → Agent.OwnerID a = key DB (Execution.OwnerID x) →
    conversations_of s (Execution.ConversationID x) = Some v →
    Conversation.OwnerID v = key DB (Execution.OwnerID x) →
    apart s → apart (CreateExecution c x s).2
}.

(** Two identifiers with one normal form name the same records. *)
Section same_key.
Context `{StoreLaws DB}.
Implicit Types (s : DB).

Lemma agents_same_key s i j : key DB i = key DB j → agents_of s i = agents_of s j.
Proof. intros E. by rewrite <-(agents_key s i), E, agents_key. Qed.
Lemma conversations_same_key s i j :
  key DB i = key DB j → conversations_of s i = conversations_of s j.
Proof. intros E. by rewrite <-(conversations_key s i), E, conversations_key. Qed.
Lemma stored_same_key s i j : key DB i = key DB j → stored s i = stored s j.
Proof. intros E. by rewrite <-(stored_key s i), E, stored_key. Qed.
End same_key.

(** A store that keeps what it is given, and only fails for the reasons the interface
    names. *)
Class StoreAvailable (DB : Type) `{StoreLaws DB} := {
  key_exact i : key DB i = i;
  kept_exact x : kept DB x = x;
  among_stored s x : among s x → ∃ i, stored s i = Some x;
  update_succeeds c x s : is_Some (stored s (Execution.ID x)) → (UpdateExecution c x s).1 = None;
  step_succeeds c st s :
    is_Some (stored s (Step.ExecutionID st)) → (AppendStep c st s).1 = None;
  message_succeeds c m s :
    is_Some (conversations_of s (Message.ConversationID m)) → (AppendMessage c m s).1 = None;
  messages_listed c o i n s v :
    conversations_of s i = Some v → Conversation.OwnerID v = o →
    ListMessages c o i (Z.of_nat n) s = Some (Ok (last_n n (messages_of s i)));
  get_execution_ok c o i s x :
    stored s i = Some x → Execution.OwnerID x = o → GetExecution c o i s = Ok x;
  get_by_key_not_found c o k s :
    (∀ i x, stored s i = Some x → Execution.OwnerID x = o → Execution.IdempotencyKey x ≠ k) →
    GetByIdempotencyKey c o k s = Err (Sentinel NotFound);
  get_by_key_found c o k s :
    (∃ i x, stored s i = Some x ∧ Execution.OwnerID x = o ∧ Execution.IdempotencyKey x = k) →
    ∃ x, GetByIdempotencyKey c o k s = Ok x;
  create_succeeds c x s : stored s (Execution.ID x) = None → (CreateExecution c x s).1 = None;
  get_agent_ok c o i s a :
    agents_of s i = Some a → Agent.OwnerID a = o → GetAgent c o i s = Ok a
}.

(** A store whose writes fail once the context of the call is done, as those of a
    database driver do. *)
Class StoreHonorsContext (DB : Type) `{StoreOps DB} := {
  update_honors c x s :
    is_Some (call_err c) → ∃ e, UpdateExecution c x s = (Some e, s)
}.
