(* ===== verification/Memory.v ===== *)
(** * [internal/store/memory.go]: the in-memory store

    Every method holds the mutex for its whole body, so it is one transition of the
    record of maps.  A [for range] over a map visits its entries in an unspecified
    order: [range_order] is that order at a given call. *)

From S2P Require Import Prelude GoLang Domain Store.
Open Scope Z_scope.

Class MapOrder := {
  range_order : nat → ∀ {A : Type}, list A → list A;
  range_order_perm n A (l : list A) : range_order n l ≡ₚ l
}.

Module Memory.
Record t := mk {
  agents : gmap string Agent.t;
  executions : gmap string Execution.t;
  steps : gmap string (list Step.t);
  conversations : gmap string Conversation.t;
  messages : gmap string (list Message.t)
}.

Definition NewMemory : t := mk ∅ ∅ ∅ ∅ ∅.

Definition CreateAgent (_ : Call) (agent : Agent.t) (m : t) : option error * t :=
  match agents m !! Agent.ID agent with
  | Some _ => (Some (Sentinel Conflict), m)
  | None => (None, mk (<[Agent.ID agent := agent]> (agents m)) (executions m) (steps m)
                      (conversations m) (messages m))
  end.

Definition GetAgent (_ : Call) (ownerID agentID : string) (m : t) : result Agent.t :=
  match agents m !! agentID with
  | Some agent => if decide (Agent.OwnerID agent = ownerID) then Ok agent
                  else Err (Sentinel NotFound)
  | None => Err (Sentinel NotFound)
  end.

Definition UpdateAgent (_ : Call) (agent : Agent.t) (m : t) : option error * t :=
  match agents m !! Agent.ID agent with
  | Some current =>
      if decide (Agent.OwnerID current = Agent.OwnerID agent)
      then (None, mk (<[Agent.ID agent := agent]> (agents m)) (executions m) (steps m)
                     (conversations m) (messages m))
      else (Some (Sentinel NotFound), m)
  | None => (Some (Sentinel NotFound), m)
  end.

Definition DeleteAgent (_ : Call) (ownerID agentID : string) (m : t) : option error * t :=
  match agents m !! agentID with
  | Some agent =>
      if decide (Agent.OwnerID agent = ownerID)
      then (None, mk (delete agentID (agents m)) (executions m) (steps m)
                     (conversations m) (messages m))
      else (Some (Sentinel NotFound), m)
  | None => (Some (Sentinel NotFound), m)
  end.

Definition CreateConversation (_ : Call) (conversation : Conversation.t) (m : t)
    : option error * t :=
  match conversations m !! Conversation.ID conversation with
  | Some _ => (Some (Sentinel Conflict), m)
  | None => (None, mk (agents m) (executions m) (steps m)
                      (<[Conversation.ID conversation := conversation]> (conversations m))
                      (messages m))
  end.

Definition GetConversation (_ : Call) (ownerID conversationID : string) (m : t)
    : result Conversation.t :=
  match conversations m !! conversationID with
  | Some conversation =>
      if decide (Conversation.OwnerID conversation = ownerID) then Ok conversation
      else Err (Sentinel NotFound)
  | None => Err (Sentinel NotFound)
  end.

(** [m[k]] of a map of slices: a missing key reads as the nil slice. *)
Definition slice {A} (m : gmap string (list A)) (k : string) : list A := default [] (m !! k).

Definition AppendMessage (_ : Call) (message : Message.t) (m : t) : option error * t :=
  let id := Message.ConversationID message in
  match conversations m !! id with
  | None => (Some (Sentinel NotFound), m)
  | Some _ => (None, mk (agents m) (executions m) (steps m) (conversations m)
                        (<[id := slice (messages m) id ++ [message]]> (messages m)))
  end.

(** With a negative [limit] the slice expression is out of range and panics. *)
Definition ListMessages (_ : Call) (ownerID conversationID : string) (limit : Z) (m : t)
    : option (result (list Message.t)) :=
  match conversations m !! conversationID with
  | Some conversation =>
      if decide (Conversation.OwnerID conversation = ownerID) then
        let messages := slice (messages m) conversationID in
        let len := Z.of_nat (length messages) in
        if limit <? len
        then (if limit <? 0 then None
              else Some (Ok (drop (Z.to_nat (len - limit)) messages)))
        else Some (Ok messages)
      else Some (Err (Sentinel NotFound))
  | None => Some (Err (Sentinel NotFound))
  end.

Definition CreateExecution (_ : Call) (execution : Execution.t) (m : t) : option error * t :=
  match executions m !! Execution.ID execution with
  | Some _ => (Some (Sentinel Conflict), m)
  | None => (None, mk (agents m) (<[Execution.ID execution := execution]> (executions m))
                      (steps m) (conversations m) (messages m))
  end.

Definition GetExecution (_ : Call) (ownerID executionID : string) (m : t)
    : result Execution.t :=
  match executions m !! executionID with
  | Some execution => if decide (Execution.OwnerID execution = ownerID) then Ok execution
                      else Err (Sentinel NotFound)
  | None => Err (Sentinel NotFound)
  end.

Section ranges.
Context `{MapOrder}.

Definition GetByIdempotencyKey (c : Call) (ownerID key : string) (m : t)
    : result Execution.t :=
  match list_find (λ kv : string * Execution.t, Execution.OwnerID kv.2 = ownerID ∧
                             Execution.IdempotencyKey kv.2 = key)
                  (range_order (call_tick c) (map_to_list (executions m))) with
  | Some (_, (_, execution)) => Ok execution
  | None => Err (Sentinel NotFound)
  end.

(** The loop of [ListAgentExecutions], with its early exit. *)
Fixpoint collect (ownerID agentID : string) (limit : Z) (l : list (string * Execution.t))
    (result : list Execution.t) : list Execution.t :=
  match l with
  | [] => result
  | (_, execution) :: l =>
      if decide (Execution.OwnerID execution = ownerID ∧
                 Execution.AgentID execution = agentID) then
        let result := result ++ [execution] in
        if Z.of_nat (length result) =? limit then result
        else collect ownerID agentID limit l result
      else collect ownerID agentID limit l result
  end.

Definition ListAgentExecutions (c : Call) (ownerID agentID : string) (limit : Z) (m : t)
    : result (list Execution.t) :=
  Ok (collect ownerID agentID limit
        (range_order (call_tick c) (map_to_list (executions m))) []).
End ranges.

Definition UpdateExecution (_ : Call) (execution : Execution.t) (m : t) : option error * t :=
  match executions m !! Execution.ID execution with
  | None => (Some (Sentinel NotFound), m)
  | Some _ => (None, mk (agents m) (<[Execution.ID execution := execution]> (executions m))
                        (steps m) (conversations m) (messages m))
  end.

Definition AppendStep (_ : Call) (step : Step.t) (m : t) : option error * t :=
  let id := Step.ExecutionID step in
  match executions m !! id with
  | None => (Some (Sentinel NotFound), m)
  | Some _ => (None, mk (agents m) (executions m)
                        (<[id := slice (steps m) id ++ [step]]> (steps m))
                        (conversations m) (messages m))
  end.

(** [GetExecution] releases the lock before the steps are read. *)
Definition TraceAt (c : Call) (ownerID executionID : string) (m m' : t) : result Trace.t :=
  match GetExecution c ownerID executionID m with
  | Err err => Err err
  | Ok execution => Ok (Trace.mk execution (slice (steps m') executionID))
  end.
End Memory.
