(* ===== verification/MemoryFacts.v ===== *)
(** * The in-memory store implements the persistence contract

    Instances of [StoreOps], [StoreLaws] and [StoreAvailable]; the invariant of its
    maps; and the isolation of owners from each other. *)

From S2P Require Import Prelude GoLang Domain Store Memory.
Open Scope Z_scope.

#[export] Instance memory_view : StoreView Memory.t := {
  agents_of m i := Memory.agents m !! i;
  conversations_of m i := Memory.conversations m !! i;
  stored m i := Memory.executions m !! i;
  steps_of m i := Memory.slice (Memory.steps m) i;
  messages_of m i := Memory.slice (Memory.messages m) i;
  among m x := ∃ i, Memory.executions m !! i = Some x;
  apart _ := True;
  (* a record is kept as it is, under its own identifier *)
  key i := i;
  kept_agent a := a;
  kept_conversation v := v;
  kept x := x;
  kept_step st := st;
  kept_message m := m
}.

#[export] Instance memory_ops `{MapOrder} : StoreOps Memory.t := {
  CreateAgent := Memory.CreateAgent;
  GetAgent := Memory.GetAgent;
  UpdateAgent := Memory.UpdateAgent;
  DeleteAgent := Memory.DeleteAgent;
  CreateConversation := Memory.CreateConversation;
  GetConversation := Memory.GetConversation;
  AppendMessage := Memory.AppendMessage;
  ListMessages := Memory.ListMessages;
  CreateExecution := Memory.CreateExecution;
  GetExecution := Memory.GetExecution;
  GetByIdempotencyKey := Memory.GetByIdempotencyKey;
  UpdateExecution := Memory.UpdateExecution;
  AppendStep := Memory.AppendStep;
  TraceAt := Memory.TraceAt;
  ListAgentExecutions := Memory.ListAgentExecutions
}.

(** Case analysis on the lookups and tests of a store method. *)
Ltac store_cases :=
  repeat match goal with
  | |- context [ match ?m !! ?k with _ => _ end ] => destruct (m !! k) eqn:?
  | |- context [ decide ?P ] => destruct (decide P)
  | H : context [ match ?m !! ?k with _ => _ end ] |- _ => destruct (m !! k) eqn:?
  | H : context [ decide ?P ] |- _ => destruct (decide P)
  end; simplify_eq/=.

Lemma slice_insert {A} (m : gmap string (list A)) k l i :
  Memory.slice (<[k:=l]> m) i = if decide (i = k) then l else Memory.slice m i.
Proof.
  unfold Memory.slice. destruct (decide (i = k)) as [->|].
  - by rewrite lookup_insert_eq.
  - by rewrite lookup_insert_ne.
Qed.

Lemma last_n_drop {A} (l : list A) n :
  Z.of_nat n < Z.of_nat (length l) →
  drop (Z.to_nat (Z.of_nat (length l) - Z.of_nat n)) l = last_n n l.
Proof. intros H. unfold last_n. f_equal. lia. Qed.

(** The loop of [ListAgentExecutions]: what it collects, and how much. *)
Lemma collect_spec o a limit l acc (P : Execution.t → Prop) :
  1 ≤ limit → Z.of_nat (length acc) < limit →
  Forall P acc →
  (∀ i x, (i, x) ∈ l → Execution.OwnerID x = o → Execution.AgentID x = a → P x) →
  Z.of_nat (length (Memory.collect o a limit l acc)) ≤ limit ∧
  Forall P (Memory.collect o a limit l acc).
Proof.
  intros Hl. revert acc. induction l as [|[i x] l IH]; intros acc Hacc HF HP; simpl; [split; [lia|done]|].
  destruct (decide _) as [[Ho Ha]|].
  - assert (Forall P (acc ++ [x])).
    { apply Forall_app_2; [done|]. constructor; [|done]. eapply HP; [left|done..]. }
    destruct (Z.eqb_spec (Z.of_nat (length (acc ++ [x]))) limit) as [E|E].
    + split; [lia|done].
    + rewrite length_app in E. simpl in E. apply IH; [rewrite length_app; simpl; lia|done|].
      intros j y Hj. apply (HP j). by right.
  - apply IH; [done..|]. intros j y Hj. apply (HP j). by right.
Qed.

(** ** The laws *)

Section laws.
Context `{MapOrder}.

Lemma range_elem c (m : Memory.t) i x :
  (i, x) ∈ range_order (call_tick c) (map_to_list (Memory.executions m)) ↔
  Memory.executions m !! i = Some x.
Proof. by rewrite range_order_perm, elem_of_map_to_list. Qed.

Lemma get_by_key_elem c o k (m : Memory.t) x :
  Memory.GetByIdempotencyKey c o k m = Ok x →
  Execution.OwnerID x = o ∧ Execution.IdempotencyKey x = k ∧
  ∃ i, Memory.executions m !! i = Some x.
Proof.
  unfold Memory.GetByIdempotencyKey. destruct (list_find _ _) as [[n [i y]]|] eqn:E; [|done].
  intros [= ->]. apply list_find_Some in E as (Hn & [Ho Hk] & _). simpl in *.
  split_and!; try done. exists i. apply (range_elem c). by apply list_elem_of_lookup_2 in Hn.
Qed.

Lemma get_by_key_none c o k (m : Memory.t) :
  (∀ i x, Memory.executions m !! i = Some x → Execution.OwnerID x = o →
          Execution.IdempotencyKey x ≠ k) →
  Memory.GetByIdempotencyKey c o k m = Err (Sentinel NotFound).
Proof.
  intros Hn. unfold Memory.GetByIdempotencyKey.
  destruct (list_find _ _) as [[n [i y]]|] eqn:E; [|done].
  apply list_find_Some in E as (Hi & [Ho Hk] & _). simpl in *.
  apply list_elem_of_lookup_2, range_elem in Hi. by edestruct Hn.
Qed.

Lemma list_messages_spec c o i n (m : Memory.t) v :
  Memory.conversations m !! i = Some v → Conversation.OwnerID v = o →
  Memory.ListMessages c o i (Z.of_nat n) m =
    Some (Ok (last_n n (Memory.slice (Memory.messages m) i))).
Proof.
  intros E Ho. unfold Memory.ListMessages. rewrite E, decide_True by done.
  case_cmp; [case_cmp; [lia|by rewrite last_n_drop]|]. by rewrite last_n_all by lia.
Qed.

#[export] Instance memory_laws : StoreLaws Memory.t.
Proof.
  split; simpl; unfold same_agents, same_conversations, same_stored, same_steps, same_messages;
    unfold key, kept_agent, kept_conversation, kept, kept_step, kept_message; simpl; intros *;
    try first [done|by split].
  - unfold Memory.UpdateExecution. store_cases; naive_solver.
  - unfold Memory.AppendStep. store_cases; naive_solver.
  - unfold Memory.AppendMessage. store_cases; naive_solver.
  - unfold Memory.CreateExecution. store_cases; naive_solver.
  - unfold Memory.CreateConversation. store_cases; naive_solver.
  - unfold Memory.UpdateExecution. store_cases; naive_solver.
  - unfold Memory.UpdateExecution. intros ? ? ? <-. store_cases; simplify_map_eq; done.
  - unfold Memory.UpdateExecution. intros. store_cases; by simplify_map_eq.
  - unfold Memory.UpdateExecution. by store_cases.
  - unfold Memory.AppendStep. store_cases; intros; simplify_eq/=; rewrite slice_insert;
      by case_decide; simplify_eq.
  - unfold Memory.AppendStep. by store_cases.
  - unfold Memory.AppendMessage. store_cases; intros; simplify_eq/=; rewrite slice_insert;
      by case_decide; simplify_eq.
  - unfold Memory.AppendMessage. by store_cases.
  - unfold Memory.GetExecution. store_cases; naive_solver.
  - apply get_by_key_elem.
  - unfold Memory.GetAgent. store_cases; naive_solver.
  - unfold Memory.GetConversation. store_cases; naive_solver.
  - unfold Memory.TraceAt. destruct (Memory.GetExecution _ _ _ _); [intros [= <-]; by split|done].
  - intros [= <-] Hl. apply collect_spec; [done|simpl; lia|done|].
    intros j y Hj Ho Ha. split_and!; try done. exists j. by apply (range_elem c).
  - intros HL. assert (∃ v, Memory.conversations s !! i = Some v ∧ Conversation.OwnerID v = o)
      as (v & E & Ho).
    { unfold Memory.ListMessages in HL. store_cases; naive_solver. }
    pose proof (list_messages_spec c o i n s v E Ho) as Hs. rewrite HL in Hs. injection Hs as ->.
    set (all := Memory.slice _ i). unfold last_n. split; [rewrite length_drop; lia|].
    exists (take (length all - n) all). by rewrite (comm (++)), take_drop.
  - unfold Memory.ListMessages. store_cases; try done. repeat case_cmp; try done. lia.
  - unfold Memory.CreateExecution. store_cases; [done|]. intros _. split; [done|].
    intros j. by rewrite lookup_insert_case.
  - unfold Memory.CreateExecution. by store_cases.
  - unfold Memory.CreateConversation. store_cases; [done|]. intros _. split; [done|].
    intros j. by rewrite lookup_insert_case.
  - unfold Memory.CreateConversation. by store_cases.
  - unfold Memory.CreateAgent. store_cases; naive_solver.
  - unfold Memory.UpdateAgent. store_cases; naive_solver.
  - unfold Memory.CreateAgent. store_cases; [done|]. intros _. split; [done|].
    intros j. by rewrite lookup_insert_case.
  - unfold Memory.UpdateAgent. store_cases; try done. intros _ [= <-] Hc. split; [done|].
    intros j. rewrite lookup_insert_case, <-Hc. by destruct a.
  - unfold Memory.CreateAgent, Memory.UpdateAgent. intros [-> | ->]; by store_cases.
  - unfold Memory.DeleteAgent. store_cases; naive_solver.
  - unfold Memory.DeleteAgent. store_cases; try done. intros _.
    split; [by intros b [= <-]|]. rewrite lookup_delete_eq. split; [done|]. intros _.
    unfold others_same, key. simpl. split_and!; try done. intros j b Hb.
    rewrite lookup_delete_Some. naive_solver.
Qed.

#[export] Instance memory_available : StoreAvailable Memory.t.
Proof.
  split; simpl; intros *; try done.
  - unfold Memory.UpdateExecution. store_cases; naive_solver.
  - unfold Memory.AppendStep. store_cases; naive_solver.
  - unfold Memory.AppendMessage. store_cases; naive_solver.
  - apply list_messages_spec.
  - unfold Memory.GetExecution. store_cases; naive_solver.
  - apply get_by_key_none.
  - intros (i & x & Hx & Ho & Hk). unfold Memory.GetByIdempotencyKey.
    destruct (list_find _ _) as [[n [j y]]|] eqn:E; [eauto|].
    apply list_find_None in E. rewrite Forall_forall in E.
    by destruct (E (i, x)); [apply range_elem|].
  - unfold Memory.CreateExecution. store_cases; naive_solver.
  - unfold Memory.GetAgent. store_cases; naive_solver.
Qed.
End laws.

(** ** The invariant of the maps *)

(** One call of a method that writes. *)
Inductive memory_op : Type :=
| OpCreateAgent (a : Agent.t)
| OpUpdateAgent (a : Agent.t)
| OpDeleteAgent (ownerID agentID : string)
| OpCreateConversation (v : Conversation.t)
| OpAppendMessage (m : Message.t)
| OpCreateExecution (x : Execution.t)
| OpUpdateExecution (x : Execution.t)
| OpAppendStep (st : Step.t).

Definition apply_op (c : Call) (op : memory_op) (m : Memory.t) : option error * Memory.t :=
  match op with
  | OpCreateAgent a => Memory.CreateAgent c a m
  | OpUpdateAgent a => Memory.UpdateAgent c a m
  | OpDeleteAgent o i => Memory.DeleteAgent c o i m
  | OpCreateConversation v => Memory.CreateConversation c v m
  | OpAppendMessage msg => Memory.AppendMessage c msg m
  | OpCreateExecution x => Memory.CreateExecution c x m
  | OpUpdateExecution x => Memory.UpdateExecution c x m
  | OpAppendStep st => Memory.AppendStep c st m
  end.

(** States some sequence of calls of the store's methods leads to. *)
Inductive reachable : Memory.t → Prop :=
| reachable_new : reachable Memory.NewMemory
| reachable_op c op m : reachable m → reachable (apply_op c op m).2.

(** Records are filed under their own identifier, and every step and message list
    belongs to an execution or conversation that exists. *)
Record memory_wf (m : Memory.t) : Prop := {
  wf_agents i a : Memory.agents m !! i = Some a → Agent.ID a = i;
  wf_executions i x : Memory.executions m !! i = Some x → Execution.ID x = i;
  wf_conversations i v : Memory.conversations m !! i = Some v → Conversation.ID v = i;
  wf_steps i l : Memory.steps m !! i = Some l →
    is_Some (Memory.executions m !! i) ∧ Forall (λ st, Step.ExecutionID st = i) l;
  wf_messages i l : Memory.messages m !! i = Some l →
    is_Some (Memory.conversations m !! i) ∧ Forall (λ msg, Message.ConversationID msg = i) l
}.

Lemma wf_lookup_insert {A} (m : gmap string A) k x (P : string → A → Prop) :
  (∀ i y, m !! i = Some y → P i y) → P k x → ∀ i y, <[k:=x]> m !! i = Some y → P i y.
Proof. intros Hm Hk i y. rewrite lookup_insert_case. case_decide; naive_solver. Qed.

Lemma is_Some_insert {A} (m : gmap string A) k x i :
  is_Some (m !! i) → is_Some (<[k:=x]> m !! i).
Proof. rewrite lookup_insert_case. case_decide; eauto. Qed.

Lemma wf_slice_app {A} (m : gmap string (list A)) k x (P : string → list A → Prop)
    (owner : A → string) :
  (∀ i l, m !! i = Some l → P i l ∧ Forall (λ y, owner y = i) l) → owner x = k →
  (∀ l, P k l) →
  ∀ i l, <[k := Memory.slice m k ++ [x]]> m !! i = Some l →
         P i l ∧ Forall (λ y, owner y = i) l.
Proof.
  intros Hm Hx HP i l. rewrite lookup_insert_case. case_decide as Hi; [|by apply Hm].
  intros [= <-]. subst i. split; [done|]. apply Forall_app_2; [|by constructor].
  unfold Memory.slice. destruct (m !! k) eqn:E; simpl; [by apply (Hm k)|done].
Qed.

Lemma apply_op_wf c op m : memory_wf m → memory_wf (apply_op c op m).2.
Proof.
  intros [Ha He Hc Hs Hm]. destruct op; simpl.
  - unfold Memory.CreateAgent. store_cases; split; eauto. by apply wf_lookup_insert.
  - unfold Memory.UpdateAgent. store_cases; split; eauto. by apply wf_lookup_insert.
  - unfold Memory.DeleteAgent. store_cases; split; simpl; eauto.
    intros i a [_ Hi]%lookup_delete_Some. by apply Ha.
  - unfold Memory.CreateConversation. store_cases; split; simpl; eauto.
    + by apply wf_lookup_insert.
    + intros i l Hi. destruct (Hm i l Hi). eauto using is_Some_insert.
  - unfold Memory.AppendMessage. store_cases; split; simpl; eauto.
    apply (wf_slice_app _ _ _ (λ i _, is_Some (Memory.conversations m !! i))); eauto.
  - unfold Memory.CreateExecution. store_cases; split; simpl; eauto.
    + by apply wf_lookup_insert.
    + intros i l Hi. destruct (Hs i l Hi). eauto using is_Some_insert.
  - unfold Memory.UpdateExecution. store_cases; split; simpl; eauto.
    + by apply wf_lookup_insert.
    + intros i l Hi. destruct (Hs i l Hi). eauto using is_Some_insert.
  - unfold Memory.AppendStep. store_cases; split; simpl; eauto.
    apply (wf_slice_app _ _ _ (λ i _, is_Some (Memory.executions m !! i))); eauto.
Qed.

(** In every state that calls of the store's methods lead to, each record is filed under
    its own identifier and no step or message list is orphaned. *)
Theorem memory_invariant (m : Memory.t) : reachable m → memory_wf m.
Proof.
  induction 1; [|by apply apply_op_wf].
  split; simpl; intros i ?; by rewrite lookup_empty.
Qed.

Definition demo_call : Call := mkCall Background 1 0.
Definition demo_agent (owner id : string) : Agent.t :=
  Agent.mk id owner "assistant" "" "" "mock" (S754_zero false) 100 [] 1 1 1.
Definition demo_execution (owner id : string) : Execution.t :=
  Execution.mk id "request" "" "agent" owner "conversation" "hello" "" ExecutionQueued "mock"
    0 0 "" 0 None None 1.
Definition demo_step (id : string) : Step.t :=
  Step.mk "step" id "llm" "completion" [] [] "" 0 1 (Some 2).

Lemma memory_invariant_witness :
  let m := (apply_op demo_call (OpAppendStep (demo_step "x"))
             (apply_op demo_call (OpCreateExecution (demo_execution "o" "x"))
                Memory.NewMemory).2).2 in
  Memory.steps m !! "x" = Some [demo_step "x"] ∧ memory_wf m.
Proof.
  split; [by vm_compute|]. apply (memory_invariant _).
  apply reachable_op, reachable_op, reachable_new.
Defined.

(** ** Owners are isolated *)

(** The owner on whose behalf an operation is called; the engine's writes are
    addressed by execution or conversation instead. *)
Definition op_owner (op : memory_op) : option string :=
  match op with
  | OpCreateAgent a | OpUpdateAgent a => Some (Agent.OwnerID a)
  | OpDeleteAgent o _ => Some o
  | OpCreateConversation v => Some (Conversation.OwnerID v)
  | OpCreateExecution x => Some (Execution.OwnerID x)
  | OpAppendMessage _ | OpUpdateExecution _ | OpAppendStep _ => None
  end.

(** C6: No write made for one owner changes what any other owner reads: an update or
    deletion of someone else's agent fails, a creation under an identifier that is
    taken fails, and all else is filed where others do not look. *)
Theorem owner_isolation `{MapOrder} c op o o' m :
  memory_wf m → op_owner op = Some o' → o ≠ o' → same_reads o m (apply_op c op m).2.
Proof.
  intros Hwf Ho Hne c' i n. destruct op; simplify_eq/=; cbn.
  - unfold Memory.CreateAgent. store_cases; split_and!; try done.
    unfold Memory.GetAgent. simpl. rewrite lookup_insert_case.
    destruct (decide (i = Agent.ID a)) as [->|]; [|done]. by store_cases.
  - unfold Memory.UpdateAgent. store_cases; split_and!; try done.
    unfold Memory.GetAgent. simpl. rewrite lookup_insert_case.
    destruct (decide (i = Agent.ID a)) as [->|]; [|done]. store_cases; congruence.
  - unfold Memory.DeleteAgent. store_cases; split_and!; try done.
    unfold Memory.GetAgent. simpl. destruct (decide (i = agentID)) as [->|].
    + rewrite lookup_delete_eq. by store_cases.
    + by rewrite lookup_delete_ne.
  - unfold Memory.CreateConversation. store_cases; split_and!; try done;
      unfold Memory.GetConversation, Memory.ListMessages; simpl;
      rewrite lookup_insert_case;
      (destruct (decide (i = Conversation.ID v)) as [->|]; [|done]); by store_cases.
  - unfold Memory.CreateExecution. store_cases; split_and!; try done;
      unfold Memory.TraceAt, Memory.GetExecution; simpl; rewrite lookup_insert_case;
      (destruct (decide (i = Execution.ID x)) as [->|]; [|done]); by store_cases.
Qed.

(** A loop over a map that meets its entries in the order of its elements. *)
Definition demo_order : MapOrder :=
  {| range_order _ _ l := l; range_order_perm _ _ l := reflexivity l |}.
#[local] Existing Instance demo_order.

Lemma owner_isolation_witness :
  let m := (apply_op demo_call (OpCreateAgent (demo_agent "alice" "a")) Memory.NewMemory).2 in
  (apply_op demo_call (OpDeleteAgent "bob" "a") m).1 = Some (Sentinel NotFound) ∧
  same_reads "alice" m (apply_op demo_call (OpDeleteAgent "bob" "a") m).2.
Proof.
  split; [by vm_compute|].
  apply (owner_isolation demo_call (OpDeleteAgent "bob" "a") "alice" "bob"); [|done..].
  apply apply_op_wf. split; simpl; intros i ?; by rewrite lookup_empty.
Defined.

(** For the owner of a conversation [ListMessages] returns the last [limit]
    messages, oldest first, all of them when there are fewer; it panics exactly when
    the limit is negative. *)
Theorem memory_list_messages c m o i limit v :
  Memory.conversations m !! i = Some v → Conversation.OwnerID v = o →
  Memory.ListMessages c o i limit m =
    if limit <? 0 then None
    else Some (Ok (last_n (Z.to_nat limit) (Memory.slice (Memory.messages m) i))).
Proof.
  intros E Ho. destruct (Z.ltb_spec limit 0).
  - unfold Memory.ListMessages. rewrite E, decide_True by done. cmp_lia.
  - rewrite <-(Z2Nat.id limit) at 1 by done. by apply (list_messages_spec c o i _ m v).
Qed.

Definition demo_conversation (owner id : string) : Conversation.t :=
  Conversation.mk id owner "agent" "hello" 1 1.
Definition demo_message (id conversation : string) : Message.t :=
  Message.mk id conversation "user" id "" [] 1.

Lemma memory_list_messages_witness :
  let m := (apply_op demo_call (OpAppendMessage (demo_message "m2" "v"))
             (apply_op demo_call (OpAppendMessage (demo_message "m1" "v"))
               (apply_op demo_call (OpCreateConversation (demo_conversation "o" "v"))
                 Memory.NewMemory).2).2).2 in
  Memory.ListMessages demo_call "o" "v" 1 m = Some (Ok [demo_message "m2" "v"]) ∧
  Memory.ListMessages demo_call "o" "v" (-1) m = None.
Proof.
  split.
  - etrans; [by eapply (memory_list_messages demo_call _ "o" "v" 1 (demo_conversation "o" "v"))|].
    vm_compute. reflexivity.
  - vm_compute. reflexivity.
Defined.
