(* ===== verification/GoJson.v ===== *)
(** * [encoding/json]: values, parser and printer

    The parser follows the grammar [json.Unmarshal] accepts (nesting depth
    included); decoding into Go types is done by the [decode_*] functions, which
    match object keys like Go does (exactly or by case folding) and fail on a type
    mismatch.  Numbers are rounded to binary64 exactly.  The text of the errors of
    the package is not modelled: [json_error] stands for all of them. *)

From S2P Require Import Prelude GoLang GoString.
Open Scope Z_scope.

Definition json_error : error := Foreign "encoding/json".

Unset Elimination Schemes.
(** A JSON value with the bytes it was read from. *)
Inductive json : Set :=
| JNull (raw : list Z)
| JBool (raw : list Z) (b : bool)
| JNumber (raw : list Z)
| JString (raw : list Z) (s : string)
| JArray (raw : list Z) (items : list json)
| JObject (raw : list Z) (members : list (string * json)).
Set Elimination Schemes.

Definition json_raw (j : json) : list Z :=
  match j with
  | JNull r | JBool r _ | JNumber r | JString r _ | JArray r _ | JObject r _ => r
  end.

(** ** Scanning *)

Definition json_space (b : Z) : bool := (b =? 32) || (b =? 9) || (b =? 13) || (b =? 10).
Fixpoint skip_space (l : list Z) : list Z :=
  match l with b :: l' => if json_space b then skip_space l' else l | [] => [] end.

Definition is_digit (b : Z) : bool := within 48 b 57.
Fixpoint span_digits (l : list Z) : list Z * list Z :=
  match l with
  | b :: l' => if is_digit b then let '(ds, r) := span_digits l' in (b :: ds, r) else ([], l)
  | [] => ([], [])
  end.

(** The part of the input before [rest]. *)
Definition consumed (l rest : list Z) : list Z := take (length l - length rest) l.

(** A number: optional minus, no leading zeros, optional fraction and exponent. *)
Definition scan_number (l : list Z) : option (list Z) :=
  let l1 := match l with 45 :: l' => l' | _ => l end in
  let '(int, l2) := span_digits l1 in
  match int with
  | [] => None
  | 48 :: _ :: _ => None
  | _ =>
      l3 ← match l2 with
           | 46 :: l' => let '(frac, r) := span_digits l' in
                         match frac with [] => None | _ => Some r end
           | _ => Some l2
           end;
      match l3 with
      | e :: l' =>
          if (e =? 101) || (e =? 69) then
            let l'' := match l' with 43 :: r | 45 :: r => r | _ => l' end in
            let '(ds, r) := span_digits l'' in
            match ds with [] => None | _ => Some r end
          else Some l3
      | [] => Some l3
      end
  end.

Definition hex4 (a b c d : Z) : option Z :=
  a ← undigit a; b ← undigit b; c ← undigit c; d ← undigit d;
  Some (((a * 16 + b) * 16 + c) * 16 + d).

Definition surrogate_pair (hi lo : Z) : option Z :=
  if within 55296 hi 56319 && within 56320 lo 57343
  then Some (65536 + (hi - 55296) * 1024 + (lo - 56320)) else None.

(** The body of a string up to its closing quote.  Escapes are decoded, unpaired
    surrogates become [RuneError], control characters are refused. *)
Fixpoint scan_string (l : list Z) : option (list Z * list Z) :=
  match l with
  | [] => None
  | 34 :: rest => Some ([], rest)
  | 92 :: l1 =>
      match l1 with
      | 117 :: a :: b :: c :: d :: l2 =>
          r ← hex4 a b c d;
          match l2 with
          | 92 :: 117 :: a' :: b' :: c' :: d' :: l3 =>
              match r' ← hex4 a' b' c' d'; surrogate_pair r r' with
              | Some p => '(s, rest) ← scan_string l3; Some (encode_rune p ++ s, rest)
              | None => '(s, rest) ← scan_string l2; Some (encode_rune r ++ s, rest)
              end
          | _ => '(s, rest) ← scan_string l2; Some (encode_rune r ++ s, rest)
          end
      | e :: l2 =>
          c ← (if (e =? 34) || (e =? 92) || (e =? 47) then Some e
               else if e =? 98 then Some 8 else if e =? 102 then Some 12
               else if e =? 110 then Some 10 else if e =? 114 then Some 13
               else if e =? 116 then Some 9 else None);
          '(s, rest) ← scan_string l2; Some (c :: s, rest)
      | [] => None
      end
  | b :: l1 => if b <? 32 then None
               else '(s, rest) ← scan_string l1; Some (b :: s, rest)
  end.

(** Invalid UTF-8 inside a string is replaced. *)
Definition to_valid_utf8 (l : list Z) : string :=
  of_bytes (concat ((λ r, encode_rune (rune_of r)) <$> decode_runes l)).

Definition literal (word l : list Z) : option (list Z) :=
  if bool_decide (word `prefix_of` l) then Some (drop (length word) l) else None.

(** ** Parsing *)

Definition max_depth : Z := 10000.

Fixpoint parse_value (fuel : nat) (depth : Z) (l : list Z) : option (json * list Z) :=
  match fuel with
  | O => None
  | S fuel =>
      let l := skip_space l in
      match l with
      | [] => None
      | 34 :: l1 => '(s, rest) ← scan_string l1;
                    Some (JString (consumed l rest) (to_valid_utf8 s), rest)
      | 91 :: l1 =>
          if max_depth <=? depth then None else
          match skip_space l1 with
          | 93 :: rest => Some (JArray (consumed l rest) [], rest)
          | l2 => '(items, rest) ← parse_items fuel (depth + 1) l2;
                  Some (JArray (consumed l rest) items, rest)
          end
      | 123 :: l1 =>
          if max_depth <=? depth then None else
          match skip_space l1 with
          | 125 :: rest => Some (JObject (consumed l rest) [], rest)
          | l2 => '(ms, rest) ← parse_members fuel (depth + 1) l2;
                  Some (JObject (consumed l rest) ms, rest)
          end
      | 116 :: _ => rest ← literal [116; 114; 117; 101] l;
                    Some (JBool (consumed l rest) true, rest)
      | 102 :: _ => rest ← literal [102; 97; 108; 115; 101] l;
                    Some (JBool (consumed l rest) false, rest)
      | 110 :: _ => rest ← literal [110; 117; 108; 108] l;
                    Some (JNull (consumed l rest), rest)
      | _ => rest ← scan_number l; Some (JNumber (consumed l rest), rest)
      end
  end
with parse_items (fuel : nat) (depth : Z) (l : list Z) : option (list json * list Z) :=
  match fuel with
  | O => None
  | S fuel =>
      '(item, l1) ← parse_value fuel depth l;
      match skip_space l1 with
      | 93 :: rest => Some ([item], rest)
      | 44 :: l2 => '(items, rest) ← parse_items fuel depth l2; Some (item :: items, rest)
      | _ => None
      end
  end
with parse_members (fuel : nat) (depth : Z) (l : list Z) : option (list (string * json) * list Z) :=
  match fuel with
  | O => None
  | S fuel =>
      match skip_space l with
      | 34 :: l1 =>
          '(key, l2) ← scan_string l1;
          match skip_space l2 with
          | 58 :: l3 =>
              '(v, l4) ← parse_value fuel depth l3;
              match skip_space l4 with
              | 125 :: rest => Some ([(to_valid_utf8 key, v)], rest)
              | 44 :: l5 => '(ms, rest) ← parse_members fuel depth l5;
                            Some ((to_valid_utf8 key, v) :: ms, rest)
              | _ => None
              end
          | _ => None
          end
      | _ => None
      end
  end.

(** The syntax check and parse of [json.Unmarshal]: one value and white space.  Every
    recursive call reads at least one byte first, so the fuel cannot run out. *)
Definition parse_json (input : string) : option json :=
  let l := bytes input in
  match parse_value (2 * length l + 1) 0 l with
  | Some (j, rest) => match skip_space rest with [] => Some j | _ => None end
  | None => None
  end.

(** ** Numbers *)

(** [m * 10^e] rounded to the nearest binary64 number. *)
Definition decimal_to_float (neg : bool) (m e : Z) : float64 :=
  match m with
  | Zpos p =>
      let nd := Z.of_nat (length (digits_fuel 2000 10 m)) in
      if 310 <? nd + e then S754_infinity neg
      else if nd + e <? -330 then S754_zero neg
      else if 0 <=? e
      then binary_normalize prec64 emax64 ((if neg then Z.opp else id) (m * 10 ^ e)) 0 neg
      else SFdiv prec64 emax64 (S754_finite neg p 0)
                 (S754_finite false (Z.to_pos (10 ^ (- e))) 0)
  | _ => S754_zero neg
  end.

Definition digits_value (ds : list Z) : Z := foldl (λ acc d, acc * 10 + (d - 48)) 0 ds.

(** [strconv.ParseFloat] on a JSON number; [None] when out of range. *)
Definition parse_float (raw : list Z) : option float64 :=
  let '(neg, l1) := match raw with 45 :: l' => (true, l') | _ => (false, raw) end in
  let '(int, l2) := span_digits l1 in
  let '(frac, l3) := match l2 with 46 :: l' => span_digits l' | _ => ([], l2) end in
  let ex := match l3 with
            | _ :: 45 :: ds => - digits_value ds
            | _ :: 43 :: ds => digits_value ds
            | _ :: ds => digits_value ds
            | [] => 0
            end in
  match decimal_to_float neg (digits_value (int ++ frac)) (ex - Z.of_nat (length frac)) with
  | S754_infinity _ => None
  | f => Some f
  end.

(** [strconv.ParseInt(raw, 10, 64)]: a fraction or an exponent is refused. *)
Definition parse_int (raw : list Z) : option Z :=
  let '(neg, ds) := match raw with 45 :: ds => (true, ds) | _ => (false, raw) end in
  n ← parse_digits 0 ds;
  let n := if neg : bool then - n else n in
  if (min_int64 <=? n) && (n <=? max_int64) then Some n else None.

(** ** Decoding into Go types *)

(** Case folding of an object key: ASCII letters, the long s and the Kelvin sign. *)
Fixpoint fold_key (l : list Z) : list Z :=
  match l with
  | [] => []
  | 197 :: 191 :: l' => 115 :: fold_key l'
  | 226 :: 132 :: 170 :: l' => 107 :: fold_key l'
  | b :: l' => (if within 65 b 90 then b + 32 else b) :: fold_key l'
  end.

Definition key_matches (field key : string) : bool :=
  bool_decide (key = field) || bool_decide (fold_key (bytes key) = fold_key (bytes field)).

(** The values an object gives to a field, in order; the last one wins. *)
Definition field_values (field : string) (members : list (string * json)) : list json :=
  snd <$> filter (λ kv, key_matches field kv.1) members.

(** Decoding a field into a Go variable that starts out as [zero]; [null] leaves it. *)
Definition decode_field {A} (dec : json → A → result A) (zero : A) (field : string)
    (members : list (string * json)) : result A :=
  foldl (λ acc j, v ← acc; dec j v) (Ok zero) (field_values field members).

Definition decode_string (j : json) (old : string) : result string :=
  match j with JString _ s => Ok s | JNull _ => Ok old | _ => Err json_error end.

Definition decode_float (j : json) (old : float64) : result float64 :=
  match j with
  | JNumber raw => match parse_float raw with Some f => Ok f | None => Err json_error end
  | JNull _ => Ok old
  | _ => Err json_error
  end.

Definition decode_int (j : json) (old : Z) : result Z :=
  match j with
  | JNumber raw => match parse_int raw with Some n => Ok n | None => Err json_error end
  | JNull _ => Ok old
  | _ => Err json_error
  end.

Fixpoint decode_all {A} (dec : json → result A) (l : list json) : result (list A) :=
  match l with
  | [] => Ok []
  | j :: l => v ← dec j; vs ← decode_all dec l; Ok (v :: vs)
  end.

Definition decode_strings (j : json) (old : list string) : result (list string) :=
  match j with
  | JArray _ items => decode_all (λ j, decode_string j "") items
  | JNull _ => Ok []
  | _ => Err json_error
  end.

(** [map[string]string], [None] for the nil map; a repeated key or a second object
    adds to the same map. *)
Fixpoint decode_entries (ms : list (string * json)) (m : gmap string string)
    : result (gmap string string) :=
  match ms with
  | [] => Ok m
  | (k, j) :: ms => v ← decode_string j ""; decode_entries ms (<[k:=v]> m)
  end.

Definition decode_string_map (j : json) (old : option (gmap string string))
    : result (option (gmap string string)) :=
  match j with
  | JObject _ ms => m ← decode_entries ms (default ∅ old); Ok (Some m)
  | JNull _ => Ok None
  | _ => Err json_error
  end.

(** The object of a struct: any other value is a type mismatch, [null] decodes
    like the empty object. *)
Definition decode_struct (j : json) : result (list (string * json)) :=
  match j with JObject _ ms => Ok ms | JNull _ => Ok [] | _ => Err json_error end.

Definition unmarshal_struct (input : string) : result (list (string * json)) :=
  match parse_json input with Some j => decode_struct j | None => Err json_error end.

(** ** Printing *)

Definition hex_escape (b : Z) : list Z := [92; 117; 48; 48] ++ hex_fixed 2 b.

(** One rune of a string, with HTML escaping. *)
Definition escape_rune (r : Z + Z) : list Z :=
  match r with
  | inl _ => [92; 117; 102; 102; 102; 100]
  | inr r =>
      if r <? 128 then
        if (r =? 34) || (r =? 92) then [92; r]
        else if r =? 8 then [92; 98] else if r =? 12 then [92; 102]
        else if r =? 10 then [92; 110] else if r =? 13 then [92; 114]
        else if r =? 9 then [92; 116]
        else if (r <? 32) || (r =? 60) || (r =? 62) || (r =? 38) then hex_escape r
        else [r]
      else if (r =? 8232) || (r =? 8233) then [92; 117; 50; 48; 50] ++ [digit (r - 8224)]
      else encode_rune r
  end.

Definition print_string (s : string) : list Z :=
  [34] ++ concat (escape_rune <$> decode_runes (bytes s)) ++ [34].

(** *** The shortest decimal that reads back as a given float *)

(** A positive finite float as a fraction. *)
Definition float_fraction (m : positive) (e : Z) : Z * Z :=
  if 0 <=? e then (Zpos m * 2 ^ e, 1) else (Zpos m, 2 ^ (- e)).

(** The [p] with [10^(p-1) <= n/d < 10^p], from a lower bound. *)
Fixpoint decimal_point (fuel : nat) (n d p : Z) : Z :=
  match fuel with
  | O => p
  | S fuel =>
      if (if 0 <=? p then n <? d * 10 ^ p else n * 10 ^ (- p) <? d) then p
      else decimal_point fuel n d (p + 1)
  end.

(** The decimals of [k] digits around [n/d < 10^p], nearest first: [q * 10^(p-k)]. *)
Definition decimal_candidates (n d p : Z) (k : nat) : list (Z * Z) :=
  let x := p - Z.of_nat k in
  let '(a, b) := if 0 <=? x then (n, d * 10 ^ x) else (n * 10 ^ (- x), d) in
  let q := a / b in
  if 2 * (a mod b) <=? b then [(q, x); (q + 1, x)] else [(q + 1, x); (q, x)].

Definition reads_back (m : positive) (e : Z) (c : Z * Z) : bool :=
  bool_decide (decimal_to_float false c.1 c.2 = S754_finite false m e).

Fixpoint shortest (m : positive) (e n d p : Z) (tries : nat) (k : nat) : Z * Z :=
  match tries with
  | O => (0, 0)
  | S tries =>
      match List.filter (reads_back m e) (decimal_candidates n d p k) with
      | c :: _ => c
      | [] => shortest m e n d p tries (S k)
      end
  end.

(** The digits (without trailing zeros) and the position of the decimal point. *)
Definition shortest_digits (m : positive) (e : Z) : list Z * Z :=
  let '(n, d) := float_fraction m e in
  let p := decimal_point 700 n d (-330) in
  let '(q, x) := shortest m e n d p 18 1 in
  let ds := digits 10 q in
  (reverse (drop_byte 48 (reverse ds)), x + Z.of_nat (length ds)).

Definition zeros (n : Z) : list Z := replicate (Z.to_nat n) 48.

(** [%f] and [%e] layouts of digits [ds] with the decimal point at [p]. *)
Definition layout_f (ds : list Z) (p : Z) : list Z :=
  let k := Z.of_nat (length ds) in
  if p <=? 0 then [48; 46] ++ zeros (- p) ++ ds
  else if k <=? p then ds ++ zeros (p - k)
  else take (Z.to_nat p) ds ++ [46] ++ drop (Z.to_nat p) ds.
Definition layout_e (ds : list Z) (p : Z) : list Z :=
  let x := p - 1 in
  take 1 ds ++ (if (1 <? length ds)%nat then 46 :: drop 1 ds else []) ++
  [101; (if x <? 0 then 45 else 43)] ++
  (let es := digits 10 (Z.abs x) in
   if (length es <? 2)%nat then (if x <? 0 then es else 48 :: es) else es).

(** A [float64]; infinities and NaN have no JSON text. *)
Definition print_float (f : float64) : option (list Z) :=
  match f with
  | S754_zero s => Some (if s then [45; 48] else [48])
  | S754_finite s m e =>
      let '(ds, p) := shortest_digits m e in
      Some ((if s then [45] else []) ++
            (if (p <? -5) || (21 <? p) then layout_e ds p else layout_f ds p))
  | _ => None
  end.

(** Compacting a valid [json.RawMessage] (a backslash is always inside a string): white space outside strings goes, and the
    characters HTML gives a meaning to are escaped. *)
Fixpoint compact (in_string : bool) (l : list Z) : list Z :=
  match l with
  | [] => []
  | 92 :: c :: l' => 92 :: c :: compact in_string l'
  | 226 :: 128 :: c :: l' =>
      if (c =? 168) || (c =? 169) then [92; 117; 50; 48; 50; digit (c - 160)] ++ compact in_string l'
      else 226 :: 128 :: c :: compact in_string l'
  | b :: l' =>
      if b =? 34 then 34 :: compact (negb in_string) l'
      else if negb in_string && json_space b then compact in_string l'
      else if (b =? 60) || (b =? 62) || (b =? 38) then hex_escape b ++ compact in_string l'
      else b :: compact in_string l'
  end.

(** Map entries are printed in the order of their keys. *)
Fixpoint bytes_le (a b : list Z) : bool :=
  match a, b with
  | [], _ => true
  | _, [] => false
  | x :: a, y :: b => if x <? y then true else if y <? x then false else bytes_le a b
  end.
Fixpoint insert_key {A} (k : string) (v : A) (l : list (string * A)) : list (string * A) :=
  match l with
  | [] => [(k, v)]
  | (k', v') :: l' => if bytes_le (bytes k) (bytes k') then (k, v) :: l
                      else (k', v') :: insert_key k v l'
  end.
Definition sort_keys {A} (l : list (string * A)) : list (string * A) :=
  foldr (λ kv acc, insert_key kv.1 kv.2 acc) [] l.

Definition join_bytes (sep : Z) (parts : list (list Z)) : list Z :=
  match parts with
  | [] => []
  | p :: ps => p ++ concat ((λ q, sep :: q) <$> ps)
  end.

(** The fields of an object in the order given, each with its printed value. *)
Definition print_field (field : string * list Z) : list Z := print_string field.1 ++ 58 :: field.2.
Definition print_struct (fields : list (string * list Z)) : list Z :=
  [123] ++ join_bytes 44 (print_field <$> fields) ++ [125].
Definition print_array (parts : list (list Z)) : list Z := [91] ++ join_bytes 44 parts ++ [93].

(** [json.Marshal]; [None] is an unsupported value. *)
Fixpoint print_value (v : value) : option (list Z) :=
  match v with
  | VNull => Some (bytes "null")
  | VBool b => Some (bytes (if b then "true" else "false"))
  | VInt z => Some (bytes (Itoa z))
  | VFloat f => print_float f
  | VString s => Some (print_string s)
  | VRaw s => if parse_json s is Some _ then Some (compact false (bytes s)) else None
  | VArray items =>
      parts ← (fix go l := match l with
                           | [] => Some []
                           | v :: l => p ← print_value v; ps ← go l; Some (p :: ps)
                           end) items;
      Some (print_array parts)
  | VObject members =>
      parts ← (fix go l := match l with
                           | [] => Some []
                           | (k, v) :: l => p ← print_value v; ps ← go l; Some ((k, p) :: ps)
                           end) members;
      Some (print_struct (sort_keys parts))
  end.

Definition Marshal (v : value) : result string :=
  match print_value v with Some l => Ok (of_bytes l) | None => Err json_error end.
