(* ===== verification/JsonFacts.v ===== *)
(** * JSON texts read back

    What [GoJson] prints, it parses: [reads depth p K] says that the text [p] is read
    as one value that satisfies [K], whatever follows.  The lemmas build it for strings, numbers,
    arrays and objects; invalid UTF-8 is replaced on the way ([clean]).  The components
    that pass records through JSON get their round trips from [reads_struct]. *)

From S2P Require Import Prelude GoLang GoString Utf8 GoJson.
Open Scope Z_scope.

(** ** Strings *)

Lemma scan_plain b l :
  32 ≤ b → b ≠ 34 → b ≠ 92 →
  scan_string (b :: l) = '(s, rest) ← scan_string l; Some (b :: s, rest).
Proof.
  intros H1 H2 H3. assert ((b <? 32) = false) as Hb by lia.
  destruct b as [|p|p]; [done| |done]. simpl. rewrite Hb. clear Hb.
  do 7 (destruct p as [p|p|]; try reflexivity; try (exfalso; congruence)).
Qed.

Lemma scan_high bs l :
  Forall (λ b, 128 ≤ b < 256) bs →
  scan_string (bs ++ l) = '(s, rest) ← scan_string l; Some (bs ++ s, rest).
Proof.
  induction 1 as [|b bs Hb _ IH]; simpl app.
  - by destruct (scan_string l) as [[]|].
  - rewrite scan_plain by lia. rewrite IH. by destruct (scan_string l) as [[]|].
Qed.

Lemma scan_u a b c d r l :
  hex4 a b c d = Some r → ¬ 55296 ≤ r ≤ 56319 →
  scan_string (92 :: 117 :: a :: b :: c :: d :: l) =
  '(s, rest) ← scan_string l; Some (encode_rune r ++ s, rest).
Proof.
  intros Hr Hs. cbn [scan_string]. rewrite Hr. cbn [mbind option_bind].
  assert (∀ m, m ≫= (λ r', surrogate_pair r r') = None) as Hp.
  { intros [x|]; [|done]. cbn. unfold surrogate_pair.
    by rewrite (proj2 (within_false _ _ _)) by lia. }
  by repeat (case_match; try reflexivity); rewrite Hp in *.
Qed.

Lemma hex_fixed_2 b : hex_fixed 2 b = [digit (b / 16 mod 16); digit (b mod 16)].
Proof. done. Qed.

Lemma scan_hex_escape r l :
  0 ≤ r < 128 →
  scan_string (hex_escape r ++ l) = '(s, rest) ← scan_string l; Some (encode_rune r ++ s, rest).
Proof.
  intros Hr. unfold hex_escape. rewrite hex_fixed_2. simpl app. apply scan_u; [|lia].
  pose proof (Z.mod_pos_bound r 16). pose proof (Z.mod_pos_bound (r / 16) 16).
  unfold hex4. rewrite !undigit_digit by lia. simpl. f_equal.
  Z.to_euclidean_division_equations. lia.
Qed.

Lemma encode_ascii r : 0 ≤ r < 128 → encode_rune r = [r].
Proof.
  intros Hr. unfold encode_rune. rewrite (proj2 (scalar_within r)) by (unfold scalar; lia).
  by destruct (Z.ltb_spec r 128); [|lia].
Qed.

Lemma encode_high r : 128 ≤ r → scalar r → Forall (λ b, 128 ≤ b < 256) (encode_rune r).
Proof.
  intros Hr Hs. destruct (encode_rune_cases r) as [[H _]|H]; [lia|done].
Qed.

(** An escaped rune reads back as its encoding. *)
Lemma scan_rune r l :
  rune_ok r →
  scan_string (escape_rune r ++ l) =
  '(s, rest) ← scan_string l; Some (encode_rune (rune_of r) ++ s, rest).
Proof.
  intros Hok. destruct r as [b|r]; simpl in Hok; unfold escape_rune, rune_of.
  { apply (scan_u 102 102 102 100 RuneError); [done|]. unfold RuneError. lia. }
  destruct (Z.ltb_spec r 128) as [H1|H1].
  - assert (0 ≤ r) as H0 by (unfold scalar in Hok; lia).
    repeat match goal with
    | |- context [ if (r =? ?n) || (r =? ?k) then _ else _ ] =>
        destruct (Z.eqb_spec r n) as [->|?]; [reflexivity|];
        destruct (Z.eqb_spec r k) as [->|?]; [reflexivity|]; cbn [orb]
    | |- context [ if r =? ?n then _ else _ ] =>
        destruct (Z.eqb_spec r n) as [->|?]; [reflexivity|]
    end.
    destruct (((r <? 32) || (r =? 60)) || (r =? 62) || (r =? 38)) eqn:E.
    + by apply scan_hex_escape.
    + rewrite !orb_false_iff in E. rewrite encode_ascii by lia. simpl app.
      rewrite scan_plain by lia. by destruct (scan_string l) as [[]|].
  - destruct ((r =? 8232) || (r =? 8233)) eqn:E.
    + simpl app. apply scan_u; [|lia]. apply orb_true_iff in E as [E|E]; apply Z.eqb_eq in E as ->; done.
    + apply scan_high. by apply encode_high.
Qed.

Lemma scan_runes rs rest :
  Forall rune_ok rs →
  scan_string (concat (escape_rune <$> rs) ++ 34 :: rest) =
  Some (concat ((λ r, encode_rune (rune_of r)) <$> rs), rest).
Proof.
  induction 1 as [|r rs Hr _ IH]; [done|]. csimpl. rewrite <-(assoc_L (++)), scan_rune by done.
  by rewrite IH.
Qed.

(** The text of a string, behind its opening quote. *)
Definition string_tail (s : string) : list Z :=
  concat (escape_rune <$> decode_runes (bytes s)) ++ [34].
Lemma print_string_tail s : print_string s = 34 :: string_tail s.
Proof. done. Qed.
#[local] Arguments print_string : simpl never.

Lemma scan_tail s rest : scan_string (string_tail s ++ rest) = Some (sanitize (bytes s), rest).
Proof.
  unfold string_tail. rewrite <-(assoc_L (++)). simpl app. rewrite scan_runes; [done|].
  apply decode_ok, bytes_range.
Qed.

Lemma to_valid_sanitize s : to_valid_utf8 (sanitize (bytes s)) = clean s.
Proof.
  change (of_bytes (sanitize (sanitize (bytes s))) = clean s).
  by rewrite sanitize_idem by apply bytes_range.
Qed.

(** ** Values *)

(** A parsed value without the bytes it was read from; a number is its text. *)
Fixpoint erase (j : json) : value :=
  match j with
  | JNull _ => VNull
  | JBool _ b => VBool b
  | JNumber raw => VRaw (of_bytes raw)
  | JString _ s => VString s
  | JArray _ items => VArray (erase <$> items)
  | JObject _ ms => VObject ((λ kv, (kv.1, erase kv.2)) <$> ms)
  end.

(** What can follow a value inside a text. *)
Definition delimited (rest : list Z) : Prop :=
  match rest with [] => True | b :: _ => b = 44 ∨ b = 93 ∨ b = 125 end.

(** The first byte of a value. *)
Definition opens (p : list Z) : Prop :=
  match p with [] => False | b :: _ => json_space b = false ∧ b ≠ 93 ∧ b ≠ 125 end.

(** The text [p], at nesting depth [depth], reads as a value with [K] whatever follows. *)
Definition reads (depth : Z) (p : list Z) (K : json → Prop) : Prop :=
  (opens p ∧ Forall is_byte p) ∧
  ∀ fuel rest, (2 * length p ≤ S fuel)%nat → delimited rest →
    ∃ j, parse_value fuel depth (p ++ rest) = Some (j, rest) ∧ K j.

Lemma reads_mono {depth p} {K K' : json → Prop} :
  (∀ j, K j → K' j) → reads depth p K → reads depth p K'.
Proof.
  intros HK [Ho H]. split; [done|]. intros fuel rest Hf Hd.
  destruct (H fuel rest Hf Hd) as (j & Hj & Hk). eauto.
Qed.

Lemma reads_fuel {depth p} {K : json → Prop} :
  opens p → Forall is_byte p →
  (∀ fuel rest, (2 * length p ≤ S (S fuel))%nat → delimited rest →
    ∃ j, parse_value (S fuel) depth (p ++ rest) = Some (j, rest) ∧ K j) →
  reads depth p K.
Proof.
  intros Ho Hb H. split; [done|]. intros [|fuel] rest Hf Hd; [|by apply H].
  destruct p; [done|]. simpl in Hf. lia.
Qed.

(** A value keeps the bytes it was read from. *)
Lemma consumed_app p rest : consumed (p ++ rest) rest = p.
Proof. unfold consumed. by rewrite length_app, Nat.add_sub, take_app_length. Qed.

Lemma parse_raw fuel depth l j rest :
  parse_value fuel depth l = Some (j, rest) → json_raw j = consumed (skip_space l) rest.
Proof.
  destruct fuel as [|fuel]; [done|]. cbn [parse_value]. intros E.
  repeat match type of E with
  | context [ match ?x with _ => _ end ] => destruct x eqn:?
  | mbind _ ?x = _ => destruct x as [?|] eqn:?; cbn [mbind option_bind] in E
  | Some _ = Some _ => injection E as <- <-
  end; try discriminate; try reflexivity.
Qed.

Lemma reads_raw {depth p K} : reads depth p K → reads depth p (λ j, K j ∧ json_raw j = p).
Proof.
  intros [Ho H]. split; [done|]. intros fuel rest Hf Hd.
  destruct (H fuel rest Hf Hd) as (j & Hj & Hk). exists j. split_and!; [done..|].
  rewrite (parse_raw _ _ _ _ _ Hj). destruct Ho as [Ho _]. destruct p as [|b p]; [done|].
  cbn [app skip_space]. rewrite (proj1 Ho). apply (consumed_app (b :: p)).
Qed.

(** The printed items of an array, or the fields of an object. *)
Lemma join_cons sep p ps : join_bytes sep (p :: ps) = p ++ concat ((λ q, sep :: q) <$> ps).
Proof. done. Qed.

Lemma reads_parse {p} {K : json → Prop} :
  reads 0 p K → ∃ j, parse_json (of_bytes p) = Some j ∧ K j.
Proof.
  intros [[_ Hb] H]. unfold parse_json. rewrite bytes_of_bytes by done.
  destruct (H (2 * length p + 1)%nat []) as (j & Hj & Hv); [lia|done|].
  rewrite app_nil_r in Hj. rewrite Hj. by exists j.
Qed.

Lemma escape_rune_byte r : rune_ok r → Forall is_byte (escape_rune r).
Proof.
  intros Hr. unfold escape_rune. destruct r as [b|r]; [by repeat constructor|]. simpl in Hr.
  assert (∀ d, 0 ≤ d < 16 → is_byte (digit d)) as Hdig.
  { intros d Hd. unfold is_byte, digit. destruct (d <? 10); lia. }
  assert (0 ≤ r) as H0 by (unfold scalar in Hr; lia).
  repeat case_match; try apply encode_rune_range; unfold hex_escape; rewrite ?hex_fixed_2;
    repeat (apply Forall_cons; split); try apply Forall_nil; try (unfold is_byte; lia);
    apply Hdig; try (apply Z.mod_pos_bound; lia); lia.
Qed.

Lemma print_string_byte s : Forall is_byte (print_string s).
Proof.
  unfold print_string. apply Forall_app_2; [by repeat constructor|].
  apply Forall_app_2; [|by repeat constructor].
  pose proof (decode_ok _ (bytes_range s)) as H.
  induction H as [|r rs Hr _ IH]; csimpl; [constructor|].
  apply Forall_app_2; [by apply escape_rune_byte|done].
Qed.

Lemma join_bytes_byte sep ps : is_byte sep → Forall (Forall is_byte) ps → Forall is_byte (join_bytes sep ps).
Proof.
  intros Hs. destruct 1 as [|p ps Hp Hps]; [constructor|]. rewrite join_cons.
  apply Forall_app_2; [done|]. induction Hps as [|q qs Hq _ IH]; csimpl; [constructor|].
  constructor; [done|]. by apply Forall_app_2.
Qed.

(** The string [s], up to invalid bytes. *)
Definition is_text (s : string) (j : json) : Prop := ∃ raw, j = JString raw (clean s).

Lemma reads_string depth s : reads depth (print_string s) (is_text s).
Proof.
  apply reads_fuel; [done|apply print_string_byte|]. intros fuel rest _ _.
  rewrite print_string_tail.
  exists (JString (consumed (34 :: string_tail s ++ rest) rest) (clean s)). split; [|by eexists].
  simpl app. cbn [parse_value skip_space]. change (json_space 34) with false. cbv iota.
  rewrite scan_tail. cbn. by rewrite to_valid_sanitize.
Qed.

Lemma literal_app w rest : literal w (w ++ rest) = Some rest.
Proof.
  unfold literal. rewrite bool_decide_true by by eexists. by rewrite drop_app_length.
Qed.

Lemma reads_null depth : reads depth (bytes "null") (λ j, ∃ raw, j = JNull raw).
Proof.
  apply reads_fuel; [done|apply bytes_range|]. intros fuel rest _ _.
  change (∃ j : json, (r ← literal (bytes "null") (bytes "null" ++ rest);
                Some (JNull (consumed (bytes "null" ++ rest) r), r)) = Some (j, rest) ∧
               ∃ raw, j = JNull raw).
  rewrite literal_app. eexists. split; [done|]. by eexists.
Qed.
Lemma reads_bool depth (b : bool) :
  reads depth (bytes (if b then "true" else "false")) (λ j, ∃ raw, j = JBool raw b).
Proof.
  apply reads_fuel; [by destruct b|apply bytes_range|]. intros fuel rest _ _.
  set (w := bytes (if b then "true" else "false")).
  assert (∃ j : json, (r ← literal w (w ++ rest); Some (JBool (consumed (w ++ rest) r) b, r)) =
               Some (j, rest) ∧ ∃ raw, j = JBool raw b) as H.
  { rewrite literal_app. eexists. split; [done|]. by eexists. }
  by destruct b.
Qed.

(** Lists of values. *)
Lemma parse_array_open fuel depth p :
  depth < max_depth → opens p →
  parse_value (S fuel) depth (91 :: p) =
  '(items, rest) ← parse_items fuel (depth + 1) p;
  Some (JArray (consumed (91 :: p) rest) items, rest).
Proof.
  intros Hd Ho. cbn [parse_value skip_space]. change (json_space 91) with false. cbv iota.
  rewrite (proj2 (Z.leb_gt _ _)) by done.
  destruct p as [|b p]; [done|]. destruct Ho as (Hs & Hb & _). cbn [skip_space]. rewrite Hs.
  destruct b as [|q|q]; [done| |done].
  do 7 (destruct q as [q|q|]; try reflexivity; try (exfalso; congruence)).
Qed.

Lemma parse_object_open fuel depth p :
  depth < max_depth → opens p →
  parse_value (S fuel) depth (123 :: p) =
  '(ms, rest) ← parse_members fuel (depth + 1) p;
  Some (JObject (consumed (123 :: p) rest) ms, rest).
Proof.
  intros Hd Ho. cbn [parse_value skip_space]. change (json_space 123) with false. cbv iota.
  rewrite (proj2 (Z.leb_gt _ _)) by done.
  destruct p as [|b p]; [done|]. destruct Ho as (Hs & _ & Hb). cbn [skip_space]. rewrite Hs.
  destruct b as [|q|q]; [done| |done].
  do 7 (destruct q as [q|q|]; try reflexivity; try (exfalso; congruence)).
Qed.

Lemma opens_app p q : opens p → opens (p ++ q).
Proof. by destruct p. Qed.

Lemma join_cons_cons sep p q ps :
  join_bytes sep (p :: q :: ps) = p ++ sep :: join_bytes sep (q :: ps).
Proof. done. Qed.

Lemma parse_items_reads depth ps Ks fuel rest :
  Forall2 (reads depth) ps Ks → ps ≠ [] → (2 * length (join_bytes 44 ps) ≤ fuel)%nat →
  ∃ js, parse_items fuel depth (join_bytes 44 ps ++ 93 :: rest) = Some (js, rest) ∧
        Forall2 (λ (K : json → Prop) j, K j) Ks js.
Proof.
  intros H. revert fuel. induction H as [|p K ps Ks [[Ho _] Hp] Hps IH]; [done|].
  intros fuel _ Hf.
  destruct p as [|b p]; [done|]. destruct fuel as [|fuel]; [simpl in Hf; lia|].
  destruct ps as [|q ps].
  - inv Hps. rewrite join_cons in *. csimpl in *. rewrite app_nil_r in *.
    destruct (Hp fuel (93 :: rest)) as (j & Hj & Hv); [simpl; lia|simpl; tauto|].
    simpl app in Hj. cbn [app]. cbn [parse_items]. rewrite Hj. cbn. exists [j].
    split; [done|by repeat constructor].
  - rewrite join_cons_cons in Hf. rewrite length_app in Hf. cbn [length] in Hf.
    destruct (IH fuel) as (js & Hjs & Hvs); [done|lia|].
    destruct (Hp fuel (44 :: join_bytes 44 (q :: ps) ++ 93 :: rest)) as (j & Hj & Hv);
      [simpl; lia|simpl; tauto|].
    rewrite join_cons_cons, <-(assoc_L (++)). cbn [parse_items].
    change ((44 :: join_bytes 44 (q :: ps)) ++ 93 :: rest)
      with (44 :: join_bytes 44 (q :: ps) ++ 93 :: rest). rewrite Hj.
    cbn [mbind option_bind skip_space]. change (json_space 44) with false. cbv iota.
    rewrite Hjs. cbn. exists (j :: js). split; [done|by constructor].
Qed.

Lemma join_bytes_opens ps Ks depth rest :
  Forall2 (reads depth) ps Ks → ps ≠ [] → opens (join_bytes 44 ps ++ rest).
Proof.
  destruct 1 as [|p K ps Ks [[Ho _] _] _]; [done|]. intros _. rewrite join_cons.
  by apply opens_app, opens_app.
Qed.

Lemma reads_array depth ps Ks :
  depth < max_depth → Forall2 (reads (depth + 1)) ps Ks →
  reads depth (print_array ps)
    (λ j, ∃ raw js, j = JArray raw js ∧ Forall2 (λ (K : json → Prop) j, K j) Ks js).
Proof.
  intros Hd H. apply reads_fuel; [done| |].
  { apply Forall_app_2; [by repeat constructor|]. apply Forall_app_2; [|by repeat constructor].
    apply join_bytes_byte; [done|]. by induction H as [|p v ps vs [[_ Hb] _] _ IH]; constructor. }
  intros fuel rest Hf _. unfold print_array in *.
  rewrite <-!(assoc_L (++)). simpl app.
  destruct (decide (ps = [])) as [->|Hne].
  - inv H. cbn [parse_value skip_space join_bytes app]. change (json_space 91) with false.
    change (json_space 93) with false. cbv iota.
    rewrite (proj2 (Z.leb_gt _ _)) by done. eexists. split; [done|]. by eexists _, [].
  - rewrite parse_array_open; [|done|by eapply join_bytes_opens].
    rewrite !length_app in Hf. simpl in Hf.
    destruct (parse_items_reads _ _ _ fuel rest H Hne) as (js & -> & Hvs); [lia|].
    cbn. eexists. split; [done|]. by eexists _, js.
Qed.

(** A field of an object and what its value satisfies. *)
Definition reads_field (depth : Z) (f : string * list Z) (kK : string * (json → Prop)) : Prop :=
  kK.1 = clean f.1 ∧ reads depth f.2 kK.2.
Definition has_field (kK : string * (json → Prop)) (kj : string * json) : Prop :=
  kj.1 = kK.1 ∧ kK.2 kj.2.

Lemma parse_members_reads depth fs Ks fuel rest :
  Forall2 (reads_field depth) fs Ks → fs ≠ [] →
  (2 * length (join_bytes 44 (print_field <$> fs)) ≤ fuel)%nat →
  ∃ ms, parse_members fuel depth (join_bytes 44 (print_field <$> fs) ++ 125 :: rest) = Some (ms, rest) ∧
        Forall2 has_field Ks ms.
Proof.
  intros H. revert fuel. induction H as [|[k p] [k' K] fs Ks [Hk [[Ho _] Hp]] Hfs IH];
    [done|].
  simpl in Hk, Ho, Hp. subst k'. intros fuel _ Hf. destruct fuel as [|fuel].
  { rewrite fmap_cons, join_cons, length_app in Hf. unfold print_field in Hf.
    rewrite print_string_tail in Hf. simpl in Hf. lia. }
  destruct fs as [|f fs].
  - inv Hfs. clear IH. cbn [fst snd] in *.
    change (join_bytes 44 (print_field <$> [(k, p)])) with (print_field (k, p) ++ []) in *.
    rewrite app_nil_r in *. unfold print_field in *. cbn [fst snd] in *.
    rewrite print_string_tail in *. cbn [app] in Hf.
    repeat (rewrite ?length_app in Hf; cbn [length] in Hf).
    destruct (Hp fuel (125 :: rest)) as (j & Hj & Hv); [lia|simpl; tauto|].
    cbn [app parse_members skip_space]. change (json_space 34) with false. cbv iota.
    rewrite <-(assoc_L (++)), scan_tail. cbn [mbind option_bind app skip_space].
    change (json_space 58) with false. cbv iota. rewrite Hj. cbn.
    exists [(to_valid_utf8 (sanitize (bytes k)), j)]. split; [done|].
    constructor; [split; [apply to_valid_sanitize|done]|constructor].
  - rewrite !fmap_cons, join_cons_cons, <-!fmap_cons in *.
    unfold print_field at 1. unfold print_field at 1 in Hf. simpl fst in *. simpl snd in *.
    rewrite print_string_tail in *. cbn [app] in Hf.
    repeat (rewrite ?length_app in Hf; cbn [length] in Hf).
    destruct (IH fuel) as (ms & Hms & Hvs); [done|lia|].
    destruct (Hp fuel (44 :: join_bytes 44 (print_field <$> f :: fs) ++ 125 :: rest))
      as (j & Hj & Hv); [lia|simpl; tauto|].
    rewrite <-!(assoc_L (++)). cbn [app parse_members skip_space].
    change (json_space 34) with false. cbv iota.
    rewrite scan_tail. cbn [mbind option_bind app skip_space].
    change (json_space 58) with false. cbv iota. rewrite Hj.
    cbn [mbind option_bind skip_space]. change (json_space 44) with false. cbv iota.
    rewrite Hms. cbn. exists ((to_valid_utf8 (sanitize (bytes k)), j) :: ms). split; [done|].
    constructor; [split; [apply to_valid_sanitize|done]|done].
Qed.

Lemma reads_struct depth fs Ks :
  depth < max_depth → Forall2 (reads_field (depth + 1)) fs Ks →
  reads depth (print_struct fs) (λ j, ∃ raw ms, j = JObject raw ms ∧ Forall2 has_field Ks ms).
Proof.
  intros Hd H. apply reads_fuel; [done| |].
  { apply Forall_app_2; [by repeat constructor|]. apply Forall_app_2; [|by repeat constructor].
    apply join_bytes_byte; [done|].
    induction H as [|f kv fs kvs [_ [[_ Hb] _]] _ IH]; csimpl; constructor; [|done].
    apply Forall_app_2; [apply print_string_byte|by constructor]. }
  intros fuel rest Hf _. unfold print_struct in *.
  rewrite <-!(assoc_L (++)). simpl app.
  destruct (decide (fs = [])) as [->|Hne].
  - inv H. cbn [parse_value skip_space join_bytes fmap list_fmap app].
    change (json_space 123) with false. change (json_space 125) with false. cbv iota.
    rewrite (proj2 (Z.leb_gt _ _)) by done. eexists. split; [done|]. by eexists _, [].
  - rewrite parse_object_open; [|done|]; last first.
    { apply opens_app. destruct fs as [|f fs]; [done|]. by csimpl. }
    rewrite !length_app in Hf. simpl in Hf.
    destruct (parse_members_reads _ _ _ fuel rest H Hne) as (ms & -> & Hvs); [lia|].
    cbn. eexists. split; [done|]. by eexists _, ms.
Qed.

(** The side conditions of [reads_struct] for a concrete list of fields, down to the values;
    and the members of an object that was read from them, one by one. *)
Ltac read_fields :=
  repeat lazymatch goal with
  | |- Forall2 _ (_ :: _) _ => apply Forall2_cons_2; [split; [reflexivity|]|]
  | |- Forall2 _ [] _ => apply Forall2_nil_2
  end.
Ltac split_fields :=
  repeat match goal with H : Forall2 has_field _ _ |- _ => inv H end;
  repeat match goal with
  | H : has_field _ ?m |- _ => destruct m; destruct H as [?%eq_sym ?]; simpl in *; subst
  | H : is_text _ _ |- _ => destruct H as [? ->]
  end.

(** ** Numbers *)

Lemma digit_range d : 0 ≤ d < 10 → is_digit (digit d) = true ∧ digit d = 48 + d.
Proof. intros H. unfold digit, is_digit. rewrite (proj2 (Z.ltb_lt d 10)), within_true by lia. lia. Qed.

Lemma digits_fuel_S fuel n :
  digits_fuel (S fuel) 10 n =
  if n <? 10 then [digit n] else digits_fuel fuel 10 (n / 10) ++ [digit (n mod 10)].
Proof. done. Qed.

Lemma digits_fuel_spec fuel n :
  0 ≤ n < 10 ^ Z.of_nat (S fuel) →
  Forall (λ b, is_digit b = true) (digits_fuel (S fuel) 10 n) ∧
  (n < 10 ∧ digits_fuel (S fuel) 10 n = [48 + n] ∨
   ∃ b l, digits_fuel (S fuel) 10 n = b :: l ∧ 48 < b).
Proof.
  revert n. induction fuel as [|fuel IH]; intros n Hn; rewrite digits_fuel_S;
    destruct (Z.ltb_spec n 10) as [H|H].
  1, 3: destruct (digit_range n) as [Hd Hd']; [lia|]; rewrite Hd' in *; split;
    [by constructor|by left].
  - simpl in Hn. lia.
  - rewrite Nat2Z.inj_succ, Z.pow_succ_r in Hn by lia.
    pose proof (Z.mod_pos_bound n 10). pose proof (Z.div_mod n 10 ltac:(lia)).
    destruct (IH (n / 10)) as [Hf Hh]; [lia|].
    destruct (digit_range (n mod 10)) as [Hd Hd']; [lia|].
    split; [apply Forall_app_2; [done|by constructor]|right].
    destruct Hh as [[Hs ->]|(b & l & -> & Hb)]; cbn [app]; eexists _, _; (split; [done|lia]).
Qed.

Lemma span_digits_app ds rest :
  Forall (λ b, is_digit b = true) ds →
  match rest with [] => True | b :: _ => is_digit b = false end →
  span_digits (ds ++ rest) = (ds, rest).
Proof.
  intros H Hr. induction H as [|d ds Hd _ IH]; simpl.
  - destruct rest as [|b rest]; [done|]. simpl. by rewrite Hr.
  - by rewrite Hd, IH.
Qed.

(** An integer of a Go type is printed as a number. *)
Lemma Itoa_bytes z :
  int64 z →
  ∃ ds, bytes (Itoa z) = (if z <? 0 then 45 :: ds else ds) ∧
        Forall (λ b, is_digit b = true) ds ∧ (ds = [48] ∨ ∃ b l, ds = b :: l ∧ 48 < b).
Proof.
  intros Hz. unfold int64, min_int64, max_int64 in Hz.
  assert (10 ^ Z.of_nat 64 > 2 ^ 63) as Hp by reflexivity.
  exists (digits 10 (Z.abs z)). unfold digits.
  destruct (digits_fuel_spec 63 (Z.abs z)) as [Hf Hh]; [lia|]. split_and!; [|done|].
  - unfold Itoa, FormatInt. rewrite bytes_of_bytes.
    + unfold digits. destruct (Z.ltb_spec z 0); [by rewrite Z.abs_neq by lia|by rewrite Z.abs_eq by lia].
    + assert (∀ m, 0 ≤ m ≤ 2 ^ 63 → Forall is_byte (digits 10 m)) as Hb.
      { intros m Hm. unfold digits. destruct (digits_fuel_spec 63 m) as [Hfm _]; [lia|].
        eapply Forall_impl; [done|]. intros b. unfold is_digit. rewrite within_true.
        unfold is_byte. lia. }
      destruct (Z.ltb_spec z 0); [constructor; [unfold is_byte; lia|]|]; apply Hb; lia.
  - destruct Hh as [[Hs Hd]|(b & l & Hd & Hb)]; [|right; eauto].
    rewrite Hd. destruct (decide (Z.abs z = 0)) as [->|]; [by left|right]. eexists _, _.
    split; [done|lia].
Qed.

Lemma delimited_number rest :
  delimited rest →
  match rest with [] => True | b :: _ => is_digit b = false end ∧
  (match rest with
   | 46 :: l' => let '(frac, r) := span_digits l' in match frac with [] => None | _ => Some r end
   | _ => Some rest
   end = Some rest) ∧
  match rest with
  | e :: _ => (e =? 101) || (e =? 69) = false
  | [] => True
  end.
Proof. by destruct rest as [|b rest]; [|intros [-> | [-> | ->] ] ]. Qed.

Lemma scan_number_int (neg : bool) ds rest :
  Forall (λ b, is_digit b = true) ds → (ds = [48] ∨ ∃ b l, ds = b :: l ∧ 48 < b) → delimited rest →
  scan_number ((if neg then 45 :: ds else ds) ++ rest) = Some rest.
Proof.
  intros Hf Hd Hr. destruct (delimited_number rest Hr) as (Hn & Hp & He).
  assert (ds ≠ []) as Hne by naive_solver.
  assert (match ds ++ rest with 45 :: l' => l' | _ => ds ++ rest end = ds ++ rest) as Hm.
  { destruct Hf as [|d ds Hd1 _]; [done|]. unfold is_digit in Hd1. rewrite within_true in Hd1.
    simpl. destruct d as [|p|p]; [done| |done].
    do 6 (destruct p as [p|p|]; try reflexivity; try (exfalso; lia)). }
  assert (∀ l, l = ds ++ rest → scan_number l = Some rest) as Hpos.
  { intros l ->. unfold scan_number. rewrite Hm, span_digits_app by done.
    assert (∀ A (x y : A), match ds with [] => y | 48 :: _ :: _ => y | _ => x end = x) as Hx.
    { intros A x y. destruct Hd as [-> |(b & k & -> & Hb)]; [done|].
      destruct b as [|p|p]; try done.
      do 6 (destruct p as [p|p|]; try reflexivity; try (exfalso; lia)). }
    etrans; [apply Hx|]. rewrite Hp. cbn [mbind option_bind].
    destruct rest as [|e rest]; [done|]. by rewrite He. }
  destruct neg; [|by apply Hpos]. rewrite <-(Hpos _ eq_refl). unfold scan_number. by rewrite Hm.
Qed.

Lemma reads_int depth z :
  int64 z → reads depth (bytes (Itoa z)) (λ j, j = JNumber (bytes (Itoa z))).
Proof.
  intros Hz. destruct (Itoa_bytes z Hz) as (ds & Eb & Hf & Hd).
  assert (∃ b l, bytes (Itoa z) = b :: l ∧ (b = 45 ∨ is_digit b = true)) as (b & l & Ebl & Hb).
  { rewrite Eb. destruct (z <? 0); [by eauto|]. destruct Hf as [|d ds' Hd' _]; [naive_solver|eauto]. }
  assert (json_space b = false ∧ b ≠ 93 ∧ b ≠ 125) as Ho.
  { unfold is_digit in Hb. rewrite within_true in Hb. unfold json_space. lia. }
  apply reads_fuel; [by rewrite Ebl|apply bytes_range|]. intros fuel rest _ Hr.
  assert (parse_value (S fuel) depth (bytes (Itoa z) ++ rest) =
          r ← scan_number (bytes (Itoa z) ++ rest);
          Some (JNumber (consumed (bytes (Itoa z) ++ rest) r), r)) as ->.
  { rewrite Ebl. cbn [app parse_value skip_space]. rewrite (proj1 Ho).
    unfold is_digit in Hb. rewrite within_true in Hb.
    assert (b = 45 ∨ b = 48 ∨ b = 49 ∨ b = 50 ∨ b = 51 ∨ b = 52 ∨ b = 53 ∨ b = 54 ∨ b = 55 ∨
            b = 56 ∨ b = 57) as Hc by lia.
    by repeat destruct Hc as [-> |Hc]; [..|subst b]. }
  rewrite Eb, scan_number_int by done. cbn. eexists. split; [done|]. by rewrite consumed_app.
Qed.

(** ** Objects in the order of their keys *)

Lemma insert_key_Forall2 {A B} (R : A → B → Prop) k x y l l' :
  R x y → Forall2 (λ a b, a.1 = b.1 ∧ R a.2 b.2) l l' →
  Forall2 (λ a b, a.1 = b.1 ∧ R a.2 b.2) (insert_key k x l) (insert_key k y l').
Proof.
  intros Hxy. induction 1 as [|[k1 a] [k2 b] l l' [Hk Hab] Hl IH]; simpl.
  - by repeat constructor.
  - simpl in Hk, Hab. subst k2. case_match; by repeat constructor.
Qed.

Lemma sort_keys_Forall2 {A B} (R : A → B → Prop) l l' :
  Forall2 (λ a b, a.1 = b.1 ∧ R a.2 b.2) l l' →
  Forall2 (λ a b, a.1 = b.1 ∧ R a.2 b.2) (sort_keys l) (sort_keys l').
Proof.
  induction 1 as [|[k1 a] [k2 b] l l' [Hk Hab] Hl IH]; simpl; [constructor|].
  simpl in Hk. subst k2. by apply insert_key_Forall2.
Qed.

Lemma insert_key_perm {A} k (x : A) l : insert_key k x l ≡ₚ (k, x) :: l.
Proof.
  induction l as [|[k' v] l IH]; simpl; [done|]. case_match; [done|].
  rewrite IH. apply perm_swap.
Qed.
Lemma sort_keys_perm {A} (l : list (string * A)) : sort_keys l ≡ₚ l.
Proof. induction l as [|[k v] l IH]; simpl; [done|]. by rewrite insert_key_perm, IH. Qed.

(** ** Any value without floating-point numbers *)

(** What a printed value reads back as: text cleaned, integers as their decimal text,
    objects in the order of their keys. *)
Fixpoint norm (v : value) : value :=
  match v with
  | VInt z => VRaw (Itoa z)
  | VString s => VString (clean s)
  | VArray items => VArray (norm <$> items)
  | VObject ms => VObject ((λ kv, (clean kv.1, kv.2)) <$>
                           sort_keys ((λ kv, (kv.1, norm kv.2)) <$> ms))
  | v => v
  end.

Fixpoint plain (v : value) : Prop :=
  match v with
  | VFloat _ | VRaw _ => False
  | VInt z => int64 z
  | VArray items => (fix all l := match l with [] => True | v :: l => plain v ∧ all l end) items
  | VObject ms =>
      (fix all l := match l with [] => True | (_, v) :: l => plain v ∧ all l end) ms
  | _ => True
  end.

(** How deep arrays and objects are nested. *)
Fixpoint nesting (v : value) : nat :=
  match v with
  | VArray items =>
      S ((fix go l := match l with [] => O | v :: l => Nat.max (nesting v) (go l) end) items)
  | VObject ms =>
      S ((fix go l := match l with [] => O | (_, v) :: l => Nat.max (nesting v) (go l) end) ms)
  | _ => O
  end.

Lemma value_reads v depth :
  plain v → depth + Z.of_nat (nesting v) ≤ max_depth →
  ∃ p, print_value v = Some p ∧ reads depth p (λ j, erase j = norm v).
Proof.
  revert depth. induction v as [|b|z|f|s|s|items IH|ms IH] using value_ind; intros depth Hp Hd.
  - eexists. split; [done|]. eapply reads_mono, reads_null. by intros j [raw ->].
  - eexists. split; [done|]. eapply reads_mono, reads_bool. by intros j [raw ->].
  - eexists. split; [done|]. eapply reads_mono, reads_int; [|done]. intros j ->. cbn.
    by rewrite of_bytes_bytes.
  - done.
  - eexists. split; [done|]. eapply reads_mono, reads_string. by intros j [raw ->].
  - done.
  - cbn [nesting] in Hd. cbn [plain] in Hp.
    assert (∃ ps, (fix go l := match l with
                           | [] => Some []
                           | v :: l => p ← print_value v; ps ← go l; Some (p :: ps)
                           end) items = Some ps ∧
            Forall2 (reads (depth + 1)) ps ((λ v j, erase j = norm v) <$> items)) as (ps & Eps & HF).
    { induction IH as [|v items Hv _ IHl]; [by eexists|]. destruct Hp as [Hp1 Hp2].
      destruct (Hv (depth + 1)) as (p & Ep & Hr); [done|lia|].
      destruct IHl as (ps & Eps & HF); [done|lia|]. exists (p :: ps). split; [|by constructor].
      rewrite Ep. cbn [mbind option_bind]. by rewrite Eps. }
    exists (print_array ps). split; [cbn [print_value]; by rewrite Eps|].
    eapply reads_mono, reads_array; [|lia|done]. intros j (raw & js & -> & Hjs). cbn. f_equal.
    clear -Hjs. revert js Hjs. induction items as [|v items IH]; intros js Hjs; inv Hjs; [done|].
    csimpl. f_equal; [done|]. by apply IH.
  - cbn [nesting] in Hd. cbn [plain] in Hp.
    assert (∃ ps, (fix go l := match l with
                           | [] => Some []
                           | (k, v) :: l => p ← print_value v; ps ← go l; Some ((k, p) :: ps)
                           end) ms = Some ps ∧
            Forall2 (λ a b, a.1 = b.1 ∧ reads (depth + 1) a.2 (λ j, erase j = b.2)) ps
              ((λ kv, (kv.1, norm kv.2)) <$> ms)) as (ps & Eps & HF).
    { induction IH as [|[k v] items Hv _ IHl]; [by eexists|]. destruct Hp as [Hp1 Hp2].
      destruct (Hv (depth + 1)) as (p & Ep & Hr); [done|simpl; lia|].
      destruct IHl as (ps & Eps & HF); [done|lia|]. exists ((k, p) :: ps).
      split; [|by constructor]. simpl in Ep. rewrite Ep. cbn [mbind option_bind]. by rewrite Eps. }
    exists (print_struct (sort_keys ps)). split; [cbn [print_value]; by rewrite Eps|].
    apply (sort_keys_Forall2 (λ p v, reads (depth + 1) p (λ j, erase j = v))) in HF.
    cbn [norm]. set (kvs := sort_keys ((λ kv, (kv.1, norm kv.2)) <$> ms)) in *.
    eapply reads_mono, (reads_struct _ _ ((λ kv, (clean kv.1, λ j, erase j = kv.2)) <$> kvs)); [|lia|].
    + intros j (raw & js & -> & Hjs). cbn. f_equal. clear -Hjs. revert js Hjs.
      induction kvs as [|[k v] kvs IH]; intros [|[k' j] js] Hjs; inv Hjs; [done|]. csimpl.
      match goal with H : has_field _ _ |- _ => destruct H as [Hk Hv] end.
      simpl in Hk, Hv. subst. f_equal. by apply IH.
    + clear -HF. induction HF as [|[k p] [k' v] fs kvs [Hk Hr] _ IHf]; csimpl; constructor; [|done].
      split; [|done]. simpl in *. by subst.
Qed.

(** ** What printed values decode to *)

(** A printed integer decodes as itself. *)
Lemma parse_digits_app acc ds l :
  Forall (λ b, is_digit b = true) ds →
  parse_digits acc (ds ++ l) = parse_digits (foldl (λ acc d, acc * 10 + (d - 48)) acc ds) l.
Proof.
  intros H. revert acc. induction H as [|d ds Hd _ IH]; intros acc; [done|]. simpl.
  unfold is_digit in Hd. rewrite Hd. apply IH.
Qed.

Lemma digits_fuel_value fuel n :
  0 ≤ n < 10 ^ Z.of_nat (S fuel) →
  foldl (λ acc d, acc * 10 + (d - 48)) 0 (digits_fuel (S fuel) 10 n) = n.
Proof.
  revert n. induction fuel as [|fuel IH]; intros n Hn; rewrite digits_fuel_S;
    destruct (Z.ltb_spec n 10) as [H|H].
  1, 3: destruct (digit_range n) as [_ Hd]; [lia|]; cbn [foldl]; rewrite Hd; lia.
  - simpl in Hn. lia.
  - rewrite Nat2Z.inj_succ, Z.pow_succ_r in Hn by lia.
    pose proof (Z.mod_pos_bound n 10). pose proof (Z.div_mod n 10 ltac:(lia)).
    rewrite foldl_app, IH by lia. cbn [foldl].
    destruct (digit_range (n mod 10)) as [_ Hd]; [lia|]. rewrite Hd. lia.
Qed.

Lemma parse_int_Itoa z : int64 z → parse_int (bytes (Itoa z)) = Some z.
Proof.
  intros Hz. pose proof Hz as Hz'. unfold int64, min_int64, max_int64 in Hz'.
  assert (10 ^ Z.of_nat 64 > 2 ^ 63) as Hp by reflexivity.
  destruct (digits_fuel_spec 63 (Z.abs z)) as [Hf Hh]; [lia|].
  assert (parse_digits 0 (digits 10 (Z.abs z)) = Some (Z.abs z)) as Hv.
  { rewrite <-(app_nil_r (digits 10 (Z.abs z))). unfold digits. rewrite parse_digits_app by done.
    cbn [parse_digits]. f_equal. apply digits_fuel_value. lia. }
  unfold Itoa, FormatInt. rewrite bytes_of_bytes.
  2: { destruct (Z.ltb_spec z 0) as [Hs|Hs].
       - rewrite <-(Z.abs_neq z) by lia. constructor; [unfold is_byte; lia|].
         eapply Forall_impl; [exact Hf|]. intros b. unfold is_digit. rewrite within_true. unfold is_byte. lia.
       - rewrite <-(Z.abs_eq z) at 1 by lia.
         eapply Forall_impl; [exact Hf|]. intros b. unfold is_digit. rewrite within_true. unfold is_byte. lia. }
  unfold parse_int. destruct (Z.ltb_spec z 0) as [Hs|Hs].
  - rewrite <-(Z.abs_neq z) by lia. rewrite Hv. cbn [mbind option_bind].
    rewrite (Z.abs_neq z) by lia. rewrite Z.opp_involutive.
    unfold min_int64, max_int64. by rewrite (proj2 (Z.leb_le _ _)), (proj2 (Z.leb_le _ _)) by lia.
  - rewrite Z.abs_eq in Hv, Hf, Hh by lia.
    assert (∀ {A} (x y : list Z → A) l, Forall (λ b, is_digit b = true) l →
      match l with 45 :: ds => x ds | _ => y l end = y l) as Hm.
    { intros A x y l Hl. destruct Hl as [|b l Hb _]; [done|]. unfold is_digit in Hb.
      rewrite within_true in Hb. destruct b as [|p|p]; [done| |done].
      do 6 (destruct p as [p|p|]; try reflexivity; try (exfalso; lia)). }
    rewrite (Hm _ (λ ds, (true, ds)) (λ l, (false, l))) by exact Hf.
    rewrite Hv. cbn [mbind option_bind].
    unfold min_int64, max_int64. by rewrite (proj2 (Z.leb_le _ _)), (proj2 (Z.leb_le _ _)) by lia.
Qed.

Definition decodes {A} (dec : json → A → result A) (v : A) (j : json) : Prop :=
  ∀ old, dec j old = Ok v.

Lemma reads_number depth z : int64 z → reads depth (bytes (Itoa z)) (decodes decode_int z).
Proof.
  intros Hz. eapply reads_mono, reads_int; [|done]. intros j -> old. unfold decode_int.
  by rewrite parse_int_Itoa.
Qed.

Lemma reads_text depth s : reads depth (print_string s) (decodes decode_string (clean s)).
Proof. eapply reads_mono, reads_string. by intros j [raw ->] old. Qed.
