(* ===== verification/Tool.v ===== *)
(** * [internal/tool/tool.go]: tools and their registry

    The registry's methods hold its lock, so each is one transition of its map. *)

From S2P Require Import Prelude GoLang GoString Domain.
Open Scope Z_scope.

(** [tool.Definition]: what the model is told about a tool. *)
Module ToolDefinition.
Record t := mk { Name : string; Description : string; Schema : list (string * value) }.

#[global] Instance eq_dec : EqDecision t.
Proof.
  assert (EqDecision value) by exact Domain.value_eq_dec. solve_decision.
Defined.
End ToolDefinition.

(** The interface [tool.Tool]: a definition and a call, which may depend on the
    context, the time, and whatever else distinguishes one call from another. *)
Record Tool := mkTool {
  Definition_ : ToolDefinition.t;
  Execute_ : Call → string → result value
}.

Definition tool_name (t : Tool) : string := ToolDefinition.Name (Definition_ t).

Module Registry.
Abbreviation t := (gmap string Tool).

Section registry.
Context `{Unicode}.

Definition Register (item : Tool) (r : t) : option error * t :=
  let definition := Definition_ item in
  if decide (ToolDefinition.Name definition = "")
  then (Some (ErrorString "tool name is required"), r)
  else match r !! ToolDefinition.Name definition with
       | Some _ => (Some (ErrorString ("tool " +:+ Quote (ToolDefinition.Name definition) +:+
                                       " already registered")), r)
       | None => (None, <[ToolDefinition.Name definition := item]> r)
       end.

(** The loop of [NewRegistry] over the remaining tools. *)
Fixpoint register_all (tools : list Tool) (r : t) : result t :=
  match tools with
  | [] => Ok r
  | item :: tools => match Register item r with
                     | (Some err, _) => Err err
                     | (None, r) => register_all tools r
                     end
  end.

Definition NewRegistry (tools : list Tool) : result t := register_all tools ∅.
End registry.

Definition Get (name : string) (r : t) : option Tool := r !! name.

Fixpoint Definitions (names : list string) (r : t) : list ToolDefinition.t :=
  match names with
  | [] => []
  | name :: names => match r !! name with
                     | Some item => Definition_ item :: Definitions names r
                     | None => Definitions names r
                     end
  end.
End Registry.

(** ** Properties *)

Section properties.
Context `{Unicode}.
Implicit Types (r : Registry.t) (item t : Tool) (tools : list Tool).

(** Tools are filed under their own, non-empty names. *)
Definition registry_wf (r : Registry.t) : Prop :=
  ∀ n t, r !! n = Some t → tool_name t = n ∧ n ≠ "".

Lemma Register_ok item (r : Registry.t) :
  tool_name item ≠ "" → r !! tool_name item = None →
  Registry.Register item r = (None, <[tool_name item := item]> r).
Proof.
  intros Hn Hr. unfold Registry.Register. fold (tool_name item).
  by rewrite decide_False, Hr.
Qed.

Lemma Register_fails item (r : Registry.t) :
  tool_name item = "" ∨ is_Some (r !! tool_name item) →
  ∃ e, Registry.Register item r = (Some e, r).
Proof.
  intros Ho. unfold Registry.Register. fold (tool_name item).
  case_decide; [eauto|]. destruct Ho as [|[t Ht]]; [done|]. rewrite Ht. eauto.
Qed.

Lemma Register_dec item (r : Registry.t) :
  (tool_name item ≠ "" ∧ r !! tool_name item = None) ∨
  (tool_name item = "" ∨ is_Some (r !! tool_name item)).
Proof.
  destruct (decide (tool_name item = "")), (r !! tool_name item); eauto.
Qed.

Lemma register_all_spec tools (r : Registry.t) :
  (∃ r', Registry.register_all tools r = Ok r') ↔
  Forall (λ t, tool_name t ≠ "" ∧ r !! tool_name t = None) tools ∧
  NoDup (tool_name <$> tools).
Proof.
  revert r. induction tools as [|t tools IH]; intros r; simpl.
  { split; [by repeat constructor|eauto]. }
  destruct (Register_dec t r) as [[Hn Hr]|Hf].
  - rewrite Register_ok by done. rewrite IH, Forall_cons, NoDup_cons. split.
    + intros [HF HN]. split_and!; try done.
      * eapply Forall_impl; [exact HF|]. intros u [Hu Hl]. split; [done|].
        apply lookup_insert_None in Hl. tauto.
      * intros (u & Hu & Hi)%list_elem_of_fmap. rewrite Forall_forall in HF.
        destruct (HF u Hi) as [_ Hl]. rewrite <-Hu, lookup_insert_eq in Hl. done.
    + intros [[_ HF] [Hi HN]]. split; [|done]. rewrite Forall_forall in *.
      intros u Hu. destruct (HF u Hu) as [Hn' Hl]. split; [done|].
      rewrite lookup_insert_ne; [done|]. intros E. apply Hi.
      apply list_elem_of_fmap. by exists u.
  - destruct (Register_fails t r Hf) as [e ->]. rewrite Forall_cons.
    split; [by intros [? ?]|]. intros [[[Hn Hr] _] _].
    destruct Hf as [|[? Hs]]; [done|by rewrite Hs in Hr].
Qed.

Lemma register_all_lookup tools (r r' : Registry.t) n :
  Registry.register_all tools r = Ok r' →
  (∀ t, r !! n = Some t → r' !! n = Some t) ∧
  (∀ t, r' !! n = Some t → r !! n = Some t ∨ (t ∈ tools ∧ tool_name t = n)) ∧
  (∀ t, t ∈ tools → tool_name t = n → r' !! n = Some t).
Proof.
  revert r. induction tools as [|u tools IH]; intros r; simpl.
  { intros [= ->]. split_and!; [done|by left|]. intros t Ht. by apply not_elem_of_nil in Ht. }
  destruct (Register_dec u r) as [[Hn Hr]|Hf].
  - rewrite Register_ok by done. intros Hi. destruct (IH _ Hi) as (A & B & C).
    split_and!.
    + intros t Ht. apply A. rewrite lookup_insert_ne; [done|congruence].
    + intros t Ht. destruct (B t Ht) as [Hl|[Ht' Hu]].
      * rewrite lookup_insert_case in Hl. case_decide; simplify_eq; [|by left].
        right. split; [left|done].
      * right. split; [by right|done].
    + intros t Ht Hu. apply elem_of_cons in Ht as [->|Ht]; [|by apply C].
      apply A. rewrite <-Hu. apply lookup_insert_eq.
  - destruct (Register_fails u r Hf) as [e ->]. done.
Qed.

(** [NewRegistry] succeeds exactly when every tool has a name and no two the same, and
    then [Get] finds each tool under its name and nothing else. *)
Theorem NewRegistry_spec tools :
  ((∃ r, Registry.NewRegistry tools = Ok r) ↔
   Forall (λ t, tool_name t ≠ "") tools ∧ NoDup (tool_name <$> tools)) ∧
  (∀ r name item, Registry.NewRegistry tools = Ok r →
     Registry.Get name r = Some item ↔ item ∈ tools ∧ tool_name item = name).
Proof.
  split.
  - unfold Registry.NewRegistry. rewrite register_all_spec. f_equiv.
    apply Forall_proper; [|done]. intros t. naive_solver.
  - intros r n t Hr. destruct (register_all_lookup _ _ _ n Hr) as (_ & B & C).
    unfold Registry.Get. split; [|naive_solver].
    intros Ht. destruct (B t Ht) as [E|]; [|done]. by rewrite lookup_empty in E.
Qed.

(** [Register] keeps the registry well formed and never replaces or removes a
    tool; when it reports an error nothing has changed, and when it does not, the
    tool can be found under its name, which was free before. *)
Theorem Register_invariant item r :
  registry_wf r →
  let '(err, r') := Registry.Register item r in
  registry_wf r' ∧
  (∀ n t, Registry.Get n r = Some t → Registry.Get n r' = Some t) ∧
  match err with
  | Some _ => r' = r
  | None => Registry.Get (tool_name item) r = None ∧
            Registry.Get (tool_name item) r' = Some item
  end.
Proof.
  intros Hwf. unfold Registry.Get. destruct (Register_dec item r) as [[Hn Hr]|Hf].
  - rewrite Register_ok by done. split_and!.
    + intros n t. rewrite lookup_insert_case. case_decide; [|apply Hwf].
      intros [= <-]. by subst.
    + intros n t Ht. rewrite lookup_insert_ne; [done|congruence].
    + done.
    + apply lookup_insert_eq.
  - destruct (Register_fails item r Hf) as [e ->]. by split_and!.
Qed.
End properties.

Lemma Definitions_elem names (r : Registry.t) d :
  d ∈ Registry.Definitions names r ↔
  ∃ n t, n ∈ names ∧ r !! n = Some t ∧ Definition_ t = d.
Proof.
  induction names as [|n names IH]; simpl; [set_solver|].
  destruct (r !! n) eqn:E; rewrite ?elem_of_cons, IH; set_solver.
Qed.

#[local] Existing Instance demo_unicode.

Definition named_tool (name : string) : Tool :=
  mkTool (ToolDefinition.mk name "" []) (λ _ _, Err (ErrorString "not used")).

Lemma NewRegistry_spec_witness :
  Registry.NewRegistry [named_tool "a"; named_tool "b"] =
    Ok (<["b" := named_tool "b"]> {["a" := named_tool "a"]}) ∧
  Registry.Get "b" (<["b" := named_tool "b"]> {["a" := named_tool "a"]}) = Some (named_tool "b") ∧
  ¬ ∃ r, Registry.NewRegistry [named_tool "a"; named_tool "a"] = Ok r.
Proof.
  split_and!.
  - reflexivity.
  - apply (NewRegistry_spec [named_tool "a"; named_tool "b"]); [reflexivity|].
    split; [apply list_elem_of_further, list_elem_of_here|reflexivity].
  - intros [_ Hn]%(NewRegistry_spec [named_tool "a"; named_tool "a"]).
    apply NoDup_cons in Hn as [Hn _]. apply Hn, list_elem_of_here.
Defined.

Lemma Register_invariant_witness :
  let '(err, r) := Registry.Register (named_tool "b") {["a" := named_tool "a"]} in
  registry_wf r ∧ err = None ∧ Registry.Get "b" r = Some (named_tool "b").
Proof.
  assert (registry_wf {["a" := named_tool "a"]}) as Hwf.
  { intros n t [<- <-]%lookup_singleton_Some. by split. }
  pose proof (Register_invariant (named_tool "b") _ Hwf) as H. vm_compute Registry.Register in *.
  cbv beta iota in *. destruct H as (Hr & _ & _ & Hg). split_and!; [exact Hr|reflexivity|exact Hg].
Defined.
