(* ===== verification/ToolExamples.v ===== *)
(** * [internal/tool/examples.go]: the calculator and the mock lookups

    Calculator arithmetic is IEEE 754 binary64, as in Go; the lookup normalises its
    query before it looks in the table. *)

From S2P Require Import Prelude GoLang GoString GoJson Tool.
Open Scope Z_scope.

(** The JSON schema of an object with the given properties, all required. *)
Definition object_schema (properties : list (string * value)) (required : list string)
    : list (string * value) :=
  [("type", VString "object"); ("properties", VObject properties);
   ("required", VArray (VString <$> required))].

Definition schema_type (name : string) : value := VObject [("type", VString name)].

Module Calculator.
Definition Definition_ : ToolDefinition.t :=
  ToolDefinition.mk "calculator" "Perform a basic arithmetic operation."
    (object_schema
       [("operation", VObject [("type", VString "string");
           ("enum", VArray (VString <$> ["add"; "subtract"; "multiply"; "divide"]))]);
        ("a", schema_type "number"); ("b", schema_type "number")]
       ["operation"; "a"; "b"]).

(** The struct [Execute] decodes its input into. *)
Definition decode_request (input : string) : result (string * float64 * float64) :=
  ms ← unmarshal_struct input;
  operation ← decode_field decode_string "" "operation" ms;
  a ← decode_field decode_float (S754_zero false) "a" ms;
  b ← decode_field decode_float (S754_zero false) "b" ms;
  Ok (operation, a, b).

Definition is_zero (f : float64) : bool := SFeqb f (S754_zero false).

(** [math.IsInf(f, 0) || math.IsNaN(f)] *)
Definition not_finite (f : float64) : bool :=
  match f with S754_infinity _ | S754_nan => true | S754_zero _ | S754_finite _ _ _ => false end.

Section execute.
Context `{Unicode}.

(** The [switch] and the check of its result. *)
Definition calculate (operation : string) (a b : float64) : result float64 :=
  result ← (if decide (operation = "add") then Ok (SFadd prec64 emax64 a b)
            else if decide (operation = "subtract") then Ok (SFsub prec64 emax64 a b)
            else if decide (operation = "multiply") then Ok (SFmul prec64 emax64 a b)
            else if decide (operation = "divide") then
              if is_zero b then Err (ErrorString "division by zero")
              else Ok (SFdiv prec64 emax64 a b)
            else Err (ErrorString ("unsupported operation " +:+ Quote operation)));
  if not_finite result then Err (ErrorString "result is not finite") else Ok result.

Definition Execute (_ : Call) (input : string) : result value :=
  match decode_request input with
  | Err err => Err (Wrap "decode calculator input" err)
  | Ok (operation, a, b) =>
      result ← calculate operation a b; Ok (VObject [("result", VFloat result)])
  end.

Definition tool : Tool := mkTool Definition_ Execute.
End execute.
End Calculator.

Module MockLookup.
Record t := mk { Name : string; Description : string; Results : gmap string string }.

Definition Definition_ (m : t) : ToolDefinition.t :=
  ToolDefinition.mk (Name m) (Description m)
    (object_schema [("query", schema_type "string")] ["query"]).

Definition answer (text : string) : value :=
  VObject [("result", VString text); ("source", VString "mock")].

Section execute.
Context `{Unicode}.

(** The query as the table is searched for it. *)
Definition normalise (query : string) : string := TrimSpace (ToLower query).

Definition Execute (m : t) (c : Call) (input : string) : result value :=
  match call_err c with
  | Some err => Err err
  | None =>
      match (ms ← unmarshal_struct input; decode_field decode_string "" "query" ms) with
      | Err err => Err (Wrap ("decode " +:+ Name m +:+ " input") err)
      | Ok q =>
          let query := normalise q in
          if decide (query = "") then Err (ErrorString "query is required")
          else match Results m !! query with
               | Some text => Ok (answer text)
               | None => Ok (answer "No matching mock result")
               end
      end
  end.

Definition tool (m : t) : Tool := mkTool (Definition_ m) (Execute m).
End execute.
End MockLookup.

Definition DefaultTools `{Unicode} : list Tool :=
  Calculator.tool ::
  (MockLookup.tool <$>
   [MockLookup.mk "web_search" "Search a deterministic local web index."
      {["agent observability" :=
          "Tracing, metrics, logs, evaluations, and cost attribution for agent runs."]};
    MockLookup.mk "weather" "Get mock weather data." {["mumbai" := "29C, partly cloudy"]};
    MockLookup.mk "database_query" "Query an approved read-only mock dataset."
      {["active agents" := "12"]};
    MockLookup.mk "company_api" "Call an internal company API mock."
      {["service status" := "all systems operational"]}]).

(** ** Properties *)

Section properties.
Context `{Unicode}.

Lemma calculate_finite op a b f :
  Calculator.calculate op a b = Ok f → Calculator.not_finite f = false.
Proof.
  unfold Calculator.calculate, mbind, result_bind. intros E.
  destruct (if decide (op = "add") then _ else _) as [r|e]; [|done].
  destruct (Calculator.not_finite r) eqn:Hr; by simplify_eq.
Qed.

Lemma Marshal_result f :
  Calculator.not_finite f = false →
  ∃ text, Marshal (VObject [("result", VFloat f)]) = Ok text.
Proof.
  intros Hf. unfold Marshal, print_value.
  assert (∃ l, print_float f = Some l) as [l ->].
  { destruct f as [s|s| |s m e]; try done; [by eexists|]. unfold print_float.
    destruct (shortest_digits m e) as [ds p]. by eexists. }
  by eexists.
Qed.

(** Whatever bytes the model sends as arguments, the calculator either answers with an
    error or with a finite number, and an answer can always be encoded for the
    model: the engine's encoding step never fails on it. *)
Theorem calculator_safe c input v :
  Calculator.Execute c input = Ok v →
  ∃ op a b f text,
    Calculator.decode_request input = Ok (op, a, b) ∧
    v = VObject [("result", VFloat f)] ∧ Calculator.not_finite f = false ∧
    (op = "divide" → Calculator.is_zero b = false) ∧ Marshal v = Ok text.
Proof.
  unfold Calculator.Execute.
  destruct (Calculator.decode_request input) as [[[op a] b]|e]; [|done].
  destruct (Calculator.calculate op a b) as [f|e] eqn:E; simpl; [|done]. intros [= <-].
  pose proof (calculate_finite _ _ _ _ E) as Hf.
  destruct (Marshal_result f Hf) as [text Ht].
  exists op, a, b, f, text. split_and!; try done.
  intros ->. unfold Calculator.calculate in E. simpl in E.
  by destruct (Calculator.is_zero b).
Qed.

(** A key no query can be normalised to. *)
Definition has_upper (s : string) : Prop := ∃ b, b ∈ bytes s ∧ 65 ≤ b ≤ 90.

Lemma normalise_no_upper (Hl : ∀ r, ¬ (65 ≤ unicode_lower r ≤ 90)) q :
  ¬ has_upper (MockLookup.normalise q).
Proof.
  intros (b & Hb & Hr). apply TrimSpace_elem in Hb. unfold ToLower in Hb.
  rewrite bytes_of_bytes in Hb.
  - apply list_elem_of_In, in_concat in Hb as (bs & Hbs & Hb).
    rewrite <-!list_elem_of_In in *.
    apply list_elem_of_fmap in Hbs as (r & -> & _).
    destruct (encode_rune_cases (rune_lower (rune_of r))) as [[_ E]|E].
    + rewrite E, list_elem_of_singleton in Hb. subst b.
      unfold rune_lower, within in Hr. specialize (Hl (rune_of r)).
      revert Hr. repeat case_cmp; lia.
    + rewrite Forall_forall in E. specialize (E b Hb). lia.
  - apply Forall_concat, Forall_fmap, Forall_true. intros r. apply encode_rune_range.
Qed.

(** A lookup normalises its query to lower case but not the keys of its table: an
    entry whose key has an ASCII capital is never found; the tool answers every
    input as if the entry were not there. *)
Theorem lookup_upper_case_unreachable (Hl : ∀ r, ¬ (65 ≤ unicode_lower r ≤ 90))
    name description results key c input :
  has_upper key →
  MockLookup.Execute (MockLookup.mk name description results) c input =
  MockLookup.Execute (MockLookup.mk name description (delete key results)) c input.
Proof.
  intros Hk. unfold MockLookup.Execute. simpl.
  destruct (call_err c); [done|]. destruct (unmarshal_struct input ≫= _) as [q|e]; [|done].
  case_decide; [done|]. rewrite lookup_delete_ne; [done|].
  intros ->. by apply (normalise_no_upper Hl q).
Qed.
End properties.

#[local] Existing Instance demo_unicode.

(** [{] [fields] [}], from fields of the form [name: value], with JSON quotes. *)
Definition quoted (s : string) : string := of_bytes (34 :: bytes s ++ [34]).
Definition demo_object (fields : list (string * string)) : string :=
  of_bytes ([123] ++ join_bytes 44 ((λ kv, bytes (quoted kv.1) ++ 58 :: bytes kv.2) <$> fields)
                  ++ [125]).

Definition demo_here : Call := mkCall Background 1000 0.

Lemma calculator_safe_witness :
  let input := demo_object [("operation", quoted "divide"); ("a", "7"); ("b", "2e0")] in
  let v := VObject [("result", VFloat (S754_finite false 7881299347898368 (-51)))] in
  Calculator.Execute demo_here input = Ok v ∧
  (∃ op a b f text, Calculator.decode_request input = Ok (op, a, b) ∧
     v = VObject [("result", VFloat f)] ∧ Calculator.not_finite f = false ∧
     (op = "divide" → Calculator.is_zero b = false) ∧ Marshal v = Ok text) ∧
  Marshal v = Ok (demo_object [("result", "3.5")]).
Proof.
  split; [vm_compute; reflexivity|]. split; [|vm_compute; reflexivity].
  apply (calculator_safe demo_here
           (demo_object [("operation", quoted "divide"); ("a", "7"); ("b", "2e0")])).
  vm_compute. reflexivity.
Defined.

Lemma lookup_upper_case_unreachable_witness :
  let input := demo_object [("query", quoted "Paris")] in
  MockLookup.Execute (MockLookup.mk "weather" "" {["Paris" := "18C"]}) demo_here input =
  MockLookup.Execute (MockLookup.mk "weather" "" (delete "Paris" {["Paris" := "18C"]}))
    demo_here input ∧
  MockLookup.Execute (MockLookup.mk "weather" "" {["Paris" := "18C"]}) demo_here input =
    Ok (MockLookup.answer "No matching mock result").
Proof.
  split; [|vm_compute; reflexivity].
  apply (lookup_upper_case_unreachable).
  - intros r. simpl. lia.
  - exists 80. split; [|lia]. vm_compute. repeat constructor.
Defined.
