(* ===== verification/Llm.v ===== *)
(** * [internal/llm]: the provider interface and the mock provider *)

From S2P Require Import Prelude GoLang GoString Tool.
Open Scope Z_scope.

(** [llm.Message]. *)
Module ChatMessage.
Record t := mk { Role : string; Content : string; Name : string; ToolCallID : string }.

#[global] Instance eq_dec : EqDecision t.
Proof. solve_decision. Defined.
End ChatMessage.

Module ToolCall.
Record t := mk { ID : string; Name : string; Arguments : string }.

#[global] Instance eq_dec : EqDecision t.
Proof. solve_decision. Defined.
End ToolCall.

Module Request.
Record t := mk {
  Model : string;
  SystemPrompt : string;
  Messages : list ChatMessage.t;
  Tools : list ToolDefinition.t;
  Temperature : float64;
  MaxTokens : Z
}.

#[global] Instance eq_dec : EqDecision t.
Proof. solve_decision. Defined.
End Request.

Module Usage.
Record t := mk { PromptTokens : Z; OutputTokens : Z }.

#[global] Instance eq_dec : EqDecision t.
Proof. solve_decision. Defined.
End Usage.

Module Response.
Record t := mk {
  Content : string;
  ToolCalls : list ToolCall.t;
  Usage_ : Usage.t;
  Model : string
}.

#[global] Instance eq_dec : EqDecision t.
Proof. solve_decision. Defined.
End Response.

(** The interface [llm.Provider]. *)
Definition Provider : Type := Call → Request.t → result Response.t.

(** A provider that never reports negative usage. *)
Definition sane_usage (r : Response.t) : Prop :=
  0 ≤ Usage.PromptTokens (Response.Usage_ r) ∧ 0 ≤ Usage.OutputTokens (Response.Usage_ r).
Definition sane_provider (p : Provider) : Prop :=
  ∀ c req r, p c req = Ok r → sane_usage r.

Module Mock.
Definition Complete : Provider := λ c request,
  match call_err c with
  | Some err => Err err
  | None =>
      match last (Request.Messages request) with
      | None => Err (ErrorString "at least one message is required")
      | Some m =>
          let n := len (ChatMessage.Content m) in
          Ok (Response.mk ("Mock response: " +:+ ChatMessage.Content m) []
                (Usage.mk (n / 4) (n / 4 + 3)) (Request.Model request))
      end
  end.

Lemma Complete_sane : sane_provider Complete.
Proof.
  intros c req r. unfold Complete. destruct (call_err c); [done|].
  destruct (last _) as [m|]; [|done]. intros [= <-]. unfold sane_usage, len. simpl.
  split; [|apply Z.add_nonneg_nonneg; [|done]]; apply Z.div_pos; lia.
Qed.
End Mock.
