(* ===== verification/OpenAi.v ===== *)
(** * [internal/llm/openai.go]: the provider that talks to a chat completions API

    The request is JSON built from maps, the response is decoded into nested structs the
    way [encoding/json] does it.  The HTTP client and the URL parser are parameters
    ([HttpClient]); a response is a status, the bytes of its body, and the error reading ends
    with, if any.  The calculator's arguments, as such an API sends them, are the subject of
    [openai_arguments_unusable]. *)

From S2P Require Import Prelude GoLang GoString Utf8 GoJson JsonFacts Tool ToolExamples Llm.
Open Scope Z_scope.

Module HttpRequest.
Record t := mk { URL : string; Header : list (string * string); Body : string }.
End HttpRequest.

Module HttpResponse.
Record t := mk { StatusCode : Z; Body : list Z; ReadError : option error }.
End HttpResponse.

(** [http.NewRequestWithContext] (an error for a URL that does not parse) and [client.Do]. *)
Class HttpClient := {
  NewRequest : string → option error;
  Do : Call → HttpRequest.t → result HttpResponse.t
}.

(** [io.ReadAll(io.LimitReader(body, n))]: an error after the limit is not seen. *)
Definition read_limited (n : Z) (r : HttpResponse.t) : result (list Z) :=
  if n <=? Z.of_nat (length (HttpResponse.Body r))
  then Ok (take (Z.to_nat n) (HttpResponse.Body r))
  else match HttpResponse.ReadError r with
       | Some err => Err err
       | None => Ok (HttpResponse.Body r)
       end.

(** ** Decoding slices and raw values

    A slice that is decoded into again (a repeated key) reuses its memory: an element
    starts from what was there before, also behind the length of the slice. *)
Record slice (A : Type) := mk_slice { memory : list A; length_ : nat }.
Arguments mk_slice {A}.
Arguments memory {A}.
Arguments length_ {A}.
Definition nil_slice {A} : slice A := mk_slice [] 0.
Definition elements {A} (s : slice A) : list A := take (length_ s) (memory s).

Fixpoint decode_elements {A} (dec : json → A → result A) (zero : A) (items : list json)
    (memory : list A) : result (list A) :=
  match items with
  | [] => Ok memory
  | j :: items =>
      v ← dec j (match memory with v :: _ => v | [] => zero end);
      vs ← decode_elements dec zero items (tail memory);
      Ok (v :: vs)
  end.

Definition decode_slice {A} (dec : json → A → result A) (zero : A) (j : json) (old : slice A)
    : result (slice A) :=
  match j with
  | JNull _ => Ok nil_slice
  | JArray _ [] => Ok nil_slice
  | JArray _ items => vs ← decode_elements dec zero items (memory old);
                      Ok (mk_slice vs (length items))
  | _ => Err json_error
  end.

(** [json.RawMessage] takes the bytes of any value. *)
Definition decode_raw (j : json) (old : string) : result string := Ok (of_bytes (json_raw j)).

(** ** The structs of the response *)

Module CallPayload.
Record t := mk { ID : string; Name : string; Arguments : string }.
End CallPayload.

Definition decode_function (j : json) (old : string * string) : result (string * string) :=
  ms ← decode_struct j;
  name ← decode_field decode_string old.1 "name" ms;
  arguments ← decode_field decode_raw old.2 "arguments" ms;
  Ok (name, arguments).

Definition decode_call (j : json) (old : CallPayload.t) : result CallPayload.t :=
  ms ← decode_struct j;
  id ← decode_field decode_string (CallPayload.ID old) "id" ms;
  function ← decode_field decode_function (CallPayload.Name old, CallPayload.Arguments old)
               "function" ms;
  Ok (CallPayload.mk id function.1 function.2).

(** [message]: content and tool calls. *)
Definition decode_message (j : json) (old : string * slice CallPayload.t)
    : result (string * slice CallPayload.t) :=
  ms ← decode_struct j;
  content ← decode_field decode_string old.1 "content" ms;
  calls ← decode_field (decode_slice decode_call (CallPayload.mk "" "" "")) old.2 "tool_calls" ms;
  Ok (content, calls).

(** A choice holds nothing but its message. *)
Definition decode_choice (j : json) (old : string * slice CallPayload.t)
    : result (string * slice CallPayload.t) :=
  ms ← decode_struct j; decode_field decode_message old "message" ms.

Definition decode_usage (j : json) (old : Usage.t) : result Usage.t :=
  ms ← decode_struct j;
  promptTokens ← decode_field decode_int (Usage.PromptTokens old) "prompt_tokens" ms;
  completionTokens ← decode_field decode_int (Usage.OutputTokens old) "completion_tokens" ms;
  Ok (Usage.mk promptTokens completionTokens).

Module Payload.
Record t := mk { Model : string; Choices : slice (string * slice CallPayload.t); Usage_ : Usage.t }.
End Payload.

Definition decode_payload (body : string) : result Payload.t :=
  ms ← unmarshal_struct body;
  model ← decode_field decode_string "" "model" ms;
  choices ← decode_field (decode_slice decode_choice ("", nil_slice)) nil_slice "choices" ms;
  usage ← decode_field decode_usage (Usage.mk 0 0) "usage" ms;
  Ok (Payload.mk model choices usage).

(** ** The provider *)

Module OpenAICompatible.
Record t := mk { baseURL : string; apiKey : string }.

Definition NewOpenAICompatible (baseURL apiKey : string) : t :=
  mk (TrimRightByte baseURL 47) apiKey.

(** The messages and tools of the request. *)
Definition message_item (message : ChatMessage.t) : value :=
  VObject ([("role", VString (ChatMessage.Role message));
            ("content", VString (ChatMessage.Content message))] ++
           (if decide (ChatMessage.Name message = "") then []
            else [("name", VString (ChatMessage.Name message))]) ++
           (if decide (ChatMessage.ToolCallID message = "") then []
            else [("tool_call_id", VString (ChatMessage.ToolCallID message))])).

Definition request_messages (request : Request.t) : list value :=
  (if decide (Request.SystemPrompt request = "") then []
   else [VObject [("role", VString "system"); ("content", VString (Request.SystemPrompt request))]]) ++
  (message_item <$> Request.Messages request).

Definition tool_item (definition : ToolDefinition.t) : value :=
  VObject [("type", VString "function");
           ("function", VObject [("name", VString (ToolDefinition.Name definition));
                                 ("description", VString (ToolDefinition.Description definition));
                                 ("parameters", VObject (ToolDefinition.Schema definition))])].

Definition request_body (request : Request.t) : value :=
  VObject [("model", VString (Request.Model request));
           ("messages", VArray (request_messages request));
           ("tools", VArray (tool_item <$> Request.Tools request));
           ("temperature", VFloat (Request.Temperature request));
           ("max_tokens", VInt (Request.MaxTokens request))].

Section complete.
Context `{HttpClient}.

(** The request that is sent. *)
Definition http_request (p : t) (body : string) : HttpRequest.t :=
  HttpRequest.mk (baseURL p +:+ "/chat/completions")
    [("Authorization", "Bearer " +:+ apiKey p); ("Content-Type", "application/json")] body.

(** The result from the decoded payload. *)
Definition response_of (payload : Payload.t) : result Response.t :=
  match elements (Payload.Choices payload) with
  | [] => Err (ErrorString "LLM response contains no choices")
  | (content, calls) :: _ =>
      Ok (Response.mk content
            ((λ call, ToolCall.mk (CallPayload.ID call) (CallPayload.Name call)
                                  (CallPayload.Arguments call)) <$> elements calls)
            (Payload.Usage_ payload) (Payload.Model payload))
  end.

Definition Complete (p : t) (c : Call) (request : Request.t) : result Response.t :=
  match Marshal (request_body request) with
  | Err err => Err (Wrap "encode LLM request" err)
  | Ok body =>
      match NewRequest (baseURL p +:+ "/chat/completions") with
      | Some err => Err (Wrap "create LLM request" err)
      | None =>
          match Do c (http_request p body) with
          | Err err => Err (Wrap "send LLM request" err)
          | Ok httpResponse =>
              match read_limited (4 * 2 ^ 20) httpResponse with
              | Err err => Err (Wrap "read LLM response" err)
              | Ok responseBody =>
                  let status := HttpResponse.StatusCode httpResponse in
                  if (status <? 200) || (300 <=? status)
                  then Err (ErrorString ("LLM response status " +:+ Itoa status +:+ ": " +:+
                                         TrimSpace (of_bytes responseBody)))
                  else
                    match decode_payload (of_bytes responseBody) with
                    | Err err => Err (Wrap "decode LLM response" err)
                    | Ok payload => response_of payload
                    end
              end
          end
      end
  end.

Definition provider (p : t) : Provider := Complete p.
End complete.
End OpenAICompatible.

(** ** A reply in the documented form *)

Module Api.
(** A tool call: the arguments are a string that holds JSON text. *)
Record call := mk_call { call_id : string; call_name : string; call_arguments : string }.
Record reply := mk_reply {
  reply_id : string; created : Z; model : string; content : option string; calls : list call;
  finish_reason : string; prompt_tokens : Z; completion_tokens : Z; total_tokens : Z
}.

Definition number (z : Z) : list Z := bytes (Itoa z).
Definition function_text (c : call) : list Z :=
  print_struct [("name", print_string (call_name c)); ("arguments", print_string (call_arguments c))].
Definition call_text (c : call) : list Z :=
  print_struct [("id", print_string (call_id c)); ("type", print_string "function");
                ("function", function_text c)].
Definition content_text (r : reply) : list Z :=
  match content r with Some s => print_string s | None => bytes "null" end.
Definition message_text (r : reply) : list Z :=
  print_struct [("role", print_string "assistant"); ("content", content_text r);
                ("tool_calls", print_array (call_text <$> calls r))].
Definition choice_text (r : reply) : list Z :=
  print_struct [("index", number 0); ("message", message_text r);
                ("finish_reason", print_string (finish_reason r))].
Definition usage_text (r : reply) : list Z :=
  print_struct [("prompt_tokens", number (prompt_tokens r));
                ("completion_tokens", number (completion_tokens r));
                ("total_tokens", number (total_tokens r))].
Definition reply_text (r : reply) : list Z :=
  print_struct [("id", print_string (reply_id r)); ("object", print_string "chat.completion");
                ("created", number (created r)); ("model", print_string (model r));
                ("choices", print_array [choice_text r]); ("usage", usage_text r)].

Definition reply_ok (r : reply) : Prop :=
  int64 (created r) ∧ int64 (prompt_tokens r) ∧ int64 (completion_tokens r) ∧ int64 (total_tokens r).

(** What [Complete] makes of it. *)
Definition expected_call (c : call) : ToolCall.t :=
  ToolCall.mk (clean (call_id c)) (clean (call_name c)) (of_bytes (print_string (call_arguments c))).
Definition expected (r : reply) : Response.t :=
  Response.mk (match content r with Some s => clean s | None => "" end) (expected_call <$> calls r)
    (Usage.mk (prompt_tokens r) (completion_tokens r)) (clean (model r)).
End Api.

Import Api.

(** *** What the parts of the reply decode to *)

Lemma reads_raw_text depth s :
  reads depth (print_string s) (decodes decode_raw (of_bytes (print_string s))).
Proof. eapply reads_mono, reads_raw, reads_string. intros j [_ Hj] old. unfold decode_raw. by rewrite Hj. Qed.

#[local] Opaque decode_raw.
#[local] Arguments decode_int : simpl never.
#[local] Arguments decode_function : simpl never.
#[local] Arguments decode_call : simpl never.
#[local] Arguments decode_slice : simpl never.
#[local] Arguments decode_message : simpl never.
#[local] Arguments decode_choice : simpl never.
#[local] Arguments decode_usage : simpl never.

(** Decoding the fields of an object the text of which was read. *)
Ltac decode_object :=
  let raw := fresh in let ms := fresh in let Hms := fresh in
  intros ? (raw & ms & -> & Hms) ?; split_fields; cbn [decode_struct mbind result_bind];
  unfold decode_field, field_values; simpl;
  repeat match goal with
  | H : decodes _ _ _ |- _ => rewrite H; clear H; simpl
  end; try done.

Lemma reads_function depth c :
  depth + 1 < max_depth →
  reads depth (function_text c)
    (decodes decode_function (clean (call_name c), of_bytes (print_string (call_arguments c)))).
Proof.
  intros Hd. eapply reads_mono, (reads_struct _ _
    [("name", decodes decode_string (clean (call_name c)));
     ("arguments", decodes decode_raw (of_bytes (print_string (call_arguments c))))]); [|lia|].
  - unfold decode_function. decode_object.
  - read_fields; [apply reads_text|apply reads_raw_text].
Qed.

Definition call_of (c : call) : CallPayload.t :=
  CallPayload.mk (clean (call_id c)) (clean (call_name c)) (of_bytes (print_string (call_arguments c))).

Lemma reads_call depth c :
  depth + 2 < max_depth → reads depth (call_text c) (decodes decode_call (call_of c)).
Proof.
  intros Hd. eapply reads_mono, (reads_struct _ _
    [("id", decodes decode_string (clean (call_id c))); ("type", λ _, True);
     ("function", decodes decode_function
        (clean (call_name c), of_bytes (print_string (call_arguments c))))]); [|lia|].
  - unfold decode_call. decode_object.
  - read_fields; [apply reads_text|by eapply reads_mono, reads_string|apply reads_function; lia].
Qed.

(** A slice decoded for the first time. *)
Lemma decode_elements_new {A B} (dec : json → A → result A) zero (f : B → A) (l : list B) js :
  Forall2 (λ (K : json → Prop) j, K j) ((λ b, decodes dec (f b)) <$> l) js →
  decode_elements dec zero js [] = Ok (f <$> l).
Proof.
  revert js. induction l as [|b l IH]; intros js H; inv H; [done|]. cbn [decode_elements].
  match goal with H : decodes _ _ _ |- _ => rewrite H end. cbn [mbind result_bind tail].
  by rewrite IH.
Qed.

Lemma elements_all {A} (l : list A) : elements (mk_slice l (length l)) = l.
Proof. apply firstn_all. Qed.

Lemma decode_slice_new {A B} (dec : json → A → result A) zero (f : B → A) (l : list B) raw js :
  Forall2 (λ (K : json → Prop) j, K j) ((λ b, decodes dec (f b)) <$> l) js →
  decode_slice dec zero (JArray raw js) nil_slice = Ok (mk_slice (f <$> l) (length l)).
Proof.
  intros H. pose proof (Forall2_length _ _ _ H) as Hl. rewrite length_fmap in Hl.
  destruct js as [|j js]; [by destruct l|]. unfold decode_slice.
  cbn [memory nil_slice]. by rewrite (decode_elements_new _ _ _ _ _ H), Hl.
Qed.

Lemma reads_list {A B} depth (text : B → list Z) (dec : json → A → result A) zero (f : B → A) l :
  depth < max_depth → (∀ b, reads (depth + 1) (text b) (decodes dec (f b))) →
  reads depth (print_array (text <$> l))
    (λ j, decode_slice dec zero j nil_slice = Ok (mk_slice (f <$> l) (length l))).
Proof.
  intros Hd Hr. eapply reads_mono, (reads_array _ _ ((λ b, decodes dec (f b)) <$> l)); [|done|].
  - intros j (raw & js & -> & Hjs). by apply decode_slice_new.
  - induction l as [|b l IH]; csimpl; constructor; auto.
Qed.

Definition content_of (r : reply) : string :=
  match content r with Some s => clean s | None => "" end.
Definition calls_of (r : reply) : slice CallPayload.t :=
  mk_slice (call_of <$> calls r) (length (calls r)).

Lemma reads_message depth r :
  depth + 4 < max_depth →
  reads depth (message_text r) (λ j, decode_message j ("", nil_slice) = Ok (content_of r, calls_of r)).
Proof.
  intros Hd. eapply reads_mono, (reads_struct _ _
    [("role", λ _, True); ("content", λ j, decode_string j "" = Ok (content_of r));
     ("tool_calls", λ j, decode_slice decode_call (CallPayload.mk "" "" "") j nil_slice =
                         Ok (calls_of r))]); [|lia|].
  - intros j (raw & ms & -> & Hms). split_fields. unfold decode_message. cbn [decode_struct mbind result_bind].
    unfold decode_field, field_values. simpl.
    repeat match goal with H : _ = Ok _ |- _ => rewrite H; clear H; simpl end. done.
  - read_fields.
    + by eapply reads_mono, reads_string.
    + unfold content_text, content_of. destruct (content r).
      * eapply reads_mono, reads_text. intros j Hj. apply Hj.
      * eapply reads_mono, reads_null. by intros j [raw ->].
    + apply reads_list; [lia|]. intros c. apply reads_call. lia.
Qed.

Lemma reads_choice depth r :
  depth + 5 < max_depth →
  reads depth (choice_text r) (λ j, decode_choice j ("", nil_slice) = Ok (content_of r, calls_of r)).
Proof.
  intros Hd. eapply reads_mono, (reads_struct _ _
    [("index", λ _, True);
     ("message", λ j, decode_message j ("", nil_slice) = Ok (content_of r, calls_of r));
     ("finish_reason", λ _, True)]); [|lia|].
  - intros j (raw & ms & -> & Hms). split_fields. unfold decode_choice. cbn [decode_struct mbind result_bind].
    unfold decode_field, field_values. simpl. by repeat match goal with H : _ = Ok _ |- _ => rewrite H; clear H end.
  - read_fields; [by eapply reads_mono, (reads_number _ 0)|apply reads_message; lia|by eapply reads_mono, reads_string].
Qed.

Lemma reads_usage depth r :
  reply_ok r → depth + 1 < max_depth →
  reads depth (usage_text r) (decodes decode_usage (Usage.mk (prompt_tokens r) (completion_tokens r))).
Proof.
  intros (_ & Hp & Hc & Ht) Hd. eapply reads_mono, (reads_struct _ _
    [("prompt_tokens", decodes decode_int (prompt_tokens r));
     ("completion_tokens", decodes decode_int (completion_tokens r)); ("total_tokens", λ _, True)]); [|lia|].
  - unfold decode_usage. decode_object.
  - read_fields; [by apply reads_number..|by eapply reads_mono, reads_number].
Qed.

(** The whole reply. *)
Lemma decode_reply r :
  reply_ok r →
  decode_payload (of_bytes (reply_text r)) =
  Ok (Payload.mk (clean (model r)) (mk_slice [(content_of r, calls_of r)] 1)
                 (Usage.mk (prompt_tokens r) (completion_tokens r))).
Proof.
  intros Hok. pose proof Hok as (Hcr & _).
  destruct (reads_parse (K := λ j, ∃ raw ms, j = JObject raw ms ∧ Forall2 has_field
    [("id", λ _, True); ("object", λ _, True); ("created", λ _, True);
     ("model", decodes decode_string (clean (model r)));
     ("choices", λ j, decode_slice decode_choice ("", nil_slice) j nil_slice =
                      Ok (mk_slice [(content_of r, calls_of r)] 1));
     ("usage", decodes decode_usage (Usage.mk (prompt_tokens r) (completion_tokens r)))] ms)
    (p := reply_text r)) as (j & Hj & raw & ms & -> & Hms).
  - apply reads_struct; [done|]. read_fields.
    + by eapply reads_mono, reads_string.
    + by eapply reads_mono, reads_string.
    + by eapply reads_mono, reads_number.
    + apply reads_text.
    + eapply reads_mono, (reads_array _ [choice_text r]
        [λ j, decode_choice j ("", nil_slice) = Ok (content_of r, calls_of r)]); [|done|].
      * intros j (raw & js & -> & Hjs). inv Hjs.
        match goal with H : Forall2 _ [] _ |- _ => inv H end.
        cbn [snd]. unfold decode_slice. cbn [decode_elements memory nil_slice tail mbind result_bind].
        match goal with H : decode_choice _ _ = _ |- _ => rewrite H end. done.
      * constructor; [|constructor]. by apply reads_choice.
    + by apply reads_usage.
  - unfold decode_payload, unmarshal_struct. rewrite Hj. split_fields.
    cbn [decode_struct mbind result_bind]. unfold decode_field, field_values. simpl.
    repeat match goal with
    | H : decodes _ _ _ |- _ => rewrite H; clear H; simpl
    | H : decode_slice _ _ _ _ = Ok _ |- _ => rewrite H; clear H; simpl
    end. done.
Qed.

(** ** Properties *)

Section properties.
Context `{HttpClient, Unicode}.
Import OpenAICompatible.

Lemma Complete_reply p c request body r h :
  Marshal (request_body request) = Ok body →
  NewRequest (baseURL p +:+ "/chat/completions") = None →
  Do c (http_request p body) = Ok h →
  200 ≤ HttpResponse.StatusCode h < 300 → HttpResponse.Body h = reply_text r →
  HttpResponse.ReadError h = None → Z.of_nat (length (reply_text r)) < 4 * 2 ^ 20 → reply_ok r →
  Complete p c request = Ok (expected r).
Proof.
  intros Hm Hn Hd Hs Hb He Hl Hok. unfold Complete. rewrite Hm, Hn, Hd.
  unfold read_limited. rewrite Hb, He, (proj2 (Z.leb_gt _ _)) by done.
  destruct (Z.ltb_spec (HttpResponse.StatusCode h) 200) as [|_]; [lia|].
  destruct (Z.leb_spec 300 (HttpResponse.StatusCode h)) as [|_]; [lia|]. cbn [orb].
  rewrite decode_reply by done. unfold response_of, expected. cbn [Payload.Choices].
  unfold elements at 1. cbn [length_ memory take].
  cbn [Payload.Usage_ Payload.Model]. f_equal. f_equal. unfold calls_of.
  rewrite <-(length_fmap call_of), elements_all. by rewrite <-list_fmap_compose.
Qed.

(** C24: The provider understands a reply in the documented form of a chat completions API: content,
    model, usage and the tool calls, in their order, are those of the reply; the arguments
    of a call are the bytes of its JSON value. *)
Theorem openai_reads_reply p c request body r h :
  Marshal (request_body request) = Ok body →
  NewRequest (baseURL p +:+ "/chat/completions") = None →
  Do c (http_request p body) = Ok h →
  200 ≤ HttpResponse.StatusCode h < 300 → HttpResponse.Body h = reply_text r →
  HttpResponse.ReadError h = None → Z.of_nat (length (reply_text r)) < 4 * 2 ^ 20 → reply_ok r →
  Complete p c request = Ok (expected r).
Proof. apply Complete_reply. Qed.

(** A JSON string is no input for the tools. *)
Lemma string_no_struct s : unmarshal_struct (of_bytes (print_string s)) = Err json_error.
Proof.
  destruct (reads_parse (reads_string 0 s)) as (j & Hj & raw & ->).
  unfold unmarshal_struct. by rewrite Hj.
Qed.

(** The arguments of a documented reply are a string that holds JSON text.  The provider passes on
    the string, quotes included, and the built-in tools decode their input as an object: every
    call of the calculator or of a lookup that such a reply asks for fails. *)
Theorem openai_arguments_unusable p c request body r h :
  Marshal (request_body request) = Ok body →
  NewRequest (baseURL p +:+ "/chat/completions") = None →
  Do c (http_request p body) = Ok h →
  200 ≤ HttpResponse.StatusCode h < 300 → HttpResponse.Body h = reply_text r →
  HttpResponse.ReadError h = None → Z.of_nat (length (reply_text r)) < 4 * 2 ^ 20 → reply_ok r →
  ∃ response, Complete p c request = Ok response ∧
    length (Response.ToolCalls response) = length (calls r) ∧
    ∀ call c', call ∈ Response.ToolCalls response →
      is_ok (Calculator.Execute c' (ToolCall.Arguments call)) = false ∧
      ∀ lookup, is_ok (MockLookup.Execute lookup c' (ToolCall.Arguments call)) = false.
Proof.
  intros Hm Hn Hd Hs Hb He Hl Hok. exists (expected r). split; [by eapply Complete_reply|].
  split; [apply length_fmap|]. intros call c' (cl & -> & _)%list_elem_of_fmap. simpl.
  split.
  - unfold Calculator.Execute, Calculator.decode_request. by rewrite string_no_struct.
  - intros lookup. unfold MockLookup.Execute. destruct (call_err c'); [done|].
    by rewrite string_no_struct.
Qed.
End properties.

(** ** A server that asks for the calculator *)

Definition demo_reply : reply :=
  mk_reply "chatcmpl-1" 1700000000 "gpt" None
    [mk_call "call_1" "calculator" "{\u0022operation\u0022: \u0022add\u0022}"] "tool_calls" 12 7 19.
Definition demo_client : HttpClient :=
  {| NewRequest _ := None; Do _ _ := Ok (HttpResponse.mk 200 (reply_text demo_reply) None) |}.
Definition demo_request : Request.t :=
  Request.mk "gpt" "Be brief." [ChatMessage.mk "user" "1+2?" "" ""] [] (S754_zero false) 100.
Definition demo_call : Call := mkCall Background 0 0.

#[local] Existing Instance demo_client.
#[local] Existing Instance demo_unicode.
Import OpenAICompatible.

Lemma openai_reads_reply_witness :
  let p := NewOpenAICompatible "https://api.example.com/v1/" "key" in
  baseURL p = "https://api.example.com/v1" ∧
  Complete p demo_call demo_request = Ok (expected demo_reply).
Proof.
  intros p. split; [vm_compute; reflexivity|].
  eapply (openai_reads_reply p demo_call demo_request _ demo_reply);
    try reflexivity; try (vm_compute; reflexivity).
  - vm_compute. by split.
  - by repeat split.
Defined.

Lemma openai_arguments_unusable_witness :
  let p := NewOpenAICompatible "https://api.example.com/v1/" "key" in
  ∃ response, Complete p demo_call demo_request = Ok response ∧
    length (Response.ToolCalls response) = 1%nat ∧
    ∀ call c', call ∈ Response.ToolCalls response →
      is_ok (Calculator.Execute c' (ToolCall.Arguments call)) = false ∧
      ∀ lookup, is_ok (MockLookup.Execute lookup c' (ToolCall.Arguments call)) = false.
Proof.
  intros p. eapply (openai_arguments_unusable p demo_call demo_request _ demo_reply);
    try reflexivity; try (vm_compute; reflexivity).
  - vm_compute. by split.
  - by repeat split.
Defined.
