(* ===== verification/World.v ===== *)
(** * The shared state of a running process

    The engine, the service and the worker share a store, an event sink, a queue, the
    circuit breaker and the tool registry.  [World] is that state; its log [w_log]
    lists the calls made on the parts, in the order they took effect, and is what the
    theorems about behaviour talk about.  This file also models
    [internal/workflow/events.go] and the metrics of [internal/observability]. *)

From S2P Require Import Prelude GoLang GoString Conc Runtime Domain Breaker Store Tool Llm.
Open Scope Z_scope.

(** ** Events *)

Module Event.
Record t := mk {
  ExecutionID : string;
  Type_ : string;
  StepID : string;
  Data : list (string * value);
  Timestamp : time
}.

#[global] Instance eq_dec : EqDecision t.
Proof. solve_decision. Defined.
End Event.

(** The interface [workflow.EventSink]. *)
Class SinkOps (SK : Type) := { Publish : Call → Event.t → SK → option error * SK }.

Module NopEventSink.
Definition Publish (c : Call) (event : Event.t) (s : unit) : option error * unit := (None, s).

#[export] Instance ops : SinkOps unit := {| World.Publish := Publish |}.
End NopEventSink.

(** ** Metrics *)

(** What is recorded on the collectors of [observability.Metrics]; durations are kept
    in nanoseconds. *)
Inductive sample : Set :=
| AgentRequests
| AgentErrors
| AgentDuration (d : duration)
| LLMLatency (model : string) (d : duration)
| ToolDuration (tool : string) (d : duration)
| TokenUsage (model direction : string) (amount : Z).

(** A Prometheus counter panics when it is asked to decrease. *)
Class Counters := {
  counter_panics : Z → bool;
  counter_increases v : 0 ≤ v → counter_panics v = false
}.

(** ** Jobs ([internal/queue]) *)

Module Job.
Record t := mk { ExecutionID : string; AgentID : string; OwnerID : string }.

#[global] Instance eq_dec : EqDecision t.
Proof. solve_decision. Defined.
End Job.

(** ** The log *)

Inductive Obs : Type :=
| OUpdate (x : Execution.t) (r : option error)
| OStep (st : Step.t) (r : option error)
| OMessage (m : Message.t) (r : option error)
| OPublish (e : Event.t)
| OAllow (now : time) (r : bool)
| OSuccess
| OFailure (now : time)
| OComplete (req : Request.t) (r : result Response.t)
| OTool (name arguments : string) (r : result value)
| OSample (s : sample).

Record World (DB SK QU : Type) := mkWorld {
  w_rt : Runtime;
  w_store : DB;
  w_sink : SK;
  w_queue : QU;
  w_breaker : CircuitBreaker.t;
  w_tools : Registry.t;
  w_log : list Obs
}.
Arguments mkWorld {DB SK QU}.
Arguments w_rt {DB SK QU}.
Arguments w_store {DB SK QU}.
Arguments w_sink {DB SK QU}.
Arguments w_queue {DB SK QU}.
Arguments w_breaker {DB SK QU}.
Arguments w_tools {DB SK QU}.
Arguments w_log {DB SK QU}.

#[export] Instance world_runtime DB SK QU : HasRuntime (World DB SK QU).
Proof.
  refine {| get_rt := w_rt;
            put_rt rt w := mkWorld rt (w_store w) (w_sink w) (w_queue w) (w_breaker w)
                                   (w_tools w) (w_log w) |}; [done|done|by intros []].
Defined.

Section access.
Context {DB SK QU : Type}.
Implicit Types (w : World DB SK QU).

Definition set_store s w : World DB SK QU :=
  mkWorld (w_rt w) s (w_sink w) (w_queue w) (w_breaker w) (w_tools w) (w_log w).
Definition set_sink k w : World DB SK QU :=
  mkWorld (w_rt w) (w_store w) k (w_queue w) (w_breaker w) (w_tools w) (w_log w).
Definition set_queue q w : World DB SK QU :=
  mkWorld (w_rt w) (w_store w) (w_sink w) q (w_breaker w) (w_tools w) (w_log w).
Definition set_breaker b w : World DB SK QU :=
  mkWorld (w_rt w) (w_store w) (w_sink w) (w_queue w) b (w_tools w) (w_log w).
Definition set_tools t w : World DB SK QU :=
  mkWorld (w_rt w) (w_store w) (w_sink w) (w_queue w) (w_breaker w) t (w_log w).
Definition emit o w : World DB SK QU :=
  mkWorld (w_rt w) (w_store w) (w_sink w) (w_queue w) (w_breaker w) (w_tools w)
          (w_log w ++ [o]).
End access.

(** ** The calls a goroutine makes on the parts *)

Definition call_at (ctx : Context) (rt : Runtime) : Call := mkCall ctx (rt_now rt) (rt_tick rt).

Section calls.
Context `{Env} {DB SK QU : Type} `{StoreOps DB, SinkOps SK, Counters}.
Abbreviation W := (World DB SK QU).
Abbreviation M := (prog W).

Definition update_execution (ctx : Context) (x : Execution.t) : M (option error) :=
  atomic (λ rt w, let '(r, s) := UpdateExecution (call_at ctx rt) x (w_store w) in
                  (r, emit (OUpdate x r) (set_store s w))).

Definition append_step (ctx : Context) (st : Step.t) : M (option error) :=
  atomic (λ rt w, let '(r, s) := AppendStep (call_at ctx rt) st (w_store w) in
                  (r, emit (OStep st r) (set_store s w))).

Definition append_message (ctx : Context) (m : Message.t) : M (option error) :=
  atomic (λ rt w, let '(r, s) := AppendMessage (call_at ctx rt) m (w_store w) in
                  (r, emit (OMessage m r) (set_store s w))).

(** A panic of the store ends the goroutine. *)
Definition list_messages (ctx : Context) (owner conversation : string) (limit : Z)
    : M (result (list Message.t)) :=
  atomic_block (λ rt w,
    r ← ListMessages (call_at ctx rt) owner conversation limit (w_store w); Some (r, w)).

(** [_ = events.Publish(ctx, event)]: the error is dropped. *)
Definition publish (ctx : Context) (event : Event.t) : M unit :=
  atomic (λ rt w, let '(_, k) := Publish (call_at ctx rt) event (w_sink w) in
                  (tt, emit (OPublish event) (set_sink k w))).

Definition breaker_allow : M bool :=
  atomic (λ rt w, let '(r, b) := Allow (rt_now rt) (w_breaker w) in
                  (r, emit (OAllow (rt_now rt) r) (set_breaker b w))).
Definition breaker_success : M unit :=
  atomic (λ rt w, (tt, emit OSuccess (set_breaker (Success (w_breaker w)) w))).
Definition breaker_failure : M unit :=
  atomic (λ rt w, (tt, emit (OFailure (rt_now rt))
                            (set_breaker (Failure (rt_now rt) (w_breaker w)) w))).

Definition tool_definitions (names : list string) : M (list ToolDefinition.t) :=
  atomic (λ _ w, (Registry.Definitions names (w_tools w), w)).
Definition tool_get (name : string) : M (option Tool) :=
  atomic (λ _ w, (Registry.Get name (w_tools w), w)).

Definition complete (provider : Provider) (ctx : Context) (req : Request.t)
    : M (result Response.t) :=
  atomic (λ rt w, let r := provider (call_at ctx rt) req in (r, emit (OComplete req r) w)).

Definition tool_execute (item : Tool) (ctx : Context) (name arguments : string)
    : M (result value) :=
  atomic (λ rt w, let r := Execute_ item (call_at ctx rt) arguments in
                  (r, emit (OTool name arguments r) w)).

(** [ctx.Err()] *)
Definition check_ctx (ctx : Context) : M (option error) :=
  atomic (λ rt w, (ctx_err ctx (rt_now rt), w)).

(** [context.WithTimeout(ctx, d)] *)
Definition with_timeout (ctx : Context) (d : duration) : M Context :=
  atomic (λ rt w, (WithTimeout ctx (rt_now rt) d, w)).

(** Recording a sample, and the time since [started]. *)
Definition record (s : sample) : M unit := atomic (λ _ w, (tt, emit (OSample s) w)).
Definition record_since (s : duration → sample) (started : time) : M unit :=
  atomic (λ rt w, (tt, emit (OSample (s (Sub (rt_now rt) started))) w)).
(** [TokenUsage.WithLabelValues(model, direction).Add(amount)] *)
Definition record_tokens (model direction : string) (amount : Z) : M unit :=
  atomic_block (λ _ w, if counter_panics amount then None
                       else Some (tt, emit (OSample (TokenUsage model direction amount)) w)).
Definition when (b : bool) (p : M unit) : M unit := if b then p else mret tt.
End calls.

#[global] Arguments update_execution : simpl never.
#[global] Arguments append_step : simpl never.
#[global] Arguments append_message : simpl never.
#[global] Arguments list_messages : simpl never.
#[global] Arguments publish : simpl never.
#[global] Arguments breaker_allow : simpl never.
#[global] Arguments breaker_success : simpl never.
#[global] Arguments breaker_failure : simpl never.
#[global] Arguments tool_definitions : simpl never.
#[global] Arguments tool_get : simpl never.
#[global] Arguments complete : simpl never.
#[global] Arguments tool_execute : simpl never.
#[global] Arguments check_ctx : simpl never.
#[global] Arguments with_timeout : simpl never.
#[global] Arguments record : simpl never.
#[global] Arguments record_since : simpl never.
#[global] Arguments record_tokens : simpl never.
