(* ===== verification/Engine.v ===== *)
(** * [internal/workflow/engine.go]: running an agent

    [Execute] and the methods it calls, statement by statement, as goroutines over
    the shared [World].  Tracing spans have no effect on the program and are left
    out; a [defer] is the statement before every return. *)

From S2P Require Import Prelude GoLang GoString Conc Runtime Id Domain Breaker Retry Store.
From S2P Require Import GoJson Tool Llm World.
Open Scope Z_scope.

Module Engine.
(** The fields that do not change; the breaker, the tools, the store and the events are
    parts of the [World].  [metrics] tells whether the field is non-nil. *)
Record t := mk {
  provider : Provider;
  retryPolicy : RetryPolicy.t;
  stepTimeout : duration;
  maxSteps : nat;
  metrics : bool
}.

Definition NewEngine (provider : Provider) (metrics : bool) : t :=
  mk provider (RetryPolicy.mk 3 (200 * Millisecond) (2 * Second)) (30 * Second) 8 metrics.

(** The circuit breaker [NewEngine] creates. *)
Definition new_breaker : CircuitBreaker.t := NewCircuitBreaker 5 (30 * Second).

Section engine.
Context `{Env} {DB SK QU : Type} `{StoreOps DB, SinkOps SK, Counters, Unicode}.
Abbreviation W := (World DB SK QU).
Abbreviation M := (prog W).
(** Goroutines of [executeTools] return a message or an error. *)
Abbreviation P := (proc W (result ChatMessage.t)).

Context (e : t).

Definition appendMessage (ctx : Context) (conversationID : string) (message : ChatMessage.t)
    : M (option error) :=
  r ← Id.New;
  match r with
  | Err err => mret (Some err)
  | Ok messageID =>
      now ← Now;
      err ← append_message ctx
        (Message.mk messageID conversationID (ChatMessage.Role message)
           (ChatMessage.Content message) (ChatMessage.ToolCallID message)
           [("name", VString (ChatMessage.Name message))] now);
      mret (Wrap "append conversation message" <$> err)
  end.

Definition succeed (ctx : Context) (execution : Execution.t) : M (Execution.t * option error) :=
  now ← Now;
  let execution := Execution.set_CompletedAt (Some now)
                     (Execution.set_Status ExecutionSucceeded execution) in
  err ← update_execution ctx execution;
  match err with
  | Some err => mret (execution, Some err)
  | None =>
      publish ctx (Event.mk (Execution.ID execution) "agent.completed" ""
                     [("output", VString (Execution.Output execution))] now);;
      mret (execution, None)
  end.

Definition fail_status (cause : error) : ExecutionStatus :=
  if Is cause Canceled then ExecutionCancelled else ExecutionFailed.

Definition fail (ctx : Context) (execution : Execution.t) (cause : error)
    : M (Execution.t * option error) :=
  when (metrics e) (record AgentErrors);;
  now ← Now;
  let execution := Execution.set_CompletedAt (Some now)
                     (Execution.set_Error (Error cause)
                        (Execution.set_Status (fail_status cause) execution)) in
  err ← update_execution ctx execution;
  match err with
  | Some err => mret (execution, Some (Join cause err))
  | None =>
      publish Background (Event.mk (Execution.ID execution) "agent.failed" ""
                            [("error", VString (Error cause))] now);;
      mret (execution, Some cause)
  end.

(** [executeTool] after the step has started. *)
Definition finish_tool (ctx : Context) (executionID : string) (call : ToolCall.t)
    (step : Step.t) (output : result value) : M (result ChatMessage.t) :=
  completedAt ← Now;
  let step := Step.set_CompletedAt (Some completedAt) step in
  match output with
  | Err callErr =>
      append_step ctx (Step.set_Error (Error callErr) step);;
      publish ctx (Event.mk executionID "tool.failed" (Step.ID step)
                     [("error", VString (Error callErr))] completedAt);;
      mret (Err (Wrap ("execute tool " +:+ ToolCall.Name call) callErr))
  | Ok output =>
      match Marshal output with
      | Err err => mret (Err (Wrap ("encode tool " +:+ ToolCall.Name call +:+ " output") err))
      | Ok encoded =>
          err ← append_step ctx (Step.set_Output [("result", output)] step);
          match err with
          | Some err => mret (Err (Wrap "store tool step" err))
          | None =>
              publish ctx (Event.mk executionID "tool.completed" (Step.ID step)
                             [("tool", VString (ToolCall.Name call))] completedAt);;
              mret (Ok (ChatMessage.mk "tool" encoded (ToolCall.Name call) (ToolCall.ID call)))
          end
      end
  end.

Definition executeTool (ctx : Context) (executionID : string) (call : ToolCall.t)
    : M (result ChatMessage.t) :=
  toolStarted ← Now;
  r ← (item ← tool_get (ToolCall.Name call);
       match item with
       | None => mret (Err (ErrorString ("tool " +:+ Quote (ToolCall.Name call) +:+
                                         " is not registered")))
       | Some item =>
           stepID ← Id.New;
           match stepID with
           | Err err => mret (Err err)
           | Ok stepID =>
               startedAt ← Now;
               publish ctx (Event.mk executionID "tool.started" stepID
                              [("tool", VString (ToolCall.Name call))] startedAt);;
               toolCtx ← with_timeout ctx (stepTimeout e);
               output ← tool_execute item toolCtx (ToolCall.Name call)
                          (ToolCall.Arguments call);
               finish_tool ctx executionID call
                 (Step.mk stepID executionID "tool" (ToolCall.Name call)
                    [("arguments", VRaw (ToolCall.Arguments call))] [] "" 0 startedAt None)
                 output
           end
       end);
  when (metrics e) (record_since (ToolDuration (ToolCall.Name call)) toolStarted);;
  mret r.

(** The first error by index, or all the messages. *)
Fixpoint collect (rs : list (result ChatMessage.t)) : result (list ChatMessage.t) :=
  match rs with
  | [] => Ok []
  | Err err :: _ => Err err
  | Ok m :: rs => ms ← collect rs; Ok (m :: ms)
  end.

Definition executeTools (ctx : Context) (executionID : string) (calls : list ToolCall.t)
    : P (result (list ChatMessage.t)) :=
  rs ← go_wait (executeTool ctx executionID <$> calls);
  mret (collect rs).

(** The loop that stores the tool messages. *)
Fixpoint append_messages (ctx : Context) (conversationID : string)
    (messages : list ChatMessage.t) : M (option error) :=
  match messages with
  | [] => mret None
  | message :: messages =>
      err ← appendMessage ctx conversationID message;
      match err with
      | Some err => mret (Some err)
      | None => append_messages ctx conversationID messages
      end
  end.

(** The operation given to [Retry]. *)
Definition call_provider (agent : Agent.t) (messages : list ChatMessage.t) (callCtx : Context)
    : M (result Response.t) :=
  definitions ← tool_definitions (Agent.Tools agent);
  complete (provider e) callCtx
    (Request.mk (Agent.Model agent) (Agent.SystemPrompt agent) messages definitions
       (Agent.Temperature agent) (Agent.MaxTokens agent)).

(** The accounting of a response. *)
Definition account (retries : Z) (execution : Execution.t) : Execution.t :=
  Execution.set_RetryCount (add64 (Execution.RetryCount execution) retries) execution.
Definition account_response (response : Response.t) (execution : Execution.t) : Execution.t :=
  let u := Response.Usage_ response in
  Execution.set_OutputTokens (add64 (Execution.OutputTokens execution) (Usage.OutputTokens u))
    (Execution.set_PromptTokens
       (add64 (Execution.PromptTokens execution) (Usage.PromptTokens u))
       (Execution.set_Model (Response.Model response) execution)).

Definition llm_output (response : Response.t) : list (string * value) :=
  [("content", VString (Response.Content response));
   ("tool_call_count", VInt (Z.of_nat (length (Response.ToolCalls response))))].

(** The statements of the loop body from the end of the call to the stored step: either the
    cause of a failure, or nothing; and the execution with its new counters. *)
Definition finish_llm (ctx : Context) (agent : Agent.t) (execution : Execution.t)
    (step : Step.t) (r : result Response.t) (retries : Z) : M (Execution.t * option error) :=
  let step := Step.set_RetryCount retries step in
  let execution := account retries execution in
  completedAt ← Now;
  let step := Step.set_CompletedAt (Some completedAt) step in
  match r with
  | Err callErr =>
      breaker_failure;;
      append_step ctx (Step.set_Error (Error callErr) step);;
      mret (execution, Some callErr)
  | Ok response =>
      breaker_success;;
      let execution := account_response response execution in
      let u := Response.Usage_ response in
      when (metrics e) (record_tokens (Agent.Model agent) "input" (Usage.PromptTokens u);;
                        record_tokens (Agent.Model agent) "output" (Usage.OutputTokens u));;
      err ← append_step ctx (Step.set_Output (llm_output response) step);
      mret (execution, Wrap "store LLM step" <$> err)
  end.

(** The loop body up to the response of the model. *)
Inductive round : Type :=
| Stop (execution : Execution.t) (cause : error)
| Responded (execution : Execution.t) (response : Response.t).

Definition think (ctx : Context) (agent : Agent.t) (execution : Execution.t)
    (messages : list ChatMessage.t) : M round :=
  err ← check_ctx ctx;
  match err with
  | Some err => mret (Stop execution err)
  | None =>
      allowed ← breaker_allow;
      if negb allowed then mret (Stop execution (Sentinel CircuitOpen)) else
      stepID ← Id.New;
      match stepID with
      | Err err => mret (Stop execution err)
      | Ok stepID =>
          startedAt ← Now;
          publish ctx (Event.mk (Execution.ID execution) "agent.thinking" stepID [] startedAt);;
          stepCtx ← with_timeout ctx (stepTimeout e);
          llmStarted ← Now;
          rr ← Retry stepCtx (retryPolicy e) (call_provider agent messages);
          when (metrics e) (record_since (LLMLatency (Agent.Model agent)) llmStarted);;
          '(execution, err) ← finish_llm ctx agent execution
            (Step.mk stepID (Execution.ID execution) "llm" "completion" [] [] "" 0
               startedAt None) rr.1 rr.2;
          mret (match err, rr.1 with
                | Some err, _ => Stop execution err
                | None, Ok response => Responded execution response
                | None, Err err => Stop execution err
                end)
      end
  end.

(** The loop with [steps] iterations left. *)
Fixpoint loop (steps : nat) (ctx : Context) (agent : Agent.t) (execution : Execution.t)
    (messages : list ChatMessage.t) : P (Execution.t * option error) :=
  match steps with
  | O => lift (fail ctx execution (ErrorString "workflow exceeded maximum steps"))
  | S steps =>
      round ← lift (think ctx agent execution messages);
      match round with
      | Stop execution cause => lift (fail ctx execution cause)
      | Responded execution response =>
          let conversationID := Execution.ConversationID execution in
          let assistantMessage := ChatMessage.mk "assistant" (Response.Content response) "" "" in
          if decide (Response.ToolCalls response = []) then
            let execution := Execution.set_Output (Response.Content response) execution in
            err ← lift (appendMessage ctx conversationID assistantMessage);
            match err with
            | Some err => lift (fail ctx execution err)
            | None => lift (succeed ctx execution)
            end
          else
            err ← lift (appendMessage ctx conversationID assistantMessage);
            match err with
            | Some err => lift (fail ctx execution err)
            | None =>
                r ← executeTools ctx (Execution.ID execution) (Response.ToolCalls response);
                match r with
                | Err err => lift (fail ctx execution err)
                | Ok toolMessages =>
                    err ← lift (append_messages ctx conversationID toolMessages);
                    match err with
                    | Some err => lift (fail ctx execution err)
                    | None => loop steps ctx agent execution
                                (messages ++ [assistantMessage] ++ toolMessages)
                    end
                end
            end
      end
  end.

(** The conversation so far, as messages for the provider. *)
Definition chat_history (history : list Message.t) : list ChatMessage.t :=
  (λ m, ChatMessage.mk (Message.Role m) (Message.Content m) "" (Message.ToolCallID m))
    <$> history.

(** [Execute] between the two metrics of its beginning and end. *)
Definition execute_body (ctx : Context) (agent : Agent.t) (execution : Execution.t)
    : P (Execution.t * option error) :=
  now ← lift Now;
  let execution := Execution.set_StartedAt (Some now)
                     (Execution.set_Status ExecutionRunning execution) in
  err ← lift (update_execution ctx execution);
  match err with
  | Some err => mret (execution, Some (Wrap "mark execution running" err))
  | None =>
      lift (publish ctx (Event.mk (Execution.ID execution) "agent.started" "" [] now));;
      history ← lift (list_messages ctx (Execution.OwnerID execution)
                        (Execution.ConversationID execution) 50);
      match history with
      | Err err => lift (fail ctx execution (Wrap "load conversation memory" err))
      | Ok history =>
          let userMessage := ChatMessage.mk "user" (Execution.Input execution) "" "" in
          err ← lift (appendMessage ctx (Execution.ConversationID execution) userMessage);
          match err with
          | Some err => lift (fail ctx execution err)
          | None => loop (maxSteps e) ctx agent execution
                      (chat_history history ++ [userMessage])
          end
      end
  end.

Definition Execute (ctx : Context) (agent : Agent.t) (execution : Execution.t)
    : P (Execution.t * option error) :=
  started ← lift Now;
  lift (when (metrics e) (record AgentRequests));;
  r ← execute_body ctx agent execution;
  lift (when (metrics e) (record_since AgentDuration started));;
  mret r.
End engine.
End Engine.
