(* ===== verification/EngineSpec.v ===== *)
(** * What a run of an agent does: the specification of the engine

    The inductive relations of this file say which calls a run makes, in which order,
    and with what result, in terms of the log of the world only: no goroutines, no
    clock, no store.  [reached] ties the log to the parts of the world: the circuit
    breaker, the store's contents and the registry are what the logged calls make of
    their initial state.  [EngineProof] shows that the engine does nothing else. *)

From S2P Require Import Prelude GoLang GoString GoJson Conc Rely Runtime Domain Breaker Retry.
From S2P Require Import Store Tool Llm World Engine.
Open Scope Z_scope.

Definition outcome : Type := (Execution.t * option error).

(** The execution after a round. *)
Definition round_execution (r : Engine.round) : Execution.t :=
  match r with Engine.Stop y _ | Engine.Responded y _ => y end.

(** ** Pieces of the log *)

Definition samples (metrics : bool) (l : list sample) : list Obs :=
  if metrics then OSample <$> l else [].

(** A goroutine's view of one stored message. *)
Definition message_of (conversation : string) (m : ChatMessage.t) (stored : Message.t) : Prop :=
  Message.ConversationID stored = conversation ∧ Message.Role stored = ChatMessage.Role m ∧
  Message.Content stored = ChatMessage.Content m ∧
  Message.ToolCallID stored = ChatMessage.ToolCallID m ∧
  Message.Metadata stored = [("name", VString (ChatMessage.Name m))].

Inductive message_run (conversation : string) (m : ChatMessage.t)
    : option error → list Obs → Prop :=
| message_no_id e : message_run conversation m (Some e) []
| message_stored st r :
    message_of conversation m st →
    message_run conversation m (Wrap "append conversation message" <$> r) [OMessage st r].

Inductive messages_run (conversation : string)
    : list ChatMessage.t → option error → list Obs → Prop :=
| messages_nil : messages_run conversation [] None []
| messages_fail m ms e tr :
    message_run conversation m (Some e) tr → messages_run conversation (m :: ms) (Some e) tr
| messages_cons m ms r tr tr' :
    message_run conversation m None tr → messages_run conversation ms r tr' →
    messages_run conversation (m :: ms) r (tr ++ tr').

(** ** Ends of a run *)

Definition succeeded (x : Execution.t) (now : time) : Execution.t :=
  Execution.set_CompletedAt (Some now) (Execution.set_Status ExecutionSucceeded x).
Definition failed (x : Execution.t) (cause : error) (now : time) : Execution.t :=
  Execution.set_CompletedAt (Some now)
    (Execution.set_Error (Error cause) (Execution.set_Status
       (if Is cause Canceled then ExecutionCancelled else ExecutionFailed) x)).

(** The final write of an execution, and the event that follows when it succeeds. *)
Definition closing (y : Execution.t) (r : option error) (event : Event.t) : list Obs :=
  OUpdate y r :: match r with None => [OPublish event] | Some _ => [] end.

Definition completed_event (y : Execution.t) (now : time) : Event.t :=
  Event.mk (Execution.ID y) "agent.completed" "" [("output", VString (Execution.Output y))] now.
Definition failed_event (y : Execution.t) (now : time) : Event.t :=
  Event.mk (Execution.ID y) "agent.failed" "" [("error", VString (Execution.Error y))] now.

Inductive succeed_run (x : Execution.t) : outcome → list Obs → Prop :=
| succeed_at now r :
    let y := succeeded x now in
    succeed_run x (y, r) (closing y r (completed_event y now)).

Inductive fail_run (metrics : bool) (x : Execution.t) (cause : error)
    : outcome → list Obs → Prop :=
| fail_at now r :
    let y := failed x cause now in
    fail_run metrics x cause
      (y, Some (match r with Some err => Join cause err | None => cause end))
      (samples metrics [AgentErrors] ++ closing y r (failed_event y now)).

(** ** One tool call *)

Inductive tool_body (id : string) (call : ToolCall.t) : result ChatMessage.t → list Obs → Prop :=
| tool_refused e : tool_body id call (Err e) []
| tool_failed e st r started failed_ :
    Event.Type_ started = "tool.started" → Event.ExecutionID started = id →
    Event.Type_ failed_ = "tool.failed" → Event.ExecutionID failed_ = id →
    Event.StepID started = Step.ID st → Event.StepID failed_ = Step.ID st →
    Step.ExecutionID st = id → Step.Type_ st = "tool" → Step.Name st = ToolCall.Name call →
    Step.Error st = Error e →
    tool_body id call (Err (Wrap ("execute tool " +:+ ToolCall.Name call) e))
      [OPublish started; OTool (ToolCall.Name call) (ToolCall.Arguments call) (Err e);
       OStep st r; OPublish failed_]
| tool_not_encoded started output e :
    Event.Type_ started = "tool.started" → Event.ExecutionID started = id →
    Marshal output = Err e →
    tool_body id call
      (Err (Wrap ("encode tool " +:+ ToolCall.Name call +:+ " output") e))
      [OPublish started; OTool (ToolCall.Name call) (ToolCall.Arguments call) (Ok output)]
| tool_not_stored started output st e :
    Event.Type_ started = "tool.started" → Event.ExecutionID started = id →
    Step.ExecutionID st = id → Step.Type_ st = "tool" → Step.Name st = ToolCall.Name call →
    tool_body id call (Err (Wrap "store tool step" e))
      [OPublish started; OTool (ToolCall.Name call) (ToolCall.Arguments call) (Ok output);
       OStep st (Some e)]
| tool_done started output text st completed :
    Event.Type_ started = "tool.started" → Event.ExecutionID started = id →
    Event.Type_ completed = "tool.completed" → Event.ExecutionID completed = id →
    Event.StepID started = Step.ID st → Event.StepID completed = Step.ID st →
    Step.ExecutionID st = id → Step.Type_ st = "tool" → Step.Name st = ToolCall.Name call →
    Step.Output st = [("result", output)] → Step.Error st = "" → Step.RetryCount st = 0 →
    Marshal output = Ok text →
    tool_body id call
      (Ok (ChatMessage.mk "tool" text (ToolCall.Name call) (ToolCall.ID call)))
      [OPublish started; OTool (ToolCall.Name call) (ToolCall.Arguments call) (Ok output);
       OStep st None; OPublish completed].

Inductive tool_run (metrics : bool) (id : string) (call : ToolCall.t) (r : result ChatMessage.t)
    : list Obs → Prop :=
| tool_timed d tr :
    tool_body id call r tr →
    tool_run metrics id call r (tr ++ samples metrics [ToolDuration (ToolCall.Name call) d]).

(** The calls of a round run at the same time: their logs are interleaved. *)
Inductive tools_run (metrics : bool) (id : string) (calls : list ToolCall.t)
    : result (list ChatMessage.t) → list Obs → Prop :=
| tools_interleaved rs trs tr :
    Forall3 (tool_run metrics id) calls rs trs → shuffled trs tr →
    tools_run metrics id calls (Engine.collect rs) tr.

(** ** The call of the model *)

Definition failed_call (req : Request.t) (o : Obs) : Prop := ∃ e, o = OComplete req (Err e).

(** [n] retries: [n + 1] calls, all but the last of which failed. *)
Inductive retry_run (attempts : Z) (req : Request.t)
    : result Response.t → Z → list Obs → Prop :=
| retry_ok front r n :
    Forall (failed_call req) front → Z.of_nat (length front) = n → n < attempts →
    retry_run attempts req (Ok r) n (front ++ [OComplete req (Ok r)])
| retry_err front e n :
    Forall (failed_call req) front → Z.of_nat (length front) = n + 1 → 0 ≤ n < attempts →
    retry_run attempts req (Err e) n front.

Section think.
Context (e : Engine.t) (agent : Agent.t) (definitions : list ToolDefinition.t).

Definition request (msgs : list ChatMessage.t) : Request.t :=
  Request.mk (Agent.Model agent) (Agent.SystemPrompt agent) msgs definitions
    (Agent.Temperature agent) (Agent.MaxTokens agent).

Definition token_samples (r : Response.t) : list sample :=
  [TokenUsage (Agent.Model agent) "input" (Usage.PromptTokens (Response.Usage_ r));
   TokenUsage (Agent.Model agent) "output" (Usage.OutputTokens (Response.Usage_ r))].

(** The step that records the call. *)
Definition llm_step (x : Execution.t) (thinking : Event.t) (n : Z) (st : Step.t) : Prop :=
  Step.ExecutionID st = Execution.ID x ∧ Step.Type_ st = "llm" ∧
  Step.ID st = Event.StepID thinking ∧ Step.RetryCount st = n ∧
  is_Some (Step.CompletedAt st).

(** What every call of the model is surrounded by. *)
Definition called (x : Execution.t) (now : time) (thinking : Event.t) (d : duration)
    (calls : list Obs) : list Obs :=
  [OAllow now true; OPublish thinking] ++ calls ++
  samples (Engine.metrics e) [LLMLatency (Agent.Model agent) d].

Definition thinking_event (x : Execution.t) (event : Event.t) : Prop :=
  Event.Type_ event = "agent.thinking" ∧ Event.ExecutionID event = Execution.ID x.

Abbreviation attempts := (RetryPolicy.MaxAttempts (Engine.retryPolicy e)).

Inductive think_run (x : Execution.t) (msgs : list ChatMessage.t)
    : Engine.round → list Obs → Prop :=
| think_done err : think_run x msgs (Engine.Stop x err) []
| think_open now : think_run x msgs (Engine.Stop x (Sentinel CircuitOpen)) [OAllow now false]
| think_no_id now err : think_run x msgs (Engine.Stop x err) [OAllow now true]
| think_failed now thinking d calls err n failed_at_ st r :
    thinking_event x thinking → retry_run attempts (request msgs) (Err err) n calls →
    llm_step x thinking n st → Step.Error st = Error err →
    think_run x msgs (Engine.Stop (Engine.account n x) err)
      (called x now thinking d calls ++ [OFailure failed_at_; OStep st r])
| think_not_stored now thinking d calls response n st err :
    thinking_event x thinking → retry_run attempts (request msgs) (Ok response) n calls →
    llm_step x thinking n st →
    think_run x msgs
      (Engine.Stop (Engine.account_response response (Engine.account n x))
         (Wrap "store LLM step" err))
      (called x now thinking d calls ++ [OSuccess] ++
       samples (Engine.metrics e) (token_samples response) ++ [OStep st (Some err)])
| think_responded now thinking d calls response n st :
    thinking_event x thinking → retry_run attempts (request msgs) (Ok response) n calls →
    llm_step x thinking n st → Step.Output st = Engine.llm_output response →
    think_run x msgs
      (Engine.Responded (Engine.account_response response (Engine.account n x)) response)
      (called x now thinking d calls ++ [OSuccess] ++
       samples (Engine.metrics e) (token_samples response) ++ [OStep st None]).

(** ** The loop *)

Definition assistant (r : Response.t) : ChatMessage.t :=
  ChatMessage.mk "assistant" (Response.Content r) "" "".

Abbreviation m := (Engine.metrics e).

Inductive loop_run
    : nat → Execution.t → list ChatMessage.t → outcome → list Obs → Prop :=
| loop_exhausted x msgs out tr :
    fail_run m x (ErrorString "workflow exceeded maximum steps") out tr →
    loop_run 0 x msgs out tr
| loop_stopped n x msgs y cause out tr1 tr2 :
    think_run x msgs (Engine.Stop y cause) tr1 → fail_run m y cause out tr2 →
    loop_run (S n) x msgs out (tr1 ++ tr2)
| loop_answered n x msgs y r out tr1 tr2 tr3 :
    think_run x msgs (Engine.Responded y r) tr1 → Response.ToolCalls r = [] →
    message_run (Execution.ConversationID x) (assistant r) None tr2 →
    succeed_run (Execution.set_Output (Response.Content r) y) out tr3 →
    loop_run (S n) x msgs out (tr1 ++ tr2 ++ tr3)
| loop_answer_lost n x msgs y r cause out tr1 tr2 tr3 :
    think_run x msgs (Engine.Responded y r) tr1 → Response.ToolCalls r = [] →
    message_run (Execution.ConversationID x) (assistant r) (Some cause) tr2 →
    fail_run m (Execution.set_Output (Response.Content r) y) cause out tr3 →
    loop_run (S n) x msgs out (tr1 ++ tr2 ++ tr3)
| loop_assistant_lost n x msgs y r cause out tr1 tr2 tr3 :
    think_run x msgs (Engine.Responded y r) tr1 → Response.ToolCalls r ≠ [] →
    message_run (Execution.ConversationID x) (assistant r) (Some cause) tr2 →
    fail_run m y cause out tr3 →
    loop_run (S n) x msgs out (tr1 ++ tr2 ++ tr3)
| loop_tools_failed n x msgs y r cause out tr1 tr2 tr3 tr4 :
    think_run x msgs (Engine.Responded y r) tr1 → Response.ToolCalls r ≠ [] →
    message_run (Execution.ConversationID x) (assistant r) None tr2 →
    tools_run m (Execution.ID x) (Response.ToolCalls r) (Err cause) tr3 →
    fail_run m y cause out tr4 →
    loop_run (S n) x msgs out (tr1 ++ tr2 ++ tr3 ++ tr4)
| loop_results_lost n x msgs y r results cause out tr1 tr2 tr3 tr4 tr5 :
    think_run x msgs (Engine.Responded y r) tr1 → Response.ToolCalls r ≠ [] →
    message_run (Execution.ConversationID x) (assistant r) None tr2 →
    tools_run m (Execution.ID x) (Response.ToolCalls r) (Ok results) tr3 →
    messages_run (Execution.ConversationID x) results (Some cause) tr4 →
    fail_run m y cause out tr5 →
    loop_run (S n) x msgs out (tr1 ++ tr2 ++ tr3 ++ tr4 ++ tr5)
| loop_next n x msgs y r results out tr1 tr2 tr3 tr4 tr5 :
    think_run x msgs (Engine.Responded y r) tr1 → Response.ToolCalls r ≠ [] →
    message_run (Execution.ConversationID x) (assistant r) None tr2 →
    tools_run m (Execution.ID x) (Response.ToolCalls r) (Ok results) tr3 →
    messages_run (Execution.ConversationID x) results None tr4 →
    loop_run n y (msgs ++ [assistant r] ++ results) out tr5 →
    loop_run (S n) x msgs out (tr1 ++ tr2 ++ tr3 ++ tr4 ++ tr5).

(** ** A whole run *)

Definition running (x : Execution.t) (now : time) : Execution.t :=
  Execution.set_StartedAt (Some now) (Execution.set_Status ExecutionRunning x).
Definition started_event (x : Execution.t) (now : time) : Event.t :=
  Event.mk (Execution.ID x) "agent.started" "" [] now.
Definition user_message (x : Execution.t) : ChatMessage.t :=
  ChatMessage.mk "user" (Execution.Input x) "" "".

(** What the loop starts from. *)
Inductive body_run (x : Execution.t) : outcome → list Obs → Prop :=
| body_not_marked now err :
    body_run x (running x now, Some (Wrap "mark execution running" err))
      [OUpdate (running x now) (Some err)]
| body_no_history now err out tr :
    fail_run m (running x now) (Wrap "load conversation memory" err) out tr →
    body_run x out
      ([OUpdate (running x now) None; OPublish (started_event x now)] ++ tr)
| body_input_lost now cause out tr1 tr2 :
    message_run (Execution.ConversationID x) (user_message x) (Some cause) tr1 →
    fail_run m (running x now) cause out tr2 →
    body_run x out
      ([OUpdate (running x now) None; OPublish (started_event x now)] ++ tr1 ++ tr2)
| body_loop now history out tr1 tr2 :
    message_run (Execution.ConversationID x) (user_message x) None tr1 →
    loop_run (Engine.maxSteps e) (running x now)
      (Engine.chat_history history ++ [user_message x]) out tr2 →
    body_run x out
      ([OUpdate (running x now) None; OPublish (started_event x now)] ++ tr1 ++ tr2).

Inductive execute_run (x : Execution.t) : outcome → list Obs → Prop :=
| execute_timed out tr d :
    body_run x out tr →
    execute_run x out (samples m [AgentRequests] ++ tr ++ samples m [AgentDuration d]).
End think.

(** ** The log and the world *)

(** What was filed under an identifier, for a store that knows it by its normal form. *)
Definition logged_steps (key : string → string) (id : string) (tr : list Obs) : list Step.t :=
  omap (λ o, match o with
             | OStep st None => if decide (key id = key (Step.ExecutionID st)) then Some st
                                else None
             | _ => None
             end) tr.
Definition logged_messages (key : string → string) (id : string) (tr : list Obs) : list Message.t :=
  omap (λ o, match o with
             | OMessage msg None => if decide (key id = key (Message.ConversationID msg))
                                    then Some msg else None
             | _ => None
             end) tr.

(** The last successful update of an execution, and what the store holds after the log if it
    held [found] before. *)
Definition logged_update (key : string → string) (id : string) (cur : option Execution.t) (o : Obs)
    : option Execution.t :=
  match o with
  | OUpdate x None => if decide (key (Execution.ID x) = key id) then Some x else cur
  | _ => cur
  end.
Definition last_update (key : string → string) (id : string) (tr : list Obs) : option Execution.t :=
  foldl (logged_update key id) None tr.
Definition stored_after (key : string → string) (keep : Execution.t → Execution.t)
    (found : option Execution.t) (id : string) (tr : list Obs) : option Execution.t :=
  match last_update key id tr with Some x => Some (keep x) | None => found end.

(** The breaker after the logged calls, which must have got the logged answers. *)
Definition breaker_call (b : option CircuitBreaker.t) (o : Obs) : option CircuitBreaker.t :=
  b ← b;
  match o with
  | OAllow now r => if decide ((Allow now b).1 = r) then Some (Allow now b).2 else None
  | OSuccess => Some (Success b)
  | OFailure now => Some (Failure now b)
  | _ => Some b
  end.
Definition breaker_after (b : CircuitBreaker.t) (tr : list Obs) : option CircuitBreaker.t :=
  foldl breaker_call (Some b) tr.

(** A state of one of the executions [xs]. *)
Definition known (xs : list Execution.t) (x : Execution.t) : Prop :=
  ∃ x0, x0 ∈ xs ∧ same_identity x0 x.

Section reached.
Context {DB SK QU : Type} `{StoreOps DB, StoreView DB}.
Abbreviation W := (World DB SK QU).

(** The store holds an execution. *)
Definition holds (x : Execution.t) (w : W) : Prop :=
  ∃ y, stored (w_store w) (Execution.ID x) = Some y ∧ same_identity (kept DB x) y.

Context (xs : list Execution.t) (w0 : W).

(** The executions of [xs] that were stored still are. *)
Definition still_stored (s : DB) : Prop :=
  ∀ x, x ∈ xs → holds x w0 → is_Some (stored s (Execution.ID x)).

(** A logged answer is one the part gave, in a state the runs can reach; only states of the
    executions of the runs are written. *)
Definition answered (o : Obs) : Prop :=
  match o with
  | OUpdate x r => known xs x ∧ ∃ c s, (UpdateExecution c x s).1 = r ∧ still_stored s
  | OStep st r => ∃ c s, (AppendStep c st s).1 = r ∧ still_stored s
  | OMessage m r => ∃ c s, (AppendMessage c m s).1 = r ∧ same_conversations (w_store w0) s
  | OTool name arguments r => ∃ c item, Registry.Get name (w_tools w0) = Some item ∧
                                        Execute_ item c arguments = r
  | _ => True
  end.

(** Runs of the executions [xs] take the world [w0] to [w] and log [tr]. *)
Record reached (tr : list Obs) (w : W) : Prop := mk_reached {
  reached_log : w_log w = w_log w0 ++ tr;
  reached_tools : w_tools w = w_tools w0;
  reached_queue : w_queue w = w_queue w0;
  reached_breaker : breaker_after (w_breaker w0) tr = Some (w_breaker w);
  reached_steps i :
    steps_of (w_store w) i =
    steps_of (w_store w0) i ++ (kept_step DB <$> logged_steps (key DB) i tr);
  reached_messages i :
    messages_of (w_store w) i =
    messages_of (w_store w0) i ++ (kept_message DB <$> logged_messages (key DB) i tr);
  reached_agents : same_agents (w_store w0) (w_store w);
  reached_conversations : same_conversations (w_store w0) (w_store w);
  reached_answers : Forall answered tr;
  reached_holds x : x ∈ xs → holds x w0 → holds x w;
  reached_apart : apart (w_store w0) → apart (w_store w);
  reached_stored i :
    (∀ x, x ∈ xs → holds x w0) →
    stored (w_store w) i = stored_after (key DB) (kept DB) (stored (w_store w0) i) i tr
}.
End reached.

(** ** Logs that come in pieces *)

Section log_lemmas.
Context (key : string → string).
Abbreviation logged_steps := (logged_steps key).
Abbreviation logged_messages := (logged_messages key).

Lemma logged_steps_app i tr1 tr2 :
  logged_steps i (tr1 ++ tr2) = logged_steps i tr1 ++ logged_steps i tr2.
Proof. apply omap_app. Qed.

Lemma logged_messages_app i tr1 tr2 :
  logged_messages i (tr1 ++ tr2) = logged_messages i tr1 ++ logged_messages i tr2.
Proof. apply omap_app. Qed.

Lemma logged_steps_one i st :
  logged_steps i [OStep st None] = if decide (key i = key (Step.ExecutionID st)) then [st] else [].
Proof. unfold EngineSpec.logged_steps. simpl. by case_decide. Qed.
Lemma logged_messages_one i msg :
  logged_messages i [OMessage msg None] =
  if decide (key i = key (Message.ConversationID msg)) then [msg] else [].
Proof. unfold EngineSpec.logged_messages. simpl. by case_decide. Qed.

Lemma logged_steps_snoc i tr st :
  logged_steps i (tr ++ [OStep st None]) =
  if decide (key i = key (Step.ExecutionID st)) then logged_steps i tr ++ [st] else logged_steps i tr.
Proof.
  rewrite logged_steps_app, logged_steps_one. case_decide; [done|apply app_nil_r].
Qed.
(** Other observations add nothing. *)
Lemma logged_steps_none i o :
  match o with OStep _ None => False | _ => True end → logged_steps i [o] = [].
Proof. by destruct o as [| ? []| | | | | | | |]. Qed.
Lemma logged_messages_none i o :
  match o with OMessage _ None => False | _ => True end → logged_messages i [o] = [].
Proof. by destruct o as [| |? []| | | | | | |]. Qed.

Lemma logged_steps_snoc_other i tr o :
  match o with OStep _ None => False | _ => True end →
  logged_steps i (tr ++ [o]) = logged_steps i tr.
Proof.
  intros Ho. by rewrite logged_steps_app, (logged_steps_none _ _ Ho), app_nil_r.
Qed.

Lemma last_update_app i tr1 tr2 :
  last_update key i (tr1 ++ tr2) =
  match last_update key i tr2 with Some x => Some x | None => last_update key i tr1 end.
Proof.
  unfold last_update. rewrite foldl_app. generalize (foldl (logged_update key i) None tr1).
  induction tr2 as [|o tr2 IH] using rev_ind; intros cur; [done|].
  rewrite !foldl_app. simpl. rewrite IH.
  destruct o as [x []| | | | | | | | |]; simpl; try done. by case_decide.
Qed.

Lemma stored_after_app keep found i tr1 tr2 :
  stored_after key keep found i (tr1 ++ tr2) =
  stored_after key keep (stored_after key keep found i tr1) i tr2.
Proof. unfold stored_after. rewrite last_update_app. by destruct (last_update key i tr2). Qed.

Lemma breaker_after_app b tr1 tr2 b' :
  breaker_after b tr1 = Some b' → breaker_after b (tr1 ++ tr2) = breaker_after b' tr2.
Proof. unfold breaker_after. rewrite foldl_app. by intros ->. Qed.
End log_lemmas.

(** Interleaving changes the order of what is stored only. *)
#[export] Instance logged_steps_perm key i : Proper ((≡ₚ) ==> (≡ₚ)) (logged_steps key i).
Proof. intros tr1 tr2 Hp. unfold logged_steps. by rewrite Hp. Qed.
