(* ===== verification/EngineProof.v ===== *)
(** * The engine implements its specification

    Every method of the engine, under any timing, any random outcome and any
    interleaving of its tool calls, terminates without panicking and logs what the relations
    of [EngineSpec] say. *)

From S2P Require Import Prelude GoLang GoString GoJson Conc Rely Runtime Id Domain Breaker Retry.
From S2P Require Import Store Tool Llm World Engine EngineSpec.
Open Scope Z_scope.

(** Observations that say nothing about the store or the breaker. *)
Definition silent (o : Obs) : Prop :=
  match o with
  | OUpdate _ None | OStep _ None | OMessage _ None => False
  | OAllow _ _ | OSuccess | OFailure _ => False
  | _ => True
  end.

(** Rewriting a log into the shape of a constructor. *)
Ltac log_as t :=
  match goal with
  | |- ?R ?tr => replace tr with t by (unfold called; simpl; rewrite <-?(assoc_L (++)); done)
  end.

(** ** Worlds that runs reach *)

(** Different executions of [xs] are stored under different identifiers. *)
Definition told_apart (key : string → string) (xs : list Execution.t) : Prop :=
  ∀ x y, x ∈ xs → y ∈ xs → key (Execution.ID x) = key (Execution.ID y) → same_identity x y.

Lemma told_apart_one key x : told_apart key [x].
Proof. by intros y z ->%list_elem_of_singleton ->%list_elem_of_singleton. Qed.

Lemma known_one x : known [x] x.
Proof. exists x. split; [apply list_elem_of_here|done]. Qed.

Lemma known_step xs x y : known xs x → same_identity x y → known xs y.
Proof. intros (x0 & Hin & Hx) Hy. exists x0. split; [done|by etrans]. Qed.

Section worlds.
Context {DB SK QU : Type} `{StoreLaws DB} (xs : list Execution.t).
Context (Hxs : told_apart (key DB) xs).
Abbreviation W := (World DB SK QU).
Abbreviation reached := (reached xs).
Implicit Types (w : W) (tr : list Obs).

(** Worlds that differ in their clocks and the state of the event sink only. *)
Lemma reached_same w w' :
  w_log w' = w_log w → w_tools w' = w_tools w → w_queue w' = w_queue w →
  w_breaker w' = w_breaker w → w_store w' = w_store w → reached w [] w'.
Proof.
  intros El Et Eq Eb Es. split; rewrite ?El, ?Et, ?Eq, ?Eb, ?Es; try done.
  all: intros; simpl; rewrite ?(right_id_L [] (++)); try done.
  unfold holds. by rewrite Es.
Qed.

Lemma answered_earlier w tr w1 o :
  reached w tr w1 → answered xs w1 o → answered xs w o.
Proof.
  intros Hr. destruct o; simpl; try done.
  - intros [Hx (c & s & Hu & Hk)]. split; [done|]. exists c, s. split; [done|].
    intros x0 Hin Hh. by apply Hk, (reached_holds _ _ _ _ Hr).
  - intros (c & s & Hu & Hk). exists c, s. split; [done|]. intros x0 Hin Hh.
    by apply Hk, (reached_holds _ _ _ _ Hr).
  - intros (c & s & Hu & Hk). exists c, s. split; [done|].
    intros i. by rewrite Hk, (reached_conversations _ _ _ _ Hr).
  - by rewrite (reached_tools _ _ _ _ Hr).
Qed.

Lemma reached_trans w tr w1 tr' w2 :
  reached w tr w1 → reached w1 tr' w2 → reached w (tr ++ tr') w2.
Proof.
  intros Hr1 Hr2. pose proof (λ o, answered_earlier w tr w1 o Hr1) as Han.
  destruct Hr1 as [E1 E2 E3 E4 E5 E6 E7 E8 Ea E9 Eap E10].
  destruct Hr2 as [F1 F2 F3 F4 F5 F6 F7 F8 Fa F9 Fap F10]. split.
  - by rewrite F1, E1, (assoc_L (++)).
  - by rewrite F2.
  - by rewrite F3.
  - by rewrite (breaker_after_app _ _ _ _ E4).
  - intros i. by rewrite F5, E5, logged_steps_app, fmap_app, (assoc_L (++)).
  - intros i. by rewrite F6, E6, logged_messages_app, fmap_app, (assoc_L (++)).
  - intros i. by rewrite F7.
  - intros i. by rewrite F8.
  - apply Forall_app_2; [done|]. eapply Forall_impl; [exact Fa|exact Han].
  - eauto.
  - eauto.
  - intros i Hh. rewrite F10, E10, stored_after_app by eauto. done.
Qed.

#[export] Instance reached_labelled (tools : Registry.t) :
  Labelled reached (λ w, w_tools w = tools).
Proof.
  split.
  - intros w. by apply reached_same.
  - apply reached_trans.
  - intros w tr w' Hr <-. by destruct Hr.
Qed.

#[export] Instance reached_always : Labelled reached (λ _ : W, True).
Proof. split; [intros w; by apply reached_same|apply reached_trans|done]. Qed.

Lemma reached_silent o w : silent o → answered xs w o → reached w [o] (emit o w).
Proof.
  intros Ho Han. split; try done.
  - by destruct o.
  - intros i. rewrite logged_steps_none by (by destruct o as [|? []| | | | | | | |]).
    by rewrite fmap_nil, app_nil_r.
  - intros i. rewrite logged_messages_none by (by destruct o as [| |? []| | | | | | |]).
    by rewrite fmap_nil, app_nil_r.
  - by apply Forall_singleton.
  - intros i _. by destruct o as [? []| | | | | | | | |].
Qed.

Lemma reached_breaker_call o b w :
  breaker_call (Some (w_breaker w)) o = Some b →
  match o with OAllow _ _ | OSuccess | OFailure _ => True | _ => False end →
  reached w [o] (emit o (set_breaker b w)).
Proof.
  intros Hb Ho. split; try done.
  - intros i. by rewrite logged_steps_none, fmap_nil, app_nil_r by (by destruct o).
  - intros i. by rewrite logged_messages_none, fmap_nil, app_nil_r by (by destruct o).
  - apply Forall_singleton. by destruct o.
  - intros i _. by destruct o.
Qed.

(** *** Writing to the store *)

Lemma still_stored_now w : still_stored xs w (w_store w).
Proof. intros x _ (y & Hy & _). by eexists. Qed.

Lemma reached_step c st w :
  reached w [OStep st (AppendStep c st (w_store w)).1]
    (emit (OStep st (AppendStep c st (w_store w)).1)
          (set_store (AppendStep c st (w_store w)).2 w)).
Proof.
  assert (answered xs w (OStep st (AppendStep c st (w_store w)).1)) as Han.
  { exists c, (w_store w). split; [done|apply still_stored_now]. }
  destruct (AppendStep c st (w_store w)).1 as [err|] eqn:E.
  { rewrite (step_failed _ _ _ _ E). destruct w. by apply reached_silent. }
  destruct (step_frame c st (w_store w)) as (Fa & Fc & Fs & Fm). split; try done; cbn [emit set_store w_store].
  - intros i. rewrite step_appended, logged_steps_one by done.
    case_decide; [done|by rewrite fmap_nil, app_nil_r].
  - intros i. by rewrite Fm, logged_messages_none, fmap_nil, app_nil_r.
  - by apply Forall_singleton.
  - intros x _ (y & Hy & Hi). exists y. simpl. by rewrite Fs.
  - apply apart_step.
Qed.

Lemma reached_message c msg w :
  reached w [OMessage msg (AppendMessage c msg (w_store w)).1]
    (emit (OMessage msg (AppendMessage c msg (w_store w)).1)
          (set_store (AppendMessage c msg (w_store w)).2 w)).
Proof.
  assert (answered xs w (OMessage msg (AppendMessage c msg (w_store w)).1)) as Han.
  { by exists c, (w_store w). }
  destruct (AppendMessage c msg (w_store w)).1 as [err|] eqn:E.
  { rewrite (message_failed _ _ _ _ E). destruct w. by apply reached_silent. }
  destruct (message_frame c msg (w_store w)) as (Fa & Fc & Fs & Fm). split; try done; cbn [emit set_store w_store].
  - intros i. by rewrite Fm, logged_steps_none, fmap_nil, app_nil_r.
  - intros i. rewrite message_appended, logged_messages_one by done.
    case_decide; [done|by rewrite fmap_nil, app_nil_r].
  - by apply Forall_singleton.
  - intros x _ (y & Hy & Hi). exists y. simpl. by rewrite Fs.
  - apply apart_message.
Qed.

Lemma reached_update c x w :
  known xs x →
  reached w [OUpdate x (UpdateExecution c x (w_store w)).1]
    (emit (OUpdate x (UpdateExecution c x (w_store w)).1)
          (set_store (UpdateExecution c x (w_store w)).2 w)).
Proof.
  intros (x0 & Hin0 & Hx).
  assert (answered xs w (OUpdate x (UpdateExecution c x (w_store w)).1)) as Han.
  { split; [by exists x0|]. exists c, (w_store w). split; [done|apply still_stored_now]. }
  destruct (UpdateExecution c x (w_store w)).1 as [err|] eqn:E.
  { rewrite (update_failed _ _ _ _ E). destruct w. by apply reached_silent. }
  destruct (update_frame c x (w_store w)) as (Fa & Fc & Fs & Fm).
  assert (∀ i, holds x0 w → key DB (Execution.ID x) = key DB i →
    stored (UpdateExecution c x (w_store w)).2 i = Some (kept DB x)) as Hup.
  { intros i (y & Hy & Hi) Hk. assert (Execution.ID x0 = Execution.ID x) as Hid by apply Hx.
    rewrite Hid in Hy. apply (update_stored c x y); [done|done| |done].
    by rewrite <-(kept_identity x0 x Hx). }
  split; try done; cbn [emit set_store w_store].
  - intros i. by rewrite Fs, logged_steps_none, fmap_nil, app_nil_r.
  - intros i. by rewrite Fm, logged_messages_none, fmap_nil, app_nil_r.
  - by apply Forall_singleton.
  - intros x1 Hin1 Hh. destruct (decide (key DB (Execution.ID x) = key DB (Execution.ID x1))) as [Hk|Hk].
    + assert (same_identity x0 x1) as H01 by (apply Hxs; [done..|by rewrite (proj1 Hx)]).
      exists (kept DB x). split; [simpl; apply Hup; [|done]|].
      * destruct Hh as (y & Hy & Hi). exists y. rewrite (proj1 H01).
        split; [done|by rewrite (kept_identity x0 x1 H01)].
      * apply kept_identity. by rewrite <-H01.
    + destruct Hh as (y & Hy & Hi). exists y. simpl. by rewrite update_other.
  - apply apart_updated.
  - intros i Hh. unfold stored_after, last_update. simpl. case_decide as Hd.
    + by apply Hup; [apply Hh|].
    + by rewrite update_other.
Qed.
End worlds.

(** An invariant that fixes the registry. *)
Class WithTools {DB SK QU : Type} (I : World DB SK QU → Prop) (tools : Registry.t) : Prop :=
  with_tools w : I w → w_tools w = tools.

#[export] Instance same_tools {DB SK QU} (tools : Registry.t) :
  WithTools (λ w : World DB SK QU, w_tools w = tools) tools.
Proof. by intros w. Qed.

Section proof.
Context `{Env} {DB SK QU : Type} `{StoreLaws DB, SinkOps SK, Counters, Unicode}.
Abbreviation W := (World DB SK QU).
(** What may be assumed of the world before every action; the tools, which do not change;
    and the executions that are running. *)
Context {I : W → Prop} {tools : Registry.t} `{!WithTools I tools}.
Context (xs : list Execution.t) (Hxs : told_apart (key DB) xs).
Implicit Types (w : W) (tr acc : list Obs).

(** The judgement of this file: [p] run by one goroutine of the engine. *)
Definition logs {A} (p : prog W A) (acc : list Obs) (P : A → list Obs → Prop) : Prop :=
  tspec (reached xs) I p acc P.
Arguments logs : simpl never.

(** *** The rules of the judgement *)

Lemma logs_ret {A} (a : A) acc (P : A → list Obs → Prop) : P a acc → logs (mret a) acc P.
Proof. done. Qed.

Lemma logs_bind {A B} (p : prog W A) (k : A → prog W B) acc P :
  logs p acc (λ a acc', logs (k a) acc' P) → logs (p ≫= k) acc P.
Proof. apply tspec_bind. Qed.

(** A method whose own log has been described. *)
Lemma logs_sub {A} (p : prog W A) acc (P Q : A → list Obs → Prop) :
  logs p [] P → (∀ a tr, P a tr → Q a (acc ++ tr)) → logs p acc Q.
Proof.
  intros HP HQ. rewrite <-(app_nil_r acc). apply tspec_app.
  eapply tspec_mono; [exact HP|]. auto.
Qed.

(** An action starts by letting time pass. *)
Lemma reached_later w tr w' : reached xs (advance w) tr w' → reached xs w tr w'.
Proof. intros Hr. apply (reached_trans xs w [] (advance w)); [by apply reached_same|done]. Qed.

(** An action of a world with the registry [tools]. *)
Lemma logs_with_tools {X} (f : Runtime → W → X * W) acc P :
  (∀ rt w, w_tools w = tools → ∃ e, reached xs w e (f rt w).2 ∧ P (f rt w).1 (acc ++ e)) →
  logs (atomic f) acc P.
Proof.
  intros Hf. apply tspec_act. intros w Hw.
  assert (w_tools (advance w) = tools) as Hw' by exact (with_tools w Hw).
  destruct (Hf (get_rt (advance w)) (advance w) Hw') as (e & Hr & HP).
  exists e. split; [by apply reached_later|done].
Qed.

Lemma logs_atomic {X} (f : Runtime → W → X * W) acc P :
  (∀ rt w, ∃ e, reached xs w e (f rt w).2 ∧ P (f rt w).1 (acc ++ e)) →
  logs (atomic f) acc P.
Proof.
  intros Hf. apply tspec_act. intros w _.
  destruct (Hf (get_rt (advance w)) (advance w)) as (e & Hr & HP).
  exists e. split; [by apply reached_later|done].
Qed.

(** An action that logs nothing and changes nothing. *)
Lemma logs_read {X} (f : Runtime → W → X * W) acc P :
  (∀ rt w, (f rt w).2 = w ∧ P (f rt w).1 acc) → logs (atomic f) acc P.
Proof.
  intros Hf. apply logs_atomic. intros rt w. destruct (Hf rt w) as [-> HP].
  exists []. rewrite app_nil_r. split; [by apply reached_same|done].
Qed.

Lemma logs_Now acc P : (∀ now, P now acc) → logs Now acc P.
Proof. intros HP. apply logs_read. by intros rt w. Qed.

Lemma logs_check_ctx ctx acc P : (∀ r, P r acc) → logs (check_ctx ctx) acc P.
Proof. intros HP. apply logs_read. by intros rt w. Qed.

Lemma logs_with_timeout ctx d acc P : (∀ c, P c acc) → logs (with_timeout ctx d) acc P.
Proof. intros HP. apply logs_read. by intros rt w. Qed.

Lemma logs_New acc (P : result string → list Obs → Prop) :
  (∀ r, P r acc) → logs Id.New acc P.
Proof.
  intros HP. apply logs_bind. unfold ReadRandom. apply logs_read. intros rt w.
  split; [done|]. apply logs_ret. done.
Qed.

Lemma logs_tool_get name acc P :
  P (Registry.Get name tools) acc → logs (tool_get name) acc P.
Proof.
  intros HP. apply logs_with_tools. intros rt w Hw. exists []. rewrite app_nil_r.
  split; [by apply reached_same|]. simpl. by rewrite Hw.
Qed.

Lemma logs_tool_definitions names acc P :
  P (Registry.Definitions names tools) acc → logs (tool_definitions names) acc P.
Proof.
  intros HP. apply logs_with_tools. intros rt w Hw. exists []. rewrite app_nil_r.
  split; [by apply reached_same|]. simpl. by rewrite Hw.
Qed.

Lemma logs_update ctx x acc P :
  known xs x → (∀ r, P r (acc ++ [OUpdate x r])) →
  logs (update_execution ctx x) acc P.
Proof.
  intros Hx HP. apply logs_atomic. intros rt w.
  pose proof (reached_update xs Hxs (call_at ctx rt) x w Hx) as Hr'.
  destruct (UpdateExecution _ x (w_store w)) as [r s]. by eexists.
Qed.

Lemma logs_step ctx st acc P :
  (∀ r, P r (acc ++ [OStep st r])) → logs (append_step ctx st) acc P.
Proof.
  intros HP. apply logs_atomic. intros rt w.
  pose proof (reached_step xs (call_at ctx rt) st w) as Hr'.
  destruct (AppendStep _ st (w_store w)) as [r s]. by eexists.
Qed.

Lemma logs_message ctx msg acc P :
  (∀ r, P r (acc ++ [OMessage msg r])) → logs (append_message ctx msg) acc P.
Proof.
  intros HP. apply logs_atomic. intros rt w.
  pose proof (reached_message xs (call_at ctx rt) msg w) as Hr'.
  destruct (AppendMessage _ msg (w_store w)) as [r s]. by eexists.
Qed.

Lemma logs_publish ctx event acc P :
  P tt (acc ++ [OPublish event]) → logs (publish ctx event) acc P.
Proof.
  intros HP. apply logs_atomic. intros rt w.
  destruct (Publish (call_at ctx rt) event (w_sink w)) as [r k]. eexists.
  split; [|done].
  apply (reached_trans xs w [] (set_sink k w)); [by apply reached_same|by apply reached_silent].
Qed.

(** An action that only logs an observation. *)
Lemma logs_emit {X} (f : Runtime → W → X) (o : Runtime → W → Obs) acc P :
  (∀ rt w, silent (o rt w)) → (∀ rt w, answered xs w (o rt w)) →
  (∀ rt w, P (f rt w) (acc ++ [o rt w])) →
  logs (atomic (λ rt w, (f rt w, emit (o rt w) w))) acc P.
Proof.
  intros Ho Han HP. apply logs_atomic. intros rt w. exists [o rt w].
  split; [|apply HP]. by apply reached_silent; [apply Ho|apply Han].
Qed.

Lemma logs_complete provider ctx req acc P :
  (∀ c, P (provider c req) (acc ++ [OComplete req (provider c req)])) →
  logs (complete provider ctx req) acc P.
Proof. intros HP. unfold complete. by apply logs_emit. Qed.

Lemma logs_tool_execute item ctx name args acc P :
  Registry.Get name tools = Some item →
  (∀ c, P (Execute_ item c args) (acc ++ [OTool name args (Execute_ item c args)])) →
  logs (tool_execute item ctx name args) acc P.
Proof.
  intros Hg HP. unfold tool_execute. apply logs_with_tools. intros rt w Hw. eexists.
  split; [|apply HP]. apply reached_silent; [done|]. exists (call_at ctx rt), item. by rewrite Hw.
Qed.

Lemma logs_record s acc P : P tt (acc ++ [OSample s]) → logs (record s) acc P.
Proof. intros HP. unfold record. by apply logs_emit. Qed.

Lemma logs_record_since s started acc P :
  (∀ d, P tt (acc ++ [OSample (s d)])) → logs (record_since s started) acc P.
Proof. intros HP. unfold record_since. by apply logs_emit. Qed.

Lemma logs_record_tokens model direction n acc P :
  0 ≤ n → P tt (acc ++ [OSample (TokenUsage model direction n)]) →
  logs (record_tokens model direction n) acc P.
Proof.
  intros Hn HP w Hw. simpl. rewrite counter_increases by done.
  eexists. split; [|exact HP]. by apply reached_later, reached_silent.
Qed.

Lemma logs_when (b : bool) (p : prog W unit) acc P :
  (b = true → logs p acc P) → (b = false → P tt acc) → logs (when b p) acc P.
Proof. destruct b; intros Ht Hf; [by apply Ht|by apply logs_ret, Hf]. Qed.

Lemma logs_breaker_allow acc P :
  (∀ now r, P r (acc ++ [OAllow now r])) → logs breaker_allow acc P.
Proof.
  intros HP. apply logs_atomic. intros rt w.
  destruct (Allow (rt_now rt) (w_breaker w)) as [r b] eqn:E. eexists. split; [|apply HP].
  simpl. apply reached_breaker_call; [|done]. simpl. by rewrite E, decide_True.
Qed.

Lemma logs_breaker_success acc P : P tt (acc ++ [OSuccess]) → logs breaker_success acc P.
Proof.
  intros HP. apply logs_atomic. intros rt w. eexists. split; [|apply HP].
  by apply reached_breaker_call.
Qed.

Lemma logs_breaker_failure acc P :
  (∀ now, P tt (acc ++ [OFailure now])) → logs breaker_failure acc P.
Proof.
  intros HP. apply logs_atomic. intros rt w. eexists. split; [|apply HP].
  by apply reached_breaker_call.
Qed.

(** The limit the engine asks for is not negative, so the store does not panic. *)
Lemma logs_list_messages ctx owner conversation n acc P :
  (∀ r, P r acc) → logs (list_messages ctx owner conversation (Z.of_nat n)) acc P.
Proof.
  intros HP w Hw. simpl.
  destruct (list_messages_no_panic (call_at ctx (w_rt (advance w))) owner conversation n
              (w_store (advance w))) as [r Hl].
  simpl in Hl. rewrite Hl. exists []. rewrite app_nil_r.
  split; [by apply reached_same|apply HP].
Qed.

Lemma logs_Int64N n acc P : 0 < n → (∀ j, P j acc) → logs (Int64N n) acc P.
Proof.
  intros Hn HP w Hw. simpl. case_cmp; [lia|]. exists []. rewrite app_nil_r.
  split; [by apply reached_same|apply HP].
Qed.

Lemma logs_select_timer ctx d acc P : (∀ r, P r acc) → logs (select_timer ctx d) acc P.
Proof.
  intros HP. apply logs_atomic. intros rt w. exists []. rewrite app_nil_r.
  split; [|apply HP]. destruct (ctx_done ctx) as [[t err]|]; simpl; [case_match|]; by apply reached_same.
Qed.

(** One step of a goroutine: bind, then the rule of the action. *)
Ltac log_action :=
  first [ apply logs_Now; intros ? | apply logs_New; intros [?|?]
        | apply logs_check_ctx; intros [?|] | apply logs_with_timeout; intros ?
        | apply logs_tool_get | apply logs_tool_definitions
        | apply logs_step; intros ? | apply logs_message; intros ?
        | apply logs_publish | apply logs_complete; intros ?
        | apply logs_tool_execute; [done|intros ?]
        | apply logs_record | apply logs_record_since; intros ?
        | apply logs_breaker_allow; intros ? ? | apply logs_breaker_success
        | apply logs_breaker_failure; intros ?
        | apply logs_select_timer; intros [?|]
        | apply logs_update; [done|intros ?] ].
Ltac log_step := cbv zeta; first [ apply logs_bind; log_action | log_action ]; cbv beta iota.
Ltac log_steps := repeat log_step.

(** *** The methods *)

Lemma appendMessage_logs ctx conversation m :
  logs (Engine.appendMessage ctx conversation m) [] (message_run conversation m).
Proof.
  unfold Engine.appendMessage. log_step; [|apply logs_ret; constructor].
  log_steps. apply logs_ret. by constructor.
Qed.

Lemma append_messages_logs ctx conversation ms :
  logs (Engine.append_messages ctx conversation ms) [] (messages_run conversation ms).
Proof.
  induction ms as [|m ms IH]; cbn [Engine.append_messages]; [apply logs_ret; constructor|].
  apply logs_bind. eapply logs_sub; [apply appendMessage_logs|]. intros [err|] tr Hm; simpl.
  - apply logs_ret. by constructor.
  - eapply logs_sub; [exact IH|]. intros r tr' Hms. by constructor.
Qed.

Lemma succeed_logs ctx x :
  known xs x → logs (Engine.succeed ctx x) [] (succeed_run x).
Proof.
  intros Hx. unfold Engine.succeed. log_step. apply logs_bind, logs_update; [done|].
  intros [err|].
  - apply logs_ret. by constructor.
  - log_steps. apply logs_ret. apply (succeed_at x _ None).
Qed.

Lemma fail_logs e ctx x cause :
  known xs x →
  logs (Engine.fail e ctx x cause) [] (fail_run (Engine.metrics e) x cause).
Proof.
  intros Hx. unfold Engine.fail. apply logs_bind.
  assert (∀ acc, acc = samples (Engine.metrics e) [AgentErrors] →
    ∀ P, (∀ out tr, fail_run (Engine.metrics e) x cause out tr → P out tr) →
    logs (now ← Now;
          let y := failed x cause now in
          err ← update_execution ctx y;
          match err with
          | Some err => mret (y, Some (Join cause err))
          | None => publish Background (failed_event y now);; mret (y, Some cause)
          end) acc P) as Hrest.
  { intros acc -> P HP. log_step. apply logs_bind, logs_update; [done|].
    intros [err|].
    - apply logs_ret, HP. by apply (fail_at _ x cause _ (Some err)).
    - log_steps. apply logs_ret, HP. rewrite <-(assoc_L (++)).
      by apply (fail_at _ x cause _ None). }
  apply logs_when; intros Hm; [apply logs_record|]; (apply Hrest; [by rewrite Hm|done]).
Qed.

Lemma executeTool_logs e ctx id call :
  logs (Engine.executeTool e ctx id call) []
       (tool_run (Engine.metrics e) id call).
Proof.
  unfold Engine.executeTool. log_step. apply logs_bind.
  apply (logs_sub _ [] (tool_body id call)).
  - log_step. destruct (Registry.Get _ _) as [item|] eqn:Hg; [|apply logs_ret; constructor].
    log_step; [|apply logs_ret; constructor]. log_steps.
    destruct (Execute_ item _ _) as [output|err].
    + destruct (Marshal output) as [text|err] eqn:Hm; [|apply logs_ret; by constructor].
      log_step. case_match.
      * apply logs_ret. by constructor.
      * log_steps. apply logs_ret. by econstructor.
    + log_steps. apply logs_ret. by constructor.
  - intros r tr Hr. simpl. apply logs_bind, logs_when; intros Hm.
    + log_steps. apply logs_ret. rewrite Hm. by apply (tool_timed true).
    + apply logs_ret. rewrite Hm, <-(app_nil_r tr). by apply (tool_timed false _ _ _ 0).
Qed.

(** *** The call of the model *)

Context (e : Engine.t) (agent : Agent.t).
Abbreviation pol := (Engine.retryPolicy e).
Abbreviation definitions := (Registry.Definitions (Agent.Tools agent) tools).
(** At least one attempt is made, and usage can be counted. *)
Context (Hattempts : 1 ≤ RetryPolicy.MaxAttempts pol).
Context (Hsane : Engine.metrics e = true → sane_provider (Engine.provider e)).

Definition countable (r : result Response.t) : Prop :=
  ∀ v, Engine.metrics e = true → r = Ok v → sane_usage v.

Lemma call_provider_logs ctx msgs acc P :
  (∀ r, countable r → P r (acc ++ [OComplete (request agent definitions msgs) r])) →
  logs (Engine.call_provider e agent msgs ctx) acc P.
Proof.
  intros HP. unfold Engine.call_provider. log_step. apply logs_complete. intros c.
  apply HP. intros v Hm Hv. by eapply Hsane.
Qed.

Lemma Retry_logs ctx msgs :
  logs (Retry ctx pol (Engine.call_provider e agent msgs)) []
    (λ rr tr, countable rr.1 ∧
       retry_run (RetryPolicy.MaxAttempts pol) (request agent definitions msgs) rr.1 rr.2 tr).
Proof.
  set (req := request _ _ _).
  unfold Retry. case_cmp; [lia|]. simpl.
  assert (∀ fuel a front,
    Z.of_nat fuel = RetryPolicy.MaxAttempts pol - a + 1 →
    1 ≤ a ≤ RetryPolicy.MaxAttempts pol →
    Forall (failed_call req) front → Z.of_nat (length front) = a - 1 →
    logs (retry_loop ctx pol (Engine.call_provider e agent msgs) fuel a) front
      (λ rr tr, countable rr.1 ∧
                retry_run (RetryPolicy.MaxAttempts pol) req rr.1 rr.2 tr)) as Hloop.
  { intros fuel. induction fuel as [|fuel IH]; intros a front Hf Ha HF Hl; [lia|].
    cbn [retry_loop]. apply logs_bind, call_provider_logs. fold req. intros [v|err] Hc.
    { apply logs_ret. split; [done|]. simpl. apply retry_ok; [done|lia|lia]. }
    assert (Forall (failed_call req) (front ++ [OComplete req (Err err)])) as HF'.
    { apply Forall_app_2; [done|]. apply Forall_singleton. by exists err. }
    assert (Z.of_nat (length (front ++ [OComplete req (Err err)])) = a) as Hl'.
    { rewrite length_app. simpl. lia. }
    destruct (Z.eqb_spec a (RetryPolicy.MaxAttempts pol)).
    { apply logs_ret. split; [done|]. simpl. apply retry_err; [done|lia|lia]. }
    cbv zeta. apply logs_bind, logs_Int64N; [unfold jitter_bound; lia|]. intros j.
    log_step.
    - apply logs_ret. split; [by intros v|]. simpl. apply retry_err; [done|lia|lia].
    - apply IH; [lia|lia|done|lia]. }
  apply Hloop; [lia|lia|constructor|simpl; lia].
Qed.

(** What [finish_llm] logs, and what it makes of the execution. *)
Inductive finish_run (x : Execution.t) (step : Step.t) (n : Z)
    : result Response.t → Execution.t * option error → list Obs → Prop :=
| finish_failed err now st r :
    st = Step.set_Error (Error err)
           (Step.set_CompletedAt (Step.CompletedAt st) (Step.set_RetryCount n step)) →
    is_Some (Step.CompletedAt st) →
    finish_run x step n (Err err) (Engine.account n x, Some err) [OFailure now; OStep st r]
| finish_ok response st r :
    st = Step.set_Output (Engine.llm_output response)
           (Step.set_CompletedAt (Step.CompletedAt st) (Step.set_RetryCount n step)) →
    is_Some (Step.CompletedAt st) →
    finish_run x step n (Ok response)
      (Engine.account_response response (Engine.account n x), Wrap "store LLM step" <$> r)
      ([OSuccess] ++ samples (Engine.metrics e) (token_samples agent response) ++ [OStep st r]).

Lemma finish_llm_logs ctx x step r n :
  countable r → logs (Engine.finish_llm e ctx agent x step r n) [] (finish_run x step n r).
Proof.
  intros Hc. unfold Engine.finish_llm. log_step. destruct r as [response|err].
  - log_step. apply logs_bind.
    apply (logs_sub _ _ (λ _ tr,
             tr = samples (Engine.metrics e) (token_samples agent response))).
    + apply logs_when; intros Hm; rewrite Hm; [|done].
      destruct (Hc response Hm eq_refl) as [Hp Ho].
      apply logs_bind, logs_record_tokens; [done|]. by apply logs_record_tokens.
    + intros _ tr ->. log_step. apply logs_ret. rewrite <-!(assoc_L (++)).
      apply finish_ok; [done|by eexists].
  - log_steps. apply logs_ret. apply finish_failed; [done|by eexists].
Qed.

Lemma think_logs ctx x msgs :
  logs (Engine.think e ctx agent x msgs) [] (think_run e agent definitions x msgs).
Proof.
  unfold Engine.think. log_step; [apply logs_ret; constructor|].
  log_step. destruct r; cbn [negb]; [|apply logs_ret; constructor].
  log_step; [|apply logs_ret; constructor]. do 4 log_step.
  apply logs_bind. eapply logs_sub; [apply Retry_logs|].
  intros [r n] calls [Hc Hr]. cbn [fst snd] in *. apply logs_bind.
  apply (logs_sub _ _ (λ _ tr, ∃ d,
           tr = samples (Engine.metrics e) [LLMLatency (Agent.Model agent) d])).
  { apply logs_when; intros Hm; rewrite Hm; [|by exists 0].
    apply logs_record_since. intros d. by exists d. }
  intros _ tr [d ->]. apply logs_bind.
  eapply logs_sub; [by apply finish_llm_logs|]. intros out tr Hf.
  set (thinking := Event.mk _ _ _ _ _).
  destruct Hf as [err now_ st r0 Hst Hs|response st r0 Hst Hs]; cbn [fst snd].
  - apply logs_ret. log_as (called e agent x now thinking d calls ++ [OFailure now_; OStep st r0]).
    apply (think_failed _ _ _ _ _ _ _ _ _ _ n); try done; rewrite Hst; [|done].
    by split_and!.
  - destruct r0 as [err|]; cbn [fmap option_fmap option_map]; apply logs_ret.
    + log_as (called e agent x now thinking d calls ++ [OSuccess] ++
              samples (Engine.metrics e) (token_samples agent response) ++ [OStep st (Some err)]).
      apply think_not_stored with (n := n); try done. rewrite Hst.
      by split_and!.
    + log_as (called e agent x now thinking d calls ++ [OSuccess] ++
              samples (Engine.metrics e) (token_samples agent response) ++ [OStep st None]).
      apply think_responded with (n := n); try done; rewrite Hst; [|done].
      by split_and!.
Qed.

(** *** The loop, which forks goroutines *)

Abbreviation P A := (proc W (result ChatMessage.t) A).

Definition plogs {A} (p : P A) (acc : list Obs) (Q : A → list Obs → Prop) : Prop :=
  pspec (reached xs) I (λ _ _, False) p acc Q.
Arguments plogs : simpl never.

Lemma plogs_ret {A} (a : A) acc (Q : A → list Obs → Prop) : Q a acc → plogs (mret a) acc Q.
Proof. done. Qed.

Lemma plogs_bind {A B} (p : P A) (k : A → P B) acc Q :
  plogs p acc (λ a acc', plogs (k a) acc' Q) → plogs (p ≫= k) acc Q.
Proof. apply pspec_bind. Qed.

Lemma plogs_mono {A} (p : P A) acc (Q R : A → list Obs → Prop) :
  plogs p [] Q → (∀ a tr, Q a tr → R a (acc ++ tr)) → plogs p acc R.
Proof. intros HQ HR. by eapply pspec_sub. Qed.

Lemma plogs_lift {A} (p : prog W A) acc (Q R : A → list Obs → Prop) :
  logs p [] Q → (∀ a tr, Q a tr → R a (acc ++ tr)) → plogs (lift p) acc R.
Proof. intros HQ. apply plogs_mono. by apply pspec_lift. Qed.

Lemma executeTools_logs ctx id calls acc Q :
  (∀ r tr, tools_run (Engine.metrics e) id calls r tr → Q r (acc ++ tr)) →
  plogs (Engine.executeTools e ctx id calls) acc Q.
Proof.
  intros HQ. unfold Engine.executeTools. apply plogs_bind.
  apply (pspec_go_wait _ _ _ _ ((λ c, tool_run (Engine.metrics e) id c) <$> calls)).
  - apply Forall2_fmap, Forall_Forall2_diag, Forall_true. intros call. apply executeTool_logs.
  - intros rs es tr HF Hes. apply plogs_ret, HQ. eapply tools_interleaved; [|exact Hes].
    clear -HF. remember (_ <$> calls) as Ps eqn:E. revert calls E.
    induction HF as [|r es_ P rs ess Ps Hr _ IH]; intros [|c calls] E; simplify_eq/=;
      constructor; auto.
Qed.

(** A round keeps the identity of the execution. *)
Lemma think_identity x msgs round tr :
  think_run e agent definitions x msgs round tr → same_identity x (round_execution round).
Proof. by destruct 1. Qed.

Lemma loop_logs steps ctx x msgs :
  known xs x →
  plogs (Engine.loop e steps ctx agent x msgs) []
    (loop_run e agent definitions steps x msgs).
Proof.
  revert x msgs. induction steps as [|steps IH]; intros x msgs Hx; cbn [Engine.loop].
  { eapply plogs_lift; [by apply fail_logs|]. intros out tr Hf. by constructor. }
  apply plogs_bind. eapply plogs_lift; [apply think_logs|].
  intros [y cause|y r] tr1 Ht; pose proof (think_identity _ _ _ _ Ht) as Hy; simpl in Hy.
  { eapply plogs_lift; [apply fail_logs; by eapply known_step|]. intros out tr Hf. simpl.
    by eapply loop_stopped. }
  assert (known xs y) as Hxy by (by eapply known_step).
  assert (Execution.ConversationID y = Execution.ConversationID x) as ->
    by (unfold same_identity in Hy; by destruct_and!).
  assert (Execution.ID y = Execution.ID x) as -> by (symmetry; apply Hy).
  cbv zeta. destruct (decide (Response.ToolCalls r = [])) as [Hc|Hc].
  - apply plogs_bind. eapply plogs_lift; [apply appendMessage_logs|].
    intros [cause|] tr2 Hm.
    + eapply plogs_lift; [apply fail_logs; done|]. intros out tr3 Hf.
      log_as (tr1 ++ tr2 ++ tr3). by eapply loop_answer_lost.
    + eapply plogs_lift; [by apply succeed_logs|]. intros out tr3 Hs.
      log_as (tr1 ++ tr2 ++ tr3). by eapply loop_answered.
  - apply plogs_bind. eapply plogs_lift; [apply appendMessage_logs|].
    intros [cause|] tr2 Hm.
    { eapply plogs_lift; [by apply fail_logs|]. intros out tr3 Hf.
      log_as (tr1 ++ tr2 ++ tr3). by eapply loop_assistant_lost. }
    apply plogs_bind, executeTools_logs. intros [results|cause] tr3 Htr.
    2: { eapply plogs_lift; [by apply fail_logs|]. intros out tr4 Hf.
         log_as (tr1 ++ tr2 ++ tr3 ++ tr4). by eapply loop_tools_failed. }
    apply plogs_bind. eapply plogs_lift; [apply append_messages_logs|].
    intros [cause|] tr4 Hms.
    { eapply plogs_lift; [by apply fail_logs|]. intros out tr5 Hf.
      log_as (tr1 ++ tr2 ++ tr3 ++ tr4 ++ tr5). by eapply loop_results_lost. }
    eapply plogs_mono; [by apply IH|]. intros out tr5 Hl.
    log_as (tr1 ++ tr2 ++ tr3 ++ tr4 ++ tr5). by eapply loop_next.
Qed.

Lemma execute_body_logs ctx x :
  known xs x →
  plogs (Engine.execute_body e ctx agent x) [] (body_run e agent definitions x).
Proof.
  intros Hx. unfold Engine.execute_body.
  apply plogs_bind. apply (plogs_lift _ _ (λ _ tr, tr = [])); [by apply logs_Now|].
  intros now _ ->. cbv zeta. apply plogs_bind.
  apply (plogs_lift _ _ (λ r tr, tr = [OUpdate (running x now) r])); [by apply logs_update|].
  intros [err|] _ ->; [apply plogs_ret; constructor|].
  apply plogs_bind. apply (plogs_lift _ _ (λ _ tr, tr = [OPublish (started_event x now)]));
    [by apply logs_publish|].
  intros _ _ ->. apply plogs_bind. apply (plogs_lift _ _ (λ _ tr, tr = [])).
  { by apply (logs_list_messages _ _ _ 50). }
  intros [history|err] _ ->.
  2: { eapply plogs_lift; [by apply fail_logs|]. intros out tr Hf.
       log_as ([OUpdate (running x now) None; OPublish (started_event x now)] ++ tr).
       by eapply body_no_history. }
  apply plogs_bind. eapply plogs_lift; [apply appendMessage_logs|]. intros [cause|] tr1 Hm.
  - eapply plogs_lift; [by apply fail_logs|]. intros out tr2 Hf.
    log_as ([OUpdate (running x now) None; OPublish (started_event x now)] ++ tr1 ++ tr2).
    by eapply body_input_lost.
  - eapply plogs_mono; [by apply loop_logs|]. intros out tr2 Hl.
    log_as ([OUpdate (running x now) None; OPublish (started_event x now)] ++ tr1 ++ tr2).
    by eapply body_loop.
Qed.

Lemma Execute_logs ctx x :
  known xs x →
  plogs (Engine.Execute e ctx agent x) [] (execute_run e agent definitions x).
Proof.
  intros Hx. unfold Engine.Execute.
  apply plogs_bind. apply (plogs_lift _ _ (λ _ tr, tr = [])); [by apply logs_Now|].
  intros started _ ->. apply plogs_bind.
  apply (plogs_lift _ _ (λ _ tr, tr = samples (Engine.metrics e) [AgentRequests])).
  { apply logs_when; intros Hm; rewrite Hm; [by apply logs_record|done]. }
  intros _ _ ->. apply plogs_bind. eapply plogs_mono; [by apply execute_body_logs|].
  intros out tr Hb. apply plogs_bind.
  apply (plogs_lift _ _ (λ _ tr, ∃ d, tr = samples (Engine.metrics e) [AgentDuration d])).
  { apply logs_when; intros Hm; rewrite Hm; [|by exists 0].
    apply logs_record_since. intros d. by exists d. }
  intros _ _ [d ->]. apply plogs_ret.
  log_as (samples (Engine.metrics e) [AgentRequests] ++ tr ++
          samples (Engine.metrics e) [AgentDuration d]).
  by constructor.
Qed.
End proof.

(** A run alone terminates, whatever the schedule of its tool calls, and logs what the
    specification says; the world is what its log says. *)
Lemma Execute_run `{Env} {DB SK QU} `{StoreLaws DB, SinkOps SK, Counters, Unicode}
    (w : World DB SK QU) (e : Engine.t) ctx agent x :
  1 ≤ RetryPolicy.MaxAttempts (Engine.retryPolicy e) →
  (Engine.metrics e = true → sane_provider (Engine.provider e)) →
  pwp (Engine.Execute e ctx agent x)
    (λ out w', ∃ tr, reached [x] w tr w' ∧
       execute_run e agent (Registry.Definitions (Agent.Tools agent) (w_tools w)) x out tr) w.
Proof.
  intros Ha Hs. eapply (pspec_pwp _ (λ w', w_tools w' = w_tools w) _ []); [|done].
  eapply Execute_logs; [apply told_apart_one|done|done|apply known_one].
Qed.
