(* ===== verification/EngineLogs.v ===== *)
(** * Facts about the logs the specification of the engine allows

    The lemmas the theorems of [EngineFacts] are corollaries of: what a run publishes, which
    executions it writes, how it counts calls, retries and tokens, when it calls the
    model, and which messages and steps it stores.  They are about the relations of
    [EngineSpec] only. *)

From S2P Require Import Prelude GoLang GoString GoJson Conc Rely Runtime Domain Breaker Retry.
From S2P Require Import Store Tool Llm World Engine EngineSpec.
Open Scope Z_scope.

(** ** Weights *)

(** The total weight of a log. *)
Definition total (wt : Obs → Z) (tr : list Obs) : Z := foldr (λ o n, wt o + n) 0 tr.

Section total.
Context (wt : Obs → Z).

Lemma total_app tr1 tr2 : total wt (tr1 ++ tr2) = total wt tr1 + total wt tr2.
Proof. induction tr1 as [|o tr1 IH]; simpl; [done|]. rewrite IH. lia. Qed.

Lemma total_perm tr1 tr2 : tr1 ≡ₚ tr2 → total wt tr1 = total wt tr2.
Proof. induction 1; simpl; lia. Qed.

Lemma total_zero tr : Forall (λ o, wt o = 0) tr → total wt tr = 0.
Proof. induction 1; simpl; lia. Qed.

Lemma total_same k tr : Forall (λ o, wt o = k) tr → total wt tr = k * Z.of_nat (length tr).
Proof. induction 1; simpl length; simpl; lia. Qed.
End total.

(** ** Which observations the pieces consist of *)

Definition plain_event (t : string) : Prop :=
  t ∈ ["agent.thinking"; "tool.started"; "tool.completed"; "tool.failed"].

(** Observations of the middle of a run of [x]: they leave its state and life cycle alone,
    and what they store is filed under its identifiers. *)
Definition inner (x : Execution.t) (o : Obs) : Prop :=
  match o with
  | OUpdate _ _ => False
  | OPublish ev => Event.ExecutionID ev = Execution.ID x ∧ plain_event (Event.Type_ ev)
  | OStep st _ => Step.ExecutionID st = Execution.ID x
  | OMessage m _ => Message.ConversationID m = Execution.ConversationID x
  | OSample AgentErrors | OSample AgentRequests => False
  | _ => True
  end.

(** Observations of a tool call. *)
Definition tool_obs (id : string) (o : Obs) : Prop :=
  match o with
  | OPublish ev => Event.ExecutionID ev = id ∧
                   Event.Type_ ev ∈ ["tool.started"; "tool.completed"; "tool.failed"]
  | OStep st _ => Step.ExecutionID st = id ∧ Step.Type_ st = "tool"
  | OTool _ _ _ => True
  | OSample (ToolDuration _ _) => True
  | _ => False
  end.

Definition message_obs (conversation : string) (o : Obs) : Prop :=
  match o with OMessage m _ => Message.ConversationID m = conversation | _ => False end.

Lemma tool_obs_inner x o : tool_obs (Execution.ID x) o → inner x o.
Proof.
  destruct o as [| | |ev| | | | | |[]]; simpl; try done; [tauto|].
  intros [Hid Ht]. split; [done|]. unfold plain_event. set_solver.
Qed.

Lemma message_obs_inner x o : message_obs (Execution.ConversationID x) o → inner x o.
Proof. by destruct o. Qed.

Lemma Forall_samples (P : Obs → Prop) b l :
  Forall (λ s, P (OSample s)) l → Forall P (samples b l).
Proof. intros HF. destruct b; [by apply Forall_fmap|constructor]. Qed.

Section pieces.
Context (m : bool).

Lemma message_run_obs conversation msg r tr :
  message_run conversation msg r tr → Forall (message_obs conversation) tr.
Proof. destruct 1 as [|st r Hst]; repeat constructor. apply Hst. Qed.

Lemma messages_run_obs conversation msgs r tr :
  messages_run conversation msgs r tr → Forall (message_obs conversation) tr.
Proof.
  induction 1; [constructor|by eapply message_run_obs|].
  apply Forall_app_2; [by eapply message_run_obs|done].
Qed.

Lemma tool_run_obs id call r tr : tool_run m id call r tr → Forall (tool_obs id) tr.
Proof.
  destruct 1 as [d tr Hb]. apply Forall_app_2; [|apply Forall_samples; repeat constructor].
  destruct Hb; repeat (apply Forall_cons_2 || apply Forall_nil_2); simpl; try done;
    (split; [done|]); set_solver.
Qed.

Lemma tools_run_obs id calls r tr : tools_run m id calls r tr → Forall (tool_obs id) tr.
Proof.
  destruct 1 as [rs trs tr HF Hp%shuffled_perm]. rewrite Hp. apply Forall_concat. clear Hp tr.
  induction HF as [|call r tr calls rs trs Hr _ IH]; constructor; [|done].
  by eapply tool_run_obs.
Qed.

Context (e : Engine.t) (agent : Agent.t) (definitions : list ToolDefinition.t).

Lemma retry_run_obs n req r k tr :
  retry_run n req r k tr → Forall (λ o, ∃ r', o = OComplete req r') tr.
Proof.
  assert (∀ front, Forall (failed_call req) front → Forall (λ o, ∃ r', o = OComplete req r') front)
    as Hf.
  { intros front HF. eapply Forall_impl; [exact HF|]. intros o [err ->]. by eexists. }
  destruct 1; [|by apply Hf]. apply Forall_app_2; [by apply Hf|].
  apply Forall_singleton. by eexists.
Qed.

Lemma think_run_inner x msgs round tr :
  think_run e agent definitions x msgs round tr → Forall (inner x) tr.
Proof.
  assert (∀ now ev d calls r n, thinking_event x ev →
    retry_run (RetryPolicy.MaxAttempts (Engine.retryPolicy e))
      (request agent definitions msgs) r n calls →
    Forall (inner x) (called e agent x now ev d calls)) as Hc.
  { intros now ev d calls r n [Ht Hid] Hr. unfold called.
    repeat apply Forall_cons_2; [done|split; [done|]|].
    { rewrite Ht. unfold plain_event. set_solver. }
    apply Forall_app_2; [|apply Forall_samples; by repeat constructor].
    eapply Forall_impl; [by eapply retry_run_obs|]. by intros o [r' ->]. }
  destruct 1 as [| | |now ev d calls err n fa st r Hev Hr (Hst & _)
                 |now ev d calls resp n st err Hev Hr (Hst & _)
                 |now ev d calls resp n st Hev Hr (Hst & _) _];
    [repeat constructor..| | |];
    (apply Forall_app_2; [by eapply Hc|]); repeat apply Forall_cons_2; try done;
    try apply Forall_app_2; try (apply Forall_samples; by repeat constructor);
    by repeat apply Forall_cons_2.
Qed.
End pieces.

#[export] Hint Resolve message_run_obs messages_run_obs tool_run_obs tools_run_obs
  think_run_inner : agentflow.

(** ** The shape of a run: a middle and an end *)

(** [y] is [x] further along the same run. *)
Definition same_run (x y : Execution.t) : Prop :=
  same_identity x y ∧ Execution.Status y = Execution.Status x ∧
  Execution.StartedAt y = Execution.StartedAt x ∧
  Execution.CompletedAt y = Execution.CompletedAt x ∧ Execution.Error y = Execution.Error x.

#[export] Instance same_run_preorder : PreOrder same_run.
Proof.
  split.
  - intros x. by split_and!.
  - intros x y z (Hi & ?) (Hi' & ?). split; [by etrans|]. destruct_and!. split_and!; congruence.
Qed.

(** How a run ends: with a failure, or with an answer. *)
Inductive end_run (m : bool) (y : Execution.t) (out : outcome) (tr : list Obs) : Prop :=
| end_failed cause : fail_run m y cause out tr → end_run m y out tr
| end_succeeded : succeed_run y out tr → end_run m y out tr.

Section shapes.
Context (e : Engine.t) (agent : Agent.t) (definitions : list ToolDefinition.t).
Abbreviation m := (Engine.metrics e).

Lemma think_same_run x msgs round tr :
  think_run e agent definitions x msgs round tr →
  match round with Engine.Stop y _ | Engine.Responded y _ => same_run x y end.
Proof. by destruct 1. Qed.

Lemma loop_shape n x msgs out tr :
  loop_run e agent definitions n x msgs out tr →
  ∃ y mid fin, tr = mid ++ fin ∧ Forall (inner x) mid ∧
               same_run x y ∧ end_run m y out fin.
Proof.
  assert (∀ x l, Forall (message_obs (Execution.ConversationID x)) l →
                 Forall (inner x) l) as Hmsg.
  { intros x1 l HF. eapply Forall_impl; [exact HF|]. eapply message_obs_inner. }
  assert (∀ x l, Forall (tool_obs (Execution.ID x)) l → Forall (inner x) l) as Htool.
  { intros x1 l HF. eapply Forall_impl; [exact HF|]. apply tool_obs_inner. }
  assert (∀ x y, same_run x y → ∀ o, inner y o → inner x o) as Hid.
  { intros x1 y1 ((Hi & _ & _ & Hc & _) & _) o. unfold inner. by rewrite Hi, Hc. }
  induction 1 as [x msgs out tr Hf|n x msgs y cause out tr1 tr2 Ht Hf
    |n x msgs y r out tr1 tr2 tr3 Ht _ Hm Hs|n x msgs y r cause out tr1 tr2 tr3 Ht _ Hm Hf
    |n x msgs y r cause out tr1 tr2 tr3 Ht _ Hm Hf
    |n x msgs y r cause out tr1 tr2 tr3 tr4 Ht _ Hm Htl Hf
    |n x msgs y r results cause out tr1 tr2 tr3 tr4 tr5 Ht _ Hm Htl Hms Hf
    |n x msgs y r results out tr1 tr2 tr3 tr4 tr5 Ht _ Hm Htl Hms _ IH];
    try (pose proof (think_same_run _ _ _ _ Ht) as Hy; simpl in Hy).
  - exists x, [], tr. split_and!; [done|constructor|done|by eapply end_failed].
  - exists y, tr1, tr2. split_and!; [done|eauto with agentflow|done|by eapply end_failed].
  - exists (Execution.set_Output (Response.Content r) y), (tr1 ++ tr2), tr3.
    rewrite (assoc_L (++)). split_and!; [done| |by etrans|by eapply end_succeeded].
    apply Forall_app_2; eauto with agentflow.
  - exists (Execution.set_Output (Response.Content r) y), (tr1 ++ tr2), tr3.
    rewrite (assoc_L (++)). split_and!; [done| |by etrans|by eapply end_failed].
    apply Forall_app_2; eauto with agentflow.
  - exists y, (tr1 ++ tr2), tr3. rewrite (assoc_L (++)).
    split_and!; [done| |done|by eapply end_failed]. apply Forall_app_2; eauto with agentflow.
  - exists y, (tr1 ++ tr2 ++ tr3), tr4. rewrite !(assoc_L (++)).
    split_and!; [done| |done|by eapply end_failed].
    repeat apply Forall_app_2; eauto with agentflow.
  - exists y, (tr1 ++ tr2 ++ tr3 ++ tr4), tr5. rewrite !(assoc_L (++)).
    split_and!; [done| |done|by eapply end_failed].
    repeat apply Forall_app_2; eauto with agentflow.
  - destruct IH as (z & mid & fin & -> & Hmid & Hz & Hend).
    exists z, (tr1 ++ tr2 ++ tr3 ++ tr4 ++ mid), fin. rewrite !(assoc_L (++)).
    split_and!; [done| |by etrans|done].
    repeat apply Forall_app_2; eauto with agentflow.
    eapply Forall_impl; [exact Hmid|]. by apply Hid.
Qed.

(** The frame around the loop. *)
Inductive execute_shaped (x : Execution.t) (out : outcome) (tr : list Obs) : Prop :=
| not_started now err d :
    out = (running x now, Some (Wrap "mark execution running" err)) →
    tr = samples m [AgentRequests] ++ [OUpdate (running x now) (Some err)] ++
         samples m [AgentDuration d] →
    execute_shaped x out tr
| started now d y mid fin :
    tr = samples m [AgentRequests] ++
         [OUpdate (running x now) None; OPublish (started_event x now)] ++ mid ++ fin ++
         samples m [AgentDuration d] →
    Forall (inner x) mid → same_run (running x now) y → end_run m y out fin →
    execute_shaped x out tr.

Lemma execute_shape x out tr :
  execute_run e agent definitions x out tr → execute_shaped x out tr.
Proof.
  assert (∀ l, Forall (message_obs (Execution.ConversationID x)) l →
               Forall (inner x) l) as Hmsg.
  { intros l HF. eapply Forall_impl; [exact HF|]. eapply message_obs_inner. }
  destruct 1 as [out tr d Hb].
  destruct Hb as [now err|now err out tr Hf|now cause out tr1 tr2 Hm Hf
                 |now history out tr1 tr2 Hm Hl].
  - by eapply not_started.
  - eapply (started x out _ now d (running x now) [] tr);
      [by rewrite <-!(assoc_L (++))|constructor|done|by eapply end_failed].
  - eapply (started x out _ now d (running x now) tr1 tr2);
      [by rewrite <-!(assoc_L (++))|eauto with agentflow|done|by eapply end_failed].
  - destruct (loop_shape _ _ _ _ _ Hl) as (y & mid & fin & -> & Hmid & Hy & Hend).
    eapply (started x out _ now d y (tr1 ++ mid) fin);
      [by rewrite <-!(assoc_L (++))|apply Forall_app_2; eauto with agentflow|done|done].
Qed.
End shapes.

(** ** Projections of a log *)

Definition event_of (o : Obs) : option Event.t :=
  match o with OPublish ev => Some ev | _ => None end.
Definition events (tr : list Obs) : list Event.t := omap event_of tr.

Definition update_of (o : Obs) : option (Execution.t * option error) :=
  match o with OUpdate x r => Some (x, r) | _ => None end.
Definition updates (tr : list Obs) : list (Execution.t * option error) := omap update_of tr.

Lemma events_app tr1 tr2 : events (tr1 ++ tr2) = events tr1 ++ events tr2.
Proof. apply omap_app. Qed.

Lemma updates_app tr1 tr2 : updates (tr1 ++ tr2) = updates tr1 ++ updates tr2.
Proof. apply omap_app. Qed.

Lemma events_samples b l : events (samples b l) = [].
Proof. apply omap_none, Forall_samples, Forall_true. done. Qed.

Lemma updates_samples b l : updates (samples b l) = [].
Proof. apply omap_none, Forall_samples, Forall_true. done. Qed.

Lemma updates_inner x tr : Forall (inner x) tr → updates tr = [].
Proof. intros HF. apply omap_none. eapply Forall_impl; [exact HF|]. by intros []. Qed.

Lemma events_inner x tr :
  Forall (inner x) tr →
  Forall (λ ev, Event.ExecutionID ev = Execution.ID x ∧ plain_event (Event.Type_ ev)) (events tr).
Proof.
  induction 1 as [|o tr Ho _ IH]; [constructor|]. destruct o; try exact IH. by constructor.
Qed.

Definition last_of (key : string → string) (id : string) (cur : option Execution.t)
    (us : list (Execution.t * option error)) : option Execution.t :=
  foldl (λ cur u, match u with
                  | (x, None) => if decide (key (Execution.ID x) = key id) then Some x else cur
                  | _ => cur
                  end) cur us.
Lemma last_update_updates key id tr : last_update key id tr = last_of key id None (updates tr).
Proof.
  unfold last_update. generalize (@None Execution.t) as cur.
  induction tr as [|[x [err|]| | | | | | | | |] tr IH]; intros cur; simpl; apply IH || done.
Qed.

Create Rewrite HintDb logs.
#[export] Hint Rewrite events_app updates_app events_samples updates_samples app_nil_r : logs.

(** ** Counting *)

(** One for every call of the provider, and for every [agent.thinking] event. *)
Definition attempt (o : Obs) : Z := match o with OComplete _ _ => 1 | _ => 0 end.
Definition thought (o : Obs) : Z :=
  match o with
  | OPublish ev => if decide (Event.Type_ ev = "agent.thinking") then 1 else 0
  | _ => 0
  end.
(** The tokens a successful call reports. *)
Definition prompt_tokens (o : Obs) : Z :=
  match o with OComplete _ (Ok r) => Usage.PromptTokens (Response.Usage_ r) | _ => 0 end.
Definition output_tokens (o : Obs) : Z :=
  match o with OComplete _ (Ok r) => Usage.OutputTokens (Response.Usage_ r) | _ => 0 end.

(** A weight only the call of the model has. *)
Definition model_weight (wt : Obs → Z) : Prop :=
  ∀ o, match o with
       | OComplete _ _ => True
       | OPublish ev => Event.Type_ ev ≠ "agent.thinking" → wt o = 0
       | _ => wt o = 0
       end.

Lemma attempt_model : model_weight attempt.
Proof. by intros []. Qed.
Lemma thought_model : model_weight thought.
Proof. intros []; simpl; try done. intros Ht. by rewrite decide_False. Qed.
Lemma prompt_model : model_weight prompt_tokens.
Proof. by intros []. Qed.
Lemma output_model : model_weight output_tokens.
Proof. by intros []. Qed.

Section counting.
Context (e : Engine.t) (agent : Agent.t) (definitions : list ToolDefinition.t).
Abbreviation m := (Engine.metrics e).
Abbreviation attempts := (RetryPolicy.MaxAttempts (Engine.retryPolicy e)).

Section weight.
Context (wt : Obs → Z) (Hwt : model_weight wt).

Lemma total_samples b l : total wt (samples b l) = 0.
Proof. apply total_zero, Forall_samples, Forall_true. intros s. apply (Hwt (OSample s)). Qed.

Lemma total_message conversation msg r tr :
  message_run conversation msg r tr → total wt tr = 0.
Proof.
  intros Hr%message_run_obs. apply total_zero. eapply Forall_impl; [exact Hr|].
  intros o Ho. specialize (Hwt o). by destruct o.
Qed.

Lemma total_messages conversation msgs r tr :
  messages_run conversation msgs r tr → total wt tr = 0.
Proof.
  intros Hr%messages_run_obs. apply total_zero. eapply Forall_impl; [exact Hr|].
  intros o Ho. specialize (Hwt o). by destruct o.
Qed.

Lemma total_tools id calls r tr : tools_run m id calls r tr → total wt tr = 0.
Proof.
  intros Hr%tools_run_obs. apply total_zero. eapply Forall_impl; [exact Hr|].
  intros o Ho. specialize (Hwt o). destruct o as [| | |ev| | | | | |[]]; try done.
  destruct Ho as [_ Ht]. apply Hwt. intros E. rewrite E in Ht. set_solver.
Qed.

Lemma total_closing y r ev :
  Event.Type_ ev ≠ "agent.thinking" → total wt (closing y r ev) = 0.
Proof.
  intros Ht. unfold closing. pose proof (Hwt (OUpdate y r)) as Hu.
  pose proof (Hwt (OPublish ev) Ht) as Hp. destruct r; simpl in *; lia.
Qed.

Lemma total_end y out tr : end_run m y out tr → total wt tr = 0.
Proof.
  destruct 1 as [cause Hf|Hs].
  - destruct Hf as [now r z]. by rewrite total_app, total_samples, total_closing.
  - destruct Hs as [now r z]. by rewrite total_closing.
Qed.

Lemma total_called x now ev d calls :
  total wt (called e agent x now ev d calls) = wt (OPublish ev) + total wt calls.
Proof.
  unfold called. simpl. rewrite total_app, total_samples.
  pose proof (Hwt (OAllow now true)) as Ha. simpl in Ha. lia.
Qed.
End weight.

(** The weight of a round is that of its calls and its event. *)
Lemma think_total x msgs round tr :
  think_run e agent definitions x msgs round tr →
  ((∀ wt, model_weight wt → total wt tr = 0) ∧ round_execution round = x) ∨
  ∃ ev calls r n, thinking_event x ev ∧
    retry_run attempts (request agent definitions msgs) r n calls ∧
    (∀ wt, model_weight wt → total wt tr = wt (OPublish ev) + total wt calls) ∧
    round_execution round =
      match r with
      | Ok resp => Engine.account_response resp (Engine.account n x)
      | Err _ => Engine.account n x
      end.
Proof.
  assert (∀ wt, model_weight wt →
    (∀ st r, total wt [OStep st r] = 0) ∧ (∀ now r, total wt [OAllow now r] = 0) ∧
    (∀ now l, total wt (OFailure now :: l) = total wt l) ∧
    (∀ l l', total wt ([OSuccess] ++ samples m l ++ l') = total wt l')) as Hz.
  { intros wt Hwt. split_and!.
    - intros st r. pose proof (Hwt (OStep st r)) as E. simpl in *. lia.
    - intros now r. pose proof (Hwt (OAllow now r)) as E. simpl in *. lia.
    - intros now l. pose proof (Hwt (OFailure now)) as E. simpl in *. lia.
    - intros l l'. pose proof (Hwt OSuccess) as E. rewrite !total_app, total_samples by done.
      simpl in *. lia. }
  destruct 1 as [err|now|now err|now ev d calls err n fa st r Hev Hr _ _
                |now ev d calls resp n st err Hev Hr _|now ev d calls resp n st Hev Hr _ _];
    [left; split; [|done]; intros wt Hwt; destruct (Hz wt Hwt) as (_ & Ha & _); done || apply Ha..
    | | |];
    (right; exists ev, calls; eexists _, n; split; [done|split; [exact Hr|split; [|done]]]);
    intros wt Hwt; destruct (Hz wt Hwt) as (Hs & _ & Hf & Ho);
    rewrite total_app, total_called by done.
  - rewrite Hf, Hs. lia.
  - rewrite Ho, Hs. lia.
  - rewrite Ho, Hs. lia.
Qed.

Section counter.
Context (wt : Obs → Z) (Hwt : model_weight wt).

(** A 64-bit counter that every round advances by the weight of its log. *)
Context (f : Execution.t → Z).
Context (Hround : ∀ x msgs round tr,
  think_run e agent definitions x msgs round tr → int64 (f x) →
  f (round_execution round) = wrap64 (f x + total wt tr)).
Context (Hout : ∀ v y, f (Execution.set_Output v y) = f y)
        (Hend : ∀ y out tr, end_run m y out tr → f out.1 = f y).

Lemma loop_counts n x msgs out tr :
  loop_run e agent definitions n x msgs out tr → int64 (f x) →
  f out.1 = wrap64 (f x + total wt tr).
Proof.
  assert (∀ y out tr, end_run m y out tr → int64 (f y) →
                      f out.1 = wrap64 (f y + total wt tr)) as Hfin.
  { intros y out' tr' He Hi. rewrite (Hend _ _ _ He), (total_end _ Hwt _ _ _ He).
    by rewrite Z.add_0_r, wrap64_id. }
  induction 1 as [x msgs out tr Hf|n x msgs y cause out tr1 tr2 Ht Hf
    |n x msgs y r out tr1 tr2 tr3 Ht _ Hm Hs|n x msgs y r cause out tr1 tr2 tr3 Ht _ Hm Hf
    |n x msgs y r cause out tr1 tr2 tr3 Ht _ Hm Hf
    |n x msgs y r cause out tr1 tr2 tr3 tr4 Ht _ Hm Htl Hf
    |n x msgs y r results cause out tr1 tr2 tr3 tr4 tr5 Ht _ Hm Htl Hms Hf
    |n x msgs y r results out tr1 tr2 tr3 tr4 tr5 Ht _ Hm Htl Hms _ IH]; intros Hi;
    try (pose proof (Hround _ _ _ _ Ht Hi) as Hy; simpl in Hy;
         assert (int64 (f y)) as Hiy by (rewrite Hy; apply wrap64_range));
    rewrite ?total_app; try rewrite (total_message _ Hwt _ _ _ _ Hm);
    try rewrite (total_tools _ Hwt _ _ _ _ Htl); try rewrite (total_messages _ Hwt _ _ _ _ Hms);
    rewrite ?Z.add_0_l.
  - eapply Hfin; [by eapply end_failed|done].
  - rewrite (Hfin y out tr2) by (done || by eapply end_failed).
    by rewrite Hy, wrap64_add_l, Z.add_assoc.
  - rewrite (Hfin _ out tr3 (end_succeeded _ _ _ _ Hs)), Hout, Hy by by rewrite Hout.
    by rewrite wrap64_add_l, Z.add_assoc.
  - rewrite (Hfin _ out tr3 (end_failed _ _ _ _ _ Hf)), Hout, Hy by by rewrite Hout.
    by rewrite wrap64_add_l, Z.add_assoc.
  - rewrite (Hfin _ out tr3 (end_failed _ _ _ _ _ Hf)), Hy by done.
    by rewrite wrap64_add_l, Z.add_assoc.
  - rewrite (Hfin _ out tr4 (end_failed _ _ _ _ _ Hf)), Hy by done.
    by rewrite wrap64_add_l, Z.add_assoc.
  - rewrite (Hfin _ out tr5 (end_failed _ _ _ _ _ Hf)), Hy by done.
    by rewrite wrap64_add_l, Z.add_assoc.
  - rewrite IH, Hy by done. by rewrite wrap64_add_l, Z.add_assoc.
Qed.

Lemma execute_counts x out tr :
  (∀ y now, f (running y now) = f y) →
  execute_run e agent definitions x out tr → int64 (f x) →
  f out.1 = wrap64 (f x + total wt tr).
Proof.
  intros Hrun He Hi. destruct He as [out tr d Hb].
  rewrite !total_app, !total_samples, Z.add_0_l, Z.add_0_r by done.
  assert (∀ x r, wt (OUpdate x r) = 0) as Hup by (intros x' r; apply (Hwt (OUpdate x' r))).
  assert (∀ now, wt (OPublish (started_event x now)) = 0) as Hst
    by (intros now; by apply (Hwt (OPublish (started_event x now)))).
  destruct Hb as [now err|now err out tr Hf|now cause out tr1 tr2 Hm Hf
                 |now history out tr1 tr2 Hm Hl]; simpl; rewrite ?Hup, ?Hst, ?Z.add_0_l.
  - by rewrite Hrun, Z.add_0_r, wrap64_id.
  - pose proof (end_failed _ _ _ _ _ Hf) as He.
    by rewrite (Hend _ _ _ He), (total_end _ Hwt _ _ _ He), Hrun, Z.add_0_r, wrap64_id.
  - pose proof (end_failed _ _ _ _ _ Hf) as He. rewrite total_app, (total_message _ Hwt _ _ _ _ Hm).
    by rewrite (Hend _ _ _ He), (total_end _ Hwt _ _ _ He), Hrun, Z.add_0_r, wrap64_id.
  - rewrite total_app, (total_message _ Hwt _ _ _ _ Hm), Z.add_0_l.
    rewrite (loop_counts _ _ _ _ _ Hl); by rewrite Hrun.
Qed.
End counter.

(** *** Calls per round *)

Lemma retry_attempts req r n calls :
  retry_run attempts req r n calls → total attempt calls = n + 1 ∧ 0 ≤ n < attempts.
Proof.
  intros Hr. pose proof (retry_run_obs _ _ _ _ _ Hr) as HF.
  assert (total attempt calls = Z.of_nat (length calls)) as ->.
  { rewrite (total_same _ 1); [lia|]. eapply Forall_impl; [exact HF|]. by intros o [r' ->]. }
  destruct Hr; rewrite ?length_app; simpl; lia.
Qed.

Lemma retry_tokens (g : Response.t → Z) wt req r n calls :
  (∀ o, match o with OComplete _ (Ok v) => wt o = g v | _ => wt o = 0 end) →
  retry_run attempts req r n calls →
  total wt calls = match r with Ok v => g v | Err _ => 0 end.
Proof.
  intros Hwt Hr.
  assert (∀ front, Forall (failed_call req) front → total wt front = 0) as Hz.
  { intros front HF. apply total_zero. eapply Forall_impl; [exact HF|].
    intros o [err ->]. apply (Hwt (OComplete req (Err err))). }
  destruct Hr as [front v n HF|front err n HF]; [|by apply Hz].
  rewrite total_app, (Hz _ HF). simpl. pose proof (Hwt (OComplete req (Ok v))) as Hv.
  simpl in Hv. lia.
Qed.

(** In a round: no calls and no event, or one event and between one and [MaxAttempts] calls. *)
Lemma think_calls x msgs round tr :
  think_run e agent definitions x msgs round tr →
  0 ≤ total thought tr ≤ 1 ∧
  total thought tr ≤ total attempt tr ≤ attempts * total thought tr.
Proof.
  intros Ht. destruct (think_total _ _ _ _ Ht) as [[Hz _]|(ev & calls & r & n & [Hev _] & Hr & Hc & _)].
  - rewrite !Hz by (apply thought_model || apply attempt_model). lia.
  - rewrite !Hc by (apply thought_model || apply attempt_model).
    destruct (retry_attempts _ _ _ _ Hr) as [Ha Hn].
    assert (total thought calls = 0) as ->.
    { apply total_zero. eapply Forall_impl; [by eapply retry_run_obs|]. by intros o [r' ->]. }
    rewrite Ha. simpl. rewrite Hev, decide_True by done. lia.
Qed.

Lemma loop_calls n x msgs out tr :
  loop_run e agent definitions n x msgs out tr →
  0 ≤ total thought tr ≤ Z.of_nat n ∧
  total thought tr ≤ total attempt tr ≤ attempts * total thought tr.
Proof.
  induction 1 as [x msgs out tr Hf|n x msgs y cause out tr1 tr2 Ht Hf
    |n x msgs y r out tr1 tr2 tr3 Ht _ Hm Hs|n x msgs y r cause out tr1 tr2 tr3 Ht _ Hm Hf
    |n x msgs y r cause out tr1 tr2 tr3 Ht _ Hm Hf
    |n x msgs y r cause out tr1 tr2 tr3 tr4 Ht _ Hm Htl Hf
    |n x msgs y r results cause out tr1 tr2 tr3 tr4 tr5 Ht _ Hm Htl Hms Hf
    |n x msgs y r results out tr1 tr2 tr3 tr4 tr5 Ht _ Hm Htl Hms _ IH];
    try pose proof (end_failed _ _ _ _ _ Hf) as He; try pose proof (end_succeeded m _ _ _ Hs) as He;
    try pose proof (think_calls _ _ _ _ Ht);
    rewrite ?total_app;
    try rewrite !(total_message _ thought_model _ _ _ _ Hm), !(total_message _ attempt_model _ _ _ _ Hm);
    try rewrite !(total_tools _ thought_model _ _ _ _ Htl), !(total_tools _ attempt_model _ _ _ _ Htl);
    try rewrite !(total_messages _ thought_model _ _ _ _ Hms),
      !(total_messages _ attempt_model _ _ _ _ Hms);
    try rewrite !(total_end _ thought_model _ _ _ He), !(total_end _ attempt_model _ _ _ He);
    lia.
Qed.

Lemma execute_calls x out tr :
  execute_run e agent definitions x out tr →
  0 ≤ total thought tr ≤ Z.of_nat (Engine.maxSteps e) ∧
  total thought tr ≤ total attempt tr ≤ attempts * total thought tr.
Proof.
  destruct 1 as [out tr d Hb].
  rewrite !total_app, !(total_samples _ thought_model), !(total_samples _ attempt_model).
  destruct Hb as [now err|now err out tr Hf|now cause out tr1 tr2 Hm Hf
                 |now history out tr1 tr2 Hm Hl]; try pose proof (end_failed _ _ _ _ _ Hf) as He;
    rewrite ?total_app;
    try rewrite !(total_message _ thought_model _ _ _ _ Hm), !(total_message _ attempt_model _ _ _ _ Hm);
    try rewrite !(total_end _ thought_model _ _ _ He), !(total_end _ attempt_model _ _ _ He);
    try pose proof (loop_calls _ _ _ _ _ Hl); simpl; lia.
Qed.

Lemma execute_retries x out tr :
  execute_run e agent definitions x out tr → int64 (Execution.RetryCount x) →
  Execution.RetryCount out.1 =
  wrap64 (Execution.RetryCount x + total (λ o, attempt o - thought o) tr).
Proof.
  assert (model_weight (λ o, attempt o - thought o)) as Hwt.
  { intros o. pose proof (thought_model o) as Ht. destruct o; simpl in *; try done.
    intros Hn. rewrite Ht by done. done. }
  apply (execute_counts _ Hwt Execution.RetryCount); [|done| |done].
  - intros y msgs round tr' Ht Hi.
    destruct (think_total _ _ _ _ Ht) as [[Hz ->]|(ev & calls & r & n & [Hev _] & Hr & Hc & ->)].
    { by rewrite Hz, Z.add_0_r, wrap64_id. }
    rewrite Hc by done. destruct (retry_attempts _ _ _ _ Hr) as [Ha Hn].
    assert (total (λ o, attempt o - thought o) calls = n + 1) as ->.
    { rewrite <-Ha. clear -Hr. apply retry_run_obs in Hr.
      induction Hr as [|o l [r' ->] _ IH]; simpl; [done|]. rewrite IH. lia. }
    simpl. rewrite Hev, decide_True by done.
    destruct r; simpl; unfold add64; f_equal; lia.
  - intros y out' tr' [cause Hf|Hs]; [by destruct Hf|by destruct Hs].
Qed.

(** The counters of a response, one lemma for both directions. *)
Lemma execute_tokens (f : Execution.t → Z) (g : Response.t → Z) wt x out tr :
  (∀ o, match o with OComplete _ (Ok v) => wt o = g v | _ => wt o = 0 end) →
  (∀ n y, f (Engine.account n y) = f y) →
  (∀ v y, f (Engine.account_response v y) = add64 (f y) (g v)) →
  (∀ v y, f (Execution.set_Output v y) = f y) → (∀ y now, f (running y now) = f y) →
  (∀ y now, f (succeeded y now) = f y) → (∀ y cause now, f (failed y cause now) = f y) →
  execute_run e agent definitions x out tr → int64 (f x) →
  f out.1 = wrap64 (f x + total wt tr).
Proof.
  intros Hg Hacc Hresp Hout Hrun Hsu Hfa.
  assert (model_weight wt) as Hwt.
  { intros o. specialize (Hg o). by destruct o. }
  apply (execute_counts _ Hwt f); [|done| |done].
  - intros y msgs round tr' Ht Hi.
    destruct (think_total _ _ _ _ Ht) as [[Hz ->]|(ev & calls & r & n & _ & Hr & Hc & ->)].
    { by rewrite Hz, Z.add_0_r, wrap64_id. }
    rewrite Hc, (retry_tokens g _ _ _ _ _ Hg Hr) by done.
    pose proof (Hg (OPublish ev)) as Hp. simpl in Hp. rewrite Hp.
    destruct r as [v|err]; [by rewrite Hresp, Hacc|].
    by rewrite Hacc, Z.add_0_r, wrap64_id.
  - intros y out' tr' [cause Hf|Hs]; [destruct Hf; apply Hfa|destruct Hs; apply Hsu].
Qed.
End counting.

(** ** When the model is called *)

(** [guarded open tr]: the model is only called between an allowing answer of the
    breaker and the report of the outcome. *)
Fixpoint guarded (open : bool) (tr : list Obs) : Prop :=
  match tr with
  | [] => True
  | OAllow _ r :: tr => guarded r tr
  | (OSuccess | OFailure _) :: tr => guarded false tr
  | OComplete _ _ :: tr => open = true ∧ guarded open tr
  | _ :: tr => guarded open tr
  end.

(** Observations that are neither calls of the model nor of the breaker. *)
Definition apart (o : Obs) : Prop :=
  match o with OAllow _ _ | OSuccess | OFailure _ | OComplete _ _ => False | _ => True end.

Lemma guarded_apart open tr1 tr2 :
  Forall apart tr1 → guarded open (tr1 ++ tr2) ↔ guarded open tr2.
Proof. induction 1 as [|o tr1 Ho _ IH]; [done|]. by destruct o. Qed.

Lemma guarded_calls req r n k calls tr :
  retry_run k req r n calls → guarded true (calls ++ tr) ↔ guarded true tr.
Proof.
  intros HF%retry_run_obs. induction HF as [|o calls [r' ->] _ IH]; [done|]. simpl. tauto.
Qed.

Section guard.
Context (e : Engine.t) (agent : Agent.t) (definitions : list ToolDefinition.t).
Abbreviation m := (Engine.metrics e).

Lemma apart_samples b l : Forall apart (samples b l).
Proof. by apply Forall_samples, Forall_true. Qed.

Lemma apart_message conversation msg r tr :
  message_run conversation msg r tr → Forall apart tr.
Proof.
  intros HF%message_run_obs. eapply Forall_impl; [exact HF|]. by intros [].
Qed.
Lemma apart_messages conversation msgs r tr :
  messages_run conversation msgs r tr → Forall apart tr.
Proof.
  intros HF%messages_run_obs. eapply Forall_impl; [exact HF|]. by intros [].
Qed.
Lemma apart_tools id calls r tr : tools_run m id calls r tr → Forall apart tr.
Proof.
  intros HF%tools_run_obs. eapply Forall_impl; [exact HF|]. by intros [].
Qed.
Lemma apart_end y out tr : end_run m y out tr → Forall apart tr.
Proof.
  destruct 1 as [cause Hf|Hs].
  - destruct Hf as [now r z]. apply Forall_app_2; [apply apart_samples|].
    destruct r; by repeat constructor.
  - destruct Hs as [now r z]. destruct r; by repeat constructor.
Qed.

Lemma guarded_think open x msgs round tr tr' :
  think_run e agent definitions x msgs round tr →
  (∀ open, guarded open tr') → guarded open (tr ++ tr').
Proof.
  intros Ht Hg. destruct Ht as [err|now|now err|now ev d calls err n fa st r Hev Hr _ _
                |now ev d calls resp n st err Hev Hr _|now ev d calls resp n st Hev Hr _ _];
    simpl; try apply Hg; rewrite <-!(assoc_L (++)); rewrite (guarded_calls _ _ _ _ _ _ Hr);
    rewrite guarded_apart by apply apart_samples; [apply Hg|..]; simpl;
    rewrite <-?(assoc_L (++)), guarded_apart by apply apart_samples; apply Hg.
Qed.

Lemma guarded_all tr : Forall apart tr → ∀ open, guarded open tr.
Proof. intros HF open. rewrite <-(app_nil_r tr). by apply guarded_apart. Qed.

Lemma guarded_suffix open tr l :
  guarded open tr → Forall apart l → guarded open (tr ++ l).
Proof.
  intros Hg HF. revert open Hg.
  induction tr as [|o tr IH]; intros open; [intros _; by apply guarded_all|].
  destruct o; simpl; naive_solver.
Qed.

Lemma guarded_loop n x msgs out tr :
  loop_run e agent definitions n x msgs out tr → ∀ open, guarded open tr.
Proof.
  induction 1 as [x msgs out tr Hf|n x msgs y cause out tr1 tr2 Ht Hf
    |n x msgs y r out tr1 tr2 tr3 Ht _ Hm Hs|n x msgs y r cause out tr1 tr2 tr3 Ht _ Hm Hf
    |n x msgs y r cause out tr1 tr2 tr3 Ht _ Hm Hf
    |n x msgs y r cause out tr1 tr2 tr3 tr4 Ht _ Hm Htl Hf
    |n x msgs y r results cause out tr1 tr2 tr3 tr4 tr5 Ht _ Hm Htl Hms Hf
    |n x msgs y r results out tr1 tr2 tr3 tr4 tr5 Ht _ Hm Htl Hms _ IH]; intros open;
    try pose proof (apart_end _ _ _ (end_failed _ _ _ _ _ Hf)) as He;
    try pose proof (apart_end _ _ _ (end_succeeded m _ _ _ Hs)) as He;
    try (eapply guarded_think; [done|]; intros open');
    rewrite ?guarded_apart by eauto using apart_message, apart_tools, apart_messages;
    first [by apply guarded_all | by apply IH].
Qed.

Lemma guarded_execute x out tr :
  execute_run e agent definitions x out tr → guarded false tr.
Proof.
  destruct 1 as [out tr d Hb]. rewrite guarded_apart by apply apart_samples.
  assert (∀ open, guarded open tr) as Hg.
  { destruct Hb as [now err|now err out tr Hf|now cause out tr1 tr2 Hm Hf
                   |now history out tr1 tr2 Hm Hl]; intros open; simpl; [done|..];
      try pose proof (apart_end _ _ _ (end_failed _ _ _ _ _ Hf)) as He;
      rewrite ?guarded_apart by eauto using apart_message;
      first [by apply guarded_all | by eapply guarded_loop]. }
  apply guarded_suffix; [done|apply apart_samples].
Qed.
End guard.

(** ** What a successful run stores *)

(** A stored message as the model sees it, name included. *)
Definition chat_of (stored : Message.t) : ChatMessage.t :=
  ChatMessage.mk (Message.Role stored) (Message.Content stored)
    (match Message.Metadata stored with [(_, VString name)] => name | _ => "" end)
    (Message.ToolCallID stored).

Lemma message_of_chat conversation msg st : message_of conversation msg st → chat_of st = msg.
Proof.
  intros (_ & Hr & Hc & Ht & Hm). unfold chat_of. rewrite Hr, Hc, Ht, Hm. by destruct msg.
Qed.

(** What the model answered, with what it was asked, and what the tools returned, in the order of
    the log. *)
Definition exchange_of (o : Obs) : option (Request.t * Response.t) :=
  match o with OComplete req (Ok r) => Some (req, r) | _ => None end.
Definition exchanges (tr : list Obs) : list (Request.t * Response.t) := omap exchange_of tr.

Definition use_of (o : Obs) : option (string * string * value) :=
  match o with OTool name arguments (Ok output) => Some (name, arguments, output) | _ => None end.
Definition uses (tr : list Obs) : list (string * string * value) := omap use_of tr.

(** The result of one tool call, as a message: what the tool returned, as JSON. *)
Definition answers_call (call : ToolCall.t) (output : value) (msg : ChatMessage.t) : Prop :=
  ∃ text, Marshal output = Ok text ∧
    msg = ChatMessage.mk "tool" text (ToolCall.Name call) (ToolCall.ID call).
Definition use_for (call : ToolCall.t) (output : value) : string * string * value :=
  (ToolCall.Name call, ToolCall.Arguments call, output).

(** The rounds of a run, given what the model answered and the tools returned: in each the model is
    asked with all messages so far, [msgs].  An answer that asks for tools is followed by one result
    per call in the order of the calls, each of what the tool returned to that call, whatever
    the order in which the tools returned; one that does not is the last message. *)
Inductive turns : list ChatMessage.t → list (Request.t * Response.t) →
    list (string * string * value) → list ChatMessage.t → string → Prop :=
| turn_answer msgs req r :
    Request.Messages req = msgs → Response.ToolCalls r = [] →
    turns msgs [(req, r)] [] [assistant r] (Response.Content r)
| turn_tools msgs req r outputs used results answered later rest text :
    Request.Messages req = msgs → Response.ToolCalls r ≠ [] →
    Forall3 answers_call (Response.ToolCalls r) outputs results →
    used ≡ₚ zip_with use_for (Response.ToolCalls r) outputs →
    turns (msgs ++ [assistant r] ++ results) answered later rest text →
    turns msgs ((req, r) :: answered) (used ++ later) (assistant r :: results ++ rest) text.

(** The number of retries the stored steps of a log record. *)
Definition step_retries (tr : list Obs) : Z :=
  total (λ o, match o with OStep st None => Step.RetryCount st | _ => 0 end) tr.

Section storing.
Context (key : string → string).
Abbreviation logged_messages := (EngineSpec.logged_messages key).
Context (e : Engine.t) (agent : Agent.t) (definitions : list ToolDefinition.t).
Abbreviation m := (Engine.metrics e).

Lemma apart_end_messages y out tr :
  end_run m y out tr →
  Forall (λ o, match o with OMessage _ _ | OStep _ _ => False | _ => True end) tr.
Proof.
  destruct 1 as [cause Hf|Hs].
  - destruct Hf as [now r z]. apply Forall_app_2; [by apply Forall_samples; repeat constructor|].
    destruct r; by repeat constructor.
  - destruct Hs as [now r z]. destruct r; by repeat constructor.
Qed.

Lemma logged_messages_apart i tr :
  Forall (λ o, match o with OMessage _ None => False | _ => True end) tr →
  logged_messages i tr = [].
Proof.
  intros HF. apply omap_none. eapply Forall_impl; [exact HF|]. by intros [| |? []| | | | | | |].
Qed.

Lemma logged_messages_run conversation msg tr :
  message_run conversation msg None tr →
  chat_of <$> logged_messages conversation tr = [msg].
Proof.
  inversion 1 as [|st r Hst Hr]; subst. destruct r; [done|]. unfold EngineSpec.logged_messages. simpl.
  rewrite decide_True by (f_equal; symmetry; apply Hst). csimpl.
  by rewrite (message_of_chat _ _ _ Hst).
Qed.

Lemma messages_stored conversation msgs tr :
  messages_run conversation msgs None tr →
  chat_of <$> logged_messages conversation tr = msgs.
Proof.
  intros Hr. remember None as r eqn:E. induction Hr as [|msg msgs err tr Hm|msg msgs r tr tr' Hm _ IH];
    [done|done|].
  rewrite logged_messages_app, fmap_app. by rewrite (logged_messages_run _ _ _ Hm), IH.
Qed.

Lemma collect_answers id calls rs trs results :
  Forall3 (tool_run m id) calls rs trs → Engine.collect rs = Ok results →
  ∃ outputs, Forall3 answers_call calls outputs results ∧
             uses (concat trs) = zip_with use_for calls outputs.
Proof.
  intros HF. revert results.
  induction HF as [|call r tr calls rs trs Hr _ IH]; intros results Hc; simplify_eq/=.
  { exists []. by split; [constructor|]. }
  destruct r as [msg|]; [|done]. destruct (Engine.collect rs) as [ms|]; simplify_eq/=.
  destruct (IH ms eq_refl) as (outputs & Ha & Hu). destruct Hr as [d tr Hb].
  assert (uses (samples m [ToolDuration (ToolCall.Name call) d]) = []) as Hs by by destruct m.
  inversion Hb as [| | | |started output text st completed]; subst. exists (output :: outputs). split.
  - constructor; [by exists text|done].
  - unfold uses in *. rewrite !omap_app, Hs, Hu. done.
Qed.

Lemma tools_uses id calls results tr :
  tools_run m id calls (Ok results) tr →
  ∃ outputs, Forall3 answers_call calls outputs results ∧ uses tr ≡ₚ zip_with use_for calls outputs.
Proof.
  inversion 1 as [rs trs tr' HF Hs Hr]; subst.
  destruct (collect_answers _ _ _ _ _ HF Hr) as (outputs & Ha & Hu). exists outputs. split; [done|].
  rewrite <-Hu. unfold uses. by rewrite (shuffled_perm _ _ Hs).
Qed.

(** Observations that are neither an exchange nor the use of a tool. *)
Definition silent (o : Obs) : Prop := exchange_of o = None ∧ use_of o = None.

Lemma silent_log tr : Forall silent tr → exchanges tr = [] ∧ uses tr = [].
Proof.
  intros HF. split; apply omap_none; (eapply Forall_impl; [exact HF|]; by intros o []).
Qed.

Lemma silent_samples b l : Forall silent (samples b l).
Proof. by apply Forall_samples, Forall_true. Qed.

Lemma silent_message conversation msg r tr :
  message_run conversation msg r tr → Forall silent tr.
Proof. intros HF%message_run_obs. eapply Forall_impl; [exact HF|]. by intros []. Qed.
Lemma silent_messages conversation msgs r tr :
  messages_run conversation msgs r tr → Forall silent tr.
Proof. intros HF%messages_run_obs. eapply Forall_impl; [exact HF|]. by intros []. Qed.
Lemma silent_end y out tr : end_run m y out tr → Forall silent tr.
Proof.
  destruct 1 as [cause Hf|Hs].
  - destruct Hf as [now r z]. apply Forall_app_2; [apply silent_samples|].
    destruct r; by repeat constructor.
  - destruct Hs as [now r z]. destruct r; by repeat constructor.
Qed.

Lemma tools_exchanges id calls r tr : tools_run m id calls r tr → exchanges tr = [].
Proof. intros HF%tools_run_obs. apply omap_none. eapply Forall_impl; [exact HF|]. by intros []. Qed.

Lemma exchanges_app tr1 tr2 : exchanges (tr1 ++ tr2) = exchanges tr1 ++ exchanges tr2.
Proof. apply omap_app. Qed.
Lemma uses_app tr1 tr2 : uses (tr1 ++ tr2) = uses tr1 ++ uses tr2.
Proof. apply omap_app. Qed.

(** A round in which the model answered. *)
Lemma think_exchange x msgs y r tr :
  think_run e agent definitions x msgs (Engine.Responded y r) tr →
  exchanges tr = [(request agent definitions msgs, r)] ∧ uses tr = [].
Proof.
  inversion 1 as [| | | | |now ev d calls resp n st Hev Hr Hst Ho]; subst.
  assert (∀ b l, exchanges (samples b l) = [] ∧ uses (samples b l) = []) as Hs
    by (intros b l; apply silent_log, silent_samples).
  assert (exchanges calls = [(request agent definitions msgs, r)]) as Hc.
  { inversion Hr as [front v k HF|]; subst. rewrite exchanges_app.
    enough (exchanges front = []) as -> by done. apply omap_none.
    eapply Forall_impl; [exact HF|]. by intros o [err ->]. }
  assert (uses calls = []) as Hu.
  { apply omap_none. eapply Forall_impl; [by eapply retry_run_obs|]. by intros o [r' ->]. }
  unfold called. rewrite !exchanges_app, !uses_app, Hc, Hu, !(proj1 (Hs _ _)), !(proj2 (Hs _ _)).
  done.
Qed.

Lemma think_stores_no_message x msgs round tr i :
  think_run e agent definitions x msgs round tr → logged_messages i tr = [].
Proof.
  intros Ht. assert (∀ b l, logged_messages i (samples b l) = []) as Hs.
  { intros b l. by apply omap_none, Forall_samples, Forall_true. }
  assert (∀ now ev d calls r n,
    retry_run (RetryPolicy.MaxAttempts (Engine.retryPolicy e))
      (request agent definitions msgs) r n calls →
    logged_messages i (called e agent x now ev d calls) = []) as Hc.
  { intros now ev d calls r n Hr. unfold called. rewrite !logged_messages_app, Hs, app_nil_r. simpl. apply omap_none.
    eapply Forall_impl; [by eapply retry_run_obs|]. by intros o [r' ->]. }
  destruct Ht; try done; rewrite !logged_messages_app; (erewrite Hc by done); rewrite ?Hs; done.
Qed.

Lemma end_stores_no_message y out tr i : end_run m y out tr → logged_messages i tr = [].
Proof.
  intros He%apart_end_messages. apply logged_messages_apart.
  eapply Forall_impl; [exact He|]. by intros [| |? []| | | | | | |].
Qed.

Lemma loop_turns n x msgs out tr :
  loop_run e agent definitions n x msgs out tr → out.2 = None →
  turns msgs (exchanges tr) (uses tr)
        (chat_of <$> logged_messages (Execution.ConversationID x) tr)
        (Execution.Output out.1).
Proof.
  assert (∀ y cause out tr, fail_run (Engine.metrics e) y cause out tr → out.2 ≠ None) as Hno.
  { intros y cause out' tr' Hf. by destruct Hf. }
  induction 1 as [x msgs out tr Hf|n x msgs y cause out tr1 tr2 Ht Hf
    |n x msgs y r out tr1 tr2 tr3 Ht Hc Hmsg Hs|n x msgs y r cause out tr1 tr2 tr3 Ht _ Hmsg Hf
    |n x msgs y r cause out tr1 tr2 tr3 Ht _ Hmsg Hf
    |n x msgs y r cause out tr1 tr2 tr3 tr4 Ht _ Hmsg Htl Hf
    |n x msgs y r results cause out tr1 tr2 tr3 tr4 tr5 Ht _ Hmsg Htl Hms Hf
    |n x msgs y r results out tr1 tr2 tr3 tr4 tr5 Ht Hc Hmsg Htl Hms _ IH]; intros Hout;
    try by apply Hno in Hf.
  - destruct (think_exchange _ _ _ _ _ Ht) as [Hx Hu].
    destruct (silent_log _ (silent_message _ _ _ _ Hmsg)) as [Hx2 Hu2].
    destruct (silent_log _ (silent_end _ _ _ (end_succeeded _ _ _ _ Hs))) as [Hx3 Hu3].
    rewrite !exchanges_app, !uses_app, Hx, Hu, Hx2, Hu2, Hx3, Hu3.
    rewrite !logged_messages_app, (think_stores_no_message _ _ _ _ _ Ht).
    rewrite (end_stores_no_message _ _ _ _ (end_succeeded _ _ _ _ Hs)), !app_nil_r. simpl.
    rewrite (logged_messages_run _ _ _ Hmsg). destruct Hs. by apply turn_answer.
  - destruct (think_exchange _ _ _ _ _ Ht) as [Hx Hu].
    destruct (silent_log _ (silent_message _ _ _ _ Hmsg)) as [Hx2 Hu2].
    destruct (silent_log _ (silent_messages _ _ _ _ Hms)) as [Hx4 Hu4].
    destruct (tools_uses _ _ _ _ Htl) as (outputs & Ha & Hu3).
    rewrite !exchanges_app, !uses_app, Hx, Hu, Hx2, Hu2, Hx4, Hu4, (tools_exchanges _ _ _ _ Htl).
    rewrite !logged_messages_app, (think_stores_no_message _ _ _ _ _ Ht), !fmap_app.
    rewrite (logged_messages_run _ _ _ Hmsg), (messages_stored _ _ _ Hms).
    assert (logged_messages (Execution.ConversationID x) tr3 = []) as ->.
    { apply logged_messages_apart. apply tools_run_obs in Htl.
      eapply Forall_impl; [exact Htl|]. by intros []. }
    simpl. apply (turn_tools _ _ _ outputs); [done|done|done|done|].
    pose proof (think_same_run _ _ _ _ _ _ _ Ht) as ((_ & _ & _ & Hcv & _) & _).
    rewrite Hcv. by apply IH.
Qed.

Lemma execute_turns x out tr :
  execute_run e agent definitions x out tr → out.2 = None →
  ∃ history rest,
    chat_of <$> logged_messages (Execution.ConversationID x) tr = user_message x :: rest ∧
    turns (Engine.chat_history history ++ [user_message x]) (exchanges tr) (uses tr) rest
      (Execution.Output out.1).
Proof.
  intros He Hout. destruct He as [out tr d Hb].
  assert (∀ i b l, logged_messages i (samples b l) = []) as Hs.
  { intros i b l. by apply omap_none, Forall_samples, Forall_true. }
  assert (∀ b l, exchanges (samples b l) = [] ∧ uses (samples b l) = []) as Hs2
    by (intros b l; apply silent_log, silent_samples).
  rewrite !logged_messages_app, !exchanges_app, !uses_app, !Hs, !(proj1 (Hs2 _ _)), !(proj2 (Hs2 _ _)), !app_nil_r.
  simpl.
  destruct Hb as [now err|now err out tr Hf|now cause out tr1 tr2 Hmsg Hf
                 |now history out tr1 tr2 Hmsg Hl]; [done|by destruct Hf..|].
  destruct (silent_log _ (silent_message _ _ _ _ Hmsg)) as [Hx2 Hu2].
  rewrite !logged_messages_app, !fmap_app, (logged_messages_run _ _ _ Hmsg).
  rewrite !exchanges_app, !uses_app, Hx2, Hu2. simpl.
  exists history. eexists. split; [done|]. by apply (loop_turns _ _ _ _ _ Hl).
Qed.

(** *** The retries the trace records *)

Definition retried (o : Obs) : Z := attempt o - thought o.

Lemma step_retries_app tr1 tr2 : step_retries (tr1 ++ tr2) = step_retries tr1 + step_retries tr2.
Proof. apply total_app. Qed.

Lemma step_retries_none tr :
  Forall (λ o, match o with OStep _ _ => False | _ => True end) tr → step_retries tr = 0.
Proof. intros HF. apply total_zero. eapply Forall_impl; [exact HF|]. by intros []. Qed.

Lemma retried_model : model_weight retried.
Proof.
  intros o. pose proof (thought_model o) as Ht. unfold retried.
  destruct o; simpl in *; try done. intros Hn. by rewrite Ht.
Qed.

Lemma think_steps x msgs y r tr :
  think_run e agent definitions x msgs (Engine.Responded y r) tr →
  step_retries tr = total retried tr.
Proof.
  inversion 1 as [| | | | |now ev d calls resp n st [Hev _] Hr (_ & _ & _ & Hst & _) _]; subst.
  rewrite total_app, total_called by apply retried_model.
  destruct (retry_attempts _ _ _ _ _ Hr) as [Ha _].
  assert (∀ b l, step_retries (samples b l) = 0) as Hsm.
  { intros b l. by apply step_retries_none, Forall_samples, Forall_true. }
  assert (Forall (λ o, match o with OStep _ _ => False | _ => True end) calls) as Hcs.
  { eapply Forall_impl; [by eapply retry_run_obs|]. by intros o [r' ->]. }
  assert (total retried calls = total attempt calls) as ->.
  { clear -Hr. apply retry_run_obs in Hr.
    induction Hr as [|o l [r' ->] _ IH]; simpl; [done|]. by rewrite IH. }
  unfold called. rewrite !step_retries_app, (step_retries_none _ Hcs), !Hsm.
  rewrite !total_app, total_samples by apply retried_model.
  rewrite Ha. unfold retried, step_retries. simpl. rewrite Hev, decide_True by done. lia.
Qed.

Lemma tools_steps id calls results tr :
  tools_run m id calls (Ok results) tr → step_retries tr = 0.
Proof.
  inversion 1 as [rs trs tr' HF Hp Hc]; subst. unfold step_retries. apply shuffled_perm in Hp.
  rewrite (total_perm _ _ _ Hp).
  clear Hp H. revert results Hc.
  induction HF as [|call r tr' calls rs trs Hr _ IH]; intros results Hc; [done|]. simpl in *.
  destruct r as [msg|]; [|done]. destruct (Engine.collect rs) as [ms|] eqn:E; [|done].
  rewrite total_app, (IH ms eq_refl). destruct Hr as [d tr'' Hb]. rewrite total_app.
  assert (∀ b l, step_retries (samples b l) = 0) as Hs.
  { intros b l. by apply step_retries_none, Forall_samples, Forall_true. }
  unfold step_retries in Hs. rewrite Hs. inversion Hb; subst. simpl. lia.
Qed.

Lemma loop_steps n x msgs out tr :
  loop_run e agent definitions n x msgs out tr → out.2 = None →
  step_retries tr = total retried tr.
Proof.
  assert (∀ y cause out tr, fail_run (Engine.metrics e) y cause out tr → out.2 ≠ None) as Hno.
  { intros y cause out' tr' Hf. by destruct Hf. }
  assert (∀ conversation l, Forall (message_obs conversation) l → step_retries l = 0) as Hmz.
  { intros conversation l HF. apply step_retries_none. eapply Forall_impl; [exact HF|].
    by intros []. }
  pose proof retried_model as Hwt.
  induction 1 as [x msgs out tr Hf|n x msgs y cause out tr1 tr2 Ht Hf
    |n x msgs y r out tr1 tr2 tr3 Ht _ Hmsg Hs|n x msgs y r cause out tr1 tr2 tr3 Ht _ Hmsg Hf
    |n x msgs y r cause out tr1 tr2 tr3 Ht _ Hmsg Hf
    |n x msgs y r cause out tr1 tr2 tr3 tr4 Ht _ Hmsg Htl Hf
    |n x msgs y r results cause out tr1 tr2 tr3 tr4 tr5 Ht _ Hmsg Htl Hms Hf
    |n x msgs y r results out tr1 tr2 tr3 tr4 tr5 Ht Hc Hmsg Htl Hms _ IH]; intros Hout;
    try (by apply Hno in Hf); rewrite !total_app, !step_retries_app, (think_steps _ _ _ _ _ Ht);
    rewrite (total_message _ Hwt _ _ _ _ Hmsg), (Hmz _ _ (message_run_obs _ _ _ _ Hmsg)).
  - pose proof (end_succeeded m _ _ _ Hs) as He.
    rewrite (total_end _ _ Hwt _ _ _ He), step_retries_none; [done|].
    eapply Forall_impl; [by eapply apart_end_messages|]. by intros [].
  - rewrite (total_tools _ _ Hwt _ _ _ _ Htl), (tools_steps _ _ _ _ Htl).
    rewrite (total_messages _ Hwt _ _ _ _ Hms), (Hmz _ _ (messages_run_obs _ _ _ _ Hms)).
    by rewrite IH.
Qed.

Lemma execute_steps x out tr :
  execute_run e agent definitions x out tr → out.2 = None →
  step_retries tr = total retried tr.
Proof.
  intros He Hout. destruct He as [out tr d Hb]. pose proof retried_model as Hwt.
  assert (∀ b l, step_retries (samples b l) = 0) as Hs.
  { intros b l. by apply step_retries_none, Forall_samples, Forall_true. }
  rewrite !total_app, !step_retries_app, !Hs, !total_samples by done.
  destruct Hb as [now err|now err out tr Hf|now cause out tr1 tr2 Hmsg Hf
                 |now history out tr1 tr2 Hmsg Hl]; [done|by destruct Hf..|].
  rewrite !total_app, !step_retries_app, (loop_steps _ _ _ _ _ Hl Hout).
  rewrite (total_message _ Hwt _ _ _ _ Hmsg), (step_retries_none tr1); [done|].
  eapply Forall_impl; [by eapply message_run_obs|]. by intros [].
Qed.
End storing.

(** Every event of a run carries the identifier of its execution. *)
Lemma execute_event_ids e agent definitions x out tr :
  execute_run e agent definitions x out tr →
  Forall (λ ev, Event.ExecutionID ev = Execution.ID x) (events tr).
Proof.
  intros He%execute_shape. destruct He as [now err d -> ->|now d y mid fin -> Hmid Hy Hend].
  { autorewrite with logs. constructor. }
  assert (Execution.ID y = Execution.ID x) as Hid by (symmetry; apply Hy).
  autorewrite with logs. simpl. constructor; [done|]. apply Forall_app_2.
  - eapply Forall_impl; [by apply events_inner|]. by intros ev [? _].
  - destruct Hend as [cause [now' r z]|[now' r z]]; autorewrite with logs; unfold closing;
      destruct r; by repeat constructor.
Qed.

(** ** What a run leaves alone *)

(** Observations filed under the identifiers of [x]. *)
Definition own (x : Execution.t) (o : Obs) : Prop :=
  match o with
  | OUpdate y _ => Execution.ID y = Execution.ID x
  | OStep st _ => Step.ExecutionID st = Execution.ID x
  | OMessage m _ => Message.ConversationID m = Execution.ConversationID x
  | _ => True
  end.

Lemma inner_own x o : inner x o → own x o.
Proof. by destruct o. Qed.

Lemma execute_own e agent definitions x out tr :
  execute_run e agent definitions x out tr → Forall (own x) tr.
Proof.
  assert (∀ b l, Forall (own x) (samples b l)) as Hs.
  { intros b l. by apply Forall_samples, Forall_true. }
  intros He%execute_shape. destruct He as [now err d -> ->|now d y mid fin -> Hmid Hy Hend].
  - repeat apply Forall_app_2; try done. by repeat constructor.
  - repeat apply Forall_app_2; try done; [by repeat constructor| |].
    + eapply Forall_impl; [exact Hmid|]. apply inner_own.
    + assert (Execution.ID y = Execution.ID x) as Hid by (symmetry; apply Hy).
      destruct Hend as [cause Hf|Hok]; [destruct Hf as [now' r z]|destruct Hok as [now' r z]];
        rewrite ?Forall_app; unfold closing; destruct r; repeat constructor; done.
Qed.

Section own.
Context (key : string → string) (x : Execution.t).

Lemma own_steps i tr :
  Forall (own x) tr → key i ≠ key (Execution.ID x) → logged_steps key i tr = [].
Proof.
  intros HF Hi. apply omap_none. eapply Forall_impl; [exact HF|].
  intros [|st []| | | | | | | |] Ho; simpl in *; try done. rewrite decide_False; congruence.
Qed.

Lemma own_messages i tr :
  Forall (own x) tr → key i ≠ key (Execution.ConversationID x) → logged_messages key i tr = [].
Proof.
  intros HF Hi. apply omap_none. eapply Forall_impl; [exact HF|].
  intros [| |st []| | | | | | |] Ho; simpl in *; try done. rewrite decide_False; congruence.
Qed.

Lemma own_stored keep found i tr :
  Forall (own x) tr → key i ≠ key (Execution.ID x) → stored_after key keep found i tr = found.
Proof.
  intros HF Hi. unfold stored_after. enough (last_update key i tr = None) as -> by done.
  unfold last_update. induction HF as [|o tr Ho _ IH]; simpl; [done|]. etrans; [|exact IH]. f_equal.
  destruct o as [y []| | | | | | | | |]; simpl in *; try done. rewrite decide_False; congruence.
Qed.
End own.
