(* ===== verification/EngineFacts.v ===== *)
(** * What a run of the engine guarantees

    The theorems a user of [Engine.Execute] relies on, for every environment, store,
    sink, provider, registry and schedule.  The hypotheses the first group shares: the
    retry policy allows an attempt, and a provider whose usage is counted by metrics does not
    report negative usage. *)

From S2P Require Import Prelude GoLang GoString GoJson Conc Runtime Domain Breaker Retry Store.
From S2P Require Import Tool Llm World Engine EngineSpec EngineProof EngineLogs.
Open Scope Z_scope.

(** ** What a log of a run says about the stored execution *)

(** How a run that began at [now] and returned [(y, err)] ended, where [r] is what its final write
    reported: with an answer, or with a cause, which the execution records.  A run that fails returns
    its cause, joined with the error of the write if that failed too. *)
Definition ended_as (x y : Execution.t) (err : option error) (now : time) (r : option error) : Prop :=
  Execution.StartedAt y = Some now ∧ is_Some (Execution.CompletedAt y) ∧
  ((Execution.Status y = ExecutionSucceeded ∧ err = r) ∨
   ∃ cause, Execution.Error y = Error cause ∧
     Execution.Status y = (if Is cause Canceled then ExecutionCancelled else ExecutionFailed) ∧
     err = Some (match r with None => cause | Some failure => Join cause failure end)).

(** How a run that returned [(y, err)] and logged [tr] leaves its execution [x], stored as [found]
    before and as [left_] after the run: it made one write, which failed, or two, the second of
    the final state [y]. *)
Definition final_state (keep : Execution.t → Execution.t) (x y : Execution.t) (err : option error)
    (tr : list Obs) (found left_ : option Execution.t) : Prop :=
  same_identity x y ∧ ∃ now,
  ((∃ cause, y = running x now ∧ err = Some (Wrap "mark execution running" cause) ∧
      updates tr = [(y, Some cause)] ∧ left_ = found) ∨
   (∃ r, ended_as x y err now r ∧ updates tr = [(running x now, None); (y, r)] ∧
      left_ = Some (keep (match r with None => y | Some _ => running x now end)))).

(** The last event of a run, if its final write worked. *)
Definition closing_event (y : Execution.t) (err : option error) (ev : Event.t) : Prop :=
  ∃ at_, (ev = completed_event y at_ ∧ err = None ∧ Execution.Status y = ExecutionSucceeded) ∨
         (ev = failed_event y at_ ∧ is_Some err ∧ Execution.Status y ≠ ExecutionSucceeded).

Section final.
Context (key : string → string) (keep : Execution.t → Execution.t).
Context (e : Engine.t) (agent : Agent.t) (definitions : list ToolDefinition.t).
Context (x y : Execution.t) (err : option error) (tr : list Obs).
Context (Hrun : execute_run e agent definitions x (y, err) tr).
Abbreviation after found := (stored_after key keep found (Execution.ID x) tr).

Lemma ended_terminal now r : ended_as x y err now r → terminal (Execution.Status y) = true.
Proof. intros (_ & _ & [[-> _]|(cause & _ & -> & _)]); [done|]. by destruct (Is cause Canceled). Qed.

(** The writes and the events of a run. *)
Lemma run_ends :
  same_identity x y ∧ ∃ now,
  ((∃ cause, y = running x now ∧ err = Some (Wrap "mark execution running" cause) ∧
      updates tr = [(y, Some cause)] ∧ events tr = []) ∨
   (∃ r middle closing, ended_as x y err now r ∧ updates tr = [(running x now, None); (y, r)] ∧
      events tr = started_event x now :: middle ++ closing ∧
      Forall (λ ev, Event.ExecutionID ev = Execution.ID x ∧ plain_event (Event.Type_ ev)) middle ∧
      match r with None => ∃ ev, closing = [ev] ∧ closing_event y err ev | Some _ => closing = [] end)).
Proof.
  pose proof (execute_shape _ _ _ _ _ _ Hrun) as He.
  remember (y, err) as out eqn:Eo. destruct He as [now err' d -> ->|now d z mid fin -> Hmid Hy Hend].
  { injection Eo as <- <-. split; [done|]. exists now. left. exists err'. autorewrite with logs. by split_and!. }
  assert (same_identity x z) as Hxz by apply Hy. destruct Hy as (_ & _ & Hst & _). simpl in Hst.
  pose proof (events_inner _ _ Hmid) as Hplain. pose proof (updates_inner _ _ Hmid) as Hno.
  destruct Hend as [cause Hf|Hok].
  - destruct Hf as [now' r u]. injection Eo as <- <-. split; [exact Hxz|]. exists now. right.
    eexists r, (events mid), (events (closing u r (failed_event u now'))).
    autorewrite with logs. rewrite Hno. split_and!; [| |done|done|].
    + split_and!; [by simpl|by eexists|]. right. by exists cause.
    + unfold closing. by destruct r.
    + unfold closing. destruct r as [er|]; simpl; [done|]. eexists. split; [done|]. exists now'. right.
      split_and!; [done|by eexists|]. simpl. by destruct (Is cause Canceled).
  - destruct Hok as [now' r u]. injection Eo as <- <-. split; [exact Hxz|]. exists now. right.
    eexists r, (events mid), (events (closing u r (completed_event u now'))).
    autorewrite with logs. rewrite Hno. split_and!; [| |done|done|].
    + split_and!; [by simpl|by eexists|]. by left.
    + unfold closing. by destruct r.
    + unfold closing. destruct r as [er|]; simpl; [done|]. eexists. split; [done|]. exists now'. by left.
Qed.

Lemma run_final found : final_state keep x y err tr found (after found).
Proof.
  destruct run_ends as (Hi & now & [(cause & Hy & Herr & Hu & _)|(r & _ & _ & He & Hu & _)]);
    (split; [exact Hi|]; exists now); unfold stored_after; rewrite last_update_updates, Hu; unfold last_of;
    simpl.
  - left. by exists cause.
  - right. exists r. split_and!; [done..|]. rewrite decide_True by done.
    destruct r; [done|]. by rewrite decide_True by by rewrite (proj1 Hi).
Qed.

(** If no write of the execution failed, its final state is stored. *)
Lemma run_recorded found :
  (∀ z r, Execution.ID z = Execution.ID x → OUpdate z r ∈ tr → r = None) →
  same_identity x y ∧ after found = Some (keep y) ∧ terminal (Execution.Status y) = true ∧
  (err = None ↔ Execution.Status y = ExecutionSucceeded).
Proof.
  intros Hok. assert (∀ u, u ∈ updates tr → Execution.ID u.1 = Execution.ID x → u.2 = None) as Hall.
  { intros [z r] (o & Ho & E)%list_elem_of_omap Hid. destruct o; try done. injection E as -> ->.
    by eapply Hok. }
  destruct (run_final found) as (Hi & now & [(cause & _ & _ & Hu & _)|(r & He & Hu & ->)]); rewrite Hu in Hall.
  - by discriminate (Hall (y, Some cause) (list_elem_of_here _ _) (eq_sym (proj1 Hi))).
  - assert (r = None) as ->.
    { apply (Hall (y, r)); [apply list_elem_of_further, list_elem_of_here|by rewrite (proj1 Hi)]. }
    split_and!; [done|done|by eapply ended_terminal|].
    destruct He as (_ & _ & [[-> ->]|(cause & _ & -> & ->)]); [done|]. by destruct (Is cause Canceled).
Qed.
End final.

Section runs.
Context `{Env} {DB SK QU : Type} `{StoreLaws DB, SinkOps SK, Counters, Unicode}.
Context (w : World DB SK QU) (e : Engine.t) (ctx : Context) (agent : Agent.t)
        (x : Execution.t).
Context (Hattempts : 1 ≤ RetryPolicy.MaxAttempts (Engine.retryPolicy e))
        (Hsane : Engine.metrics e = true → sane_provider (Engine.provider e)).
Abbreviation W := (World DB SK QU).
Abbreviation definitions := (Registry.Definitions (Agent.Tools agent) (w_tools w)).

Lemma Execute_mono (Q : outcome → W → Prop) :
  (∀ out w' tr, reached [x] w tr w' → execute_run e agent definitions x out tr → Q out w') →
  pwp (Engine.Execute e ctx agent x) Q w.
Proof.
  intros HQ. eapply pwp_mono; [by apply Execute_run|].
  intros out w' (tr & Hr & He). by eapply HQ.
Qed.

(** C1: The engine implements its specification: if its retry policy allows an attempt and, when it
    keeps metrics, its provider reports no negative usage, then from any world, with any timing, random
    outcome and interleaving of tool calls, [Execute] terminates without panicking,
    its log is one the specification allows, and the world it leaves (breaker, stored
    executions, steps and messages) is what the log makes of the world it found. *)
Theorem execute_refines_spec :
  pwp (Engine.Execute e ctx agent x)
    (λ out w', ∃ tr, reached [x] w tr w' ∧ execute_run e agent definitions x out tr) w.
Proof. by apply Execute_run. Qed.

(** The stored execution after a run, from its updates. *)
Lemma stored_final tr w' :
  reached [x] w tr w' → holds x w →
  stored (w_store w') (Execution.ID x) =
  stored_after (key DB) (kept DB) (stored (w_store w) (Execution.ID x)) (Execution.ID x) tr.
Proof. intros Hr Hh. apply (reached_stored _ _ _ _ Hr). by intros y ->%list_elem_of_singleton. Qed.

Lemma Execute_final :
  holds x w →
  pwp (Engine.Execute e ctx agent x) (λ '(y, err) w', ∃ tr, w_log w' = w_log w ++ tr ∧
    final_state (kept DB) x y err tr (stored (w_store w) (Execution.ID x))
      (stored (w_store w') (Execution.ID x))) w.
Proof.
  intros Hh. apply Execute_mono. intros [y err] w' tr Hr He. exists tr.
  split; [by apply reached_log in Hr|]. rewrite (stored_final _ _ Hr Hh). by eapply run_final.
Qed.

(** C5: The states of an execution that is stored (for a policy that allows an attempt and, with
    metrics, usage that is not negative): a run that cannot mark its execution as running
    reports that, makes no other write and changes nothing.  Any other run makes exactly two writes,
    of the execution as running and of the final state it returns, with the start and end times set
    and the identity of the execution unchanged.  A run that succeeds returns what the final write
    reported; one that fails records the error of its cause, is cancelled or failed as the cause says,
    and returns the cause, joined with the error of the final write if that failed.  The store holds
    the final state, unless that write failed: then it holds the execution as running. *)
Theorem execute_final_state :
  holds x w →
  pwp (Engine.Execute e ctx agent x) (λ '(y, err) w', ∃ tr, w_log w' = w_log w ++ tr ∧
    final_state (kept DB) x y err tr (stored (w_store w) (Execution.ID x))
      (stored (w_store w') (Execution.ID x))) w.
Proof. apply Execute_final. Qed.

(** C22: The events of a run (for a policy that allows an attempt and, with metrics, usage that is
    not negative): none if it could not mark the execution as running; otherwise
    [agent.started] first, then only thinking and tool events, and last, if the final write of
    the execution worked, one closing event, which says how the run ended: [agent.completed]
    for a run without an error, [agent.failed] for one with; if that write failed, none. *)
Theorem execute_events :
  pwp (Engine.Execute e ctx agent x) (λ '(y, err) w', ∃ tr,
    w_log w' = w_log w ++ tr ∧ ∃ now,
    ((∃ cause, y = running x now ∧ err = Some (Wrap "mark execution running" cause) ∧
        updates tr = [(y, Some cause)] ∧ events tr = []) ∨
     (∃ r middle closing, ended_as x y err now r ∧ updates tr = [(running x now, None); (y, r)] ∧
        events tr = started_event x now :: middle ++ closing ∧
        Forall (λ ev, Event.ExecutionID ev = Execution.ID x ∧
                      Event.Type_ ev ∈ ["agent.thinking"; "tool.started"; "tool.completed";
                                        "tool.failed"]) middle ∧
        match r with
        | None => ∃ ev, closing = [ev] ∧ closing_event y err ev
        | Some _ => closing = []
        end))) w.
Proof.
  apply Execute_mono. intros [y err] w' tr Hr He. exists tr. split; [by apply reached_log in Hr|].
  by destruct (run_ends _ _ _ _ _ _ _ He) as [_ Hends].
Qed.

(** Bounds: a run thinks at most [maxSteps] times, and calls the provider at least once
    and at most [MaxAttempts] times per thought; so at most [maxSteps * MaxAttempts]
    calls are ever made, whatever the provider and the tools do. *)
Theorem execute_call_bounds :
  pwp (Engine.Execute e ctx agent x) (λ _ w', ∃ tr,
    w_log w' = w_log w ++ tr ∧
    total thought tr ≤ Z.of_nat (Engine.maxSteps e) ∧
    total thought tr ≤ total attempt tr ≤
      RetryPolicy.MaxAttempts (Engine.retryPolicy e) * total thought tr ∧
    total attempt tr ≤ Z.of_nat (Engine.maxSteps e) *
                       RetryPolicy.MaxAttempts (Engine.retryPolicy e)) w.
Proof.
  apply Execute_mono. intros out w' tr Hr He. exists tr.
  split; [by apply reached_log in Hr|].
  pose proof (execute_calls _ _ _ _ _ _ He). split_and!; try lia. nia.
Qed.

(** C8: Accounting: the token counters grow by what the successful calls reported and the
    retry counter by the calls that were repeated (all modulo 2^64); and after a run
    without an error the steps it added to the stored trace record exactly those retries. *)
Theorem execute_accounting :
  int64 (Execution.RetryCount x) → int64 (Execution.PromptTokens x) →
  int64 (Execution.OutputTokens x) →
  pwp (Engine.Execute e ctx agent x) (λ '(y, err) w', ∃ tr,
    w_log w' = w_log w ++ tr ∧
    Execution.PromptTokens y = wrap64 (Execution.PromptTokens x + total prompt_tokens tr) ∧
    Execution.OutputTokens y = wrap64 (Execution.OutputTokens x + total output_tokens tr) ∧
    Execution.RetryCount y =
      wrap64 (Execution.RetryCount x + (total attempt tr - total thought tr)) ∧
    (err = None → step_retries tr = total attempt tr - total thought tr)) w.
Proof.
  intros Hi Hp Ho. apply Execute_mono. intros [y err] w' tr Hr He. exists tr.
  assert (∀ l, total retried l = total attempt l - total thought l) as Hret.
  { induction l as [|o l IH]; simpl; [done|]. rewrite IH. unfold retried. lia. }
  split_and!.
  - by apply reached_log in Hr.
  - by apply (execute_tokens e agent definitions Execution.PromptTokens
                (λ v, Usage.PromptTokens (Response.Usage_ v)) prompt_tokens x (y, err));
      [intros []; try done; case_match|..].
  - by apply (execute_tokens e agent definitions Execution.OutputTokens
                (λ v, Usage.OutputTokens (Response.Usage_ v)) output_tokens x (y, err));
      [intros []; try done; case_match|..].
  - etrans; [exact (execute_retries _ _ _ _ _ _ He Hi)|]. by rewrite <-Hret.
  - intros Herr. by rewrite (execute_steps _ _ _ _ _ _ He Herr), Hret.
Qed.

(** C7: The circuit breaker is obeyed: the model is only called after the breaker has allowed
    it and before the outcome has been reported, and the breaker's answers and state
    are those of the logged calls on the state the run found. *)
Theorem execute_obeys_breaker :
  pwp (Engine.Execute e ctx agent x) (λ _ w', ∃ tr,
    w_log w' = w_log w ++ tr ∧ guarded false tr ∧
    breaker_after (w_breaker w) tr = Some (w_breaker w')) w.
Proof.
  apply Execute_mono. intros out w' tr Hr He. exists tr. split_and!.
  - by apply reached_log in Hr.
  - by eapply guarded_execute.
  - by apply reached_breaker in Hr.
Qed.


Lemma Execute_isolated :
  holds x w →
  pwp (Engine.Execute e ctx agent x) (λ _ w',
    (∀ i, key DB i ≠ key DB (Execution.ID x) →
          stored (w_store w') i = stored (w_store w) i ∧
          steps_of (w_store w') i = steps_of (w_store w) i) ∧
    (∀ i, key DB i ≠ key DB (Execution.ConversationID x) →
          messages_of (w_store w') i = messages_of (w_store w) i) ∧
    same_agents (w_store w) (w_store w') ∧ same_conversations (w_store w) (w_store w') ∧
    w_tools w' = w_tools w ∧ w_queue w' = w_queue w) w.
Proof.
  intros Hh. apply Execute_mono. intros out w' tr Hr He.
  pose proof (execute_own _ _ _ _ _ _ He) as Hown. destruct Hr. split_and!; try done.
  - intros i Hi. rewrite reached_stored, reached_steps by (by intros y ->%list_elem_of_singleton). split.
    + by apply (own_stored _ x).
    + rewrite (own_steps _ x) by done. apply app_nil_r.
  - intros i Hi. rewrite reached_messages, (own_messages _ x) by done. apply app_nil_r.
Qed.

(** Isolation: whatever happens, a run changes no other execution, adds steps and messages only to
    its own execution and conversation, and leaves agents, conversations, the tool
    registry and the queue as they were. *)
Theorem execute_isolated :
  holds x w →
  pwp (Engine.Execute e ctx agent x) (λ _ w',
    (∀ i, key DB i ≠ key DB (Execution.ID x) →
          stored (w_store w') i = stored (w_store w) i ∧
          steps_of (w_store w') i = steps_of (w_store w) i) ∧
    (∀ i, key DB i ≠ key DB (Execution.ConversationID x) →
          messages_of (w_store w') i = messages_of (w_store w) i) ∧
    same_agents (w_store w) (w_store w') ∧ same_conversations (w_store w) (w_store w') ∧
    w_tools w' = w_tools w ∧ w_queue w' = w_queue w) w.
Proof. apply Execute_isolated. Qed.

(** With a store that is available, the final write does not fail. *)
Lemma Execute_recorded `{!StoreAvailable DB} :
  holds x w →
  pwp (Engine.Execute e ctx agent x) (λ '(y, err) w',
    same_identity x y ∧ w_queue w' = w_queue w ∧
    stored (w_store w') (Execution.ID x) = Some y ∧
    terminal (Execution.Status y) = true ∧
    (err = None ↔ Execution.Status y = ExecutionSucceeded)) w.
Proof.
  intros Hh. apply Execute_mono. intros [y err] w' tr Hr He.
  pose proof (run_recorded (key DB) (kept DB) _ _ _ _ _ _ _ He
                (stored (w_store w) (Execution.ID x))) as Hrec.
  rewrite <-(stored_final _ _ Hr Hh), kept_exact in Hrec.
  destruct Hrec as (Hi & Hs & Ht & Herr); [|split_and!; try done; by apply reached_queue in Hr].
  intros z r Hid Hin. pose proof (reached_answers _ _ _ _ Hr) as Han.
  rewrite Forall_forall in Han. destruct (Han _ Hin) as (_ & c & s & <- & Hst).
  apply update_succeeds. rewrite Hid. apply Hst; [apply list_elem_of_here|done].
Qed.
(** With a store that is available, the store holds the final state of every run of a stored
    execution, and the run has reported no error exactly when it succeeded. *)
Theorem execute_recorded `{!StoreAvailable DB} :
  holds x w →
  pwp (Engine.Execute e ctx agent x) (λ '(y, err) w',
    stored (w_store w') (Execution.ID x) = Some y ∧
    terminal (Execution.Status y) = true ∧
    (err = None ↔ Execution.Status y = ExecutionSucceeded)) w.
Proof.
  intros Hh. eapply pwp_mono; [by apply Execute_recorded|].
  intros [y err] w' (_ & _ & Hst). exact Hst.
Qed.
End runs.
