(* ===== verification/EngineGroup.v ===== *)
(** * Several runs of the engine at once

    The goroutines of the worker pool call [Execute] of one engine at the same time: their runs
    share the store, the breaker, the event sink and the tools.  Whatever the schedule, every run
    does what it may do alone, and what it leaves of its execution is what its own log says. *)

From S2P Require Import Prelude GoLang GoString GoJson Conc Rely Group Runtime Domain Breaker.
From S2P Require Import Retry Store Tool Llm World Engine EngineSpec EngineProof EngineLogs.
From S2P Require Import EngineFacts.
Open Scope Z_scope.

(** ** Interleaved logs of different executions *)

Section logs.
Context (key : string → string).

(** A successful write of the execution [id]. *)
Definition written (id : string) (o : Obs) : option Execution.t :=
  match o with
  | OUpdate x None => if decide (key (Execution.ID x) = key id) then Some x else None
  | _ => None
  end.

Lemma last_update_written id tr : last_update key id tr = last (omap (written id) tr).
Proof.
  unfold last_update. induction tr as [|o tr IH] using rev_ind; [done|].
  rewrite foldl_app, omap_app. simpl. rewrite IH.
  destruct o as [x []| | | | | | | | |]; simpl; rewrite ?(right_id_L [] (++)); try done.
  case_decide; [by rewrite last_snoc|by rewrite (right_id_L [] (++))].
Qed.

(** Logs of executions with different identifiers. *)
Context (subjects : list Execution.t) (trs : list (list Obs)) (tr : list Obs).
Context (Hown : Forall2 (λ x l, Forall (own x) l) subjects trs) (Hs : shuffled trs tr).
Context (Hdistinct : NoDup ((λ x, key (Execution.ID x)) <$> subjects)).

Lemma others_own i j x l :
  subjects !! i = Some x → j ≠ i → trs !! j = Some l →
  ∃ y, Forall (own y) l ∧ key (Execution.ID x) ≠ key (Execution.ID y).
Proof.
  intros Hx Hji Hl. destruct (Forall2_lookup_r _ _ _ _ _ Hown Hl) as (y & Hy & Ho).
  exists y. split; [done|]. intros Hk. apply Hji. symmetry.
  eapply (NoDup_lookup _ _ _ (key (Execution.ID x)) Hdistinct).
  - by rewrite list_lookup_fmap, Hx.
  - rewrite list_lookup_fmap, Hy. simpl. by rewrite Hk.
Qed.

Lemma shuffled_stored keep found i x l :
  subjects !! i = Some x → trs !! i = Some l →
  stored_after key keep found (Execution.ID x) tr = stored_after key keep found (Execution.ID x) l.
Proof.
  intros Hx Hl. unfold stored_after. rewrite !last_update_written.
  rewrite (shuffled_omap _ _ _ _ _ Hs Hl); [done|]. intros j l' Hj Hl'.
  destruct (others_own i j x l' Hx Hj Hl') as (y & Ho & Hk).
  eapply Forall_impl; [exact Ho|]. intros o Hoo.
  destruct o as [z []| | | | | | | | |]; simpl in *; try done. rewrite decide_False; congruence.
Qed.

Lemma shuffled_steps i x l :
  subjects !! i = Some x → trs !! i = Some l →
  logged_steps key (Execution.ID x) tr = logged_steps key (Execution.ID x) l.
Proof.
  intros Hx Hl. apply (shuffled_omap _ _ _ _ _ Hs Hl). intros j l' Hj Hl'.
  destruct (others_own i j x l' Hx Hj Hl') as (y & Ho & Hk).
  eapply Forall_impl; [exact Ho|]. intros o Hoo.
  destruct o as [|st []| | | | | | | |]; simpl in *; try done. rewrite decide_False; congruence.
Qed.
End logs.

(** ** The runs *)

(** A call of [Execute]: its context, agent and execution. *)
Definition request : Type := (Context * Agent.t * Execution.t).
Definition subject (r : request) : Execution.t := r.2.

Section runs.
Context `{Env} {DB SK QU : Type} `{StoreLaws DB, SinkOps SK, Counters, Unicode}.
Context (w : World DB SK QU) (e : Engine.t) (requests : list request).
Context (Hattempts : 1 ≤ RetryPolicy.MaxAttempts (Engine.retryPolicy e))
        (Hsane : Engine.metrics e = true → sane_provider (Engine.provider e)).
Abbreviation W := (World DB SK QU).
Abbreviation subjects := (subject <$> requests).

Definition start (r : request) : proc W (result ChatMessage.t) outcome :=
  Engine.Execute e r.1.1 r.1.2 (subject r).

(** What a run may do and log, run alone or not. *)
Definition may_run (r : request) : outcome → list Obs → Prop :=
  execute_run e r.1.2 (Registry.Definitions (Agent.Tools r.1.2) (w_tools w)) (subject r).

(** What is left when all runs have returned. *)
Record all_ran (w' : W) (outs : list outcome) (trs : list (list Obs)) (tr : list Obs) : Prop := {
  ran_reached : reached subjects w tr w';
  ran_shuffled : shuffled trs tr;
  ran_each : Forall3 may_run requests outs trs
}.

(** The executions are told apart by the store. *)
Definition different : Prop := NoDup ((λ x, key DB (Execution.ID x)) <$> subjects).

Lemma different_apart : different → told_apart (key DB) subjects.
Proof.
  intros Hd x y [i Hi]%list_elem_of_lookup_1 [j Hj]%list_elem_of_lookup_1 Hk.
  assert (i = j) as <-; [|rewrite Hi in Hj; by injection Hj as <-].
  eapply (NoDup_lookup _ _ _ (key DB (Execution.ID x)) Hd); rewrite list_lookup_fmap.
  - by rewrite Hi.
  - rewrite Hj. simpl. by rewrite Hk.
Qed.

(** A process that must not wait and never does. *)
Definition contract_of (r : request) : contract (W := W) (O := Obs) :=
  mk_contract (reached subjects) (λ _ _, False) (may_run r).

Lemma all_returned (ps : list (proc W (result ChatMessage.t) outcome)) trs (rs : list request) w' :
  Forall3 (ended w') ps trs (contract_of <$> rs) →
  ∃ outs, ps = PRet <$> outs ∧ Forall3 may_run rs outs trs.
Proof.
  intros HF. remember (contract_of <$> rs) as cs eqn:E. revert rs E.
  induction HF as [|p l c ps trs cs Hp _ IH]; intros [|r rs] E; simplify_eq/=.
  { exists []. by split; [|constructor]. }
  destruct (IH rs eq_refl) as (outs & -> & HF'). destruct Hp as [(out & -> & HP)|[_ []]].
  exists (out :: outs). by split; [|constructor].
Qed.

Lemma group_ran ps w' :
  different → group_run (start <$> requests, w) (ps, w') → at_rest (ps, w') →
  ∃ outs trs tr, ps = PRet <$> outs ∧ all_ran w' outs trs tr.
Proof.
  intros Hd Hrun Hrest.
  destruct (group_spec (reached subjects) (start <$> requests) (contract_of <$> requests) w ps w')
    as (tr & trs & Hr & Hs & HF); [|done..|].
  - apply Forall2_fmap, Forall_Forall2_diag, Forall_forall. intros r Hr.
    split; [by apply (guarantee_all _ (λ _, True)), _|].
    exists (λ w', w_tools w' = w_tools w). split_and!; [apply _|done|].
    apply pspec_rspec; [apply (guarantee_all _ (λ _, True)), _|apply _|].
    apply Execute_logs; [by apply different_apart|done|done|].
    exists (subject r). split; [by apply list_elem_of_fmap_2|done].
  - destruct (all_returned ps trs requests w' HF) as (outs & -> & HF').
    by exists outs, trs, tr.
Qed.

(** The log of one run among the others. *)
Lemma ran_own w' outs trs tr :
  all_ran w' outs trs tr → Forall2 (λ x l, Forall (own x) l) subjects trs.
Proof.
  intros [_ _ HF]. induction HF as [|r out l rs outs trs Hr _ IH]; csimpl; constructor; [|done].
  by eapply execute_own.
Qed.

Lemma ran_stored w' outs trs tr i r out l :
  different → (∀ x, x ∈ subjects → holds x w) → all_ran w' outs trs tr →
  requests !! i = Some r → outs !! i = Some out → trs !! i = Some l →
  stored (w_store w') (Execution.ID (subject r)) =
  stored_after (key DB) (kept DB) (stored (w_store w) (Execution.ID (subject r))) (Execution.ID (subject r)) l.
Proof.
  intros Hd Hh Hran Hr Hout Hl. rewrite (reached_stored _ _ _ _ (ran_reached _ _ _ _ Hran)) by done.
  eapply shuffled_stored; [by eapply ran_own|by eapply ran_shuffled|done| |done].
  by rewrite list_lookup_fmap, Hr.
Qed.

Lemma ran_steps w' outs trs tr i r l :
  different → all_ran w' outs trs tr → requests !! i = Some r → trs !! i = Some l →
  steps_of (w_store w') (Execution.ID (subject r)) =
  steps_of (w_store w) (Execution.ID (subject r)) ++
  (kept_step DB <$> logged_steps (key DB) (Execution.ID (subject r)) l).
Proof.
  intros Hd Hran Hr Hl. rewrite (reached_steps _ _ _ _ (ran_reached _ _ _ _ Hran)). do 2 f_equal.
  eapply shuffled_steps; [by eapply ran_own|by eapply ran_shuffled|done| |done].
  by rewrite list_lookup_fmap, Hr.
Qed.

(** C4: Any number of runs of one engine on different stored executions, at the same time: every
    schedule is finite, and when nothing can move any more every run has returned.  What happened
    is an interleaving of logs each of which its run may produce alone, the world is what
    that interleaving makes of it, and every run leaves the record and the steps of its
    execution as its own log says, so no run shows in the trace of another. *)
Theorem executions_concurrent :
  different → (∀ x, x ∈ subjects → holds x w) →
  sn group_step (start <$> requests, w) ∧
  ∀ ps w', group_run (start <$> requests, w) (ps, w') → at_rest (ps, w') →
    ∃ outs trs tr, ps = PRet <$> outs ∧ all_ran w' outs trs tr ∧
      ∀ i r y err l, requests !! i = Some r → outs !! i = Some (y, err) → trs !! i = Some l →
        final_state (kept DB) (subject r) y err l (stored (w_store w) (Execution.ID (subject r)))
          (stored (w_store w') (Execution.ID (subject r))) ∧
        steps_of (w_store w') (Execution.ID (subject r)) =
          steps_of (w_store w) (Execution.ID (subject r)) ++
          (kept_step DB <$> logged_steps (key DB) (Execution.ID (subject r)) l).
Proof.
  intros Hd Hh. split; [apply group_terminates|]. intros ps w' Hrun Hrest.
  destruct (group_ran ps w' Hd Hrun Hrest) as (outs & trs & tr & -> & Hran).
  exists outs, trs, tr. split_and!; [done..|]. intros i r y err l Hr Hout Hl.
  split; [|by eapply ran_steps]. rewrite (ran_stored _ _ _ _ _ _ _ _ Hd Hh Hran Hr Hout Hl).
  pose proof (Forall3_lookup_lmr _ _ _ _ _ _ _ _ (ran_each _ _ _ _ Hran) Hr Hout Hl) as Hm.
  by eapply run_final.
Qed.
End runs.
