(* ===== verification/EngineTools.v ===== *)
(** * The tool calls of a round run concurrently, but their result does not show it

    For tools that answer by their arguments alone and a store that is available, the
    outcome of [executeTools] is a function of the calls: every schedule returns the same
    messages in the order of the calls, or the error of the first call that failed, and
    stores the same steps. *)

From S2P Require Import Prelude GoLang GoString GoJson Conc Rely Runtime Id Domain Breaker Retry.
From S2P Require Import Store Tool Llm World Engine EngineSpec EngineProof.
Open Scope Z_scope.

(** The answer of a tool depends on its arguments only. *)
Definition stable_tools (tools : Registry.t) : Prop :=
  ∀ name item, Registry.Get name tools = Some item →
  ∀ c c' arguments, Execute_ item c arguments = Execute_ item c' arguments.

Section reference.
Context `{Unicode} (tools : Registry.t) (c : Call).

(** One call after the other, without a store: the message or the error. *)
Definition tool_result (call : ToolCall.t) : result ChatMessage.t :=
  match Registry.Get (ToolCall.Name call) tools with
  | None => Err (ErrorString ("tool " +:+ Quote (ToolCall.Name call) +:+ " is not registered"))
  | Some item =>
      match Execute_ item c (ToolCall.Arguments call) with
      | Err err => Err (Wrap ("execute tool " +:+ ToolCall.Name call) err)
      | Ok output =>
          match Marshal output with
          | Err err => Err (Wrap ("encode tool " +:+ ToolCall.Name call +:+ " output") err)
          | Ok text => Ok (ChatMessage.mk "tool" text (ToolCall.Name call) (ToolCall.ID call))
          end
      end
  end.

(** What the step of a call says: name, output and error. *)
Definition step_summary (st : Step.t) : string * list (string * value) * string :=
  (Step.Name st, Step.Output st, Step.Error st).

Definition tool_steps (call : ToolCall.t) : list (string * list (string * value) * string) :=
  match Registry.Get (ToolCall.Name call) tools with
  | None => []
  | Some item =>
      match Execute_ item c (ToolCall.Arguments call) with
      | Err err => [(ToolCall.Name call, [], Error err)]
      | Ok output => match Marshal output with
                     | Err _ => []
                     | Ok _ => [(ToolCall.Name call, [("result", output)], "")]
                     end
      end
  end.
End reference.

Section concurrent.
Context `{Env} {DB SK QU : Type} `{StoreAvailable DB, SinkOps SK, Counters, Unicode}.
Context (w : World DB SK QU) (x : Execution.t).
Context (Hentropy : ∀ n, entropy_error n = None) (Hholds : holds x w)
        (Hstable : stable_tools (w_tools w)).
Abbreviation id := (Execution.ID x).
Abbreviation logged_steps := (EngineSpec.logged_steps (key DB)).

(** What every tool call finds. *)
Definition held (w' : World DB SK QU) : Prop := w_tools w' = w_tools w ∧ holds x w'.
Abbreviation logs := (logs (I := held) [x]).

#[local] Instance held_tools : WithTools held (w_tools w).
Proof. by intros w' []. Qed.

#[local] Instance held_labelled : Labelled (reached [x]) held.
Proof.
  pose proof (reached_labelled (QU := QU) (SK := SK) [x] (w_tools w)) as [Hn Ha Hk]. split; [done|done|].
  intros w1 e w2 Hr [Ht Hh]. split; [by eapply Hk|].
  by apply (reached_holds _ _ _ _ Hr); [apply list_elem_of_here|].
Qed.

Lemma logs_New_ok acc (P : result string → list Obs → Prop) :
  (∀ s, P (Ok s) acc) → logs Id.New acc P.
Proof.
  intros HP. apply logs_bind. unfold ReadRandom. apply logs_read.
  intros rt w'. split; [done|]. apply logs_ret. rewrite Hentropy. apply HP.
Qed.

Lemma logs_step_ok ctx st acc P :
  Step.ExecutionID st = id → P None (acc ++ [OStep st None]) → logs (append_step ctx st) acc P.
Proof.
  intros Hst HP. apply tspec_act. intros w' [_ (y & Hy & _)]. cbv beta.
  change (w_store (advance w')) with (w_store w') in *. set (rt := get_rt (advance w')).
  pose proof (reached_step [x] (call_at ctx rt) st (advance w')) as Hr.
  pose proof (step_succeeds (call_at ctx rt) st (w_store w')) as Hok.
  rewrite Hst in Hok. specialize (Hok ltac:(by eexists)).
  change (w_store (advance w')) with (w_store w') in *.
  destruct (AppendStep _ st (w_store w')) as [r s] eqn:E. cbn [fst snd] in *. subst r.
  exists [OStep st None]. split; [by apply reached_later|done].
Qed.

Lemma executeTool_result e ctx c call :
  logs (Engine.executeTool e ctx id call) []
    (λ r tr, r = tool_result (w_tools w) c call ∧
             step_summary <$> logged_steps id tr = tool_steps (w_tools w) c call).
Proof.
  unfold Engine.executeTool. apply logs_bind, logs_Now. intros started. apply logs_bind.
  apply (logs_sub [x] _ [] (λ r tr, r = tool_result (w_tools w) c call ∧
           step_summary <$> logged_steps id tr = tool_steps (w_tools w) c call)).
  2: { intros r tr Hr. apply logs_bind, logs_when; intros Hm.
       - apply logs_record_since. intros d. apply logs_ret. simpl.
         by rewrite logged_steps_snoc_other.
       - by apply logs_ret. }
  unfold tool_result, tool_steps. apply logs_bind, logs_tool_get.
  destruct (Registry.Get _ _) as [item|] eqn:Hg; [|by apply logs_ret].
  apply logs_bind, logs_New_ok. intros stepID. apply logs_bind, logs_Now. intros startedAt.
  apply logs_bind, logs_publish, logs_bind, logs_with_timeout. intros toolCtx.
  apply logs_bind, logs_tool_execute; [done|]. intros c'.
  rewrite (Hstable _ _ Hg c' c). unfold Engine.finish_tool.
  apply logs_bind, logs_Now. intros completedAt. cbv zeta.
  assert (∀ st, Step.ExecutionID st = id → ∀ o1 o2 ev,
    step_summary <$> logged_steps id (((([] ++ [OPublish o1]) ++ [o2]) ++ [OStep st None]) ++
                                      [OPublish ev]) =
    (step_summary <$> logged_steps id [o2]) ++ [step_summary st]) as Hst.
  { intros st Hst o1 o2 ev. rewrite logged_steps_snoc_other, logged_steps_snoc by done.
    rewrite decide_True, fmap_app by (by rewrite Hst). done. }
  destruct (Execute_ item c _) as [output|err].
  - destruct (Marshal output) as [text|err]; [|by apply logs_ret].
    apply logs_bind, logs_step_ok; [done|]. apply logs_bind, logs_publish, logs_ret.
    split; [done|]. by rewrite Hst.
  - apply logs_bind, logs_step_ok; [done|]. apply logs_bind, logs_publish, logs_ret.
    split; [done|]. by rewrite Hst.
Qed.

(** Looking for the first error is running the calls up to it. *)
Lemma collect_mapM {A} (f : A → result ChatMessage.t) l : Engine.collect (f <$> l) = mapM f l.
Proof.
  induction l as [|a l IH]; [done|]. rewrite fmap_cons. cbn. rewrite IH. by destruct (f a).
Qed.

(** C10: Concurrency does not show, for tools whose answers depend on their arguments only (not on the
    time or the context of a call), a store that never fails and keeps records as they are and holds
    the execution, and a source of randomness that never fails: under every interleaving,
    [executeTools] returns what running the calls one after the other would return (all the
    messages, or the first error), and the steps it stores are those of the calls up to their order. *)
Theorem executeTools_deterministic e ctx c calls :
  pwp (Engine.executeTools e ctx id calls) (λ r w',
    r = mapM (tool_result (w_tools w) c) calls ∧
    ∃ new, steps_of (w_store w') id = steps_of (w_store w) id ++ (kept_step DB <$> new) ∧
           step_summary <$> new ≡ₚ concat (tool_steps (w_tools w) c <$> calls)) w.
Proof.
  unfold Engine.executeTools. apply pwp_bind.
  set (P := λ call r tr, r = tool_result (w_tools w) c call ∧
           step_summary <$> logged_steps id tr = tool_steps (w_tools w) c call).
  apply (pwp_go_wait_spec (reached [x]) held _ (P <$> calls)).
  - apply Forall2_fmap, Forall_Forall2_diag, Forall_true. intros call.
    apply executeTool_result.
  - done.
  - intros rs w' tr es Hr Hes%shuffled_perm HF.
    assert (rs = tool_result (w_tools w) c <$> calls ∧
            concat ((λ e, step_summary <$> logged_steps id e) <$> es) =
            concat (tool_steps (w_tools w) c <$> calls)) as [-> Hst].
    { clear -HF. remember (P <$> calls) as Ps eqn:E. revert calls E.
      induction HF as [|r es_ P' rs ess Ps HP _ IH]; intros [|call calls] E; simplify_eq/=;
        [done|]. destruct (IH calls eq_refl) as [-> IH']. destruct HP as [-> Hs].
      by rewrite Hs, IH'. }
    split; [apply collect_mapM|]. exists (logged_steps id tr).
    split; [by eapply reached_steps|].
    rewrite <-Hst, Hes. clear. induction es as [|e es IH]; [done|]. simpl.
    by rewrite logged_steps_app, fmap_app, IH.
Qed.
End concurrent.
