(* ===== verification/EngineCancel.v ===== *)
(** * Cancelled runs

    [fail] writes the final state with the context of the run.  With a store that refuses
    work for a context that is done (as a database driver does), a run that is cancelled
    between two rounds therefore never records that it was: the stored execution keeps
    the status running, and nobody is told. *)

From S2P Require Import Prelude GoLang GoString Conc Runtime Id Domain Breaker Retry Store Tool.
From S2P Require Import Llm World Engine EngineLogs.
Open Scope Z_scope.

Section cancelled.
Context `{Env} {DB SK QU : Type} `{StoreHonorsContext DB, SinkOps SK, Counters, Unicode}.
Abbreviation W := (World DB SK QU).
Implicit Types (w : W).

(** [w] differs from [w0] by the clock and a log without events only, and the context is done. *)
Definition silently (ctx : Context) (cause : error) (w0 w : W) : Prop :=
  ctx_err ctx (rt_now (w_rt w)) = Some cause ∧ w_store w = w_store w0 ∧
  ∃ tr, w_log w = w_log w0 ++ tr ∧ events tr = [].

Lemma silently_start ctx cause w :
  ctx_err ctx (rt_now (w_rt w)) = Some cause → silently ctx cause w w.
Proof. intros Hc. split_and!; [done|done|]. exists []. by rewrite app_nil_r. Qed.

Lemma silently_advance ctx cause w0 w :
  silently ctx cause w0 w → silently ctx cause w0 (advance w).
Proof.
  intros (Hc & Hs & Hl). split_and!; [|done|done].
  eapply ctx_err_mono; [exact Hc|]. exact (advance_now w).
Qed.

Lemma silently_emit ctx cause w0 w o :
  event_of o = None → silently ctx cause w0 w → silently ctx cause w0 (emit o w).
Proof.
  intros Ho (Hc & Hs & tr & Hl & He). split_and!; [done|done|]. exists (tr ++ [o]). simpl.
  rewrite Hl, (assoc_L (++)), events_app, He. split; [done|]. simpl. by rewrite Ho.
Qed.

(** The store refuses the update. *)
Lemma wp_update_refused ctx x cause w0 (Q : option error → W → Prop) w :
  silently ctx cause w0 w →
  (∀ refusal w', silently ctx cause w0 w' → Q (Some refusal) w') →
  wp (update_execution ctx x) Q w.
Proof.
  intros Hw HQ. apply wp_atomic. apply silently_advance in Hw.
  set (w1 := advance w) in *.
  destruct (update_honors (call_at ctx (w_rt w1)) x (w_store w1)) as [refusal Hu].
  { exists cause. apply Hw. }
  cbv beta. change (get_rt w1) with (w_rt w1). rewrite Hu. simpl. apply HQ.
  apply silently_emit; [done|]. by destruct Hw.
Qed.

Lemma fail_silently e ctx x cause done_ w0 w :
  silently ctx done_ w0 w →
  wp (Engine.fail e ctx x cause) (λ '(y, r) w',
    silently ctx done_ w0 w' ∧ Execution.Status y = Engine.fail_status cause ∧
    ∃ refusal, r = Some (Join cause refusal)) w.
Proof.
  intros Hw. unfold Engine.fail. apply wp_bind.
  assert (∀ w, silently ctx done_ w0 w →
    wp (now ← Now;
        let x := Execution.set_CompletedAt (Some now)
                   (Execution.set_Error (Error cause)
                      (Execution.set_Status (Engine.fail_status cause) x)) in
        err ← update_execution ctx x;
        match err with
        | Some err => mret (x, Some (Join cause err))
        | None => publish Background (Event.mk (Execution.ID x) "agent.failed" ""
                                        [("error", VString (Error cause))] now);;
                  mret (x, Some cause)
        end) (λ '(y, r) w',
          silently ctx done_ w0 w' ∧ Execution.Status y = Engine.fail_status cause ∧
          ∃ refusal, r = Some (Join cause refusal)) w) as Hrest.
  { intros w1 Hw1. apply wp_bind, wp_atomic. cbv zeta. apply wp_bind.
    apply silently_advance in Hw1.
    apply (wp_update_refused _ _ done_ w0); [done|]. intros refusal w2 Hw2.
    split_and!; [done|done|by eexists]. }
  destruct (Engine.metrics e); [|by apply Hrest].
  apply wp_atomic, Hrest, silently_emit; [done|]. by apply silently_advance.
Qed.

Lemma think_cancelled e ctx agent x msgs cause w0 w :
  silently ctx cause w0 w →
  wp (Engine.think e ctx agent x msgs)
     (λ r w', r = Engine.Stop x cause ∧ silently ctx cause w0 w') w.
Proof.
  intros Hw%silently_advance. unfold Engine.think, check_ctx. apply wp_bind, wp_atomic.
  destruct Hw as (Hd & Hs). cbn [fst snd]. change (get_rt ?v) with (w_rt v). rewrite Hd.
  by split.
Qed.

End cancelled.
