(* ===== verification/EngineDemo.v ===== *)
(** * A concrete run of the engine

    An in-memory store with one execution, the calculator, and a provider that asks for two
    calculations before it answers: the theorems about the engine, applied to it. *)

From S2P Require Import Prelude GoLang GoString GoJson Conc Runtime Id Domain Breaker Retry.
From S2P Require Import Store Memory MemoryFacts Tool ToolExamples Llm World Engine EngineSpec.
From S2P Require Import EngineProof EngineLogs EngineFacts EngineTools EngineCancel.
Open Scope Z_scope.

#[local] Existing Instance demo_env.
#[local] Existing Instance demo_unicode.
#[local] Existing Instance NopEventSink.ops.

#[local] Existing Instance demo_order.

#[local] Instance demo_counters : Counters.
Proof. refine {| counter_panics v := v <? 0 |}. intros v Hv. by apply Z.ltb_ge. Defined.

(** The model asks for 1 + 2 and for 7 / 2, then answers. *)
Definition demo_arguments (operation a b : string) : string :=
  demo_object [("operation", quoted operation); ("a", a); ("b", b)].
Definition demo_provider : Provider := λ _ req,
  let reply content calls := Ok (Response.mk content calls (Usage.mk 10 5) "mock-model") in
  match last (Request.Messages req) with
  | Some m =>
      if decide (ChatMessage.Role m = "tool") then reply "3 and 3.5" []
      else reply "" [ToolCall.mk "call1" "calculator" (demo_arguments "add" "1" "2");
                     ToolCall.mk "call2" "calculator" (demo_arguments "divide" "7" "2")]
  | None => Err (ErrorString "no message")
  end.

Definition calculator_only : Registry.t :=
  match Registry.NewRegistry [Calculator.tool] with Ok r => r | Err _ => ∅ end.

Definition demo_engine : Engine.t := Engine.NewEngine demo_provider true.
Definition the_agent : Agent.t :=
  Agent.mk "a" "owner" "assistant" "" "Be exact." "mock-model" (S754_zero false) 100
    ["calculator"] 1 1 1.
Definition the_execution : Execution.t :=
  Execution.mk "x" "r" "" "a" "owner" "v" "What is 1+2, and 7/2?" "" ExecutionQueued "" 0 0 "" 0
    None None 1.

Definition demo_memory : Memory.t :=
  Memory.mk ∅ {["x" := the_execution]} ∅ {["v" := demo_conversation "owner" "v"]} ∅.

Definition demo_world : World Memory.t unit unit :=
  mkWorld (mkRuntime 1000000000 0) demo_memory tt tt Engine.new_breaker calculator_only [].

(** The two calculations take turns. *)
Definition demo_schedule : list nat := concat (replicate 12 [1%nat; 0%nat]).

Lemma demo_sane : sane_provider demo_provider.
Proof.
  intros c req r. unfold demo_provider. destruct (last _) as [m|]; [|done].
  case_decide; intros [= <-]; unfold sane_usage; simpl; lia.
Qed.

Lemma demo_holds : holds the_execution demo_world.
Proof. exists the_execution. split; [by vm_compute|done]. Qed.

Lemma demo_attempts : 1 ≤ RetryPolicy.MaxAttempts (Engine.retryPolicy demo_engine).
Proof. done. Qed.

Lemma demo_stable : stable_tools (w_tools demo_world).
Proof.
  intros name item Hg c c' arguments. simpl in Hg. unfold calculator_only in Hg.
  destruct (Registry.NewRegistry [Calculator.tool]) as [r|] eqn:E; [|done].
  destruct (register_all_lookup _ _ _ name E) as (_ & Hb & _).
  destruct (Hb item Hg) as [Hn|[Hi _]]; [by rewrite lookup_empty in Hn|].
  apply list_elem_of_singleton in Hi as ->. done.
Qed.

(** The run succeeds. *)
Definition summary (out : outcome) :=
  (Execution.Output out.1, Execution.Status out.1, Execution.PromptTokens out.1,
   Execution.OutputTokens out.1, Execution.RetryCount out.1, out.2).

Lemma demo_run :
  ∃ out w', exec (Engine.Execute demo_engine Background the_agent the_execution) demo_world out w' ∧
            summary out = ("3 and 3.5", ExecutionSucceeded, 20, 10, 0, None).
Proof. apply (prun_result demo_schedule). vm_compute. reflexivity. Qed.

Abbreviation DW := (World Memory.t unit unit).
#[local] Opaque demo_world demo_engine the_execution the_agent calculator_only.

Lemma execute_refines_spec_witness :
  ∃ out (w' : DW) tr, summary out = ("3 and 3.5", ExecutionSucceeded, 20, 10, 0, None) ∧
    reached [the_execution] demo_world tr w' ∧
    execute_run demo_engine the_agent
      (Registry.Definitions (Agent.Tools the_agent) (w_tools demo_world)) the_execution out tr.
Proof.
  destruct demo_run as (out & w' & He & Hs).
  pose proof (execute_refines_spec demo_world demo_engine Background the_agent the_execution
                demo_attempts (λ _, demo_sane)) as Hp.
  pose proof (pwp_exec _ _ _ _ _ Hp He) as (tr & Hr & Hx). exists out, w', tr. split_and!; assumption.
Defined.

Lemma execute_final_state_witness :
  ∃ y (w' : DW), summary (y, None) = ("3 and 3.5", ExecutionSucceeded, 20, 10, 0, None) ∧
    same_identity the_execution y ∧ is_Some (Execution.CompletedAt y) ∧
    stored (w_store w') (Execution.ID the_execution) = Some y.
Proof.
  destruct demo_run as ([y err] & w' & He & Hs).
  pose proof (execute_final_state demo_world demo_engine Background the_agent the_execution
                demo_attempts (λ _, demo_sane) demo_holds) as Hp.
  pose proof (pwp_exec _ _ _ _ _ Hp He) as (tr & _ & Hi & now & Hc).
  assert (err = None) as -> by (injection Hs; intros; assumption). exists y, w'.
  destruct Hc as [(c & _ & Hn & _)|(r & (_ & Hat & [[_ <-]|(c & _ & _ & Hn)]) & _ & Hst)]; [discriminate| |discriminate].
  split_and!; assumption.
Defined.

Lemma execute_events_witness :
  ∃ y (w' : DW) now middle at_,
    (∃ tr, w_log w' = w_log demo_world ++ tr ∧
       events tr = started_event the_execution now :: middle ++ [completed_event y at_]) ∧
    Execution.Output y = "3 and 3.5".
Proof.
  destruct demo_run as ([y err] & w' & He & Hs).
  pose proof (execute_events demo_world demo_engine Background the_agent the_execution
                demo_attempts (λ _, demo_sane)) as Hp.
  pose proof (pwp_exec _ _ _ _ _ Hp He) as (tr & Hl & now & Hc).
  injection Hs as Ho Hst _ _ _ ->.
  destruct Hc as [(c & _ & Hn & _)|(r & mid & cl & (_ & _ & [[_ <-]|(c & _ & _ & Hn)]) & _ & Hev & _ & Hc)];
    [discriminate| |discriminate].
  destruct Hc as (ev & -> & t & [(-> & _)|(_ & [c Hn] & _)]); [|discriminate].
  exists y, w', now, mid, t. split; [exists tr; split; assumption|exact Ho].
Defined.

Lemma execute_call_bounds_witness :
  ∃ out (w' : DW), summary out = ("3 and 3.5", ExecutionSucceeded, 20, 10, 0, None) ∧
    ∃ tr, w_log w' = w_log demo_world ++ tr ∧
      total attempt tr ≤ Z.of_nat (Engine.maxSteps demo_engine) *
                         RetryPolicy.MaxAttempts (Engine.retryPolicy demo_engine).
Proof.
  destruct demo_run as (out & w' & He & Hs). exists out, w'. split; [assumption|].
  pose proof (execute_call_bounds demo_world demo_engine Background the_agent the_execution
                demo_attempts (λ _, demo_sane)) as Hp.
  pose proof (pwp_exec _ _ _ _ _ Hp He) as (tr & Hl & _ & _ & Hb). exists tr.
  split; assumption.
Defined.

Lemma execute_accounting_witness :
  ∃ out (w' : DW), summary out = ("3 and 3.5", ExecutionSucceeded, 20, 10, 0, None) ∧
    ∃ tr, w_log w' = w_log demo_world ++ tr ∧
      20 = wrap64 (Execution.PromptTokens the_execution + total prompt_tokens tr) ∧
      step_retries tr = total attempt tr - total thought tr.
Proof.
  destruct demo_run as ([y err] & w' & He & Hs). exists (y, err), w'. split; [assumption|].
  pose proof (execute_accounting demo_world demo_engine Background the_agent the_execution
                demo_attempts (λ _, demo_sane)) as Hp.
  assert (int64 0) as H0 by (unfold int64, min_int64, max_int64; lia).
  pose proof (pwp_exec _ _ _ _ _ (Hp H0 H0 H0) He) as (tr & Hl & Hpt & _ & _ & Hret).
  injection Hs as _ _ Hpy _ _ ->. exists tr. split_and!; [assumption|rewrite <-Hpy; assumption|apply Hret; reflexivity].
Defined.

Lemma execute_obeys_breaker_witness :
  ∃ out (w' : DW), summary out = ("3 and 3.5", ExecutionSucceeded, 20, 10, 0, None) ∧
    ∃ tr, w_log w' = w_log demo_world ++ tr ∧ guarded false tr ∧
      breaker_after (w_breaker demo_world) tr = Some (w_breaker w').
Proof.
  destruct demo_run as (out & w' & He & Hs). exists out, w'. split; [assumption|].
  pose proof (execute_obeys_breaker demo_world demo_engine Background the_agent the_execution
                demo_attempts (λ _, demo_sane)) as Hp.
  exact (pwp_exec _ _ _ _ _ Hp He).
Defined.


Lemma execute_isolated_witness :
  ∃ out (w' : DW), summary out = ("3 and 3.5", ExecutionSucceeded, 20, 10, 0, None) ∧
    stored (w_store w') "other" = stored (w_store demo_world) "other" ∧
    w_tools w' = w_tools demo_world.
Proof.
  destruct demo_run as (out & w' & He & Hs). exists out, w'. split; [assumption|].
  pose proof (execute_isolated demo_world demo_engine Background the_agent the_execution
                demo_attempts (λ _, demo_sane) demo_holds) as Hp.
  pose proof (pwp_exec _ _ _ _ _ Hp He) as (Ho & _ & _ & _ & Ht & _).
  split; [|assumption]. apply (Ho "other"). vm_compute. discriminate.
Defined.

Lemma execute_recorded_witness :
  ∃ y (w' : DW), summary (y, None) = ("3 and 3.5", ExecutionSucceeded, 20, 10, 0, None) ∧
    stored (w_store w') (Execution.ID the_execution) = Some y.
Proof.
  destruct demo_run as ([y err] & w' & He & Hs).
  assert (err = None) as -> by (injection Hs; intros; assumption). exists y, w'. split; [assumption|].
  pose proof (execute_recorded demo_world demo_engine Background the_agent the_execution
                demo_attempts (λ _, demo_sane) demo_holds) as Hp.
  pose proof (pwp_exec _ _ _ _ _ Hp He) as (Hst & _). assumption.
Defined.

Lemma executeTools_deterministic_witness :
  let call := ToolCall.mk "call1" "calculator" (demo_arguments "add" "1" "2") in
  let missing := ToolCall.mk "call2" "weather" "{}" in
  pwp (Engine.executeTools demo_engine Background (Execution.ID the_execution) [call; missing])
    (λ r (w' : DW), r = mapM (tool_result (w_tools demo_world) demo_call) [call; missing])
    demo_world.
Proof.
  intros call missing. assert (∀ n, entropy_error n = None) as Hent by reflexivity.
  eapply pwp_mono.
  - apply (executeTools_deterministic demo_world the_execution Hent demo_holds demo_stable
             demo_engine Background demo_call [call; missing]).
  - intros r w' [Hr _]. exact Hr.
Defined.

(** ** A store that honors the context *)

(** The in-memory store behind a check of the context, as in a database driver. *)
Record Strict := strict { behind : Memory.t }.

Section strict.
Context {A : Type}.

Definition strict_write (f : Call → A → Memory.t → option error * Memory.t) (c : Call) (a : A)
    (s : Strict) : option error * Strict :=
  match call_err c with
  | Some err => (Some err, s)
  | None => let '(r, m) := f c a (behind s) in (r, strict m)
  end.
Definition strict_read (c : Call) (r : result A) : result A :=
  match call_err c with Some err => Err err | None => r end.
End strict.

#[local] Instance strict_ops : StoreOps Strict := {
  CreateAgent := strict_write CreateAgent;
  GetAgent c o i s := strict_read c (GetAgent c o i (behind s));
  UpdateAgent := strict_write UpdateAgent;
  DeleteAgent c o i := strict_write (λ c i, DeleteAgent c o i) c i;
  CreateConversation := strict_write CreateConversation;
  GetConversation c o i s := strict_read c (GetConversation c o i (behind s));
  AppendMessage := strict_write AppendMessage;
  ListMessages c o i n s := strict_read c <$> ListMessages c o i n (behind s);
  CreateExecution := strict_write CreateExecution;
  GetExecution c o i s := strict_read c (GetExecution c o i (behind s));
  GetByIdempotencyKey c o k s := strict_read c (GetByIdempotencyKey c o k (behind s));
  UpdateExecution := strict_write UpdateExecution;
  AppendStep := strict_write AppendStep;
  TraceAt c o i s s' := strict_read c (TraceAt c o i (behind s) (behind s'));
  ListAgentExecutions c o a n s := strict_read c (ListAgentExecutions c o a n (behind s))
}.

#[local] Instance strict_honors : StoreHonorsContext Strict.
Proof.
  split. intros c x s [err Hc]. exists err. simpl. unfold strict_write. by rewrite Hc.
Qed.

