(* ===== verification/Queue.v ===== *)
(** * [internal/queue/queue.go]: the job queue and its in-process implementation

    [QueueOps] is the interface [queue.Queue]; an operation that has to wait returns the
    moment it is done with its answer, and [None] when it waits for another goroutine
    with no end in sight.  [QueueLaws] is what the service and the worker rely on: first
    in, first out, nothing lost, nothing invented.  [Immediate] is a buffered channel. *)

From S2P Require Import Prelude GoLang Conc Runtime Domain Breaker Tool Llm World.
Open Scope Z_scope.

Class QueueOps (QU : Type) := {
  Enqueue : Context → Job.t → Runtime → QU → option (option error * time * QU);
  Dequeue : Context → Runtime → QU → option (result Job.t * time * QU)
}.

(** The jobs that wait, the oldest first, and what arrives of a job that is sent: a
    queue that writes jobs as text may not carry every byte. *)
Class QueueView (QU : Type) := { waiting : QU → list Job.t; carried : Job.t → Job.t }.

Class QueueLaws (QU : Type) `{QueueOps QU, QueueView QU} := {
  enqueue_ok ctx job rt q t q' :
    Enqueue ctx job rt q = Some (None, t, q') → waiting q' = waiting q ++ [carried job];
  enqueue_failed ctx job rt q e t q' :
    Enqueue ctx job rt q = Some (Some e, t, q') → waiting q' = waiting q;
  enqueue_time ctx job rt q r t q' : Enqueue ctx job rt q = Some (r, t, q') → rt_now rt ≤ t;
  dequeue_ok ctx rt q job t q' :
    Dequeue ctx rt q = Some (Ok job, t, q') → waiting q = job :: waiting q';
  dequeue_failed ctx rt q e t q' : Dequeue ctx rt q = Some (Err e, t, q') → waiting q' = waiting q;
  dequeue_time ctx rt q r t q' : Dequeue ctx rt q = Some (r, t, q') → rt_now rt ≤ t
}.

(** The calls of a goroutine. *)
Section calls.
Context `{Env} {DB SK QU : Type} `{QueueOps QU}.

Definition set_now (t : time) (w : World DB SK QU) : World DB SK QU :=
  put_rt (mkRuntime t (rt_tick (w_rt w))) w.

Definition enqueue (ctx : Context) (job : Job.t) : prog (World DB SK QU) (option error) :=
  atomic_block (λ rt w, '(r, t, q) ← Enqueue ctx job rt (w_queue w);
                        Some (r, set_now t (set_queue q w))).

Definition dequeue (ctx : Context) : prog (World DB SK QU) (result Job.t) :=
  atomic_block (λ rt w, '(r, t, q) ← Dequeue ctx rt (w_queue w);
                        Some (r, set_now t (set_queue q w))).
End calls.

#[global] Arguments enqueue : simpl never.
#[global] Arguments dequeue : simpl never.

(** ** The buffered channel *)

Module Immediate.
Record t := mk { capacity : nat; jobs : list Job.t }.

Definition NewImmediate (size : nat) : t := mk size [].

Section channel.
Context `{Env}.

(** [select] between a channel operation, possible when [ready] is its result, and the
    end of the context; when neither is possible it waits for the context. *)
Definition select_channel {A} (ctx : Context) (ready : option (A * t)) (rt : Runtime) (q : t)
    : option (result A * time * t) :=
  let now := rt_now rt in
  match ready, ctx_done ctx with
  | Some (a, q'), Some (d, e) =>
      if (d <=? now) && coin (rt_tick rt) then Some (Err e, now, q) else Some (Ok a, now, q')
  | Some (a, q'), None => Some (Ok a, now, q')
  | None, Some (d, e) => Some (Err e, Z.max d now, q)
  | None, None => None
  end.

#[global] Arguments select_channel : simpl never.

Definition Enqueue (ctx : Context) (job : Job.t) (rt : Runtime) (q : t)
    : option (option error * time * t) :=
  let ready := if (length (jobs q) <? capacity q)%nat
               then Some (tt, mk (capacity q) (jobs q ++ [job])) else None in
  '(r, d, q') ← select_channel ctx ready rt q; Some (result_error r, d, q').

Definition Dequeue (ctx : Context) (rt : Runtime) (q : t)
    : option (result Job.t * time * t) :=
  let ready := match jobs q with
               | job :: rest => Some (job, mk (capacity q) rest)
               | [] => None
               end in
  select_channel ctx ready rt q.

#[global] Instance ops : QueueOps t := {| Queue.Enqueue := Enqueue; Queue.Dequeue := Dequeue |}.
#[global] Instance view : QueueView t := {| waiting := jobs; carried job := job |}.

Lemma select_channel_inv {A} ctx (ready : option (A * t)) rt q r d q' :
  select_channel ctx ready rt q = Some (r, d, q') →
  rt_now rt ≤ d ∧
  match r with
  | Ok a => ready = Some (a, q')
  | Err e => q' = q ∧ ∃ at_, ctx_done ctx = Some (at_, e) ∧ at_ ≤ d
  end.
Proof.
  unfold select_channel. destruct ready as [[a q1]|], (ctx_done ctx) as [[at_ e]|];
    try case_match eqn:E; intros [= <- <- <-]; try (split; [lia|done]).
  - apply andb_true_iff in E as [E _]. split; [lia|]. split; [done|].
    exists at_. split; [done|]. lia.
  - split; [lia|]. split; [done|]. exists at_. split; [done|lia].
Qed.

Lemma Enqueue_inv ctx job rt q r d q' :
  Enqueue ctx job rt q = Some (r, d, q') →
  rt_now rt ≤ d ∧
  match r with
  | None => (length (jobs q) < capacity q)%nat ∧ q' = mk (capacity q) (jobs q ++ [job])
  | Some e => q' = q ∧ ∃ at_, ctx_done ctx = Some (at_, e) ∧ at_ ≤ d
  end.
Proof.
  unfold Enqueue. intros E.
  destruct (select_channel _ _ _ _) as [[[r' d'] q1]|] eqn:Es; simplify_eq/=.
  apply select_channel_inv in Es as [Hd Hs]. split; [done|].
  destruct r' as [[]|e]; simpl; [|done].
  destruct (Nat.ltb_spec (length (jobs q)) (capacity q)); by simplify_eq.
Qed.

Lemma Dequeue_inv ctx rt q r d q' :
  Dequeue ctx rt q = Some (r, d, q') →
  rt_now rt ≤ d ∧
  match r with
  | Ok job => jobs q = job :: jobs q' ∧ capacity q' = capacity q
  | Err e => q' = q ∧ ∃ at_, ctx_done ctx = Some (at_, e) ∧ at_ ≤ d
  end.
Proof.
  unfold Dequeue. intros [Hd Hs]%select_channel_inv. split; [done|].
  destruct r; [|done]. by destruct (jobs q); simplify_eq/=.
Qed.

(** With a context that ends, an operation always returns. *)
Lemma Enqueue_returns ctx job rt q : is_Some (ctx_done ctx) → is_Some (Enqueue ctx job rt q).
Proof.
  intros [[d e] Hc]. unfold Enqueue, select_channel. rewrite Hc.
  destruct (length (jobs q) <? capacity q)%nat; [destruct (_ && _)|]; by eexists.
Qed.

#[global] Instance laws : QueueLaws t.
Proof.
  split; simpl.
  - intros ctx job rt q d q' [_ [_ ->]]%Enqueue_inv. done.
  - by intros ctx job rt q e d q' [_ [-> _]]%Enqueue_inv.
  - by intros ctx job rt q r d q' [Hd _]%Enqueue_inv.
  - by intros ctx rt q job d q' [_ [Hj _]]%Dequeue_inv.
  - by intros ctx rt q e d q' [_ [-> _]]%Dequeue_inv.
  - by intros ctx rt q r d q' [Hd _]%Dequeue_inv.
Qed.
End channel.
End Immediate.

(** ** Properties *)

(** What clients did to a queue: the completed sends and receives, in order. *)
Inductive transfer : Set := Sent (job : Job.t) | Received (job : Job.t).
Definition sent (l : list transfer) : list Job.t :=
  omap (λ x, match x with Sent job => Some job | _ => None end) l.
Definition received (l : list transfer) : list Job.t :=
  omap (λ x, match x with Received job => Some job | _ => None end) l.

Section use.
Context {QU : Type} `{QueueLaws QU}.

(** Any use of a queue by any number of goroutines: its operations in the order they
    completed, with the contexts and the instants they saw. *)
Inductive used : list transfer → QU → QU → Prop :=
| used_nil q : used [] q q
| used_enqueue l q0 q1 q2 ctx job rt r d :
    used l q0 q1 → Enqueue ctx job rt q1 = Some (r, d, q2) →
    used (l ++ match r with None => [Sent job] | Some _ => [] end) q0 q2
| used_dequeue l q0 q1 q2 ctx rt r d :
    used l q0 q1 → Dequeue ctx rt q1 = Some (r, d, q2) →
    used (l ++ match r with Ok job => [Received job] | Err _ => [] end) q0 q2.

Lemma enqueued_app l l' : sent (l ++ l') = sent l ++ sent l'.
Proof. apply omap_app. Qed.
Lemma dequeued_app l l' : received (l ++ l') = received l ++ received l'.
Proof. apply omap_app. Qed.

Lemma used_fifo l q q' :
  used l q q' → waiting q ++ (carried <$> sent l) = received l ++ waiting q'.
Proof.
  induction 1 as [q|l q0 q1 q2 ctx job rt r d _ IH E|l q0 q1 q2 ctx rt r d _ IH E].
  - by rewrite app_nil_r.
  - rewrite enqueued_app, dequeued_app, fmap_app, (assoc_L (++)), IH.
    destruct r as [e|]; simpl; rewrite ?app_nil_r.
    + by rewrite (enqueue_failed _ _ _ _ _ _ _ E).
    + by rewrite (enqueue_ok _ _ _ _ _ _ E), (assoc_L (++)).
  - rewrite enqueued_app, dequeued_app, fmap_app, (assoc_L (++)), IH.
    destruct r as [job|e]; simpl; rewrite ?app_nil_r.
    + by rewrite (dequeue_ok _ _ _ _ _ _ E), <-(assoc_L (++)).
    + by rewrite (dequeue_failed _ _ _ _ _ _ E).
Qed.
End use.

Section immediate.
Context `{Env}.

(** The in-process queue is first in, first out, for any number of producers and consumers: what
    has been received is exactly what was sent first, the rest waits in order, and
    never more than [size] jobs wait. *)
Theorem immediate_fifo size l q :
  used l (Immediate.NewImmediate size) q →
  sent l = received l ++ waiting q ∧ (length (waiting q) ≤ size)%nat.
Proof.
  intros Hu. split.
  { apply used_fifo in Hu. simpl in Hu. by rewrite list_fmap_id in Hu. }
  assert (Immediate.capacity q = size ∧ (length (Immediate.jobs q) ≤ size)%nat) as [_ Hl];
    [|done].
  remember (Immediate.NewImmediate size) as q0 eqn:E0.
  induction Hu as [q|l q0 q1 q2 ctx job rt r d _ IH E|l q0 q1 q2 ctx rt r d _ IH E]; subst.
  - simpl. split; [done|lia].
  - destruct (IH eq_refl) as [Hc Hj]. apply Immediate.Enqueue_inv in E as [_ E].
    destruct r as [e|]; [by destruct E as [-> _]|]. destruct E as [Hlt ->]. simpl.
    rewrite length_app. simpl. split; [done|lia].
  - destruct (IH eq_refl) as [Hc Hj]. apply Immediate.Dequeue_inv in E as [_ E].
    destruct r as [job|e]; [|by destruct E as [-> _]]. destruct E as [Ej ->].
    rewrite Ej in Hj. simpl in Hj. split; [done|lia].
Qed.

(** Waiting: an operation blocks for good only when it cannot proceed and its context never
    ends; otherwise it either takes effect, or fails with the error of the context, no
    earlier than the context ended, and leaves the queue as it was. *)
Theorem immediate_blocks ctx job rt q :
  (Enqueue ctx job rt q = None ↔
     ctx_done ctx = None ∧ (Immediate.capacity q ≤ length (waiting q))%nat) ∧
  (Dequeue ctx rt q = None ↔ ctx_done ctx = None ∧ waiting q = []) ∧
  (∀ e d q', Enqueue ctx job rt q = Some (Some e, d, q') →
     q' = q ∧ ∃ at_, ctx_done ctx = Some (at_, e) ∧ at_ ≤ d) ∧
  (∀ e d q', Dequeue ctx rt q = Some (Err e, d, q') →
     q' = q ∧ ∃ at_, ctx_done ctx = Some (at_, e) ∧ at_ ≤ d).
Proof.
  split_and!.
  - simpl. unfold Immediate.Enqueue, Immediate.select_channel.
    destruct (Nat.ltb_spec (length (Immediate.jobs q)) (Immediate.capacity q)),
      (ctx_done ctx) as [[at_ e]|]; simpl; try case_match; simpl; intuition (done || lia).
  - simpl. unfold Immediate.Dequeue, Immediate.select_channel.
    destruct (Immediate.jobs q), (ctx_done ctx) as [[at_ e]|]; simpl; try case_match;
      intuition done.
  - by intros e d q' [_ E]%Immediate.Enqueue_inv.
  - by intros e d q' [_ E]%Immediate.Dequeue_inv.
Qed.
End immediate.

#[local] Existing Instance demo_env.

Lemma immediate_fifo_witness :
  let job i := Job.mk i "a" "o" in
  ∃ q, used [Sent (job "x"); Sent (job "y"); Received (job "x")] (Immediate.NewImmediate 2) q ∧
       sent [Sent (job "x"); Sent (job "y"); Received (job "x")] =
       received [Sent (job "x"); Sent (job "y"); Received (job "x")] ++ [job "y"] ∧
       (length (waiting q) ≤ 2)%nat.
Proof.
  intros job. set (rt := mkRuntime 5 0).
  assert (used [Sent (job "x"); Sent (job "y"); Received (job "x")] (Immediate.NewImmediate 2)
               (Immediate.mk 2 [job "y"])) as Hu.
  { apply (used_dequeue [Sent (job "x"); Sent (job "y")] _ (Immediate.mk 2 [job "x"; job "y"]) _
             Background rt (Ok (job "x")) 5); [|done].
    apply (used_enqueue [Sent (job "x")] _ (Immediate.mk 2 [job "x"]) _
             Background (job "y") rt None 5); [|done].
    apply (used_enqueue [] _ (Immediate.NewImmediate 2) _ Background (job "x") rt None 5);
      [constructor|done]. }
  exists (Immediate.mk 2 [job "y"]). destruct (immediate_fifo 2 _ _ Hu) as [Hf Hl].
  split; [exact Hu|]. split; [exact Hf|exact Hl].
Defined.
