(* ===== verification/Service.v ===== *)
(** * [internal/app/service.go]: the operations behind the HTTP interface

    Each method is a goroutine over the shared [World]: it calls the store and the queue
    one call at a time, so methods of concurrent requests interleave between calls. *)

From S2P Require Import Prelude GoLang GoString Conc Runtime Id Domain Breaker Store Tool Llm.
From S2P Require Import World Queue.
Open Scope Z_scope.

Module AgentInput.
Record t := mk {
  Name : string;
  Description : string;
  SystemPrompt : string;
  Model : string;
  Temperature : float64;
  MaxTokens : Z;
  Tools : list string
}.
End AgentInput.

Module ExecutionInput.
Record t := mk {
  Input : string;
  ConversationID : string;
  IdempotencyKey : string;
  RequestID : string
}.
End ExecutionInput.

Definition float_two : float64 := S754_finite false 4503599627370496 (-51).

Definition validateAgent (input : AgentInput.t) : option error :=
  if decide (TrimSpace (AgentInput.Name input) = "") then Some (ErrorString "name is required")
  else if decide (TrimSpace (AgentInput.Model input) = "")
  then Some (ErrorString "model is required")
  else if SFltb (AgentInput.Temperature input) (S754_zero false) ||
          SFltb float_two (AgentInput.Temperature input)
  then Some (ErrorString "temperature must be between 0 and 2")
  else if (AgentInput.MaxTokens input <? 1) || (1000000 <? AgentInput.MaxTokens input)
  then Some (ErrorString "max_tokens must be between 1 and 1000000")
  else None.

Definition truncate (value : string) (limit : Z) : string :=
  let value := TrimSpace value in
  if len value <=? limit then value else slice_to value limit.

Module Service.
Section service.
Context `{Env} {DB SK QU : Type} `{StoreOps DB, QueueOps QU}.
Abbreviation W := (World DB SK QU).
Abbreviation M := (prog W).

(** One call of the store. *)
Definition store_write (ctx : Context) (f : Call → DB → option error * DB)
    : M (option error) :=
  atomic (λ rt w, let '(r, s) := f (call_at ctx rt) (w_store w) in (r, set_store s w)).
Definition store_read {X} (ctx : Context) (f : Call → DB → X) : M X :=
  atomic (λ rt w, (f (call_at ctx rt) (w_store w), w)).

Definition CreateAgent (ctx : Context) (ownerID : string) (input : AgentInput.t)
    : M (result Agent.t) :=
  match validateAgent input with
  | Some err => mret (Err err)
  | None =>
      r ← Id.New;
      match r with
      | Err err => mret (Err err)
      | Ok agentID =>
          now ← Now;
          let agent := Agent.mk agentID ownerID (TrimSpace (AgentInput.Name input))
            (TrimSpace (AgentInput.Description input)) (AgentInput.SystemPrompt input)
            (AgentInput.Model input) (AgentInput.Temperature input)
            (AgentInput.MaxTokens input) (AgentInput.Tools input) 1 now now in
          err ← store_write ctx (λ c, Store.CreateAgent c agent);
          mret (match err with
                | Some err => Err (Wrap "create agent" err)
                | None => Ok agent
                end)
      end
  end.

Definition GetAgent (ctx : Context) (ownerID agentID : string) : M (result Agent.t) :=
  store_read ctx (λ c, Store.GetAgent c ownerID agentID).

(** The assignments of [UpdateAgent] before the write. *)
Definition updated_agent (input : AgentInput.t) (now : time) (agent : Agent.t) : Agent.t :=
  Agent.set_UpdatedAt now
    (Agent.set_Version (add64 (Agent.Version agent) 1)
      (Agent.set_Tools (AgentInput.Tools input)
        (Agent.set_MaxTokens (AgentInput.MaxTokens input)
          (Agent.set_Temperature (AgentInput.Temperature input)
            (Agent.set_Model (AgentInput.Model input)
              (Agent.set_SystemPrompt (AgentInput.SystemPrompt input)
                (Agent.set_Description (TrimSpace (AgentInput.Description input))
                  (Agent.set_Name (TrimSpace (AgentInput.Name input)) agent)))))))).

Definition UpdateAgent (ctx : Context) (ownerID agentID : string) (input : AgentInput.t)
    : M (result Agent.t) :=
  match validateAgent input with
  | Some err => mret (Err err)
  | None =>
      r ← store_read ctx (λ c, Store.GetAgent c ownerID agentID);
      match r with
      | Err err => mret (Err err)
      | Ok agent =>
          now ← Now;
          let agent := updated_agent input now agent in
          err ← store_write ctx (λ c, Store.UpdateAgent c agent);
          mret (match err with Some err => Err err | None => Ok agent end)
      end
  end.

Definition DeleteAgent (ctx : Context) (ownerID agentID : string) : M (option error) :=
  store_write ctx (λ c, Store.DeleteAgent c ownerID agentID).

(** The conversation of an execution: a new one, or one of the owner with this agent. *)
Definition resolve_conversation (ctx : Context) (ownerID agentID : string)
    (input : ExecutionInput.t) : M (result string) :=
  if decide (ExecutionInput.ConversationID input = "") then
    r ← Id.New;
    match r with
    | Err err => mret (Err err)
    | Ok conversationID =>
        now ← Now;
        let conversation := Conversation.mk conversationID ownerID agentID
                              (truncate (ExecutionInput.Input input) 80) now now in
        err ← store_write ctx (λ c, CreateConversation c conversation);
        mret (match err with
              | Some err => Err (Wrap "create conversation" err)
              | None => Ok conversationID
              end)
    end
  else
    r ← store_read ctx (λ c, GetConversation c ownerID (ExecutionInput.ConversationID input));
    mret (match r with
          | Err err => Err err
          | Ok conversation =>
              if decide (Conversation.AgentID conversation = agentID)
              then Ok (ExecutionInput.ConversationID input)
              else Err (ErrorString "conversation belongs to another agent")
          end).

(** Writing the execution and handing it to the queue. *)
Definition dispatch (ctx : Context) (execution : Execution.t)
    : M (option Execution.t * bool * option error) :=
  err ← store_write ctx (λ c, CreateExecution c execution);
  match err with
  | Some err => mret (None, false, Some err)
  | None =>
      err ← enqueue ctx (Job.mk (Execution.ID execution) (Execution.AgentID execution)
                                (Execution.OwnerID execution));
      match err with
      | Some err =>
          let execution := Execution.set_Error ("dispatch execution: " +:+ Error err)
                             (Execution.set_Status ExecutionFailed execution) in
          now ← Now;
          let execution := Execution.set_CompletedAt (Some now) execution in
          store_write ctx (λ c, UpdateExecution c execution);;
          mret (Some execution, false, Some (Wrap "dispatch execution" err))
      | None => mret (Some execution, false, None)
      end
  end.

(** The part of [StartExecution] after the idempotency key has been looked up. *)
Definition create_execution (ctx : Context) (ownerID agentID : string)
    (input : ExecutionInput.t) : M (option Execution.t * bool * option error) :=
  r ← store_read ctx (λ c, Store.GetAgent c ownerID agentID);
  match r with
  | Err err => mret (None, false, Some err)
  | Ok agent =>
      r ← resolve_conversation ctx ownerID agentID input;
      match r with
      | Err err => mret (None, false, Some err)
      | Ok conversationID =>
          r ← Id.New;
          match r with
          | Err err => mret (None, false, Some err)
          | Ok executionID =>
              r ← (if decide (ExecutionInput.RequestID input = "") then Id.New
                   else mret (Ok (ExecutionInput.RequestID input)));
              match r with
              | Err err => mret (None, false, Some err)
              | Ok requestID =>
                  now ← Now;
                  dispatch ctx
                    (Execution.mk executionID requestID (ExecutionInput.IdempotencyKey input)
                       (Agent.ID agent) ownerID conversationID (ExecutionInput.Input input) ""
                       ExecutionQueued (Agent.Model agent) 0 0 "" 0 None None now)
              end
          end
      end
  end.

(** [StartExecution]: the execution (none is the zero value), whether it is a replay, and
    the error. *)
Definition StartExecution (ctx : Context) (ownerID agentID : string)
    (input : ExecutionInput.t) : M (option Execution.t * bool * option error) :=
  if decide (TrimSpace (ExecutionInput.Input input) = "")
  then mret (None, false, Some (ErrorString "input is required"))
  else if decide (ExecutionInput.IdempotencyKey input = "")
  then create_execution ctx ownerID agentID input
  else
    r ← store_read ctx (λ c, GetByIdempotencyKey c ownerID (ExecutionInput.IdempotencyKey input));
    match r with
    | Ok existing => mret (Some existing, true, None)
    | Err err => if Is err NotFound then create_execution ctx ownerID agentID input
                 else mret (None, false, Some err)
    end.

Definition GetExecution (ctx : Context) (ownerID executionID : string)
    : M (result Execution.t) :=
  store_read ctx (λ c, Store.GetExecution c ownerID executionID).

(** The execution and its steps are read one after the other. *)
Definition GetTrace (ctx : Context) (ownerID executionID : string) : M (result Trace.t) :=
  r ← store_read ctx (λ c s, (c, s));
  store_read ctx (λ _ s, TraceAt r.1 ownerID executionID r.2 s).

Definition ListExecutions (ctx : Context) (ownerID agentID : string) (limit : Z)
    : M (result (list Execution.t)) :=
  let limit := if (limit <? 1) || (100 <? limit) then 20 else limit in
  store_read ctx (λ c, ListAgentExecutions c ownerID agentID limit).
End service.
End Service.
