(* ===== verification/ServiceFacts.v ===== *)
(** * What the service guarantees

    The theorems are proved against the interfaces of the store and the queue, so they
    hold for every implementation of them. *)

From S2P Require Import Prelude GoLang GoString Conc Runtime Id Domain Breaker Store Tool Llm.
From S2P Require Import World Queue Service.
Open Scope Z_scope.

(** ** Reasoning about methods that only use the store and the queue *)

Section judgement.
Context `{Env} {DB SK QU : Type} `{StoreLaws DB, QueueLaws QU}.
Abbreviation W := (World DB SK QU).
Abbreviation M := (prog W).
Implicit Types (s : DB) (q : QU).

(** From a store [s] and a queue [q], at any time, [p] returns and its result and
    the new store and queue satisfy [Q]. *)
Definition swp {A} (p : M A) (Q : A → DB → QU → Prop) s q : Prop :=
  ∀ w, w_store w = s → w_queue w = q → wp p (λ a w', Q a (w_store w') (w_queue w')) w.

Lemma swp_ret {A} (a : A) (Q : A → DB → QU → Prop) s q : Q a s q → swp (mret a) Q s q.
Proof. by intros HQ w <- <-. Qed.

Lemma swp_bind {A B} (p : M A) (k : A → M B) Q s q :
  swp p (λ a s' q', swp (k a) Q s' q') s q → swp (p ≫= k) Q s q.
Proof.
  intros Hp w Hs Hq. apply wp_bind. eapply wp_mono; [by apply Hp|].
  intros a w' Hk. by apply Hk.
Qed.

Lemma swp_mono {A} (p : M A) (Q R : A → DB → QU → Prop) s q :
  swp p Q s q → (∀ a s' q', Q a s' q' → R a s' q') → swp p R s q.
Proof. intros Hp HR w Hs Hq. eapply wp_mono; [by apply Hp|]. auto. Qed.

Lemma swp_read {X} ctx (f : Call → DB → X) (Q : X → DB → QU → Prop) s q :
  (∀ c, call_ctx c = ctx → Q (f c s) s q) → swp (Service.store_read ctx f) Q s q.
Proof. intros HQ w <- <-. apply wp_atomic. by apply HQ. Qed.

Lemma swp_write ctx (f : Call → DB → option error * DB) (Q : option error → DB → QU → Prop) s q :
  (∀ c, call_ctx c = ctx → Q (f c s).1 (f c s).2 q) → swp (Service.store_write ctx f) Q s q.
Proof.
  intros HQ w <- <-. apply wp_atomic. set (w1 := advance w).
  change (w_store w) with (w_store w1) in HQ. change (w_queue w) with (w_queue w1) in HQ.
  specialize (HQ (call_at ctx (get_rt w1)) eq_refl).
  destruct (f (call_at ctx (get_rt w1)) (w_store w1)) as [r s']. exact HQ.
Qed.

Lemma swp_Now (Q : time → DB → QU → Prop) s q : (∀ now, Q now s q) → swp Now Q s q.
Proof. intros HQ w <- <-. by apply wp_atomic. Qed.

(** Identifiers are UUIDs. *)
Lemma swp_New (Q : result string → DB → QU → Prop) s q :
  (∀ i, Q (Ok i) s q) → (∀ e, Q (Err e) s q) → swp Id.New Q s q.
Proof.
  intros Ho He w <- <-. unfold Id.New. apply wp_bind, wp_atomic.
  destruct (entropy_error _); [apply He|apply Ho].
Qed.

Lemma swp_enqueue ctx job (Q : option error → DB → QU → Prop) s q :
  (∀ rt, is_Some (Enqueue ctx job rt q)) →
  (∀ rt r t q', Enqueue ctx job rt q = Some (r, t, q') → Q r s q') →
  swp (enqueue ctx job) Q s q.
Proof.
  intros Hb HQ w <- <-. unfold enqueue. apply wp_atomic_block.
  set (w1 := advance w). change (w_queue w) with (w_queue w1) in *.
  change (get_rt w1) with (w_rt w1).
  destruct (Hb (w_rt w1)) as [[[r t] q'] E]. rewrite E. simpl. by apply (HQ (w_rt w1) r t).
Qed.
End judgement.

#[global] Arguments swp : simpl never.

(** ** Creating and updating agents *)

(** What [validateAgent] accepts; NaN is not excluded, but no JSON number decodes to it. *)
Definition temperature_ok (t : float64) : Prop :=
  t = S754_nan ∨ (SFleb (S754_zero false) t = true ∧ SFleb t float_two = true).
Definition valid_input (input : AgentInput.t) : Prop :=
  TrimSpace (AgentInput.Name input) ≠ "" ∧ TrimSpace (AgentInput.Model input) ≠ "" ∧
  temperature_ok (AgentInput.Temperature input) ∧
  1 ≤ AgentInput.MaxTokens input ≤ 1000000.

Lemma SFcompare_flip a b :
  SFcompare b a = CompOpp <$> SFcompare a b.
Proof.
  destruct a as [s1|s1| |s1 m1 e1], b as [s2|s2| |s2 m2 e2]; simpl; try done;
    try (by destruct s1); try (by destruct s2); try (by destruct s1, s2).
  rewrite (Z.compare_antisym e1 e2).
  replace (Pos.compare_cont Eq m2 m1) with (CompOpp (Pos.compare_cont Eq m1 m2))
    by (symmetry; apply Pos.compare_antisym).
  destruct s1, s2, (e1 ?= e2); simpl; try done; by destruct (Pos.compare_cont Eq m1 m2).
Qed.

Lemma SFltb_false a b :
  SFltb a b = false ↔ SFcompare a b = None ∨ SFleb b a = true.
Proof.
  unfold SFltb, SFleb. rewrite (SFcompare_flip a b).
  destruct (SFcompare a b) as [[]|]; simpl; naive_solver.
Qed.

Lemma SFcompare_nan a b : SFcompare a b = None ↔ a = S754_nan ∨ b = S754_nan.
Proof.
  destruct a as [s1|s1| |s1 m1 e1], b as [s2|s2| |s2 m2 e2]; simpl;
    try destruct s1; try destruct s2; try destruct (e1 ?= e2); simpl; naive_solver.
Qed.

Lemma temperature_check t :
  SFltb t (S754_zero false) || SFltb float_two t = false ↔ temperature_ok t.
Proof.
  rewrite orb_false_iff, !SFltb_false, !SFcompare_nan. unfold temperature_ok.
  assert (float_two ≠ S754_nan) as Hn by discriminate.
  destruct (decide (t = S754_nan)) as [->|]; naive_solver.
Qed.

Lemma validateAgent_ok input : validateAgent input = None ↔ valid_input input.
Proof.
  unfold validateAgent, valid_input. rewrite <-temperature_check.
  repeat case_decide; [intuition congruence..|]. destruct (_ || _); [intuition congruence|].
  destruct (Z.ltb_spec (AgentInput.MaxTokens input) 1),
    (Z.ltb_spec 1000000 (AgentInput.MaxTokens input)); simpl; intuition (congruence || lia).
Qed.

Section agents.
Context `{Env} {DB SK QU : Type} `{StoreLaws DB, QueueOps QU}.
Implicit Types (w : World DB SK QU).

(** Nothing but agents may differ. *)
Definition only_agents w w' : Prop :=
  same_conversations (w_store w) (w_store w') ∧ same_stored (w_store w) (w_store w') ∧
  same_steps (w_store w) (w_store w') ∧ same_messages (w_store w) (w_store w') ∧
  (apart (w_store w) → apart (w_store w')) ∧ w_queue w' = w_queue w.

Lemma CreateAgent_promise ctx owner input w :
  wp (Service.CreateAgent ctx owner input) (λ r w',
    (is_ok r = true → valid_input input) ∧ only_agents w w' ∧
    match r with
    | Err _ => w_store w' = w_store w
    | Ok a =>
        agents_of (w_store w) (Agent.ID a) = None ∧
        (∀ i, agents_of (w_store w') i =
              if decide (key DB i = key DB (Agent.ID a)) then Some (kept_agent DB a)
              else agents_of (w_store w) i) ∧
        Agent.OwnerID a = owner ∧ Agent.Version a = 1 ∧
        Agent.Name a = TrimSpace (AgentInput.Name input) ∧
        Agent.Description a = TrimSpace (AgentInput.Description input) ∧
        Agent.SystemPrompt a = AgentInput.SystemPrompt input ∧
        Agent.Model a = AgentInput.Model input ∧
        Agent.Temperature a = AgentInput.Temperature input ∧
        Agent.MaxTokens a = AgentInput.MaxTokens input ∧
        Agent.Tools a = AgentInput.Tools input ∧ Agent.CreatedAt a = Agent.UpdatedAt a
    end) w.
Proof.
  enough (swp (Service.CreateAgent ctx owner input : prog (World DB SK QU) _) (λ r s' q',
    (is_ok r = true → valid_input input) ∧ q' = w_queue w ∧
    match r with
    | Err _ => s' = w_store w
    | Ok a => (∃ c, CreateAgent c a (w_store w) = (None, s')) ∧ Agent.OwnerID a = owner ∧
        Agent.Version a = 1 ∧ Agent.Name a = TrimSpace (AgentInput.Name input) ∧
        Agent.Description a = TrimSpace (AgentInput.Description input) ∧
        Agent.SystemPrompt a = AgentInput.SystemPrompt input ∧
        Agent.Model a = AgentInput.Model input ∧
        Agent.Temperature a = AgentInput.Temperature input ∧
        Agent.MaxTokens a = AgentInput.MaxTokens input ∧
        Agent.Tools a = AgentInput.Tools input ∧ Agent.CreatedAt a = Agent.UpdatedAt a
    end) (w_store w) (w_queue w)) as Hs.
  { eapply wp_mono; [by apply Hs|]. intros [a|e] w' (Hv & Hq & Hr).
    - destruct Hr as ([c Hc] & Hr). split; [done|].
      assert ((CreateAgent c a (w_store w)).1 = None) as Hok by by rewrite Hc.
      assert (w_store w' = (CreateAgent c a (w_store w)).2) as E by by rewrite Hc.
      destruct (agent_created c a _ Hok) as [Hn Hi].
      destruct (agent_frame c a (w_store w) (w_store w')) as (F1 & F2 & F3 & F4); [by left|].
      pose proof (apart_agent c a (w_store w) (w_store w') (or_introl E)) as Hap.
      rewrite <-E in Hi. unfold only_agents. destruct_and!. by split_and!.
    - unfold only_agents. rewrite Hr. by split_and!. }
  unfold Service.CreateAgent. destruct (validateAgent input) as [e|] eqn:Hv.
  { by apply swp_ret. }
  apply validateAgent_ok in Hv. apply swp_bind, swp_New; [|intros e; by apply swp_ret].
  intros i. apply swp_bind, swp_Now. intros now. cbv zeta. set (a := Agent.mk _ _ _ _ _ _ _ _ _ _ _ _).
  apply swp_bind, swp_write. intros c _. apply swp_ret.
  destruct (CreateAgent c a (w_store w)) as [[e|] s'] eqn:E; simpl.
  - split_and!; [done|done|]. etrans; [|apply (agent_create_failed c a _ e)]; by rewrite E.
  - split_and!; try done. by exists c.
Qed.

(** [CreateAgent] accepts only valid inputs: a rejected request, or one that fails later,
    changes nothing; an accepted one stores, under an identifier that was free, version 1 of an
    agent of the caller with the trimmed name and description and the other fields as given. *)
Theorem CreateAgent_spec ctx owner input w :
  wp (Service.CreateAgent ctx owner input) (λ r w',
    (is_ok r = true → valid_input input) ∧ only_agents w w' ∧
    match r with
    | Err _ => w_store w' = w_store w
    | Ok a =>
        agents_of (w_store w) (Agent.ID a) = None ∧
        (∀ i, agents_of (w_store w') i =
              if decide (key DB i = key DB (Agent.ID a)) then Some (kept_agent DB a)
              else agents_of (w_store w) i) ∧
        Agent.OwnerID a = owner ∧ Agent.Version a = 1 ∧
        Agent.Name a = TrimSpace (AgentInput.Name input) ∧
        Agent.Description a = TrimSpace (AgentInput.Description input) ∧
        Agent.SystemPrompt a = AgentInput.SystemPrompt input ∧
        Agent.Model a = AgentInput.Model input ∧
        Agent.Temperature a = AgentInput.Temperature input ∧
        Agent.MaxTokens a = AgentInput.MaxTokens input ∧
        Agent.Tools a = AgentInput.Tools input ∧ Agent.CreatedAt a = Agent.UpdatedAt a
    end) w.
Proof. apply CreateAgent_promise. Qed.

Lemma UpdateAgent_promise ctx owner agentID input w :
  (∀ i a, agents_of (w_store w) i = Some a → Agent.ID a = key DB i) →
  wp (Service.UpdateAgent ctx owner agentID input) (λ r w',
    (is_ok r = true → valid_input input) ∧ only_agents w w' ∧
    match r with
    | Err _ => w_store w' = w_store w
    | Ok a => ∃ old now, agents_of (w_store w) agentID = Some old ∧
        Agent.OwnerID old = key DB owner ∧ a = Service.updated_agent input now old ∧
        Agent.ID a = key DB agentID ∧ Agent.OwnerID a = key DB owner ∧
        Agent.CreatedAt a = Agent.CreatedAt old ∧ Agent.Version a = add64 (Agent.Version old) 1 ∧
        ∀ i, agents_of (w_store w') i =
             if decide (key DB i = key DB agentID)
             then Some (Agent.set_CreatedAt (Agent.CreatedAt old) (kept_agent DB a))
             else agents_of (w_store w) i
    end) w.
Proof.
  intros Hids.
  enough (swp (Service.UpdateAgent ctx owner agentID input : prog (World DB SK QU) _) (λ r s' q',
    (is_ok r = true → valid_input input) ∧ q' = w_queue w ∧
    match r with
    | Err _ => s' = w_store w
    | Ok a => ∃ old now c, agents_of (w_store w) agentID = Some old ∧
        Agent.OwnerID old = key DB owner ∧
        a = Service.updated_agent input now old ∧ UpdateAgent c a (w_store w) = (None, s')
    end) (w_store w) (w_queue w)) as Hs.
  { eapply wp_mono; [by apply Hs|]. intros [a|e] w' (Hv & Hq & Hr).
    - destruct Hr as (old & now & c & Hold & Ho & Ha & Hc). split; [done|].
      assert (Agent.ID a = key DB agentID) as Hid by (rewrite Ha; simpl; by eapply Hids).
      assert ((UpdateAgent c a (w_store w)).1 = None) as Hok by by rewrite Hc.
      assert (w_store w' = (UpdateAgent c a (w_store w)).2) as E by by rewrite Hc.
      destruct (agent_updated c a _ old Hok) as [Hown Hi];
        [by rewrite Hid, agents_key|by rewrite Ha|].
      destruct (agent_frame c a (w_store w) (w_store w')) as (F1 & F2 & F3 & F4); [by right|].
      pose proof (apart_agent c a (w_store w) (w_store w') (or_intror E)) as Hap.
      rewrite <-E, Hid, key_idem in Hi. split; [by split_and!|]. exists old, now.
      split_and!; try done; [by rewrite Ha|by rewrite Ha..].
    - unfold only_agents. rewrite Hr. by split_and!. }
  unfold Service.UpdateAgent. destruct (validateAgent input) as [e|] eqn:Hv.
  { by apply swp_ret. }
  apply validateAgent_ok in Hv. apply swp_bind, swp_read. intros c _.
  destruct (GetAgent c owner agentID (w_store w)) as [old|e] eqn:Hg; [|by apply swp_ret].
  apply get_agent in Hg as [Hold Ho].
  apply swp_bind, swp_Now. intros now. cbv zeta. set (a := Service.updated_agent input now old).
  apply swp_bind, swp_write. intros c' _. apply swp_ret.
  destruct (UpdateAgent c' a (w_store w)) as [[e|] s'] eqn:E; simpl.
  - split_and!; [done|done|]. etrans; [|apply (agent_update_failed c' a _ e)]; by rewrite E.
  - split_and!; try done. by exists old, now, c'.
Qed.

(** [UpdateAgent] changes an agent of the caller only: it needs a valid input, keeps the
    identity and the creation time, replaces the described fields and counts the version up;
    every failure leaves the store as it was. *)
Theorem UpdateAgent_spec ctx owner agentID input w :
  (∀ i a, agents_of (w_store w) i = Some a → Agent.ID a = key DB i) →
  wp (Service.UpdateAgent ctx owner agentID input) (λ r w',
    (is_ok r = true → valid_input input) ∧ only_agents w w' ∧
    match r with
    | Err _ => w_store w' = w_store w
    | Ok a => ∃ old now, agents_of (w_store w) agentID = Some old ∧
        Agent.OwnerID old = key DB owner ∧ a = Service.updated_agent input now old ∧
        Agent.ID a = key DB agentID ∧ Agent.OwnerID a = key DB owner ∧
        Agent.CreatedAt a = Agent.CreatedAt old ∧ Agent.Version a = add64 (Agent.Version old) 1 ∧
        ∀ i, agents_of (w_store w') i =
             if decide (key DB i = key DB agentID)
             then Some (Agent.set_CreatedAt (Agent.CreatedAt old) (kept_agent DB a))
             else agents_of (w_store w) i
    end) w.
Proof. apply UpdateAgent_promise. Qed.

Lemma ListExecutions_promise ctx owner agentID limit w :
  wp (Service.ListExecutions ctx owner agentID limit) (λ r w',
    w_store w' = w_store w ∧
    ∀ l, r = Ok l →
      Z.of_nat (length l) ≤ (if (1 <=? limit) && (limit <=? 100) then limit else 20) ∧
      Forall (λ x, Execution.OwnerID x = key DB owner ∧ Execution.AgentID x = key DB agentID ∧
                   among (w_store w) x) l) w.
Proof.
  unfold Service.ListExecutions, Service.store_read. apply wp_atomic. cbn [fst snd].
  split; [done|]. intros l Hl. apply list_executions in Hl.
  - destruct Hl as [Hlen HF]. split; [|done]. revert Hlen. repeat case_cmp; simpl; lia.
  - repeat case_cmp; simpl; lia.
Qed.

(** A listing asks the store for 20 executions unless the limit is between 1 and 100: it
    never has more than 100, and all are executions of the caller and the agent. *)
Theorem ListExecutions_bounded ctx owner agentID limit w :
  wp (Service.ListExecutions ctx owner agentID limit) (λ r w',
    w_store w' = w_store w ∧
    ∀ l, r = Ok l →
      Z.of_nat (length l) ≤ (if (1 <=? limit) && (limit <=? 100) then limit else 20) ∧
      Forall (λ x, Execution.OwnerID x = key DB owner ∧ Execution.AgentID x = key DB agentID ∧
                   among (w_store w) x) l) w.
Proof. apply ListExecutions_promise. Qed.
End agents.

(** ** Titles *)

(** A title is a prefix of the trimmed text of at most [limit] bytes, all of it when it
    is short enough; but the cut ignores character boundaries: there is valid UTF-8 text
    whose title of 80 bytes is not. *)
Theorem truncate_spec :
  (∀ value limit, 0 ≤ limit →
     len (truncate value limit) ≤ limit ∧
     bytes (truncate value limit) `prefix_of` bytes (TrimSpace value) ∧
     (len (TrimSpace value) ≤ limit → truncate value limit = TrimSpace value)) ∧
  ∃ value, valid_utf8 value = true ∧ valid_utf8 (truncate value 80) = false.
Proof.
  split; [|exists (of_bytes (replicate 79 97 ++ [195; 169])); by vm_compute].
  intros value limit Hl. unfold truncate. case_cmp; [by split_and!|]. split_and!.
  - unfold len. rewrite bytes_slice_to, length_take. lia.
  - rewrite bytes_slice_to. by apply prefix_take.
  - lia.
Qed.

Lemma truncate_spec_witness :
  len (truncate "  hello world " 5) ≤ 5 ∧
  bytes (truncate "  hello world " 5) `prefix_of` bytes (TrimSpace "  hello world ") ∧
  truncate "  hello world " 5 = "hello".
Proof.
  destruct truncate_spec as [H _]. destruct (H "  hello world " 5) as (A & B & _); [done|].
  split; [exact A|]. split; [exact B|]. vm_compute. reflexivity.
Defined.
