(* ===== verification/StartFacts.v ===== *)
(** * Starting an execution

    What [StartExecution] does on every path, that an idempotency key is replayed, and
    that two concurrent requests with the same key can both start one. *)

From S2P Require Import Prelude GoLang GoString Conc Runtime Id Domain Breaker Store Memory.
From S2P Require Import MemoryFacts Tool Llm World Queue Service ServiceFacts.
Open Scope Z_scope.

Section start.
Context `{Env} {DB SK QU : Type} `{StoreLaws DB, QueueLaws QU}.
Abbreviation W := (World DB SK QU).
Implicit Types (s : DB) (q : QU) (w : W).

(** The same conversations, and perhaps new ones of the owner. *)
Definition more_talks (owner : string) s s' : Prop :=
  (∀ i v, conversations_of s i = Some v → conversations_of s' i = Some v) ∧
  (∀ i v, conversations_of s' i = Some v →
     conversations_of s i = Some v ∨ Conversation.OwnerID v = key DB owner).

(** The database up to new conversations. *)
Definition grown (owner : string) s s' : Prop :=
  same_agents s s' ∧ same_stored s s' ∧ same_steps s s' ∧ same_messages s s' ∧
  more_talks owner s s' ∧ (apart s → apart s').

Lemma more_talks_refl owner s : more_talks owner s s.
Proof. split; auto. Qed.

Lemma grown_refl owner s : grown owner s s.
Proof. split_and!; try done. apply more_talks_refl. Qed.

(** A conversation of the owner with the agent. *)
Definition talk (owner agentID : string) s (conversation : string) : Prop :=
  ∃ v, conversations_of s conversation = Some v ∧ Conversation.OwnerID v = key DB owner ∧
       key DB (Conversation.AgentID v) = key DB agentID.

Lemma resolve_conversation_spec ctx owner agentID input a s q :
  agents_of s agentID = Some a → Agent.OwnerID a = key DB owner →
  swp (Service.resolve_conversation ctx owner agentID input : prog W _) (λ r s' q',
    q' = q ∧ grown owner s s' ∧
    match r with Ok conversation => talk owner agentID s' conversation | Err _ => True end) s q.
Proof.
  intros Ha Hao. unfold Service.resolve_conversation. case_decide.
  - apply swp_bind, swp_New; [|intros e; apply swp_ret; by split_and!; try apply grown_refl].
    intros i. apply swp_bind, swp_Now. intros now. cbv zeta. set (v := Conversation.mk _ _ _ _ _ _).
    apply swp_bind, swp_write. intros c _. apply swp_ret.
    destruct (CreateConversation c v s).1 as [e|] eqn:E.
    + rewrite (conversation_failed _ _ _ _ E). by split_and!; try apply grown_refl.
    + destruct (conversation_created c v s E) as [Hn Hi].
      destruct (conversation_frame c v s) as (Fa & Fs & Fst & Fm).
      unfold grown, more_talks. split_and!; try done.
      * intros j v' Hj. rewrite Hi. case_decide as Hk; [|done].
        rewrite (conversations_same_key s _ _ Hk) in Hj. congruence.
      * intros j v'. rewrite Hi. case_decide; [|by left]. intros [= <-]. right.
        apply kept_conversation_ids.
      * by apply (apart_conversation c v a).
      * exists (kept_conversation DB v). destruct (kept_conversation_ids v) as [-> ->].
        rewrite Hi, decide_True by done. by rewrite key_idem.
  - apply swp_bind, swp_read. intros c _. apply swp_ret.
    split; [done|]. split; [apply grown_refl|].
    destruct (GetConversation _ _ _ _) as [v|e] eqn:E; [|done]. case_decide; [|done].
    apply get_conversation in E as [Hv Ho]. exists v. split_and!; [done..|by f_equal].
Qed.

(** The job of an execution. *)
Definition job_of (x : Execution.t) : Job.t :=
  Job.mk (Execution.ID x) (Execution.AgentID x) (Execution.OwnerID x).

(** What dispatching leaves in the store and the queue. *)
Definition dispatched (x : Execution.t) s q (out : option Execution.t * bool * option error)
    s' q' : Prop :=
  same_agents s s' ∧ same_conversations s s' ∧ same_steps s s' ∧ same_messages s s' ∧
  (∀ a v, agents_of s (Execution.AgentID x) = Some a →
     Agent.OwnerID a = key DB (Execution.OwnerID x) →
     conversations_of s (Execution.ConversationID x) = Some v →
     Conversation.OwnerID v = key DB (Execution.OwnerID x) → apart s → apart s') ∧
  match out with
  | (None, false, Some _) => s' = s ∧ waiting q' = waiting q
  | (Some y, false, None) =>
      y = x ∧ stored s (Execution.ID x) = None ∧
      (∀ i, stored s' i = if decide (key DB i = key DB (Execution.ID x)) then Some (kept DB x)
                          else stored s i) ∧
      waiting q' = waiting q ++ [carried (job_of x)]
  | (Some y, false, Some err) =>
      same_identity x y ∧ Execution.Model y = Execution.Model x ∧
      stored s (Execution.ID x) = None ∧
      Execution.Status y = ExecutionFailed ∧ is_Some (Execution.CompletedAt y) ∧
      (∃ cause, err = Wrap "dispatch execution" cause ∧ Execution.Error y = Error err) ∧
      (∀ i, key DB i ≠ key DB (Execution.ID x) → stored s' i = stored s i) ∧
      (stored s' (Execution.ID x) = Some (kept DB y) ∨
       stored s' (Execution.ID x) = Some (kept DB x)) ∧
      waiting q' = waiting q
  | _ => False
  end.

Lemma dispatch_spec ctx x s q :
  (∀ job rt, is_Some (Enqueue ctx job rt q)) → Execution.Status x = ExecutionQueued →
  swp (Service.dispatch ctx x : prog W _) (dispatched x s q) s q.
Proof.
  intros Hb Hx. unfold Service.dispatch. apply swp_bind, swp_write. intros c _.
  destruct (CreateExecution c x s).1 as [e|] eqn:E.
  { rewrite (create_failed _ _ _ _ E). apply swp_ret. unfold dispatched. by split_and!. }
  destruct (create_stored c x s E) as [Hn Hi].
  destruct (create_frame c x s) as (Fa & Fc & Fst & Fm).
  pose proof (λ a v, apart_execution c x a v s) as Hap.
  set (s1 := (CreateExecution c x s).2) in *.
  apply swp_bind, swp_enqueue; [by intros rt; apply Hb|].
  intros rt r t q' Hq. destruct r as [e|].
  2: { apply swp_ret. unfold dispatched. rewrite (enqueue_ok _ _ _ _ _ _ Hq). by split_and!. }
  apply enqueue_failed in Hq. apply swp_bind, swp_Now. intros now. cbv zeta.
  set (y := Execution.set_CompletedAt _ _). apply swp_bind, swp_write. intros c' _.
  apply swp_ret. unfold dispatched.
  destruct (update_frame c' y s1) as (Ga & Gc & Gst & Gm).
  split; [intros i; by rewrite Ga, Fa|]. split; [intros i; by rewrite Gc, Fc|].
  split; [intros i; by rewrite Gst, Fst|]. split; [intros i; by rewrite Gm, Fm|].
  split_and!; try done.
  - intros a v Ha Hao Hv Hvo Hs. by eapply apart_updated, Hap.
  - by exists e.
  - intros i Hne. rewrite update_other by (simpl; congruence). by rewrite Hi, decide_False.
  - destruct (UpdateExecution c' y s1).1 as [e'|] eqn:Eu.
    + right. rewrite (update_failed _ _ _ _ Eu), Hi. by rewrite decide_True.
    + left. apply (update_stored c' y (kept DB x)); [done| |by apply kept_identity|done].
      simpl. rewrite Hi. by rewrite decide_True.
Qed.

(** What [StartExecution] promises, in terms of the store and the queue. *)
Definition start_promise (owner agentID : string) (input : ExecutionInput.t) w
    (out : option Execution.t * bool * option error) w' : Prop :=
  let s := w_store w in let s' := w_store w' in
  same_agents s s' ∧ same_steps s s' ∧ same_messages s s' ∧ more_talks owner s s' ∧
  ((∀ i a, agents_of s i = Some a → Agent.ID a = key DB i) → apart s → apart s') ∧
  match out with
  | (None, false, Some _) => same_stored s s' ∧ waiting (w_queue w') = waiting (w_queue w)
  | (Some x, true, None) =>
      ExecutionInput.IdempotencyKey input ≠ "" ∧
      Execution.OwnerID x = key DB owner ∧
      Execution.IdempotencyKey x = ExecutionInput.IdempotencyKey input ∧
      among s x ∧ s' = s ∧ waiting (w_queue w') = waiting (w_queue w)
  | (Some x, false, err) =>
      stored s (Execution.ID x) = None ∧
      (∀ i, key DB i ≠ key DB (Execution.ID x) → stored s' i = stored s i) ∧
      Execution.OwnerID x = owner ∧ Execution.Input x = ExecutionInput.Input input ∧
      Execution.IdempotencyKey x = ExecutionInput.IdempotencyKey input ∧
      (∃ a, agents_of s agentID = Some a ∧ Agent.OwnerID a = key DB owner ∧
            Execution.AgentID x = Agent.ID a ∧ Execution.Model x = Agent.Model a) ∧
      talk owner agentID s' (Execution.ConversationID x) ∧
      match err with
      | None => Execution.Status x = ExecutionQueued ∧
                stored s' (Execution.ID x) = Some (kept DB x) ∧
                waiting (w_queue w') = waiting (w_queue w) ++ [carried (job_of x)]
      | Some err => Execution.Status x = ExecutionFailed ∧
                    (∃ cause, err = Wrap "dispatch execution" cause) ∧
                    (∃ y, stored s' (Execution.ID x) = Some y ∧
                          same_identity (kept DB x) y) ∧
                    waiting (w_queue w') = waiting (w_queue w)
      end
  | _ => False
  end.

(** What creating an execution comes to: an error before anything is dispatched, or the
    dispatch of a new one. *)
Definition created (owner agentID : string) (input : ExecutionInput.t) s q
    (out : option Execution.t * bool * option error) s' q' : Prop :=
  (∃ err, out = (None, false, Some err) ∧ grown owner s s' ∧ waiting q' = waiting q) ∨
  ∃ s1 a x, grown owner s s1 ∧ agents_of s agentID = Some a ∧
    Agent.OwnerID a = key DB owner ∧ talk owner agentID s1 (Execution.ConversationID x) ∧
    Execution.OwnerID x = owner ∧ Execution.Input x = ExecutionInput.Input input ∧
    Execution.IdempotencyKey x = ExecutionInput.IdempotencyKey input ∧
    Execution.AgentID x = Agent.ID a ∧ Execution.Model x = Agent.Model a ∧
    Execution.Status x = ExecutionQueued ∧ dispatched x s1 q out s' q'.

Lemma create_execution_created ctx owner agentID input s q :
  (∀ job rt, is_Some (Enqueue ctx job rt q)) →
  swp (Service.create_execution ctx owner agentID input : prog W _) (created owner agentID input s q) s q.
Proof.
  intros Hb. unfold Service.create_execution. apply swp_bind, swp_read. intros c _.
  destruct (GetAgent _ _ _ _) as [a|e] eqn:Hg.
  2: { apply swp_ret. left. exists e. by split_and!; try apply grown_refl. }
  apply get_agent in Hg as [Ha Hao]. apply swp_bind.
  eapply swp_mono; [by apply (resolve_conversation_spec ctx owner agentID input a)|]. intros r s1 q1 (-> & Hgr & Ht).
  destruct r as [conversation|e]; [|apply swp_ret; left; by exists e].
  apply swp_bind, swp_New; [|intros e; apply swp_ret; left; by exists e]. intros executionID.
  apply swp_bind.
  assert (∀ r, swp (match r with
                    | Err err => mret (None, false, Some err)
                    | Ok requestID =>
                        now ← Now;
                        Service.dispatch ctx
                          (Execution.mk executionID requestID
                             (ExecutionInput.IdempotencyKey input) (Agent.ID a) owner conversation
                             (ExecutionInput.Input input) "" ExecutionQueued (Agent.Model a)
                             0 0 "" 0 None None now)
                    end : prog W _) (created owner agentID input s q) s1 q) as Hrest.
  { intros [requestID|e]; [|apply swp_ret; left; by exists e].
    apply swp_bind, swp_Now. intros now. set (x := Execution.mk _ _ _ _ _ _ _ _ _ _ _ _ _ _ _ _ _).
    eapply swp_mono; [apply (dispatch_spec ctx x); [done|done]|].
    intros out s' q' Hd. right. exists s1, a, x. by split_and!. }
  case_decide; [|apply swp_ret, (Hrest (Ok _))].
  apply swp_New; intros; [apply (Hrest (Ok _))|apply (Hrest (Err _))].
Qed.

Lemma created_promise owner agentID input w out w' :
  created owner agentID input (w_store w) (w_queue w) out (w_store w') (w_queue w') →
  start_promise owner agentID input w out w'.
Proof.
  intros [(err & -> & (Fa & Fs & Fst & Fm & Fc & Fap) & Hq)|
    (s1 & a & x & (Fa & Fs & Fst & Fm & Fc & Fap) & Ha & Hao & Ht & Hxo & Hxi & Hxk & Hxa & Hxm &
     Hxs & Ga & Gc & Gst & Gm & Gap & Hd)].
  { unfold start_promise. by split_and!. }
  assert (more_talks owner (w_store w) (w_store w')) as Hconv.
  { destruct Fc as [Fc1 Fc2]. split; intros i v; rewrite Gc; [apply Fc1|apply Fc2]. }
  assert (talk owner agentID (w_store w') (Execution.ConversationID x)) as Htalk.
  { destruct Ht as (v & Hv & Ho & Hag). exists v. by rewrite Gc. }
  unfold start_promise.
  split; [intros i; by rewrite Ga, Fa|]. split; [intros i; by rewrite Gst, Fst|].
  split; [intros i; by rewrite Gm, Fm|]. split; [done|]. split.
  { intros Hids Hap. destruct Ht as (v & Hv & Ho & _).
    apply (Gap a v); rewrite ?Hxo; try done; [|by apply Fap].
    by rewrite Fa, Hxa, (Hids _ _ Ha), agents_key. }
  destruct out as [[[y|] []] [err|]]; try done.
  - destruct Hd as (Hi & Hmo & Hn & Hst & _ & (cause & -> & _) & Hother & Hsto & Hq).
    pose proof Hi as (Hid & Hio & Hia & Hic & Hii & Hik & _).
    rewrite <-Hid, <-Hio, <-Hia, <-Hic, <-Hii, <-Hik, Hmo, <-Fs. split_and!; try done.
    + intros i Hne. by rewrite Hother, Fs.
    + by exists a.
    + by exists cause.
    + destruct Hsto as [Hsto|Hsto]; [by exists (kept DB y)|exists (kept DB x)].
      split; [done|]. by apply kept_identity.
  - destruct Hd as (-> & Hn & Hi & Hq). rewrite <-Fs. split_and!; try done.
    + intros i Hne. by rewrite Hi, decide_False, Fs.
    + by exists a.
    + by rewrite Hi, decide_True.
  - destruct Hd as [-> Hq]. by split_and!.
Qed.

Lemma create_execution_spec ctx owner agentID input w :
  (∀ job rt, is_Some (Enqueue ctx job rt (w_queue w))) →
  wp (Service.create_execution ctx owner agentID input) (start_promise owner agentID input w) w.
Proof.
  intros Hb. pose proof (create_execution_created ctx owner agentID input (w_store w) (w_queue w) Hb) as Hs.
  eapply wp_mono; [by apply Hs|]. intros out w'. apply created_promise.
Qed.

Lemma StartExecution_promise ctx owner agentID input w :
  (∀ job rt, is_Some (Enqueue ctx job rt (w_queue w))) →
  wp (Service.StartExecution ctx owner agentID input) (λ out w',
    start_promise owner agentID input w out w' ∧
    (TrimSpace (ExecutionInput.Input input) = "" →
     out = (None, false, Some (ErrorString "input is required")) ∧ w' = w)) w.
Proof.
  intros Hb. unfold Service.StartExecution. case_decide as Hin.
  { simpl. unfold start_promise. split_and!; try done; apply more_talks_refl. }
  eapply wp_mono; [|by intros out w' Hp; split; [exact Hp|]].
  case_decide as Hk; [by apply create_execution_spec|].
  apply wp_bind, wp_atomic. cbn [fst snd].
  destruct (GetByIdempotencyKey _ _ _ _) as [x|e] eqn:E.
  - apply get_by_key in E as (Ho & Hkey & Hi). simpl. unfold start_promise.
    split_and!; try done; apply more_talks_refl.
  - destruct (Is e NotFound).
    2: { simpl. unfold start_promise. split_and!; try done; apply more_talks_refl. }
    exact (create_execution_spec ctx owner agentID input (advance w) Hb).
Qed.

(** C13: Starting an execution.  Whatever the request, no agent, step or message changes and no
    conversation is lost, and the answer tells what happened: an error before the
    dispatch leaves every execution and the queue as they were; a replay returns a
    stored execution of the caller with the same key and changes nothing; otherwise one
    new execution of the caller, for the agent and a conversation with it, is stored, and either
    its job is the last of the queue, or the dispatch failed: then it is returned as failed,
    the queue is as it was, and the caller gets the cause. *)
Theorem StartExecution_spec ctx owner agentID input w :
  (∀ job rt, is_Some (Enqueue ctx job rt (w_queue w))) →
  wp (Service.StartExecution ctx owner agentID input) (λ out w',
    start_promise owner agentID input w out w' ∧
    (TrimSpace (ExecutionInput.Input input) = "" →
     out = (None, false, Some (ErrorString "input is required")) ∧ w' = w)) w.
Proof. apply StartExecution_promise. Qed.
End start.

(** ** Idempotency *)

Section replay.
Context `{Env} {DB SK QU : Type} `{StoreAvailable DB, QueueOps QU}.

(** With an available store, a request whose key the caller has used before is answered with
    an execution stored for that key, marked as a replay; it creates nothing and
    enqueues nothing. *)
Theorem StartExecution_replays ctx owner agentID input (w : World DB SK QU) :
  TrimSpace (ExecutionInput.Input input) ≠ "" → ExecutionInput.IdempotencyKey input ≠ "" →
  (∃ i y, stored (w_store w) i = Some y ∧ Execution.OwnerID y = owner ∧
          Execution.IdempotencyKey y = ExecutionInput.IdempotencyKey input) →
  wp (Service.StartExecution ctx owner agentID input) (λ out w',
    (∃ i x, out = (Some x, true, None) ∧ stored (w_store w) i = Some x ∧
            Execution.OwnerID x = owner ∧
            Execution.IdempotencyKey x = ExecutionInput.IdempotencyKey input) ∧
    w_store w' = w_store w ∧ w_queue w' = w_queue w) w.
Proof.
  intros Hin Hk Hy. unfold Service.StartExecution. rewrite !decide_False by done.
  apply wp_bind, wp_atomic. cbn [fst snd].
  destruct (get_by_key_found (call_at ctx (get_rt (advance w))) owner
              (ExecutionInput.IdempotencyKey input) (w_store w) Hy) as [x Hx].
  change (w_store (advance w)) with (w_store w). rewrite Hx.
  apply get_by_key in Hx as (Ho & Hkey & Hs). rewrite key_exact in Ho.
  destruct (among_stored _ _ Hs) as [i Hi]. simpl. split; [|done]. by exists i, x.
Qed.
End replay.

#[local] Existing Instance demo_env.
#[local] Existing Instance MemoryFacts.demo_order.

Definition start_agent : Agent.t :=
  Agent.mk "a" "owner" "assistant" "" "" "model" (S754_zero false) 100 [] 1 1 1.
Definition start_input : ExecutionInput.t := ExecutionInput.mk "hello" "" "key" "request".
Definition start_world : World Memory.t unit Immediate.t :=
  mkWorld (mkRuntime 1000 0) (Memory.mk {["a" := start_agent]} ∅ ∅ ∅ ∅) tt
          (Immediate.NewImmediate 8) (NewCircuitBreaker 5 30) ∅ [].
Definition start_ctx : Context := mkContext (Some (Minute, Sentinel DeadlineExceeded)).

(** The key is looked up and the execution written in two steps, and the in-memory store does
      not insist that keys are unique: two concurrent requests with the same key can both
      start an execution, and both are stored and queued. *)
Theorem StartExecution_race :
  let start := Service.StartExecution start_ctx "owner" "a" start_input in
  ∃ rs w', pool_run ([start; start], start_world) (Ret <$> rs, w') ∧
  ∃ x y, rs = [(Some x, false, None); (Some y, false, None)] ∧
    Execution.ID x ≠ Execution.ID y ∧
    Execution.IdempotencyKey x = "key" ∧ Execution.IdempotencyKey y = "key" ∧
    stored (w_store w') (Execution.ID x) = Some x ∧
    stored (w_store w') (Execution.ID y) = Some y ∧
    waiting (w_queue w') = [job_of x; job_of y].
Proof.
  intros start.
  destruct (run_sched_result (concat (replicate 12 [0; 1]%nat)) [start; start] start_world
    (λ rs w', match rs with
              | [(Some x, false, None); (Some y, false, None)] =>
                  bool_decide (Execution.ID x ≠ Execution.ID y ∧
                    Execution.IdempotencyKey x = "key" ∧ Execution.IdempotencyKey y = "key" ∧
                    stored (w_store w') (Execution.ID x) = Some x ∧
                    stored (w_store w') (Execution.ID y) = Some y ∧
                    waiting (w_queue w') = [job_of x; job_of y])
              | _ => false
              end) true) as (rs & w' & Hr & Hf).
  { vm_compute. reflexivity. }
  exists rs, w'. split; [exact Hr|].
  destruct rs as [|[[[x|] []] [|]] [|[[[y|] []] [|]] [|]]]; try discriminate.
  exists x, y. split; [reflexivity|]. exact (bool_decide_eq_true_1 _ Hf).
Qed.

Lemma StartExecution_replays_witness :
  let x := Execution.mk "x" "request" "key" "a" "owner" "v" "hello" "" ExecutionQueued "model"
             0 0 "" 0 None None 1 in
  let w := mkWorld (mkRuntime 1000 0) (Memory.mk {["a" := start_agent]} {["x" := x]} ∅ ∅ ∅) tt
             (Immediate.NewImmediate 8) (NewCircuitBreaker 5 30) ∅ [] in
  wp (Service.StartExecution start_ctx "owner" "a" start_input) (λ out w',
    (∃ i x, out = (Some x, true, None) ∧ stored (w_store w) i = Some x ∧
            Execution.OwnerID x = "owner" ∧ Execution.IdempotencyKey x = "key") ∧
    w_store w' = w_store w ∧ w_queue w' = w_queue w) w.
Proof.
  intros x w. apply (StartExecution_replays start_ctx "owner" "a" start_input w).
  - vm_compute. discriminate.
  - discriminate.
  - exists "x", x. by vm_compute.
Defined.

Lemma StartExecution_spec_witness :
  wp (Service.StartExecution start_ctx "owner" "a" start_input) (λ out w',
    start_promise "owner" "a" start_input start_world out w') start_world ∧
  (λ r, (r.1.1.2, r.1.2, waiting (w_queue r.2))) <$>
    run (Service.StartExecution start_ctx "owner" "a" start_input) start_world =
  Some (false, None,
        [Job.mk "2a2b2c2d2e2f4031b233343536373839" "a" "owner"]).
Proof.
  split.
  - eapply wp_mono; [apply (StartExecution_spec start_ctx "owner" "a" start_input start_world)|].
    + intros job rt. apply Immediate.Enqueue_returns. by eexists.
    + by intros out w' [Hp _].
  - vm_compute. reflexivity.
Defined.

Definition update_input : AgentInput.t :=
  AgentInput.mk " renamed " "" "Be brief." "model" (S754_zero false) 50 [].

Lemma UpdateAgent_spec_witness :
  wp (Service.UpdateAgent start_ctx "owner" "a" update_input) (λ r w',
    match r with
    | Err _ => w_store w' = w_store start_world
    | Ok a => Agent.ID a = "a" ∧ Agent.Version a = 2
    end) start_world ∧
  (is_ok ∘ fst <$> run (Service.UpdateAgent start_ctx "owner" "a" update_input) start_world =
   Some true) ∧
  (is_ok ∘ fst <$> run (Service.UpdateAgent start_ctx "other" "a" update_input) start_world =
   Some false).
Proof.
  split_and!; [|vm_compute; reflexivity..].
  eapply wp_mono; [apply (UpdateAgent_spec start_ctx "owner" "a" update_input start_world)|].
  - intros i a. simpl. intros [<- <-]%lookup_singleton_Some. reflexivity.
  - intros [a|e] w' (_ & _ & Hr); [|exact Hr].
    destruct Hr as (old & now & Hold & _ & _ & Hid & _ & _ & Hv & _). split; [exact Hid|].
    rewrite Hv. simpl in Hold. rewrite lookup_singleton_eq in Hold. injection Hold as <-. reflexivity.
Defined.

Lemma CreateAgent_spec_witness :
  wp (Service.CreateAgent start_ctx "owner" update_input) (λ r w',
    match r with
    | Err _ => w_store w' = w_store start_world
    | Ok a => Agent.Version a = 1 ∧ agents_of (w_store w') (Agent.ID a) = Some a
    end) start_world ∧
  (is_ok ∘ fst <$> run (Service.CreateAgent start_ctx "owner" update_input) start_world =
   Some true).
Proof.
  split; [|vm_compute; reflexivity].
  eapply wp_mono; [apply (CreateAgent_spec start_ctx "owner" update_input start_world)|].
  intros [a|e] w' (_ & _ & Hr); [|exact Hr]. destruct Hr as (_ & Hi & _ & Hv & _).
  split; [exact Hv|]. rewrite Hi, decide_True; reflexivity.
Defined.

Lemma ListExecutions_bounded_witness :
  wp (Service.ListExecutions start_ctx "owner" "a" 1000) (λ r w',
    ∀ l, r = Ok l → Z.of_nat (length l) ≤ 20) start_world.
Proof.
  eapply wp_mono; [apply (ListExecutions_bounded start_ctx "owner" "a" 1000 start_world)|].
  intros r w' [_ Hl] l Hr. destruct (Hl l Hr) as [Hn _]. exact Hn.
Defined.
