(* ===== verification/Worker.v ===== *)
(** * [internal/worker/worker.go]: running queued executions

    [consume_once] is one iteration of the endless loop [consume]; logging is left out.  [Run]
    starts [consume] on a number of goroutines and waits for them ([WorkerPool]).  The theorems here
    are about one iteration; [ServiceGroup] is about the loops, at once and with requests. *)

From S2P Require Import Prelude GoLang GoString Conc Rely Group Loops Runtime Domain Breaker Retry Store Memory.
From S2P Require Import MemoryFacts Tool ToolExamples Llm World Engine EngineSpec EngineProof.
From S2P Require Import EngineLogs EngineFacts EngineDemo Queue Service ServiceFacts StartFacts.
Open Scope Z_scope.

Module Worker.
Section worker.
Context `{Env} {DB SK QU : Type} `{StoreOps DB, SinkOps SK, QueueOps QU, Counters, Unicode}.
Abbreviation P := (proc (World DB SK QU) (result ChatMessage.t)).
Abbreviation T := (task (World DB SK QU) (result ChatMessage.t)).

(** One iteration: whether the loop goes on. *)
Definition consume_once (engine : Engine.t) (ctx : Context) : P bool :=
  r ← lift (dequeue ctx);
  match r with
  | Err err => mret (negb (Is err Canceled))
  | Ok job =>
      r ← lift (Service.GetExecution ctx (Job.OwnerID job) (Job.ExecutionID job));
      match r with
      | Err _ => mret true
      | Ok execution =>
          r ← lift (Service.GetAgent ctx (Job.OwnerID job) (Job.AgentID job));
          match r with
          | Err _ => mret true
          | Ok agent => Engine.Execute engine ctx agent execution;; mret true
          end
      end
  end.

(** The endless loop. *)
Definition consume {A : Type} (engine : Engine.t) (ctx : Context) : T A :=
  Loop 0 (consume_once engine ctx) (consume_once engine ctx).

(** The goroutines [Run] starts: at least one. *)
Definition goroutines (concurrency : Z) : nat :=
  Z.to_nat (if concurrency <? 1 then 1 else concurrency).
Definition Run {A : Type} (engine : Engine.t) (ctx : Context) (concurrency : Z) : list (T A) :=
  replicate (goroutines concurrency) (consume engine ctx).

Lemma goroutines_positive concurrency : (0 < goroutines concurrency)%nat.
Proof. unfold goroutines. case_cmp; lia. Qed.
End worker.
End Worker.

Section properties.
Context `{Env} {DB SK QU : Type}
  `{StoreAvailable DB, SinkOps SK, QueueLaws QU, Counters, Unicode}.
Abbreviation W := (World DB SK QU).
Implicit Types (w : W).
Context (engine : Engine.t) (ctx : Context).
Context (Hattempts : 1 ≤ RetryPolicy.MaxAttempts (Engine.retryPolicy engine))
        (Hsane : Engine.metrics engine = true → sane_provider (Engine.provider engine)).
(** The worker has not been told to stop: it gets the jobs that wait. *)
Context (Hready : ∀ rt q job rest, waiting q = job :: rest →
           ∃ t q', Dequeue ctx rt q = Some (Ok job, t, q')).

Lemma wp_dequeue w job rest (Q : result Job.t → W → Prop) :
  waiting (w_queue w) = job :: rest →
  (∀ w', w_store w' = w_store w → w_tools w' = w_tools w → waiting (w_queue w') = rest →
         Q (Ok job) w') →
  wp (dequeue ctx) Q w.
Proof.
  intros Hw HQ. apply wp_atomic_block. change (w_queue (advance w)) with (w_queue w).
  destruct (Hready (get_rt (advance w)) _ _ _ Hw) as (t & q' & E). rewrite E. simpl.
  apply HQ; [done|done|]. apply dequeue_ok in E. simpl. congruence.
Qed.

Lemma consume_runs w job rest x a :
  waiting (w_queue w) = job :: rest →
  stored (w_store w) (Job.ExecutionID job) = Some x →
  Execution.ID x = Job.ExecutionID job → Execution.OwnerID x = Job.OwnerID job →
  agents_of (w_store w) (Job.AgentID job) = Some a → Agent.OwnerID a = Job.OwnerID job →
  pwp (Worker.consume_once engine ctx) (λ more w',
    (more = true ∧ waiting (w_queue w') = rest ∧
     ∃ y, stored (w_store w') (Execution.ID x) = Some y ∧ same_identity x y ∧
          terminal (Execution.Status y) = true) ∧
    (∀ i, i ≠ Execution.ID x → stored (w_store w') i = stored (w_store w) i) ∧
    same_agents (w_store w) (w_store w')) w.
Proof.
  intros Hw Hx Hid Hxo Ha Hao. unfold Worker.consume_once.
  apply pwp_bind, pwp_lift. apply (wp_dequeue w job rest); [done|]. intros w1 Hs1 Ht1 Hq1.
  apply pwp_bind, pwp_lift, wp_atomic. cbn [fst snd]. change (w_store (advance w1)) with (w_store w1).
  rewrite Hs1, (get_execution_ok _ _ _ _ x) by done.
  apply pwp_bind, pwp_lift, wp_atomic. cbn [fst snd].
  change (w_store (advance (advance w1))) with (w_store w1).
  rewrite Hs1, (get_agent_ok _ _ _ _ a) by done.
  assert (holds x (advance (advance w1))) as Hh.
  { exists x. split; [|by rewrite kept_exact]. change (w_store (advance (advance w1))) with (w_store w1).
    by rewrite Hs1, Hid. }
  apply pwp_bind. eapply pwp_mono; [apply pwp_and|].
  - by apply (Execute_recorded _ engine ctx a x Hattempts Hsane).
  - by apply (Execute_isolated _ engine ctx a x Hattempts Hsane).
  - intros [y err] w2 [(Hxy & Hq2 & Hst & Hterm & _) (Ho & _ & Hag & _)].
    change (w_store (advance (advance w1))) with (w_store w1) in Ho, Hag. rewrite Hs1 in Ho, Hag.
    split; [|split; [|done]].
    + split_and!; [done| |by exists y]. by rewrite Hq2.
    + intros i Hi. apply Ho. by rewrite !key_exact.
Qed.

(** An iteration that finds a job ends, whatever it then finds in the store. *)
Lemma consume_ends w job rest :
  waiting (w_queue w) = job :: rest →
  pwp (Worker.consume_once engine ctx) (λ _ _, True) w.
Proof.
  intros Hw. unfold Worker.consume_once.
  apply pwp_bind, pwp_lift. apply (wp_dequeue w job rest); [done|]. intros w1 _ _ _.
  apply pwp_bind, pwp_lift, wp_atomic. cbn [fst snd]. destruct (GetExecution _ _ _ _) as [x|]; [|done].
  apply pwp_bind, pwp_lift, wp_atomic. cbn [fst snd]. destruct (GetAgent _ _ _ _) as [a|]; [|done].
  apply pwp_bind. eapply pwp_mono; [by apply Execute_run|]. done.
Qed.

(** The worker makes progress: with an available store, the iteration that takes a job whose
    execution and agent belong to the job's owner brings that execution into a final
    state, whatever the model and the tools do, and takes nothing else from the queue. *)
Theorem worker_runs_job w job rest x a :
  waiting (w_queue w) = job :: rest →
  stored (w_store w) (Job.ExecutionID job) = Some x →
  Execution.ID x = Job.ExecutionID job → Execution.OwnerID x = Job.OwnerID job →
  agents_of (w_store w) (Job.AgentID job) = Some a → Agent.OwnerID a = Job.OwnerID job →
  pwp (Worker.consume_once engine ctx) (λ more w',
    more = true ∧ waiting (w_queue w') = rest ∧
    ∃ y, stored (w_store w') (Execution.ID x) = Some y ∧ same_identity x y ∧
         terminal (Execution.Status y) = true) w.
Proof.
  intros Hw Hx Hid Hxo Ha Hao. eapply pwp_mono; [by eapply consume_runs|].
  by intros more w' [Hr _].
Qed.

(** A job whose execution and agent are stored for its owner, and one that is done. *)
Definition runnable (s : DB) (job : Job.t) : Prop :=
  (∃ x, stored s (Job.ExecutionID job) = Some x ∧ Execution.ID x = Job.ExecutionID job ∧
        Execution.OwnerID x = Job.OwnerID job) ∧
  ∃ a, agents_of s (Job.AgentID job) = Some a ∧ Agent.OwnerID a = Job.OwnerID job.
Definition finished (s : DB) (job : Job.t) : Prop :=
  ∃ y, stored s (Job.ExecutionID job) = Some y ∧ terminal (Execution.Status y) = true.

(** A request, and a worker that takes the job it left. *)
Definition request_and_work (rctx : Context) (owner agentID : string) (input : ExecutionInput.t)
    : proc W (result ChatMessage.t) (option Execution.t * bool * option error) :=
  out ← lift (Service.StartExecution rctx owner agentID input);
  match out with
  | (Some _, false, None) => Worker.consume_once engine ctx;; mret out
  | _ => mret out
  end.

(** From request to result: an execution that [StartExecution] accepts into an empty
    queue is, after one iteration of a worker, in a final state under the same identity: service,
    queue, store, worker and engine fit together, for every queue that carries the job
    unchanged. *)
Theorem request_reaches_final_state rctx owner agentID input w :
  (∀ job rt, is_Some (Enqueue rctx job rt (w_queue w))) →
  waiting (w_queue w) = [] →
  (∀ i a, agents_of (w_store w) i = Some a → Agent.ID a = i) →
  pwp (request_and_work rctx owner agentID input) (λ out w',
    ∀ x, out = (Some x, false, None) → carried (job_of x) = job_of x →
      waiting (w_queue w') = [] ∧
      ∃ y, stored (w_store w') (Execution.ID x) = Some y ∧ same_identity x y ∧
           terminal (Execution.Status y) = true) w.
Proof.
  intros Henq Hempty Hids. unfold request_and_work. apply pwp_bind, pwp_lift.
  eapply wp_mono; [by apply StartExecution_promise|].
  intros [[[x|] []] [err|]] w1 [Hp _]; try (intros x' [=]).
  destruct Hp as (Hag & _ & _ & _ & _ & Hn & _ & Ho & _ & _ & (a & Ha & Hao & Hxa & _) & _ & _ & Hx & Hq).
  rewrite key_exact in Hao. rewrite kept_exact in Hx.
  rewrite Hempty in Hq. simpl in Hq. apply pwp_bind.
  assert (agents_of (w_store w1) (Execution.AgentID x) = Some a) as Ha1.
  { rewrite Hxa, (Hids _ _ Ha). by rewrite Hag. }
  destruct (decide (carried (job_of x) = job_of x)) as [Hc|Hc].
  - rewrite Hc in Hq. eapply pwp_mono.
    + by eapply (consume_runs w1 (job_of x) [] x a); simpl; rewrite ?Ho.
    + intros more w2 [(_ & Hq2 & y & Hy) _]. intros x' [= <-] _. split; [done|]. by exists y.
  - eapply pwp_mono; [by eapply consume_ends|]. by intros more w2 _ x' [= <-].
Qed.
End properties.

Section dropped.
Context `{Env} {DB SK QU : Type} `{StoreOps DB, SinkOps SK, QueueLaws QU, Counters, Unicode}.
Implicit Types (w : World DB SK QU).

(** A job is taken before its execution and agent are read, and is not put back: when either
    cannot be read, the job is gone and the store has not changed, so the execution stays
    as it was (queued). *)
Theorem worker_drops_job engine ctx w job rest :
  waiting (w_queue w) = job :: rest →
  (∀ rt, ∃ t q', Dequeue ctx rt (w_queue w) = Some (Ok job, t, q')) →
  (∀ c, is_ok (GetExecution c (Job.OwnerID job) (Job.ExecutionID job) (w_store w)) = false) ∨
  (∀ c, is_ok (GetAgent c (Job.OwnerID job) (Job.AgentID job) (w_store w)) = false) →
  pwp (Worker.consume_once engine ctx) (λ more w',
    more = true ∧ waiting (w_queue w') = rest ∧ w_store w' = w_store w) w.
Proof.
  intros Hw Hd Hmiss. unfold Worker.consume_once. apply pwp_bind, pwp_lift, wp_atomic_block.
  change (w_queue (advance w)) with (w_queue w).
  destruct (Hd (get_rt (advance w))) as (t & q' & E). rewrite E. cbn [fst snd].
  assert (waiting q' = rest) as Hq by (apply dequeue_ok in E; congruence).
  cbn beta iota. apply pwp_bind, pwp_lift, wp_atomic. cbn [fst snd].
  destruct (GetExecution _ _ _ _) as [x|e] eqn:Ex; [|by simpl].
  apply pwp_bind, pwp_lift, wp_atomic. cbn [fst snd].
  destruct (GetAgent _ _ _ _) as [a|e'] eqn:Ea; [|by simpl]. exfalso.
  destruct Hmiss as [Hm|Hm]; [apply (f_equal is_ok) in Ex|apply (f_equal is_ok) in Ea];
    [exact (eq_true_false_abs _ Ex (Hm _))|exact (eq_true_false_abs _ Ea (Hm _))].
Qed.
End dropped.

(** ** A request served

    The agent of [EngineDemo] in an empty store, and a worker that never stops. *)

#[local] Existing Instance demo_env.
#[local] Existing Instance demo_unicode.
#[local] Existing Instance NopEventSink.ops.
#[local] Existing Instance MemoryFacts.demo_order.
#[local] Existing Instance EngineDemo.demo_counters.

Abbreviation IW := (World Memory.t unit Immediate.t).

Definition serving_world (jobs : list Job.t) (executions : gmap string Execution.t) : IW :=
  mkWorld (mkRuntime 1000000000 0)
    (Memory.mk {["a" := the_agent]} executions ∅ {["v" := demo_conversation "owner" "v"]} ∅) tt
    (Immediate.mk 8 jobs) Engine.new_breaker calculator_only [].

Lemma ready_forever rt (q : Immediate.t) job rest :
  waiting q = job :: rest → ∃ t q', Dequeue Background rt q = Some (Ok job, t, q').
Proof. intros Hw. simpl in *. unfold Immediate.Dequeue. rewrite Hw. by eexists _, _. Qed.

Lemma worker_runs_job_witness :
  pwp (Worker.consume_once demo_engine Background) (λ more w',
    more = true ∧ waiting (w_queue w') = [] ∧
    ∃ y, stored (w_store w') "x" = Some y ∧ same_identity the_execution y ∧
         terminal (Execution.Status y) = true)
    (serving_world [Job.mk "x" "a" "owner"] {["x" := the_execution]}).
Proof.
  apply (worker_runs_job demo_engine Background demo_attempts (λ _, demo_sane) ready_forever
           (serving_world [Job.mk "x" "a" "owner"] {["x" := the_execution]})
           (Job.mk "x" "a" "owner") [] the_execution the_agent); reflexivity.
Defined.

Lemma request_reaches_final_state_witness :
  pwp (request_and_work demo_engine Background start_ctx "owner" "a" start_input) (λ out w',
    ∀ x, out = (Some x, false, None) → carried (job_of x) = job_of x →
      waiting (w_queue w') = [] ∧
      ∃ y, stored (w_store w') (Execution.ID x) = Some y ∧ same_identity x y ∧
           terminal (Execution.Status y) = true) (serving_world [] ∅) ∧
  (λ r, (r.1.1.2, r.1.2, length (waiting (w_queue r.2)))) <$>
    run (Service.StartExecution start_ctx "owner" "a" start_input) (serving_world [] ∅) =
  Some (false, None, 1%nat).
Proof.
  split; [|vm_compute; reflexivity].
  apply (request_reaches_final_state demo_engine Background demo_attempts (λ _, demo_sane)
           ready_forever start_ctx "owner" "a" start_input (serving_world [] ∅)).
  - intros job rt. apply Immediate.Enqueue_returns. by eexists.
  - reflexivity.
  - intros i a. simpl. intros [<- <-]%lookup_singleton_Some. reflexivity.
Defined.

Lemma worker_drops_job_witness :
  pwp (Worker.consume_once demo_engine Background) (λ more w',
    more = true ∧ waiting (w_queue w') = [] ∧
    w_store w' = w_store (serving_world [Job.mk "x" "deleted" "owner"] {["x" := the_execution]}))
    (serving_world [Job.mk "x" "deleted" "owner"] {["x" := the_execution]}).
Proof.
  apply (worker_drops_job demo_engine Background _ (Job.mk "x" "deleted" "owner") []).
  - reflexivity.
  - intros rt. eapply ready_forever. reflexivity.
  - right. intros c. reflexivity.
Defined.

(** Two executions of one conversation, both waiting for a worker. *)
Definition second_execution : Execution.t :=
  Execution.mk "y" "r" "" "a" "owner" "v" "And 2+3?" "" ExecutionQueued "" 0 0 "" 0 None None 0.
Definition busy_world : IW :=
  serving_world [Job.mk "x" "a" "owner"; Job.mk "y" "a" "owner"]
    {["x" := the_execution; "y" := second_execution]}.

