(* ===== verification/RedisQueue.v ===== *)
(** * [internal/queue/redis.go]: the job queue kept in a Redis list

    A job travels as JSON text: [job_roundtrip] says what arrives.  The Redis client is a
    library: [RedisOps] are the two commands the queue sends, [RedisLaws] what they do to
    the list of a key (a command that fails may still have taken effect), and
    [RedisReliable] adds that it has not.  With the latter the queue keeps the promises
    of [QueueLaws]; without it, what is left of them is [redis_at_most_once]. *)

From S2P Require Import Prelude GoLang GoString Utf8 GoJson JsonFacts Conc Runtime Domain.
From S2P Require Import Breaker Tool Llm World Queue.
Open Scope Z_scope.

(** [LPUSH key payload] and [BRPOP key 0]; [None] when the command waits for good. *)
Class RedisOps (RC : Type) := {
  LPush : Context → string → string → Runtime → RC → option (option error * time * RC);
  BRPop : Context → string → Runtime → RC → option (result (list string) * time * RC)
}.

(** The list under a key, its head first. *)
Class RedisView (RC : Type) := { redis_list : RC → string → list string }.

Class RedisLaws (RC : Type) `{RedisOps RC, RedisView RC} := {
  lpush_ok ctx key p rt c t c' :
    LPush ctx key p rt c = Some (None, t, c') → redis_list c' key = p :: redis_list c key;
  lpush_failed ctx key p rt c e t c' :
    LPush ctx key p rt c = Some (Some e, t, c') →
    redis_list c' key = redis_list c key ∨ redis_list c' key = p :: redis_list c key;
  lpush_time ctx key p rt c r t c' : LPush ctx key p rt c = Some (r, t, c') → rt_now rt ≤ t;
  brpop_ok ctx key rt c vs t c' :
    BRPop ctx key rt c = Some (Ok vs, t, c') →
    ∃ p, vs = [key; p] ∧ redis_list c key = redis_list c' key ++ [p];
  brpop_failed ctx key rt c e t c' :
    BRPop ctx key rt c = Some (Err e, t, c') →
    redis_list c' key = redis_list c key ∨ ∃ p, redis_list c key = redis_list c' key ++ [p];
  brpop_time ctx key rt c r t c' : BRPop ctx key rt c = Some (r, t, c') → rt_now rt ≤ t
}.

(** A command that reports an error had no effect. *)
Class RedisReliable (RC : Type) `{RedisOps RC, RedisView RC} := {
  lpush_undone ctx key p rt c e t c' :
    LPush ctx key p rt c = Some (Some e, t, c') → redis_list c' key = redis_list c key;
  brpop_undone ctx key rt c e t c' :
    BRPop ctx key rt c = Some (Err e, t, c') → redis_list c' key = redis_list c key
}.

(** ** The text of a job *)

(** [json.Marshal(job)], which cannot fail on strings, and [json.Unmarshal]. *)
Definition job_fields (job : Job.t) : list (string * list Z) :=
  [("execution_id", print_string (Job.ExecutionID job));
   ("agent_id", print_string (Job.AgentID job)); ("owner_id", print_string (Job.OwnerID job))].
Definition encode_job (job : Job.t) : result string := Ok (of_bytes (print_struct (job_fields job))).

Definition decode_job (payload : string) : result Job.t :=
  ms ← unmarshal_struct payload;
  executionID ← decode_field decode_string "" "execution_id" ms;
  agentID ← decode_field decode_string "" "agent_id" ms;
  ownerID ← decode_field decode_string "" "owner_id" ms;
  Ok (Job.mk executionID agentID ownerID).

Definition clean_job (job : Job.t) : Job.t :=
  Job.mk (clean (Job.ExecutionID job)) (clean (Job.AgentID job)) (clean (Job.OwnerID job)).

Lemma encode_decode_job job : (payload ← encode_job job; decode_job payload) = Ok (clean_job job).
Proof.
  unfold encode_job. cbn [mbind result_bind]. unfold decode_job, unmarshal_struct.
  pose proof (reads_struct 0 (job_fields job)
    [("execution_id", is_text (Job.ExecutionID job)); ("agent_id", is_text (Job.AgentID job));
     ("owner_id", is_text (Job.OwnerID job))] eq_refl) as Hr.
  destruct (reads_parse (Hr ltac:(unfold job_fields; read_fields; apply reads_string)))
    as (j & Hj & raw & ms & -> & Hms).
  rewrite Hj. cbn [decode_struct mbind result_bind].
  split_fields. reflexivity.
Qed.

Definition valid_job (job : Job.t) : bool :=
  valid_utf8 (Job.ExecutionID job) && valid_utf8 (Job.AgentID job) && valid_utf8 (Job.OwnerID job).

Lemma clean_job_valid job : valid_job job = true → clean_job job = job.
Proof.
  unfold valid_job. rewrite !andb_true_iff. intros [[H1 H2] H3]. unfold clean_job.
  rewrite !clean_valid by done. by destruct job.
Qed.

(** ** The queue *)

Module Redis.
Record t (RC : Type) := mk { client : RC; key : string }.
Arguments mk {RC}.
Arguments client {RC}.
Arguments key {RC}.

Section queue.
Context {RC : Type} `{RedisOps RC, RedisView RC}.

Definition NewRedis (client : RC) (key : string) : t RC := mk client key.

Definition Enqueue (ctx : Context) (job : Job.t) (rt : Runtime) (q : t RC)
    : option (option error * time * t RC) :=
  match encode_job job with
  | Err err => Some (Some (Wrap "encode queue job" err), rt_now rt, q)
  | Ok payload =>
      '(err, d, c) ← LPush ctx (key q) payload rt (client q);
      Some ((Wrap "enqueue job" <$> err : option error), d, mk c (key q))
  end.

Definition Dequeue (ctx : Context) (rt : Runtime) (q : t RC)
    : option (result Job.t * time * t RC) :=
  '(values, d, c) ← BRPop ctx (key q) rt (client q);
  Some (match values with
        | Err err => Err (Wrap "dequeue job" err)
        | Ok [_; payload] =>
            match decode_job payload with
            | Err err => Err (Wrap "decode queue job" err)
            | Ok job => Ok job
            end
        | Ok _ => Err (ErrorString "unexpected Redis queue response")
        end, d, mk c (key q)).

#[global] Instance ops : QueueOps (t RC) := {| Queue.Enqueue := Enqueue; Queue.Dequeue := Dequeue |}.

(** The payloads under the key that are jobs, the oldest first. *)
Definition payloads (q : t RC) : list string := reverse (redis_list (client q) (key q)).
Definition job_in (payload : string) : option Job.t :=
  match decode_job payload with Ok job => Some job | Err _ => None end.
#[global] Instance view : QueueView (t RC) :=
  {| waiting q := omap job_in (payloads q); carried := clean_job |}.

Lemma encode_job_Ok job : ∃ p, encode_job job = Ok p ∧ job_in p = Some (clean_job job).
Proof.
  pose proof (encode_decode_job job) as Hd. destruct (encode_job job) as [p|e]; [|done].
  exists p. split; [done|]. unfold job_in. cbn [mbind result_bind] in Hd. by rewrite Hd.
Qed.

(** What an operation does to the payloads. *)
Lemma Enqueue_payloads `{!RedisLaws RC} ctx job rt q r d q' :
  Enqueue ctx job rt q = Some (r, d, q') →
  rt_now rt ≤ d ∧ ∃ p, job_in p = Some (clean_job job) ∧
    ((r ≠ None ∧ payloads q' = payloads q) ∨ payloads q' = payloads q ++ [p]).
Proof.
  unfold Enqueue. destruct (encode_job_Ok job) as (p & Ep & Hp). rewrite Ep.
  destruct (LPush _ _ _ _ _) as [[[err d'] c]|] eqn:E; simpl; [|done]. intros [= <- <- <-].
  split; [by eapply lpush_time|]. exists p. split; [done|]. unfold payloads. simpl.
  destruct err as [e|].
  - destruct (lpush_failed _ _ _ _ _ _ _ _ E) as [-> | ->]; [by left|right]. by rewrite reverse_cons.
  - right. by rewrite (lpush_ok _ _ _ _ _ _ _ E), reverse_cons.
Qed.

Lemma Dequeue_payloads `{!RedisLaws RC} ctx rt q r d q' :
  Dequeue ctx rt q = Some (r, d, q') →
  rt_now rt ≤ d ∧
  match r with
  | Ok job => ∃ p, payloads q = p :: payloads q' ∧ job_in p = Some job
  | Err e => payloads q' = payloads q ∨ ∃ p, payloads q = p :: payloads q'
  end.
Proof.
  unfold Dequeue. destruct (BRPop _ _ _ _) as [[[vs d'] c]|] eqn:E; simpl; [|done].
  intros [= <- <- <-]. split; [by eapply brpop_time|]. unfold payloads. simpl.
  destruct vs as [vs|e].
  - destruct (brpop_ok _ _ _ _ _ _ _ E) as (p & -> & ->). rewrite reverse_app. simpl.
    destruct (decode_job p) as [job|e] eqn:Ej; [|by right; eexists].
    exists p. split; [done|]. unfold job_in. by rewrite Ej.
  - destruct (brpop_failed _ _ _ _ _ _ _ E) as [-> |(p & ->)]; [by left|right].
    rewrite reverse_app. by eexists.
Qed.

(** With a client whose failed commands have no effect, the queue is a queue. *)
#[global] Instance laws `{!RedisLaws RC, !RedisReliable RC} : QueueLaws (t RC).
Proof.
  split; simpl.
  - intros ctx job rt q d q' E.
    destruct (Enqueue_payloads _ _ _ _ _ _ _ E) as (_ & p & Hp & [[? _]|Hq]); [done|].
    rewrite Hq, omap_app. simpl. by rewrite Hp.
  - intros ctx job rt q e d q'. unfold Enqueue. destruct (encode_job job) as [p|e']; simpl.
    + destruct (LPush _ _ _ _ _) as [[[err d'] c]|] eqn:E; simpl; [|done].
      destruct err as [e'|]; [|done]. intros [= _ _ <-]. unfold payloads. simpl.
      by rewrite (lpush_undone _ _ _ _ _ _ _ _ E).
    + by intros [= _ _ <-].
  - intros ctx job rt q r d q' E. by destruct (Enqueue_payloads _ _ _ _ _ _ _ E).
  - intros ctx rt q job d q' E.
    destruct (Dequeue_payloads _ _ _ _ _ _ E) as (_ & p & -> & Hp). simpl. by rewrite Hp.
  - intros ctx rt q e d q' E. unfold Dequeue in E.
    destruct (BRPop _ _ _ _) as [[[vs d'] c]|] eqn:Eb; simpl in E; [|done].
    destruct vs as [vs|e'].
    + destruct (brpop_ok _ _ _ _ _ _ _ Eb) as (p & -> & Hl).
      destruct (decode_job p) as [job|e'] eqn:Ej; [done|]. injection E as _ _ <-.
      unfold payloads. simpl. rewrite Hl, reverse_app. simpl. unfold job_in at 2. by rewrite Ej.
    + injection E as _ _ <-. unfold payloads. simpl. by rewrite (brpop_undone _ _ _ _ _ _ _ Eb).
  - intros ctx rt q r d q' E. by destruct (Dequeue_payloads _ _ _ _ _ _ E).
Qed.
End queue.
End Redis.

(** ** Properties *)

(** C29: What a queued job is when it arrives: every identifier that is valid UTF-8 is
    unchanged, invalid bytes are replaced by U+FFFD; encoding and decoding never fail. *)
Theorem job_roundtrip job :
  (payload ← encode_job job; decode_job payload) = Ok (clean_job job) ∧
  (valid_job job = true → (payload ← encode_job job; decode_job payload) = Ok job).
Proof.
  split; [apply encode_decode_job|]. intros H. by rewrite encode_decode_job, clean_job_valid.
Qed.

Section use.
Context {RC : Type} `{RedisLaws RC}.

(** A use of the queue by any number of goroutines: every operation, and how it ended. *)
Inductive operation : Set :=
| Enqueued (job : Job.t) (err : option error)
| Dequeued (r : result Job.t).

Inductive operated : list operation → Redis.t RC → Redis.t RC → Prop :=
| operated_nil q : operated [] q q
| operated_enqueue l q0 q1 q2 ctx job rt r d :
    operated l q0 q1 → Redis.Enqueue ctx job rt q1 = Some (r, d, q2) →
    operated (l ++ [Enqueued job r]) q0 q2
| operated_dequeue l q0 q1 q2 ctx rt r d :
    operated l q0 q1 → Redis.Dequeue ctx rt q1 = Some (r, d, q2) →
    operated (l ++ [Dequeued r]) q0 q2.

Definition tried (l : list operation) : list Job.t :=
  omap (λ o, match o with Enqueued job _ => Some job | _ => None end) l.
Definition accepted (l : list operation) : list Job.t :=
  omap (λ o, match o with Enqueued job None => Some job | _ => None end) l.
Definition delivered (l : list operation) : list Job.t :=
  omap (λ o, match o with Dequeued (Ok job) => Some job | _ => None end) l.
Definition failed_dequeues (l : list operation) : list error :=
  omap (λ o, match o with Dequeued (Err e) => Some e | _ => None end) l.

(** C30: At most once, in order, also when commands fail without saying whether they took
    effect: the jobs that reached the list ([pushed]) are among those that were tried, in the
    same order, and include every job whose [Enqueue] returned nil; what is delivered is, in
    order, the front of the list up to the jobs lost to a failed [Dequeue], and the rest
    waits. *)
Theorem redis_at_most_once l q q' :
  Redis.payloads q = [] → operated l q q' →
  ∃ pushed popped,
    pushed = popped ++ waiting q' ∧
    pushed `sublist_of` (clean_job <$> tried l) ∧
    (clean_job <$> accepted l) `sublist_of` pushed ∧
    delivered l `sublist_of` popped ∧
    (length popped ≤ length (delivered l) + length (failed_dequeues l))%nat.
Proof.
  intros He Hu.
  enough (∃ pushed popped, pushed = popped ++ waiting q' ∧
    pushed `sublist_of` (clean_job <$> tried l) ∧ (clean_job <$> accepted l) `sublist_of` pushed ∧
    delivered l `sublist_of` popped ∧
    (length popped ≤ length (delivered l) + length (failed_dequeues l))%nat ∧
    Forall (λ p, is_Some (Redis.job_in p)) (Redis.payloads q')) by naive_solver.
  induction Hu as [q|l q0 q1 q2 ctx job rt r d _ IH E|l q0 q1 q2 ctx rt r d _ IH E].
  - exists [], []. simpl. rewrite He. by split_and!.
  - destruct (IH He) as (pushed & popped & -> & Ht & Ha & Hd & Hn & Hf).
    apply Redis.Enqueue_payloads in E as (_ & p & Hp & Hq).
    unfold tried, accepted, delivered, failed_dequeues in *. rewrite !omap_app, !fmap_app.
    simpl. rewrite !app_nil_r. destruct Hq as [[Hr Hq]|Hq]; rewrite Hq in *.
    + destruct r as [e|]; [|done]. simpl. rewrite app_nil_r.
      eexists _, popped. split_and!; [done| |done..]. by apply sublist_inserts_r.
    + eexists _, popped. split_and!; [done| | |done|done|].
      * rewrite omap_app. simpl. rewrite Hp, (assoc_L (++)). by apply sublist_app.
      * rewrite omap_app. simpl. rewrite Hp, (assoc_L (++)).
        destruct r; simpl; [rewrite app_nil_r; by apply sublist_inserts_r|by apply sublist_app].
      * apply Forall_app_2; [done|]. constructor; [by eexists|done].
  - destruct (IH He) as (pushed & popped & -> & Ht & Ha & Hd & Hn & Hf).
    apply Redis.Dequeue_payloads in E as (_ & E).
    unfold tried, accepted, delivered, failed_dequeues in *. rewrite !omap_app, !fmap_app.
    simpl in *. rewrite !app_nil_r. destruct r as [job|e]; simpl; rewrite ?app_nil_r, ?length_app.
    + destruct E as (p & Ep & Hp). rewrite Ep in *. simpl in *. rewrite Hp in *. inv Hf.
      exists (popped ++ job :: omap Redis.job_in (Redis.payloads q2)), (popped ++ [job]).
      rewrite length_app. simpl. split_and!; [by rewrite <-(assoc_L (++))|done|done| |lia|done].
      by apply sublist_app.
    + destruct E as [Ep|(p & Ep)]; rewrite Ep in *; simpl in *.
      * eexists _, popped. split_and!; [done..|lia|done].
      * inv Hf. destruct (Redis.job_in p) as [job|]; [|by destruct H5].
        exists (popped ++ job :: omap Redis.job_in (Redis.payloads q2)), (popped ++ [job]).
        rewrite length_app. simpl.
        split_and!; [by rewrite <-(assoc_L (++))|done|done| |lia|done].
        by apply sublist_inserts_r.
Qed.
End use.

(** ** A server with lists only, which answers at once and never fails *)

Module DemoRedis.
Abbreviation t := (gmap string (list string)).
Definition lpush (_ : Context) (key p : string) (rt : Runtime) (c : t)
    : option (option error * time * t) :=
  Some (None, rt_now rt, <[key := p :: default [] (c !! key)]> c).
Definition brpop (_ : Context) (key : string) (rt : Runtime) (c : t)
    : option (result (list string) * time * t) :=
  p ← last (default [] (c !! key));
  Some (Ok [key; p], rt_now rt, <[key := take (length (default [] (c !! key)) - 1) (default [] (c !! key))]> c).
#[export] Instance ops : RedisOps t := {| LPush := lpush; BRPop := brpop |}.
#[export] Instance view : RedisView t := {| redis_list c key := default [] (c !! key) |}.
#[export] Instance laws : RedisLaws t.
Proof.
  split; simpl; unfold lpush, brpop.
  - intros ctx key p rt c d c' [= _ <-]. by rewrite lookup_insert_eq.
  - by intros ctx key p rt c e d c' [=].
  - intros ctx key p rt c r d c' [= _ <- _]. lia.
  - intros ctx key rt c vs d c'. destruct (last _) as [p|] eqn:El; simpl; [|done].
    intros [= <- _ <-]. exists p. split; [done|]. rewrite lookup_insert_eq. simpl.
    apply last_Some in El as [l ->]. rewrite length_app, Nat.add_sub. by rewrite take_app_length.
  - intros ctx key rt c e d c'. by destruct (last _).
  - intros ctx key rt c r d c'. destruct (last _); simpl; [|done]. intros [= _ <- _]. lia.
Qed.
#[export] Instance reliable : RedisReliable t.
Proof.
  split; simpl; unfold lpush, brpop; [by intros ctx key p rt c e d c' [=]|].
  intros ctx key rt c e d c'. by destruct (last _).
Qed.
End DemoRedis.

Import DemoRedis.

Definition demo_job (i : string) : Job.t := Job.mk i "agent" "owner".

Lemma job_roundtrip_witness :
  valid_job (demo_job "x") = true ∧
  (payload ← encode_job (demo_job "x"); decode_job payload) = Ok (demo_job "x").
Proof. split; [reflexivity|]. apply (proj2 (job_roundtrip (demo_job "x"))). reflexivity. Defined.

Lemma redis_at_most_once_witness :
  let q := Redis.NewRedis (∅ : DemoRedis.t) "agentflow:jobs" in
  let l := [Enqueued (demo_job "x") None; Enqueued (demo_job "y") None; Dequeued (Ok (demo_job "x"))] in
  ∃ q', operated l q q' ∧
  ∃ pushed popped,
    pushed = popped ++ waiting q' ∧
    pushed `sublist_of` (clean_job <$> tried l) ∧
    (clean_job <$> accepted l) `sublist_of` pushed ∧
    delivered l `sublist_of` popped ∧
    (length popped ≤ length (delivered l) + length (failed_dequeues l))%nat.
Proof.
  intros q l. set (rt := mkRuntime 5 0).
  assert (∃ q', operated l q q') as [q' Hu].
  { eexists. eapply (operated_dequeue [Enqueued (demo_job "x") None; Enqueued (demo_job "y") None] _ _ _
      Background rt (Ok (demo_job "x")) 5).
    - eapply (operated_enqueue [Enqueued (demo_job "x") None] _ _ _ Background (demo_job "y") rt None 5).
      + eapply (operated_enqueue [] _ _ _ Background (demo_job "x") rt None 5); [constructor|].
        vm_compute. reflexivity.
      + vm_compute. reflexivity.
    - vm_compute. reflexivity. }
  exists q'. split; [exact Hu|].
  apply (redis_at_most_once l q q'); [reflexivity|exact Hu].
Defined.
