(* ===== verification/Serving.v ===== *)
(** * What requests and workers do to the world they share

    A process that serves the API starts executions ([Service.StartExecution]); a worker takes
    their jobs and runs them ([Worker.consume]).  [serves] says how the world may change while
    such processes act, in terms of a log of their deeds; this file shows that each of them,
    under the interference of all others, does nothing else, and what it logs. *)

From S2P Require Import Prelude GoLang GoString Utf8 GoJson Conc Rely Group Loops Runtime Id Domain Breaker.
From S2P Require Import Retry Store Tool Llm World Engine EngineSpec EngineProof EngineLogs.
From S2P Require Import EngineFacts EngineGroup Queue Service ServiceFacts StartFacts Worker.
Open Scope Z_scope.

(** ** Deeds *)

Inductive deed : Type :=
| Saw (o : Obs)
| Took (job : Job.t)
| Created (x : Execution.t)
| Rewrote (x : Execution.t)
| Posted (job : Job.t).

Definition seen (d : deed) : option Obs := match d with Saw o => Some o | _ => None end.
Definition took (d : deed) : option Job.t := match d with Took job => Some job | _ => None end.
Definition born (d : deed) : option Execution.t := match d with Created x => Some x | _ => None end.
Definition posted (d : deed) : option Job.t := match d with Posted job => Some job | _ => None end.

(** What is written of the execution [id] after its creation, and at its creation. *)
Definition changed (id : string) (d : deed) : option Execution.t :=
  match d with
  | Saw (OUpdate x None) | Rewrote x => if decide (Execution.ID x = id) then Some x else None
  | _ => None
  end.
Definition made (id : string) (d : deed) : option Execution.t :=
  match d with
  | Created x => if decide (Execution.ID x = id) then Some x else None
  | _ => None
  end.

Lemma seen_Saw (tr : list Obs) : omap seen (Saw <$> tr) = tr.
Proof. induction tr as [|o tr IH]; [done|]. csimpl. by rewrite IH. Qed.

(** A projection that sees nothing of what the engine logs. *)
Lemma omap_Saw {B} (f : deed → option B) (tr : list Obs) :
  (∀ o, f (Saw o) = None) → omap f (Saw <$> tr) = [].
Proof. intros Hf. induction tr as [|o tr IH]; [done|]. csimpl. by rewrite Hf. Qed.

Lemma changed_Saw id (tr : list Obs) :
  omap (changed id) (Saw <$> tr) = omap (written (λ i, i) id) tr.
Proof.
  induction tr as [|o tr IH]; [done|]. csimpl. rewrite IH.
  by destruct o as [x []| | | | | | | | |].
Qed.

Lemma made_born id (l : list deed) x : x ∈ omap (made id) l ↔ x ∈ omap born l ∧ Execution.ID x = id.
Proof.
  rewrite !list_elem_of_omap. split.
  - intros (d & Hd & E). destruct d as [| |y| |]; try done. simpl in E. case_decide; [|done].
    injection E as ->. split; [|done]. by exists (Created x).
  - intros [(d & Hd & E) Hid]. destruct d as [| |y| |]; try done. injection E as ->.
    exists (Created x). split; [done|]. simpl. by rewrite decide_True.
Qed.


(** ** How the world may change *)

Section serving.
Context `{Env} {DB SK QU : Type}
  `{StoreAvailable DB, SinkOps SK, QueueLaws QU, Counters, Unicode}.
Abbreviation W := (World DB SK QU).
Implicit Types (w : W) (l : list deed).

Definition queue_move (q q' : QU) : Prop :=
  ∃ ctx rt t, (∃ job r, Enqueue ctx job rt q = Some (r, t, q')) ∨
              ∃ r, Dequeue ctx rt q = Some (r, t, q').

(** A job whose execution and agent are there, for the job's owner ([Worker.runnable]), stays
    so: executions keep their identity and agents stay. *)
Record serves w l w' : Prop := {
  serves_log : w_log w' = w_log w ++ omap seen l;
  serves_tools : w_tools w' = w_tools w;
  serves_queue : waiting (w_queue w) ++ omap posted l = omap took l ++ waiting (w_queue w');
  serves_moves : rtc queue_move (w_queue w) (w_queue w');
  serves_agents : same_agents (w_store w) (w_store w');
  serves_kept i x : stored (w_store w) i = Some x →
    ∃ y, stored (w_store w') i = Some y ∧ same_identity x y;
  serves_stored i :
    stored (w_store w') i =
    match last (omap (changed i) l) with
    | Some x => Some x
    | None => match last (omap (made i) l) with
              | Some x => Some x
              | None => stored (w_store w) i
              end
    end;
  serves_answers x r : Saw (OUpdate x r) ∈ l → r = None;
  serves_new : NoDup (Execution.ID <$> omap born l);
  serves_fresh x : x ∈ omap born l → stored (w_store w) (Execution.ID x) = None;
  serves_born x : x ∈ omap born l →
    ∃ y, stored (w_store w') (Execution.ID x) = Some y ∧ same_identity x y;
  serves_posted job : job ∈ omap posted l → runnable (w_store w') job
}.

Lemma runnable_later s s' job :
  same_agents s s' →
  (∀ i x, stored s i = Some x → ∃ y, stored s' i = Some y ∧ same_identity x y) →
  runnable s job → runnable s' job.
Proof.
  intros Ha Hk [(x & Hx & Hid & Ho) (a & Hag & Hao)].
  destruct (Hk _ _ Hx) as (y & Hy & Hi). split.
  - exists y. split; [done|]. unfold same_identity in Hi. destruct_and!. split; congruence.
  - exists a. by rewrite Ha.
Qed.

(** What is left to show of one change. *)
#[local] Ltac one_change :=
  split; try done; simpl; rewrite ?(right_id_L [] (++)); try done;
    try (by intros ? ?%not_elem_of_nil); try (by intros ? ? ?%not_elem_of_nil);
    try (by intros ? ? [?|?%not_elem_of_nil]%elem_of_cons); try apply NoDup_nil_2.

Lemma serves_same w w' :
  w_log w' = w_log w → w_tools w' = w_tools w → w_queue w' = w_queue w →
  w_store w' = w_store w → serves w [] w'.
Proof.
  destruct w, w'. simpl. intros -> -> -> ->. one_change. intros i x Hx. by exists x.
Qed.

Lemma serves_trans w l1 w1 l2 w2 : serves w l1 w1 → serves w1 l2 w2 → serves w (l1 ++ l2) w2.
Proof.
  intros [El Et Eq Em Ea Ek Es Er En Ef Eb Ej] [Fl Ft Fq Fm Fa Fk Fs Fr Fn Ff Fb Fj].
  split; rewrite ?omap_app.
  - by rewrite Fl, El, (assoc_L (++)).
  - by rewrite Ft.
  - by rewrite (assoc_L (++)), Eq, <-!(assoc_L (++)), Fq.
  - by etrans.
  - intros i. by rewrite Fa.
  - intros i x Hx. destruct (Ek i x Hx) as (y & Hy & Hi). destruct (Fk i y Hy) as (z & Hz & Hj).
    exists z. split; [done|by etrans].
  - intros i. rewrite Fs, !omap_app, !last_app. destruct (last (omap (changed i) l2)) as [x|]; [done|].
    destruct (last (omap (made i) l2)) as [x|] eqn:Hm; [|by rewrite Es].
    (* created by the second part, so the first has written nothing of it *)
    apply last_Some_elem_of, made_born in Hm as [Hx <-]. specialize (Ff x Hx). rewrite Es in Ff.
    by destruct (last (omap (changed (Execution.ID x)) l1)).
  - intros x r [Hx|Hx]%elem_of_app; [by eapply Er|by eapply Fr].
  - rewrite fmap_app. apply NoDup_app. split_and!; [done| |done].
    intros i (x & -> & Hx)%list_elem_of_fmap (y & Hid & Hy)%list_elem_of_fmap.
    destruct (Eb x Hx) as (z & Hz & _). rewrite Hid, (Ff y Hy) in Hz. done.
  - intros x [Hx|Hx]%elem_of_app; [by apply Ef|]. specialize (Ff x Hx).
    destruct (stored (w_store w) (Execution.ID x)) as [y|] eqn:Hy; [|done].
    destruct (Ek _ _ Hy) as (z & Hz & _). congruence.
  - intros x [Hx|Hx]%elem_of_app; [|by apply Fb]. destruct (Eb x Hx) as (y & Hy & Hi).
    destruct (Fk _ _ Hy) as (z & Hz & Hj). exists z. split; [done|by etrans].
  - intros job [Hj|Hj]%elem_of_app; [|by apply Fj]. by eapply runnable_later, Ej.
Qed.

#[export] Instance serves_labelled : Labelled serves (λ _, True).
Proof. split; [intros w; by apply serves_same|exact serves_trans|done]. Qed.

(** An assertion that no change breaks. *)
Lemma labelled_when (I : W → Prop) : (∀ w l w', serves w l w' → I w → I w') → Labelled serves I.
Proof. intros HI. destruct serves_labelled as [Hn Ha _]. split; [exact Hn|exact Ha|exact HI]. Qed.

Lemma serves_holds w l w' x : serves w l w' → holds x w → holds x w'.
Proof.
  intros Hs (y & Hy & Hi). destruct (serves_kept _ _ _ Hs _ _ Hy) as (z & Hz & Hj).
  exists z. split; [done|by etrans].
Qed.

Lemma serves_runnable w l w' job :
  serves w l w' → runnable (w_store w) job → runnable (w_store w') job.
Proof. intros Hs. eapply runnable_later; [by apply (serves_agents _ _ _ Hs)|by apply (serves_kept _ _ _ Hs)]. Qed.

#[export] Instance holds_labelled x : Labelled serves (holds x).
Proof. apply labelled_when. intros w l w'. apply serves_holds. Qed.
#[export] Instance runnable_labelled job : Labelled serves (λ w, runnable (w_store w) job).
Proof. apply labelled_when. intros w l w'. apply serves_runnable. Qed.

(** *** Single changes *)

(** What a run of an execution that is stored does. *)
Lemma serves_runs x w tr w' : holds x w → reached [x] w tr w' → serves w (Saw <$> tr) w'.
Proof.
  intros Hh Hr.
  assert (∀ z r, OUpdate z r ∈ tr → same_identity x z ∧ r = None) as Hup.
  { intros z r Hz. pose proof (reached_answers _ _ _ _ Hr) as Ha. rewrite Forall_forall in Ha.
    destruct (Ha _ Hz) as [(x0 & ->%list_elem_of_singleton & Hi) (c & s & <- & Hs)].
    split; [done|]. apply update_succeeds. rewrite <-(proj1 Hi).
    apply Hs; [apply list_elem_of_here|done]. }
  assert (∀ i, stored (w_store w') i =
    match last (omap (changed i) (Saw <$> tr)) with Some z => Some z | None => stored (w_store w) i end)
    as Hst.
  { intros i. rewrite (reached_stored _ _ _ _ Hr) by (by intros y ->%list_elem_of_singleton).
    unfold stored_after. rewrite last_update_written, changed_Saw.
    assert (omap (written (key DB) i) tr = omap (written (λ i, i) i) tr) as ->.
    { apply list_omap_ext, Forall_Forall2_diag, Forall_true.
      intros [y []| | | | | | | | |]; simpl; rewrite ?key_exact; done. }
    by destruct (last _) as [z|]; [rewrite kept_exact|]. }
  split; rewrite ?(omap_Saw posted), ?(omap_Saw took), ?(omap_Saw born), ?seen_Saw by done; try done.
  - by apply reached_log in Hr.
  - by apply reached_tools in Hr.
  - by rewrite (reached_queue _ _ _ _ Hr), app_nil_r.
  - by rewrite (reached_queue _ _ _ _ Hr).
  - by apply reached_agents in Hr.
  - intros i y Hy. rewrite Hst. destruct (last _) as [z|] eqn:Hl; [|by exists y].
    exists z. split; [done|]. apply last_Some_elem_of, list_elem_of_omap in Hl as (d & Hd & Hc).
    apply list_elem_of_fmap in Hd as (o & -> & Ho). destruct o as [u []| | | | | | | | |]; try done.
    simpl in Hc. case_decide as Hid; [|done]. injection Hc as ->.
    destruct (Hup _ _ Ho) as [Hi _]. destruct Hh as (v & Hv & Hxv). rewrite kept_exact in Hxv.
    rewrite (proj1 Hi), Hid, Hy in Hv. injection Hv as ->. by rewrite <-Hxv.
  - intros i. rewrite Hst, (omap_Saw (made i)) by done. done.
  - intros z r (o & [= <-] & Ho)%list_elem_of_fmap. by destruct (Hup _ _ Ho).
  - constructor.
  - by intros y ?%not_elem_of_nil.
  - by intros y ?%not_elem_of_nil.
  - by intros y ?%not_elem_of_nil.
Qed.

(** A change of the store that leaves executions and agents as they are. *)
Lemma serves_talk s w :
  same_agents (w_store w) s → same_stored (w_store w) s → serves w [] (set_store s w).
Proof. intros Ha Hs. one_change. intros i x Hx. exists x. by rewrite Hs. Qed.

(** A job is taken from the queue. *)
Lemma serves_take ctx rt job t q w :
  Dequeue ctx rt (w_queue w) = Some (Ok job, t, q) →
  serves w [Took job] (set_now t (set_queue q w)).
Proof.
  intros Hd. one_change.
  - by apply dequeue_ok in Hd.
  - apply rtc_once. exists ctx, rt, t. right. by eexists.
  - intros i x Hx. by exists x.
Qed.

(** A call of the queue that fails. *)
Lemma serves_fail w q t :
  queue_move (w_queue w) q → waiting q = waiting (w_queue w) →
  serves w [] (set_now t (set_queue q w)).
Proof.
  intros Hm Hq. one_change; [by apply rtc_once|]. intros i x Hx. by exists x.
Qed.

(** A job that can be run is sent. *)
Lemma serves_send ctx rt job t q w :
  Enqueue ctx job rt (w_queue w) = Some (None, t, q) → carried job = job →
  runnable (w_store w) job → serves w [Posted job] (set_now t (set_queue q w)).
Proof.
  intros He Hc Hr. one_change.
  - by rewrite (enqueue_ok _ _ _ _ _ _ He), Hc.
  - apply rtc_once. exists ctx, rt, t. left. by exists job, None.
  - intros i x Hx. by exists x.
  - by intros j ->%list_elem_of_singleton.
Qed.

(** A store of the same agents in which [x] has been created, or written. *)
Lemma serves_create x s w :
  same_agents (w_store w) s → stored (w_store w) (Execution.ID x) = None →
  (∀ i, stored s i = if decide (i = Execution.ID x) then Some x else stored (w_store w) i) →
  serves w [Created x] (set_store s w).
Proof.
  intros Ha Hn Hs. one_change.
  - intros i y Hy. exists y. rewrite Hs, decide_False by congruence. done.
  - intros i. rewrite Hs. repeat case_decide; done || congruence.
  - csimpl. apply NoDup_singleton.
  - by intros y ->%list_elem_of_singleton.
  - intros y ->%list_elem_of_singleton. exists x. by rewrite Hs, decide_True.
Qed.

Lemma serves_rewrite x s w :
  same_agents (w_store w) s → holds x w →
  (∀ i, stored s i = if decide (i = Execution.ID x) then Some x else stored (w_store w) i) →
  serves w [Rewrote x] (set_store s w).
Proof.
  intros Ha (y & Hy & Hi) Hs. rewrite kept_exact in Hi. one_change.
  - intros i z Hz. rewrite Hs. case_decide as Hid; [|by exists z].
    exists x. split; [done|]. subst i. rewrite Hy in Hz. by injection Hz as <-.
  - intros i. rewrite Hs. repeat case_decide; done || congruence.
Qed.

(** ** What may be assumed while others act *)

Context (w0 : W).

Record steady w : Prop := {
  steady_tools : w_tools w = w_tools w0;
  steady_agents : same_agents (w_store w0) (w_store w);
  steady_jobs job : job ∈ waiting (w_queue w) → runnable (w_store w) job;
  steady_moves : rtc queue_move (w_queue w0) (w_queue w)
}.

#[export] Instance steady_labelled : Labelled serves steady.
Proof.
  apply labelled_when. intros w l w' Hs [St Sa Sj Sm]. split.
  - by rewrite (serves_tools _ _ _ Hs).
  - intros i. by rewrite (serves_agents _ _ _ Hs), Sa.
  - intros job Hj. assert (job ∈ waiting (w_queue w) ++ omap posted l) as Hq.
    { rewrite (serves_queue _ _ _ Hs). by apply elem_of_app; right. }
    apply elem_of_app in Hq as [Hq|Hq]; [by eapply serves_runnable, Sj|by apply (serves_posted _ _ _ Hs)].
  - etrans; [exact Sm|by apply (serves_moves _ _ _ Hs)].
Qed.

(** *** The rules *)

(** What a process does of which only some deeds are expected. *)
Definition performs (may : deed → Prop) w l w' : Prop := serves w l w' ∧ Forall may l.

#[export] Instance performs_guarantee may : Guarantee serves (performs may).
Proof.
  split; [by intros w e w' [? _]|by split; [apply serves_same|constructor]|].
  intros w e w1 e' w2 [Hs Hf] [Hs' Hf']. split; [by eapply serves_trans|by apply Forall_app_2].
Qed.

Abbreviation does may := (rspec (R := result ChatMessage.t) serves (performs may)).

Section rules.
Context {A : Type} (may : deed → Prop) (B : list deed → W → Prop) (I : W → Prop) `{!Labelled serves I}.
Abbreviation P := (proc W (result ChatMessage.t)).
Implicit Types (Q : A → list deed → Prop) (acc : list deed).

Lemma serves_later w l w' : serves (advance w) l w' → serves w l w'.
Proof. intros Hs. apply (serves_trans w [] (advance w)); [by apply serves_same|done]. Qed.

(** After an action that shows that [J] holds, the process may go on with [J]. *)
Lemma does_act {X} (f : Runtime → W → X * W) (k : X → P A) acc Q :
  (∀ rt w, I (advance w) → ∃ e J, performs may (advance w) e (f rt (advance w)).2 ∧
     Labelled serves J ∧ (∀ v, J v → I v) ∧ J (f rt (advance w)).2 ∧
     does may B (k (f rt (advance w)).1) J (acc ++ e) Q) →
  does may B (lift (atomic f) ≫= k) I acc Q.
Proof.
  intros Hf w Hw. assert (I (advance w)) as Ha.
  { eapply (label_keeps w [] (advance w)); [by apply serves_same|done]. }
  destruct (Hf (get_rt (advance w)) w Ha) as (e & J & [He Hmay] & HL & Hm & HJ & Hk).
  destruct (f _ (advance w)) as [x w']. exists e, J.
  split_and!; [split; [by apply serves_later|done]|by split|exact Hk].
Qed.

(** A read: nothing changes, but what is read may say more about the world. *)
Lemma does_read {X} (f : Call → DB → X) ctx (k : X → P A) acc Q :
  (∀ c w, I w → ∃ J, Labelled serves J ∧ (∀ v, J v → I v) ∧ J w ∧
     does may B (k (f c (w_store w))) J acc Q) →
  does may B (lift (Service.store_read ctx f) ≫= k) I acc Q.
Proof.
  intros Hf. apply does_act. intros rt w Hw.
  destruct (Hf (call_at ctx rt) (advance w) Hw) as (J & HL & Hm & HJ & Hk).
  exists [], J. rewrite app_nil_r. split_and!; [by apply guarantee_nil|done..].
Qed.

(** An instant or a random value. *)
Lemma does_pure {X} (f : Runtime → W → X) (k : X → P A) acc Q :
  (∀ x, does may B (k x) I acc Q) → does may B (lift (atomic (λ rt w, (f rt w, w))) ≫= k) I acc Q.
Proof.
  intros Hk. apply does_act. intros rt w Hw. exists [], I. rewrite app_nil_r.
  split_and!; [by apply guarantee_nil|done..|apply Hk].
Qed.

(** The same rules for code that forks nothing. *)
Lemma lift_atomic {X} (f : Runtime → W → X * W) (k : X → prog W A) :
  lift (atomic f ≫= k) = lift (atomic f) ≫= λ x, lift (k x) :> P A.
Proof. done. Qed.

Lemma atomic_assoc {X Y} (f : Runtime → W → X * W) (g : X → prog W Y) (k : Y → prog W A) :
  (atomic f ≫= g) ≫= k = atomic f ≫= λ x, g x ≫= k.
Proof. done. Qed.

(** A new identifier is made of hexadecimal digits. *)
Lemma lifted_New (k : result string → prog W A) acc Q :
  (∀ r, match r with Ok i => valid_utf8 i = true | Err _ => True end → does may B (lift (k r)) I acc Q) →
  does may B (lift (Id.New ≫= k)) I acc Q.
Proof.
  intros Hk. unfold Id.New, ReadRandom. rewrite atomic_assoc, lift_atomic.
  apply does_act. intros rt w Hw. exists [], I. rewrite app_nil_r.
  split_and!; [by apply guarantee_nil|done..|]. cbn [fst snd].
  destruct (entropy_error (rt_tick rt)) as [e|]; apply Hk; [done|].
  apply hex_valid, Id.stamp_range; [apply random_bytes_range|apply random_bytes_length].
Qed.
End rules.

(** ** A worker *)

Section worker.
Context (engine : Engine.t) (ctx : Context).
Context (Hattempts : 1 ≤ RetryPolicy.MaxAttempts (Engine.retryPolicy engine))
        (Hsane : Engine.metrics engine = true → sane_provider (Engine.provider engine)).

(** A queue that hands out jobs while there are any, and then lets the workers wait. *)
Definition patient : Prop :=
  ∀ q, rtc queue_move (w_queue w0) q → ∀ rt,
    (∀ job rest, waiting q = job :: rest → ∃ t q', Dequeue ctx rt q = Some (Ok job, t, q')) ∧
    (waiting q = [] → Dequeue ctx rt q = None).

(** A run for a job, and the deeds of a worker that takes and runs it. *)
Definition served (job : Job.t) (tr : list Obs) : Prop :=
  ∃ x a out, Execution.ID x = Job.ExecutionID job ∧ Execution.OwnerID x = Job.OwnerID job ∧
    agents_of (w_store w0) (Job.AgentID job) = Some a ∧ Agent.OwnerID a = Job.OwnerID job ∧
    execute_run engine a (Registry.Definitions (Agent.Tools a) (w_tools w0)) x out tr.
Definition deeds (run : Job.t * list Obs) : list deed := Took run.1 :: (Saw <$> run.2).

Definition worked (runs : list (Job.t * list Obs)) l : Prop :=
  l = concat (deeds <$> runs) ∧ Forall (λ run, served run.1 run.2) runs.

Lemma worked_nil : worked [] [].
Proof. by split. Qed.

Lemma worked_snoc runs l job tr :
  worked runs l → served job tr →
  worked (runs ++ [(job, tr)]) ((l ++ [Took job]) ++ (Saw <$> tr)).
Proof.
  intros [-> HF] Hs. split; [|by apply Forall_app_2; [|apply Forall_singleton]].
  rewrite fmap_app, concat_app, <-(assoc_L (++)). f_equal. csimpl. by rewrite app_nil_r.
Qed.

(** A worker sends no jobs. *)
Definition unsent (d : deed) : Prop := posted d = None.
Abbreviation works := (does unsent).

(** Where it has nothing to do, a worker waits. *)
Definition idle l w : Prop :=
  (∃ runs, worked runs l) ∧ (patient → waiting (w_queue w) = []).

Lemma does_dequeue {A} acc runs (k : result Job.t → proc W (result ChatMessage.t) A) Q :
  worked runs acc →
  (∀ job, works idle (k (Ok job)) (λ w, steady w ∧ runnable (w_store w) job) (acc ++ [Took job]) Q) →
  (∀ err, ¬ patient → works idle (k (Err err)) steady acc Q) →
  works idle (lift (dequeue ctx) ≫= k) steady acc Q.
Proof.
  intros Hw Hok Herr w Hst. pose proof (steady_moves _ Hst) as Hm.
  unfold dequeue, atomic_block. cbn [lift mbind proc_bind].
  change (w_queue (advance w)) with (w_queue w). generalize (get_rt (advance w)). intros rt.
  destruct (Dequeue ctx rt (w_queue w)) as [[[r t] q']|] eqn:E; cbn [mbind option_bind].
  2: { split; [by eexists|]. intros Hp. destruct (Hp _ Hm rt) as [Hg _].
       destruct (waiting (w_queue w)) as [|job rest]; [done|].
       destruct (Hg job rest eq_refl) as (t & q' & E'). congruence. }
  destruct r as [job|err].
  - pose proof (serves_take ctx rt job t q' (advance w) E) as Hs. apply serves_later in Hs.
    exists [Took job], (λ w, steady w ∧ runnable (w_store w) job). split_and!; [by split; [|constructor]| |apply Hok].
    split; [apply _| |by intros v [? _]]. split; [by eapply label_keeps|].
    eapply serves_runnable; [exact Hs|]. apply (steady_jobs _ Hst).
    rewrite (dequeue_ok _ _ _ _ _ _ E). apply list_elem_of_here.
  - assert (serves w [] (set_now t (set_queue q' (advance w)))) as Hs.
    { apply serves_later, serves_fail; [exists ctx, rt, t; right; by eexists|].
      by apply dequeue_failed in E. }
    exists [], steady. rewrite app_nil_r. split_and!; [by split|eapply learned_nothing; [apply _|exact Hst|exact Hs]|].
    apply Herr. intros Hp. destruct (Hp _ Hm rt) as [Hg Hn].
    destruct (waiting (w_queue w)) as [|job rest]; [by rewrite Hn in E|].
    destruct (Hg job rest eq_refl) as (t' & q'' & E'). congruence.
Qed.

(** One iteration takes a job that can be run, and runs it; or it finds that it cannot take
    one. *)
Lemma does_consume_once runs acc (Q : bool → list deed → Prop) :
  worked runs acc →
  (∀ more runs' acc', worked runs' acc' → (patient → more = true ∧ length runs' = S (length runs)) →
     Q more acc') →
  works idle (Worker.consume_once engine ctx) steady acc Q.
Proof.
  intros Hw HQ. unfold Worker.consume_once. apply (does_dequeue _ runs); [done| |].
  2: { intros err Hn. by apply (HQ _ runs). }
  intros job. unfold Service.GetExecution. apply does_read; [apply _|]. intros c w [Hst Hr].
  pose proof Hr as [(x & Hx & Hid & Hxo) _]. rewrite (get_execution_ok _ _ _ _ _ Hx Hxo).
  pose (J := λ v, (steady v ∧ runnable (w_store v) job) ∧ holds x v).
  assert (Labelled serves J) as HL by (unfold J; apply _).
  assert (holds x w) as Hhx by (exists x; by rewrite Hid, kept_exact).
  exists J. split_and!; [exact HL|by intros v [? _]|exact (conj (conj Hst Hr) Hhx)|].
  unfold Service.GetAgent. apply does_read; [exact HL|]. intros c' w' HJw.
  pose proof HJw as [[Hst' [_ (a & Ha & Hao)]] _]. rewrite (get_agent_ok _ _ _ _ _ Ha Hao).
  exists J. split_and!; [exact HL|done|exact HJw|]. apply rspec_bind; [apply _|exact HL|].
  eapply (rspec_sub _ _ _ (λ _ _, False)); [| |done].
  - apply (pspec_embed (reached [x]) serves (performs unsent) (λ v, w_tools v = w_tools w0) J Saw) with (acc := []).
    + intros v [[? _] _]. by apply steady_tools.
    + intros v e v' [_ Hv] Hr'. split; [by apply (serves_runs x)|]. by apply Forall_fmap, Forall_true.
    + apply Execute_logs; [apply told_apart_one|done|done|apply known_one].
  - intros out l (tr & -> & Hrun). apply (HQ true (runs ++ [(job, tr)])).
    + apply worked_snoc; [done|]. exists x, a, out. split_and!; try done.
      by rewrite <-(steady_agents _ Hst').
    + intros _. split; [done|]. rewrite length_app. simpl. lia.
Qed.

(** What is asked of the loop [Worker.consume]: it sends no jobs, waits where it has nothing to do,
    and has run a job in every iteration, if the queue is patient; then it does not return. *)
Definition consuming : loop_contract (W := W) (O := deed) := {|
  loop_acts := performs unsent;
  loop_waits := idle;
  loop_heads n l := ∃ runs, worked runs l ∧ (patient → length runs = n);
  loop_returns l := (∃ runs, worked runs l) ∧ ¬ patient
|}.

Lemma does_consume {A} w :
  steady w → kept_task (A := A) serves w (Worker.consume engine ctx) [] (inr consuming).
Proof.
  intros Hst. split; [apply _|]. apply (kept_loop_start _ steady); [apply _|done| |].
  { exists []. by split; [apply worked_nil|]. }
  intros n l (runs & Hw & Hn). apply (does_consume_once runs); [done|]. intros more runs' l' Hw' Hp.
  destruct more.
  - exists runs'. split; [done|]. intros Hpt. rewrite <-(Hn Hpt). by apply Hp.
  - split; [by exists runs'|]. intros Hpt. by destruct (Hp Hpt).
Qed.
End worker.
End serving.
