(* ===== verification/Requests.v ===== *)
(** * Requests to start executions, while others act

    What [Service.StartExecution] does to the world it shares with workers and other requests,
    and what it answers: whatever the others do, it creates at most one execution, and either
    sends its job or marks it as failed. *)

From S2P Require Import Prelude GoLang GoString Utf8 GoJson Conc Rely Group Loops Runtime Id Domain Breaker.
From S2P Require Import Retry Store Tool Llm World Engine EngineSpec Queue Service ServiceFacts.
From S2P Require Import StartFacts Worker Serving.
Open Scope Z_scope.

(** A call of [StartExecution]. *)
Module Ask.
Record t : Type := mk {
  ctx : Context; owner : string; agentID : string; input : ExecutionInput.t
}.
End Ask.
Abbreviation answer := (option Execution.t * bool * option error)%type.

(** A new execution of this request. *)
Definition of_ask (r : Ask.t) (x : Execution.t) : Prop :=
  Execution.OwnerID x = Ask.owner r ∧ Execution.AgentID x = Ask.agentID r ∧
  Execution.Input x = ExecutionInput.Input (Ask.input r) ∧
  Execution.IdempotencyKey x = ExecutionInput.IdempotencyKey (Ask.input r) ∧
  Execution.Status x = ExecutionQueued ∧ valid_utf8 (Execution.ID x) = true.

(** The queue carries the jobs of this request unchanged: a queue of JSON texts does if the
    agent and the owner are valid UTF-8, since new identifiers are ASCII. *)
Definition carries `{QueueView QU} (r : Ask.t) : Prop :=
  ∀ job : Job.t, valid_utf8 (Job.ExecutionID job) = true → Job.AgentID job = Ask.agentID r →
    Job.OwnerID job = Ask.owner r → carried (QU := QU) job = job.

(** What a request that was answered has done. *)
Definition answered_with (r : Ask.t) (out : answer) (l : list deed) : Prop :=
  match out with
  | (Some x, false, None) => of_ask r x ∧ l = [Created x; Posted (job_of x)]
  | (Some y, false, Some _) =>
      ∃ x, of_ask r x ∧ l = [Created x; Rewrote y] ∧ same_identity x y ∧
           Execution.Status y = ExecutionFailed
  | (Some _, true, None) => l = []
  | (None, false, Some _) => l = []
  | _ => False
  end.

Section requests.
Context `{Env} {DB SK QU : Type}
  `{StoreAvailable DB, SinkOps SK, QueueLaws QU, Counters, Unicode}.
Abbreviation W := (World DB SK QU).
Implicit Types (w : W) (l acc : list deed).
Context (w0 : W) (r : Ask.t).
Context (Hcarried : carries (QU := QU) r).
Context (Hids : ∀ i a, agents_of (w_store w0) i = Some a → Agent.ID a = i).
Abbreviation ctx := (Ask.ctx r).

(** A queue that takes a job whenever it is empty. *)
Definition roomy : Prop :=
  ∀ q, rtc queue_move (w_queue w0) q → waiting q = [] → ∀ job rt, is_Some (Enqueue ctx job rt q).

(** A request may have to wait until there is room for its job. *)
Definition pending l w : Prop :=
  (∃ x, of_ask r x ∧ l = [Created x]) ∧ (roomy → waiting (w_queue w) ≠ []).

(** Any deed may be one of a request. *)
Definition any (d : deed) : Prop := True.
Abbreviation does := (rspec (R := result ChatMessage.t) serves (performs any) pending).
Abbreviation P := (proc W (result ChatMessage.t)).

Lemma any_deeds w l w' : serves w l w' → performs any w l w'.
Proof. intros Hs. split; [done|by apply Forall_forall]. Qed.
Abbreviation steady := (steady w0).

(** A write of the store. *)
Lemma does_write {A} (f : Call → DB → option error * DB) (k : option error → prog W A)
    (I : W → Prop) acc (Q : A → list deed → Prop) `{!Labelled serves I} :
  (∀ c w, I w → ∃ e J, serves w e (set_store (f c (w_store w)).2 w) ∧ Labelled serves J ∧
     (∀ v, J v → I v) ∧ J (set_store (f c (w_store w)).2 w) ∧
     does (lift (k (f c (w_store w)).1) : P A) J (acc ++ e) Q) →
  does (lift (Service.store_write ctx f ≫= k) : P A) I acc Q.
Proof.
  intros Hf. unfold Service.store_write. rewrite lift_atomic. apply does_act; [done|].
  intros rt w Hw. destruct (Hf (call_at ctx rt) (advance w) Hw) as (e & J & He & HL & Hm & HJ & Hk).
  apply any_deeds in He. destruct (f (call_at ctx rt) (w_store (advance w))) as [err s]. by exists e, J.
Qed.

Lemma does_enqueue {A} x (k : option error → prog W A) acc (Q : A → list deed → Prop) :
  of_ask r x → acc = [Created x] →
  does (lift (k None) : P A) (λ w, steady w ∧ holds x w) (acc ++ [Posted (job_of x)]) Q →
  (∀ e, does (lift (k (Some e)) : P A) (λ w, steady w ∧ holds x w) acc Q) →
  (∀ w, steady w → holds x w → runnable (w_store w) (job_of x)) →
  does (lift (enqueue ctx (job_of x) ≫= k) : P A) (λ w, steady w ∧ holds x w) acc Q.
Proof.
  intros Hx Hacc Hok Herr Hr w [Hst Hh]. pose proof (steady_moves _ _ Hst) as Hm.
  unfold enqueue, atomic_block. cbn [lift mbind prog_bind].
  change (w_queue (advance w)) with (w_queue w). generalize (get_rt (advance w)). intros rt.
  destruct (Enqueue ctx (job_of x) rt (w_queue w)) as [[[[e|] t] q']|] eqn:E; cbn [mbind option_bind].
  - assert (serves w [] (set_now t (set_queue q' (advance w)))) as Hs.
    { apply serves_later, serves_fail; [exists ctx, rt, t; left; by eexists _, _|].
      by apply enqueue_failed in E. }
    exists [], (λ w, steady w ∧ holds x w). rewrite app_nil_r.
    split_and!; [exact (any_deeds _ _ _ Hs)|eapply learned_nothing; [apply _|done|exact Hs]|apply Herr].
  - assert (serves w [Posted (job_of x)] (set_now t (set_queue q' (advance w)))) as Hs.
    { apply serves_later. apply (serves_send ctx rt _ t q' (advance w));
        [exact E|by apply Hcarried; apply Hx|exact (Hr w Hst Hh)]. }
    exists [Posted (job_of x)], (λ w, steady w ∧ holds x w).
    split_and!; [exact (any_deeds _ _ _ Hs)|eapply learned_nothing; [apply _|done|exact Hs]|exact Hok].
  - split; [by exists x|]. intros Hp Hq. destruct (Hp _ Hm Hq (job_of x) rt). congruence.
Qed.

Lemma runnable_job x a w :
  of_ask r x → agents_of (w_store w0) (Ask.agentID r) = Some a → Agent.OwnerID a = Ask.owner r →
  steady w → holds x w → runnable (w_store w) (job_of x).
Proof.
  intros (Ho & Hai & _) Ha Hao Hst (y & Hy & Hi). rewrite kept_exact in Hi.
  unfold same_identity in Hi. destruct_and!. split.
  - exists y. split; [done|]. simpl. split; congruence.
  - exists a. simpl. rewrite (steady_agents _ _ Hst), Hai, Ho. done.
Qed.

Lemma does_dispatch x a :
  of_ask r x → agents_of (w_store w0) (Ask.agentID r) = Some a → Agent.OwnerID a = Ask.owner r →
  does (lift (Service.dispatch ctx x) : P answer) steady [] (answered_with r).
Proof.
  intros Hx Ha Hao. unfold Service.dispatch. apply does_write; [apply _|]. intros c w Hst.
  destruct (CreateExecution c x (w_store w)).1 as [e|] eqn:E.
  { rewrite (create_failed _ _ _ _ E). exists [], steady.
    split_and!; [by apply serves_same|apply _|done|by destruct Hst|done]. }
  destruct (create_stored c x (w_store w) E) as [Hn Hi].
  destruct (create_frame c x (w_store w)) as (Fa & _).
  set (s := (CreateExecution c x (w_store w)).2) in *.
  assert (∀ i, stored s i = if decide (i = Execution.ID x) then Some x else stored (w_store w) i) as Hs.
  { intros i. rewrite Hi, !key_exact, kept_exact. done. }
  pose proof (serves_create x s w Fa Hn Hs) as Hc.
  exists [Created x], (λ v, steady v ∧ holds x v).
  assert (steady (set_store s w)) as Hst' by (by eapply (label_keeps (I := steady)), Hst).
  assert (holds x (set_store s w)) as Hh.
  { exists x. rewrite kept_exact. simpl. by rewrite Hs, decide_True. }
  split_and!; [exact Hc|apply _|by intros v [? _]|exact Hst'|exact Hh|].
  apply (does_enqueue x); [done|done|by simpl| |by intros v; apply runnable_job with (a := a)].
  intros e. unfold Now. rewrite lift_atomic. apply does_pure; [apply _|]. intros now. cbv zeta.
  set (y := Execution.set_CompletedAt _ _). assert (same_identity x y) as Hxy by done.
  apply does_write; [apply _|]. intros c' v [Hv (z & Hz & Hxz)]. rewrite kept_exact in Hxz.
  assert ((UpdateExecution c' y (w_store v)).1 = None) as Eu by (apply update_succeeds; by exists z).
  destruct (update_frame c' y (w_store v)) as (Ga & _).
  assert (serves v [Rewrote y] (set_store (UpdateExecution c' y (w_store v)).2 v)) as Hr.
  { apply serves_rewrite; [exact Ga|by exists z; rewrite kept_exact|]. intros i. case_decide as Hid.
    - rewrite (update_stored c' y z (w_store v) i); rewrite ?kept_exact; done || congruence.
    - apply update_other. rewrite !key_exact. congruence. }
  exists [Rewrote y], (λ v, steady v ∧ holds x v). split_and!; [exact Hr|apply _|done| | |].
  - by eapply (label_keeps (I := steady)), Hv.
  - eapply serves_holds; [exact Hr|]. exists z. by rewrite kept_exact.
  - by exists x.
Qed.

(** A new conversation is nothing that workers or other requests look at. *)
Lemma does_resolve acc (Q : result string → list deed → Prop) :
  (∀ v, Q v acc) →
  does (lift (Service.resolve_conversation ctx (Ask.owner r) (Ask.agentID r) (Ask.input r)) : P _)
    steady acc Q.
Proof.
  intros HQ. unfold Service.resolve_conversation. case_decide.
  2: { unfold Service.store_read. rewrite lift_atomic. apply does_pure; [apply _|]. intros v. apply HQ. }
  apply lifted_New; [apply _|]. intros [id|e] _; [|apply HQ].
  unfold Now. rewrite lift_atomic. apply does_pure; [apply _|]. intros now. cbv zeta.
  set (v := Conversation.mk _ _ _ _ _ _). apply does_write; [apply _|]. intros c w Hst.
  destruct (conversation_frame c v (w_store w)) as (Fa & Fs & _).
  assert (serves w [] (set_store (CreateConversation c v (w_store w)).2 w)) as Hs.
  { by apply serves_talk. }
  exists [], steady. rewrite app_nil_r.
  split_and!; [exact Hs|apply _|done|by eapply (label_keeps (I := steady)), Hst|].
  apply HQ.
Qed.

Lemma does_create_execution :
  does (lift (Service.create_execution ctx (Ask.owner r) (Ask.agentID r) (Ask.input r)) : P answer)
    steady [] (answered_with r).
Proof.
  unfold Service.create_execution, Service.store_read. rewrite lift_atomic.
  apply does_act; [apply _|]. intros rt w Hw. cbn [fst snd].
  set (v := advance w) in *. exists [], steady.
  split_and!; [apply guarantee_nil|apply _|done|done|].
  destruct (GetAgent _ _ _ _) as [a|e] eqn:Hg; [|done].
  apply get_agent in Hg as [Ha Hao]. rewrite key_exact in Hao. rewrite (steady_agents _ _ Hw) in Ha.
  apply rspec_lift_bind; [apply _|apply _|]. apply does_resolve. intros [conversation|e]; [|done].
  apply lifted_New; [apply _|]. intros [executionID|e] Hv; [|done].
  assert (∀ rid, does (lift (match rid with
                    | Err err => mret (None, false, Some err)
                    | Ok requestID =>
                        now ← Now;
                        Service.dispatch ctx
                          (Execution.mk executionID requestID
                             (ExecutionInput.IdempotencyKey (Ask.input r)) (Agent.ID a) (Ask.owner r)
                             conversation (ExecutionInput.Input (Ask.input r)) "" ExecutionQueued
                             (Agent.Model a) 0 0 "" 0 None None now)
                    end) : P answer) steady [] (answered_with r)) as Hrest.
  { intros [requestID|e]; [|done]. unfold Now. rewrite lift_atomic. apply does_pure; [apply _|].
    intros now. apply (does_dispatch _ a); [|done|done]. split_and!; try done. simpl. by eapply Hids. }
  case_decide; [|exact (Hrest (Ok _))]. apply lifted_New; [apply _|]. intros rid _. apply Hrest.
Qed.

Lemma does_StartExecution :
  does (lift (Service.StartExecution ctx (Ask.owner r) (Ask.agentID r) (Ask.input r)) : P answer)
    steady [] (answered_with r).
Proof.
  unfold Service.StartExecution. case_decide; [done|]. case_decide; [apply does_create_execution|].
  unfold Service.store_read. rewrite lift_atomic. apply does_pure; [apply _|].
  intros [x|e]; [done|]. destruct (Is e NotFound); [apply does_create_execution|done].
Qed.
End requests.
