(* ===== verification/ServingLogs.v ===== *)
(** * What requests and workers leave together

    The log of a group of requests and workers that came to rest is an interleaving of what the
    requests did and of the runs of the workers ([Requests], [Serving]).  This file draws the
    accounts: which jobs were run, and what is stored of every execution. *)

From S2P Require Import Prelude GoLang GoString GoJson Conc Rely Group Runtime Id Domain Breaker.
From S2P Require Import Retry Store Tool Llm World Engine EngineSpec EngineProof EngineLogs.
From S2P Require Import EngineFacts EngineGroup Queue Service ServiceFacts StartFacts Worker.
From S2P Require Import Serving Requests.
Open Scope Z_scope.

(** What a request may have done: created nothing, or an execution whose job it could send, or
    not, or not yet. *)
Definition request_log (l : list deed) : Prop :=
  l = [] ∨ (∃ x, l = [Created x]) ∨ (∃ x, l = [Created x; Posted (job_of x)]) ∨
  ∃ x y, l = [Created x; Rewrote y] ∧ same_identity x y.

Lemma answered_log r out l : answered_with r out l → request_log l.
Proof.
  destruct out as [[[x|] []] [e|]]; try done; simpl; unfold request_log; [by left| | |by left].
  - intros (y & _ & -> & Hi & _). right; right; right. by exists y, x.
  - intros [_ ->]. right; right; left. by exists x.
Qed.

Lemma request_saw al o : request_log al → Saw o ∉ al.
Proof.
  intros Hal Hin.
  destruct Hal as [->|[(x & ->)|[(x & ->)|(x & y & -> & _)]]];
    repeat (apply elem_of_cons in Hin as [[=]|Hin]); by apply not_elem_of_nil in Hin.
Qed.

(** The execution whose fate is sealed by a deed of the request that created it. *)
Definition settled (d : deed) : option string :=
  match d with
  | Posted job => Some (Job.ExecutionID job)
  | Rewrote y => Some (Execution.ID y)
  | _ => None
  end.

Lemma request_settled l :
  request_log l → omap settled l `sublist_of` Execution.ID <$> omap born l.
Proof.
  intros [->|[(x & ->)|[(x & ->)|(x & y & -> & Hi)]]]; csimpl; [done|apply sublist_nil_l|done|].
  by rewrite (proj1 Hi).
Qed.

Lemma requests_settled als :
  Forall request_log als → omap settled (concat als) `sublist_of` Execution.ID <$> omap born (concat als).
Proof.
  induction 1 as [|al rest Hal _ IH]; [done|].
  rewrite !concat_cons, !omap_app, fmap_app. apply sublist_app; [by apply request_settled|exact IH].
Qed.

Lemma posted_settled l : Job.ExecutionID <$> omap posted l `sublist_of` omap settled l.
Proof.
  induction l as [|d l IH]; [done|].
  destruct d; csimpl; [done..|by apply sublist_cons|by apply sublist_skip].
Qed.

Section logs.
Context `{Env} {DB SK QU : Type}
  `{StoreAvailable DB, SinkOps SK, QueueLaws QU, Counters, Unicode}.
Abbreviation W := (World DB SK QU).
Context (engine : Engine.t) (w w' : W).

Definition run_deeds (runss : list (list (Job.t * list Obs))) : list (list deed) :=
  (λ runs, concat (deeds <$> runs)) <$> runss.

Context (als : list (list deed)) (runss : list (list (Job.t * list Obs))) (l : list deed).
Abbreviation runs := (concat runss).
Abbreviation taken := (Job.ExecutionID <$> runs.*1).
Context (Hw : serves w l w') (Hs : shuffled (als ++ run_deeds runss) l).
Context (Hals : Forall request_log als)
        (Hserved : Forall (λ run, served w engine run.1 run.2) runs).
Context (Hnd : NoDup (Job.ExecutionID <$> waiting (w_queue w)))
        (Hrun : Forall (runnable (w_store w)) (waiting (w_queue w))).

(** *** The deeds, regardless of their order *)

Lemma deeds_perm : l ≡ₚ concat als ++ concat (deeds <$> runs).
Proof.
  rewrite (shuffled_perm _ _ Hs), concat_app. f_equiv. clear.
  induction runss as [|rs rss IH]; [done|]. csimpl. by rewrite IH, fmap_app, concat_app.
Qed.

Lemma deed_source d : d ∈ l → (∃ al, al ∈ als ∧ d ∈ al) ∨ ∃ run, run ∈ runs ∧ d ∈ deeds run.
Proof.
  rewrite deeds_perm. intros [Hd|Hd]%elem_of_app; apply elem_of_concat_inv in Hd as (k & Hk & Hd).
  - left. by exists k.
  - right. apply list_elem_of_fmap in Hk as (run & -> & Hin). by exists run.
Qed.

Lemma requests_nothing {B} (f : deed → option B) :
  (∀ x, f (Created x) = None) → (∀ job, f (Posted job) = None) → (∀ x, f (Rewrote x) = None) →
  omap f (concat als) = [].
Proof.
  intros Hc Hp Hr. apply omap_concat_none. eapply Forall_impl; [exact Hals|].
  intros al [->|[(x & ->)|[(x & ->)|(x & y & -> & _)]]]; csimpl; by rewrite ?Hc, ?Hp, ?Hr.
Qed.

Lemma runs_nothing {B} (f : deed → option B) :
  (∀ o, f (Saw o) = None) → (∀ job, f (Took job) = None) → omap f (concat (deeds <$> runs)) = [].
Proof.
  intros Hsaw Ht. apply omap_concat_none, Forall_fmap, Forall_true. intros run.
  unfold compose, deeds. csimpl. by rewrite Ht, omap_Saw.
Qed.

Lemma taken_perm : runs.*1 ≡ₚ omap took l.
Proof.
  rewrite deeds_perm, omap_app, requests_nothing by done. simpl. generalize runs. clear. intros rs.
  induction rs as [|run rs IH]; [done|]. unfold deeds in *. csimpl.
  by rewrite omap_app, omap_Saw, <-IH.
Qed.

Lemma seen_perm : omap seen l ≡ₚ concat runs.*2.
Proof.
  rewrite deeds_perm, omap_app, requests_nothing by done. simpl. generalize runs. clear. intros rs.
  induction rs as [|run rs IH]; [done|]. unfold deeds in *. csimpl.
  by rewrite omap_app, seen_Saw, <-IH.
Qed.

(** *** Every execution is settled once *)

Lemma settled_perm : omap settled l ≡ₚ omap settled (concat als).
Proof. by rewrite deeds_perm, omap_app, (runs_nothing settled), app_nil_r by done. Qed.
Lemma posted_perm : omap posted l ≡ₚ omap posted (concat als).
Proof. by rewrite deeds_perm, omap_app, (runs_nothing posted), app_nil_r by done. Qed.
Lemma born_perm : omap born l ≡ₚ omap born (concat als).
Proof. by rewrite deeds_perm, omap_app, (runs_nothing born), app_nil_r by done. Qed.

Lemma settled_nodup : NoDup (omap settled l).
Proof.
  rewrite settled_perm. eapply sublist_NoDup; [|by apply requests_settled].
  rewrite <-born_perm. apply (serves_new _ _ _ Hw).
Qed.

Lemma settled_once d d' i :
  d ∈ l → d' ∈ l → settled d = Some i → settled d' = Some i → d = d'.
Proof. intros Hd Hd'. by apply (NoDup_omap_inj settled l d d' i settled_nodup). Qed.

Lemma born_new x : Created x ∈ l → stored (w_store w) (Execution.ID x) = None.
Proof.
  intros Hx. apply (serves_fresh _ _ _ Hw), list_elem_of_omap. by exists (Created x).
Qed.

Lemma settled_new d i : d ∈ l → settled d = Some i → stored (w_store w) i = None.
Proof.
  intros Hd E. assert (i ∈ omap settled l) as Hi by (apply list_elem_of_omap; by exists d).
  rewrite settled_perm in Hi. eapply elem_of_submseteq in Hi; [|by apply sublist_submseteq, requests_settled].
  rewrite <-born_perm in Hi. apply list_elem_of_fmap in Hi as (x & -> & Hx).
  by apply (serves_fresh _ _ _ Hw).
Qed.

(** A request that has not settled the execution it created is the only one that could. *)
Lemma unsettled x d : [Created x] ∈ als → d ∈ l → settled d ≠ Some (Execution.ID x).
Proof.
  intros Hx Hd E. destruct (deed_source d Hd) as [(al & Hal & Hin)|(run & _ & Hin)].
  - enough ([Created x] = al) as <- by (apply list_elem_of_singleton in Hin as ->; done).
    apply (NoDup_concat_inj (λ al, Execution.ID <$> omap born al) als _ _ (Execution.ID x)); [|done|done|..].
    + pose proof (serves_new _ _ _ Hw) as Hn. rewrite born_perm in Hn.
      replace (concat _) with (Execution.ID <$> omap born (concat als)); [done|]. clear.
      induction als as [|al rest IH]; [done|]. csimpl. by rewrite omap_app, fmap_app, IH.
    + csimpl. apply list_elem_of_here.
    + rewrite Forall_forall in Hals.
      eapply elem_of_submseteq; [|by apply sublist_submseteq, request_settled, Hals].
      apply list_elem_of_omap. by exists d.
  - apply elem_of_cons in Hin as [->|Hin]; [done|]. by apply list_elem_of_fmap in Hin as (o & -> & _).
Qed.

(** *** The jobs *)

Lemma waiting_stored job : job ∈ waiting (w_queue w) → is_Some (stored (w_store w) (Job.ExecutionID job)).
Proof.
  intros Hj. rewrite Forall_forall in Hrun. destruct (Hrun job Hj) as [(x & Hx & _) _]. by exists x.
Qed.

Lemma jobs_nodup : NoDup (Job.ExecutionID <$> waiting (w_queue w) ++ omap posted l).
Proof.
  rewrite fmap_app. apply NoDup_app. split_and!; [done| |].
  - intros i (job & -> & Hj)%list_elem_of_fmap (job' & Hid & Hj')%list_elem_of_fmap.
    apply list_elem_of_omap in Hj' as (d & Hd & E). destruct d; try done. injection E as ->.
    destruct (waiting_stored job Hj) as [x Hx].
    rewrite Hid, (settled_new _ (Job.ExecutionID job') Hd eq_refl) in Hx. done.
  - eapply sublist_NoDup; [exact settled_nodup|apply posted_settled].
Qed.

Lemma taken_waiting_nodup : NoDup (taken ++ (Job.ExecutionID <$> waiting (w_queue w'))).
Proof.
  pose proof jobs_nodup as Hj. rewrite (serves_queue _ _ _ Hw), fmap_app in Hj. by rewrite taken_perm.
Qed.

Lemma run_job run : run ∈ runs → run.1 ∈ waiting (w_queue w) ∨ Posted run.1 ∈ l.
Proof.
  intros Hr. assert (run.1 ∈ waiting (w_queue w) ++ omap posted l) as Hj.
  { rewrite (serves_queue _ _ _ Hw). apply elem_of_app. left. rewrite <-taken_perm.
    by apply list_elem_of_fmap_2. }
  apply elem_of_app in Hj as [Hj|(d & Hd & E)%list_elem_of_omap]; [by left|right].
  destruct d; try done. by injection E as ->.
Qed.

(** No worker runs a new execution whose job has not been sent. *)
Lemma unsent_unrun i :
  stored (w_store w) i = None → (∀ job, Posted job ∈ l → Job.ExecutionID job ≠ i) → i ∉ taken.
Proof.
  intros Hi Hp. rewrite <-list_fmap_compose. intros (run & Hid & Hr)%list_elem_of_fmap. simpl in Hid.
  destruct (run_job run Hr) as [Hj|Hj]; [|by destruct (Hp _ Hj)].
  destruct (waiting_stored _ Hj) as [x Hx]. congruence.
Qed.

Lemma rewrote_unrun y : Rewrote y ∈ l → Execution.ID y ∉ taken.
Proof.
  intros Hy. apply unsent_unrun; [by apply (settled_new _ _ Hy)|]. intros job Hj Hid.
  by pose proof (settled_once _ _ (Execution.ID y) Hy Hj eq_refl (f_equal Some Hid)).
Qed.

(** Where the job of an execution is that was created and whose job was sent. *)
Lemma sent_waits job : Posted job ∈ l → job ∈ runs.*1 ∨ job ∈ waiting (w_queue w').
Proof.
  intros Hj. rewrite taken_perm, <-elem_of_app, <-(serves_queue _ _ _ Hw). apply elem_of_app. right.
  apply list_elem_of_omap. by exists (Posted job).
Qed.

Lemma waits_unrun job :
  job ∈ waiting (w_queue w') → Job.ExecutionID job ∉ taken.
Proof.
  intros Hj Ht. pose proof taken_waiting_nodup as (_ & Hd & _)%NoDup_app.
  apply (Hd _ Ht). by apply list_elem_of_fmap_2.
Qed.

(** *** What is stored *)

(** What is written of an execution that the run is not of. *)
Lemma unwritten i run :
  run ∈ runs → i ≠ Job.ExecutionID run.1 → omap (changed i) (deeds run) = [].
Proof.
  rewrite Forall_forall in Hserved. intros Hin Hi.
  destruct (Hserved run Hin) as (x & a & out & Hid & _ & _ & _ & Hx%execute_own).
  unfold deeds. csimpl. rewrite changed_Saw. apply omap_none.
  eapply Forall_impl; [exact Hx|]. intros o Ho. rewrite <-Hid in Hi.
  destruct o as [y []| | | | | | | | |]; simpl in *; try done. rewrite decide_False; congruence.
Qed.

Lemma changed_source i d x :
  d ∈ l → changed i d = Some x →
  d = Rewrote x ∧ Execution.ID x = i ∨ ∃ run, run ∈ runs ∧ Job.ExecutionID run.1 = i.
Proof.
  intros Hd E. destruct (deed_source d Hd) as [(al & Hal & Hin)|(run & Hrn & Hin)].
  - left. destruct d as [o| | |y|]; try done.
    + rewrite Forall_forall in Hals. by destruct (request_saw al o (Hals al Hal)).
    + simpl in E. case_decide; [|done]. by injection E as ->.
  - right. exists run. split; [done|]. destruct (decide (Job.ExecutionID run.1 = i)) as [|Hne]; [done|].
    assert (x ∈ omap (changed i) (deeds run)) as Hx by (apply list_elem_of_omap; by exists d).
    rewrite unwritten in Hx by done. by apply not_elem_of_nil in Hx.
Qed.

(** What is stored of an execution that no worker ran. *)
Lemma unrun_changed i x : i ∉ taken → x ∈ omap (changed i) l → Rewrote x ∈ l ∧ Execution.ID x = i.
Proof.
  intros Hi (d & Hd & E)%list_elem_of_omap.
  destruct (changed_source i d x Hd E) as [[-> Hid]|(run & Hr & Hid)]; [done|].
  destruct Hi. rewrite <-Hid. by do 2 apply list_elem_of_fmap_2.
Qed.

Lemma last_none {A} (k : list A) : (∀ a, a ∉ k) → last k = None.
Proof. intros Hk. destruct (last k) as [a|] eqn:E; [|done]. destruct (Hk a). by apply last_Some_elem_of. Qed.

Lemma others_kept i x :
  i ∉ taken → stored (w_store w) i = Some x → stored (w_store w') i = Some x.
Proof.
  intros Hi Hx. rewrite (serves_stored _ _ _ Hw), !last_none; [done| |].
  - intros y [(d & Hd & E)%list_elem_of_omap Hid]%made_born. destruct d; try done. injection E as ->.
    apply born_new in Hd. congruence.
  - intros y Hy. apply (unrun_changed i y Hi) in Hy as [Hy Hid].
    pose proof (settled_new _ _ Hy eq_refl). congruence.
Qed.

Lemma rewrote_stored y : Rewrote y ∈ l → stored (w_store w') (Execution.ID y) = Some y.
Proof.
  intros Hy. rewrite (serves_stored _ _ _ Hw).
  assert (y ∈ omap (changed (Execution.ID y)) l) as Hin.
  { apply list_elem_of_omap. exists (Rewrote y). split; [done|]. simpl. by rewrite decide_True. }
  destruct (last _) as [z|] eqn:E.
  2: { apply last_None in E. rewrite E in Hin. by apply not_elem_of_nil in Hin. }
  apply last_Some_elem_of, (unrun_changed _ _ (rewrote_unrun y Hy)) in E as [Hz Hid].
  pose proof (settled_once _ _ (Execution.ID y) Hz Hy (f_equal Some Hid) eq_refl). congruence.
Qed.

(** An execution that was created and whose job nobody has run yet. *)
Lemma created_stored x :
  Created x ∈ l → Execution.ID x ∉ taken → (∀ y, Rewrote y ∈ l → Execution.ID y ≠ Execution.ID x) →
  stored (w_store w') (Execution.ID x) = Some x.
Proof.
  intros Hx Hi Hr. rewrite (serves_stored _ _ _ Hw), last_none.
  2: { intros y Hy. apply (unrun_changed _ _ Hi) in Hy as [Hy Hid]. by destruct (Hr y Hy). }
  assert (x ∈ omap (made (Execution.ID x)) l) as Hin.
  { apply made_born. split; [|done]. apply list_elem_of_omap. by exists (Created x). }
  destruct (last _) as [z|] eqn:E.
  2: { apply last_None in E. rewrite E in Hin. by apply not_elem_of_nil in Hin. }
  apply last_Some_elem_of, made_born in E as [(d & Hd & E)%list_elem_of_omap Hid].
  destruct d; try done. injection E as ->.
  enough (Created z = Created x) by congruence.
  apply (NoDup_omap_inj (λ d, Execution.ID <$> born d) l _ _ (Execution.ID x)); [|done|done|by simpl; f_equal|done].
  rewrite omap_then_fmap. apply (serves_new _ _ _ Hw).
Qed.

(** *** Every job that was taken is finished *)

(** The log in pieces: what each request did, and each run. *)
Definition pieces : list (list (list deed)) :=
  ((λ al : list deed, [al]) <$> als) ++ (fmap (M := list) deeds <$> runss).

Lemma pieces_shuffled : shuffled ((λ ps, concat ps) <$> pieces) l.
Proof.
  unfold pieces. rewrite fmap_app, <-!list_fmap_compose.
  replace (compose (λ ps, concat ps) (λ al : list deed, [al]) <$> als) with als; [exact Hs|].
  clear. induction als as [|al rest IH]; [done|]. csimpl. by rewrite app_nil_r, <-IH.
Qed.

Lemma pieces_concat : concat pieces = als ++ (deeds <$> runs).
Proof.
  unfold pieces. rewrite concat_app. f_equal; clear.
  - induction als as [|al rest IH]; [done|]. csimpl. by rewrite IH.
  - induction runss as [|rs rest IH]; [done|]. csimpl. by rewrite IH, fmap_app.
Qed.

Lemma unrequested i al : i ∈ taken → al ∈ als → omap (changed i) al = [].
Proof.
  intros Hi Hal. apply omap_none, Forall_forall. intros d Hd.
  assert (d ∈ l) as Hdl.
  { rewrite deeds_perm. apply elem_of_app. left. by eapply elem_of_concat. }
  destruct d as [o| | |y|]; try done.
  - rewrite Forall_forall in Hals. by destruct (request_saw al o (Hals al Hal)).
  - simpl. case_decide as Hid; [|done]. destruct (rewrote_unrun y Hdl). by rewrite Hid.
Qed.

Lemma run_changed run :
  run ∈ runs →
  omap (changed (Job.ExecutionID run.1)) l = omap (written (λ i, i) (Job.ExecutionID run.1)) run.2.
Proof.
  intros Hin. assert (∃ rest, runs ≡ₚ run :: rest) as [rest Hp] by by apply elem_of_Permutation.
  set (i := Job.ExecutionID run.1). rewrite <-changed_Saw. change (omap _ (Saw <$> _)) with (omap (changed i) (deeds run)).
  apply (shuffled_piece (changed i) pieces l (deeds run) (als ++ (deeds <$> rest))).
  - apply pieces_shuffled.
  - rewrite pieces_concat, Hp. csimpl. solve_Permutation.
  - apply Forall_app_2; apply Forall_forall.
    + intros al Hal. apply unrequested; [|done]. by do 2 apply list_elem_of_fmap_2.
    + intros p (r & -> & Hr)%list_elem_of_fmap.
      apply unwritten; [rewrite Hp; by apply list_elem_of_further|]. intros Hk.
      pose proof taken_waiting_nodup as Hn. rewrite Hp in Hn. csimpl in Hn.
      apply NoDup_cons in Hn as [Hn _]. apply Hn, elem_of_app. left. fold i. rewrite Hk.
      by do 2 apply list_elem_of_fmap_2.
Qed.

Lemma run_finished run : run ∈ runs → finished (w_store w') run.1.
Proof.
  intros Hin. pose proof Hserved as Hsv. rewrite Forall_forall in Hsv.
  destruct (Hsv run Hin) as (x & a & [y err] & Hid & _ & _ & _ & Hrun1).
  destruct (run_recorded (λ i, i) (λ x, x) _ _ _ _ _ _ _ Hrun1 None) as (_ & Hy & Ht & _).
  { intros z r _ Hzr. apply (serves_answers _ _ _ Hw z). rewrite deeds_perm. apply elem_of_app. right.
    eapply elem_of_concat; [by apply list_elem_of_fmap_2|]. apply list_elem_of_further.
    by apply list_elem_of_fmap_2. }
  exists y. split; [|done]. rewrite (serves_stored _ _ _ Hw), run_changed, <-last_update_written by done.
  unfold stored_after in Hy. rewrite Hid in Hy. by destruct (last_update _ _ _).
Qed.
End logs.
