(* ===== verification/ServiceGroup.v ===== *)
(** * Requests and workers at the same time

    The process of [cmd/api/main.go] answers requests to start executions while the goroutines of
    [Worker.Run] take jobs from the same queue and run them.  Whatever the schedule, every execution
    that a request was told is accepted has its job run by one worker, once, into a final state, or
    its job still waits ([requests_and_workers]); without requests, workers drain the queue they
    share ([workers_share_queue]). *)

From S2P Require Import Prelude GoLang GoString GoJson Conc Rely Group Loops Runtime Id Domain Breaker.
From S2P Require Import Retry Store Tool Llm World Engine EngineSpec Queue Service StartFacts.
From S2P Require Import Worker Serving Requests ServingLogs.
Open Scope Z_scope.

Section group.
Context `{Env} {DB SK QU : Type}
  `{StoreAvailable DB, SinkOps SK, QueueLaws QU, Counters, Unicode}.
Abbreviation W := (World DB SK QU).
Abbreviation P := (proc W (result ChatMessage.t) answer).
Abbreviation T := (task W (result ChatMessage.t) answer).
Context (engine : Engine.t) (ctx : Context).
Context (Hattempts : 1 ≤ RetryPolicy.MaxAttempts (Engine.retryPolicy engine))
        (Hsane : Engine.metrics engine = true → sane_provider (Engine.provider engine)).

Definition ask (r : Ask.t) : P :=
  lift (Service.StartExecution (Ask.ctx r) (Ask.owner r) (Ask.agentID r) (Ask.input r)).

(** Any number of requests, and the worker's goroutines, at the same time. *)
Definition at_once (rs : list Ask.t) (concurrency : Z) : list T :=
  (Once <$> (ask <$> rs)) ++ Worker.Run engine ctx concurrency.

(** *** The contracts *)

Section contracts.
Context (w w' : W).

Definition asking (r : Ask.t) : contract (W := W) (A := answer) (O := deed) :=
  mk_contract (performs any) (pending w r) (answered_with r).
Abbreviation task_contract :=
  (contract (W := W) (A := answer) (O := deed) + loop_contract (W := W) (O := deed))%type.
Definition contracts (rs : list Ask.t) (n : nat) : list task_contract :=
  (inl <$> (asking <$> rs)) ++ replicate n (inr (consuming w engine ctx)).

Lemma steady_now : Forall (runnable (w_store w)) (waiting (w_queue w)) → steady w w.
Proof. intros Hrun. split; [done|done| |done]. by apply Forall_forall. Qed.

Lemma ask_keeps r :
  carries (QU := QU) r → (∀ i a, agents_of (w_store w) i = Some a → Agent.ID a = i) →
  steady w w → kept_by serves w (ask r) [] (asking r).
Proof.
  intros Hc Hids Hst. split; [apply _|]. exists (steady w). split_and!; [apply _|done|].
  by apply does_StartExecution.
Qed.

Lemma all_keep rs concurrency :
  Forall (runnable (w_store w)) (waiting (w_queue w)) →
  (∀ i a, agents_of (w_store w) i = Some a → Agent.ID a = i) → Forall (carries (QU := QU)) rs →
  Forall2 (λ t c, kept_task serves w t [] c) (at_once rs concurrency)
    (contracts rs (Worker.goroutines concurrency)).
Proof.
  intros Hrun%steady_now Hids Hc. apply Forall2_app.
  - rewrite <-!list_fmap_compose. apply Forall2_fmap, Forall_Forall2_diag.
    eapply Forall_impl; [exact Hc|]. intros r Hr. by apply ask_keeps.
  - apply Forall2_replicate. by apply (does_consume w engine ctx Hattempts Hsane).
Qed.

(** *** Every schedule is finite *)

(** A worker of a patient queue has taken a job in every iteration that has ended, and sends
    none; so requests alone can add to the iterations that are to come. *)
Definition bounded rs n (s : list T * W) (b : nat) : Prop :=
  ∃ tr accs, described serves (kept_task serves) w (contracts rs n) tr accs s ∧
    b = (length (waiting (w_queue w)) + length (omap posted tr))%nat.

Lemma contract_cases rs n c :
  c ∈ contracts rs n → (∃ r, c = inl (asking r)) ∨ c = inr (consuming w engine ctx).
Proof.
  unfold contracts. intros [(c' & -> & (r & -> & _)%list_elem_of_fmap)%list_elem_of_fmap|Hc]%elem_of_app.
  - left. by exists r.
  - right. by apply elem_of_replicate in Hc as [-> _].
Qed.

Lemma turns_took v (t : T) acc c :
  patient w ctx → (∃ r, c = inl (asking r)) ∨ c = inr (consuming w engine ctx) →
  kept_task serves v t acc c → (turns_of t ≤ length (omap took acc))%nat.
Proof.
  intros Hp Hc. destruct t as [p|n body p]; [simpl; lia|].
  destruct Hc as [[r ->]| ->]; [done|].
  intros (_ & I & _ & _ & J & front & e & _ & _ & _ & -> & (runs & [-> _] & Hn) & _).
  rewrite omap_app, length_app. simpl. rewrite <-(Hn Hp).
  enough (length runs ≤ length (omap took (concat (deeds <$> runs))))%nat by lia.
  clear. induction runs as [|run runs IH]; csimpl; [lia|]. unfold deeds in *. csimpl.
  rewrite omap_app, length_app. lia.
Qed.

Lemma bounded_turns rs n s b : patient w ctx → bounded rs n s b → (all_turns s.1 ≤ b)%nat.
Proof.
  intros Hp (tr & accs & [Hw Hs HF] & ->).
  enough (all_turns s.1 ≤ length (omap took tr))%nat as Hle.
  { pose proof (f_equal length (serves_queue _ _ _ Hw)) as Hq. rewrite !length_app in Hq. lia. }
  rewrite (shuffled_perm _ _ Hs). unfold all_turns. clear Hs Hw.
  assert (∀ c, c ∈ contracts rs n → (∃ r, c = inl (asking r)) ∨ c = inr (consuming w engine ctx)) as Hc
    by (intros c; apply contract_cases).
  revert Hc. induction HF as [|t acc c ts accs' cs Ht _ IH]; csimpl; [lia|]. intros Hc.
  rewrite omap_app, length_app. pose proof (turns_took _ _ _ _ Hp (Hc c (list_elem_of_here _ _)) Ht).
  enough (sum_list (turns_of <$> ts) ≤ length (omap took (concat accs')))%nat by lia.
  apply IH. intros d Hd. by apply Hc, list_elem_of_further.
Qed.

Lemma bounded_step rs n s b i t t' v :
  bounded rs n s b → s.1 !! i = Some t → steps (t, s.2) (t', v) →
  ∃ b', bounded rs n (<[i:=t']> s.1, v) b' ∧ (once t = None → b' = b).
Proof.
  intros (tr & accs & Hd & ->) Hi Ht.
  destruct (described_step serves task_acts (kept_task serves) (kept_task_later serves)
              (kept_task_step serves) _ _ _ _ _ _ _ _ _ Hd Hi Ht) as (acc & c & e & Hacc & Hc & He & Hd').
  eexists. split; [by exists (tr ++ e), (<[i:=acc ++ e]> accs)|].
  intros Hl. rewrite omap_app, length_app. destruct t as [p|m body p]; [done|].
  destruct (Forall3_lookup_l _ _ _ _ _ _ (described_tasks _ _ _ _ _ _ _ Hd) Hi) as (a & c' & _ & Hc' & Hk).
  rewrite Hc in Hc'. injection Hc' as <-.
  destruct (contract_cases rs n c) as [[r ->]| ->]; [by eapply list_elem_of_lookup_2|done|].
  destruct He as [_ Hf]. rewrite (omap_none posted e) by exact Hf. simpl. lia.
Qed.

Lemma group_finite rs concurrency :
  patient w ctx → Forall (runnable (w_store w)) (waiting (w_queue w)) →
  (∀ i a, agents_of (w_store w) i = Some a → Agent.ID a = i) → Forall (carries (QU := QU)) rs →
  sn group_step (at_once rs concurrency, w).
Proof.
  intros Hp Hrun Hids Hc.
  apply (tasks_terminate (bounded rs (Worker.goroutines concurrency)))
    with (b := (length (waiting (w_queue w)) + 0)%nat).
  - intros s b. by apply bounded_turns.
  - intros s b i t t' v. apply bounded_step.
  - exists [], (replicate (length (at_once rs concurrency)) []). split; [|done].
    apply described_start; [apply _|]. by apply all_keep.
Qed.
(** *** Their logs *)

(** A worker that waits for a job. *)
Definition idles (t : T) : Prop :=
  match t with Loop _ _ p => ∀ more, p ≠ PRet more | Once _ => False end.

Lemma workers_rested n (ts : list T) trs :
  Forall3 (task_ended w') ts trs (replicate n (inr (consuming w engine ctx))) →
  ∃ runss, trs = run_deeds runss ∧
    Forall (λ run, served w engine run.1 run.2) (concat runss) ∧
    (patient w ctx → Forall idles ts ∧ (n ≠ 0%nat → waiting (w_queue w') = [])).
Proof.
  revert ts trs. induction n as [|n IH]; intros ts trs HF; inversion HF as [|t l c ts' trs' cs Ht HF']; subst.
  { exists []. split_and!; [done|constructor|]. intros _. split; [constructor|done]. }
  destruct (IH _ _ HF') as (runss & -> & Hs & Hend). destruct t as [p|m body p]; [done|].
  assert (∃ runs, worked w engine runs l ∧ (patient w ctx → idles (Loop m body p) ∧ waiting (w_queue w') = []))
    as (runs & [-> Hw] & Hf).
  { destruct Ht as [(-> & (runs & Hw) & Hp)|[Hm [(runs & Hw) Hi]]]; exists runs; by split; auto. }
  exists (runs :: runss). split_and!; [done|by apply Forall_app_2|].
  intros Hpt. destruct (Hf Hpt) as [Hi Hq], (Hend Hpt) as [His _]. split; [by constructor|done].
Qed.

(** How a request ended that logged [l]. *)
Definition asked (r : Ask.t) (p : P) (l : list deed) : Prop :=
  (∃ out, p = PRet out ∧ answered_with r out l) ∨ (∀ a, p ≠ PRet a) ∧ pending w r l w'.

Lemma asked_log r p l : asked r p l → request_log l.
Proof.
  intros [(out & _ & Ha)|[_ [(x & _ & ->) _]]]; [by eapply answered_log|]. right; left. by exists x.
Qed.

Lemma asks_rested rs (ts : list T) als :
  Forall3 (task_ended w') ts als (inl <$> (asking <$> rs)) →
  ∃ ps, ts = Once <$> ps ∧ Forall3 asked rs ps als.
Proof.
  revert ts als. induction rs as [|r rs IH]; intros ts als HF;
    inversion HF as [|t l c ts' als' cs Ht HF']; subst; [exists []; by split; [|constructor]|].
  destruct (IH _ _ HF') as (ps & -> & Hps). destruct t as [p|]; [|done].
  exists (p :: ps). by split; [|constructor].
Qed.

(** The execution that a request was told is accepted. *)
Definition accepted (p : P) : option Execution.t :=
  match p with PRet (Some x, false, None) => Some x | _ => None end.

Lemma asked_posted r p l : asked r p l → omap posted l = job_of <$> omap accepted [p].
Proof.
  intros [(out & -> & Ha)|[Hp [(x & _ & ->) _]]]; csimpl.
  - destruct out as [[[x|] []] [e|]]; try done; simpl in Ha; [by subst| | |by subst].
    + by destruct Ha as (y & _ & -> & _).
    + by destruct Ha as [_ ->].
  - by destruct p as [a| |]; [destruct (Hp a)|..].
Qed.

Lemma asks_posted rs ps als :
  Forall3 asked rs ps als → omap posted (concat als) = job_of <$> omap accepted ps.
Proof.
  induction 1 as [|r p l rs ps als Ha _ IH]; [done|].
  rewrite concat_cons, omap_app, (asked_posted _ _ _ Ha), IH.
  change (p :: ps) with ([p] ++ ps). by rewrite omap_app, fmap_app.
Qed.

Lemma asks_logs rs ps als : Forall3 asked rs ps als → Forall request_log als.
Proof. induction 1; constructor; [by eapply asked_log|done]. Qed.
End contracts.

(** *** What is left when nothing can move any more *)

(** An execution that is finished, with the identity of [x]. *)
Definition final (w' : W) (x : Execution.t) : Prop :=
  ∃ y, stored (w_store w') (Execution.ID x) = Some y ∧ same_identity x y ∧
       terminal (Execution.Status y) = true.

(** What became of a request: an accepted execution was run, or waits for a worker as it was
    created; one whose job could not be sent is stored as failed; or the request itself waits for
    room in the queue. *)
Definition fate (w w' : W) (runs : list (Job.t * list Obs)) (r : Ask.t) (p : P) : Prop :=
  (∃ out, p = PRet out ∧
    match out with
    | (Some x, false, None) =>
        of_ask r x ∧ stored (w_store w) (Execution.ID x) = None ∧
        (job_of x ∈ runs.*1 ∧ final w' x ∨
         job_of x ∈ waiting (w_queue w') ∧ stored (w_store w') (Execution.ID x) = Some x)
    | (Some y, false, Some _) =>
        (∃ x, of_ask r x ∧ same_identity x y) ∧ stored (w_store w) (Execution.ID y) = None ∧
        Execution.Status y = ExecutionFailed ∧ stored (w_store w') (Execution.ID y) = Some y
    | (Some _, true, None) | (None, false, Some _) => True
    | _ => False
    end) ∨
  (∀ a, p ≠ PRet a) ∧ (roomy w r → waiting (w_queue w') ≠ []) ∧
  ∃ x, of_ask r x ∧ stored (w_store w) (Execution.ID x) = None ∧
       stored (w_store w') (Execution.ID x) = Some x.

(** What the workers have done: they ran each job they took once, each run as it may go alone;
    together the runs are the log; every job they took has its execution in a final state, and
    no other execution that was there has changed. *)
Record worked_off (w w' : W) (runs : list (Job.t * list Obs)) : Prop := {
  off_served : Forall (λ run, served w engine run.1 run.2) runs;
  off_log : ∃ tr, w_log w' = w_log w ++ tr ∧ tr ≡ₚ concat runs.*2;
  off_finished : Forall (λ run, finished (w_store w') run.1) runs;
  off_others i x : i ∉ Job.ExecutionID <$> runs.*1 → stored (w_store w) i = Some x →
    stored (w_store w') i = Some x
}.

Section accounts.
Context (w w' : W) (rs : list Ask.t) (ps : list P).
Context (als : list (list deed)) (runss : list (list (Job.t * list Obs))) (l : list deed).
Context (Hw : serves w l w') (Hs : shuffled (als ++ run_deeds runss) l)
        (Hals : Forall3 (asked w w') rs ps als)
        (Hserved : Forall (λ run, served w engine run.1 run.2) (concat runss)).
Context (Hnd : NoDup (Job.ExecutionID <$> waiting (w_queue w)))
        (Hrun : Forall (runnable (w_store w)) (waiting (w_queue w))).
Abbreviation runs := (concat runss).

Lemma all_worked_off : worked_off w w' runs.
Proof.
  pose proof (asks_logs _ _ _ _ _ Hals) as Hl. split; [done| | |].
  - exists (omap seen l). split; [by apply (serves_log _ _ _ Hw)|by eapply seen_perm].
  - apply Forall_forall. intros run. by eapply run_finished.
  - intros i x. by eapply others_kept.
Qed.

Lemma asked_fate r p al : al ∈ als → asked w w' r p al → fate w w' runs r p.
Proof.
  pose proof (asks_logs _ _ _ _ _ Hals) as Hl. intros Hal Ha.
  assert (∀ d, d ∈ al → d ∈ l) as Hin.
  { intros d Hd. rewrite (deeds_perm als runss l Hs). apply elem_of_app. left. by eapply elem_of_concat. }
  destruct Ha as [(out & -> & Ha)|[Hp [(x & Hx & ->) Hroom]]].
  - left. exists out. split; [done|]. destruct out as [[[x|] []] [e|]]; try done; simpl in Ha.
    + destruct Ha as (x0 & Hx & -> & Hi & Hst). split_and!; [by exists x0| |done|].
      * by eapply settled_new; [..|apply Hin; right; left|].
      * eapply rewrote_stored; try done. apply Hin. right. left.
    + destruct Ha as [Hx ->]. assert (Created x ∈ l) as Hc by (apply Hin; left).
      assert (Posted (job_of x) ∈ l) as Hj by (apply Hin; right; left).
      split_and!; [done|by eapply born_new|].
      destruct (sent_waits w w' als runss l Hw Hs Hl _ Hj) as [Ht|Hq]; [left|right]; (split; [done|]).
      * pose proof (off_finished _ _ _ all_worked_off) as Hf. rewrite Forall_forall in Hf.
        apply list_elem_of_fmap in Ht as (run & Hjob & Hr). destruct (Hf run Hr) as (y & Hy & Hty).
        rewrite <-Hjob in Hy. exists y. split_and!; [done| |done].
        destruct (serves_born _ _ _ Hw x) as (z & Hz & Hi); [|simpl in Hy; congruence].
        apply list_elem_of_omap. by exists (Created x).
      * eapply created_stored; try done.
        -- by apply (waits_unrun w w' als runss l Hw Hs Hl Hnd Hrun (job_of x)).
        -- intros y Hy Hid.
           by pose proof (settled_once w w' als runss l Hw Hs Hl _ _ (Execution.ID x) Hy Hj
                            (f_equal Some Hid) eq_refl).
  - right. assert (Created x ∈ l) as Hc by (apply Hin; left).
    pose proof (λ d, unsettled w w' als runss l Hw Hs Hl x d Hal) as Hu.
    split_and!; [done|done|]. exists x. split_and!; [done|by eapply born_new|].
    eapply created_stored; try done.
    + eapply unsent_unrun; try done; [by eapply born_new|]. intros job Hj Hid.
      apply (Hu _ Hj). simpl. by f_equal.
    + intros y Hy Hid. apply (Hu _ Hy). simpl. by f_equal.
Qed.
Lemma asked_fates : Forall2 (fate w w' runs) rs ps.
Proof. apply (Forall3_forget _ _ _ _ _ Hals). intros r p al _. apply asked_fate. Qed.

(** A request has to wait only while the queue is not empty. *)
Lemma asked_answered :
  Forall (roomy w) rs → waiting (w_queue w') = [] → Forall (λ p, ∃ out, p = PRet out) ps.
Proof.
  intros Hroom Hq. apply Forall_lookup. intros i p Hp.
  destruct (Forall3_lookup_m _ _ _ _ _ _ Hals Hp) as (r & al & Hr & _ & [(out & -> & _)|(_ & _ & Hne)]);
    [by exists out|]. rewrite Forall_lookup in Hroom. by destruct (Hne (Hroom i r Hr)).
Qed.

End accounts.

(** The goroutines of the worker alone, and with requests, when nothing can move any more:
    [replies] is how the requests ended. *)
Record all_served (w w' : W) (rs : list Ask.t) (replies : list P)
    (runs : list (Job.t * list Obs)) : Prop := {
  served_off : worked_off w w' runs;
  served_jobs : ∃ posted taken, waiting (w_queue w) ++ posted = taken ++ waiting (w_queue w') ∧
    posted ≡ₚ job_of <$> omap accepted replies ∧ taken ≡ₚ runs.*1;
  served_fates : Forall2 (fate w w' runs) rs replies
}.

(** What a group of requests and workers that came to rest has logged. *)
Lemma rested_logs rs concurrency w ts w' :
  Forall (runnable (w_store w)) (waiting (w_queue w)) →
  (∀ i a, agents_of (w_store w) i = Some a → Agent.ID a = i) → Forall (carries (QU := QU)) rs →
  group_run (at_once rs concurrency, w) (ts, w') → at_rest (ts, w') →
  ∃ l replies workers als runss, ts = (Once <$> replies) ++ workers ∧ serves w l w' ∧
    shuffled (als ++ run_deeds runss) l ∧ Forall3 (asked w w') rs replies als ∧
    Forall (λ run, served w engine run.1 run.2) (concat runss) ∧
    (patient w ctx → Forall idles workers ∧ waiting (w_queue w') = []).
Proof.
  intros Hrun Hids Hc Hgr Hrest. pose proof (Worker.goroutines_positive concurrency) as Hpos.
  destruct (group_described serves task_acts (kept_task serves) (kept_task_later serves)
              (kept_task_step serves) w _ _ _ (all_keep w rs concurrency Hrun Hids Hc) Hgr)
    as (l & trs & Hd).
  pose proof (described_rest serves (kept_task serves) task_ended _ _ _ _ _ _
                (kept_task_rest serves w') Hd Hrest) as HF.
  apply Forall3_app_inv_r in HF as (ts1 & workers & als & wls & -> & -> & Hasks & Hwks).
  apply asks_rested in Hasks as (replies & -> & Hasks).
  apply workers_rested in Hwks as (runss & -> & Hserved & Hend).
  exists l, replies, workers, als, runss. split_and!; [done|apply Hd|apply Hd|done|done|].
  intros [Hi Hq]%Hend. split; [done|]. apply Hq. lia.
Qed.

(** C2: Requests to start executions and the endless loops of [Worker.Run] share queue, store and
    engine.  Assume a store that never fails and keeps records as they are (the in-memory store); at
    least one attempt per model call and, with metrics, no negative usage; waiting jobs of different
    executions, stored with their agents for their owners; agents under their identifiers; a
    queue that carries the requests' jobs unchanged.  When nothing can move any more, the jobs sent are
    those of the accepted executions; every job taken was run by one worker, once, into a final
    state; an accepted execution is final or waits as created, one whose job could not be sent is
    stored as failed, and no other has changed.  If the queue hands out jobs while there are any and
    otherwise lets workers wait, every schedule is finite and ends with an empty queue and waiting
    workers; if it also takes a job whenever it is empty, every request has been answered. *)
Theorem requests_and_workers rs concurrency w :
  NoDup (Job.ExecutionID <$> waiting (w_queue w)) →
  Forall (runnable (w_store w)) (waiting (w_queue w)) →
  (∀ i a, agents_of (w_store w) i = Some a → Agent.ID a = i) → Forall (carries (QU := QU)) rs →
  (patient w ctx → sn group_step (at_once rs concurrency, w)) ∧
  ∀ ts w', group_run (at_once rs concurrency, w) (ts, w') → at_rest (ts, w') →
    ∃ runs replies workers, ts = (Once <$> replies) ++ workers ∧ all_served w w' rs replies runs ∧
      (patient w ctx →
       waiting (w_queue w') = [] ∧ Forall idles workers ∧
       (Forall (roomy w) rs → Forall (λ p, ∃ out, p = PRet out) replies)).
Proof.
  intros Hnd Hrun Hids Hc. split; [by intros Hp; apply group_finite|]. intros ts w' Hgr Hrest.
  destruct (rested_logs rs concurrency w ts w' Hrun Hids Hc Hgr Hrest)
    as (l & replies & workers & als & runss & -> & Hw & Hs & Hasks & Hserved & Hend).
  pose proof (asks_logs _ _ _ _ _ Hasks) as Hl.
  exists (concat runss), replies, workers. split_and!; [done|split| ].
  - by eapply all_worked_off.
  - exists (omap posted l), (omap took l). split_and!; [apply (serves_queue _ _ _ Hw)| |].
    + by rewrite (posted_perm als runss l Hs), (asks_posted _ _ _ _ _ Hasks).
    + by rewrite (taken_perm als runss l Hs Hl).
  - by eapply asked_fates.
  - intros [Hi Hq]%Hend. split_and!; [done..|]. intros Hroom. by eapply asked_answered.
Qed.

(** What the workers alone leave: they took the jobs from the front of the queue, and no
    execution but those of the jobs they took has changed. *)
Record drained (w w' : W) (runs : list (Job.t * list Obs)) : Prop := {
  drained_off : worked_off w w' runs;
  drained_queue : ∃ jobs, waiting (w_queue w) = jobs ++ waiting (w_queue w') ∧ runs.*1 ≡ₚ jobs;
  drained_others i :
    i ∉ Job.ExecutionID <$> runs.*1 → stored (w_store w') i = stored (w_store w) i
}.

(** The goroutines of [Worker.Run] alone, under the same assumptions: what they took from the
    queue has been run, each job by one worker and once, and is in a final state, while no other
    execution has changed; with a queue that hands out jobs while there are any and otherwise lets
    the workers wait, every schedule is finite and no job is left. *)
Theorem workers_share_queue concurrency w :
  NoDup (Job.ExecutionID <$> waiting (w_queue w)) →
  Forall (runnable (w_store w)) (waiting (w_queue w)) →
  (∀ i a, agents_of (w_store w) i = Some a → Agent.ID a = i) →
  (patient w ctx → sn group_step (at_once [] concurrency, w)) ∧
  ∀ ts w', group_run (at_once [] concurrency, w) (ts, w') → at_rest (ts, w') →
    ∃ runs, drained w w' runs ∧ (patient w ctx → waiting (w_queue w') = []).
Proof.
  intros Hnd Hrun Hids. split; [intros Hp; by apply group_finite|]. intros ts w' Hgr Hrest.
  destruct (rested_logs [] concurrency w ts w' Hrun Hids (Forall_nil_2 _) Hgr Hrest)
    as (l & replies & workers & als & runss & -> & Hw & Hs & Hasks & Hserved & Hend).
  inversion Hasks; subst.
  assert (omap posted l = []) as Hposted by (apply Permutation_nil_r, (posted_perm [] runss l Hs)).
  assert (omap born l = []) as Hborn by (apply Permutation_nil_r, (born_perm [] runss l Hs)).
  exists (concat runss). split; [split|].
  - by apply (all_worked_off w w' [] [] [] runss l); [..|constructor| | |].
  - exists (omap took l). pose proof (serves_queue _ _ _ Hw) as Hq. rewrite Hposted, app_nil_r in Hq.
    split; [done|]. by apply (taken_perm [] runss l Hs).
  - intros i Hi. rewrite (serves_stored _ _ _ Hw), !last_none; [done| |].
    + intros x [Hx _]%made_born. rewrite Hborn in Hx. by apply not_elem_of_nil in Hx.
    + intros x Hx. eapply unrun_changed in Hx as [Hx _]; [|done..].
      assert (Execution.ID x ∈ omap settled l) as Hin by (apply list_elem_of_omap; by exists (Rewrote x)).
      rewrite (settled_perm [] runss l Hs) in Hin by done. by apply not_elem_of_nil in Hin.
  - by intros [_ Hq]%Hend.
Qed.
End group.
