(* ===== verification/GroupDemo.v ===== *)
(** * Concrete runs at the same time

    The theorems about several runs, workers and requests, applied to two executions of one
    conversation in an in-memory store: two runs of the engine that take turns, two workers of a
    pool that share a queue, and a request that has to wait for these workers to make room in
    the queue. *)

From S2P Require Import Prelude GoLang GoString GoJson Conc Rely Group Loops Runtime Domain Breaker.
From S2P Require Import Retry Store Memory MemoryFacts Tool ToolExamples Llm World Engine.
From S2P Require Import EngineSpec EngineProof EngineLogs EngineFacts EngineGroup EngineDemo.
From S2P Require Import Utf8 Queue Service StartFacts Worker RedisQueue Serving Requests ServiceGroup.
Open Scope Z_scope.

#[local] Existing Instance demo_env.
#[local] Existing Instance demo_unicode.
#[local] Existing Instance NopEventSink.ops.
#[local] Existing Instance MemoryFacts.demo_order.
#[local] Existing Instance EngineDemo.demo_counters.

(** Every process and each of its two goroutines in turn. *)
Definition turns (n : nat) : list (nat * nat) :=
  concat (replicate n [(0, 0); (1, 0); (0, 1); (1, 1)]%nat).

(** What is stored of an execution. *)
Definition status_in (w : IW) (id : string) : option ExecutionStatus :=
  Execution.Status <$> stored (w_store w) id.

(** Both queues carry the jobs of requests unchanged, Redis those of identifiers that are text. *)
Lemma immediate_carries r : carries (QU := Immediate.t) r.
Proof. by intros job _ _ _. Qed.

Lemma redis_carries {RC} `{RedisOps RC, RedisView RC} r :
  valid_utf8 (Ask.agentID r) = true → valid_utf8 (Ask.owner r) = true → carries (QU := Redis.t RC) r.
Proof.
  intros Ha Ho job Hx Hja Hjo. apply clean_job_valid. unfold valid_job. by rewrite Hx, Hja, Hjo, Ha, Ho.
Qed.

(** ** Two runs *)

Definition both : list request :=
  [(Background, the_agent, the_execution); (Background, the_agent, second_execution)].
Definition both_ran := run_group (turns 150) (start demo_engine <$> both) busy_world.

Lemma both_rest :
  forallb (halted both_ran.2) both_ran.1 = true ∧
  status_in both_ran.2 "x" = Some ExecutionSucceeded ∧
  status_in both_ran.2 "y" = Some ExecutionSucceeded.
Proof. vm_compute. split_and!; reflexivity. Qed.

Lemma both_run : group_run (start demo_engine <$> both, busy_world) (both_ran.1, both_ran.2).
Proof. rewrite <-surjective_pairing. apply run_group_sound. Qed.

Lemma both_different : different both.
Proof. apply (bool_decide_eq_true_1 _). vm_compute. reflexivity. Qed.

Lemma both_held x : x ∈ subject <$> both → holds x busy_world.
Proof.
  intros [->|[->|Hn%not_elem_of_nil]%elem_of_cons]%elem_of_cons; [| |done].
  - exists the_execution. split; [by vm_compute|done].
  - exists second_execution. split; [by vm_compute|done].
Qed.

#[local] Opaque both_ran busy_world demo_engine.

Lemma executions_concurrent_witness :
  status_in both_ran.2 "y" = Some ExecutionSucceeded ∧
  sn group_step (start demo_engine <$> both, busy_world) ∧
  ∃ outs trs tr, both_ran.1 = PRet <$> outs ∧
    all_ran busy_world demo_engine both both_ran.2 outs trs tr ∧
    ∀ i r y err l, both !! i = Some r → outs !! i = Some (y, err) → trs !! i = Some l →
      final_state (kept Memory.t) (subject r) y err l
        (stored (w_store busy_world) (Execution.ID (subject r)))
        (stored (w_store both_ran.2) (Execution.ID (subject r))) ∧
      steps_of (w_store both_ran.2) (Execution.ID (subject r)) =
        steps_of (w_store busy_world) (Execution.ID (subject r)) ++
        (kept_step Memory.t <$>
           logged_steps (key Memory.t) (Execution.ID (subject r)) l).
Proof.
  destruct both_rest as (Hh & _ & Hy). split; [exact Hy|].
  destruct (executions_concurrent busy_world demo_engine both demo_attempts (λ _, demo_sane)
              both_different both_held) as [Hsn Hran].
  split; [exact Hsn|]. apply Hran; [exact both_run|exact (halted_rest _ _ Hh)].
Defined.

(** ** Two workers *)

Definition pool : list (task IW (result ChatMessage.t) answer) :=
  at_once demo_engine Background [] 2.
Definition pool_ran := run_group (turns 150) pool busy_world.

#[local] Transparent busy_world demo_engine.

(** Both wait for a third job. *)
Lemma pool_rest :
  forallb (halted pool_ran.2) pool_ran.1 = true ∧
  status_in pool_ran.2 "x" = Some ExecutionSucceeded ∧
  status_in pool_ran.2 "y" = Some ExecutionSucceeded.
Proof. vm_compute. split_and!; reflexivity. Qed.

Lemma pool_runs : group_run (pool, busy_world) (pool_ran.1, pool_ran.2).
Proof. rewrite <-surjective_pairing. apply run_group_sound. Qed.

(** The buffered channel lets a worker that cannot be told to stop wait for jobs. *)
Lemma immediate_patient (w : IW) : patient w Background.
Proof.
  intros q _ rt. split; [apply ready_forever|]. intros Hq. simpl in *. unfold Immediate.Dequeue. by rewrite Hq.
Qed.

Lemma busy_jobs : NoDup (Job.ExecutionID <$> waiting (w_queue busy_world)).
Proof. apply (bool_decide_eq_true_1 _). vm_compute. reflexivity. Qed.

Lemma busy_ids i a : agents_of (w_store busy_world) i = Some a → Agent.ID a = i.
Proof. simpl. intros [<- <-]%lookup_singleton_Some. reflexivity. Qed.

Lemma busy_runnable :
  Forall (runnable (w_store busy_world)) (waiting (w_queue busy_world)).
Proof.
  constructor; [|constructor; [|constructor]].
  - split; [by exists the_execution|by exists the_agent].
  - split; [by exists second_execution|by exists the_agent].
Qed.

#[local] Opaque pool_ran busy_world demo_engine.

Lemma workers_share_queue_witness :
  status_in pool_ran.2 "y" = Some ExecutionSucceeded ∧
  ∃ runs, drained demo_engine busy_world pool_ran.2 runs ∧
    waiting (w_queue pool_ran.2) = [].
Proof.
  destruct pool_rest as (Hh & _ & Hy). split; [exact Hy|].
  destruct (workers_share_queue demo_engine Background demo_attempts (λ _, demo_sane) 2
              busy_world busy_jobs busy_runnable busy_ids) as [_ Hran].
  destruct (Hran pool_ran.1 pool_ran.2 pool_runs (halted_rest _ _ Hh)) as (runs & Hd & Hall).
  exists runs. split; [exact Hd|]. apply Hall. exact (immediate_patient _).
Defined.

(** ** A request and two workers *)

#[local] Transparent busy_world demo_engine.

(** The same world, where the queue has no room for another job. *)
Definition full_world : IW := set_queue (Immediate.mk 2 (waiting (w_queue busy_world))) busy_world.
Definition a_request : Ask.t := Ask.mk Background "owner" "a" start_input.
Definition server : list (task IW (result ChatMessage.t) answer) :=
  at_once demo_engine Background [a_request] 2.
Definition server_turns (n : nat) : list (nat * nat) :=
  concat (replicate n [(0, 0); (1, 0); (2, 0); (1, 1); (2, 1)]%nat).
(** First the request alone, until it waits; then all in turn. *)
Definition server_full := run_group (replicate 12 (0, 0)%nat) server full_world.
Definition server_ran := run_group (replicate 12 (0, 0)%nat ++ server_turns 200) server full_world.

Definition reply_in (w : IW) (t : task IW (result ChatMessage.t) answer)
    : option (option ExecutionStatus) :=
  p ← once t; (λ x, status_in w (Execution.ID x)) <$> accepted p.

(** The request had to wait; in the end it has been answered and its execution run, and both
    workers wait. *)
Lemma server_rest :
  forallb (halted server_full.2) (take 1 server_full.1) = true ∧
  omap (reply_in server_full.2) server_full.1 = [] ∧
  forallb (halted server_ran.2) server_ran.1 = true ∧
  omap (reply_in server_ran.2) server_ran.1 = [Some ExecutionSucceeded] ∧
  status_in server_ran.2 "y" = Some ExecutionSucceeded.
Proof. vm_compute. split_and!; reflexivity. Qed.

Lemma server_runs : group_run (server, full_world) (server_ran.1, server_ran.2).
Proof. rewrite <-surjective_pairing. apply run_group_sound. Qed.

(** The queue keeps its capacity, so it takes a job whenever it is empty. *)
Lemma capacity_kept (q q' : Immediate.t) :
  rtc queue_move q q' → Immediate.capacity q' = Immediate.capacity q.
Proof.
  induction 1 as [|q q1 q2 (ctx & rt & t & [(job & r & E)|(r & E)]) _ IH]; [done| |];
    rewrite IH; clear IH.
  - apply Immediate.Enqueue_inv in E as [_ E].
    by destruct r as [e|]; [destruct E as [-> _]|destruct E as [_ ->]].
  - apply Immediate.Dequeue_inv in E as [_ E]. by destruct r as [job|e]; [destruct E as [_ E]|destruct E as [-> _]].
Qed.

Lemma full_roomy : Forall (roomy full_world) [a_request].
Proof.
  constructor; [|constructor]. intros q Hq%capacity_kept Hempty job rt. simpl in *.
  unfold Immediate.Enqueue. rewrite Hempty, Hq. by eexists.
Qed.

Lemma full_ids i a : agents_of (w_store full_world) i = Some a → Agent.ID a = i.
Proof. exact (busy_ids i a). Qed.

Lemma full_carried : Forall (carries (QU := Immediate.t)) [a_request].
Proof. constructor; [apply immediate_carries|constructor]. Qed.

Lemma full_jobs : NoDup (Job.ExecutionID <$> waiting (w_queue full_world)).
Proof. exact busy_jobs. Qed.
Lemma full_runnable : Forall (runnable (w_store full_world)) (waiting (w_queue full_world)).
Proof. exact busy_runnable. Qed.

#[local] Opaque server_ran full_world demo_engine.

Lemma requests_and_workers_witness :
  omap (reply_in server_ran.2) server_ran.1 = [Some ExecutionSucceeded] ∧
  sn group_step (server, full_world) ∧
  ∃ runs replies workers, server_ran.1 = (Once <$> replies) ++ workers ∧
    all_served demo_engine full_world server_ran.2 [a_request] replies runs ∧
    waiting (w_queue server_ran.2) = [] ∧ Forall idles workers ∧
    Forall (λ p, ∃ out, p = PRet out) replies.
Proof.
  destruct server_rest as (_ & _ & Hh & Hy & _). split; [exact Hy|].
  destruct (requests_and_workers demo_engine Background demo_attempts (λ _, demo_sane) [a_request] 2
              full_world full_jobs full_runnable full_ids full_carried) as [Hsn Hran].
  split; [exact (Hsn (immediate_patient _))|].
  destruct (Hran server_ran.1 server_ran.2 server_runs (halted_rest _ _ Hh))
    as (runs & replies & workers & Hps & Hs & Hall).
  exists runs, replies, workers. split; [exact Hps|]. split; [exact Hs|].
  destruct (Hall (immediate_patient _)) as (Hq & Hi & Ha). split; [exact Hq|]. split; [exact Hi|].
  exact (Ha full_roomy).
Defined.
