(* ===== verification/WorkerPool.v ===== *)
(** * [Worker.Run]: a pool of consumers

    [Run] starts [consume] on a number of goroutines, waits for its context to end and then
    for the goroutines.  Here a goroutine of [consume] is at one of three places: in
    front of [Dequeue], running a job (the iteration [Worker.consume_once] describes), or
    returned; the steps are the ways the loop moves between them.  Goroutines interleave
    freely, and other parts of the program enqueue. *)

From S2P Require Import Prelude GoLang Conc Runtime Domain Breaker Tool Llm World Queue.
Open Scope Z_scope.

Module Pool.
Inductive place : Set := Polling | Running (job : Job.t) | Stopped.

#[global] Instance place_eq_dec : EqDecision place.
Proof. solve_decision. Defined.

Record t (QU : Type) := mk {
  now : time;
  workers : list place;
  jobs : QU;
  returned : option error
}.
Arguments mk {QU}.
Arguments now {QU}.
Arguments workers {QU}.
Arguments jobs {QU}.
Arguments returned {QU}.

Section pool.
Context {QU : Type} `{QueueOps QU}.
Implicit Types (p : t QU).

(** [Run] up to [<-ctx.Done()]: at least one goroutine. *)
Definition Run (at_ : time) (concurrency : Z) (queue : QU) : t QU :=
  mk at_ (replicate (Z.to_nat (if concurrency <? 1 then 1 else concurrency)) Polling) queue None.

(** Where [consume] goes after [Dequeue]. *)
Definition after_dequeue (r : result Job.t) : place :=
  match r with
  | Ok job => Running job
  | Err err => if Is err Canceled then Stopped else Polling
  end.

Inductive step (ctx : Context) : t QU → t QU → Prop :=
| step_dequeue p i rt r d q :
    workers p !! i = Some Polling → now p ≤ rt_now rt →
    Dequeue ctx rt (jobs p) = Some (r, d, q) →
    step ctx p (mk d (<[i := after_dequeue r]> (workers p)) q (returned p))
| step_finish p i job d :
    workers p !! i = Some (Running job) → now p ≤ d →
    step ctx p (mk d (<[i := Polling]> (workers p)) (jobs p) (returned p))
| step_return p err :
    returned p = None → ctx_err ctx (now p) = Some err → Forall (λ w, w = Stopped) (workers p) →
    step ctx p (mk (now p) (workers p) (jobs p) (Some err)).

(** The rest of the program: time passes, jobs are enqueued. *)
Inductive outside : t QU → t QU → Prop :=
| outside_time p d : now p ≤ d → outside p (mk d (workers p) (jobs p) (returned p))
| outside_enqueue p ctx job rt r d q :
    now p ≤ rt_now rt → Enqueue ctx job rt (jobs p) = Some (r, d, q) →
    outside p (mk d (workers p) q (returned p)).

Definition moves (ctx : Context) (p p' : t QU) : Prop := step ctx p p' ∨ outside p p'.

(** How far a goroutine is from having returned. *)
Definition weight (w : place) : nat :=
  match w with Polling => 1 | Running _ => 2 | Stopped => 0 end.

Definition work `{QueueView QU} (p : t QU) : nat :=
  sum_list (weight <$> workers p) + 2 * length (waiting (jobs p)) +
  (if returned p is Some _ then 0 else 1).
End pool.
End Pool.

Section termination.
Context {QU : Type} `{QueueLaws QU}.
Implicit Types (p : Pool.t QU).
(** The context of the pool is cancelled at [stop]; a [Dequeue] that fails from then on reports
    that, and none waits. *)
Context (stop : time).
Abbreviation ctx := (CancelledAt stop).
Context (Hreports : ∀ rt q err d q', stop ≤ rt_now rt → Dequeue ctx rt q = Some (Err err, d, q') →
           Is err Canceled = true)
        (Hreturns : ∀ rt q, is_Some (Dequeue ctx rt q)).

Lemma sum_insert (l : list Pool.place) i w w' :
  l !! i = Some w →
  (sum_list (Pool.weight <$> <[i := w']> l) + Pool.weight w =
   sum_list (Pool.weight <$> l) + Pool.weight w')%nat.
Proof.
  revert i. induction l as [|v l IH]; intros [|i] Hi; simplify_eq/=; [lia|].
  specialize (IH i Hi). lia.
Qed.

Lemma step_work p p' : stop ≤ Pool.now p → Pool.step ctx p p' → (Pool.work p' < Pool.work p)%nat.
Proof.
  intros Hs. unfold Pool.work. destruct 1 as [p i rt r d q Hi Ht E|p i job d Hi Ht|p err Hr He Hf]; simpl.
  - pose proof (sum_insert _ _ _ (Pool.after_dequeue r) Hi) as Hsum. simpl in Hsum.
    destruct r as [job|err]; simpl in *.
    + rewrite (dequeue_ok _ _ _ _ _ _ E). simpl. lia.
    + rewrite (dequeue_failed _ _ _ _ _ _ E).
      assert (Is err Canceled = true) as He by (eapply Hreports; [|exact E]; lia).
      rewrite He in *. simpl in *. lia.
  - pose proof (sum_insert _ _ _ Pool.Polling Hi) as Hsum. simpl in Hsum. lia.
  - rewrite Hr. lia.
Qed.

Lemma step_now p p' : Pool.step ctx p p' → Pool.now p ≤ Pool.now p'.
Proof.
  destruct 1 as [p i rt r d q Hi Ht E|p i job d Hi Ht|p err]; simpl; [|done|lia].
  apply dequeue_time in E. lia.
Qed.

(** As long as [Run] has not returned, something can happen. *)
Lemma step_progress p : stop ≤ Pool.now p → Pool.returned p = None → ∃ p', Pool.step ctx p p'.
Proof.
  intros Hs Hr. destruct (decide (Forall (λ w, w = Pool.Stopped) (Pool.workers p))) as [Hf|Hf].
  - eexists. apply Pool.step_return; [done| |done]. unfold ctx_err. simpl.
    by rewrite (proj2 (Z.leb_le _ _)).
  - apply not_Forall_Exists in Hf; [|solve_decision]. apply Exists_exists in Hf as (w & Hw & Hn).
    apply list_elem_of_lookup in Hw as [i Hi]. destruct w as [|job|]; [| |by destruct Hn].
    + destruct (Hreturns (mkRuntime (Pool.now p) 0) (Pool.jobs p)) as [[[r d] q] E].
      eexists. eapply Pool.step_dequeue; [done| |exact E]. simpl. lia.
    + eexists. by eapply (Pool.step_finish _ _ _ _ (Pool.now p)).
Qed.

(** What every reachable pool satisfies. *)
Definition returns_last (p : Pool.t QU) : Prop :=
  ∀ err, Pool.returned p = Some err →
    err = Sentinel Canceled ∧ Forall (λ w, w = Pool.Stopped) (Pool.workers p).

Lemma moves_returns_last p p' : returns_last p → Pool.moves ctx p p' → returns_last p'.
Proof.
  intros Hp [Hs|Ho].
  - destruct Hs as [p i rt r d q Hi Ht E|p i job d Hi Ht|p err Hr He Hf]; intros err' Hr'; simpl in *.
    1, 2: destruct (Hp _ Hr') as [_ Hf]; rewrite Forall_lookup in Hf; by apply Hf in Hi.
    injection Hr' as <-. split; [|done]. unfold ctx_err in He. simpl in He. by destruct (_ <=? _); simplify_eq.
  - destruct Ho; exact Hp.
Qed.

Lemma pool_ends started concurrency queue p p' n :
  rtc (Pool.moves ctx) (Pool.Run started concurrency queue) p → stop ≤ Pool.now p →
  nsteps (Pool.step ctx) n p p' →
  (n ≤ 2 * length (waiting (Pool.jobs p)) + 2 * length (Pool.workers p) + 1)%nat ∧
  (Pool.returned p' = None → ∃ p'', Pool.step ctx p' p'') ∧
  (∀ err, Pool.returned p' = Some err →
     err = Sentinel Canceled ∧ Forall (λ w, w = Pool.Stopped) (Pool.workers p')).
Proof.
  intros Hr Hs Hn.
  assert (returns_last p) as Hp.
  { clear Hs Hn. assert (returns_last (Pool.Run started concurrency queue)) as Hstart by done.
    induction Hr as [|p1 p2 p3 Hm _ IH]; [done|]. by eapply IH, moves_returns_last. }
  assert ((n + Pool.work p' ≤ Pool.work p)%nat ∧ stop ≤ Pool.now p' ∧ returns_last p') as (Hw & Hs' & Hp').
  { clear Hr. induction Hn as [p|n p p1 p2 Hst _ IH]; [done|].
    pose proof (step_work _ _ Hs Hst). pose proof (step_now _ _ Hst).
    destruct IH as (Hw & ? & ?); [lia|by eapply moves_returns_last; [|left]|]. split; [lia|done]. }
  split; [|split; [by apply step_progress|exact Hp']].
  assert (sum_list (Pool.weight <$> Pool.workers p) ≤ 2 * length (Pool.workers p))%nat as Hl.
  { induction (Pool.workers p) as [|w l IH]; csimpl; [lia|]. destruct w; simpl; lia. }
  unfold Pool.work in Hw. destruct (Pool.returned p); lia.
Qed.
End termination.

(** ** The in-process queue

    A pool of two goroutines and one job that was enqueued before the shutdown. *)

#[local] Existing Instance demo_env.

Definition demo_pool_queue : Immediate.t := Immediate.mk 4 [Job.mk "x" "a" "o"].

Lemma immediate_reports stop rt (q : Immediate.t) err d q' :
  stop ≤ rt_now rt → Dequeue (CancelledAt stop) rt q = Some (Err err, d, q') → Is err Canceled = true.
Proof. intros _ [_ (_ & t & [= <- <-] & _)]%Immediate.Dequeue_inv. done. Qed.

Lemma immediate_returns stop rt (q : Immediate.t) : is_Some (Dequeue (CancelledAt stop) rt q).
Proof.
  simpl. unfold Immediate.Dequeue, Immediate.select_channel. simpl.
  destruct (Immediate.jobs q); [|destruct (_ && _)]; by eexists.
Qed.

(** C33: With the in-process queue, [Run] ends: once its context is cancelled, the goroutines of a
    pool and [Run] itself make at most two steps per waiting job, two per goroutine and one more, in
    any order, and until [Run] has returned one of them can always make a step; what [Run]
    returns is the context's error, and every goroutine has returned before it does.  (A queue that
    leaves [Dequeue] waiting when its context is cancelled, as a [BRPOP] may, gives no such
    bound.) *)
Theorem pool_terminates stop started concurrency (queue : Immediate.t) p p' n :
  rtc (Pool.moves (CancelledAt stop)) (Pool.Run started concurrency queue) p → stop ≤ Pool.now p →
  nsteps (Pool.step (CancelledAt stop)) n p p' →
  (n ≤ 2 * length (waiting (Pool.jobs p)) + 2 * length (Pool.workers p) + 1)%nat ∧
  (Pool.returned p' = None → ∃ p'', Pool.step (CancelledAt stop) p' p'') ∧
  (∀ err, Pool.returned p' = Some err →
     err = Sentinel Canceled ∧ Forall (λ w, w = Pool.Stopped) (Pool.workers p')).
Proof. apply pool_ends; [apply immediate_reports|apply immediate_returns]. Qed.

Lemma pool_terminates_witness :
  let p := Pool.Run 5 2 demo_pool_queue in
  ∃ p', nsteps (Pool.step (CancelledAt 5)) 2 p p' ∧
  (2 ≤ 2 * length (waiting (Pool.jobs p)) + 2 * length (Pool.workers p) + 1)%nat ∧
  (Pool.returned p' = None → ∃ p'', Pool.step (CancelledAt 5) p' p'') ∧
  (∀ err, Pool.returned p' = Some err →
     err = Sentinel Canceled ∧ Forall (λ w, w = Pool.Stopped) (Pool.workers p')).
Proof.
  intros p.
  assert (∃ p', nsteps (Pool.step (CancelledAt 5)) 2 p p') as [p' Hn].
  { eexists. eapply nsteps_l.
    - eapply (Pool.step_dequeue _ _ 0 (mkRuntime 5 1)); [reflexivity|apply Z.le_refl|].
      vm_compute. reflexivity.
    - eapply nsteps_l; [|apply nsteps_O].
      eapply (Pool.step_finish _ _ 0 (Job.mk "x" "a" "o") 7); [reflexivity|].
      vm_compute. discriminate. }
  exists p'. split; [exact Hn|].
  apply (pool_terminates 5 5 2 demo_pool_queue p p' 2);
    [apply rtc_refl|apply Z.le_refl|exact Hn].
Defined.
