(* ===== verification/Stream.v ===== *)
(** * [realtime.Stream]: what the handlers of websockets need of an event stream

    The interface of [internal/realtime/broker.go] as a type class: the channel and the closure
    that [Subscribe] returns, as one subscriber has them, and laws that say what goes through
    them; and the loop of [streamExecution], verified against the interface.  [StreamFacts]
    holds the two implementations. *)

From S2P Require Import Prelude GoLang Domain World.
Open Scope Z_scope.
#[local] Open Scope nat_scope.

(** ** The interface *)

Class StreamOps (S : Type) := {
  (* [event, ok := <-events]: [None] waits, [Some None] is a channel closed and empty *)
  Receive : S → option (option Event.t * S);
  (* the closure: [None] panics *)
  Unsubscribe : S → option S;
  (* the lock the closure takes is free *)
  unlocked : S → bool;
  (* something else happens: publishers, the library, other subscribers *)
  meanwhile : S → S → Prop
}.

(** A subscription that has not been ended by its subscriber, the events that its channel has
    taken since it began, and those that wait in it. *)
Class StreamView (S : Type) := {
  live : S → Prop;
  carried : S → list Event.t;
  waiting : S → list Event.t
}.

Class StreamLaws (S : Type) `{StreamOps S, StreamView S} : Prop := {
  meanwhile_live (s s' : S) : live s → meanwhile s s' →
    live s' ∧ ∃ new, carried s' = carried s ++ new ∧ waiting s' = waiting s ++ new;
  receive_event (s s' : S) e : live s → Receive s = Some (Some e, s') →
    live s' ∧ carried s' = carried s ∧ waiting s = e :: waiting s';
  receive_end (s s' : S) : live s → Receive s = Some (None, s') →
    live s' ∧ carried s' = carried s ∧ waiting s' = waiting s;
  receive_ready (s : S) : live s → waiting s ≠ [] → ∃ e s', Receive s = Some (Some e, s');
  unsubscribe_live (s : S) : live s → unlocked s = true → is_Some (Unsubscribe s);
  unsubscribe_same (s s' : S) : live s → Unsubscribe s = Some s' →
    carried s' = carried s ∧ waiting s' = waiting s;
  waiting_capacity (s : S) : live s → length (waiting s) ≤ 32
}.

(** ** The loop of [streamExecution] *)

Section handler.
Context {SUB : Type} `{StreamOps SUB}.

(** Where the handler is: in its select, in [WriteJSON], about to run its deferred calls, or
    returned; and what it has written to its connection. *)
Inductive place : Type := Waiting | Writing (event : Event.t) | Leaving | Gone.
Record connection := mkConnection { feed : SUB; at_ : place; written : list Event.t }.

Definition connect (s : SUB) : connection := mkConnection s Waiting [].

(** What moves it on: a receive, the end of [WriteJSON], the end of the request, its deferred calls. *)
Inductive cause : Set := Reads | Writes (failed : bool) | RequestDone | Defers.

Definition proceed (why : cause) (c : connection) : option connection :=
  match why, at_ c with
  | Reads, Waiting =>
      '(event, s) ← Receive (feed c);
      Some (mkConnection s (match event with Some event => Writing event | None => Leaving end) (written c))
  | Writes failed, Writing event =>
      Some (if failed : bool then mkConnection (feed c) Leaving (written c)
            else mkConnection (feed c) Waiting (written c ++ [event]))
  | RequestDone, Waiting => Some (mkConnection (feed c) Leaving (written c))
  | Defers, Leaving =>
      if unlocked (feed c) then s ← Unsubscribe (feed c); Some (mkConnection s Gone (written c)) else None
  | _, _ => None
  end.

Inductive happens : connection → connection → Prop :=
| happens_own why c c' : proceed why c = Some c' → happens c c'
| happens_other c s : at_ c ≠ Gone → meanwhile (feed c) s → happens c (mkConnection s (at_ c) (written c)).

(** The event that was received last, when it has not been written. *)
Definition in_hand (p : place) (lost : list Event.t) : Prop :=
  match p with
  | Waiting => lost = []
  | Writing event => lost = [event]
  | Leaving | Gone => length lost ≤ 1
  end.
End handler.
Arguments connection : clear implicits.

Section handling.
Context {SUB : Type} `{StreamLaws SUB}.
Implicit Types (c : connection SUB).

(** Everything the channel took is written, in hand, or waits. *)
Definition accounted c : Prop :=
  (at_ c ≠ Gone → live (feed c)) ∧
  ∃ lost, in_hand (at_ c) lost ∧ carried (feed c) = written c ++ lost ++ waiting (feed c).

Lemma accounted_happens c c' : accounted c → happens c c' → accounted c'.
Proof.
  intros [Hl (lost & Hh & Hc)] Hs. destruct Hs as [why c c' E|c s Hg Hm].
  - unfold proceed in E. destruct why as [|failed| |], (at_ c) as [|event| |] eqn:Ha; try done.
    + destruct (Receive (feed c)) as [[event s]|] eqn:Hr; [|done]. simplify_eq/=.
      specialize (Hl ltac:(done)). destruct event as [event|].
      * destruct (receive_event _ _ _ Hl Hr) as (Hl' & Hc' & Hw). split; [done|]. exists [event].
        simpl. rewrite Hc', Hc, Hw. done.
      * destruct (receive_end _ _ Hl Hr) as (Hl' & Hc' & Hw). split; [done|]. exists [].
        simpl. rewrite Hc', Hc, Hw. split; [lia|done].
    + simpl in Hh. subst lost. destruct failed; simplify_eq/=; (split; [intros _; by apply Hl|]).
      * exists [event]. split; [simpl; lia|done].
      * exists []. split; [done|]. simpl. by rewrite Hc, <-(assoc_L (++)).
    + simplify_eq/=. split; [intros _; by apply Hl|]. exists []. split; [simpl; lia|done].
    + destruct (unlocked (feed c)); [|done].
      destruct (Unsubscribe (feed c)) as [s|] eqn:Hu; [|done]. simplify_eq/=.
      specialize (Hl ltac:(done)). destruct (unsubscribe_same _ _ Hl Hu) as [Hc' Hw].
      split; [done|]. exists lost. split; [done|]. simpl. by rewrite Hc', Hw.
  - destruct (meanwhile_live _ _ (Hl Hg) Hm) as (Hl' & new & Hc' & Hw). split; [done|].
    exists lost. split; [done|]. simpl. by rewrite Hc', Hw, Hc, <-!(assoc_L (++)).
Qed.

Lemma accounted_reach s c :
  live s → carried s = waiting s → rtc happens (connect s) c → accounted c.
Proof.
  intros Hl Hc Hr. assert (accounted (connect s)) as Ha by (split; [done|by exists []]).
  induction Hr as [|c c1 c2 Hs _ IH]; [done|]. by eapply IH, accounted_happens.
Qed.

(** C31: A handler and its subscription, for any event stream that keeps the laws: what the channel
    took since the subscription is what has been written to the connection, the event
    in hand, and the events that wait, each once and in order; a handler that leaves can
    unsubscribe as soon as the lock is free; and one that waits takes up the next event as soon as
    there is one. *)
Theorem stream_followed s c :
  live s → carried s = waiting s → rtc happens (connect s) c →
  (∃ lost, in_hand (at_ c) lost ∧ carried (feed c) = written c ++ lost ++ waiting (feed c)) ∧
  (at_ c = Leaving → unlocked (feed c) = true → is_Some (proceed Defers c)) ∧
  (at_ c = Waiting → waiting (feed c) ≠ [] → ∃ e c', proceed Reads c = Some c' ∧ at_ c' = Writing e).
Proof.
  intros Hl Hc Hr. destruct (accounted_reach s c Hl Hc Hr) as [Hl' Hlost]. split; [done|]. split.
  - intros Ha Hu. unfold proceed. rewrite Ha, Hu in *.
    destruct (unsubscribe_live (feed c)) as [s' ->]; [by apply Hl'|done|by eexists].
  - intros Ha Hw. unfold proceed. rewrite Ha in *.
    destruct (receive_ready (feed c)) as (e & s' & ->); [by apply Hl'|done|]. by eexists e, _.
Qed.
End handling.
