(* ===== verification/Broker.v ===== *)
(** * [internal/realtime/broker.go]: live events for the subscribers of one process

    A subscription is a buffered channel of 32 events.  [Publish] holds the read lock while
    it offers the event to the channels of the execution, one after another, so several
    publishers interleave between two offers; [Subscribe] and the closure it returns hold the
    write lock for their whole bodies, so they are one transition each, possible only
    while no publisher is inside.  [run] is every interleaving of publishers, subscribers and
    readers; a call that would panic is [None]. *)

From S2P Require Import Prelude GoLang Domain Llm Tool World.
#[local] Open Scope nat_scope.

(** A channel: the events nobody has received yet, and whether it has been closed. *)
Module Channel.
Record t := mk { buffer : list Event.t; closed : bool }.

Definition capacity : nat := 32.
Definition make : t := mk [] false.

(** [select] of a send and [default]: whether the event was taken; a send on a closed channel
    panics. *)
Definition offer (event : Event.t) (c : t) : option (bool * t) :=
  if closed c then None
  else if (length (buffer c) <? capacity)%nat
  then Some (true, mk (buffer c ++ [event]) (closed c)) else Some (false, c).

(** A receive: the next event, or [Some None] when the channel is closed and empty; it
    waits when the channel is open and empty. *)
Definition receive (c : t) : option (option Event.t * t) :=
  match buffer c with
  | event :: rest => Some (Some event, mk rest (closed c))
  | [] => if closed c then Some (None, c) else None
  end.

(** [close]: closing twice panics. *)
Definition close (c : t) : option t := if closed c then None else Some (mk (buffer c) true).
End Channel.

Module Broker.
(** The subscribers, the channels of the process, and the publishers that hold the read
    lock with the channels they have yet to visit. *)
Record t := mk {
  subscribers : gmap string (gset nat);
  channels : gmap nat Channel.t;
  publishing : list (Event.t * list nat)
}.

Definition NewBroker : t := mk ∅ ∅ [].

(** The channels subscribed to an execution. *)
Definition subscribed (executionID : string) (b : t) : gset nat :=
  default ∅ (subscribers b !! executionID).

(** An order in which [for range] may visit the channels of an execution. *)
Definition range_of (executionID : string) (cs : list nat) (b : t) : Prop :=
  cs ≡ₚ elements (subscribed executionID b).

(** [Publish] takes the read lock and starts to range over the channels, in the order [cs]. *)
Definition publish_begin (event : Event.t) (cs : list nat) (b : t) : t :=
  mk (subscribers b) (channels b) (publishing b ++ [(event, cs)]).

(** One offer of publisher [i]: to which channel, and whether it was taken. *)
Definition publish_offer (event : Event.t) (c : nat) (b : t) : option (bool * t) :=
  channel ← channels b !! c;
  '(taken, channel) ← Channel.offer event channel;
  Some (taken, mk (subscribers b) (<[c := channel]> (channels b)) (publishing b)).

Definition set_publishing (l : list (Event.t * list nat)) (b : t) : t :=
  mk (subscribers b) (channels b) l.

(** [Subscribe]: a new channel. *)
Definition Subscribe (executionID : string) (b : t) : nat * t :=
  let channel := fresh (dom (channels b)) in
  (channel, mk (<[executionID := {[channel]} ∪ subscribed executionID b]> (subscribers b))
               (<[channel := Channel.make]> (channels b)) (publishing b)).

(** The closure [Subscribe] returns. *)
Definition unsubscribe (executionID : string) (channel : nat) (b : t) : option t :=
  match subscribers b !! executionID with
  | Some subscribers_ =>
      let rest := subscribers_ ∖ {[channel]} in
      opened ← channels b !! channel;
      closed ← Channel.close opened;
      Some (mk (if decide (rest = ∅) then delete executionID (subscribers b)
                else <[executionID := rest]> (subscribers b))
               (<[channel := closed]> (channels b)) (publishing b))
  | None => Some b
  end.

(** A subscriber's receive. *)
Definition receive (c : nat) (b : t) : option (option Event.t * t) :=
  channel ← channels b !! c;
  '(event, channel) ← Channel.receive channel;
  Some (event, mk (subscribers b) (<[c := channel]> (channels b)) (publishing b)).

(** The offers of one publisher to the channels it has left. *)
Fixpoint offer_all (event : Event.t) (cs : list nat) (b : t) : option t :=
  match cs with
  | [] => Some b
  | c :: cs => '(_, b) ← publish_offer event c b; offer_all event cs b
  end.

(** [Publish] when nothing interrupts it, the channels visited in the order [cs]. *)
Definition Publish (event : Event.t) (cs : list nat) (b : t) : option t := offer_all event cs b.
End Broker.

Import Broker.

(** ** Runs *)

(** What happens in a run, in order. *)
Inductive note : Set :=
| Published (event : Event.t)
| Taken (channel : nat) (event : Event.t)
| Dropped (channel : nat) (event : Event.t)
| Subscribed (executionID : string) (channel : nat)
| Unsubscribed (executionID : string) (channel : nat)
| Received (channel : nat) (event : option Event.t).

#[export] Instance note_eq_dec : EqDecision note.
Proof. solve_decision. Defined.

(** The runs in which every subscriber unsubscribes at most once. *)
Inductive run : list note → Broker.t → Prop :=
| run_new : run [] NewBroker
| run_begin l b event cs :
    run l b → range_of (Event.ExecutionID event) cs b →
    run (l ++ [Published event]) (publish_begin event cs b)
| run_offer l b i event c cs taken b' :
    run l b → publishing b !! i = Some (event, c :: cs) →
    publish_offer event c b = Some (taken, b') →
    run (l ++ [if taken : bool then Taken c event else Dropped c event])
        (set_publishing (<[i := (event, cs)]> (publishing b)) b')
| run_end l b i event :
    run l b → publishing b !! i = Some (event, []) →
    run l (set_publishing (delete i (publishing b)) b)
| run_subscribe l b executionID :
    run l b → publishing b = [] →
    run (l ++ [Subscribed executionID (Subscribe executionID b).1]) (Subscribe executionID b).2
| run_unsubscribe l b executionID channel b' :
    run l b → publishing b = [] →
    Subscribed executionID channel ∈ l → Unsubscribed executionID channel ∉ l →
    unsubscribe executionID channel b = Some b' →
    run (l ++ [Unsubscribed executionID channel]) b'
| run_receive l b channel event b' :
    run l b → receive channel b = Some (event, b') → run (l ++ [Received channel event]) b'.

(** What a channel took and what was received from it. *)
Definition taken (c : nat) (l : list note) : list Event.t :=
  omap (λ n, match n with Taken c' e => if decide (c' = c) then Some e else None | _ => None end) l.
Definition received (c : nat) (l : list note) : list Event.t :=
  omap (λ n, match n with
             | Received c' (Some e) => if decide (c' = c) then Some e else None
             | _ => None
             end) l.

(** ** The invariant *)

Record wf (l : list note) (b : Broker.t) : Prop := {
  (* a channel is subscribed while its subscriber has not left, and is then open *)
  wf_member i c : c ∈ subscribed i b ↔ Subscribed i c ∈ l ∧ Unsubscribed i c ∉ l;
  wf_exists i c : Subscribed i c ∈ l → ∃ ch, channels b !! c = Some ch ∧
    Channel.closed ch = bool_decide (Unsubscribed i c ∈ l);
  wf_left i c : Unsubscribed i c ∈ l → Subscribed i c ∈ l;
  wf_one i j c : Subscribed i c ∈ l → Subscribed j c ∈ l → i = j;
  wf_nonempty i s : subscribers b !! i = Some s → s ≠ ∅;
  wf_publishing e cs c : (e, cs) ∈ publishing b → c ∈ cs → c ∈ subscribed (Event.ExecutionID e) b;
  (* first in, first out, and bounded *)
  wf_buffer c ch : channels b !! c = Some ch →
    taken c l = received c l ++ Channel.buffer ch ∧
    length (Channel.buffer ch) ≤ Channel.capacity;
  wf_unknown c : channels b !! c = None → taken c l = [] ∧ received c l = []
}.

Lemma taken_app c l l' : taken c (l ++ l') = taken c l ++ taken c l'.
Proof. apply omap_app. Qed.
Lemma received_app c l l' : received c (l ++ l') = received c l ++ received c l'.
Proof. apply omap_app. Qed.

Lemma elem_snoc {A} (x y : A) l : x ∈ l ++ [y] ↔ x ∈ l ∨ x = y.
Proof. by rewrite elem_of_app, list_elem_of_singleton. Qed.

(** A note about an offer, a publication or a receive is about no subscription. *)
Definition about_subscriptions (n : note) : bool :=
  match n with Subscribed _ _ | Unsubscribed _ _ => true | _ => false end.

Lemma subscriptions_snoc l n i c :
  about_subscriptions n = false →
  (Subscribed i c ∈ l ++ [n] ↔ Subscribed i c ∈ l) ∧
  (Unsubscribed i c ∈ l ++ [n] ↔ Unsubscribed i c ∈ l).
Proof. intros Hn. rewrite !elem_snoc. split; (split; [|by left]); by intros [|<-]. Qed.

(** The part of the invariant about subscriptions after a step that leaves them. *)
Lemma wf_same l b n b' :
  wf l b → about_subscriptions n = false →
  subscribers b' = subscribers b →
  (∀ c ch, channels b !! c = Some ch →
     ∃ ch', channels b' !! c = Some ch' ∧ Channel.closed ch' = Channel.closed ch) →
  (∀ e cs c, (e, cs) ∈ publishing b' → c ∈ cs → c ∈ subscribed (Event.ExecutionID e) b) →
  (∀ c ch, channels b' !! c = Some ch →
     taken c (l ++ [n]) = received c (l ++ [n]) ++ Channel.buffer ch ∧
     length (Channel.buffer ch) ≤ Channel.capacity) →
  (∀ c, channels b' !! c = None → taken c (l ++ [n]) = [] ∧ received c (l ++ [n]) = []) →
  wf (l ++ [n]) b'.
Proof.
  intros Hwf Hn Hs Hc Hp Hb Hu. split; try done.
  - intros i c. destruct (subscriptions_snoc l n i c Hn) as [-> ->].
    unfold subscribed. rewrite Hs. apply (wf_member _ _ Hwf).
  - intros i c. destruct (subscriptions_snoc l n i c Hn) as [-> Hun]. intros Hi.
    destruct (wf_exists _ _ Hwf i c Hi) as (ch & Hch & Hcl).
    destruct (Hc c ch Hch) as (ch' & Hch' & E). exists ch'. split; [done|]. rewrite E, Hcl.
    by apply bool_decide_ext.
  - intros i c. destruct (subscriptions_snoc l n i c Hn) as [-> ->]. apply (wf_left _ _ Hwf).
  - intros i j c. rewrite (proj1 (subscriptions_snoc l n i c Hn)),
      (proj1 (subscriptions_snoc l n j c Hn)). apply (wf_one _ _ Hwf).
  - intros i s. rewrite Hs. apply (wf_nonempty _ _ Hwf).
  - intros e cs c H1 H2. unfold subscribed. rewrite Hs. by eapply Hp.
Qed.

Lemma wf_new : wf [] NewBroker.
Proof.
  split; unfold subscribed; simpl; try done.
  - intros i c. rewrite lookup_empty. simpl. set_solver.
  - intros i c H. by apply not_elem_of_nil in H.
  - intros i c H. by apply not_elem_of_nil in H.
  - intros i j c H. by apply not_elem_of_nil in H.
  - intros e cs c H. by apply not_elem_of_nil in H.
Qed.

Lemma wf_begin l b event cs :
  wf l b → range_of (Event.ExecutionID event) cs b →
  wf (l ++ [Published event]) (publish_begin event cs b).
Proof.
  intros Hwf Hr. apply (wf_same l b); simpl; try done.
  - intros c ch Hch. by exists ch.
  - intros e ds c. rewrite elem_snoc. intros [He|[= -> ->]]; [by eapply wf_publishing|].
    by rewrite Hr, elem_of_elements.
  - intros c ch Hch. rewrite taken_app, received_app. simpl. rewrite !app_nil_r.
    by eapply wf_buffer.
  - intros c Hch. rewrite taken_app, received_app. simpl. rewrite !app_nil_r.
    by eapply wf_unknown.
Qed.

Lemma subscribed_set i j s (m : gmap string (gset nat)) chs p :
  subscribed i (mk (<[j := s]> m) chs p) = if decide (i = j) then s else default ∅ (m !! i).
Proof. unfold subscribed. simpl. rewrite lookup_insert_case. by case_decide. Qed.

Lemma wf_offer l b i event c cs tk b' :
  wf l b → publishing b !! i = Some (event, c :: cs) →
  publish_offer event c b = Some (tk, b') →
  wf (l ++ [if tk : bool then Taken c event else Dropped c event])
     (set_publishing (<[i := (event, cs)]> (publishing b)) b').
Proof.
  intros Hwf Hi Ho. unfold publish_offer in Ho.
  destruct (channels b !! c) as [ch|] eqn:Hch; [|done]. simpl in Ho.
  destruct (Channel.offer event ch) as [[tk' ch']|] eqn:E; simplify_eq/=.
  assert (Channel.closed ch' = Channel.closed ch ∧
          (tk = true → Channel.buffer ch' = Channel.buffer ch ++ [event] ∧
                       length (Channel.buffer ch) < Channel.capacity) ∧
          (tk = false → ch' = ch)) as (Hcl & Ht & Hf).
  { unfold Channel.offer in E. destruct (Channel.closed ch) eqn:?; [done|].
    destruct (Nat.ltb_spec (length (Channel.buffer ch)) Channel.capacity); simplify_eq/=;
      by split_and!. }
  destruct (wf_buffer _ _ Hwf c ch Hch) as [Hbuf Hlen].
  apply (wf_same l b); simpl; try done; [by destruct tk|..].
  - intros d dh Hd. rewrite lookup_insert. case_decide; simplify_eq; eauto.
  - intros e ds d He Hd. apply list_elem_of_lookup in He as [j Hj].
    apply list_lookup_insert_Some in Hj as [(-> & [= -> ->] & _)|[_ Hj]];
      eapply (wf_publishing _ _ Hwf); (apply list_elem_of_lookup; by eauto) || by right || done.
  - intros d dh. rewrite taken_app, received_app, lookup_insert. case_decide as Hcd.
    + intros [= <-]. subst d. destruct tk; simpl; rewrite ?decide_True, !app_nil_r by done.
      * destruct (Ht eq_refl) as [-> Hlt]. rewrite Hbuf, (assoc_L (++)). split; [done|].
        rewrite length_app. simpl. lia.
      * by rewrite (Hf eq_refl).
    + intros Hd. destruct tk; simpl; rewrite ?decide_False, !app_nil_r by done;
        by eapply wf_buffer.
  - intros d. rewrite taken_app, received_app, lookup_insert. case_decide as Hcd; [done|].
    intros Hd. destruct tk; simpl; rewrite ?decide_False, !app_nil_r by done; by eapply wf_unknown.
Qed.

Lemma wf_end l b i event :
  wf l b → publishing b !! i = Some (event, []) →
  wf l (set_publishing (delete i (publishing b)) b).
Proof.
  intros Hwf Hi. destruct Hwf. split; simpl; try done.
  intros e cs c He%list_elem_of_delete_inv. by apply wf_publishing0.
Qed.

Lemma wf_subscribe l b executionID :
  wf l b → publishing b = [] →
  wf (l ++ [Subscribed executionID (Subscribe executionID b).1]) (Subscribe executionID b).2.
Proof.
  intros Hwf Hp. simpl. set (c := fresh (dom (channels b))).
  assert (channels b !! c = None) as Hc by apply not_elem_of_dom, is_fresh.
  assert (∀ i, Subscribed i c ∉ l) as Hnew.
  { intros i Hi. destruct (wf_exists _ _ Hwf i c Hi) as (ch & E & _). congruence. }
  assert (∀ i d, Unsubscribed i d ∈ l ++ [Subscribed executionID c] ↔ Unsubscribed i d ∈ l) as Hun.
  { intros i d. rewrite elem_snoc. split; [by intros [|]|by left]. }
  assert (∀ i, Unsubscribed i c ∉ l) as Hnewu by (by intros i Hi%(wf_left _ _ Hwf); eapply Hnew).
  split; simpl.
  - intros i d. rewrite subscribed_set, elem_snoc, Hun. fold (subscribed i b).
    pose proof (wf_member _ _ Hwf i d) as Hm. case_decide; [subst i|naive_solver].
    rewrite elem_of_union, elem_of_singleton. naive_solver.
  - intros i d. rewrite elem_snoc. intros Hi. rewrite lookup_insert. case_decide as Hcd.
    + subst d. eexists. split; [done|]. simpl. rewrite bool_decide_eq_false_2; [done|].
      rewrite Hun. apply Hnewu.
    + destruct Hi as [Hi|Hi]; [|naive_solver]. destruct (wf_exists _ _ Hwf i d Hi) as (ch & E & Hcl).
      exists ch. split; [done|]. rewrite Hcl. apply bool_decide_ext. by rewrite Hun.
  - intros i d. rewrite Hun, elem_snoc. intros Hi. left. by eapply wf_left.
  - intros i j d. rewrite !elem_snoc. intros [Hi|Hi] [Hj|Hj]; simplify_eq; try naive_solver.
    by eapply wf_one.
  - intros i s. rewrite lookup_insert_case. case_decide; [intros [= <-]; set_solver|].
    by eapply wf_nonempty.
  - intros e cs d. rewrite Hp. by intros ?%not_elem_of_nil.
  - intros d ch. rewrite taken_app, received_app, lookup_insert. simpl. rewrite !app_nil_r.
    case_decide; [intros [= <-]; subst d|by eapply wf_buffer].
    destruct (wf_unknown _ _ Hwf c Hc) as [-> ->]. split; [done|]. simpl. unfold Channel.capacity. lia.
  - intros d. rewrite taken_app, received_app, lookup_insert. simpl. rewrite !app_nil_r.
    case_decide; [done|]. by eapply wf_unknown.
Qed.

(** What the closure does for a subscriber that is still there. *)
Lemma unsubscribe_member l b executionID c :
  wf l b → Subscribed executionID c ∈ l → Unsubscribed executionID c ∉ l →
  ∃ s ch, subscribers b !! executionID = Some s ∧ c ∈ s ∧ channels b !! c = Some ch ∧
    Channel.closed ch = false ∧
    unsubscribe executionID c b =
      Some (mk (if decide (s ∖ {[c]} = ∅) then delete executionID (subscribers b)
                else <[executionID := s ∖ {[c]}]> (subscribers b))
               (<[c := Channel.mk (Channel.buffer ch) true]> (channels b)) (publishing b)).
Proof.
  intros Hwf Hs Hu. pose proof (proj2 (wf_member _ _ Hwf executionID c) (conj Hs Hu)) as Hm.
  destruct (wf_exists _ _ Hwf executionID c Hs) as (ch & Hch & Hcl).
  rewrite bool_decide_eq_false_2 in Hcl by done. unfold subscribed in Hm.
  destruct (subscribers b !! executionID) as [s|] eqn:E; simpl in Hm; [|set_solver].
  exists s, ch. split_and!; try done. unfold unsubscribe. rewrite E, Hch. simpl.
  unfold Channel.close. by rewrite Hcl.
Qed.

Lemma wf_unsubscribe l b executionID c b' :
  wf l b → publishing b = [] → Subscribed executionID c ∈ l → Unsubscribed executionID c ∉ l →
  unsubscribe executionID c b = Some b' → wf (l ++ [Unsubscribed executionID c]) b'.
Proof.
  intros Hwf Hp Hs Hu. destruct (unsubscribe_member _ _ _ _ Hwf Hs Hu) as
    (s & ch & Es & Hc & Hch & Hcl & ->). intros [= <-].
  assert (∀ i d, d ∈ subscribed i (mk (if decide (s ∖ {[c]} = ∅)
             then delete executionID (subscribers b)
             else <[executionID := s ∖ {[c]}]> (subscribers b)) ∅ []) ↔
           d ∈ subscribed i b ∧ ¬ (i = executionID ∧ d = c)) as Hsub.
  { intros i d. unfold subscribed. simpl. case_decide as Hd.
    - rewrite lookup_delete. destruct (decide (executionID = i)) as [<-|]; [|naive_solver].
      rewrite Es. simpl. set_solver.
    - rewrite lookup_insert. destruct (decide (executionID = i)) as [<-|]; [|naive_solver].
      rewrite Es. simpl. set_solver. }
  split; simpl.
  - intros i d. rewrite !elem_snoc. etrans; [apply Hsub|]. rewrite (wf_member _ _ Hwf). naive_solver.
  - intros i d. rewrite !elem_snoc. intros [Hi|]; [|done]. rewrite lookup_insert.
    destruct (decide (c = d)) as [Hcd|Hcd].
    + subst d. eexists. split; [done|]. rewrite (wf_one _ _ Hwf i executionID c Hi Hs). simpl.
      rewrite bool_decide_eq_true_2; [done|]. apply elem_snoc. by right.
    + destruct (wf_exists _ _ Hwf i d Hi) as (dh & E & Hdcl). exists dh. split; [done|].
      rewrite Hdcl. apply bool_decide_ext. rewrite elem_snoc. naive_solver.
  - intros i d. rewrite !elem_snoc. intros [Hi|[= -> ->]]; left; [by eapply wf_left|done].
  - intros i j d. rewrite !elem_snoc. intros [Hi|] [Hj|]; try done. by eapply wf_one.
  - intros i s'. case_decide as Hd.
    + rewrite lookup_delete. case_decide; [done|]. by eapply wf_nonempty.
    + rewrite lookup_insert. case_decide; [by intros [= <-]|]. by eapply wf_nonempty.
  - intros e cs d. rewrite Hp. by intros ?%not_elem_of_nil.
  - intros d dh. rewrite taken_app, received_app, lookup_insert. simpl. rewrite !app_nil_r.
    intros Hd. destruct (decide (c = d)) as [<-|]; simplify_eq/=; by eapply wf_buffer.
  - intros d. rewrite taken_app, received_app, lookup_insert. simpl. rewrite !app_nil_r.
    destruct (decide (c = d)); [done|]. by eapply wf_unknown.
Qed.

Lemma wf_receive l b c event b' :
  wf l b → receive c b = Some (event, b') → wf (l ++ [Received c event]) b'.
Proof.
  intros Hwf Hr. unfold receive in Hr. destruct (channels b !! c) as [ch|] eqn:Hch; [|done].
  simpl in Hr. destruct (wf_buffer _ _ Hwf c ch Hch) as [Hbuf Hlen].
  destruct (Channel.receive ch) as [[ev ch']|] eqn:E; simplify_eq/=.
  assert (Channel.closed ch' = Channel.closed ch ∧
          match event with
          | Some e => Channel.buffer ch = e :: Channel.buffer ch'
          | None => ch' = ch
          end) as [Hcl He].
  { unfold Channel.receive in E. destruct (Channel.buffer ch) eqn:?; [case_match|];
      by simplify_eq/=. }
  apply (wf_same l b); simpl; try done.
  - intros d dh Hd. rewrite lookup_insert. case_decide; simplify_eq; eauto.
  - intros e cs d. apply (wf_publishing _ _ Hwf).
  - intros d dh. rewrite taken_app, received_app, lookup_insert. simpl. rewrite app_nil_r.
    destruct (decide (c = d)) as [Hcd|Hcd].
    + intros [= <-]. subst d. destruct event as [e|]; simpl; rewrite ?decide_True by done.
      * rewrite Hbuf, He, <-(assoc_L (++)). simpl. rewrite He in Hlen. simpl in Hlen.
        split; [done|lia].
      * rewrite app_nil_r. by rewrite He.
    + intros Hd. destruct event; simpl; rewrite ?decide_False, ?app_nil_r by done;
        by eapply wf_buffer.
  - intros d. rewrite taken_app, received_app, lookup_insert. simpl. rewrite app_nil_r.
    case_decide as Hcd; [done|]. intros Hd.
    destruct event; simpl; rewrite ?decide_False, ?app_nil_r by done; by eapply wf_unknown.
Qed.

Lemma run_wf l b : run l b → wf l b.
Proof.
  induction 1; eauto using wf_new, wf_begin, wf_offer, wf_end, wf_subscribe, wf_unsubscribe,
    wf_receive.
Qed.

(** ** Properties *)

Lemma snoc_split {A} (l l1 l2 : list A) x y :
  l ++ [y] = l1 ++ x :: l2 → (l = l1 ∧ y = x ∧ l2 = []) ∨ ∃ l3, l = l1 ++ x :: l3 ∧ l2 = l3 ++ [y].
Proof.
  destruct l2 as [|z l2 _] using rev_ind; intros E.
  - apply app_inj_tail in E as [-> ->]. by left.
  - right. exists l2. rewrite app_comm_cons, (assoc_L (++)) in E. by apply app_inj_tail in E as [-> ->].
Qed.

Lemma run_published l b : run l b → ∀ e cs, (e, cs) ∈ publishing b → Published e ∈ l.
Proof.
  induction 1 as [|l b event cs _ IH _|l b i event c ds tk b' _ IH Hi Ho|l b i event _ IH _
                 |l b executionID _ IH Hp|l b executionID c b' _ IH Hp _ _ Hu|l b c event b' _ IH Hr];
    simpl; intros e ds' He; rewrite ?elem_snoc.
  - by apply not_elem_of_nil in He.
  - apply elem_snoc in He as [He|[= -> ->]]; [left; by eapply IH|by right].
  - left. apply list_elem_of_lookup in He as [j Hj].
    apply list_lookup_insert_Some in Hj as [(_ & [= -> ->] & _)|[_ Hj]];
      eapply IH, list_elem_of_lookup; eauto.
  - by eapply IH, list_elem_of_delete_inv.
  - rewrite Hp in He. by apply not_elem_of_nil in He.
  - assert (publishing b' = publishing b) as E.
    { unfold unsubscribe in Hu. destruct (subscribers b !! executionID); simplify_eq/=; [|done].
      destruct (channels b !! c) as [ch|]; simplify_eq/=.
      destruct (Channel.close ch); by simplify_eq/=. }
    rewrite E, Hp in He. by apply not_elem_of_nil in He.
  - left. eapply (IH e ds'). unfold receive in Hr.
    destruct (channels b !! c) as [ch|]; simplify_eq/=.
    destruct (Channel.receive ch) as [[]|]; by simplify_eq/=.
Qed.

(** Which channel an event was offered to, and whether it was taken. *)
Definition offer_of (n : note) : option (nat * Event.t * bool) :=
  match n with
  | Taken c e => Some (c, e, true)
  | Dropped c e => Some (c, e, false)
  | _ => None
  end.

(** An offer is of an event that was published for an execution the channel was
    subscribed to; it is refused only by a channel whose buffer is full. *)
Lemma run_offers l b n c e tk l1 l2 :
  run l b → l = l1 ++ n :: l2 → offer_of n = Some (c, e, tk) →
  Published e ∈ l1 ∧ Subscribed (Event.ExecutionID e) c ∈ l1 ∧
  (tk = false → length (taken c l1) = length (received c l1) + Channel.capacity).
Proof.
  intros Hr. revert l1 l2.
  induction Hr as [|l b event cs _ IH _|l b i event d ds tk' b' Hr IH Hi Ho|l b i event _ IH _
                 |l b executionID _ IH Hp|l b executionID d b' _ IH Hp _ _ Hu|l b d event b' _ IH _];
    intros l1 l2 Hl Hn; [by destruct l1| | |by eapply IH|..];
    (apply snoc_split in Hl as [(-> & <- & _)|(l3 & -> & _)]; [|by eapply IH]); try done.
  assert (d = c ∧ event = e ∧ tk' = tk) as (-> & -> & ->) by (destruct tk'; by simplify_eq/=).
  pose proof (run_wf _ _ Hr) as Hwf. apply list_elem_of_lookup_2 in Hi as Hin.
  split; [by eapply run_published|]. split.
  { eapply (wf_member _ _ Hwf), wf_publishing; [done|done|by left]. }
  intros ->. unfold publish_offer in Ho. destruct (channels b !! c) as [ch|] eqn:Hch; [|done].
  simpl in Ho. unfold Channel.offer in Ho. destruct (Channel.closed ch); [done|].
  destruct (Nat.ltb_spec (length (Channel.buffer ch)) Channel.capacity); simplify_eq/=.
  destruct (wf_buffer _ _ Hwf c ch Hch) as [-> ?]. rewrite length_app. lia.
Qed.

Lemma offer_open l b e c cs : wf l b → (e, c :: cs) ∈ publishing b → is_Some (publish_offer e c b).
Proof.
  intros Hr He.
  assert (c ∈ subscribed (Event.ExecutionID e) b) as [Hs Hu]%(wf_member _ _ Hr)
    by (eapply wf_publishing; [done..|by left]).
  destruct (wf_exists _ _ Hr _ _ Hs) as (ch & Hch & Hcl).
  rewrite bool_decide_eq_false_2 in Hcl by done. unfold publish_offer. rewrite Hch. simpl.
  unfold Channel.offer. rewrite Hcl. case_match; simpl; eauto.
Qed.

Lemma leave_open l b i c :
  wf l b → Subscribed i c ∈ l → Unsubscribed i c ∉ l → is_Some (unsubscribe i c b).
Proof.
  intros Hr Hs Hu. destruct (unsubscribe_member _ _ _ _ Hr Hs Hu) as (s & ch & _ & _ & _ & _ & ->).
  eauto.
Qed.

(** C20: The broker never panics as long as every subscriber unsubscribes once: the channels a
    publisher has yet to visit are open (no send on a closed channel, whatever interleaves), and
    a subscriber that is still there can leave.  Unsubscribing a second time is harmless
    when nobody else follows the execution, and panics when somebody does. *)
Theorem broker_safe l b :
  run l b →
  (∀ e c cs, (e, c :: cs) ∈ publishing b → is_Some (publish_offer e c b)) ∧
  (∀ i c, Subscribed i c ∈ l → Unsubscribed i c ∉ l → is_Some (unsubscribe i c b)) ∧
  (∀ i c, Unsubscribed i c ∈ l → unsubscribe i c b = None ↔ subscribed i b ≠ ∅).
Proof.
  intros Hr%run_wf. split_and!.
  - intros e c cs. by apply (offer_open l).
  - intros i c. by apply (leave_open l).
  - intros i c Hu. pose proof (wf_left _ _ Hr _ _ Hu) as Hs.
    destruct (wf_exists _ _ Hr _ _ Hs) as (ch & Hch & Hcl).
    rewrite bool_decide_eq_true_2 in Hcl by done. unfold unsubscribe, subscribed.
    destruct (subscribers b !! i) as [s|] eqn:E; simpl; [|done]. rewrite Hch. simpl.
    unfold Channel.close. rewrite Hcl. split; [|done]. intros _. by eapply wf_nonempty.
Qed.

(** C26: What a subscriber gets: its channel delivers the events it took in the order it took
    them, each once, and at most 32 wait; it is offered only events published for its
    execution, and one is dropped only when 32 wait already. *)
Theorem broker_delivery l b c :
  run l b →
  (∀ ch, channels b !! c = Some ch →
     taken c l = received c l ++ Channel.buffer ch ∧ length (Channel.buffer ch) ≤ 32) ∧
  (∀ l1 l2 n e tk, l = l1 ++ n :: l2 → offer_of n = Some (c, e, tk) →
     Published e ∈ l1 ∧ Subscribed (Event.ExecutionID e) c ∈ l1 ∧
     (tk = false → length (taken c l1) = length (received c l1) + 32)).
Proof.
  intros Hr. split.
  - intros ch Hch. by apply (wf_buffer _ _ (run_wf _ _ Hr)).
  - intros l1 l2 n e tk Hl Hn. by eapply run_offers.
Qed.

Lemma offer_all_spec e cs b :
  NoDup cs → (∀ c, c ∈ cs → ∃ ch, channels b !! c = Some ch ∧ Channel.closed ch = false) →
  ∃ b', offer_all e cs b = Some b' ∧ subscribers b' = subscribers b ∧
    ∀ c, channels b' !! c = ch ← channels b !! c;
                            if decide (c ∈ cs) then snd <$> Channel.offer e ch else Some ch.
Proof.
  intros Hnd. revert b. induction Hnd as [|c cs Hc _ IH]; intros b Hop; simpl.
  { exists b. split_and!; [done..|]. intros c. by destruct (channels b !! c). }
  destruct (Hop c) as (ch & Hch & Hcl); [by left|]. unfold publish_offer. rewrite Hch. simpl.
  destruct (Channel.offer e ch) as [[tk ch']|] eqn:Eo.
  2: { unfold Channel.offer in Eo. rewrite Hcl in Eo. by case_match. }
  simpl. set (b1 := mk _ _ _). destruct (IH b1) as (b' & -> & Hs & Hb').
  { intros d Hd. simpl. rewrite lookup_insert_ne by (by intros ->). apply Hop. by right. }
  exists b'. split_and!; [done|done|]. intros d. rewrite Hb'. simpl.
  destruct (decide (d = c)) as [->|Hdc].
  - rewrite lookup_insert_eq, Hch. simpl. rewrite (decide_False (P:=c ∈ cs)) by done.
    rewrite (decide_True (P:=c ∈ c :: cs)) by (by left). by rewrite Eo.
  - rewrite lookup_insert_ne by done. destruct (channels b !! d); simpl; [|done].
    assert (d ∈ cs ↔ d ∈ c :: cs) as Hiff by (rewrite elem_of_cons; naive_solver).
    by rewrite (decide_ext _ _ _ _ Hiff).
Qed.

(** An uninterrupted [Publish] never fails, offers the event once to every channel that
    follows the execution, and touches no other. *)
Theorem publish_complete l b e cs :
  run l b → range_of (Event.ExecutionID e) cs b →
  ∃ b', Publish e cs b = Some b' ∧ subscribers b' = subscribers b ∧
    ∀ c, channels b' !! c = ch ← channels b !! c;
      if decide (c ∈ subscribed (Event.ExecutionID e) b)
      then Some (if decide (length (Channel.buffer ch) < 32)
                 then Channel.mk (Channel.buffer ch ++ [e]) false else ch)
      else Some ch.
Proof.
  intros Hr%run_wf Hcs. unfold Publish.
  assert (∀ c, c ∈ subscribed (Event.ExecutionID e) b →
    ∃ ch, channels b !! c = Some ch ∧ Channel.closed ch = false) as Hop.
  { intros c [Hs Hu]%(wf_member _ _ Hr). destruct (wf_exists _ _ Hr _ _ Hs) as (ch & Hch & Hcl).
    exists ch. by rewrite Hcl, bool_decide_eq_false_2. }
  destruct (offer_all_spec e cs b) as (b' & Hb & Hs & Hc).
  { rewrite Hcs. apply NoDup_elements. }
  { intros c. rewrite Hcs, elem_of_elements. apply Hop. }
  exists b'. split_and!; [done|done|]. intros c. rewrite Hc.
  destruct (channels b !! c) as [ch|] eqn:Hch; [|done]. simpl.
  destruct (decide (c ∈ subscribed (Event.ExecutionID e) b)) as [Hin|Hin].
  - rewrite decide_True by (by rewrite Hcs, elem_of_elements). destruct (Hop c Hin) as (ch' & E & Hcl).
    simplify_eq. unfold Channel.offer, Channel.capacity. rewrite Hcl.
    destruct (Nat.ltb_spec (length (Channel.buffer ch)) 32); simpl;
      [by rewrite decide_True|by rewrite decide_False by lia].
  - rewrite decide_False; [done|]. by rewrite Hcs, elem_of_elements.
Qed.

(** ** A run: two subscribers of one execution, an event for each, one leaves *)

Definition demo_event (n : Z) : Event.t := Event.mk "x" "agent.thinking" "" [] n.

Definition demo_notes : list note :=
  [Subscribed "x" 0; Subscribed "x" 1; Published (demo_event 1); Taken 0 (demo_event 1);
   Received 0 (Some (demo_event 1)); Taken 1 (demo_event 1); Unsubscribed "x" 0].

Definition demo_broker : Broker.t :=
  mk {["x" := {[1]}]} {[0 := Channel.mk [] true; 1 := Channel.mk [demo_event 1] false]} [].

Lemma demo_broker_run : ∃ b, run demo_notes b ∧ subscribed "x" b = {[1]} ∧
  channels b !! 1 = Some (Channel.mk [demo_event 1] false).
Proof.
  pose proof run_new as R.
  apply (run_subscribe _ _ "x") in R; [|vm_compute; reflexivity].
  apply (run_subscribe _ _ "x") in R; [|vm_compute; reflexivity].
  apply (run_begin _ _ (demo_event 1) [0; 1]) in R; [|apply perm_swap].
  eapply (run_offer _ _ 0) in R; [|vm_compute; reflexivity..].
  eapply (run_receive _ _ 0) in R; [|vm_compute; reflexivity..].
  eapply (run_offer _ _ 0) in R; [|vm_compute; reflexivity..].
  eapply (run_end _ _ 0) in R; [|vm_compute; reflexivity..].
  eapply (run_unsubscribe _ _ "x" 0) in R; [|vm_compute; reflexivity|..|vm_compute; reflexivity].
  - eexists. split; [exact R|]. by vm_compute.
  - vm_compute. by left.
  - vm_compute. intros H. repeat (apply elem_of_cons in H as [H|H]; [discriminate|]).
    by apply not_elem_of_nil in H.
Qed.

Lemma broker_safe_witness :
  ∃ b, run demo_notes b ∧ is_Some (unsubscribe "x" 1 b) ∧ unsubscribe "x" 0 b = None.
Proof.
  destruct demo_broker_run as (b & Hr & Hs & _). exists b. split; [exact Hr|].
  destruct (broker_safe demo_notes b Hr) as (_ & Hone & Htwice). split.
  - apply (Hone "x" 1); [apply (bool_decide_eq_true_1 _); reflexivity|].
    intros Hu. revert Hu. apply (bool_decide_eq_false_1 _). reflexivity.
  - apply Htwice; [apply (bool_decide_eq_true_1 _); reflexivity|]. rewrite Hs. set_solver.
Defined.

Lemma broker_delivery_witness :
  ∃ b, run demo_notes b ∧ taken 1 demo_notes = [demo_event 1] ∧ received 1 demo_notes = [] ∧
       taken 1 demo_notes = received 1 demo_notes ++ [demo_event 1].
Proof.
  destruct demo_broker_run as (b & Hr & _ & Hc). exists b.
  destruct (broker_delivery demo_notes b 1 Hr) as [Hd _]. destruct (Hd _ Hc) as [Ht _].
  split; [exact Hr|]. split; [reflexivity|]. split; [reflexivity|]. exact Ht.
Defined.

Lemma publish_complete_witness :
  ∃ b b', run demo_notes b ∧ Publish (demo_event 2) [1] b = Some b' ∧
    channels b' !! 1 = Some (Channel.mk [demo_event 1; demo_event 2] false).
Proof.
  destruct demo_broker_run as (b & Hr & Hs & Hc). exists b.
  destruct (publish_complete demo_notes b (demo_event 2) [1] Hr) as (b' & Hp & _ & Hch).
  { unfold range_of. simpl. by rewrite Hs, elements_singleton. }
  exists b'. split; [exact Hr|]. split; [exact Hp|]. rewrite Hch, Hc. cbn.
  rewrite Hs. reflexivity.
Defined.
