(* ===== verification/WebSocket.v ===== *)
(** * [streamExecution]: websockets that follow executions

    The loop of [streamExecution] of [internal/httpapi/server.go], once the connection is
    a websocket, over the in-process broker: any number of handlers subscribe, copy events to their
    connection and leave, while publishers publish.  A handler leaves when its channel is
    closed, a write fails or its request ends, and its deferred call unsubscribes. *)

From S2P Require Import Prelude GoLang Domain World Stream Broker.
Open Scope Z_scope.

Import Broker.

Module Follower.
Record t := mk { execution : string; channel : nat; at_ : place; written : list Event.t }.

Definition move (p : place) (f : t) : t := mk (execution f) (channel f) p (written f).

(** The select has received from the channel. *)
Definition received_from (event : option Event.t) (f : t) : t :=
  move (match event with Some event => Writing event | None => Leaving end) f.

(** [WriteJSON] has returned. *)
Definition wrote (event : Event.t) (failed : bool) (f : t) : t :=
  if failed then move Leaving f
  else mk (execution f) (channel f) Waiting (written f ++ [event]).
End Follower.

Record system := mkSystem {
  events : Broker.t;
  followers : list Follower.t;
  log : list note
}.

Definition idle : system := mkSystem Broker.NewBroker [] [].

Inductive move : system → system → Prop :=
| move_open s executionID :
    publishing (events s) = [] →
    move s (mkSystem (Subscribe executionID (events s)).2
              (followers s ++ [Follower.mk executionID (Subscribe executionID (events s)).1
                                           Waiting []])
              (log s ++ [Subscribed executionID (Subscribe executionID (events s)).1]))
| move_receive s i f event b :
    followers s !! i = Some f → Follower.at_ f = Waiting →
    receive (Follower.channel f) (events s) = Some (event, b) →
    move s (mkSystem b (<[i := Follower.received_from event f]> (followers s))
              (log s ++ [Received (Follower.channel f) event]))
| move_write s i f event failed :
    followers s !! i = Some f → Follower.at_ f = Writing event →
    move s (mkSystem (events s) (<[i := Follower.wrote event failed f]> (followers s)) (log s))
| move_done s i f :
    followers s !! i = Some f → Follower.at_ f = Waiting →
    move s (mkSystem (events s) (<[i := Follower.move Leaving f]> (followers s)) (log s))
| move_leave s i f b :
    followers s !! i = Some f → Follower.at_ f = Leaving → publishing (events s) = [] →
    unsubscribe (Follower.execution f) (Follower.channel f) (events s) = Some b →
    move s (mkSystem b (<[i := Follower.move Gone f]> (followers s))
              (log s ++ [Unsubscribed (Follower.execution f) (Follower.channel f)]))
| move_publish s event cs :
    range_of (Event.ExecutionID event) cs (events s) →
    move s (mkSystem (publish_begin event cs (events s)) (followers s) (log s ++ [Published event]))
| move_offer s i event c cs taken b :
    publishing (events s) !! i = Some (event, c :: cs) →
    publish_offer event c (events s) = Some (taken, b) →
    move s (mkSystem (set_publishing (<[i := (event, cs)]> (publishing (events s))) b) (followers s)
              (log s ++ [if taken : bool then Taken c event else Dropped c event]))
| move_published s i event :
    publishing (events s) !! i = Some (event, []) →
    move s (mkSystem (set_publishing (delete i (publishing (events s))) (events s)) (followers s)
              (log s)).

(** ** The invariant *)

(** The event that was received last, if it was not written. *)
Definition pending (f : Follower.t) (lost : list Event.t) : Prop := in_hand (Follower.at_ f) lost.

Definition follows (l : list note) (f : Follower.t) : Prop :=
  Subscribed (Follower.execution f) (Follower.channel f) ∈ l ∧
  (Unsubscribed (Follower.execution f) (Follower.channel f) ∈ l ↔ Follower.at_ f = Gone) ∧
  ∃ lost, received (Follower.channel f) l = Follower.written f ++ lost ∧ pending f lost.

Record fine (s : system) : Prop := {
  fine_run : run (log s) (events s);
  fine_channels : NoDup (Follower.channel <$> followers s);
  fine_followers f : f ∈ followers s → follows (log s) f
}.

Lemma fine_idle : fine idle.
Proof. split; [constructor|constructor|]. intros f Hf. by apply not_elem_of_nil in Hf. Qed.

(** A follower is not concerned by a note that is not about its channel. *)
Definition concerns (c : nat) (n : note) : bool :=
  match n with
  | Subscribed _ c' | Unsubscribed _ c' | Received c' _ => bool_decide (c' = c)
  | _ => false
  end.

Lemma follows_snoc l n f :
  concerns (Follower.channel f) n = false → follows l f → follows (l ++ [n]) f.
Proof.
  intros Hn (Hs & Hu & lost & Hl & Hp). unfold follows. rewrite !elem_snoc. split_and!.
  - by left.
  - rewrite <- Hu. split; [|by left]. intros [?|<-]; [done|]. simpl in Hn.
    by rewrite bool_decide_eq_true_2 in Hn.
  - exists lost. split; [|done]. rewrite received_app, Hl. simpl.
    destruct n as [| | | | |c [e|]]; simpl in *; rewrite ?app_nil_r; try done.
    apply bool_decide_eq_false in Hn. by rewrite decide_False, app_nil_r.
Qed.

(** A step of one follower, and the note it leaves. *)
Lemma fine_insert s i f f' b l :
  fine s → followers s !! i = Some f → Follower.channel f' = Follower.channel f →
  run l b → follows l f' →
  (∀ g, Follower.channel g ≠ Follower.channel f → follows (log s) g → follows l g) →
  fine (mkSystem b (<[i := f']> (followers s)) l).
Proof.
  intros [Hr Hn Hf] Hi Hc Hr' Hf' Ho. split; simpl; [done| |].
  - rewrite list_fmap_insert, Hc, list_insert_id; [done|]. by rewrite list_lookup_fmap, Hi.
  - intros g (j & Hj)%list_elem_of_lookup.
    apply list_lookup_insert_Some in Hj as [(_ & -> & _)|[Hij Hj]]; [done|].
    apply Ho; [|by apply Hf, list_elem_of_lookup; exists j].
    intros E. apply Hij. eapply (NoDup_lookup _ _ _ (Follower.channel f) Hn);
      rewrite list_lookup_fmap; [by rewrite Hi|by rewrite Hj; simpl; f_equal].
Qed.

(** The channel of a new subscriber is unknown. *)
Lemma fresh_channel l b executionID :
  run l b → let c := (Subscribe executionID b).1 in
  channels b !! c = None ∧ ∀ i, Subscribed i c ∉ l.
Proof.
  intros Hr%run_wf c. assert (channels b !! c = None) as Hc by apply not_elem_of_dom, is_fresh.
  split; [done|]. intros i (ch & Hch & _)%(wf_exists _ _ Hr). congruence.
Qed.

Lemma fine_open s executionID :
  publishing (events s) = [] → fine s →
  fine (mkSystem (Subscribe executionID (events s)).2
          (followers s ++ [Follower.mk executionID (Subscribe executionID (events s)).1
                                       Waiting []])
          (log s ++ [Subscribed executionID (Subscribe executionID (events s)).1])).
Proof.
  intros Hp [Hr Hn Hf]. destruct (fresh_channel _ _ executionID Hr) as [Hc Hs].
  set (c := (Subscribe executionID (events s)).1) in *.
  assert (∀ f, f ∈ followers s → Follower.channel f ≠ c) as Hne.
  { intros f Hin E. destruct (Hf f Hin) as [Hsub _]. rewrite E in Hsub. by destruct (Hs _ Hsub). }
  split; cbn [events followers log].
  - by constructor.
  - rewrite fmap_app. apply NoDup_app. split_and!; [done| |apply NoDup_singleton].
    intros d (f & -> & Hin)%list_elem_of_fmap Hd. apply list_elem_of_singleton in Hd.
    by apply (Hne f).
  - intros f Hin. apply elem_of_app in Hin as [Hin|Hin].
    + apply follows_snoc; [|by apply Hf]. apply bool_decide_eq_false. intros E. by apply (Hne f).
    + apply list_elem_of_singleton in Hin as ->. unfold follows; simpl. rewrite !elem_snoc. split_and!.
      * by right.
      * split; [|done]. intros [Hu|]; [|done]. by apply (wf_left _ _ (run_wf _ _ Hr)), Hs in Hu.
      * exists []. split; [|done]. rewrite received_app. by rewrite (proj2 (wf_unknown _ _ (run_wf _ _ Hr) c Hc)).
Qed.

(** The steps of publishers change no follower. *)
Lemma fine_publishers s b l :
  fine s → run l b → (l = log s ∨ ∃ n, l = log s ++ [n] ∧ ∀ c, concerns c n = false) →
  fine (mkSystem b (followers s) l).
Proof.
  intros [Hr Hn Hf] Hr' Hl. split; simpl; [done..|]. intros f Hin.
  destruct Hl as [->|(n & -> & Hc)]; [by apply Hf|]. apply follows_snoc; [done|by apply Hf].
Qed.

Lemma fine_move s s' : fine s → move s s' → fine s'.
Proof.
  intros F Hm. pose proof (fine_run _ F) as Hr.
  destruct Hm as [s i Hp|s i f event b Hi Hw Hb|s i f event failed Hi Hw|s i f Hi Hw|s i f b Hi Hl Hp Hb
                 |s event cs Hcs|s i event c cs tk b Hi Ho|s i event Hi]; cbn [log events followers] in *.
  - by apply fine_open.
  - destruct (fine_followers _ F f (list_elem_of_lookup_2 _ _ _ Hi)) as (Hs & Hu & lost & Hlost & Hpe).
    unfold pending in Hpe. rewrite Hw in Hu, Hpe. simpl in Hpe. subst lost. rewrite app_nil_r in Hlost.
    apply (fine_insert s i f); [done|done|by destruct event|by econstructor| |].
    + destruct event as [e|]; unfold follows; simpl; rewrite !elem_snoc, received_app, Hlost; simpl.
      * rewrite decide_True by done. split_and!; [by left|naive_solver|by exists [e]].
      * split_and!; [by left|naive_solver|exists []; split; [done|unfold pending; simpl; lia]].
    + intros g Hg. apply follows_snoc. by apply bool_decide_eq_false.
  - destruct (fine_followers _ F f (list_elem_of_lookup_2 _ _ _ Hi)) as (Hs & Hu & lost & Hlost & Hpe).
    unfold pending in Hpe. rewrite Hw in Hu, Hpe. simpl in Hpe. subst lost.
    apply (fine_insert s i f); [done|done|by destruct failed|done| |done].
    destruct failed; unfold follows; simpl; (split_and!; [done|naive_solver|]).
    + exists [event]. split; [done|unfold pending; simpl; lia].
    + exists []. by rewrite app_nil_r.
  - destruct (fine_followers _ F f (list_elem_of_lookup_2 _ _ _ Hi)) as (Hs & Hu & lost & Hlost & Hpe).
    unfold pending in Hpe. rewrite Hw in Hu, Hpe. simpl in Hpe. subst lost.
    apply (fine_insert s i f); [done..| |done]. unfold follows; simpl; split_and!; [done|naive_solver|].
    exists []. split; [done|unfold pending; simpl; lia].
  - destruct (fine_followers _ F f (list_elem_of_lookup_2 _ _ _ Hi)) as (Hs & Hu & lost & Hlost & Hpe).
    unfold pending in Hpe. rewrite Hl in Hu, Hpe. simpl in Hpe.
    apply (fine_insert s i f); [done|done|done| | |].
    + apply (run_unsubscribe _ (events s)); try done. by rewrite Hu.
    + unfold follows; simpl. rewrite !elem_snoc, received_app, app_nil_r. split_and!; [by left| |by exists lost].
      split; [done|by right].
    + intros g Hg. apply follows_snoc. by apply bool_decide_eq_false.
  - apply fine_publishers; [done|by constructor|right]. by eexists.
  - apply fine_publishers; [done|by eapply run_offer|right]. eexists. split; [done|]. by destruct tk.
  - apply fine_publishers; [done|by eapply run_end|by left].
Qed.

Lemma reachable_fine s : rtc move idle s → fine s.
Proof.
  intros Hr. pose proof fine_idle as F. induction Hr as [|s s1 s2 Hm _ IH]; [done|].
  by eapply IH, fine_move.
Qed.

(** What a channel took was offered to it. *)
Lemma taken_offer c e l : e ∈ taken c l → ∃ l1 l2, l = l1 ++ Taken c e :: l2.
Proof.
  intros (n & Hn & E)%list_elem_of_omap. destruct n as [|c' e'| | | |]; try done. simpl in E.
  case_decide; simplify_eq. apply list_elem_of_split in Hn as (l1 & l2 & ->). by exists l1, l2.
Qed.

(** C21: The websockets of the API and the broker fit together, for any number of handlers and
    publishers in any interleaving: no publisher sends on a closed channel and no handler
    that leaves closes one twice; a handler never finds its channel closed before it has
    left; what its channel took is what it has written to its connection, each event once and
    in order, the event it is about to write (or could not write, when it leaves) and those
    that wait; and all it writes was published for the execution it follows. *)
Theorem websockets_follow s :
  rtc move idle s →
  (∀ e c cs, (e, c :: cs) ∈ publishing (events s) → is_Some (publish_offer e c (events s))) ∧
  ∀ f, f ∈ followers s →
    (Follower.at_ f = Leaving →
     is_Some (unsubscribe (Follower.execution f) (Follower.channel f) (events s))) ∧
    (Follower.at_ f ≠ Gone → ∀ b, receive (Follower.channel f) (events s) ≠ Some (None, b)) ∧
    (∃ ch lost, channels (events s) !! Follower.channel f = Some ch ∧ pending f lost ∧
       taken (Follower.channel f) (log s) = Follower.written f ++ lost ++ Channel.buffer ch) ∧
    Forall (λ e, Event.ExecutionID e = Follower.execution f ∧ Published e ∈ log s) (Follower.written f).
Proof.
  intros F%reachable_fine. pose proof (run_wf _ _ (fine_run _ F)) as Hw.
  split; [intros e c cs; by apply (offer_open (log s))|].
  intros f Hf. destruct (fine_followers _ F f Hf) as (Hs & Hu & lost & Hl & Hpe).
  destruct (wf_exists _ _ Hw _ _ Hs) as (ch & Hch & Hcl).
  assert (taken (Follower.channel f) (log s) = Follower.written f ++ lost ++ Channel.buffer ch) as Hp.
  { by rewrite (proj1 (wf_buffer _ _ Hw _ _ Hch)), Hl, <- (assoc_L (++)). }
  split_and!; [| |by exists ch, lost|].
  - intros E. apply (leave_open (log s)); [done..|]. rewrite Hu, E. done.
  - intros Hg b Hb. unfold receive in Hb. rewrite Hch in Hb. simpl in Hb.
    rewrite bool_decide_eq_false_2 in Hcl by (by rewrite Hu). unfold Channel.receive in Hb.
    rewrite Hcl in Hb. by destruct (Channel.buffer ch).
  - apply Forall_forall. intros e He.
    destruct (taken_offer (Follower.channel f) e (log s)) as (l1 & l2 & El).
    { rewrite Hp. apply elem_of_app. by left. }
    destruct (run_offers _ _ _ _ _ _ _ _ (fine_run _ F) El eq_refl) as (Hpub & Hsub & _).
    rewrite El. split; [|apply elem_of_app; by left].
    eapply (wf_one _ _ Hw); [|exact Hs]. rewrite El. apply elem_of_app. by left.
Qed.

(** ** Schedules

    A move is determined by who makes it. *)

Inductive turn :=
| Opens (executionID : string) | Receives (i : nat) | Writes (i : nat) (failed : bool)
| IsDone (i : nat) | Leaves (i : nat)
| Publishes (event : Event.t) | Offers (i : nat) | Ends (i : nat).

Definition take_turn (t : turn) (s : system) : option system :=
  match t with
  | Opens executionID =>
      if decide (publishing (events s) = []) then
        let '(c, b) := Subscribe executionID (events s) in
        Some (mkSystem b (followers s ++ [Follower.mk executionID c Waiting []])
                (log s ++ [Subscribed executionID c]))
      else None
  | Receives i =>
      f ← followers s !! i;
      match Follower.at_ f with
      | Waiting =>
          '(event, b) ← receive (Follower.channel f) (events s);
          Some (mkSystem b (<[i := Follower.received_from event f]> (followers s))
                  (log s ++ [Received (Follower.channel f) event]))
      | _ => None
      end
  | Writes i failed =>
      f ← followers s !! i;
      match Follower.at_ f with
      | Writing event =>
          Some (mkSystem (events s) (<[i := Follower.wrote event failed f]> (followers s)) (log s))
      | _ => None
      end
  | IsDone i =>
      f ← followers s !! i;
      match Follower.at_ f with
      | Waiting =>
          Some (mkSystem (events s) (<[i := Follower.move Leaving f]> (followers s)) (log s))
      | _ => None
      end
  | Leaves i =>
      f ← followers s !! i;
      match Follower.at_ f with
      | Leaving =>
          if decide (publishing (events s) = []) then
            b ← unsubscribe (Follower.execution f) (Follower.channel f) (events s);
            Some (mkSystem b (<[i := Follower.move Gone f]> (followers s))
                    (log s ++ [Unsubscribed (Follower.execution f) (Follower.channel f)]))
          else None
      | _ => None
      end
  | Publishes event =>
      Some (mkSystem (publish_begin event (elements (subscribed (Event.ExecutionID event) (events s)))
                                    (events s)) (followers s) (log s ++ [Published event]))
  | Offers i =>
      match publishing (events s) !! i with
      | Some (event, c :: cs) =>
          '(taken, b) ← publish_offer event c (events s);
          Some (mkSystem (set_publishing (<[i := (event, cs)]> (publishing (events s))) b) (followers s)
                  (log s ++ [if taken : bool then Taken c event else Dropped c event]))
      | _ => None
      end
  | Ends i =>
      match publishing (events s) !! i with
      | Some (event, []) =>
          Some (mkSystem (set_publishing (delete i (publishing (events s))) (events s)) (followers s)
                  (log s))
      | _ => None
      end
  end.

Lemma take_turn_move t s s' : take_turn t s = Some s' → move s s'.
Proof.
  destruct t as [x|i|i failed|i|i|event|i|i]; simpl; intros E.
  - case_decide; [|done]. injection E as <-. by apply move_open.
  - destruct (followers s !! i) as [f|] eqn:Hi; [|done]. simpl in E.
    destruct (Follower.at_ f) eqn:Hf; try done.
    destruct (receive _ _) as [[event b]|] eqn:Hb; [|done]. injection E as <-. by apply move_receive.
  - destruct (followers s !! i) as [f|] eqn:Hi; [|done]. simpl in E.
    destruct (Follower.at_ f) eqn:Hf; try done. injection E as <-. by apply move_write.
  - destruct (followers s !! i) as [f|] eqn:Hi; [|done]. simpl in E.
    destruct (Follower.at_ f) eqn:Hf; try done. injection E as <-. by apply move_done.
  - destruct (followers s !! i) as [f|] eqn:Hi; [|done]. simpl in E.
    destruct (Follower.at_ f) eqn:Hf; try done. case_decide; [|done].
    destruct (unsubscribe _ _ _) as [b|] eqn:Hb; [|done]. injection E as <-. by apply move_leave.
  - injection E as <-. apply move_publish. unfold range_of. reflexivity.
  - destruct (publishing (events s) !! i) as [[event [|c cs]]|] eqn:Hi; try done.
    destruct (publish_offer _ _ _) as [[tk b]|] eqn:Hb; [|done]. injection E as <-.
    by apply (move_offer _ _ _ c).
  - destruct (publishing (events s) !! i) as [[event [|c cs]]|] eqn:Hi; try done.
    injection E as <-. by apply (move_published _ _ event).
Qed.

Lemma turns_reach ts s s' : foldl (λ o t, o ≫= take_turn t) (Some s) ts = Some s' → rtc move s s'.
Proof.
  revert s. induction ts as [|t ts IH]; simpl; intros s E; [by injection E as <-|].
  destruct (take_turn t s) as [s1|] eqn:E1.
  - eapply rtc_l; [by eapply take_turn_move|]. by apply IH.
  - exfalso. clear IH. induction ts; simpl in E; [done|by apply IHts].
Qed.

(** Two handlers follow one execution; one of them leaves while an event is on its way. *)
Definition hello : Event.t := Event.mk "x" "agent.started" "" [] 0.

Definition demo_turns : list turn :=
  [Opens "x"; Opens "x"; Publishes hello; Offers 0; IsDone 1; Offers 0; Receives 0; Writes 0 false;
   Ends 0; Leaves 1].

Lemma websockets_follow_witness :
  ∃ s f, foldl (λ o t, o ≫= take_turn t) (Some idle) demo_turns = Some s ∧
    followers s !! 0%nat = Some f ∧ Follower.written f = [hello] ∧
    (∃ ch lost, channels (events s) !! Follower.channel f = Some ch ∧ pending f lost ∧
       taken (Follower.channel f) (log s) = Follower.written f ++ lost ++ Channel.buffer ch) ∧
    Forall (λ e, Event.ExecutionID e = Follower.execution f ∧ Published e ∈ log s) (Follower.written f).
Proof.
  assert (∃ s f, foldl (λ o t, o ≫= take_turn t) (Some idle) demo_turns = Some s ∧
    followers s !! 0%nat = Some f ∧ Follower.written f = [hello]) as (s & f & Hr & Hf & Hw).
  { eexists _, _. split; [vm_compute; reflexivity|]. split; reflexivity. }
  exists s, f. destruct (websockets_follow s (turns_reach _ _ _ Hr)) as [_ Hall].
  destruct (Hall f (list_elem_of_lookup_2 _ _ _ Hf)) as (_ & _ & Hp & He).
  exact (conj Hr (conj Hf (conj Hw (conj Hp He)))).
Defined.
