(* ===== verification/Sha256.v ===== *)
(** * [crypto/sha256]: the hash the API key is kept under

    FIPS 180-4 on bytes, with 32-bit words as integers modulo [2^32]. *)

From S2P Require Import Prelude GoLang GoString.
Open Scope Z_scope.

Module Sha256.
Definition word (z : Z) : Z := z mod 2 ^ 32.
Definition add32 (a b : Z) : Z := word (a + b).
Definition rotr (x : Z) (n : Z) : Z := Z.lor (Z.shiftr x n) (word (Z.shiftl x (32 - n))).

(** Big-endian words. *)
Definition be_word (b : list Z) : Z := foldl (λ acc x, acc * 256 + x) 0 b.
Fixpoint be_bytes (n : nat) (z : Z) : list Z :=
  match n with O => [] | S n => be_bytes n (z / 256) ++ [z mod 256] end.

Fixpoint chunks (fuel n : nat) (l : list Z) : list (list Z) :=
  match fuel, l with
  | S fuel, _ :: _ => take n l :: chunks fuel n (drop n l)
  | _, _ => []
  end.

(** The message, a one bit, zeros up to 8 bytes before the end of a block, the length. *)
Definition pad (msg : list Z) : list Z :=
  let n := length msg in
  msg ++ [128] ++ replicate ((119 - n mod 64) mod 64) 0 ++ be_bytes 8 (8 * Z.of_nat n).

(** The constants of the standard are the first 32 bits of the fractional parts of the
    square and cube roots of the first primes. *)
Definition prime (p : nat) : bool :=
  (2 <=? p)%nat && forallb (λ d, negb (p mod d =? 0)%nat) (seq 2 (p - 2)).
Definition primes (n : nat) : list Z := Z.of_nat <$> take n (List.filter prime (seq 2 310)).

(** The integer cube root, one bit at a time. *)
Fixpoint cube_root (bits : nat) (root x : Z) : Z :=
  match bits with
  | O => root
  | S k => let try := root + 2 ^ Z.of_nat k in
           cube_root k (if try * try * try <=? x then try else root) x
  end.

Definition initial : list Z :=
  Eval vm_compute in (λ p, word (Z.sqrt (p * 2 ^ 64))) <$> primes 8.
Definition round_constants : list Z :=
  Eval vm_compute in (λ p, word (cube_root 36 0 (p * 2 ^ 96))) <$> primes 64.

(** One more word of the message schedule, which is kept with the last word first. *)
Definition schedule_word (w : list Z) : Z :=
  let at_ n := default 0 (w !! n) in
  let w15 := at_ 14%nat in let w2 := at_ 1%nat in
  let s0 := Z.lxor (Z.lxor (rotr w15 7) (rotr w15 18)) (Z.shiftr w15 3) in
  let s1 := Z.lxor (Z.lxor (rotr w2 17) (rotr w2 19)) (Z.shiftr w2 10) in
  add32 (add32 (at_ 15%nat) s0) (add32 (at_ 6%nat) s1).
Definition schedule (block : list Z) : list Z :=
  reverse (Nat.iter 48 (λ w, schedule_word w :: w)
             (reverse (be_word <$> chunks 16 4 block))).

Definition round (h : list Z) (kw : Z * Z) : list Z :=
  match h with
  | [a; b; c; d; e; f; g; hh] =>
      let s1 := Z.lxor (Z.lxor (rotr e 6) (rotr e 11)) (rotr e 25) in
      let ch := Z.lxor (Z.land e f) (Z.land (Z.lxor e (2 ^ 32 - 1)) g) in
      let t1 := add32 (add32 hh s1) (add32 ch (add32 kw.1 kw.2)) in
      let s0 := Z.lxor (Z.lxor (rotr a 2) (rotr a 13)) (rotr a 22) in
      let maj := Z.lxor (Z.lxor (Z.land a b) (Z.land a c)) (Z.land b c) in
      [add32 t1 (add32 s0 maj); a; b; c; add32 d t1; e; f; g]
  | _ => h
  end.

Definition compress (h : list Z) (block : list Z) : list Z :=
  zip_with add32 h (foldl round h (zip round_constants (schedule block))).

(** [sha256.Sum256]: 32 bytes. *)
Definition Sum256 (msg : list Z) : list Z :=
  let padded := pad msg in
  concat (be_bytes 4 <$> foldl compress initial (chunks (length padded) 64 padded)).
End Sha256.

(** The published digests of the empty message, of [abc], and of a message of two blocks. *)
Example Sum256_empty :
  EncodeToString (Sha256.Sum256 []) =
  "e3b0c44298fc1c149afbf4c8996fb92427ae41e4649b934ca495991b7852b855".
Proof. vm_compute. reflexivity. Qed.
Example Sum256_abc :
  EncodeToString (Sha256.Sum256 (bytes "abc")) =
  "ba7816bf8f01cfea414140de5dae2223b00361a396177a9cb410ff61f20015ad".
Proof. vm_compute. reflexivity. Qed.
Example Sum256_two_blocks :
  EncodeToString (Sha256.Sum256 (bytes "abcdbcdecdefdefgefghfghighijhijkijkljklmklmnlmnomnopnopq")) =
  "248d6a61d20638b8e5c026930c3e6039a33ce45964ff2167f6ecedd419db06c1".
Proof. vm_compute. reflexivity. Qed.
