(* ===== verification/Auth.v ===== *)
(** * [internal/auth]: who calls, what a role may do, and how often

    [jwt.Parse] is code of another package: [Jwt] is what this package uses of it, and
    [JwtLaws] its documented behaviour.  Everything after it is the code.  The middleware
    functions are functions of the request's headers and the clock; the limiter's
    section under its mutex is one transition of its map. *)

From Stdlib Require Import Sorted.
From S2P Require Import Prelude GoLang GoString Sha256.
Open Scope Z_scope.

(** ** Tokens *)

(** What is used of a [jwt.Token]: the name of its method, [Valid], and its claims when they
    are [jwt.MapClaims]. *)
Module Token.
Record t := mk { Alg : string; Valid : bool; Claims : option (gmap string value) }.
End Token.

Class Jwt := {
  (* [jwt.Parse] with [jwt.WithExpirationRequired()], at an instant; the key function sees the
     token's method *)
  Parse : (string → result (list Z)) → time → string → result Token.t;
  (* [jwt.SigningMethodHS256.Alg()] *)
  HS256 : string;
  (* [MapClaims.GetSubject] *)
  GetSubject : gmap string value → result string;
  (* what the laws talk about: a valid signature of a token by a method and a key, and the
     expiry and the claims a token carries *)
  signed : string → list Z → string → Prop;
  expiry : string → option time;
  claims_in : string → option (gmap string value)
}.

(** A token is returned only when the key function gave the key that verifies its
    signature and it has not expired, and with the claims it carries. *)
Class JwtLaws `{Jwt} := {
  parse_signed keys now token t :
    Parse keys now token = Ok t → ∃ key, keys (Token.Alg t) = Ok key ∧ signed (Token.Alg t) key token;
  parse_unexpired keys now token t :
    Parse keys now token = Ok t → ∃ exp, expiry token = Some exp ∧ now < exp;
  parse_claims keys now token t : Parse keys now token = Ok t → Token.Claims t = claims_in token
}.

(** ** Authentication *)

Module Principal.
Record t := mk { ID : string; Role : string }.

#[global] Instance eq_dec : EqDecision t.
Proof. solve_decision. Defined.

(** [Principal{}] *)
Definition zero : t := mk "" "".
End Principal.

Module Authenticator.
Record t := mk { jwtSecret : list Z; apiKeyHash : list Z; apiKeyUser : string }.

Definition New (jwtSecret apiKey apiKeyUser : string) : t :=
  mk (bytes jwtSecret) (Sha256.Sum256 (bytes apiKey)) apiKeyUser.

Section authenticate.
Context `{Jwt}.

(** The function given to [jwt.Parse]. *)
Definition keys (a : t) (alg : string) : result (list Z) :=
  if decide (alg = HS256) then Ok (jwtSecret a) else Err (ErrorString "unexpected signing method").

(** What is read from the claims. *)
Definition principal_of (claims : gmap string value) : result Principal.t :=
  match GetSubject claims with
  | Ok subject =>
      if decide (subject = "") then Err (ErrorString "subject is required")
      else
        let role := match claims !! "role" with Some (VString role) => role | _ => "" end in
        let role := if decide (role = "") then "developer" else role in
        Ok (Principal.mk subject role)
  | Err _ => Err (ErrorString "subject is required")
  end.

Definition authenticate (a : t) (now : time) (authorization apiKey : string)
    : result Principal.t :=
  if bool_decide (apiKey ≠ "") && bool_decide (Sha256.Sum256 (bytes apiKey) = apiKeyHash a)
  then Ok (Principal.mk (apiKeyUser a) "admin")
  else if negb (HasPrefix authorization "Bearer ")
  then Err (ErrorString "credentials are required")
  else match Parse (keys a) now (TrimPrefix authorization "Bearer ") with
       | Err _ => Err (ErrorString "invalid token")
       | Ok token =>
           if Token.Valid token then
             match Token.Claims token with
             | Some claims => principal_of claims
             | None => Err (ErrorString "invalid claims")
             end
           else Err (ErrorString "invalid token")
       end.
End authenticate.
End Authenticator.

(** [RequireRoles(roles...)]: whether the handler runs. *)
Definition RequireRoles (roles : list string) (principal : Principal.t) : bool :=
  bool_decide (Principal.Role principal ∈ roles).

(** ** The limiter *)

Module Visitor.
Record t := mk { windowStart : time; count : Z }.
Definition zero : t := mk zero_time 0.
End Visitor.

Module Limiter.
Record t := mk { visitors : gmap string Visitor.t; limit : Z; window : duration }.

Definition NewLimiter (limit : Z) (window : duration) : t := mk ∅ limit window.

(** The entry of a visitor once its request at [now] is counted. *)
Definition counted (window : duration) (now : time) (entry : Visitor.t) : Visitor.t :=
  let entry := if window <=? Sub now (Visitor.windowStart entry) then Visitor.mk now 0 else entry in
  Visitor.mk (Visitor.windowStart entry) (add64 (Visitor.count entry) 1).

(** The section under the mutex, and whether the request is allowed. *)
Definition allow (key : string) (now : time) (l : t) : bool * t :=
  let entry := counted (window l) now (default Visitor.zero (visitors l !! key)) in
  (Visitor.count entry <=? limit l,
   mk (<[key := entry]> (visitors l)) (limit l) (window l)).

(** Whom a request is counted for. *)
Definition key (principal : Principal.t) (clientIP : string) : string :=
  if decide (Principal.ID principal = "") then clientIP else Principal.ID principal.
End Limiter.

(** ** Properties of the authenticator *)

Section authenticator.
Context `{JwtLaws}.
Implicit Types (a : Authenticator.t).

(** The principal of a set of claims: a subject, and a role that is never empty. *)
Definition described_by (claims : gmap string value) (p : Principal.t) : Prop :=
  GetSubject claims = Ok (Principal.ID p) ∧ Principal.ID p ≠ "" ∧ Principal.Role p ≠ "" ∧
  (claims !! "role" = Some (VString (Principal.Role p)) ∨
   (Principal.Role p = "developer" ∧ ∀ r, r ≠ "" → claims !! "role" ≠ Some (VString r))).

Lemma principal_of_ok claims p :
  Authenticator.principal_of claims = Ok p ↔ described_by claims p.
Proof.
  unfold Authenticator.principal_of, described_by. destruct p as [i r]. simpl.
  destruct (GetSubject claims) as [s|]; [|naive_solver].
  case_decide as Hs; [naive_solver|].
  destruct (claims !! "role") as [[]|] eqn:E; repeat case_decide; naive_solver.
Qed.

(** C11: Who gets in: a caller is accepted only with an API key whose SHA-256 hash is the
    configured one, as the configured user and an administrator, or with a bearer token signed with
    HS256 under the configured secret that has not expired, as the subject of the claims this token
    carries, in the role they name, a developer when they name none. *)
Theorem authenticate_sound a now authorization apiKey p :
  Authenticator.authenticate a now authorization apiKey = Ok p →
  (apiKey ≠ "" ∧ Sha256.Sum256 (bytes apiKey) = Authenticator.apiKeyHash a ∧
   p = Principal.mk (Authenticator.apiKeyUser a) "admin") ∨
  ∃ token claims exp,
    bytes authorization = bytes "Bearer " ++ bytes token ∧
    signed HS256 (Authenticator.jwtSecret a) token ∧
    expiry token = Some exp ∧ now < exp ∧ claims_in token = Some claims ∧ described_by claims p.
Proof.
  unfold Authenticator.authenticate. destruct (_ && _) eqn:Ek.
  - apply andb_true_iff in Ek as [E1%bool_decide_eq_true E2%bool_decide_eq_true].
    intros [= <-]. by left.
  - clear Ek. destruct (HasPrefix authorization "Bearer ") eqn:Hp; simpl; [|done].
    destruct (Parse _ _ _) as [t|] eqn:Ht; [|done]. destruct (Token.Valid t); [|done].
    destruct (Token.Claims t) as [claims|] eqn:Hc; [|done]. intros Hd%principal_of_ok. right.
    rewrite (parse_claims _ _ _ _ Ht) in Hc.
    destruct (parse_signed _ _ _ _ Ht) as (k & Hk & Hs).
    destruct (parse_unexpired _ _ _ _ Ht) as (exp & He & Hn).
    unfold Authenticator.keys in Hk. case_decide as Ha; simplify_eq. rewrite Ha in Hs.
    exists (TrimPrefix authorization "Bearer "), claims, exp.
    split; [exact (TrimPrefix_split _ _ Hp)|]. by split_and!.
Qed.

(** The configured key, when it is not empty, always gets its user in as an administrator,
    whatever else the request carries; an empty key header never does. *)
Theorem authenticate_api_key secret key user now authorization :
  (key ≠ "" → Authenticator.authenticate (Authenticator.New secret key user) now authorization key =
              Ok (Principal.mk user "admin")) ∧
  (∀ a p, Authenticator.authenticate a now authorization "" = Ok p →
     bytes "Bearer " `prefix_of` bytes authorization).
Proof.
  split.
  - intros Hk. unfold Authenticator.authenticate. simpl. by rewrite !bool_decide_eq_true_2.
  - intros a p. unfold Authenticator.authenticate. simpl.
    destruct (HasPrefix authorization "Bearer ") eqn:Hp; [|done]. intros _.
    by apply bool_decide_eq_true in Hp.
Qed.
End authenticator.

(** ** Properties of the limiter *)

(** The answers to a sequence of requests, each with its key and its time. *)
Fixpoint answers (requests : list (string * time)) (l : Limiter.t) : list bool :=
  match requests with
  | [] => []
  | (key, now) :: requests =>
      let '(ok, l) := Limiter.allow key now l in ok :: answers requests l
  end.

(** The requests of one key. *)
Definition of_key (key : string) (requests : list (string * time)) : list (string * time) :=
  filter (λ r, r.1 = key) requests.

(** The answers to the requests of one key. *)
Fixpoint answers_to (key : string) (requests : list (string * time)) (oks : list bool) : list bool :=
  match requests, oks with
  | r :: requests, ok :: oks =>
      if decide (r.1 = key) then ok :: answers_to key requests oks else answers_to key requests oks
  | _, _ => []
  end.

Definition entry (key : string) (l : Limiter.t) : Visitor.t :=
  default Visitor.zero (Limiter.visitors l !! key).

Definition same_rule (l l' : Limiter.t) : Prop :=
  Limiter.limit l' = Limiter.limit l ∧ Limiter.window l' = Limiter.window l.

Lemma answers_alone key requests l l' :
  same_rule l l' → entry key l' = entry key l →
  answers_to key requests (answers requests l) = answers (of_key key requests) l'.
Proof.
  revert l l'. induction requests as [|[k now] requests IH]; intros l l' [Hl Hw] He; [done|].
  simpl. unfold of_key. rewrite filter_cons. simpl.
  case_decide as Hk; [subst k|].
  - simpl. fold (entry key l). fold (entry key l').
    rewrite He, Hw, Hl. f_equal. apply IH; [by split|]. unfold entry. simpl. by rewrite !lookup_insert_eq.
  - apply IH; [by split|]. unfold entry. simpl. by rewrite lookup_insert_ne.
Qed.

(** Callers do not share a quota: the answers one key gets, among any requests of other
    keys, are those it would get alone. *)
Theorem limiter_isolated limit window key requests :
  answers_to key requests (answers requests (Limiter.NewLimiter limit window)) =
  answers (of_key key requests) (Limiter.NewLimiter limit window).
Proof. by apply answers_alone. Qed.

(** One key's requests against its entry. *)
Fixpoint visit (limit : Z) (window : duration) (e : Visitor.t) (times : list time) : list bool :=
  match times with
  | [] => []
  | now :: times =>
      let e := Limiter.counted window now e in
      (Visitor.count e <=? limit) :: visit limit window e times
  end.

Lemma answers_visit key requests l :
  Forall (λ r, r.1 = key) requests →
  answers requests l =
  visit (Limiter.limit l) (Limiter.window l) (entry key l) (snd <$> requests).
Proof.
  revert l. induction requests as [|[k now] requests IH]; intros l; simpl; [done|].
  rewrite Forall_cons. simpl. intros [-> HF]. f_equal. rewrite IH by done. simpl.
  unfold entry. simpl. by rewrite lookup_insert_eq.
Qed.

(** How many of the requests in [lo, hi) were allowed. *)
Fixpoint granted (lo hi : time) (times : list time) (oks : list bool) : Z :=
  match times, oks with
  | now :: times, ok :: oks =>
      (if (lo <=? now) && (now <? hi) && ok then 1 else 0) + granted lo hi times oks
  | _, _ => 0
  end.

(** Requests may come out of the order of their times, since the time is taken before the lock; one
    that is late is so by at most [late]. *)
Definition late_by (late : duration) : list time → Prop := StronglySorted (λ t t', t ≤ t' + late).

Section window.
Context (limit : Z) (window : duration) (lo : time) (n : Z).
Context (Hlimit : 0 ≤ limit) (Hwindow : 0 < window ≤ max_int64) (Hn : 0 ≤ n).
Abbreviation hi := (lo + window).
(** Windows that begin from here on are of no interest. *)
Abbreviation top := (hi + n * window).

Lemma granted_after times oks : Forall (λ now, hi ≤ now) times → granted lo hi times oks = 0.
Proof.
  intros HF. revert oks. induction HF as [|now times Ht _ IH]; intros [|ok oks]; simpl; [done..|].
  rewrite IH. destruct (Z.ltb_spec now hi); [lia|]. by rewrite andb_false_r.
Qed.

Lemma counted_case now e :
  0 ≤ Visitor.count e < max_int64 →
  Limiter.counted window now e =
  if decide (window ≤ now - Visitor.windowStart e) then Visitor.mk now 1
  else Visitor.mk (Visitor.windowStart e) (Visitor.count e + 1).
Proof.
  intros He. unfold Limiter.counted.
  assert ((window <=? Sub now (Visitor.windowStart e)) =
          bool_decide (window ≤ now - Visitor.windowStart e)) as ->.
  { apply eq_bool_prop_intro. rewrite bool_decide_spec, Is_true_true, Z.leb_le.
    apply Sub_ge. unfold min_int64. lia. }
  case_decide; case_bool_decide; try done; simpl.
  f_equal. apply wrap64_id. unfold int64, min_int64, max_int64 in *. lia.
Qed.

#[local] Opaque Limiter.counted.

(** One request grants at most one place. *)
Lemma granted_cons now times ok oks :
  granted lo hi (now :: times) (ok :: oks) ≤ (if ok then 1 else 0) + granted lo hi times oks.
Proof. simpl. destruct ok, (lo <=? now), (now <? hi); simpl; lia. Qed.

(** What is left of a window, and of the [k] windows that may begin after it. *)
Lemma granted_from times k e :
  late_by (n * window) times → 0 ≤ k → top ≤ Visitor.windowStart e + (k + 1) * window →
  0 ≤ Visitor.count e → Visitor.count e + Z.of_nat (length times) ≤ max_int64 →
  granted lo hi times (visit limit window e times) ≤
    Z.max 0 (limit - Visitor.count e) + k * limit.
Proof.
  intros Hs. revert k e. induction Hs as [|now times Hs IH Hall]; intros k e Hk Htop Hc Hlen; [simpl; nia|].
  cbn [visit length] in *. rewrite counted_case by lia. case_decide as Hd.
  - destruct (Z.le_gt_cases top now) as [Hfar|Hnear].
    + simpl. rewrite granted_after; [|eapply Forall_impl; [exact Hall|simpl; lia]].
      destruct (Z.ltb_spec now hi); [nia|]. rewrite andb_false_r. simpl. nia.
    + etrans; [apply granted_cons|]. specialize (IH (k - 1) (Visitor.mk now 1)). simpl in IH |- *.
      specialize (IH ltac:(nia) ltac:(nia) ltac:(lia) ltac:(lia)).
      destruct (Z.leb_spec 1 limit); nia.
  - etrans; [apply granted_cons|].
    specialize (IH k (Visitor.mk (Visitor.windowStart e) (Visitor.count e + 1))). simpl in IH |- *.
    specialize (IH Hk Htop ltac:(lia) ltac:(lia)).
    destruct (Z.leb_spec (Visitor.count e + 1) limit); lia.
Qed.

Lemma granted_rate times e :
  late_by (n * window) times →
  0 ≤ Visitor.count e → Visitor.count e + Z.of_nat (length times) ≤ max_int64 →
  granted lo hi times (visit limit window e times) ≤ (2 + n) * limit.
Proof.
  intros Hs. revert e. induction Hs as [|now times Hs IH Hall]; intros e Hc Hlen; [simpl; nia|].
  destruct (Z.le_gt_cases (Visitor.windowStart e) (lo - window)) as [Hold|Hnew].
  2: { etrans; [apply (granted_from (now :: times) (n + 1) e)|]; [by constructor|lia|nia|lia|lia|nia]. }
  cbn [visit length] in *. rewrite counted_case by lia. case_decide as Hd.
  - destruct (Z.le_gt_cases now (lo - window)) as [Hout|Hin].
    + simpl. rewrite (proj2 (Z.leb_gt lo now)) by lia. simpl. apply IH; simpl; lia.
    + etrans; [apply granted_cons|].
      pose proof (granted_from times (n + 1) (Visitor.mk now 1) Hs) as Hb. simpl in Hb |- *.
      specialize (Hb ltac:(lia) ltac:(nia) ltac:(lia) ltac:(lia)).
      destruct (Z.leb_spec 1 limit); nia.
  - simpl. rewrite (proj2 (Z.leb_gt lo now)) by lia. simpl. apply IH; simpl; lia.
Qed.
End window.

(** C27: The rate: in any interval as long as the window a key is allowed at most twice the
    limit, whatever the other keys do, if its requests are counted in the order of their times.  The
    limiter reads the clock before it takes the lock, so they need not be: if one may be late by up to
    [n] windows, the bound is [2 + n] times the limit.  (The limit is not negative, the window positive,
    and the requests are fewer than 2^63.) *)
Theorem limiter_rate limit window key requests lo n :
  0 ≤ limit → 0 < window ≤ max_int64 → Z.of_nat (length requests) ≤ max_int64 → 0 ≤ n →
  late_by (n * window) (snd <$> of_key key requests) →
  granted lo (lo + window) (snd <$> of_key key requests)
    (answers_to key requests (answers requests (Limiter.NewLimiter limit window))) ≤
    (2 + n) * limit.
Proof.
  intros Hl Hw Hlen Hn Hs. rewrite (answers_alone key requests _ (Limiter.NewLimiter limit window)) by done.
  assert (length (of_key key requests) ≤ length requests)%nat.
  { apply length_filter. }
  rewrite (answers_visit key). 2: { apply Forall_forall. intros r [Hr _]%list_elem_of_filter. done. }
  change (entry key (Limiter.NewLimiter limit window)) with Visitor.zero.
  apply granted_rate; try done. rewrite length_fmap. simpl. lia.
Qed.

(** ** A concrete use

    A toy scheme: a token is the key, of six bytes, followed by the subject, and all are valid until
    1000. *)

Definition demo_claims (token : string) : gmap string value :=
  {["sub" := VString (of_bytes (drop 6 (bytes token)))]}.

#[local] Instance demo_jwt : Jwt := {|
  Parse keys now token :=
    match keys "HS256" with
    | Ok key =>
        if bool_decide (take 6 (bytes token) = key) && (now <? 1000)
        then Ok (Token.mk "HS256" true (Some (demo_claims token)))
        else Err (ErrorString "token is invalid")
    | Err err => Err err
    end;
  HS256 := "HS256";
  GetSubject claims := match claims !! "sub" with Some (VString s) => Ok s | _ => Ok "" end;
  signed alg key token := alg = "HS256" ∧ take 6 (bytes token) = key;
  expiry _ := Some 1000;
  claims_in token := Some (demo_claims token)
|}.

#[local] Instance demo_jwt_laws : JwtLaws.
Proof.
  split; intros keys now token t; simpl; destruct (keys "HS256") as [key|] eqn:E; try done;
    case_bool_decide; simpl; try done; destruct (Z.ltb_spec now 1000); try done; intros [= <-].
  - by exists key.
  - by exists 1000.
  - done.
Qed.

Definition demo_authenticator : Authenticator.t := Authenticator.New "secret" "dev-key" "root".

Lemma authenticate_sound_witness :
  Authenticator.authenticate demo_authenticator 5 "Bearer secretalice" "" =
    Ok (Principal.mk "alice" "developer") ∧
  ∃ token claims exp,
    bytes "Bearer secretalice" = bytes "Bearer " ++ bytes token ∧
    signed HS256 (bytes "secret") token ∧ expiry token = Some exp ∧ 5 < exp ∧
    claims_in token = Some claims ∧ described_by claims (Principal.mk "alice" "developer").
Proof.
  assert (Authenticator.authenticate demo_authenticator 5 "Bearer secretalice" "" =
          Ok (Principal.mk "alice" "developer")) as E by (vm_compute; reflexivity).
  split; [exact E|].
  destruct (authenticate_sound demo_authenticator 5 "Bearer secretalice" "" _ E) as [(Hk & _)|H];
    [by destruct Hk|exact H].
Defined.

Lemma authenticate_api_key_witness :
  Authenticator.authenticate demo_authenticator 5000 "" "dev-key" = Ok (Principal.mk "root" "admin") ∧
  Authenticator.authenticate demo_authenticator 5 "" "other-key" =
    Err (ErrorString "credentials are required").
Proof.
  split; [|vm_compute; reflexivity].
  apply (authenticate_api_key "secret" "dev-key" "root" 5000 ""). discriminate.
Defined.

(** Both bounds matter: in order, two requests just before a window ends and two just after; and
    with two requests that are counted late, one window more than twice the limit. *)
Lemma limiter_rate_witness :
  let requests := [("k", 60); ("other", 61); ("k", 118); ("k", 121); ("k", 122); ("k", 123)] in
  let late := [("k", 241); ("k", 300); ("k", 300); ("k", 301); ("k", 301); ("k", 301); ("k", 361);
               ("k", 350); ("k", 350)] in
  let ok rs limit := answers_to "k" rs (answers rs (Limiter.NewLimiter limit 60)) in
  ok requests 2 = [true; true; true; true; false] ∧
  granted 100 (100 + 60) (snd <$> of_key "k" requests) (ok requests 2) ≤ (2 + 0) * 2 ∧
  granted 300 (300 + 60) (snd <$> of_key "k" late) (ok late 3) = 7 ∧
  granted 300 (300 + 60) (snd <$> of_key "k" late) (ok late 3) ≤ (2 + 1) * 3.
Proof.
  intros requests late ok. split; [vm_compute; reflexivity|]. split; [|split; [vm_compute; reflexivity|]].
  - apply (limiter_rate 2 60 "k" requests 100 0); [lia| |vm_compute; discriminate|lia|].
    + split; [lia|vm_compute; discriminate].
    + unfold late_by. vm_compute. repeat constructor; discriminate.
  - apply (limiter_rate 3 60 "k" late 300 1); [lia| |vm_compute; discriminate|lia|].
    + split; [lia|vm_compute; discriminate].
    + unfold late_by. vm_compute. repeat constructor; discriminate.
Defined.
