(* ===== verification/Url.v ===== *)
(** * The host of a URL: [net/url] as [CheckOrigin] uses it

    [CheckOrigin] of [internal/httpapi/server.go] parses the Origin header of a websocket
    request and compares the host with the one the request is for.  [Parse] is [url.Parse] of Go 1.24,
    step by step, with the host as its result; [None] is an error.  (Later patch releases
    of Go also check that what stands in brackets is an IPv6 address.) *)

From S2P Require Import Prelude GoLang GoString Utf8.
Open Scope Z_scope.

(** Bytes that are compared with, by their character. *)
Definition byte_in (cs : string) (c : Z) : bool := existsb (Z.eqb c) (bytes cs).

Definition is_letter (c : Z) : bool := within 65 c 90 || within 97 c 122.
Definition is_digit (c : Z) : bool := within 48 c 57.

(** [strings.Cut] at a byte, and at its last occurrence ([strings.LastIndex]). *)
Fixpoint cut (b : Z) (l : list Z) : option (list Z * list Z) :=
  match l with
  | [] => None
  | c :: l => if c =? b then Some ([], l)
              else '(before, after) ← cut b l; Some (c :: before, after)
  end.
Definition cut_last (b : Z) (l : list Z) : option (list Z * list Z) :=
  '(after, before) ← cut b (reverse l); Some (reverse before, reverse after).

(** [strings.Index(s, "%25")]: what comes before, and the rest from there on. *)
Fixpoint cut_zone (l : list Z) : option (list Z * list Z) :=
  match l with
  | [] => None
  | c :: rest =>
      if decide (take 3 l = [37; 50; 53]) then Some ([], l)
      else '(before, after) ← cut_zone rest; Some (c :: before, after)
  end.

(** [unescape] in one of its modes: which escapes and which plain bytes it accepts. *)
Fixpoint unescape (escape_ok : Z → Z → bool) (plain_ok : Z → bool) (l : list Z) : option (list Z) :=
  match l with
  | [] => Some []
  | c :: l =>
      if c =? 37 then
        match l with
        | a :: b :: l =>
            x ← undigit a; y ← undigit b;
            if escape_ok x y then rest ← unescape escape_ok plain_ok l; Some (16 * x + y :: rest)
            else None
        | _ => None
        end
      else if plain_ok c then rest ← unescape escape_ok plain_ok l; Some (c :: rest) else None
  end.

(** [shouldEscape(c, encodeHost)], the same for [encodeZone]. *)
Definition escape_host (c : Z) : bool :=
  negb (is_letter c || is_digit c || byte_in "!$&'()*+,;=:[]<>" c || (c =? 34) || byte_in "-_.~" c).

Definition host_plain (c : Z) : bool := negb ((c <? 128) && escape_host c).
Definition host_escape (x y : Z) : bool := (8 <=? x) || ((x =? 2) && (y =? 5)).
Definition zone_escape (x y : Z) : bool :=
  ((x =? 2) && (y =? 5)) || (16 * x + y =? 32) || negb (escape_host (16 * x + y)).
Definition any_escape (x y : Z) : bool := true.
Definition any_plain (c : Z) : bool := true.

Definition unescape_host : list Z → option (list Z) := unescape host_escape host_plain.
Definition unescape_zone : list Z → option (list Z) := unescape zone_escape host_plain.
(** Paths, user information and fragments: only malformed escapes are refused. *)
Definition unescape_other : list Z → option (list Z) := unescape any_escape any_plain.

(** [validOptionalPort]: nothing, or a colon and digits. *)
Definition validOptionalPort (port : list Z) : bool :=
  match port with [] => true | c :: digits => (c =? 58) && forallb is_digit digits end.

Definition parseHost (host : list Z) : option (list Z) :=
  if decide (head host = Some 91) then
    '(literal, colonPort) ← cut_last 93 host;
    if validOptionalPort colonPort then
      match cut_zone literal with
      | Some (address, zone) =>
          host1 ← unescape_host address;
          host2 ← unescape_zone zone;
          host3 ← unescape_host (93 :: colonPort);
          Some (host1 ++ host2 ++ host3)
      | None => unescape_host host
      end
    else None
  else
    match cut_last 58 host with
    | Some (_, port) => if validOptionalPort (58 :: port) then unescape_host host else None
    | None => unescape_host host
    end.

Definition validUserinfo (user : list Z) : bool :=
  forallb (λ c, is_letter c || is_digit c || byte_in "-._:~!$&'()*+,;=%@" c) user.

Definition parseAuthority (authority : list Z) : option (list Z) :=
  match cut_last 64 authority with
  | None => parseHost authority
  | Some (userinfo, host) =>
      host ← parseHost host;
      if validUserinfo userinfo then
        match cut 58 userinfo with
        | None => unescape_other userinfo ≫= λ _, Some host
        | Some (username, password) =>
            unescape_other username ≫= λ _, unescape_other password ≫= λ _, Some host
        end
      else None
  end.

(** What precedes the first byte without the property, and the rest. *)
Fixpoint span (p : Z → bool) (l : list Z) : list Z * list Z :=
  match l with
  | [] => ([], [])
  | c :: rest => if p c then let '(before, after) := span p rest in (c :: before, after) else ([], l)
  end.

Definition scheme_byte (c : Z) : bool := is_letter c || is_digit c || byte_in "+-." c.

(** [getScheme]: the scheme and what follows it; no scheme is the empty one. *)
Definition getScheme (l : list Z) : option (list Z * list Z) :=
  match span scheme_byte l with
  | ([], 58 :: _) => None
  | (c :: scheme, 58 :: rest) => Some (if is_letter c then (c :: scheme, rest) else ([], l))
  | _ => Some ([], l)
  end.

Definition control_byte (c : Z) : bool := (c <? 32) || (c =? 127).

(** What precedes the first [b], or everything. *)
Definition before (b : Z) (l : list Z) : list Z := from_option fst l (cut b l).

(** The authority and the path that [rest] starts with, if it has an authority. *)
Definition split_authority (scheme rest : list Z) : option (list Z) * list Z :=
  match rest with
  | 47 :: 47 :: authority =>
      if decide (scheme = [] ∧ head authority = Some 47) then (None, rest)
      else (Some (before 47 authority), drop (length (before 47 authority)) authority)
  | _ => (None, rest)
  end.

(** The body of [parse], for a URL without fragment. *)
Definition parse (l : list Z) : option (list Z) :=
  if existsb control_byte l then None
  else if decide (l = [42]) then Some []
  else
    '(scheme, rest) ← getScheme l;
    let rest := before 63 rest in
    if decide (head rest ≠ Some 47 ∧ scheme ≠ []) then Some []
    else if bool_decide (head rest ≠ Some 47) && existsb (Z.eqb 58) (before 47 rest) then None
    else
      let '(authority, path) := split_authority scheme rest in
      host ← (match authority with Some a => parseAuthority a | None => Some [] end);
      unescape_other path ≫= λ _, Some host.

(** [url.Parse], up to the [Host] of its result. *)
Definition Parse (rawURL : string) : option string :=
  let '(l, fragment) := from_option id (bytes rawURL, []) (cut 35 (bytes rawURL)) in
  host ← parse l;
  unescape_other fragment ≫= λ _, Some (of_bytes host).

(** The check of the Origin header by the upgrader of [New]. *)
Definition CheckOrigin (origin host : string) : bool :=
  if decide (origin = "") then true
  else match Parse origin with Some parsed => bool_decide (parsed = host) | None => false end.

(** ** Splitting *)

Lemma cut_none b l : Forall (λ c, c ≠ b) l → cut b l = None.
Proof. induction 1 as [|c l Hc _ IH]; simpl; [done|]. rewrite (proj2 (Z.eqb_neq c b)), IH; done. Qed.

Lemma cut_at b l r : Forall (λ c, c ≠ b) l → cut b (l ++ b :: r) = Some (l, r).
Proof.
  induction 1 as [|c l Hc _ IH]; simpl; [by rewrite Z.eqb_refl|].
  rewrite (proj2 (Z.eqb_neq c b)), IH; done.
Qed.

Lemma cut_last_none b l : Forall (λ c, c ≠ b) l → cut_last b l = None.
Proof. intros H. unfold cut_last. rewrite cut_none; [done|]. by rewrite Forall_reverse. Qed.

Lemma cut_last_at b l r : Forall (λ c, c ≠ b) r → cut_last b (l ++ b :: r) = Some (l, r).
Proof.
  intros H. unfold cut_last. rewrite reverse_app, reverse_cons, <-app_assoc. simpl.
  rewrite cut_at by (by rewrite Forall_reverse). simpl. by rewrite !reverse_involutive.
Qed.

Lemma before_all b l : Forall (λ c, c ≠ b) l → before b l = l.
Proof. intros H. unfold before. by rewrite cut_none. Qed.

Lemma span_stop p l c r : Forall (λ b, p b = true) l → p c = false → span p (l ++ c :: r) = (l, c :: r).
Proof.
  intros H Hc. induction H as [|b l Hb _ IH]; simpl; [by rewrite Hc|]. by rewrite Hb, IH.
Qed.

Lemma unescape_plain e p l :
  Forall (λ c, c ≠ 37 ∧ p c = true) l → unescape e p l = Some l.
Proof.
  induction 1 as [|c l [Hc Hp] _ IH]; simpl; [done|].
  rewrite (proj2 (Z.eqb_neq c 37)) by done. by rewrite Hp, IH.
Qed.

Lemma existsb_none p l : Forall (λ c : Z, p c = false) l → existsb p l = false.
Proof. induction 1 as [|c l Hc _ IH]; simpl; [done|]. by rewrite Hc. Qed.

(** ** Origins as browsers write them *)

(** The bytes of a host name, and of a host name or port. *)
Definition name_byte (c : Z) : bool := is_letter c || is_digit c || byte_in "-._~" c.

(** A scheme; a host with an optional port. *)
Definition scheme_ok (s : string) : Prop :=
  (∃ c l, bytes s = c :: l ∧ is_letter c = true) ∧ Forall (λ c, scheme_byte c = true) (bytes s).
Definition authority_ok (s : string) : Prop :=
  ∃ name port, bytes s = name ++ port ∧ Forall (λ c, name_byte c = true) name ∧
    validOptionalPort port = true.

Ltac byte_facts :=
  unfold name_byte, scheme_byte, host_plain, escape_host, is_letter, is_digit, byte_in, within, control_byte;
  repeat match goal with |- context [ bytes ?s ] => let l := eval vm_compute in (bytes s) in change (bytes s) with l end;
  cbn [existsb]; lia.

Lemma name_byte_facts c : name_byte c = true →
  c ≠ 35 ∧ c ≠ 37 ∧ c ≠ 47 ∧ c ≠ 58 ∧ c ≠ 63 ∧ c ≠ 64 ∧ c ≠ 91 ∧ control_byte c = false.
Proof. byte_facts. Qed.

Lemma host_byte_facts c : name_byte c = true ∨ c = 58 →
  c ≠ 35 ∧ c ≠ 37 ∧ c ≠ 47 ∧ c ≠ 63 ∧ c ≠ 64 ∧ c ≠ 91 ∧ control_byte c = false ∧ host_plain c = true.
Proof. intros [H| ->]; [|by vm_compute]. revert H. byte_facts. Qed.

Lemma scheme_byte_facts c : scheme_byte c = true →
  c ≠ 35 ∧ c ≠ 58 ∧ c ≠ 63 ∧ control_byte c = false.
Proof. byte_facts. Qed.

Lemma digit_name c : is_digit c = true → name_byte c = true.
Proof. byte_facts. Qed.

Definition host_byte (c : Z) : Prop := name_byte c = true ∨ c = 58.

Lemma port_bytes port : validOptionalPort port = true →
  port = [] ∨ ∃ digits, port = 58 :: digits ∧ Forall (λ c, name_byte c = true) digits.
Proof.
  destruct port as [|c digits]; simpl; [by left|].
  intros [->%Z.eqb_eq Hd]%andb_true_iff. right. exists digits. split; [done|].
  rewrite forallb_forall in Hd. apply Forall_forall. intros d Hin. by apply digit_name, Hd, list_elem_of_In.
Qed.

Lemma authority_bytes s : authority_ok s → Forall host_byte (bytes s).
Proof.
  intros (name & port & -> & Hn & Hp). apply Forall_app. split.
  - eapply Forall_impl; [exact Hn|]. by left.
  - apply port_bytes in Hp as [->|(digits & -> & Hd)]; [by apply Forall_nil|].
    constructor; [by right|]. eapply Forall_impl; [exact Hd|]. by left.
Qed.

Lemma unescape_host_bytes l : Forall host_byte l → unescape_host l = Some l.
Proof.
  intros H. apply unescape_plain. eapply Forall_impl; [exact H|].
  intros c Hc. split; by apply host_byte_facts.
Qed.

Lemma parseAuthority_ok s : authority_ok s → parseAuthority (bytes s) = Some (bytes s).
Proof.
  intros Hok. pose proof (authority_bytes s Hok) as Hb. unfold parseAuthority.
  rewrite cut_last_none by (eapply Forall_impl; [exact Hb|]; intros c Hc; by apply host_byte_facts).
  pose proof (unescape_host_bytes _ Hb) as Hu. unfold parseHost.
  rewrite decide_False.
  2: { intros [l Hl]%head_Some. rewrite Hl in Hb. apply Forall_cons in Hb as [Hb _]. by apply host_byte_facts in Hb as (_ & _ & _ & _ & _ & ? & _). }
  destruct Hok as (name & port & Hs & Hn & Hp). rewrite Hs in Hu |- *. pose proof Hp as Hport.
  apply port_bytes in Hp as [->|(digits & -> & Hd)].
  - rewrite cut_last_none; [done|]. rewrite app_nil_r.
    eapply Forall_impl; [exact Hn|]. intros d Hd. by apply name_byte_facts in Hd as (_ & _ & _ & ? & _).
  - rewrite cut_last_at; [by rewrite Hport|].
    eapply Forall_impl; [exact Hd|]. intros d Hd'. by apply name_byte_facts in Hd' as (_ & _ & _ & ? & _).
Qed.

Lemma getScheme_ok s rest : scheme_ok s → getScheme (bytes s ++ 58 :: rest) = Some (bytes s, rest).
Proof.
  intros [(c & l & Hs & Hc) Hb]. unfold getScheme. rewrite span_stop by done. by rewrite Hs, Hc.
Qed.

Lemma bytes_app s t : bytes (s +:+ t) = bytes s ++ bytes t.
Proof.
  induction s as [|a s IH]; [done|].
  change (byte_of a :: bytes (s +:+ t) = byte_of a :: bytes s ++ bytes t). by rewrite IH.
Qed.

(** The host of an origin, as it is. *)
Lemma Parse_origin scheme authority :
  scheme_ok scheme → authority_ok authority →
  Parse (scheme +:+ "://" +:+ authority) = Some authority.
Proof.
  intros Hs Ha. pose proof (authority_bytes _ Ha) as Hb. pose proof Hs as [(c & l & Hl & _) Hsb].
  assert (∀ b, b = 35 ∨ b = 63 → Forall (λ c, c ≠ b) (bytes (scheme +:+ "://" +:+ authority))) as Hno.
  { intros b Hbs. rewrite !bytes_app. apply Forall_app. split; [|apply Forall_app; split].
    - eapply Forall_impl; [exact Hsb|]. intros d Hd%scheme_byte_facts. lia.
    - vm_compute. repeat constructor; lia.
    - eapply Forall_impl; [exact Hb|]. intros d Hd%host_byte_facts. lia. }
  unfold Parse. rewrite cut_none by (apply Hno; by left). cbn [from_option id].
  unfold parse. rewrite existsb_none.
  2: { rewrite !bytes_app. apply Forall_app. split; [|apply Forall_app; split].
       - eapply Forall_impl; [exact Hsb|]. by intros d (_ & _ & _ & Hd)%scheme_byte_facts.
       - vm_compute. repeat constructor; lia.
       - eapply Forall_impl; [exact Hb|]. by intros d (_ & _ & _ & _ & _ & _ & Hd & _)%host_byte_facts. }
  specialize (Hno 63 (or_intror eq_refl)). rewrite !bytes_app in *.
  change (bytes "://") with [58; 47; 47] in *. cbn [app] in *.
  rewrite decide_False by (rewrite Hl; by destruct l). rewrite getScheme_ok by done. cbn [mbind option_bind].
  apply Forall_app in Hno as [_ Hno]. apply Forall_cons in Hno as [_ Hno].
  rewrite (before_all 63) by done. rewrite decide_False by (simpl; naive_solver).
  cbn [head]. rewrite bool_decide_eq_false_2 by naive_solver. cbn [andb].
  unfold split_authority. rewrite decide_False by (rewrite Hl; naive_solver).
  assert (Forall (λ c, c ≠ 47) (bytes authority)) as H47.
  { eapply Forall_impl; [exact Hb|]. intros d Hd%host_byte_facts. lia. }
  rewrite (before_all 47 _ H47), drop_all, parseAuthority_ok by done.
  cbn. by rewrite of_bytes_bytes.
Qed.

(** An origin in the form browsers send is accepted exactly when its host and port, as they
    are written there, are the Host of the request. *)
Lemma CheckOrigin_origin scheme authority host :
  scheme_ok scheme → authority_ok authority →
  CheckOrigin (scheme +:+ "://" +:+ authority) host = bool_decide (authority = host).
Proof.
  intros Hs Ha. unfold CheckOrigin. rewrite Parse_origin by done.
  destruct Hs as [(c & l & Hl & _) _]. rewrite decide_False; [done|].
  intros He. apply (f_equal bytes) in He. by rewrite bytes_app, Hl in He.
Qed.

(** The opaque origin, of sandboxed documents and local files, has no host. *)
Lemma CheckOrigin_null host : CheckOrigin "null" host = bool_decide ("" = host).
Proof. reflexivity. Qed.
