(* ===== verification/Http.v ===== *)
(** * [internal/httpapi/server.go]: the HTTP interface

    A matched request is a [Request] with the route it matched; [serve] is the chain of
    middleware ([requestID], [authenticated], [limited], [require_roles], each given the rest of
    the chain) and handler that answers it, over the shared world of the service and the
    limiter's map.  Routing, JSON binding and the websocket upgrade are code of other
    packages: [Gin] is what is used of them.  Tracing, logging and recovery from panics
    are left out; the metrics are in [HttpMetrics], and the loop that copies events to a
    websocket once it is open is in [WebSocket]. *)

From S2P Require Import Prelude GoLang GoString Conc Runtime Id Domain Breaker Store Tool.
From S2P Require Import ToolExamples Llm World Queue Service Auth Url.
Open Scope Z_scope.

(** The routes of [New], with their path parameter. *)
Inductive endpoint : Set :=
| Healthz | Readyz
| CreateAgent | GetAgent (id : string) | UpdateAgent (id : string) | DeleteAgent (id : string)
| ExecuteAgent (id : string) | ListExecutions (id : string)
| GetExecution (id : string) | GetTrace (id : string) | StreamExecution (id : string)
| CreateTool.

#[export] Instance endpoint_eq_dec : EqDecision endpoint.
Proof. solve_decision. Defined.

(** The roles a route asks for; [None]: any caller that is authenticated. *)
Definition required_roles (e : endpoint) : option (list string) :=
  match e with
  | CreateAgent | UpdateAgent _ | DeleteAgent _ | ExecuteAgent _ => Some ["admin"; "developer"]
  | CreateTool => Some ["admin"]
  | Healthz | Readyz | GetAgent _ | ListExecutions _ | GetExecution _ | GetTrace _
  | StreamExecution _ => None
  end.

Module Request.
Record t := mk {
  Endpoint : endpoint;
  Authorization : string;
  APIKey : string;
  IdempotencyKey : string;
  RequestID : string;
  ClientIP : string;
  Limit : option string;
  Body : string;
  Origin : string;
  Host : string
}.
End Request.

Inductive payload : Type :=
| NoBody
| StatusBody (status : string)
| ErrorBody (error : string)
| AgentBody (agent : Agent.t)
| ExecutionBody (execution : Execution.t)
| ItemsBody (items : list Execution.t)
| TraceBody (trace : Trace.t)
| ToolBody (definition : ToolDefinition.t)
(* the connection becomes a websocket that follows the execution, or the upgrader refuses *)
| Upgraded (executionID : string)
| UpgradeRefused.

Module Response.
Record t := mk { Status : Z; Headers : list (string * string); Body : payload }.
End Response.

(** What is used of gin: the values a request body decodes to, the body given as the bytes that
    can be read and whether it goes on after them, the context handlers pass on, and gorilla's
    upgrade to a websocket. *)
Class Gin := {
  bind_agent : string → bool → option AgentInput.t;
  bind_execution : string → bool → option ExecutionInput.t;
  bind_tool : string → bool → option MockLookup.t;
  gin_context : Context;
  (* the websocket upgrade of a request, given what [CheckOrigin] says of it: the status it
     is refused with, if it is *)
  upgrade : Request.t → bool → option Z
}.

Definition StatusOK : Z := 200.
Definition StatusCreated : Z := 201.
Definition StatusAccepted : Z := 202.
Definition StatusNoContent : Z := 204.
Definition StatusBadRequest : Z := 400.
Definition StatusUnauthorized : Z := 401.
Definition StatusForbidden : Z := 403.
Definition StatusNotFound : Z := 404.
Definition StatusConflict : Z := 409.
Definition StatusTooManyRequests : Z := 429.
Definition StatusInternalServerError : Z := 500.

(** [http.MaxBytesReader]: the bytes that can be read, and whether more follow. *)
Definition bodyLimit (limit : Z) (body : string) : string * bool :=
  (slice_to body (Z.min limit (len body)), limit <? len body).

(** [time.Now().UnixNano()]. *)
Definition unix_epoch : time := 62135596800 * Second.
Definition UnixNano (now : time) : Z := wrap64 (now - unix_epoch).

(** The identifier [requestID] makes up. *)
Definition generated_id (now : time) : string := FormatInt (UnixNano now) 36.

Definition error_status (err : error) (fallback : Z) : Z :=
  if Is err NotFound then StatusNotFound
  else if Is err Conflict then StatusConflict else fallback.

Definition writeError (err : error) (fallback : Z) : Response.t :=
  Response.mk (error_status err fallback) [] (ErrorBody (Error err)).

Module API.
Section handlers.
Context `{Env} {DB SK QU : Type} `{StoreOps DB, QueueOps QU, Unicode, Gin}.
Abbreviation M := (prog (World DB SK QU)).

Definition json (status : Z) (body : payload) : Response.t := Response.mk status [] body.

Definition createAgent (r : Request.t) (p : Principal.t) : M Response.t :=
  let '(body, more) := bodyLimit 1048576 (Request.Body r) in
  match bind_agent body more with
  | None => mret (json StatusBadRequest (ErrorBody "invalid JSON body"))
  | Some input =>
      agent ← Service.CreateAgent gin_context (Principal.ID p) input;
      mret (match agent with
            | Err err => writeError err StatusBadRequest
            | Ok agent => json StatusCreated (AgentBody agent)
            end)
  end.

Definition getAgent (id : string) (p : Principal.t) : M Response.t :=
  agent ← Service.GetAgent gin_context (Principal.ID p) id;
  mret (match agent with
        | Err err => writeError err StatusInternalServerError
        | Ok agent => json StatusOK (AgentBody agent)
        end).

Definition updateAgent (id : string) (r : Request.t) (p : Principal.t) : M Response.t :=
  let '(body, more) := bodyLimit 1048576 (Request.Body r) in
  match bind_agent body more with
  | None => mret (json StatusBadRequest (ErrorBody "invalid JSON body"))
  | Some input =>
      agent ← Service.UpdateAgent gin_context (Principal.ID p) id input;
      mret (match agent with
            | Err err => writeError err StatusBadRequest
            | Ok agent => json StatusOK (AgentBody agent)
            end)
  end.

Definition deleteAgent (id : string) (p : Principal.t) : M Response.t :=
  err ← Service.DeleteAgent gin_context (Principal.ID p) id;
  mret (match err with
        | Some err => writeError err StatusInternalServerError
        | None => json StatusNoContent NoBody
        end).

Definition executeAgent (id : string) (r : Request.t) (p : Principal.t) (requestID : string)
    : M Response.t :=
  let '(body, more) := bodyLimit 1048576 (Request.Body r) in
  match bind_execution body more with
  | None => mret (json StatusBadRequest (ErrorBody "invalid JSON body"))
  | Some input =>
      let input := ExecutionInput.mk (ExecutionInput.Input input)
                     (ExecutionInput.ConversationID input) (Request.IdempotencyKey r) requestID in
      out ← Service.StartExecution gin_context (Principal.ID p) id input;
      mret (match out with
            | (_, _, Some err) => writeError err StatusBadRequest
            | (Some execution, replayed, None) =>
                Response.mk StatusAccepted
                  (if replayed : bool then [("Idempotent-Replayed", "true")] else [])
                  (ExecutionBody execution)
            | (None, _, None) => json StatusAccepted NoBody
            end)
  end.

Definition listExecutions (id : string) (r : Request.t) (p : Principal.t) : M Response.t :=
  let limit := (Atoi (default "20" (Request.Limit r))).1 in
  executions ← Service.ListExecutions gin_context (Principal.ID p) id limit;
  mret (match executions with
        | Err err => writeError err StatusInternalServerError
        | Ok executions => json StatusOK (ItemsBody executions)
        end).

Definition getExecution (id : string) (p : Principal.t) : M Response.t :=
  execution ← Service.GetExecution gin_context (Principal.ID p) id;
  mret (match execution with
        | Err err => writeError err StatusInternalServerError
        | Ok execution => json StatusOK (ExecutionBody execution)
        end).

Definition getTrace (id : string) (p : Principal.t) : M Response.t :=
  trace ← Service.GetTrace gin_context (Principal.ID p) id;
  mret (match trace with
        | Err err => writeError err StatusInternalServerError
        | Ok trace => json StatusOK (TraceBody trace)
        end).

(** Up to the upgrade of the connection. *)
Definition streamExecution (id : string) (r : Request.t) (p : Principal.t) : M Response.t :=
  execution ← Service.GetExecution gin_context (Principal.ID p) id;
  mret (match execution with
        | Err err => writeError err StatusInternalServerError
        | Ok _ => match upgrade r (CheckOrigin (Request.Origin r) (Request.Host r)) with
                  | Some status => json status UpgradeRefused
                  | None => json 101 (Upgraded id)
                  end
        end).

Definition createTool (r : Request.t) : M Response.t :=
  let '(body, more) := bodyLimit 1048576 (Request.Body r) in
  match bind_tool body more with
  | None => mret (json StatusBadRequest
                    (ErrorBody "name, description, and responses are required"))
  | Some created =>
      err ← atomic (λ _ w, let '(err, tools) := Registry.Register (MockLookup.tool created) (w_tools w) in
                           (err, set_tools tools w));
      mret (match err with
            | Some err => json StatusConflict (ErrorBody (Error err))
            | None => json StatusCreated (ToolBody (MockLookup.Definition_ created))
            end)
  end.

(** The handler of a route. *)
Definition handle (r : Request.t) (p : Principal.t) (requestID : string) : M Response.t :=
  match Request.Endpoint r with
  | Healthz => mret (json StatusOK (StatusBody "ok"))
  | Readyz => mret (json StatusOK (StatusBody "ready"))
  | CreateAgent => createAgent r p
  | GetAgent id => getAgent id p
  | UpdateAgent id => updateAgent id r p
  | DeleteAgent id => deleteAgent id p
  | ExecuteAgent id => executeAgent id r p requestID
  | ListExecutions id => listExecutions id r p
  | GetExecution id => getExecution id p
  | GetTrace id => getTrace id p
  | StreamExecution id => streamExecution id r p
  | CreateTool => createTool r
  end.
End handlers.
End API.

(** ** The server *)

(** The keys of a gin context. *)
Module Keys.
Record t := mk { principal : option Principal.t; request_id : string }.
Definition empty : t := mk None "".
Definition set_principal (p : Principal.t) (c : t) : t := mk (Some p) (request_id c).
Definition set_request_id (value : string) (c : t) : t := mk (principal c) value.
End Keys.

(** The zero value when no middleware has authenticated the request. *)
Definition PrincipalFrom (c : Keys.t) : Principal.t := default Principal.zero (Keys.principal c).

Record Server (DB SK QU : Type) := mkServer { world : World DB SK QU; limiter : Limiter.t }.
Arguments mkServer {DB SK QU}.
Arguments world {DB SK QU}.
Arguments limiter {DB SK QU}.

#[export] Instance server_runtime DB SK QU : HasRuntime (Server DB SK QU).
Proof.
  refine {| get_rt s := get_rt (world s); put_rt rt s := mkServer (put_rt rt (world s)) (limiter s) |}.
  - done.
  - done.
  - intros [[] l]. done.
Defined.

(** A goroutine of the world, within the server. *)
Fixpoint zoom {DB SK QU A} (p : prog (World DB SK QU) A) : prog (Server DB SK QU) A :=
  match p with
  | Ret a => Ret a
  | Act f k => Act (λ s, '(x, w) ← f (world s); Some (x, mkServer w (limiter s))) (λ x, zoom (k x))
  end.

Section server.
Context `{Env} {DB SK QU : Type} `{StoreOps DB, QueueOps QU, Unicode, Jwt, Gin}.
Abbreviation S := (prog (Server DB SK QU)).

(** *** The middleware

    A handler runs in a context of the request: the keys that middleware has set.  Middleware
    is given the rest of the chain, which [ctx.Next()] runs. *)

Definition handler : Type := Keys.t → S Response.t.

(** [AbortWithStatusJSON]. *)
Definition abort (status : Z) (body : payload) : S Response.t := mret (API.json status body).

(** [Authenticator.Middleware]. *)
Definition authenticated (a : Authenticator.t) (r : Request.t) (next : handler) : handler := λ c,
  now ← Now;
  match Authenticator.authenticate a now (Request.Authorization r) (Request.APIKey r) with
  | Err _ => abort StatusUnauthorized (ErrorBody "unauthorized")
  | Ok principal => next (Keys.set_principal principal c)
  end.

(** [Limiter.Middleware]: the clock is read before the lock is taken. *)
Definition limited (r : Request.t) (next : handler) : handler := λ c,
  let key := Limiter.key (PrincipalFrom c) (Request.ClientIP r) in
  now ← Now;
  ok ← atomic (λ _ s, let '(ok, l) := Limiter.allow key now (limiter s) in
                      (ok, mkServer (world s) l));
  if ok : bool then next c
  else mret (Response.mk StatusTooManyRequests [("Retry-After", "60")]
               (ErrorBody "rate limit exceeded")).

(** The handler [RequireRoles(roles...)] returns. *)
Definition require_roles (roles : list string) (next : handler) : handler := λ c,
  if RequireRoles roles (PrincipalFrom c) then next c
  else abort StatusForbidden (ErrorBody "forbidden").

(** [requestID]. *)
Definition requestID (r : Request.t) (next : handler) : handler := λ c,
  value ← (if decide (Request.RequestID r = "") then now ← Now; mret (generated_id now)
           else mret (Request.RequestID r));
  response ← next (Keys.set_request_id value c);
  mret (Response.mk (Response.Status response)
          (("X-Request-ID", value) :: Response.Headers response) (Response.Body response)).

(** The handler of a route, as it reads the keys of the context. *)
Definition endpoint_handler (r : Request.t) : handler := λ c,
  zoom (API.handle r (PrincipalFrom c) (Keys.request_id c)).

(** The group [/api/v1], and the route in it. *)
Definition v1 (a : Authenticator.t) (r : Request.t) : handler :=
  authenticated a r (limited r
    match required_roles (Request.Endpoint r) with
    | Some roles => require_roles roles (endpoint_handler r)
    | None => endpoint_handler r
    end).

(** The router of [New] for a request that matched a route: the probes are outside the group. *)
Definition router (a : Authenticator.t) (r : Request.t) : handler :=
  match Request.Endpoint r with
  | Healthz | Readyz => endpoint_handler r
  | _ => v1 a r
  end.

Definition serve (a : Authenticator.t) (r : Request.t) : S Response.t :=
  requestID r (router a r) Keys.empty.
End server.

(** [auth.NewLimiter(120, time.Minute)] *)
Definition new_limiter : Limiter.t := Limiter.NewLimiter 120 Minute.
