(* ===== verification/HttpFacts.v ===== *)
(** * What the HTTP interface guarantees

    Who may change what, what a response can disclose, and the statuses of errors; all of
    it for any store, queue and token library that satisfy their laws. *)

From S2P Require Import Prelude GoLang GoString Conc Runtime Id Domain Breaker Store Memory.
From S2P Require Import MemoryFacts Tool ToolExamples Llm World Queue Service ServiceFacts.
From S2P Require Import StartFacts Auth Url Http.
Open Scope Z_scope.

(** ** Frames: the parts of the world a program leaves alone *)

Section frames.
Context {DB SK QU : Type}.
Abbreviation W := (World DB SK QU).

Definition keeps {X A} (part : W → X) (p : prog W A) : Prop :=
  ∀ w a w', run p w = Some (a, w') → part w' = part w.

Lemma keeps_ret {X A} (part : W → X) (a : A) : keeps part (mret a).
Proof. by intros w a' w' [= <- <-]. Qed.

Lemma keeps_bind {X A B} (part : W → X) (p : prog W A) (k : A → prog W B) :
  keeps part p → (∀ a, keeps part (k a)) → keeps part (p ≫= k).
Proof.
  intros Hp Hk w b w'. rewrite run_bind. destruct (run p w) as [[a w1]|] eqn:E; [|done].
  simpl. intros Hr. etrans; [by eapply Hk|by eapply Hp].
Qed.

Lemma wp_keeps {X A} (part : W → X) (p : prog W A) (Q : A → W → Prop) w :
  wp p Q w → keeps part p → wp p (λ a w', Q a w' ∧ part w' = part w) w.
Proof. rewrite !wp_run. intros (a & w' & Hr & HQ) Hk. exists a, w'. eauto. Qed.

(** The runtime is in no part. *)
Class WorldPart {X} (part : W → X) : Prop := part_rt rt w : part (put_rt rt w) = part w.

Lemma part_advance `{Env} {X} (part : W → X) `{!WorldPart part} w : part (advance w) = part w.
Proof. apply part_rt. Qed.

Lemma keeps_atomic `{Env} {X A} (part : W → X) `{!WorldPart part} (f : Runtime → W → A * W) :
  (∀ rt w, part (f rt w).2 = part w) → keeps part (atomic f).
Proof.
  intros Hf w a w' Hr. assert (wp (atomic f) (λ _ w', part w' = part w) w) as Hw.
  { apply wp_atomic. rewrite Hf. apply (part_advance part). }
  apply wp_run in Hw as (a1 & w1 & Hr1 & Hp). congruence.
Qed.

Lemma keeps_atomic_block `{Env} {X A} (part : W → X) `{!WorldPart part}
    (f : Runtime → W → option (A * W)) :
  (∀ rt w a w', f rt w = Some (a, w') → part w' = part w) → keeps part (atomic_block f).
Proof.
  intros Hf w a w' Hr. assert (run (atomic_block f) w = f (get_rt (advance w)) (advance w)) as E.
  { unfold atomic_block. cbn [run]. by destruct (f _ _) as [[]|]. }
  rewrite E in Hr. rewrite (Hf _ _ _ _ Hr). apply (part_advance part).
Qed.
End frames.

(** What only tool registration and the engine change. *)
Definition rest {DB SK QU} (w : World DB SK QU) := (w_sink w, w_breaker w, w_tools w).
#[export] Instance rest_part DB SK QU : WorldPart (@rest DB SK QU).
Proof. by intros rt w. Qed.

Section service_frames.
Context `{Env} {DB SK QU : Type} `{StoreOps DB, QueueOps QU, Unicode, Gin}.
Abbreviation W := (World DB SK QU).

Lemma keeps_write ctx f : keeps rest (Service.store_write ctx f : prog W _).
Proof. apply keeps_atomic; [apply _|]. intros rt w. by destruct (f _ _). Qed.
Lemma keeps_read {X} ctx (f : Call → DB → X) : keeps rest (Service.store_read ctx f : prog W _).
Proof. by apply keeps_atomic; [apply _|]. Qed.
Lemma keeps_Now : keeps rest (Now : prog W _).
Proof. by apply keeps_atomic; [apply _|]. Qed.
Lemma keeps_New : keeps rest (Id.New : prog W _).
Proof.
  unfold Id.New. apply keeps_bind; [|intros [?|?]; apply keeps_ret].
  apply keeps_atomic; [apply _|]. intros rt w. by case_match.
Qed.
Lemma keeps_enqueue ctx job : keeps rest (enqueue ctx job : prog W _).
Proof.
  apply keeps_atomic_block; [apply _|]. intros rt w a w'.
  destruct (Enqueue _ _ _ _) as [[[r t] q]|]; simpl; by intros [= <- <-].
Qed.

End service_frames.

(** Splitting a program into its calls. *)
Ltac keeps_solve :=
  repeat (intros; first
    [ apply keeps_ret | apply keeps_write | apply keeps_read | apply keeps_Now | apply keeps_New
    | apply keeps_enqueue | apply keeps_bind | case_decide | progress case_match ]).

Section handler_frames.
Context `{Env} {DB SK QU : Type} `{StoreOps DB, QueueOps QU, Unicode, Gin}.

Lemma keeps_StartExecution ctx owner agentID input :
  keeps rest (Service.StartExecution ctx owner agentID input : prog (World DB SK QU) _).
Proof.
  unfold Service.StartExecution, Service.create_execution, Service.resolve_conversation,
    Service.dispatch. keeps_solve.
Qed.

(** Only the registration of a tool touches anything but the store and the queue. *)
Lemma keeps_handle r p requestID :
  Request.Endpoint r ≠ CreateTool →
  keeps rest (API.handle r p requestID : prog (World DB SK QU) _).
Proof.
  intros Hr. unfold API.handle. destruct (Request.Endpoint r); try done;
    unfold API.createAgent, API.getAgent, API.updateAgent, API.deleteAgent, API.executeAgent,
      API.listExecutions, API.getExecution, API.getTrace, API.streamExecution,
      Service.CreateAgent, Service.GetAgent, Service.UpdateAgent, Service.DeleteAgent,
      Service.ListExecutions, Service.GetExecution, Service.GetTrace;
    try destruct (bodyLimit _ _); try case_match; try apply keeps_ret.
  all: try (apply keeps_bind; [apply keeps_StartExecution|]; intros; keeps_solve).
  all: keeps_solve.
Qed.
End handler_frames.

(** ** What a handler does for its principal *)

(** Every record a response shows is the principal's; a stream is of an execution of theirs. *)
Definition owned `{StoreView DB} (owner : string) (s : DB) (body : payload) : Prop :=
  let own o := key DB o = key DB owner in
  match body with
  | AgentBody agent => own (Agent.OwnerID agent)
  | ExecutionBody execution => own (Execution.OwnerID execution)
  | ItemsBody executions => Forall (λ x, own (Execution.OwnerID x)) executions
  | TraceBody trace => own (Execution.OwnerID (Trace.Execution_ trace))
  | Upgraded id => ∃ x, stored s id = Some x ∧ own (Execution.OwnerID x)
  | NoBody | StatusBody _ | ErrorBody _ | ToolBody _ | UpgradeRefused => True
  end.

Section effects.
Context `{Env} {DB SK QU : Type} `{StoreLaws DB, QueueLaws QU, Unicode, Gin}.
Abbreviation W := (World DB SK QU).
Implicit Types (w : W) (s : DB).

Lemma others_same_refl owner s : others_same owner s s.
Proof. by split_and!. Qed.

(** Agents of the owner may differ. *)
Lemma others_same_agents owner s s' :
  (∀ i a, Agent.OwnerID a ≠ key DB owner → agents_of s i = Some a ↔ agents_of s' i = Some a) →
  same_conversations s s' → same_stored s s' → same_steps s s' → same_messages s s' →
  others_same owner s s'.
Proof.
  intros Ha Hc Hs Hst Hm. split_and!; [done|..].
  - intros i v _. by rewrite Hc.
  - intros i x _. by rewrite Hs.
  - intros i x _ _. apply Hst.
  - intros i v _ _. apply Hm.
Qed.

Lemma others_same_start owner agentID input w out w' :
  start_promise owner agentID input w out w' → others_same owner (w_store w) (w_store w').
Proof.
  intros (Ha & Hst & Hm & [Hc1 Hc2] & _ & Hout). split_and!.
  - intros i a _. by rewrite Ha.
  - intros i v Hv. split; [apply Hc1|]. intros Hi. by destruct (Hc2 i v Hi).
  - intros i x Hx. destruct out as [[[y|] []] [err|]]; try done.
    + by destruct Hout as (_ & _ & _ & _ & -> & _).
    + destruct Hout as (Hn & Ho & Hy & _ & _ & _ & _ & _ & _ & (z & Hz & Hid) & _).
      destruct (decide (key DB i = key DB (Execution.ID y))) as [Hk|]; [|by rewrite Ho].
      destruct Hid as (_ & Hzo & _). rewrite !(stored_same_key _ _ _ Hk), Hn, Hz.
      split; [done|]. intros [= <-]. rewrite <-Hzo, kept_owner in Hx. congruence.
    + destruct Hout as (Hn & Ho & Hy & _ & _ & _ & _ & _ & Hz & _).
      destruct (decide (key DB i = key DB (Execution.ID y))) as [Hk|]; [|by rewrite Ho].
      rewrite !(stored_same_key _ _ _ Hk), Hn, Hz.
      split; [done|]. intros [= <-]. rewrite kept_owner in Hx. congruence.
    + by rewrite (proj1 Hout).
  - intros i x _ _. apply Hst.
  - intros i v _ _. apply Hm.
Qed.

(** The store and the queue after a handler, and what its response shows. *)
Definition handled (r : Request.t) (p : Principal.t) w (resp : Response.t) w' : Prop :=
  owned (Principal.ID p) (w_store w) (Response.Body resp) ∧
  others_same (Principal.ID p) (w_store w) (w_store w') ∧
  ((∀ i a, agents_of (w_store w) i = Some a → Agent.ID a = key DB i) →
   apart (w_store w) → apart (w_store w')) ∧
  (required_roles (Request.Endpoint r) = None → w_store w' = w_store w ∧ w_queue w' = w_queue w).

Lemma owned_error owner s err fallback : owned owner s (Response.Body (writeError err fallback)).
Proof. done. Qed.

Lemma handled_createAgent r p w :
  Request.Endpoint r = CreateAgent → wp (API.createAgent r p) (handled r p w) w.
Proof.
  intros Hr. unfold API.createAgent, handled. destruct (bodyLimit _ _) as [body more].
  rewrite Hr. destruct (bind_agent body more) as [input|].
  2: { by split_and!; try apply others_same_refl. }
  apply wp_bind. eapply wp_mono; [apply CreateAgent_promise|].
  intros [a|e] w' (_ & (Hc & Hs & Hst & Hm & Hap & _) & Hres); simpl.
  - destruct Hres as (Hn & Hi & Ho & _). split_and!; try done.
    + unfold owned. by rewrite Ho.
    + apply others_same_agents; try done. intros i b Hb. rewrite Hi. case_decide as Hk; [|done].
      rewrite (agents_same_key _ _ _ Hk), Hn. split; [done|]. intros [= <-].
      rewrite (proj2 (kept_agent_ids a)) in Hb. congruence.
  - rewrite Hres. by split_and!; try apply others_same_refl.
Qed.

Lemma handled_updateAgent id r p w :
  Request.Endpoint r = UpdateAgent id →
  (∀ i a, agents_of (w_store w) i = Some a → Agent.ID a = key DB i) →
  wp (API.updateAgent id r p) (handled r p w) w.
Proof.
  intros Hr Hids. unfold API.updateAgent, handled. destruct (bodyLimit _ _) as [body more].
  rewrite Hr. destruct (bind_agent body more) as [input|].
  2: { by split_and!; try apply others_same_refl. }
  apply wp_bind. eapply wp_mono; [by apply UpdateAgent_promise|].
  intros [a|e] w' (_ & (Hc & Hs & Hst & Hm & Hap & _) & Hres); simpl.
  - destruct Hres as (old & now & Hold & Hoo & _ & Hid & Ho & _ & _ & Hi). split_and!; try done.
    + unfold owned. by rewrite Ho, key_idem.
    + apply others_same_agents; try done. intros i b Hb. rewrite Hi. case_decide as Hk; [|done].
      rewrite (agents_same_key _ _ _ Hk), Hold. split; intros [= <-]; [congruence|].
      exfalso. apply Hb. simpl. by rewrite (proj2 (kept_agent_ids a)), Ho, key_idem.
  - rewrite Hres. by split_and!; try apply others_same_refl.
Qed.

Lemma handled_deleteAgent id r p w :
  Request.Endpoint r = DeleteAgent id → apart (w_store w) →
  wp (API.deleteAgent id p) (handled r p w) w.
Proof.
  intros Hr Hap. unfold API.deleteAgent, Service.DeleteAgent, Service.store_write, handled. rewrite Hr.
  apply wp_bind, wp_atomic. set (w1 := advance w). change (w_store w) with (w_store w1).
  destruct (Store.DeleteAgent _ _ _ _) as [err s'] eqn:E. cbn [fst snd].
  destruct err as [err|]; simpl.
  - assert (s' = w_store w1) as ->.
    { etrans; [|eapply agent_delete_failed]; by rewrite E. }
    by split_and!; try apply others_same_refl.
  - assert ((Store.DeleteAgent (call_at gin_context (get_rt w1)) (Principal.ID p) id (w_store w1)).1 = None)
      as Hd by (by rewrite E).
    apply agent_deleted in Hd as (_ & _ & Ho). rewrite E in Ho. split_and!; [done|by apply Ho| |done].
    intros _ _. pose proof (apart_deleted (call_at gin_context (get_rt w1)) (Principal.ID p) id
      (w_store w1) Hap)
      as Hd. by rewrite E in Hd.
Qed.

Lemma handled_executeAgent id r p requestID w :
  Request.Endpoint r = ExecuteAgent id →
  (∀ job rt, is_Some (Enqueue gin_context job rt (w_queue w))) →
  wp (API.executeAgent id r p requestID) (handled r p w) w.
Proof.
  intros Hr Hq. unfold API.executeAgent, handled. destruct (bodyLimit _ _) as [body more].
  rewrite Hr. destruct (bind_execution body more) as [input|].
  2: { by split_and!; try apply others_same_refl. }
  apply wp_bind. eapply wp_mono; [by apply StartExecution_promise|].
  intros out w' [Hp _]. pose proof (others_same_start _ _ _ _ _ _ Hp) as Ho.
  destruct Hp as (_ & _ & _ & _ & Hap & Hout). simpl in Hap.
  destruct out as [[[x|] []] [err|]]; simpl; try done; split_and!; try done; destruct_and!;
    unfold owned; simpl; congruence || (rewrite <-(key_idem (Principal.ID p)); congruence).
Qed.

Lemma handled_read {X} r p w (f : Call → DB → result X) (k : result X → Response.t) :
  (∀ c, owned (Principal.ID p) (w_store w) (Response.Body (k (f c (w_store w))))) →
  wp (x ← Service.store_read gin_context f; mret (k x)) (handled r p w) w.
Proof.
  intros Hk. apply wp_bind, wp_atomic. cbn [fst snd]. unfold handled.
  change (w_store (advance w)) with (w_store w). split; [apply Hk|].
  split; [apply others_same_refl|done].
Qed.

Lemma handled_reads r p requestID w :
  required_roles (Request.Endpoint r) = None → wp (API.handle r p requestID) (handled r p w) w.
Proof.
  intros Hr. unfold API.handle. destruct (Request.Endpoint r) eqn:E; try done.
  - apply handled_read. intros c. destruct (Store.GetAgent _ _ _ _) as [a|] eqn:Hg; [|done].
    apply get_agent in Hg as [_ Ho]. unfold owned. simpl. by rewrite Ho, key_idem.
  - apply handled_read. intros c.
    destruct (ListAgentExecutions _ _ _ _ _) as [l|] eqn:Hl; [|done]. simpl.
    apply list_executions in Hl as [_ HF]; [|repeat case_cmp; lia].
    eapply Forall_impl; [exact HF|]. intros x (Ho & _). by rewrite Ho, key_idem.
  - apply handled_read. intros c. destruct (Store.GetExecution _ _ _ _) as [x|] eqn:Hg; [|done].
    apply get_execution in Hg as [_ Ho]. unfold owned. simpl. by rewrite Ho, key_idem.
  - unfold API.getTrace, Service.GetTrace. apply wp_bind, wp_bind, wp_atomic. cbn [fst snd].
    apply wp_atomic. cbn [fst snd].
    change (w_store (advance (advance w))) with (w_store w).
    change (w_store (advance w)) with (w_store w). unfold handled. simpl.
    destruct (TraceAt _ _ _ _ _) as [t|] eqn:Ht; (split; [|by split; [apply others_same_refl|]]).
    + apply get_trace in Ht as [Hg _]. apply get_execution in Hg as [_ Ho]. simpl.
      by rewrite Ho, key_idem.
    + done.
  - apply handled_read. intros c. destruct (Store.GetExecution _ _ _ _) as [x|] eqn:Hg; [|done].
    destruct (upgrade _ _); [done|].
    apply get_execution in Hg as [Hx Ho]. exists x. by rewrite Ho, key_idem.
Qed.

Lemma handled_createTool r p w :
  Request.Endpoint r = CreateTool → wp (API.createTool r) (handled r p w) w.
Proof.
  intros Hr. unfold API.createTool, handled. destruct (bodyLimit _ _) as [body more].
  rewrite Hr. destruct (bind_tool body more) as [created|].
  2: { by split_and!; try apply others_same_refl. }
  apply wp_bind, wp_atomic. destruct (Registry.Register _ _) as [err tools].
  by destruct err; split_and!; try apply others_same_refl.
Qed.

Lemma handle_promise r p requestID w :
  (∀ job rt, is_Some (Enqueue gin_context job rt (w_queue w))) →
  (∀ i a, agents_of (w_store w) i = Some a → Agent.ID a = key DB i) → apart (w_store w) →
  wp (API.handle r p requestID) (λ resp w',
    handled r p w resp w' ∧ (Request.Endpoint r ≠ CreateTool → rest w' = rest w)) w.
Proof.
  intros Hq Hids Hap. assert (wp (API.handle r p requestID) (handled r p w) w) as Hp.
  { destruct (required_roles (Request.Endpoint r)) as [roles|] eqn:E; [|by apply handled_reads].
    unfold API.handle. destruct (Request.Endpoint r) eqn:Hr; try done.
    - by apply handled_createAgent.
    - by apply handled_updateAgent.
    - by apply handled_deleteAgent.
    - by apply handled_executeAgent.
    - by apply handled_createTool. }
  destruct (decide (Request.Endpoint r = CreateTool)) as [Ht|Ht].
  - eapply wp_mono; [exact Hp|]. by intros resp w' Hh.
  - eapply wp_mono; [exact (wp_keeps rest _ _ _ Hp (keeps_handle r p requestID Ht))|].
    by intros resp w' [Hh Hk].
Qed.
End effects.

(** ** The server *)

Lemma wp_zoom {DB SK QU A} (p : prog (World DB SK QU) A) (Q : A → Server DB SK QU → Prop) s :
  wp (zoom p) Q s ↔ wp p (λ a w, Q a (mkServer w (limiter s))) (world s).
Proof.
  revert s. induction p as [a|X f k IH]; intros s; simpl; [by destruct s|].
  destruct (f (world s)) as [[x w]|]; simpl; [apply IH|done].
Qed.

Section serving.
Context `{Env} {DB SK QU : Type} `{StoreLaws DB, QueueLaws QU, Unicode, Gin, Jwt}.
Implicit Types (s : Server DB SK QU).

(** Nothing but the clock and the limiter has changed. *)
Definition untouched s s' : Prop :=
  w_store (world s') = w_store (world s) ∧ w_queue (world s') = w_queue (world s) ∧
  rest (world s') = rest (world s).

#[export] Instance untouched_preorder : PreOrder untouched.
Proof.
  split; [done|]. intros s1 s2 s3 (A & B & C) (A' & B' & C'). unfold untouched.
  by rewrite A', A, B', B, C', C.
Qed.

Lemma untouched_advance s : untouched s (advance s).
Proof. done. Qed.

(** A body with no record of anybody. *)
Definition shows_nothing (body : payload) : Prop :=
  match body with NoBody | StatusBody _ | ErrorBody _ => True | _ => False end.

(** The middleware turned the request away, or it is a probe. *)
Definition turned_away s (resp : Response.t) s' : Prop :=
  untouched s s' ∧ shows_nothing (Response.Body resp) ∧
  Response.Status resp ∈ [StatusOK; StatusUnauthorized; StatusTooManyRequests; StatusForbidden].

(** What the middleware [RequireRoles] of a route admits. *)
Definition role_allows (e : endpoint) (p : Principal.t) : bool :=
  match required_roles e with Some roles => RequireRoles roles p | None => true end.

(** A principal whose role the route admits was served. *)
Definition let_in (a : Authenticator.t) (r : Request.t) s (resp : Response.t) s' : Prop :=
  ∃ now p,
    Authenticator.authenticate a now (Request.Authorization r) (Request.APIKey r) = Ok p ∧
    role_allows (Request.Endpoint r) p = true ∧
    handled r p (world s) resp (world s') ∧
    (Request.Endpoint r ≠ CreateTool → rest (world s') = rest (world s)).

Lemma let_in_untouched a r s s1 resp s' :
  untouched s s1 → let_in a r s1 resp s' → let_in a r s resp s'.
Proof.
  intros (A & B & C) (now & p & Ha & Hr & (Ho & Hs & Hap & Hn) & Hk). exists now, p. unfold handled.
  rewrite <-A, <-B, <-C. by split_and!.
Qed.

Lemma turned_away_untouched s s1 resp s' :
  untouched s s1 → turned_away s1 resp s' → turned_away s resp s'.
Proof. intros Hu (A & B). split; [by etrans|done]. Qed.

(** The middleware of the group turns a request away, or the route's handler runs for a
    principal whose role it admits. *)
Lemma wp_v1 a r c s (Q : Response.t → Server DB SK QU → Prop) :
  (∀ resp s', turned_away s resp s' → Q resp s') →
  (∀ now p s', untouched s s' →
     Authenticator.authenticate a now (Request.Authorization r) (Request.APIKey r) = Ok p →
     role_allows (Request.Endpoint r) p = true →
     wp (API.handle r p (Keys.request_id c)) (λ resp w, Q resp (mkServer w (limiter s'))) (world s')) →
  wp (v1 a r c) Q s.
Proof.
  intros Hno Hyes. unfold v1, authenticated. apply wp_bind, wp_atomic. cbn [fst snd].
  set (now := rt_now _). destruct (Authenticator.authenticate _ _ _ _) as [p|e] eqn:Ha.
  2: { apply Hno. split; [done|]. split; [done|]. apply (bool_decide_eq_true_1 _). reflexivity. }
  unfold limited. apply wp_bind, wp_atomic. cbn [fst snd]. apply wp_bind, wp_atomic.
  change (PrincipalFrom (Keys.set_principal p c)) with p.
  destruct (Limiter.allow _ _ _) as [ok l]. cbn [fst snd].
  set (s2 := mkServer _ l). assert (untouched s s2) as Hu2 by done.
  destruct ok.
  2: { apply Hno. split; [done|]. split; [done|]. apply (bool_decide_eq_true_1 _). reflexivity. }
  assert (role_allows (Request.Endpoint r) p = true →
          wp (endpoint_handler r (Keys.set_principal p c)) Q s2) as Hserved.
  { intros Hrole. by apply wp_zoom, (Hyes now p s2). }
  unfold role_allows in Hserved. destruct (required_roles (Request.Endpoint r)) as [roles|]; [|by apply Hserved].
  unfold require_roles. change (PrincipalFrom (Keys.set_principal p c)) with p.
  destruct (RequireRoles roles p) eqn:Er; [by apply Hserved|].
  apply Hno. split; [done|]. split; [done|]. apply (bool_decide_eq_true_1 _). reflexivity.
Qed.

Lemma v1_promise a r c s :
  (∀ job rt, is_Some (Enqueue gin_context job rt (w_queue (world s)))) →
  (∀ i a, agents_of (w_store (world s)) i = Some a → Agent.ID a = key DB i) →
  apart (w_store (world s)) →
  wp (v1 a r c) (λ resp s', turned_away s resp s' ∨ let_in a r s resp s') s.
Proof.
  intros Hq Hids Hap. apply wp_v1; [by left|]. intros now p s2 Hu Ha Hrole.
  pose proof Hu as (A & B & C). eapply wp_mono; [apply (handle_promise r p _ (world s2))|].
  - by rewrite B.
  - by rewrite A.
  - by rewrite A.
  - intros resp w' [Hh Hk]. right. apply (let_in_untouched _ _ _ s2 _ _ Hu). by exists now, p.
Qed.

(** The identifier of the request comes first; it shows in a header only. *)
Lemma wp_serve a r s (Q : Response.t → Server DB SK QU → Prop) :
  (∀ value s1, untouched s s1 → wp (router a r (Keys.set_request_id value Keys.empty))
     (λ resp s', Q (Response.mk (Response.Status resp) (("X-Request-ID", value) :: Response.Headers resp)
                      (Response.Body resp)) s') s1) →
  wp (serve a r) Q s.
Proof.
  intros Hr. unfold serve, requestID. apply wp_bind. eapply (wp_mono _ (λ _ s1, untouched s s1)).
  { case_decide; [|done]. by apply wp_bind, wp_atomic. }
  intros value s1 Hu. apply wp_bind. by apply Hr.
Qed.

(** C3: Access to the API.  For every request, whatever the store, the queue and the token
    library: either it is turned away (or is a probe), and then no data changes and no
    record is shown; or it is authenticated as some principal whose role the route admits, and
    then the response shows records of that principal only, nothing of anybody else has
    changed, a reading route changed nothing at all, and only the registration of
    a tool touched the tools.  For a store in which deleting an agent takes other records
    along, this supposes that those have the agent's owner ([apart]); every request keeps that. *)
Theorem http_access a r s :
  (∀ job rt, is_Some (Enqueue gin_context job rt (w_queue (world s)))) →
  (∀ i a, agents_of (w_store (world s)) i = Some a → Agent.ID a = key DB i) →
  apart (w_store (world s)) →
  wp (serve a r) (λ resp s', turned_away s resp s' ∨ let_in a r s resp s') s.
Proof.
  intros Hq Hids Hap. apply wp_serve. intros value s1 Hu. pose proof Hu as (A & B & C).
  assert (wp (router a r (Keys.set_request_id value Keys.empty))
            (λ resp s', turned_away s1 resp s' ∨ let_in a r s1 resp s') s1) as Hs.
  { unfold router. assert (wp (v1 a r (Keys.set_request_id value Keys.empty))
      (λ resp s', turned_away s1 resp s' ∨ let_in a r s1 resp s') s1) as Hv.
    { apply v1_promise; [by rewrite B|by rewrite A..]. }
    destruct (Request.Endpoint r) eqn:E; try done;
      (apply wp_zoom; unfold API.handle; rewrite E; left; split; [done|]; split; [done|];
       apply (bool_decide_eq_true_1 _); reflexivity). }
  eapply wp_mono; [exact Hs|]. intros resp s' [Ht|Hl].
  - left. by apply (turned_away_untouched _ s1).
  - right. by apply (let_in_untouched _ _ _ s1).
Qed.

(** Who may follow an execution, and from where. *)
Definition may_stream (a : Authenticator.t) (id : string) (r : Request.t) s : Prop :=
  (∃ now p x,
     Authenticator.authenticate a now (Request.Authorization r) (Request.APIKey r) = Ok p ∧
     stored (w_store (world s)) id = Some x ∧ Execution.OwnerID x = key DB (Principal.ID p)) ∧
  (Request.Origin r = "" ∨ Parse (Request.Origin r) = Some (Request.Host r)) ∧
  ∀ scheme authority, scheme_ok scheme → authority_ok authority →
    Request.Origin r = scheme +:+ "://" +:+ authority → authority = Request.Host r.

(** C15: Who can open a stream.  A request to follow an execution changes nothing, and it
    becomes a websocket only for a caller who is authenticated and owns the execution, and, when
    it carries an Origin, only if the host that Origin names is the Host of the request:
    for the origins browsers send, scheme://host or scheme://host:port, host and
    port as they are written.  So a page of another origin cannot open a stream with its visitor's
    credentials.  (The hypothesis is what gorilla documents: the upgrade fails when
    CheckOrigin returns false.) *)
Theorem websocket_same_origin a id r s :
  Request.Endpoint r = StreamExecution id → is_Some (upgrade r false) →
  wp (serve a r) (λ resp s', untouched s s' ∧
    ∀ id', Response.Body resp = Upgraded id' → id' = id ∧ may_stream a id r s) s.
Proof.
  intros Hr [status Hup]. apply wp_serve. intros value s1 Hu1. unfold router. rewrite Hr.
  apply wp_v1.
  { intros resp s' (Hu & Hn & _). split; [by etrans|]. simpl. intros id' E. by rewrite E in Hn. }
  intros now p s2 Hu2 Ha _. unfold API.handle. rewrite Hr. unfold API.streamExecution.
  apply wp_bind, wp_atomic. cbn [fst snd]. split; [by transitivity s1; [|transitivity s2]|].
  destruct (Store.GetExecution _ _ _ _) as [x|e] eqn:Hg; [|done].
  destruct (upgrade r (CheckOrigin _ _)) as [|] eqn:Hc; [by intros id' [=]|]. intros id' [= <-]. split; [done|]. split.
  { apply get_execution in Hg as [Hx Ho]. exists now, p, x. split_and!; try done.
    assert (untouched s s2) as (Hst & _) by (by transitivity s1). by rewrite <-Hst. }
  destruct (CheckOrigin _ _) eqn:Ho; [|congruence]. split.
  - unfold CheckOrigin in Ho. case_decide as Hd; [by left|right].
    destruct (Parse _) as [h|]; [|done]. apply bool_decide_eq_true in Ho. by rewrite Ho.
  - intros scheme authority Hs Hau E. rewrite E, (CheckOrigin_origin _ _ _ Hs Hau) in Ho.
    by apply bool_decide_eq_true in Ho.
Qed.
End serving.

(** ** What a caller can learn about others *)

Section reads.
Context `{Env} {DB SK QU : Type} `{StoreOps DB, QueueOps QU, Unicode, Gin}.
Implicit Types (w : World DB SK QU).

(** The response of a handler that runs alone. *)
Definition response (p : prog (World DB SK QU) Response.t) w : option Response.t :=
  fst <$> run p w.

(** The call a read of this world makes. *)
Definition reading w : Call := call_at gin_context (get_rt (advance w)).

Lemma response_read {X} (f : Call → DB → X) (k : X → Response.t) w :
  response (x ← Service.store_read gin_context f; mret (k x)) w =
  Some (k (f (reading w) (w_store w))).
Proof. done. Qed.

Lemma response_trace p id w :
  response (API.getTrace id p) w =
  Some (match TraceAt (reading w) (Principal.ID p) id (w_store w) (w_store w) with
        | Err err => writeError err StatusInternalServerError
        | Ok trace => API.json StatusOK (TraceBody trace)
        end).
Proof. done. Qed.

(** The routes that read one record. *)
Definition reads_one (e : endpoint) : bool :=
  match e with
  | GetAgent _ | GetExecution _ | GetTrace _ | StreamExecution _ => true
  | _ => false
  end.


End reads.

Section memory.
Context `{Env} {SK QU : Type} `{MapOrder, QueueOps QU, Unicode, Gin}.
Implicit Types (w : World Memory.t SK QU) (m : Memory.t).

(** Somebody else's agent, or none. *)
Definition no_agent (p : Principal.t) (id : string) m : Prop :=
  ∀ a, Memory.agents m !! id = Some a → Agent.OwnerID a ≠ Principal.ID p.

Lemma no_agent_get c p id m :
  no_agent p id m → Memory.GetAgent c (Principal.ID p) id m = Err (Sentinel NotFound).
Proof.
  intros Hn. unfold Memory.GetAgent. destruct (Memory.agents m !! id) as [a|] eqn:E; [|done].
  rewrite decide_False; [done|]. by apply Hn.
Qed.

(** A body that gets as far as the agent. *)
Definition asks_for (id : string) (r : Request.t) : Prop :=
  let '(body, more) := bodyLimit 1048576 (Request.Body r) in
  Request.Endpoint r = GetAgent id ∨ Request.Endpoint r = DeleteAgent id ∨
  (Request.Endpoint r = UpdateAgent id ∧
   ∃ input, bind_agent body more = Some input ∧ valid_input input) ∨
  (Request.Endpoint r = ExecuteAgent id ∧ Request.IdempotencyKey r = "" ∧
   ∃ input, bind_execution body more = Some input ∧
            TrimSpace (ExecutionInput.Input input) ≠ "").

(** Reading, updating, deleting or executing an agent that does not exist or is somebody
    else's is answered 404 with the same body, and changes nothing. *)
Theorem http_unknown_agent id r p requestID w :
  no_agent p id (w_store w) → asks_for id r →
  wp (API.handle r p requestID) (λ resp w',
    resp = Response.mk StatusNotFound [] (ErrorBody (Error (Sentinel NotFound))) ∧
    w_store w' = w_store w ∧ w_queue w' = w_queue w) w.
Proof.
  intros Hn Ha. unfold API.handle, asks_for in *. destruct (bodyLimit _ _) as [body more] eqn:Eb.
  destruct Ha as [-> |[-> |[(-> & input & Hb & Hv)|(-> & Hk & input & Hb & Hi)]]].
  - apply wp_bind, wp_atomic. cbn [fst snd]. change (w_store (advance w)) with (w_store w).
    simpl. by rewrite no_agent_get.
  - apply wp_bind, wp_atomic. change (w_store (advance w)) with (w_store w). simpl.
    unfold Memory.DeleteAgent. destruct (Memory.agents (w_store w) !! id) as [a|] eqn:E; [|done].
    by rewrite decide_False by (by apply Hn).
  - unfold API.updateAgent. rewrite Eb, Hb. apply wp_bind. unfold Service.UpdateAgent.
    rewrite (proj2 (validateAgent_ok input)) by done. apply wp_bind, wp_atomic. cbn [fst snd].
    change (w_store (advance w)) with (w_store w). simpl. by rewrite no_agent_get.
  - unfold API.executeAgent. rewrite Eb, Hb. apply wp_bind. unfold Service.StartExecution. cbn.
    rewrite decide_False by done. rewrite Hk. cbn. unfold Service.create_execution.
    apply wp_bind, wp_atomic. cbn [fst snd]. change (w_store (advance w)) with (w_store w).
    simpl. by rewrite no_agent_get.
Qed.
End memory.

(** ** Request identifiers *)

Lemma digits_fuel_length base fuel n k :
  1 < base → 0 ≤ n < base ^ Z.of_nat k → (1 ≤ k)%nat →
  (length (digits_fuel fuel base n) ≤ k)%nat.
Proof.
  intros Hb. revert n k. induction fuel as [|fuel IH]; intros n k Hn Hk; simpl; [lia|].
  destruct (Z.ltb_spec n base); simpl; [lia|]. rewrite length_app. simpl.
  destruct k as [|[|k]]; [lia|change (Z.of_nat 1) with 1 in Hn; lia|].
  specialize (IH (n / base) (S k)). enough (length (digits_fuel fuel base (n / base)) ≤ S k)%nat by lia.
  apply IH; [|lia]. split; [apply Z.div_pos; lia|]. apply Z.div_lt_upper_bound; [lia|].
  replace (base * base ^ Z.of_nat (S k)) with (base ^ Z.of_nat (S (S k))); [lia|].
  rewrite (Nat2Z.inj_succ (S k)), Z.pow_succ_r by lia. lia.
Qed.

(** A request without an X-Request-ID gets an identifier of at most 14 characters, so never
    the text of a UUID (32 hexadecimal digits at least), which is what the column of the
    executions table takes. *)
Theorem generated_id_no_uuid now : len (generated_id now) ≤ 14.
Proof.
  unfold generated_id, len. pose proof (wrap64_range (now - unix_epoch)) as Hr.
  fold (UnixNano now) in Hr. set (n := UnixNano now) in *. clearbody n.
  assert (∀ l, (length (bytes (of_bytes l)) = length l)%nat) as Hlen.
  { intros l. unfold bytes, of_bytes. by rewrite length_fmap, String.list_ascii_of_string_of_list_ascii, length_fmap. }
  unfold FormatInt, digits, int64, min_int64, max_int64 in *. rewrite Hlen.
  destruct (Z.ltb_spec n 0); cbn [length].
  - pose proof (digits_fuel_length 36 64 (- n) 13) as Hd. specialize (Hd ltac:(lia)).
    enough (length (digits_fuel 64 36 (- n)) ≤ 13)%nat by lia. apply Hd; [|lia].
    split; [lia|]. apply Z.le_lt_trans with (2 ^ 63); [lia|]. by vm_compute.
  - pose proof (digits_fuel_length 36 64 n 13) as Hd. specialize (Hd ltac:(lia)).
    enough (length (digits_fuel 64 36 n) ≤ 13)%nat by lia. apply Hd; [|lia].
    split; [lia|]. apply Z.le_lt_trans with (2 ^ 63); [lia|]. by vm_compute.
Qed.

(** ** A server in use *)

#[local] Existing Instance demo_env.
#[local] Existing Instance demo_unicode.
#[local] Existing Instance MemoryFacts.demo_order.
#[local] Existing Instance Auth.demo_jwt.

(** Bodies that always decode, and a context that never ends. *)
#[local] Instance demo_gin : Gin := {|
  bind_agent _ _ := Some update_input;
  bind_execution _ _ := Some (ExecutionInput.mk "hello" "" "" "");
  bind_tool _ _ := None;
  gin_context := Background;
  upgrade _ allowed := if allowed : bool then None else Some 403
|}.

Definition demo_server : Server Memory.t unit Immediate.t := mkServer start_world new_limiter.
Definition root : Authenticator.t := Authenticator.New "secret" "dev-key" "owner".
Definition execute_request (key : string) : Request.t :=
  Request.mk (ExecuteAgent "a") "" key "" "" "127.0.0.1" None "body" "" "api.example".
Definition get_request (id : string) : Request.t :=
  Request.mk (GetAgent id) "" "dev-key" "" "" "127.0.0.1" None "" "" "api.example".

Lemma demo_queue_has_room job rt :
  is_Some (Enqueue gin_context job rt (w_queue (world demo_server))).
Proof. by eexists. Qed.

Lemma http_access_witness :
  wp (serve root (execute_request "dev-key")) (λ resp s',
    turned_away demo_server resp s' ∨ let_in root (execute_request "dev-key") demo_server resp s')
    demo_server ∧
  (Response.Status ∘ fst <$> run (serve root (execute_request "dev-key")) demo_server = Some 202) ∧
  (Response.Status ∘ fst <$> run (serve root (execute_request "")) demo_server = Some 401) ∧
  (Response.Status ∘ fst <$> run (serve root (get_request "a")) demo_server = Some 200).
Proof.
  split_and!; [|vm_compute; reflexivity..].
  apply (http_access root (execute_request "dev-key") demo_server demo_queue_has_room); [|exact I].
  intros i a. simpl. intros [<- <-]%lookup_singleton_Some. reflexivity.
Defined.

(** A page of the API's own origin opens a stream; one of another origin, or a sandboxed
    one, does not, whatever credentials it comes with. *)
Definition stream_request (origin : string) : Request.t :=
  Request.mk (StreamExecution "e") "" "dev-key" "" "" "127.0.0.1" None "" origin "api.example:8443".
Definition streamed : Execution.t :=
  Execution.mk "e" "r" "" "a" "owner" "" "hello" "" ExecutionRunning "model" 0 0 "" 0 None None 0.
Definition stream_server : Server Memory.t unit Immediate.t :=
  mkServer (set_store (Memory.mk {["a" := start_agent]} {["e" := streamed]} ∅ ∅ ∅) start_world) new_limiter.

Definition stream_status (origin : string) : option Z :=
  Response.Status ∘ fst <$> run (serve root (stream_request origin)) stream_server.

Lemma websocket_same_origin_witness :
  (∀ origin, wp (serve root (stream_request origin)) (λ resp s', untouched stream_server s' ∧
     ∀ id', Response.Body resp = Upgraded id' →
       id' = "e" ∧ may_stream root "e" (stream_request origin) stream_server) stream_server) ∧
  stream_status "https://api.example:8443" = Some 101 ∧ stream_status "" = Some 101 ∧
  stream_status "https://evil.example" = Some 403 ∧ stream_status "null" = Some 403 ∧
  stream_status "https://api.example" = Some 403.
Proof.
  split_and!; [|vm_compute; reflexivity..]. intros origin.
  apply (websocket_same_origin root "e" (stream_request origin) stream_server);
    [reflexivity|by eexists].
Defined.

(** The database of the example with and without an agent of somebody else. *)
Definition crowded_world : World Memory.t unit Immediate.t :=
  set_store (Memory.mk {["a" := start_agent; "b" := demo_agent "somebody" "b"]} ∅ ∅ ∅ ∅) start_world.


Lemma http_unknown_agent_witness :
  wp (API.handle (execute_request "") (Principal.mk "stranger" "developer") "id") (λ resp w',
    resp = Response.mk StatusNotFound [] (ErrorBody (Error (Sentinel NotFound))) ∧
    w_store w' = w_store start_world ∧ w_queue w' = w_queue start_world) start_world.
Proof.
  apply (http_unknown_agent "a").
  - intros a. simpl. intros [_ <-]%lookup_singleton_Some. discriminate.
  - right. right. right. split; [reflexivity|]. split; [reflexivity|].
    exists (ExecutionInput.mk "hello" "" "" ""). split; [reflexivity|]. vm_compute. discriminate.
Defined.
