(* ===== verification/HttpMetrics.v ===== *)
(** * [internal/observability/metrics.go]: the HTTP metrics

    [HTTPMiddleware] counts every request under its method, the pattern of the route it
    matched and the status of its answer, and records how long it took.  A counter and a
    histogram are maps from the values of their labels to samples. *)

From S2P Require Import Prelude GoLang GoString Domain Http.
Open Scope Z_scope.

(** The patterns [New] registers; [ctx.FullPath()], empty for a request no route matched. *)
Definition FullPath (e : option endpoint) : string :=
  match e with
  | None => ""
  | Some Healthz => "/healthz"
  | Some Readyz => "/readyz"
  | Some CreateAgent => "/api/v1/agents"
  | Some (GetAgent _ | UpdateAgent _ | DeleteAgent _) => "/api/v1/agents/:id"
  | Some (ExecuteAgent _) => "/api/v1/agents/:id/execute"
  | Some (ListExecutions _) => "/api/v1/agents/:id/executions"
  | Some (GetExecution _) => "/api/v1/executions/:id"
  | Some (GetTrace _) => "/api/v1/executions/:id/trace"
  | Some (StreamExecution _) => "/api/v1/executions/:id/stream"
  | Some CreateTool => "/api/v1/tools"
  end.

Module HTTPMetrics.
Record t := mk {
  requests : gmap (string * string * string) Z;
  duration_ : gmap (string * string) (list duration)
}.

(** [MustRegister] of new vectors. *)
Definition empty_ : t := mk ∅ ∅.

Definition route_label (route : string) : string :=
  if decide (route = "") then "unmatched" else route.

(** What the middleware does after [ctx.Next()]. *)
Definition observe (method : string) (route : string) (status : Z) (elapsed : duration) (m : t) : t :=
  let route := route_label route in
  mk (partial_alter (λ n, Some (default 0 n + 1)) (method, route, Itoa status) (requests m))
     (partial_alter (λ l, Some (default [] l ++ [elapsed])) (method, route) (duration_ m)).
End HTTPMetrics.

(** A request that was answered: its method, what it matched, the status, the time it took. *)
Module Answered.
Record t := mk { Method : string; Matched : option endpoint; Status : Z; Elapsed : duration }.
Definition labels (a : t) : string * string * string :=
  (Method a, HTTPMetrics.route_label (FullPath (Matched a)), Itoa (Status a)).
End Answered.

Definition record_all (l : list Answered.t) : HTTPMetrics.t :=
  foldl (λ m a, HTTPMetrics.observe (Answered.Method a) (FullPath (Answered.Matched a))
                  (Answered.Status a) (Answered.Elapsed a) m) HTTPMetrics.empty_ l.

(** ** Properties *)

Definition route_labels : list string :=
  ["unmatched"; "/healthz"; "/readyz"; "/api/v1/agents"; "/api/v1/agents/:id";
   "/api/v1/agents/:id/execute"; "/api/v1/agents/:id/executions"; "/api/v1/executions/:id";
   "/api/v1/executions/:id/trace"; "/api/v1/executions/:id/stream"; "/api/v1/tools"].

Lemma record_snoc l a :
  record_all (l ++ [a]) =
  HTTPMetrics.observe (Answered.Method a) (FullPath (Answered.Matched a)) (Answered.Status a)
    (Answered.Elapsed a) (record_all l).
Proof. unfold record_all. by rewrite foldl_snoc. Qed.

Lemma record_requests l k :
  HTTPMetrics.requests (record_all l) !! k =
  let n := length (filter (λ a, Answered.labels a = k) l) in
  if decide (n = 0%nat) then None else Some (Z.of_nat n).
Proof.
  induction l as [|a l IH] using rev_ind; [done|].
  rewrite record_snoc, filter_app, length_app. unfold HTTPMetrics.observe. cbn [HTTPMetrics.requests].
  fold (Answered.labels a). cbv zeta in *. rewrite filter_cons. destruct (decide (Answered.labels a = k)) as [<-|Hk].
  - rewrite lookup_partial_alter_eq, IH. simpl. repeat case_decide; simpl; f_equal; lia.
  - rewrite lookup_partial_alter_ne, IH by done. simpl. by rewrite Nat.add_0_r.
Qed.

(** The request counters are right and their routes few: after any requests, the counter of a method,
    a route and a status is the number of requests answered with these, a series exists for
    no other labels, and the route is one of eleven texts, whatever paths were asked for; the
    method is taken from the request as it is. *)
Theorem http_metrics_count l method route status :
  HTTPMetrics.requests (record_all l) !! (method, route, status) =
    (let n := length (filter (λ a, Answered.labels a = (method, route, status)) l) in
     if decide (n = 0%nat) then None else Some (Z.of_nat n)) ∧
  (is_Some (HTTPMetrics.requests (record_all l) !! (method, route, status)) → route ∈ route_labels) ∧
  HTTPMetrics.requests (record_all (l ++ [Answered.mk method None 404 0])) !! (method, "unmatched", "404") ≠ None.
Proof.
  split_and!; [apply record_requests| |].
  - rewrite record_requests. cbv zeta. case_decide as Hn; [by intros []|]. intros _.
    destruct (filter _ l) as [|a k] eqn:E; [done|].
    assert (a ∈ filter (λ a, Answered.labels a = (method, route, status)) l) as Ha
      by (rewrite E; left).
    apply list_elem_of_filter in Ha as [[= _ <- _] _].
    destruct (Answered.Matched a) as [[]|]; vm_compute; repeat (first [left; done | right]).
  - rewrite record_requests, filter_app, length_app. cbv zeta. rewrite decide_False; [done|].
    rewrite (filter_cons_True (λ a, _)) by reflexivity. simpl. lia.
Qed.
