(* ===== verification/Observability.v ===== *)
(** * [internal/observability]: the collectors of the metrics, and tracing

    [NewMetrics] and [HTTPMiddleware] of [metrics.go] register collectors and panic when one cannot be;
    the Prometheus registry is a parameter with its documented behaviour.  The samples themselves
    are part of the log of the engine ([World.sample]) and of [HttpMetrics].
    [InitTracing] of [tracing.go] decides whether spans are exported; what creates the exporter and
    the description of the service is OpenTelemetry's, and may fail. *)

From S2P Require Import Prelude GoLang GoString World.
Open Scope Z_scope.

(** ** Metrics *)

(** What registration looks at: the name of a metric and the names of its labels. *)
Module Family.
Record t := mk { Name : string; Labels : list string }.
End Family.

(** A registry refuses a collector exactly when the name of one of its metrics is taken. *)
Class Prometheus (R : Type) := {
  NewRegistry : R;
  Register : list Family.t → R → option R;
  names : R → list string;
  (* the metrics of [NewGoCollector] and [NewProcessCollector] *)
  go_collector : list Family.t;
  process_collector : list Family.t;
  new_registry_names : names NewRegistry = [];
  register_ok fs r r' : Register fs r = Some r' →
    names r' = names r ++ (Family.Name <$> fs) ∧ ∀ f, f ∈ fs → Family.Name f ∉ names r;
  register_free fs r : (∀ f, f ∈ fs → Family.Name f ∉ names r) → is_Some (Register fs r);
  go_names f : f ∈ go_collector → HasPrefix (Family.Name f) "go_" = true;
  process_names f : f ∈ process_collector → HasPrefix (Family.Name f) "process_" = true
}.

Module Metrics.
Section metrics.
Context `{Prometheus R}.

(** [MustRegister]; [None] is its panic. *)
Fixpoint MustRegister (collectors : list (list Family.t)) (r : R) : option R :=
  match collectors with
  | [] => Some r
  | c :: collectors => r ← Register c r; MustRegister collectors r
  end.

Definition AgentRequests : Family.t := Family.mk "agent_requests_total" [].
Definition AgentErrors : Family.t := Family.mk "agent_errors_total" [].
Definition AgentDuration : Family.t := Family.mk "agent_execution_duration_seconds" [].
Definition LLMLatency : Family.t := Family.mk "llm_latency_seconds" ["model"].
Definition ToolDuration : Family.t := Family.mk "tool_execution_duration_seconds" ["tool"].
Definition TokenUsage : Family.t := Family.mk "token_usage_total" ["model"; "direction"].

(** The registry of new metrics. *)
Definition NewMetrics : option R :=
  MustRegister [[AgentRequests]; [AgentErrors]; [AgentDuration]; [LLMLatency]; [ToolDuration];
                [TokenUsage]; go_collector; process_collector] NewRegistry.

Definition http_requests : Family.t := Family.mk "http_requests_total" ["method"; "route"; "status"].
Definition http_duration : Family.t := Family.mk "http_request_duration_seconds" ["method"; "route"].

(** [HTTPMiddleware], up to the handler that it returns. *)
Definition HTTPMiddleware (r : R) : option R := MustRegister [[http_requests]; [http_duration]] r.
End metrics.

(** The metric a sample is recorded on, and the values it gives for its labels. *)
Definition labelled (s : sample) : Family.t * list string :=
  match s with
  | World.AgentRequests => (AgentRequests, [])
  | World.AgentErrors => (AgentErrors, [])
  | World.AgentDuration _ => (AgentDuration, [])
  | World.LLMLatency model _ => (LLMLatency, [model])
  | World.ToolDuration tool _ => (ToolDuration, [tool])
  | World.TokenUsage model direction _ => (TokenUsage, [model; direction])
  end.
End Metrics.

(** No sample of the engine makes [WithLabelValues] panic: there is a value for each label. *)
Lemma samples_labelled s :
  length (Metrics.labelled s).2 = length (Family.Labels (Metrics.labelled s).1).
Proof. by destruct s. Qed.

Section registration.
Context `{Prometheus R}.
Implicit Types (r : R).

Lemma MustRegister_cons fs cs r :
  (∀ f, f ∈ fs → Family.Name f ∉ names r) →
  ∃ r', names r' = names r ++ (Family.Name <$> fs) ∧
        Metrics.MustRegister (fs :: cs) r = Metrics.MustRegister cs r'.
Proof.
  intros Hf. destruct (register_free fs r Hf) as [r' E]. exists r'. simpl. rewrite E.
  split; [|done]. by apply register_ok in E as [? _].
Qed.

(** The names of the Go runtime's metrics are told apart by their prefix. *)
Lemma not_go n : HasPrefix n "go_" = false → n ∉ Family.Name <$> go_collector.
Proof. intros Hn (f & -> & Hf)%list_elem_of_fmap. apply go_names in Hf. congruence. Qed.
Lemma not_process n : HasPrefix n "process_" = false → n ∉ Family.Name <$> process_collector.
Proof. intros Hn (f & -> & Hf)%list_elem_of_fmap. apply process_names in Hf. congruence. Qed.
Lemma go_not_process n : HasPrefix n "go_" = true → HasPrefix n "process_" = false.
Proof.
  unfold HasPrefix. intros [k Hk]%bool_decide_eq_true. apply bool_decide_eq_false. rewrite Hk.
  intros [k' Hk']. discriminate Hk'.
Qed.

(** A name that is none of those in the registry. *)
Ltac fresh_name :=
  rewrite ?not_elem_of_cons, ?not_elem_of_app, ?not_elem_of_cons;
  repeat match goal with |- _ ∧ _ => split end;
  first [ apply not_elem_of_nil | by apply not_go | by apply not_process | done ].
Ltac fresh_names E :=
  rewrite E; csimpl; intros f Hf; repeat (apply elem_of_cons in Hf as [->|Hf]; [fresh_name|]);
  by apply not_elem_of_nil in Hf.

Ltac register r E :=
  match goal with
  | |- context [ Metrics.MustRegister (?fs :: ?cs) ?r0 ] =>
      let Hr := fresh "Hr" in
      destruct (MustRegister_cons fs cs r0) as (r & E & Hr);
      [|rewrite Hr; clear Hr]
  end.

(** The metrics can be registered once: [NewMetrics] does not panic, nor does the middleware
    that the one server of the process installs; a second server over the same metrics would. *)
Theorem metrics_register :
  ∃ r r', Metrics.NewMetrics = Some r ∧ Metrics.HTTPMiddleware r = Some r' ∧ Metrics.HTTPMiddleware r' = None.
Proof.
  pose proof (@new_registry_names R _) as E0. unfold Metrics.NewMetrics.
  register r1 E1; [fresh_names E0|]. rewrite E0 in E1.
  register r2 E2; [fresh_names E1|]. rewrite E1 in E2.
  register r3 E3; [fresh_names E2|]. rewrite E2 in E3.
  register r4 E4; [fresh_names E3|]. rewrite E3 in E4.
  register r5 E5; [fresh_names E4|]. rewrite E4 in E5.
  register r6 E6; [fresh_names E5|]. rewrite E5 in E6. clear E1 E2 E3 E4 E5.
  register r7 E7.
  { rewrite E6. csimpl. intros f Hf%go_names. rewrite ?not_elem_of_app, ?not_elem_of_cons.
    split_and!; try apply not_elem_of_nil; intros E; rewrite E in Hf; discriminate Hf. }
  rewrite E6 in E7. register r8 E8.
  { rewrite E7. csimpl. intros f Hf%process_names. rewrite ?not_elem_of_app, ?not_elem_of_cons.
    split_and!; try apply not_elem_of_nil; try (intros E; rewrite E in Hf; discriminate Hf).
    intros (g & E & Hg%go_names)%list_elem_of_fmap. rewrite <-E in Hg. apply go_not_process in Hg. congruence. }
  rewrite E7 in E8. exists r8. unfold Metrics.HTTPMiddleware.
  register r9 E9; [fresh_names E8|]. rewrite E8 in E9.
  register r10 E10; [fresh_names E9|]. exists r10. split_and!; [done|done|].
  simpl. destruct (Register [Metrics.http_requests] r10) as [r11|] eqn:E; [|done].
  apply register_ok in E as [_ Hn]. exfalso.
  apply (Hn Metrics.http_requests); [by left|]. rewrite E10, E9, !elem_of_app. left. right. left.
Qed.
End registration.

(** A registry that keeps the names it has seen. *)
#[local] Instance demo_prometheus : Prometheus (list string).
Proof.
  refine {|
    NewRegistry := [];
    Register fs r := if decide (Forall (λ f, Family.Name f ∉ r) fs) then Some (r ++ (Family.Name <$> fs)) else None;
    names r := r;
    go_collector := [Family.mk "go_goroutines" []];
    process_collector := [Family.mk "process_open_fds" []]
  |}.
  - done.
  - intros fs r r'. case_decide as Hf; [|done]. intros [= <-]. rewrite Forall_forall in Hf. done.
  - intros fs r Hf. rewrite decide_True; [by eexists|]. by apply Forall_forall.
  - by intros f ->%list_elem_of_singleton.
  - by intros f ->%list_elem_of_singleton.
Defined.

Lemma metrics_register_witness :
  (∃ r r' : list string, Metrics.NewMetrics = Some r ∧ Metrics.HTTPMiddleware r = Some r' ∧
     Metrics.HTTPMiddleware r' = None) ∧
  (Metrics.NewMetrics ≫= Metrics.HTTPMiddleware : option (list string)) =
    Some ["agent_requests_total"; "agent_errors_total"; "agent_execution_duration_seconds";
          "llm_latency_seconds"; "tool_execution_duration_seconds"; "token_usage_total"; "go_goroutines";
          "process_open_fds"; "http_requests_total"; "http_request_duration_seconds"].
Proof. split; [exact metrics_register|]. vm_compute. reflexivity. Defined.

(** ** Tracing *)

(** What may fail: the exporter for an endpoint, the description of a service. *)
Class Otel := {
  new_exporter : string → option error;
  new_resource : string → option error
}.

(** Whether spans are exported, and what the shutdown function that is returned ends. *)
Inductive tracing : Set := NoTracing | Exporting (serviceName endpoint : string).

Definition InitTracing `{Otel} (serviceName endpoint : string) : result tracing :=
  if decide (endpoint = "") then Ok NoTracing
  else match new_exporter endpoint with
       | Some err => Err (Wrap "create OTLP exporter" err)
       | None =>
           match new_resource serviceName with
           | Some err => Err (Wrap "create trace resource" err)
           | None => Ok (Exporting serviceName endpoint)
           end
       end.

(** Without an endpoint nothing is asked of OpenTelemetry and nothing can fail. *)
Lemma InitTracing_ok `{Otel} serviceName endpoint :
  is_ok (InitTracing serviceName endpoint) = true ↔
  endpoint = "" ∨ new_exporter endpoint = None ∧ new_resource serviceName = None.
Proof.
  unfold InitTracing. case_decide as He; [naive_solver|].
  destruct (new_exporter endpoint), (new_resource serviceName); naive_solver.
Qed.
