(* ===== verification/GoTime.v ===== *)
(** * [time.ParseDuration]

    The scanner of the Go library: a sign, then numbers with an optional fraction and a unit
    each; 64-bit unsigned sums with their overflow checks; a fraction of a unit is
    computed in [float64], as there. *)

From Stdlib Require Import SpecFloat.
From S2P Require Import Prelude GoLang GoString GoJson.
Open Scope Z_scope.

(** [time.quote] *)
Definition quote_byte (b : Z) : list Z :=
  if (128 <=? b) || (b <? 32) then [92; 120] ++ hex_fixed 2 b
  else if (b =? 34) || (b =? 92) then [92; b] else [b].
Definition time_quote (s : string) : string :=
  of_bytes ([34] ++ concat (quote_byte <$> bytes s) ++ [34]).

Definition invalid_duration (s : string) : error :=
  ErrorString ("time: invalid duration " +:+ time_quote s).

(** [leadingInt]: the number and what follows; [None] on overflow. *)
Fixpoint leadingInt (x : Z) (l : list Z) : option (Z * list Z) :=
  match l with
  | c :: rest =>
      if is_digit c then
        if 2 ^ 63 / 10 <? x then None
        else let x := x * 10 + (c - 48) in
             if 2 ^ 63 <? x then None else leadingInt x rest
      else Some (x, l)
  | [] => Some (x, [])
  end.

(** [leadingFraction]: the digits that fit, and the power of ten they are over. *)
Fixpoint leadingFraction (overflow : bool) (x : Z) (scale : Z) (l : list Z) : Z * Z * list Z :=
  match l with
  | c :: rest =>
      if is_digit c then
        if overflow then leadingFraction true x scale rest
        else if (2 ^ 63 - 1) / 10 <? x then leadingFraction true x scale rest
        else let y := x * 10 + (c - 48) in
             if 2 ^ 63 <? y then leadingFraction true x scale rest
             else leadingFraction false y (scale * 10) rest
      else (x, scale, l)
  | [] => (x, scale, [])
  end.

(** [unitMap], by the bytes of the unit: the two micro signs are U+00B5 and U+03BC. *)
Definition unit_of (u : list Z) : option Z :=
  if decide (u = bytes "ns") then Some 1
  else if decide (u = bytes "us" ∨ u = [194; 181; 115] ∨ u = [206; 188; 115]) then Some 1000
  else if decide (u = bytes "ms") then Some Millisecond
  else if decide (u = bytes "s") then Some Second
  else if decide (u = bytes "m") then Some Minute
  else if decide (u = bytes "h") then Some Hour else None.

(** The bytes up to the next dot or digit. *)
Fixpoint span_unit (l : list Z) : list Z * list Z :=
  match l with
  | c :: rest => if (c =? 46) || is_digit c then ([], l)
                 else let '(u, rest) := span_unit rest in (c :: u, rest)
  | [] => ([], [])
  end.

(** An integer as a [float64], and a positive [float64] as an integer, rounded down. *)
Definition float_of (n : Z) : float64 := binary_normalize prec64 emax64 n 0 false.
Definition floor_float (f : float64) : Z :=
  match f with S754_finite false m e => Z.shiftl (Zpos m) e | _ => 0 end.

(** [uint64(float64(f) * (float64(unit) / scale))] *)
Definition fraction_value (f unit scale : Z) : Z :=
  floor_float (SFmul prec64 emax64 (float_of f)
                 (SFdiv prec64 emax64 (float_of unit) (float_of scale))).

(** One number with its unit: its nanoseconds, and what follows. *)
Definition duration_part (orig : string) (l : list Z) : result (Z * list Z) :=
  match l with
  | c :: _ =>
      if negb ((c =? 46) || is_digit c) then Err (invalid_duration orig)
      else match leadingInt 0 l with
           | None => Err (invalid_duration orig)
           | Some (v, l1) =>
               let pre := negb (length l1 =? length l)%nat in
               let '(f, scale, l2, post) :=
                 match l1 with
                 | 46 :: l2 => let '(f, scale, l3) := leadingFraction false 0 1 l2 in
                               (f, scale, l3, negb (length l3 =? length l2)%nat)
                 | _ => (0, 1, l1, false)
                 end in
               if negb (pre || post) then Err (invalid_duration orig)
               else let '(u, l3) := span_unit l2 in
                    match u with
                    | [] => Err (ErrorString ("time: missing unit in duration " +:+ time_quote orig))
                    | _ =>
                        match unit_of u with
                        | None => Err (ErrorString ("time: unknown unit " +:+
                                         time_quote (of_bytes u) +:+ " in duration " +:+ time_quote orig))
                        | Some unit =>
                            if 2 ^ 63 / unit <? v then Err (invalid_duration orig)
                            else
                              let v := v * unit in
                              if 0 <? f then
                                let v := v + fraction_value f unit scale in
                                if 2 ^ 63 <? v then Err (invalid_duration orig) else Ok (v, l3)
                              else Ok (v, l3)
                        end
                    end
           end
  | [] => Err (invalid_duration orig)
  end.

(** The loop over the parts; every part consumes a byte at least. *)
Fixpoint duration_parts (fuel : nat) (orig : string) (d : Z) (l : list Z) : result Z :=
  match fuel, l with
  | _, [] => Ok d
  | O, _ => Err (invalid_duration orig)
  | S fuel, _ =>
      '(v, l) ← duration_part orig l;
      let d := (d + v) mod 2 ^ 64 in
      if 2 ^ 63 <? d then Err (invalid_duration orig) else duration_parts fuel orig d l
  end.

Definition ParseDuration (s : string) : result duration :=
  let '(neg, l) := match bytes s with
                   | 45 :: l => (true, l)
                   | 43 :: l => (false, l)
                   | l => (false, l)
                   end in
  if decide (l = bytes "0") then Ok 0
  else if decide (l = []) then Err (invalid_duration s)
  else
    d ← duration_parts (length l) s 0 l;
    if neg : bool then Ok (- d)
    else if 2 ^ 63 - 1 <? d then Err (invalid_duration s) else Ok d.

Example ParseDuration_examples :
  ParseDuration "5s" = Ok (5 * Second) ∧ ParseDuration "1h15m30.918s" = Ok 4530918000000 ∧
  ParseDuration "-1.5h" = Ok (-5400 * Second) ∧ ParseDuration ".5ms" = Ok 500000 ∧
  ParseDuration "0" = Ok 0 ∧
  ParseDuration "5" = Err (ErrorString ("time: missing unit in duration " +:+ time_quote "5")) ∧
  is_ok (ParseDuration "1x") = false ∧ is_ok (ParseDuration "") = false ∧
  ParseDuration "9223372036854775807ns" = Ok max_int64 ∧
  ParseDuration "-9223372036854775808ns" = Ok min_int64 ∧
  is_ok (ParseDuration "9223372036854775808ns") = false.
Proof. vm_compute. intuition reflexivity. Qed.
