(* ===== verification/GoDate.v ===== *)
(** * [time.Time] as JSON text

    [MarshalJSON] prints the instant in RFC 3339 (UTC, up to nine decimals, no trailing
    zeros) and refuses years outside 0 to 9999; [UnmarshalJSON] reads RFC 3339 with any
    offset.  The calendar is the proleptic Gregorian one, counted from a first of March so
    that the leap day is the last day of a year. *)

From S2P Require Import Prelude GoLang GoString GoJson JsonFacts.
Open Scope Z_scope.

(** ** The calendar *)

Definition leap (y : Z) : bool := (y mod 4 =? 0) && (negb (y mod 100 =? 0) || (y mod 400 =? 0)).
Definition days_in (m y : Z) : Z :=
  if m =? 2 then (if leap y then 29 else 28)
  else if (m =? 4) || (m =? 6) || (m =? 9) || (m =? 11) then 30 else 31.

(** Year, month and day of the [n]-th day after January 1, year 1. *)
Definition civil_of_day (n : Z) : Z * Z * Z :=
  let z := n + 306 in
  let era := z / 146097 in
  let doe := z mod 146097 in
  let yoe := (doe - doe / 1460 + doe / 36524 - doe / 146096) / 365 in
  let doy := doe - (365 * yoe + yoe / 4 - yoe / 100) in
  let mp := (5 * doy + 2) / 153 in
  let d := doy - (153 * mp + 2) / 5 + 1 in
  let m := if mp <? 10 then mp + 3 else mp - 9 in
  (yoe + era * 400 + (if m <=? 2 then 1 else 0), m, d).

Definition day_of_civil (y m d : Z) : Z :=
  let y' := if m <=? 2 then y - 1 else y in
  let era := y' / 400 in
  let yoe := y' mod 400 in
  let mp := if 2 <? m then m - 3 else m + 9 in
  let doy := (153 * mp + 2) / 5 + d - 1 in
  era * 146097 + (yoe * 365 + yoe / 4 - yoe / 100 + doy) - 306.

(** The year of an era and the day of the year. *)
Lemma year_of_era doe :
  0 ≤ doe < 146097 →
  let yoe := (doe - doe / 1460 + doe / 36524 - doe / 146096) / 365 in
  let doy := doe - (365 * yoe + yoe / 4 - yoe / 100) in
  0 ≤ yoe < 400 ∧ 0 ≤ doy ≤ 365 ∧
  (doy = 365 → (yoe + 1) mod 4 = 0 ∧ ((yoe + 1) mod 100 ≠ 0 ∨ yoe = 399)).
Proof. intros H yoe doy. subst yoe doy. Z.to_euclidean_division_equations. lia. Qed.

Lemma month_of_year doy :
  0 ≤ doy ≤ 365 →
  let mp := (5 * doy + 2) / 153 in
  let d := doy - (153 * mp + 2) / 5 + 1 in
  0 ≤ mp ≤ 11 ∧ 1 ≤ d ≤ 31 ∧
  ((mp = 1 ∨ mp = 3 ∨ mp = 6 ∨ mp = 8) → d ≤ 30) ∧ (mp = 11 → d ≤ 29 ∧ (d = 29 → doy = 365)).
Proof. intros H mp d. subst mp d. Z.to_euclidean_division_equations. lia. Qed.

(** Every day has a date that exists, and the date names the day. *)
Lemma civil_valid n y m d :
  civil_of_day n = (y, m, d) →
  1 ≤ m ≤ 12 ∧ 1 ≤ d ≤ days_in m y ∧ day_of_civil y m d = n.
Proof.
  unfold civil_of_day. cbv zeta.
  pose proof (Z.mod_pos_bound (n + 306) 146097 ltac:(lia)) as Hdoe.
  pose proof (Z.div_mod (n + 306) 146097 ltac:(lia)) as Hn.
  set (era := (n + 306) / 146097) in *. set (doe := (n + 306) mod 146097) in *.
  destruct (year_of_era doe Hdoe) as (Hy & Hdoy & Hleap).
  set (yoe := (doe - doe / 1460 + doe / 36524 - doe / 146096) / 365) in *.
  set (doy := doe - (365 * yoe + yoe / 4 - yoe / 100)) in *.
  destruct (month_of_year doy Hdoy) as (Hmp & Hd & H30 & H29).
  set (mp := (5 * doy + 2) / 153) in *. set (d0 := doy - (153 * mp + 2) / 5 + 1) in *.
  intros [= <- <- <-].
  set (m0 := if mp <? 10 then mp + 3 else mp - 9).
  assert (1 ≤ m0 ≤ 12 ∧ ((m0 <=? 2) = negb (mp <? 10)) ∧ (2 <? m0) = (mp <? 10) ∧
          mp = if mp <? 10 then m0 - 3 else m0 + 9) as (Hm & Hle & Hlt & Hback).
  { subst m0. destruct (Z.ltb_spec mp 10); simpl; split_and!; lia. }
  split; [done|]. split.
  - split; [lia|]. unfold days_in.
    destruct (Z.eqb_spec m0 2) as [E|E].
    + assert (mp = 11) as Hmp11 by (subst m0; destruct (Z.ltb_spec mp 10); lia).
      destruct (H29 Hmp11) as [Hd29 Hl].
      destruct (leap _) eqn:El; [done|]. destruct (decide (d0 = 29)) as [E29|]; [|lia].
      exfalso. destruct (Hleap (Hl E29)) as [H4 Hc]. revert El. unfold leap. rewrite Hle, Hmp11.
      change (negb (11 <? 10)) with true. cbv iota.
      replace ((yoe + era * 400 + 1) mod 4) with 0 by (Z.to_euclidean_division_equations; lia).
      destruct (Z.eqb_spec ((yoe + era * 400 + 1) mod 100) 0) as [E1|]; [|done].
      destruct (Z.eqb_spec ((yoe + era * 400 + 1) mod 400) 0) as [|E4]; [done|].
      exfalso. Z.to_euclidean_division_equations. lia.
    + destruct ((m0 =? 4) || (m0 =? 6) || (m0 =? 9) || (m0 =? 11)) eqn:E30; [|lia].
      apply H30. subst m0. destruct (Z.ltb_spec mp 10); lia.
  - unfold day_of_civil. rewrite Hle, Hlt.
    assert ((if negb (mp <? 10) then yoe + era * 400 + (if negb (mp <? 10) then 1 else 0) - 1
             else yoe + era * 400 + (if negb (mp <? 10) then 1 else 0)) = yoe + era * 400) as ->.
    { destruct (mp <? 10); simpl; lia. }
    rewrite <-Hback.
    assert ((yoe + era * 400) / 400 = era) as -> by (Z.to_euclidean_division_equations; lia).
    assert ((yoe + era * 400) mod 400 = yoe) as -> by (Z.to_euclidean_division_equations; lia).
    subst d0 doy. lia.
Qed.

(** ** Digits *)

(** [n] decimal digits of [z]. *)
Fixpoint dec_fixed (n : nat) (z : Z) : list Z :=
  match n with O => [] | S n => dec_fixed n (z / 10) ++ [48 + z mod 10] end.

Lemma dec_fixed_length n z : length (dec_fixed n z) = n.
Proof. revert z. induction n as [|n IH]; intros z; simpl; [done|]. rewrite length_app, IH. simpl. lia. Qed.
Lemma dec_fixed_digits n z : Forall (λ b, is_digit b = true) (dec_fixed n z).
Proof.
  revert z. induction n as [|n IH]; intros z; simpl; [constructor|].
  apply Forall_app_2; [done|]. constructor; [|done]. unfold is_digit, within.
  pose proof (Z.mod_pos_bound z 10). lia.
Qed.

Lemma digits_value_snoc ds d : digits_value (ds ++ [d]) = digits_value ds * 10 + (d - 48).
Proof. unfold digits_value. by rewrite foldl_app. Qed.

Lemma dec_fixed_value n z : 0 ≤ z < 10 ^ Z.of_nat n → digits_value (dec_fixed n z) = z.
Proof.
  revert z. induction n as [|n IH]; intros z Hz.
  - simpl in Hz. unfold digits_value. simpl. lia.
  - rewrite Nat2Z.inj_succ, Z.pow_succ_r in Hz by lia. cbn [dec_fixed].
    pose proof (Z.mod_pos_bound z 10 ltac:(lia)). pose proof (Z.div_mod z 10 ltac:(lia)).
    rewrite digits_value_snoc, IH by lia. lia.
Qed.

(** [parseUint]: digits only, within a range. *)
Definition parse_uint (ds : list Z) (lo hi : Z) : option Z :=
  if forallb is_digit ds && (lo <=? digits_value ds) && (digits_value ds <=? hi)
  then Some (digits_value ds) else None.

Lemma parse_uint_fixed n z lo hi :
  0 ≤ z < 10 ^ Z.of_nat n → lo ≤ z ≤ hi → parse_uint (dec_fixed n z) lo hi = Some z.
Proof.
  intros Hz Hr. unfold parse_uint. rewrite dec_fixed_value by done.
  assert (forallb is_digit (dec_fixed n z) = true) as ->.
  { apply Is_true_true, forallb_True. eapply Forall_impl; [apply dec_fixed_digits|].
    simpl. intros b Hb. by rewrite Hb. }
  rewrite (proj2 (Z.leb_le _ _)), (proj2 (Z.leb_le _ _)) by lia. done.
Qed.

(** ** RFC 3339 *)

Definition day_length : Z := 86400 * Second.

(** The decimals of a second, without trailing zeros. *)
Definition fraction (ns : Z) : list Z :=
  match drop_byte 48 (reverse (dec_fixed 9 ns)) with
  | [] => []
  | ds => 46 :: reverse ds
  end.

(** [2006-01-02T15:04:05.999999999Z], from the seconds of the day and the rest. *)
Definition time_text (y m d s ns : Z) : list Z :=
  dec_fixed 4 y ++ [45] ++ dec_fixed 2 m ++ [45] ++ dec_fixed 2 d ++ [84] ++
  dec_fixed 2 (s / 3600) ++ [58] ++ dec_fixed 2 (s / 60 mod 60) ++ [58] ++
  dec_fixed 2 (s mod 60) ++ fraction ns ++ [90].

(** [t.MarshalJSON()] of an instant in UTC. *)
Definition format_time (t : time) : result (list Z) :=
  let '(y, m, d) := civil_of_day (t / day_length) in
  let s := (t mod day_length) / Second in
  if (y <? 0) || (9999 <? y)
  then Err (ErrorString "Time.MarshalJSON: year outside of range [0,9999]") else
  Ok ([34] ++ time_text y m d s (t mod Second) ++ [34]).

(** The decimals after the point: nine count, more are dropped. *)
Definition nanoseconds (ds : list Z) : Z :=
  let ds := take 9 ds in digits_value ds * 10 ^ (9 - Z.of_nat (length ds)).

Definition parse_fraction (l : list Z) : Z * list Z :=
  match l with
  | 46 :: l' => let '(ds, r) := span_digits l' in
                match ds with [] => (0, l) | _ => (nanoseconds ds, r) end
  | _ => (0, l)
  end.

(** The offset from UTC in seconds. *)
Definition parse_zone (l : list Z) : option Z :=
  match l with
  | [90] => Some 0
  | [sign; h1; h2; colon; m1; m2] =>
      h ← parse_uint [h1; h2] 0 23; m ← parse_uint [m1; m2] 0 59;
      if negb (colon =? 58) then None
      else if sign =? 43 then Some ((h * 60 + m) * 60)
      else if sign =? 45 then Some (- ((h * 60 + m) * 60)) else None
  | _ => None
  end.

Definition parse_rfc3339 (l : list Z) : option time :=
  match l with
  | y1 :: y2 :: y3 :: y4 :: c1 :: m1 :: m2 :: c2 :: d1 :: d2 :: c3 :: h1 :: h2 :: c4 ::
    n1 :: n2 :: c5 :: s1 :: s2 :: rest =>
      year ← parse_uint [y1; y2; y3; y4] 0 9999;
      month ← parse_uint [m1; m2] 1 12;
      day ← parse_uint [d1; d2] 1 (days_in month year);
      hour ← parse_uint [h1; h2] 0 23;
      minute ← parse_uint [n1; n2] 0 59;
      second ← parse_uint [s1; s2] 0 59;
      if (c1 =? 45) && (c2 =? 45) && (c3 =? 84) && (c4 =? 58) && (c5 =? 58) then
        let '(nsec, rest) := parse_fraction rest in
        offset ← parse_zone rest;
        Some (day_of_civil year month day * day_length +
              (hour * 3600 + minute * 60 + second - offset) * Second + nsec)
      else None
  | _ => None
  end.

(** [t.UnmarshalJSON(data)] into [old]. *)
Definition decode_time (j : json) (old : time) : result time :=
  match j with
  | JNull _ => Ok old
  | _ =>
      match json_raw j with
      | 34 :: l => match reverse l with
                   | 34 :: l' => match parse_rfc3339 (reverse l') with
                                 | Some t => Ok t
                                 | None => Err (Foreign "parsing time")
                                 end
                   | _ => Err (ErrorString "Time.UnmarshalJSON: input is not a JSON string")
                   end
      | _ => Err (ErrorString "Time.UnmarshalJSON: input is not a JSON string")
      end
  end.

(** ** What is printed reads back *)

Definition quotable (b : Z) : Prop := 32 ≤ b ∧ b ≠ 34 ∧ b ≠ 92 ∧ b < 256.

Lemma scan_quotable l rest : Forall quotable l → scan_string (l ++ 34 :: rest) = Some (l, rest).
Proof.
  induction 1 as [|b l (H1 & H2 & H3 & _) _ IH]; [done|]. simpl app. rewrite scan_plain by done.
  by rewrite IH.
Qed.

Lemma reads_quoted depth l :
  Forall quotable l → reads depth ([34] ++ l ++ [34]) (λ j, ∃ s, j = JString ([34] ++ l ++ [34]) s).
Proof.
  intros Hl. apply reads_fuel; [done| |].
  - apply Forall_app_2; [by repeat constructor|]. apply Forall_app_2; [|by repeat constructor].
    eapply Forall_impl; [done|]. unfold quotable, is_byte. lia.
  - intros fuel rest _ _. exists (JString ([34] ++ l ++ [34]) (to_valid_utf8 l)). split; [|by eexists].
    rewrite <-(consumed_app ([34] ++ l ++ [34]) rest) at 2. rewrite <-!(assoc_L (++)). simpl app.
    cbn [parse_value skip_space]. change (json_space 34) with false. cbv iota.
    by rewrite scan_quotable.
Qed.

Lemma drop_byte_zeros b l : ∃ k, l = replicate k b ++ drop_byte b l.
Proof.
  induction l as [|a l [k IH]]; [by exists 0%nat|]. simpl.
  destruct (Z.eqb_spec a b) as [->|]; [exists (S k); simpl; by f_equal|by exists 0%nat].
Qed.

Lemma digits_value_zeros l k : digits_value (l ++ replicate k 48) = digits_value l * 10 ^ Z.of_nat k.
Proof.
  induction k as [|k IH]; [rewrite app_nil_r, Z.mul_1_r; done|].
  rewrite replicate_S_end, (assoc_L (++)), digits_value_snoc, IH, Nat2Z.inj_succ, Z.pow_succ_r by lia.
  lia.
Qed.

Lemma fraction_spec ns :
  0 ≤ ns < Second →
  ∃ ds, fraction ns = (match ds with [] => [] | _ => 46 :: ds end) ∧
        Forall (λ b, is_digit b = true) ds ∧ (length ds ≤ 9)%nat ∧
        digits_value ds * 10 ^ (9 - Z.of_nat (length ds)) = ns.
Proof.
  intros Hns. destruct (drop_byte_zeros 48 (reverse (dec_fixed 9 ns))) as [k Hk].
  unfold fraction. set (dr := drop_byte 48 (reverse (dec_fixed 9 ns))) in *.
  assert (dec_fixed 9 ns = reverse dr ++ replicate k 48) as Hd.
  { rewrite <-(reverse_involutive (dec_fixed 9 ns)), Hk, reverse_app. f_equal. apply reverse_replicate. }
  assert (length dr + k = 9)%nat as Hlen.
  { apply (f_equal length) in Hd. rewrite dec_fixed_length, length_app, length_reverse,
      length_replicate in Hd. lia. }
  exists (reverse dr). split_and!.
  - destruct dr as [|d dr]; [done|]. destruct (reverse (d :: dr)) eqn:E; [|done].
    apply (f_equal length) in E. by rewrite length_reverse in E.
  - pose proof (dec_fixed_digits 9 ns) as Hf. rewrite Hd, Forall_app in Hf. tauto.
  - rewrite length_reverse. lia.
  - rewrite length_reverse. replace (9 - Z.of_nat (length dr)) with (Z.of_nat k) by lia.
    rewrite <-digits_value_zeros, <-Hd. apply dec_fixed_value. exact Hns.
Qed.

Lemma parse_fraction_spec ns :
  0 ≤ ns < Second → parse_fraction (fraction ns ++ [90]) = (ns, [90]).
Proof.
  intros Hns. destruct (fraction_spec ns Hns) as (ds & -> & Hf & Hl & Hv).
  destruct ds as [|d ds]; [simpl in Hv; by rewrite <-Hv|].
  cbn [app parse_fraction]. change (d :: ds ++ [90]) with ((d :: ds) ++ [90]).
  rewrite span_digits_app by done. unfold nanoseconds. by rewrite take_ge, Hv by done.
Qed.

Lemma fraction_quotable ns : 0 ≤ ns < Second → Forall quotable (fraction ns).
Proof.
  intros Hns. destruct (fraction_spec ns Hns) as (ds & -> & Hf & _).
  assert (Forall quotable ds) as Hq.
  { eapply Forall_impl; [exact Hf|]. intros b. unfold is_digit, quotable. simpl. unfold within. lia. }
  destruct ds; [done|]. constructor; [done|exact Hq].
Qed.

Lemma dec_fixed_quotable n z : Forall quotable (dec_fixed n z).
Proof.
  eapply Forall_impl; [apply dec_fixed_digits|]. intros b. unfold is_digit, quotable, within. simpl. lia.
Qed.

Lemma parse_time_text y m d s ns :
  0 ≤ y ≤ 9999 → 1 ≤ m ≤ 12 → 1 ≤ d ≤ days_in m y → 0 ≤ s < 86400 → 0 ≤ ns < Second →
  parse_rfc3339 (time_text y m d s ns) = Some (day_of_civil y m d * day_length + s * Second + ns).
Proof.
  intros Hy Hm Hd Hs Hns. unfold time_text. set (tail := fraction ns ++ [90]).
  cbn [dec_fixed app]. cbn [parse_rfc3339].
  change [48 + y / 10 / 10 / 10 mod 10; 48 + y / 10 / 10 mod 10; 48 + y / 10 mod 10; 48 + y mod 10]
    with (dec_fixed 4 y).
  repeat match goal with |- context [ [48 + ?x / 10 mod 10; 48 + ?x mod 10] ] =>
    change [48 + x / 10 mod 10; 48 + x mod 10] with (dec_fixed 2 x) end.
  assert (days_in m y ≤ 31) by (unfold days_in; repeat case_match; lia).
  pose proof (Z.mod_pos_bound s 60 ltac:(lia)). pose proof (Z.mod_pos_bound (s / 60) 60 ltac:(lia)).
  assert (0 ≤ s / 3600 < 24) by (Z.to_euclidean_division_equations; lia).
  rewrite (parse_uint_fixed 4) by (change (10 ^ Z.of_nat 4) with 10000; lia). cbn [mbind option_bind].
  repeat (rewrite (parse_uint_fixed 2) by (change (10 ^ Z.of_nat 2) with 100; lia);
          cbn [mbind option_bind]).
  unfold tail. rewrite parse_fraction_spec by done. cbn. f_equal.
  assert (s / 3600 * 3600 + s / 60 mod 60 * 60 + s mod 60 = s) as Hsum
    by (Z.to_euclidean_division_equations; lia).
  lia.
Qed.

Lemma format_time_reads t p depth :
  format_time t = Ok p → reads depth p (λ j, ∀ old, decode_time j old = Ok t).
Proof.
  unfold format_time. destruct (civil_of_day (t / day_length)) as [[y m] d] eqn:Ec.
  destruct (civil_valid _ _ _ _ Ec) as (Hm & Hd & Hn).
  destruct (Z.ltb_spec y 0) as [|Hy]; [done|]. destruct (Z.ltb_spec 9999 y) as [|Hy']; [done|].
  cbn [orb]. set (s := (t mod day_length) / Second). intros E.
  assert ([34] ++ time_text y m d s (t mod Second) ++ [34] = p) as <- by congruence. clear E.
  pose proof (Z.mod_pos_bound t day_length ltac:(done)) as Hday.
  pose proof (Z.mod_pos_bound t Second ltac:(done)) as Hns.
  assert (0 ≤ s < 86400) as Hs.
  { split; [apply Z.div_pos; [lia|done]|apply Z.div_lt_upper_bound; [done|]].
    change (Second * 86400) with day_length. lia. }
  assert (day_of_civil y m d * day_length + s * Second + t mod Second = t) as Ht.
  { subst s. rewrite Hn.
    assert ((t mod day_length) mod Second = t mod Second) as <-.
    { apply Z.mod_mod_divide. by exists 86400. }
    pose proof (Z.div_mod t day_length ltac:(done)).
    pose proof (Z.div_mod (t mod day_length) Second ltac:(done)). lia. }
  eapply reads_mono, reads_quoted.
  - intros j [txt ->] old. unfold decode_time. cbn [json_raw app].
    rewrite reverse_snoc, reverse_involutive.
    by rewrite parse_time_text, Ht by done.
  - unfold time_text.
    repeat (apply dec_fixed_quotable || (apply fraction_quotable; exact Hns) ||
            apply Forall_app_2 || apply Forall_cons_2 || apply Forall_nil_2);
      unfold quotable; lia.
Qed.
