(* ===== verification/ApiJson.v ===== *)
(** * The JSON of the API

    [ctx.ShouldBindJSON] decodes the body of a request into the structs of [app/service.go] and
    [createTool] by their tags, and [ctx.JSON] prints the structs of [domain/models.go] by theirs.
    [json_gin] is gin's binding in terms of [encoding/json] ([GoJson]): the first value of the body
    is decoded, then the fields tagged [binding:"required"] are looked at.  Responses are modelled
    for executions; the model's lists do not tell a nil slice, which prints as null, from an empty
    one. *)

From S2P Require Import Prelude GoLang GoString Utf8 GoJson JsonFacts GoDate Domain Conc Runtime.
From S2P Require Import Breaker Store Memory MemoryFacts Tool ToolExamples Llm World Queue Service.
From S2P Require Import ServiceFacts StartFacts Auth Http.
Open Scope Z_scope.

(** ** Request bodies *)

(** [Decoder.Decode] reads one value and leaves what follows it.  A literal ends only at the next
    byte, so at the end of what may be read it is not complete. *)
Definition first_value (body : string) (more : bool) : option json :=
  let l := bytes body in
  '(j, rest) ← parse_value (2 * length l + 1) 0 l;
  match j with
  | JArray _ _ | JObject _ _ | JString _ _ => Some j
  | JNull _ | JBool _ _ | JNumber _ => if more && bool_decide (rest = []) then None else Some j
  end.

(** A slice of strings while its elements are decoded: decoding reuses the elements of the array
    behind it, so a null keeps what is there. *)
Record slice := mk_slice { slice_len : nat; behind : list string }.
Definition nil_slice : slice := mk_slice 0 [].
Definition elements (s : slice) : list string := take (slice_len s) (behind s).

Fixpoint decode_elements (items : list json) (i : nat) (array : list string) : result slice :=
  match items with
  | [] => Ok (mk_slice i array)
  | j :: items =>
      v ← decode_string j (default "" (array !! i));
      decode_elements items (S i) (if (i <? length array)%nat then <[i:=v]> array else array ++ [v])
  end.

Definition decode_slice (j : json) (old : slice) : result slice :=
  match j with
  | JArray _ [] | JNull _ => Ok nil_slice
  | JArray _ items => decode_elements items 0 (behind old)
  | _ => Err json_error
  end.

(** The tags of [app.AgentInput] and [app.ExecutionInput]; the tag "-" keeps a field out. *)
Definition decode_agent_input (ms : list (string * json)) : result AgentInput.t :=
  name ← decode_field decode_string "" "name" ms;
  description ← decode_field decode_string "" "description" ms;
  systemPrompt ← decode_field decode_string "" "system_prompt" ms;
  model ← decode_field decode_string "" "model" ms;
  temperature ← decode_field decode_float (S754_zero false) "temperature" ms;
  maxTokens ← decode_field decode_int 0 "max_tokens" ms;
  tools ← decode_field decode_slice nil_slice "tools" ms;
  Ok (AgentInput.mk name description systemPrompt model temperature maxTokens (elements tools)).

Definition decode_execution_input (ms : list (string * json)) : result ExecutionInput.t :=
  input ← decode_field decode_string "" "input" ms;
  conversationID ← decode_field decode_string "" "conversation_id" ms;
  Ok (ExecutionInput.mk input conversationID "" "").

(** The struct of [createTool], whose fields are required: not empty, or not nil. *)
Definition decode_tool_input (ms : list (string * json)) : result MockLookup.t :=
  name ← decode_field decode_string "" "name" ms;
  description ← decode_field decode_string "" "description" ms;
  responses ← decode_field decode_string_map None "responses" ms;
  match responses with
  | Some responses =>
      if decide (name = "" ∨ description = "") then Err (Foreign "validator")
      else Ok (MockLookup.mk name description responses)
  | None => Err (Foreign "validator")
  end.

Definition bind_json {A} (decode : list (string * json) → result A) (body : string) (more : bool)
    : option A :=
  j ← first_value body more;
  match decode_struct j with
  | Ok ms => match decode ms with Ok a => Some a | Err _ => None end
  | Err _ => None
  end.

Definition json_gin (ctx : Context) (upgrade : Request.t → bool → option Z) : Gin := {|
  bind_agent := bind_json decode_agent_input;
  bind_execution := bind_json decode_execution_input;
  bind_tool := bind_json decode_tool_input;
  gin_context := ctx;
  Http.upgrade := upgrade
|}.

(** ** Responses *)

(** The fields of a struct by name; [None] is left out ([omitempty]). *)
Abbreviation entries X := (list (string * option X)).
Definition present {X} (es : entries X) : list (string * X) :=
  omap (λ e : string * option X, pair e.1 <$> e.2) es.

Definition omit_empty (s : string) : option (list Z) :=
  if decide (s = "") then None else Some (print_string s).
Definition print_int (z : Z) : list Z := bytes (Itoa z).
Definition print_time_pointer (t : option time) : result (option (list Z)) :=
  match t with Some t => p ← format_time t; Ok (Some p) | None => Ok None end.

(** The tags of [domain.Execution]. *)
Definition execution_entries (x : Execution.t) (started completed : option (list Z))
    (created : list Z) : entries (list Z) :=
  [("id", Some (print_string (Execution.ID x)));
   ("request_id", Some (print_string (Execution.RequestID x)));
   ("idempotency_key", omit_empty (Execution.IdempotencyKey x));
   ("agent_id", Some (print_string (Execution.AgentID x)));
   ("owner_id", Some (print_string (Execution.OwnerID x)));
   ("conversation_id", omit_empty (Execution.ConversationID x));
   ("input", Some (print_string (Execution.Input x)));
   ("output", omit_empty (Execution.Output x));
   ("status", Some (print_string (status_text (Execution.Status x))));
   ("model", Some (print_string (Execution.Model x)));
   ("prompt_tokens", Some (print_int (Execution.PromptTokens x)));
   ("output_tokens", Some (print_int (Execution.OutputTokens x)));
   ("error", omit_empty (Execution.Error x));
   ("retry_count", Some (print_int (Execution.RetryCount x)));
   ("started_at", started); ("completed_at", completed); ("created_at", Some created)].

(** [json.Marshal(execution)]. *)
Definition encode_execution (x : Execution.t) : result string :=
  started ← print_time_pointer (Execution.StartedAt x);
  completed ← print_time_pointer (Execution.CompletedAt x);
  created ← format_time (Execution.CreatedAt x);
  Ok (of_bytes (print_struct (present (execution_entries x started completed created)))).

(** A status that the program knows. *)
Definition decode_status (j : json) (old : ExecutionStatus) : result ExecutionStatus :=
  s ← decode_string j (status_text old);
  match find (λ st, bool_decide (status_text st = s))
          [ExecutionQueued; ExecutionRunning; ExecutionSucceeded; ExecutionFailed; ExecutionCancelled] with
  | Some st => Ok st
  | None => Err json_error
  end.
Definition decode_time_pointer (j : json) (old : option time) : result (option time) :=
  match j with
  | JNull _ => Ok None
  | _ => t ← decode_time j (default zero_time old); Ok (Some t)
  end.

(** [json.Unmarshal] by the same tags, as a client of the API may use it. *)
Definition decode_execution (text : string) : result Execution.t :=
  ms ← unmarshal_struct text;
  id ← decode_field decode_string "" "id" ms;
  requestID ← decode_field decode_string "" "request_id" ms;
  idempotencyKey ← decode_field decode_string "" "idempotency_key" ms;
  agentID ← decode_field decode_string "" "agent_id" ms;
  ownerID ← decode_field decode_string "" "owner_id" ms;
  conversationID ← decode_field decode_string "" "conversation_id" ms;
  input ← decode_field decode_string "" "input" ms;
  output ← decode_field decode_string "" "output" ms;
  status ← decode_field decode_status ExecutionQueued "status" ms;
  model ← decode_field decode_string "" "model" ms;
  promptTokens ← decode_field decode_int 0 "prompt_tokens" ms;
  outputTokens ← decode_field decode_int 0 "output_tokens" ms;
  error ← decode_field decode_string "" "error" ms;
  retryCount ← decode_field decode_int 0 "retry_count" ms;
  startedAt ← decode_field decode_time_pointer None "started_at" ms;
  completedAt ← decode_field decode_time_pointer None "completed_at" ms;
  createdAt ← decode_field decode_time zero_time "created_at" ms;
  Ok (Execution.mk id requestID idempotencyKey agentID ownerID conversationID input output status
        model promptTokens outputTokens error retryCount startedAt completedAt createdAt).

(** ** What is printed reads back *)

(** What the value of each field satisfies, for the fields that are there. *)
Definition reads_entry (depth : Z) (e : string * option (list Z)) (k : string * option (json → Prop))
    : Prop :=
  k.1 = clean e.1 ∧
  match e.2, k.2 with Some p, Some K => reads depth p K | None, None => True | _, _ => False end.

Lemma reads_present depth es ks :
  Forall2 (reads_entry depth) es ks → Forall2 (reads_field depth) (present es) (present ks).
Proof.
  unfold present. induction 1 as [|[k [p|]] [k' [K|]] es ks [Hk Hr] _ IH]; csimpl; try done.
  by constructor.
Qed.

Lemma field_values_none f Ks ms :
  Forall2 has_field Ks ms → filter (key_matches f) Ks.*1 = [] → field_values f ms = [].
Proof.
  unfold field_values. induction 1 as [|[k K] [k' j] Ks ms [Hk _] _ IH]; [done|]. csimpl in *.
  simpl in Hk. subst k'. rewrite !filter_cons. simpl. case_decide; [done|]. apply IH.
Qed.

Lemma present_keys f (ks : entries (json → Prop)) :
  filter (key_matches f) ks.*1 = [] → filter (key_matches f) (present ks).*1 = [].
Proof.
  unfold present. induction ks as [|[k [K|]] ks IH]; [done|..]; csimpl; rewrite !filter_cons;
    case_decide; done || apply IH.
Qed.

(** Decoding a field: no other key of the struct matches it. *)
Lemma decode_entry {A} (dec : json → A → result A) (zero v : A) f ks oK ms :
  Forall2 has_field (present ks) ms → filter (key_matches f) ks.*1 = [f] → (f, oK) ∈ ks →
  match oK with Some K => ∀ j, K j → dec j zero = Ok v | None => zero = v end →
  decode_field dec zero f ms = Ok v.
Proof.
  intros Hms Hf Hin Hdec. apply list_elem_of_split in Hin as (a & b & ->).
  assert (filter (key_matches f) a.*1 = [] ∧ filter (key_matches f) b.*1 = []) as [Ha Hb].
  { rewrite fmap_app, filter_app in Hf. csimpl in Hf. rewrite filter_cons in Hf.
    rewrite decide_True in Hf by (unfold key_matches; by rewrite bool_decide_true).
    apply (f_equal length) in Hf as Hl. rewrite length_app in Hl. simpl in Hl.
    destruct (filter _ a.*1); [|simpl in Hl; lia]. by destruct (filter _ b.*1). }
  unfold present in Hms. rewrite omap_app in Hms. apply Forall2_app_inv_l in Hms as (m1 & m2 & H1 & H2 & ->).
  unfold decode_field, field_values. rewrite filter_app, fmap_app.
  fold (field_values f m1). rewrite (field_values_none _ _ _ H1) by by apply present_keys.
  destruct oK as [K|]; csimpl in H2.
  - inv H2. match goal with H : has_field _ ?m |- _ => destruct m as [k' j]; destruct H as [Hk HK] end.
    simpl in Hk, HK. subst k'. rewrite filter_cons. simpl.
    rewrite decide_True by (unfold key_matches; by rewrite bool_decide_true). csimpl.
    match goal with H : Forall2 has_field _ ?m |- _ =>
      fold (field_values f m); rewrite (field_values_none _ _ _ H) by by apply present_keys end.
    simpl. by rewrite Hdec.
  - fold (field_values f m2). rewrite (field_values_none _ _ _ H2) by by apply present_keys.
    simpl. by rewrite Hdec.
Qed.

(** *** Executions *)

Definition clean_execution (x : Execution.t) : Execution.t :=
  Execution.mk (clean (Execution.ID x)) (clean (Execution.RequestID x))
    (clean (Execution.IdempotencyKey x)) (clean (Execution.AgentID x)) (clean (Execution.OwnerID x))
    (clean (Execution.ConversationID x)) (clean (Execution.Input x)) (clean (Execution.Output x))
    (Execution.Status x) (clean (Execution.Model x)) (Execution.PromptTokens x)
    (Execution.OutputTokens x) (clean (Execution.Error x)) (Execution.RetryCount x)
    (Execution.StartedAt x) (Execution.CompletedAt x) (Execution.CreatedAt x).

Definition as_text (s : string) : json → Prop := decodes decode_string (clean s).
Definition text_unless_empty (s : string) : option (json → Prop) :=
  if decide (s = "") then None else Some (as_text s).

Definition execution_reads (x : Execution.t) : entries (json → Prop) :=
  [("id", Some (as_text (Execution.ID x))); ("request_id", Some (as_text (Execution.RequestID x)));
   ("idempotency_key", text_unless_empty (Execution.IdempotencyKey x));
   ("agent_id", Some (as_text (Execution.AgentID x)));
   ("owner_id", Some (as_text (Execution.OwnerID x)));
   ("conversation_id", text_unless_empty (Execution.ConversationID x));
   ("input", Some (as_text (Execution.Input x))); ("output", text_unless_empty (Execution.Output x));
   ("status", Some (decodes decode_status (Execution.Status x)));
   ("model", Some (as_text (Execution.Model x)));
   ("prompt_tokens", Some (decodes decode_int (Execution.PromptTokens x)));
   ("output_tokens", Some (decodes decode_int (Execution.OutputTokens x)));
   ("error", text_unless_empty (Execution.Error x));
   ("retry_count", Some (decodes decode_int (Execution.RetryCount x)));
   ("started_at", (λ t, decodes decode_time_pointer (Some t)) <$> Execution.StartedAt x);
   ("completed_at", (λ t, decodes decode_time_pointer (Some t)) <$> Execution.CompletedAt x);
   ("created_at", Some (decodes decode_time (Execution.CreatedAt x)))].

Lemma reads_omitted depth s :
  match omit_empty s, text_unless_empty s with
  | Some p, Some K => reads depth p K
  | None, None => True
  | _, _ => False
  end.
Proof. unfold omit_empty, text_unless_empty. case_decide; [done|apply reads_text]. Qed.

Lemma reads_status depth st :
  reads depth (print_string (status_text st)) (decodes decode_status st).
Proof.
  eapply reads_mono, reads_text. intros j Hj old. unfold decode_status. rewrite Hj.
  by destruct st.
Qed.

Lemma reads_pointer depth t p :
  print_time_pointer t = Ok p →
  match p, (λ t, decodes decode_time_pointer (Some t)) <$> t with
  | Some p, Some K => reads depth p K
  | None, None => True
  | _, _ => False
  end.
Proof.
  destruct t as [t|]; simpl; [|by intros [= <-]].
  destruct (format_time t) as [q|] eqn:E; [|done]. intros [= <-].
  eapply reads_mono, format_time_reads, E. intros j Hj old.
  destruct j as [raw| | | | |]; try (unfold decode_time_pointer; by rewrite Hj).
  specialize (Hj (t + 1)). simpl in Hj. injection Hj. lia.
Qed.

Lemma execution_entries_read x started completed created :
  print_time_pointer (Execution.StartedAt x) = Ok started →
  print_time_pointer (Execution.CompletedAt x) = Ok completed →
  format_time (Execution.CreatedAt x) = Ok created →
  int64 (Execution.PromptTokens x) → int64 (Execution.OutputTokens x) → int64 (Execution.RetryCount x) →
  Forall2 (reads_entry 1) (execution_entries x started completed created) (execution_reads x).
Proof.
  intros Hs Hc Ht Hp Ho Hr. unfold execution_entries, execution_reads.
  repeat (apply Forall2_cons_2; [split; [reflexivity|]; cbn [fst snd]|]); [..|constructor];
    first [apply reads_text | apply reads_omitted | apply reads_status | by apply reads_number |
           by apply reads_pointer | by apply format_time_reads].
Qed.

Lemma decode_omitted s :
  match text_unless_empty s with
  | Some K => ∀ j, K j → decode_string j "" = Ok (clean s)
  | None => "" = clean s
  end.
Proof. unfold text_unless_empty. case_decide as Hs; [by subst|]. intros j Hj. apply Hj. Qed.

Lemma decode_pointer t :
  match (λ t, decodes decode_time_pointer (Some t)) <$> t with
  | Some K => ∀ j, K j → decode_time_pointer j None = Ok t
  | None => None = t
  end.
Proof. destruct t as [t|]; simpl; [|done]. intros j Hj. apply Hj. Qed.

(** Decoding the next field of an execution whose members are [ms]. *)
Ltac decode_next Hms :=
  erewrite (decode_entry _ _ _ _ _ _ _ Hms);
    [|reflexivity|unfold execution_reads; repeat (apply list_elem_of_here || apply list_elem_of_further)
     |first [exact (decode_omitted _) | exact (decode_pointer _) | let Hj := fresh in intros ? Hj; apply Hj]];
  cbn [mbind result_bind].

(** C40: An execution as the API answers it: the JSON that the tags of [domain.Execution] give it reads
    back, by the same tags, as that execution, field by field, also where an empty field is left
    out, with its times to the nanosecond; only what is not valid UTF-8 in its texts has been
    replaced. *)
Theorem execution_json_roundtrip x text :
  encode_execution x = Ok text →
  int64 (Execution.PromptTokens x) → int64 (Execution.OutputTokens x) →
  int64 (Execution.RetryCount x) →
  decode_execution text = Ok (clean_execution x).
Proof.
  unfold encode_execution. intros E Hp Ho Hr.
  destruct (print_time_pointer (Execution.StartedAt x)) as [started|] eqn:Es; [|done].
  destruct (print_time_pointer (Execution.CompletedAt x)) as [completed|] eqn:Ec; [|done].
  destruct (format_time (Execution.CreatedAt x)) as [created|] eqn:Et; [|done].
  cbn [mbind result_bind] in E.
  assert (text = of_bytes (print_struct (present (execution_entries x started completed created))))
    as -> by congruence. clear E.
  pose proof (execution_entries_read x _ _ _ Es Ec Et Hp Ho Hr) as He%reads_present.
  destruct (reads_parse (reads_struct 0 _ _ eq_refl He)) as (j & Hj & raw & ms & -> & Hms).
  unfold decode_execution, unmarshal_struct. rewrite Hj. cbn [decode_struct mbind result_bind].
  do 17 decode_next Hms. reflexivity.
Qed.

(** *** Requests *)

(** The body in which a client that prints its texts asks for an execution. *)
Definition client_body (input : ExecutionInput.t) : string :=
  of_bytes (print_struct [("input", print_string (ExecutionInput.Input input));
                          ("conversation_id", print_string (ExecutionInput.ConversationID input))]).

(** What arrives of it, with what the headers add. *)
Definition received (input : ExecutionInput.t) (key requestID : string) : ExecutionInput.t :=
  ExecutionInput.mk (clean (ExecutionInput.Input input)) (clean (ExecutionInput.ConversationID input))
    key requestID.

Lemma first_value_struct p (K : list (string * json) → Prop) :
  reads 0 p (λ j, ∃ raw ms, j = JObject raw ms ∧ K ms) →
  ∃ raw ms, first_value (of_bytes p) false = Some (JObject raw ms) ∧ K ms.
Proof.
  intros [[_ Hb] H]. unfold first_value. rewrite bytes_of_bytes by done.
  destruct (H (2 * length p + 1)%nat []) as (j & Hj & raw & ms & -> & HK); [lia|done|].
  rewrite app_nil_r in Hj. rewrite Hj. by exists raw, ms.
Qed.

Lemma bind_client_body input :
  bind_json decode_execution_input (client_body input) false = Some (received input "" "").
Proof.
  set (ks := [("input", Some (as_text (ExecutionInput.Input input)));
              ("conversation_id", Some (as_text (ExecutionInput.ConversationID input)))]).
  destruct (first_value_struct (print_struct [("input", print_string (ExecutionInput.Input input));
      ("conversation_id", print_string (ExecutionInput.ConversationID input))])
    (λ ms, Forall2 has_field (present ks) ms)) as (raw & ms & E & Hms).
  { apply reads_struct; [done|]. read_fields; apply reads_text. }
  unfold bind_json, client_body. rewrite E. cbn [mbind option_bind decode_struct].
  unfold decode_execution_input.
  do 2 (erewrite (decode_entry _ _ _ _ ks _ _ Hms);
    [|reflexivity|unfold ks; repeat (apply list_elem_of_here || apply list_elem_of_further)
     |intros j Hj; apply Hj]; cbn [mbind result_bind]).
  done.
Qed.

(** A body within the limit is read in full. *)
Lemma bodyLimit_within limit body : len body ≤ limit → bodyLimit limit body = (body, false).
Proof.
  intros Hl. unfold bodyLimit. rewrite Z.min_r by done. rewrite (proj2 (Z.ltb_ge _ _)) by done.
  f_equal. unfold slice_to, len. rewrite Nat2Z.id, take_ge by done. apply of_bytes_bytes.
Qed.

(** What a handler answers to the outcome of [StartExecution]. *)
Definition replies (out : option Execution.t * bool * option error) (response : Response.t) : Prop :=
  match out with
  | (_, _, Some err) => response = writeError err StatusBadRequest
  | (Some x, replayed, None) =>
      Response.Status response = StatusAccepted ∧ Response.Body response = ExecutionBody x ∧
      Response.Headers response = if replayed : bool then [("Idempotent-Replayed", "true")] else []
  | (None, _, None) => False
  end.

Section wire.
Context `{Env} {DB SK QU : Type} `{StoreLaws DB, QueueLaws QU, Unicode}.
Context (ctx : Context) (up : Request.t → bool → option Z).

End wire.

(** ** Concrete bodies *)

#[local] Existing Instance demo_env.
#[local] Existing Instance demo_unicode.
#[local] Existing Instance MemoryFacts.demo_order.

Definition demo_array (items : list string) : string :=
  of_bytes ([91] ++ join_bytes 44 (bytes <$> items) ++ [93]).

(** A key in another case, a null, a value that follows, and a body that is cut off. *)
Definition shouted : string := demo_object [("INPUT", quoted "hello"); ("conversation_id", "null")].
Example bind_shouted :
  bind_json decode_execution_input (shouted +:+ shouted) true = Some (ExecutionInput.mk "hello" "" "" "") ∧
  bind_json decode_execution_input (slice_to shouted 10) true = None ∧
  bind_json decode_execution_input (demo_object [("input", "1")]) false = None.
Proof. vm_compute. split_and!; reflexivity. Qed.

(** The elements of a repeated field, where a null keeps what an earlier one left. *)
Definition tools_twice : string :=
  demo_object [("name", quoted "assistant"); ("temperature", "0.5"); ("max_tokens", "100");
               ("tools", demo_array [quoted "a"; quoted "b"]); ("tools", demo_array ["null"])].
Example bind_tools_twice :
  bind_json decode_agent_input tools_twice false =
  Some (AgentInput.mk "assistant" "" "" "" (S754_finite false 4503599627370496 (-53)) 100 ["a"]).
Proof. vm_compute. reflexivity. Qed.

(** A field that is required must not be empty, but a map may. *)
Example bind_required :
  bind_json decode_tool_input
    (demo_object [("name", quoted "faq"); ("description", quoted "answers"); ("responses", demo_object [])])
    false = Some (MockLookup.mk "faq" "answers" ∅) ∧
  bind_json decode_tool_input
    (demo_object [("name", quoted "faq"); ("responses", demo_object [])]) false = None.
Proof. vm_compute. split; reflexivity. Qed.

Definition answered_execution : Execution.t :=
  Execution.mk "x" "r" "" "a" "owner" "v" "1 < 2?" "" ExecutionFailed "model" 3 (-4)
    "input invalid" 1 (Some 63000000000000000001) None 62000000000000000000.
Definition answered_text : string :=
  match encode_execution answered_execution with Ok text => text | Err _ => "" end.

Lemma execution_json_roundtrip_witness :
  encode_execution answered_execution = Ok answered_text ∧
  decode_execution answered_text = Ok (clean_execution answered_execution) ∧
  clean_execution answered_execution = answered_execution.
Proof.
  assert (encode_execution answered_execution = Ok answered_text) as E by (vm_compute; reflexivity).
  split; [exact E|]. split; [|vm_compute; reflexivity].
  apply (execution_json_roundtrip _ _ E); vm_compute; split; discriminate.
Defined.

Definition a_client : ExecutionInput.t := ExecutionInput.mk "1 < 2?" "" "" "".
Definition a_post : Request.t :=
  Request.mk (ExecuteAgent "a") "" "dev-key" "key" "" "127.0.0.1" None (client_body a_client) "" "api.example".
Definition the_caller : Principal.t := Principal.mk "owner" "admin".

