(* ===== verification/UnitTests.v ===== *)
(** * The repository's unit tests, on the model

    Each [_test.go] file under src/internal, with the calls and the expectations of its tests,
    evaluated on the definitions of this library: [app/service_test.go],
    [reliability/retry_test.go], [tool/examples_test.go] and [httpapi/server_test.go]. *)

From S2P Require Import Prelude GoLang GoString Conc Runtime Id Domain Breaker Retry Store Memory.
From S2P Require Import MemoryFacts Tool ToolExamples Llm World Queue Service Auth Http ApiJson.
Open Scope Z_scope.

#[local] Existing Instance demo_env.
#[local] Existing Instance demo_unicode.
#[local] Existing Instance MemoryFacts.demo_order.
#[local] Existing Instance Auth.demo_jwt.

Abbreviation TestWorld := (World Memory.t unit Immediate.t).

Definition test_world (size : nat) : TestWorld :=
  mkWorld (mkRuntime 1000000000 0) Memory.NewMemory tt (Immediate.NewImmediate size) (NewCircuitBreaker 5 (30 * Second)) ∅ [].

(** ** [TestStartExecutionIsIdempotent] *)

Definition a_fifth : float64 := S754_finite false 7205759403792794 (-55).

Definition idempotent_requests : prog TestWorld (option (bool * bool * string * string)) :=
  agent ← Service.CreateAgent Background "owner"
            (AgentInput.mk "assistant" "" "" "mock" a_fifth 100 []);
  match agent with
  | Err _ => mret None
  | Ok agent =>
      let input := ExecutionInput.mk "hello" "" "request-1" "" in
      first ← Service.StartExecution Background "owner" (Agent.ID agent) input;
      second ← Service.StartExecution Background "owner" (Agent.ID agent) input;
      mret (match first, second with
            | (Some x, replayed, None), (Some y, replayed', None) =>
                Some (replayed, replayed', Execution.ID x, Execution.ID y)
            | _, _ => None
            end)
  end.

(** The second request is a replay of the first: one execution, one identifier. *)
Example TestStartExecutionIsIdempotent :
  ∃ id w', run idempotent_requests (test_world 10) = Some (Some (false, true, id, id), w') ∧
    length (waiting (w_queue w')) = 1%nat.
Proof. eexists _, _. split; [vm_compute; reflexivity|reflexivity]. Qed.

(** ** [TestRetryEventuallySucceeds], [TestRetryHonorsCancellation] *)

Example TestRetryEventuallySucceeds :
  fst <$> run (Retry Background (RetryPolicy.mk 3 Millisecond Millisecond) (scripted third_time))
            (mkRuntime 0 0, 0) = Some (Ok "ok", 2).
Proof. vm_compute. reflexivity. Qed.

Example TestRetryHonorsCancellation :
  (λ r, match r.1.1 with Err err => Is err Canceled | Ok _ => false end) <$>
    run (Retry (CancelledAt 0) (RetryPolicy.mk 3 Second 0)
           (scripted (λ _, Err (ErrorString "temporary")))) (mkRuntime 0 0, 0) = Some true.
Proof. vm_compute. reflexivity. Qed.

(** ** [TestCalculator] *)

Definition calculation (operation a b : string) : result value :=
  Calculator.Execute demo_here (demo_object [("operation", quoted operation); ("a", a); ("b", b)]).

Example TestCalculator :
  calculation "add" "2" "3" = Ok (VObject [("result", VFloat (S754_finite false 5629499534213120 (-50)))]) ∧
  calculation "multiply" "4" "2.5" =
    Ok (VObject [("result", VFloat (S754_finite false 5629499534213120 (-49)))]) ∧
  is_ok (calculation "divide" "4" "0") = false ∧ is_ok (calculation "power" "2" "3") = false.
Proof. split_and!; vm_compute; reflexivity. Qed.

(** ** [TestHealthHandler], [TestProtectedRouteRequiresAuthentication] *)

#[local] Instance test_gin : Gin :=
  json_gin Background (λ _ allowed, if allowed : bool then None else Some 403).

Definition test_server : Server Memory.t unit Immediate.t := mkServer (test_world 10) new_limiter.
Definition test_auth : Authenticator.t := Authenticator.New "test-secret" "test-key" "test-user".
Definition test_request (e : endpoint) : Request.t :=
  Request.mk e "" "" "" "" "192.0.2.1" None "" "" "example.com".
Definition answer (e : endpoint) : option (Z * payload) :=
  (λ r, (Response.Status r.1, Response.Body r.1)) <$> run (serve test_auth (test_request e)) test_server.

Example TestHealthHandler : answer Healthz = Some (200, StatusBody "ok").
Proof. vm_compute. reflexivity. Qed.

Example TestProtectedRouteRequiresAuthentication :
  answer (GetExecution "missing") = Some (401, ErrorBody "unauthorized").
Proof. vm_compute. reflexivity. Qed.
