(* ===== verification/RedisStream.v ===== *)
(** * [internal/realtime/redis.go]: events over Redis publish/subscribe

    An event travels as JSON text ([event_roundtrip]).  A subscription is a goroutine that
    moves messages from the channel of the Redis library to a channel of 32 events;
    [step] is its transition system, with the library, the subscriber and the callers of
    [unsubscribe] as the other parties.  What the library delivers of what is published is
    its own affair: the theorems start from the messages it delivers. *)

From S2P Require Import Prelude GoLang GoString Utf8 GoJson JsonFacts GoDate Conc Runtime Domain.
From S2P Require Import Breaker Tool Llm World.
Open Scope Z_scope.

(** ** The text of an event *)

(** A Go map with string keys as a list: assigning to a key. *)
Fixpoint map_set (k : string) (v : value) (m : list (string * value)) : list (string * value) :=
  match m with
  | [] => [(k, v)]
  | (k', v') :: m => if decide (k' = k) then (k, v) :: m else (k', v') :: map_set k v m
  end.

(** [json.Unmarshal] into a variable of type [any]. *)
Fixpoint decode_any (j : json) : result value :=
  match j with
  | JNull _ => Ok VNull
  | JBool _ b => Ok (VBool b)
  | JNumber raw => match parse_float raw with Some f => Ok (VFloat f) | None => Err json_error end
  | JString _ s => Ok (VString s)
  | JArray _ items =>
      vs ← (fix go l := match l with
                        | [] => Ok []
                        | j :: l => v ← decode_any j; vs ← go l; Ok (v :: vs)
                        end) items;
      Ok (VArray vs)
  | JObject _ ms =>
      m ← (fix go m l := match l with
                         | [] => Ok m
                         | (k, j) :: l => v ← decode_any j; go (map_set k v m) l
                         end) [] ms;
      Ok (VObject m)
  end.

Fixpoint decode_members (m : list (string * value)) (ms : list (string * json))
    : result (list (string * value)) :=
  match ms with
  | [] => Ok m
  | (k, j) :: ms => v ← decode_any j; decode_members (map_set k v m) ms
  end.

(** [map[string]any]; the empty list is also the nil map. *)
Definition decode_map (j : json) (old : list (string * value)) : result (list (string * value)) :=
  match j with
  | JObject _ ms => decode_members old ms
  | JNull _ => Ok []
  | _ => Err json_error
  end.

(** [json.Marshal(event)]: an empty step and empty data are left out. *)
Definition event_fields (event : Event.t) (data timestamp : list Z) : list (string * list Z) :=
  [("execution_id", print_string (Event.ExecutionID event));
   ("type", print_string (Event.Type_ event))] ++
  (if decide (Event.StepID event = "") then [] else [("step_id", print_string (Event.StepID event))]) ++
  (if decide (Event.Data event = []) then [] else [("data", data)]) ++
  [("timestamp", timestamp)].

Definition encode_event (event : Event.t) : result string :=
  match print_value (VObject (Event.Data event)) with
  | None => Err json_error
  | Some data => timestamp ← format_time (Event.Timestamp event);
                 Ok (of_bytes (print_struct (event_fields event data timestamp)))
  end.

(** [json.Unmarshal([]byte(message.Payload), &event)]. *)
Definition decode_event (payload : string) : result Event.t :=
  ms ← unmarshal_struct payload;
  executionID ← decode_field decode_string "" "execution_id" ms;
  type_ ← decode_field decode_string "" "type" ms;
  stepID ← decode_field decode_string "" "step_id" ms;
  data ← decode_field decode_map [] "data" ms;
  timestamp ← decode_field decode_time zero_time "timestamp" ms;
  Ok (Event.mk executionID type_ stepID data timestamp).

(** The events the engine publishes have texts as data. *)
Definition is_string (kv : string * value) : Prop :=
  valid_utf8 kv.1 = true ∧ ∃ s, kv.2 = VString s ∧ valid_utf8 s = true.

Lemma map_set_new k v m : k ∉ m.*1 → map_set k v m = m ++ [(k, v)].
Proof.
  induction m as [|[k' v'] m IH]; [done|]. csimpl. intros Hk. rewrite decide_False by set_solver.
  f_equal. apply IH. set_solver.
Qed.

Lemma decode_members_strings ms kvs m :
  (λ kj, (kj.1, erase kj.2)) <$> ms = kvs → Forall is_string kvs → NoDup (m ++ kvs).*1 →
  decode_members m ms = Ok (m ++ kvs).
Proof.
  intros <-. revert m. induction ms as [|[k j] ms IH]; intros m Hs Hn; csimpl in *.
  { by rewrite app_nil_r. }
  apply Forall_cons in Hs as [(_ & s & Es & _) Hs]. simpl in Es.
  destruct j as [| | |raw s'| |]; try discriminate Es. simpl in Es. injection Es as ->.
  cbn [decode_any mbind result_bind].
  assert (k ∉ m.*1) as Hk.
  { rewrite fmap_app in Hn. apply NoDup_app in Hn as (_ & Hn & _). intros Hin.
    apply (Hn k Hin). csimpl. apply elem_of_cons. by left. }
  rewrite map_set_new by done. rewrite IH; [by rewrite <-(assoc_L (++))|done|].
  by rewrite <-(assoc_L (++)).
Qed.

Lemma norm_strings data :
  Forall is_string data → norm (VObject data) = VObject (sort_keys data).
Proof.
  intros Hd. cbn [norm]. f_equal.
  assert ((λ kv, (kv.1, norm kv.2)) <$> data = data) as ->.
  { induction Hd as [|[k v] data (_ & s & Hs & Hv) _ IH]; csimpl; [done|]. simpl in Hs.
    rewrite IH. subst v. cbn [norm]. by rewrite clean_valid. }
  assert (Forall is_string (sort_keys data)) as Hs by by rewrite sort_keys_perm.
  induction Hs as [|[k v] l (Hk & _) _ IH]; csimpl; [done|]. simpl in Hk. by rewrite IH, clean_valid.
Qed.

Lemma plain_strings data : Forall is_string data → plain (VObject data) ∧ (nesting (VObject data) ≤ 1)%nat.
Proof.
  induction 1 as [|[k v] data (_ & s & Hs & _) _ [IH1 IH2]]; simpl; [by split; [|lia]|].
  simpl in Hs, IH1, IH2. subst v. simpl. split; [done|lia].
Qed.

Lemma data_reads data depth :
  Forall is_string data → NoDup data.*1 → depth < max_depth →
  ∃ p, print_value (VObject data) = Some p ∧
       reads depth p (λ j, decode_map j [] = Ok (sort_keys data)).
Proof.
  intros Hd Hn Hdepth. destruct (plain_strings data Hd) as [Hp Hl].
  destruct (value_reads (VObject data) depth Hp) as (p & Ep & Hr); [lia|].
  exists p. split; [done|]. eapply reads_mono; [|exact Hr]. intros j Hj.
  rewrite norm_strings in Hj by done. destruct j; try discriminate Hj. simpl in Hj.
  injection Hj as Hms. cbn [decode_map].
  apply (decode_members_strings _ (sort_keys data) []); [done| |]; by rewrite sort_keys_perm.
Qed.

Definition valid_event (event : Event.t) : Prop :=
  valid_utf8 (Event.ExecutionID event) = true ∧ valid_utf8 (Event.Type_ event) = true ∧
  valid_utf8 (Event.StepID event) = true ∧ Forall is_string (Event.Data event) ∧
  NoDup (Event.Data event).*1 ∧ is_ok (format_time (Event.Timestamp event)) = true.

(** The event as a reader sees it: the entries of a map have no order. *)
Definition sorted_event (event : Event.t) : Event.t :=
  Event.mk (Event.ExecutionID event) (Event.Type_ event) (Event.StepID event)
           (sort_keys (Event.Data event)) (Event.Timestamp event).

Lemma encode_decode_event event :
  valid_event event → (payload ← encode_event event; decode_event payload) = Ok (sorted_event event).
Proof.
  intros (Hx & Ht & Hs & Hd & Hn & Hts). unfold encode_event.
  destruct (data_reads (Event.Data event) 1 Hd Hn) as (data & -> & Hdata); [done|].
  destruct (format_time (Event.Timestamp event)) as [ts|e] eqn:Ets; [|done].
  apply (format_time_reads _ _ 1) in Ets as Htime. cbn [mbind result_bind].
  set (is_data j := decode_map j [] = Ok (sort_keys (Event.Data event))).
  set (is_time j := ∀ old, decode_time j old = Ok (Event.Timestamp event)).
  pose proof (reads_struct 0 (event_fields event data ts)
    ([("execution_id", is_text (Event.ExecutionID event)); ("type", is_text (Event.Type_ event))] ++
     (if decide (Event.StepID event = "") then [] else [("step_id", is_text (Event.StepID event))]) ++
     (if decide (Event.Data event = []) then [] else [("data", is_data)]) ++
     [("timestamp", is_time)]) eq_refl) as Hr.
  destruct (reads_parse (Hr ltac:(unfold event_fields; repeat case_decide; cbn [app]; read_fields;
    (apply reads_string || done)))) as (j & Hj & raw & ms & -> & Hms).
  unfold decode_event, unmarshal_struct. rewrite Hj. cbn [decode_struct mbind result_bind].
  unfold sorted_event. clear Hr Hj Hts.
  destruct event as [x t st dt tm]. simpl in *.
  repeat case_decide; subst; cbn [app] in Hms; split_fields;
    unfold decode_field, field_values; simpl;
    repeat match goal with
    | H : is_data _ |- _ => rewrite H; clear H
    | H : is_time _ |- _ => rewrite H; clear H
    end; simpl; rewrite ?clean_valid by done; done.
Qed.

(** ** Publishing *)

(** [PUBLISH channel payload] of the Redis client. *)
Class PubSubOps (RC : Type) := { PublishCmd : Call → string → string → RC → option error * RC }.

Module RedisBroker.
Record t (RC : Type) := mk { client : RC; prefix : string }.
Arguments mk {RC}.
Arguments client {RC}.
Arguments prefix {RC}.

Definition NewRedisBroker {RC} (client : RC) (prefix : string) : t RC := mk client prefix.

Definition Publish {RC} `{PubSubOps RC} (c : Call) (event : Event.t) (b : t RC)
    : option error * t RC :=
  match encode_event event with
  | Err err => (Some err, b)
  | Ok payload =>
      let '(err, client) := PublishCmd c (prefix b +:+ Event.ExecutionID event) payload (client b) in
      (err, mk client (prefix b))
  end.

#[export] Instance ops {RC} `{PubSubOps RC} : SinkOps (t RC) := {| World.Publish := Publish |}.
End RedisBroker.

(** ** A subscription *)

Module Subscription.

(** Where the goroutine is: in the outer [select], in the inner one with an event to
    send, in the deferred calls, or done. *)
Inductive place : Set := Waiting | Sending (event : Event.t) | Leaving | Done.

Record t := mk {
  inbox : list string;         (* payloads the library has put in its channel *)
  inbox_closed : bool;
  at_ : place;
  events : list Event.t;       (* the channel of events, [capacity] at most *)
  events_closed : bool;
  cancelled : bool;            (* the context *)
  once : bool                  (* sync.Once *)
}.

Definition capacity : nat := 32.

(** [Subscribe], as its goroutine starts. *)
Definition Subscribe : t := mk [] false Waiting [] false false false.

(** [unsubscribe()]: the context is cancelled and the library's subscription closed, once. *)
Definition unsubscribe (s : t) : t :=
  if once s then s else mk (inbox s) (inbox_closed s) (at_ s) (events s) (events_closed s) true true.

(** The message at the head of the library's channel. *)
Definition take_message (s : t) : option t :=
  match at_ s, inbox s with
  | Waiting, payload :: rest =>
      Some (mk rest (inbox_closed s)
               (match decode_event payload with Ok event => Sending event | Err _ => Waiting end)
               (events s) (events_closed s) (cancelled s) (once s))
  | _, _ => None
  end.

(** Its channel is closed and empty. *)
Definition message_end (s : t) : option t :=
  match at_ s, inbox s, inbox_closed s with
  | Waiting, [], true =>
      Some (mk [] true Leaving (events s) (events_closed s) (cancelled s) (once s))
  | _, _, _ => None
  end.

(** [events <- event]; [None] in front of a full channel, a closed one would panic. *)
Definition send (s : t) : option t :=
  match at_ s with
  | Sending event =>
      if (length (events s) <? capacity)%nat && negb (events_closed s)
      then Some (mk (inbox s) (inbox_closed s) Waiting (events s ++ [event]) (events_closed s)
                    (cancelled s) (once s))
      else None
  | _ => None
  end.

(** [<-ctx.Done()] in either [select]. *)
Definition context_done (s : t) : option t :=
  if cancelled s then
    match at_ s with
    | Waiting | Sending _ =>
        Some (mk (inbox s) (inbox_closed s) Leaving (events s) (events_closed s) true (once s))
    | _ => None
    end
  else None.

(** The deferred calls: [unsubscribe], then [close(events)]. *)
Definition leave (s : t) : option t :=
  match at_ s with
  | Leaving =>
      let s := unsubscribe s in
      Some (mk (inbox s) (inbox_closed s) Done (events s) true (cancelled s) (once s))
  | _ => None
  end.

(** What the goroutine can do next. *)
Inductive forwards : t → t → Prop :=
| forwards_message s s' : take_message s = Some s' → forwards s s'
| forwards_end s s' : message_end s = Some s' → forwards s s'
| forwards_send s s' : send s = Some s' → forwards s s'
| forwards_done s s' : context_done s = Some s' → forwards s s'
| forwards_leave s s' : leave s = Some s' → forwards s s'.

(** What the others do; the library delivers until its subscription is closed. *)
Inductive note : Set := Delivered (payload : string) | Got (event : Event.t) | GotEnd | Stopped.

Definition deliver (payload : string) (s : t) : option t :=
  if inbox_closed s || once s then None
  else Some (mk (inbox s ++ [payload]) (inbox_closed s) (at_ s) (events s) (events_closed s)
                (cancelled s) (once s)).
Definition close_inbox (s : t) : t :=
  mk (inbox s) true (at_ s) (events s) (events_closed s) (cancelled s) (once s).
(** [event, ok := <-events] of the subscriber. *)
Definition receive (s : t) : option (option Event.t * t) :=
  match events s with
  | event :: rest =>
      Some (Some event, mk (inbox s) (inbox_closed s) (at_ s) rest (events_closed s) (cancelled s) (once s))
  | [] => if events_closed s then Some (None, s) else None
  end.

Inductive disturbs : t → list note → t → Prop :=
| disturbs_deliver s s' p : deliver p s = Some s' → disturbs s [Delivered p] s'
| disturbs_close s : disturbs s [] (close_inbox s)
| disturbs_unsubscribe s : disturbs s [Stopped] (unsubscribe s)
| disturbs_receive s s' e : receive s = Some (Some e, s') → disturbs s [Got e] s'
| disturbs_receive_end s s' : receive s = Some (None, s') → disturbs s [GotEnd] s'.

Inductive step : t → list note → t → Prop :=
| step_own s s' : forwards s s' → step s [] s'
| step_other s n s' : disturbs s n s' → step s n s'.

Inductive reach : list note → t → Prop :=
| reach_start : reach [] Subscribe
| reach_step l s n s' : reach l s → step s n s' → reach (l ++ n) s'.

Definition delivered (l : list note) : list string :=
  omap (λ n, match n with Delivered p => Some p | _ => None end) l.
Definition got (l : list note) : list Event.t :=
  omap (λ n, match n with Got e => Some e | _ => None end) l.
(** The events among the payloads; what is not an event is skipped. *)
Definition event_in (p : string) : option Event.t :=
  match decode_event p with Ok e => Some e | Err _ => None end.
Definition decoded (l : list string) : list Event.t := omap event_in l.

Definition held (s : t) : list Event.t := match at_ s with Sending e => [e] | _ => [] end.
Definition active (s : t) : bool := match at_ s with Waiting | Sending _ => true | _ => false end.
#[global] Arguments decoded : simpl never.
End Subscription.

(** ** Properties *)

(** An event that is published arrives unchanged, up to the order of its data, when its texts are
    valid UTF-8 and its year has four digits; every event of the engine is of this kind as far
    as the texts it is built from are. *)
Theorem event_roundtrip event :
  valid_event event → (payload ← encode_event event; decode_event payload) = Ok (sorted_event event).
Proof. apply encode_decode_event. Qed.

Import Subscription.

(** What holds in every state: [l] is what happened so far. *)
Record valid (l : list note) (s : Subscription.t) : Prop := {
  valid_closed : events_closed s = true → at_ s = Done;
  valid_done : at_ s = Done → events_closed s = true ∧ once s = true;
  valid_cancelled : once s = true → cancelled s = true;
  valid_capacity : (length (events s) ≤ capacity)%nat;
  valid_active : active s = true →
    got l ++ events s ++ held s ++ decoded (inbox s) = decoded (delivered l);
  valid_prefix : got l ++ events s `prefix_of` decoded (delivered l)
}.

Lemma decoded_cons p rest :
  decoded (p :: rest) = (match decode_event p with Ok e => [e] | Err _ => [] end) ++ decoded rest.
Proof. unfold decoded. simpl. unfold event_in at 1. by destruct (decode_event p). Qed.

Lemma active_prefix (a b c d e : list Event.t) : a ++ b ++ c ++ d = e → a ++ b `prefix_of` e.
Proof. intros <-. exists (c ++ d). by rewrite <-!(assoc_L (++)). Qed.

Lemma valid_forwards l s s' : valid l s → forwards s s' → valid l s'.
Proof.
  intros [Hc Hd Hx Hcap Ha Hp]. destruct 1 as [s s' E|s s' E|s s' E|s s' E|s s' E].
  - unfold take_message in E. destruct (at_ s) eqn:Ea, (inbox s) as [|p rest] eqn:Ei; simplify_eq/=.
    unfold active, held in Ha. rewrite Ea, decoded_cons in Ha. specialize (Ha eq_refl).
    split; simpl; try done.
    + intros H. apply Hc in H. congruence.
    + by destruct (decode_event p).
    + unfold held. simpl. rewrite <-Ha. by destruct (decode_event p).
  - unfold message_end in E. destruct (at_ s) eqn:Ea, (inbox s), (inbox_closed s); simplify_eq/=.
    split; simpl; try done. intros H. apply Hc in H. congruence.
  - unfold send in E. destruct (at_ s) as [|e| |] eqn:Ea; simplify_eq/=.
    destruct (Nat.ltb_spec (length (events s)) capacity), (events_closed s) eqn:Ec; simplify_eq/=.
    unfold active, held in Ha. rewrite Ea in Ha. specialize (Ha eq_refl).
    assert (got l ++ (events s ++ [e]) ++ held (mk (inbox s) (inbox_closed s) Waiting (events s ++ [e])
              false (cancelled s) (once s)) ++ decoded (inbox s) = decoded (delivered l)) as Hn.
    { rewrite <-Ha. unfold held. simpl. by rewrite <-!(assoc_L (++)). }
    split; simpl; try done.
    + rewrite length_app. simpl. lia.
    + by eapply active_prefix.
  - unfold context_done in E. destruct (cancelled s) eqn:Ec, (at_ s) eqn:Ea; simplify_eq/=;
      (split; simpl; try done; intros H; apply Hc in H; congruence).
  - unfold leave, unsubscribe in E. destruct (at_ s) eqn:Ea; simplify_eq/=.
    destruct (once s) eqn:Eo; split; simpl; try done. intros _. by apply Hx.
Qed.

Lemma notes_got l l' : got (l ++ l') = got l ++ got l'.
Proof. apply omap_app. Qed.
Lemma notes_delivered l l' : delivered (l ++ l') = delivered l ++ delivered l'.
Proof. apply omap_app. Qed.
Lemma decoded_app l l' : decoded (l ++ l') = decoded l ++ decoded l'.
Proof. apply omap_app. Qed.

(** A note that neither delivers nor receives. *)
Lemma valid_quiet l n s : got n = [] → delivered n = [] → valid l s → valid (l ++ n) s.
Proof.
  intros Hg Hd [H1 H2 H3 H4 H5 H6].
  split; rewrite ?notes_got, ?notes_delivered, ?Hg, ?Hd, ?app_nil_r; done.
Qed.

Lemma valid_disturbs l s n s' : valid l s → disturbs s n s' → valid (l ++ n) s'.
Proof.
  intros Hv. destruct 1 as [s s' p E|s|s|s s' e E|s s' E].
  - unfold deliver in E. destruct (inbox_closed s || once s); simplify_eq.
    destruct Hv as [Hc Hd Hx Hcap Ha Hp].
    split; rewrite ?notes_got, ?notes_delivered, ?decoded_app; simpl; rewrite ?app_nil_r; try done.
    + intros H. unfold active, held in *. simpl in *. rewrite <-(Ha H), decoded_app.
      by rewrite <-!(assoc_L (++)).
    + by apply prefix_app_r.
  - apply valid_quiet; [done..|]. by destruct Hv.
  - apply valid_quiet; [done..|]. destruct Hv as [Hc Hd Hx Hcap Ha Hp]. unfold unsubscribe.
    destruct (once s) eqn:Eo; split; simpl; rewrite ?Eo; try done; intros H; by destruct (Hd H).
  - unfold receive in E. destruct (events s) as [|e' rest] eqn:Ee; [by destruct (events_closed s)|].
    simplify_eq. destruct Hv as [Hc Hd Hx Hcap Ha Hp]. rewrite Ee in *.
    split; rewrite ?notes_got, ?notes_delivered; simpl in *; rewrite ?app_nil_r, <-?(assoc_L (++)); try done.
    lia.
  - unfold receive in E. destruct (events s) as [|e' rest]; [|done].
    destruct (events_closed s); simplify_eq. by apply valid_quiet.
Qed.

Lemma reach_valid l s : reach l s → valid l s.
Proof.
  induction 1 as [|l s n s' _ IH Hs].
  - split; simpl; try done. lia.
  - destruct Hs as [s s' Hf|s n s' Hd]; [rewrite app_nil_r; by eapply valid_forwards|].
    by eapply valid_disturbs.
Qed.

(** What a subscriber of the Redis stream sees: under every interleaving, the events it
    has received and those that wait for it are, each once and in order, a front part of
    the events among the delivered messages, and all of them while the subscription lasts and
    nothing is on its way; at most 32 wait; the goroutine never sends on a closed channel; the
    channel is closed only after the subscription, and calling [unsubscribe] again
    changes nothing. *)
Theorem stream_delivery l s :
  reach l s →
  got l ++ events s `prefix_of` decoded (delivered l) ∧
  (at_ s = Waiting → inbox s = [] → got l ++ events s = decoded (delivered l)) ∧
  (length (events s) ≤ 32)%nat ∧
  (∀ e, at_ s = Sending e → events_closed s = false) ∧
  (events_closed s = true → cancelled s = true) ∧
  unsubscribe (unsubscribe s) = unsubscribe s.
Proof.
  intros [Hc Hd Hx Hcap Ha Hp]%reach_valid. split_and!; try done.
  - intros Hw Hi. unfold active, held in Ha. rewrite Hw, Hi in Ha. specialize (Ha eq_refl).
    unfold decoded at 1 in Ha. simpl in Ha. by rewrite app_nil_r in Ha.
  - intros e He. destruct (events_closed s); [|done]. rewrite Hc in He; done.
  - intros H. apply Hc in H. apply Hd in H as [_ H]. by apply Hx.
  - unfold unsubscribe. by destruct (once s) eqn:Eo; rewrite ?Eo.
Qed.

(** How many steps the goroutine can still make without new messages. *)
Definition work (s : Subscription.t) : nat :=
  match at_ s with
  | Waiting => 2 * length (inbox s) + 2
  | Sending _ => 2 * length (inbox s) + 3
  | Leaving => 1
  | Done => 0
  end.

Lemma forwards_work s s' : forwards s s' → (work s' < work s)%nat.
Proof.
  unfold work. destruct 1 as [s s' E|s s' E|s s' E|s s' E|s s' E].
  - unfold take_message in E. destruct (at_ s), (inbox s) as [|p rest]; simplify_eq/=.
    destruct (decode_event p); lia.
  - unfold message_end in E. destruct (at_ s), (inbox s), (inbox_closed s); simplify_eq/=. lia.
  - unfold send in E. destruct (at_ s); simplify_eq/=. case_match; simplify_eq/=. lia.
  - unfold context_done in E. destruct (cancelled s), (at_ s); simplify_eq/=; lia.
  - unfold leave in E. destruct (at_ s); simplify_eq/=. lia.
Qed.

(** The number of its own steps in a run of the whole system. *)
Inductive runs : nat → Subscription.t → Subscription.t → Prop :=
| runs_nil s : runs 0 s s
| runs_own n s s1 s2 : forwards s s1 → runs n s1 s2 → runs (S n) s s2
| runs_other n s k s1 s2 : disturbs s k s1 → runs n s1 s2 → runs n s s2.

Lemma disturbs_work s n s' : once s = true → disturbs s n s' → once s' = true ∧ work s' = work s.
Proof.
  intros Ho. destruct 1 as [s s' p E|s|s|s s' e E|s s' E].
  - unfold deliver in E. by rewrite Ho, orb_true_r in E.
  - done.
  - unfold unsubscribe. by rewrite Ho.
  - unfold receive in E. destruct (events s); [by destruct (events_closed s)|]. by simplify_eq/=.
  - unfold receive in E. destruct (events s); [|done]. destruct (events_closed s); by simplify_eq/=.
Qed.

Lemma forwards_once s s' : once s = true → forwards s s' → once s' = true.
Proof.
  intros Ho. destruct 1 as [s s' E|s s' E|s s' E|s s' E|s s' E].
  - unfold take_message in E. by destruct (at_ s), (inbox s); simplify_eq/=.
  - unfold message_end in E. by destruct (at_ s), (inbox s), (inbox_closed s); simplify_eq/=.
  - unfold send in E. destruct (at_ s); simplify_eq/=. by case_match; simplify_eq/=.
  - unfold context_done in E. by destruct (cancelled s), (at_ s); simplify_eq/=.
  - unfold leave, unsubscribe in E. destruct (at_ s); simplify_eq/=. by rewrite Ho.
Qed.

Lemma runs_work n s s' : once s = true → runs n s s' → once s' = true ∧ (n + work s' ≤ work s)%nat.
Proof.
  intros Ho. induction 1 as [s|n s s1 s2 Hf _ IH|n s k s1 s2 Hd _ IH].
  - split; [done|lia].
  - apply forwards_work in Hf as Hw. apply forwards_once in Hf; [|done].
    destruct (IH Hf). split; [done|lia].
  - apply disturbs_work in Hd as [Ho' Hw]; [|done]. destruct (IH Ho'). split; [done|lia].
Qed.

Lemma runs_valid l n s s' : valid l s → runs n s s' → ∃ l', valid l' s'.
Proof.
  intros Hv Hr. revert l Hv. induction Hr as [s|n s s1 s2 Hf _ IH|n s k s1 s2 Hd _ IH]; intros l Hv.
  - by exists l.
  - eapply IH, valid_forwards; done.
  - eapply IH, valid_disturbs; done.
Qed.

(** The forwarding goroutine ends: once the subscriber has unsubscribed, it makes at most
    two steps per message it has not read and three more, whatever the others do meanwhile, and until it
    is done it can always make one, full channel or not; when it is done the channel of events is
    closed. *)
Theorem stream_terminates l s n s' :
  reach l s → once s = true → runs n s s' →
  (n ≤ 2 * length (inbox s) + 3)%nat ∧
  (at_ s' = Done → events_closed s' = true) ∧
  (at_ s' ≠ Done ↔ ∃ s'', forwards s' s'').
Proof.
  intros Hr Ho Hn. apply reach_valid in Hr. destruct (runs_work _ _ _ Ho Hn) as [Ho' Hw].
  destruct (runs_valid _ _ _ _ Hr Hn) as (l' & [Hc Hd Hx _ _ _]).
  split; [|split; [|split]].
  - unfold work in Hw. destruct (at_ s); lia.
  - intros H. by apply Hd.
  - intros H. destruct (at_ s') eqn:Ea; [| | |done].
    1, 2: eexists; apply forwards_done; unfold context_done; by rewrite Hx, Ea.
    eexists. apply forwards_leave. unfold leave. by rewrite Ea.
  - intros [s'' Hf] Ea. apply forwards_work in Hf. unfold work in Hf. rewrite Ea in Hf. lia.
Qed.

Definition demo_event : Event.t :=
  Event.mk "x" "agent.completed" "" [("output", VString "done")] 63000000000000000000.
Definition demo_payload : string :=
  match encode_event demo_event with Ok p => p | Err _ => "" end.

Lemma demo_event_valid : valid_event demo_event.
Proof.
  unfold valid_event. split_and!; try (vm_compute; reflexivity).
  - constructor; [|constructor]. split; [reflexivity|]. by exists "done".
  - apply NoDup_singleton.
Qed.

Lemma event_roundtrip_witness :
  valid_event demo_event ∧
  (payload ← encode_event demo_event; decode_event payload) = Ok demo_event.
Proof. split; [exact demo_event_valid|]. exact (event_roundtrip demo_event demo_event_valid). Defined.

Definition demo_notes : list note :=
  [Delivered demo_payload; Delivered "nonsense"; Got demo_event; Stopped].
Definition demo_state : Subscription.t := mk ["nonsense"] false Waiting [] false true true.

Lemma demo_reach : reach demo_notes demo_state.
Proof.
  eapply (reach_step [Delivered demo_payload; Delivered "nonsense"; Got demo_event]
            (mk ["nonsense"] false Waiting [] false false false) [Stopped]);
    [|apply step_other, (disturbs_unsubscribe (mk ["nonsense"] false Waiting [] false false false))].
  eapply (reach_step [Delivered demo_payload; Delivered "nonsense"]
            (mk ["nonsense"] false Waiting [demo_event] false false false) [Got demo_event]);
    [|apply step_other, disturbs_receive; reflexivity].
  eapply (reach_step [Delivered demo_payload; Delivered "nonsense"]
            (mk ["nonsense"] false (Sending demo_event) [] false false false) []);
    [|apply step_own, forwards_send; reflexivity].
  eapply (reach_step [Delivered demo_payload; Delivered "nonsense"]
            (mk [demo_payload; "nonsense"] false Waiting [] false false false) []);
    [|apply step_own, forwards_message; vm_compute; reflexivity].
  eapply (reach_step [Delivered demo_payload] (mk [demo_payload] false Waiting [] false false false)
            [Delivered "nonsense"]);
    [|apply step_other, disturbs_deliver; reflexivity].
  eapply (reach_step [] Subscribe [Delivered demo_payload]);
    [apply reach_start|apply step_other, disturbs_deliver; reflexivity].
Qed.

Lemma stream_delivery_witness :
  reach demo_notes demo_state ∧ got demo_notes = [demo_event] ∧
  got demo_notes ++ events demo_state `prefix_of` decoded (delivered demo_notes).
Proof.
  split; [exact demo_reach|]. split; [reflexivity|].
  exact (proj1 (stream_delivery demo_notes demo_state demo_reach)).
Defined.

Lemma stream_terminates_witness :
  ∃ s', runs 2 demo_state s' ∧ at_ s' = Done ∧ (2 ≤ 2 * length (inbox demo_state) + 3)%nat ∧
  (at_ s' = Done → events_closed s' = true) ∧ (at_ s' ≠ Done ↔ ∃ s'', forwards s' s'').
Proof.
  assert (runs 2 demo_state (mk ["nonsense"] false Done [] true true true)) as Hn.
  { eapply (runs_own 1 _ (mk ["nonsense"] false Leaving [] false true true));
      [apply forwards_done; reflexivity|].
    eapply (runs_own 0); [apply forwards_leave; reflexivity|constructor]. }
  eexists. split; [exact Hn|]. split; [reflexivity|].
  exact (stream_terminates demo_notes demo_state 2 _ demo_reach eq_refl Hn).
Defined.
