(* ===== verification/StreamFacts.v ===== *)
(** * Two event streams, one contract

    The broker of the process and the subscription to Redis keep the laws of [Stream], so the
    loop of [streamExecution] works over either; and what this means for a websocket that
    follows an execution over Redis, from the published event to the connection. *)

From S2P Require Import Prelude GoLang Domain World Stream Broker RedisStream.
Open Scope Z_scope.
#[local] Open Scope nat_scope.

(** ** The broker of the process *)

(** A subscriber of the broker: what has happened, the broker, the execution and the channel. *)
Module Local.
Record t := mk { history : list note; broker : Broker.Broker.t; execution : string; channel : nat }.

(** The note is of this subscriber. *)
Definition mine (c : nat) (n : note) : Prop :=
  match n with Received d _ | Unsubscribed _ d => d = c | _ => False end.

#[global] Instance ops : StreamOps t := {
  Receive s :=
    '(event, b) ← Broker.Broker.receive (channel s) (broker s);
    Some (event, mk (history s ++ [Received (channel s) event]) b (execution s) (channel s));
  Unsubscribe s :=
    b ← Broker.Broker.unsubscribe (execution s) (channel s) (broker s);
    Some (mk (history s ++ [Unsubscribed (execution s) (channel s)]) b (execution s) (channel s));
  unlocked s := bool_decide (Broker.Broker.publishing (broker s) = []);
  (* any continuation of the run in which this subscriber does nothing *)
  meanwhile s s' :=
    (∃ n, history s' = history s ++ n ∧ Forall (λ x, ¬ mine (channel s) x) n) ∧
    run (history s') (broker s') ∧ execution s' = execution s ∧ channel s' = channel s
}.

Definition buffered (c : nat) (b : Broker.Broker.t) : list Event.t :=
  from_option Channel.buffer [] (Broker.Broker.channels b !! c).

#[global] Instance view : StreamView t := {
  live s := run (history s) (broker s) ∧ Subscribed (execution s) (channel s) ∈ history s ∧
            Unsubscribed (execution s) (channel s) ∉ history s;
  carried s := taken (channel s) (history s);
  waiting s := buffered (channel s) (broker s)
}.

(** The subscription of a new subscriber. *)
Definition Subscribe (executionID : string) (l : list note) (b : Broker.Broker.t) : t :=
  let '(c, b) := Broker.Broker.Subscribe executionID b in
  mk (l ++ [Subscribed executionID c]) b executionID c.

Lemma buffered_taken l b c : run l b → taken c l = received c l ++ buffered c b.
Proof.
  intros Hr%run_wf. unfold buffered. destruct (Broker.Broker.channels b !! c) as [ch|] eqn:Hc; simpl.
  - by apply (wf_buffer _ _ Hr).
  - by destruct (wf_unknown _ _ Hr c Hc) as [-> ->].
Qed.

Lemma others_received c n : Forall (λ x, ¬ mine c x) n → received c n = [].
Proof.
  induction 1 as [|x n Hx _ IH]; [done|]. change (received c ([x] ++ n) = []).
  rewrite received_app, IH, app_nil_r. destruct x as [| | | | |d [e|]]; try done.
  simpl in *. by rewrite decide_False.
Qed.

Lemma live_channel s : live s → ∃ ch,
  Broker.Broker.channels (broker s) !! channel s = Some ch ∧ Channel.closed ch = false.
Proof.
  intros (Hr%run_wf & Hs & Hu). destruct (wf_exists _ _ Hr _ _ Hs) as (ch & Hch & Hcl).
  exists ch. split; [done|]. by rewrite bool_decide_eq_false_2 in Hcl.
Qed.

Lemma receive_buffered s e b :
  live s → Broker.Broker.receive (channel s) (broker s) = Some (e, b) →
  ∃ event, e = Some event ∧ buffered (channel s) (broker s) = event :: buffered (channel s) b.
Proof.
  intros (ch & Hch & Hcl)%live_channel. unfold Broker.Broker.receive, buffered. rewrite Hch. simpl.
  unfold Channel.receive. destruct (Channel.buffer ch) as [|event rest]; simpl; [by rewrite Hcl|].
  intros [= <- <-]. exists event. simpl. by rewrite lookup_insert_eq.
Qed.

#[global] Instance laws : StreamLaws t.
Proof.
  split; simpl.
  - intros s s' (Hr & Hs & Hu) ((n & Hn & Hm) & Hr' & He & Hc). rewrite Hn, He, Hc in *. split.
    + split; [done|]. split; [apply elem_of_app; by left|].
      intros [?|Hin]%elem_of_app; [done|]. rewrite Forall_forall in Hm. by apply (Hm _ Hin).
    + exists (taken (channel s) n). rewrite taken_app. split; [done|].
      apply (app_inv_head (received (channel s) (history s))).
      rewrite (assoc_L (++)), <-(buffered_taken _ _ _ Hr), <-taken_app.
      assert (received (channel s) (history s) = received (channel s) (history s ++ n)) as ->.
      { by rewrite received_app, (others_received _ _ Hm), app_nil_r. }
      by rewrite <-(buffered_taken _ _ _ Hr').
  - intros s s' e Hl E. destruct (Broker.Broker.receive _ _) as [[event b]|] eqn:Hb; [|done].
    destruct (receive_buffered _ _ _ Hl Hb) as (event' & -> & Hw). destruct Hl as (Hr & Hs & Hu).
    simplify_eq/=. rewrite !elem_snoc, taken_app, app_nil_r. split_and!; try done; [|by left|naive_solver].
    by econstructor.
  - intros s s' Hl E. destruct (Broker.Broker.receive _ _) as [[event b]|] eqn:Hb; [|done].
    by destruct (receive_buffered _ _ _ Hl Hb) as (event' & -> & _).
  - intros s Hl Hw. destruct (live_channel s Hl) as (ch & Hch & Hcl). revert Hw.
    unfold Broker.Broker.receive, buffered. rewrite Hch. simpl. unfold Channel.receive.
    destruct (Channel.buffer ch) as [|event rest]; [done|]. intros _. by eexists _, _.
  - intros s (Hr & Hs & Hu) Hp%bool_decide_eq_true.
    destruct (leave_open _ _ _ _ (run_wf _ _ Hr) Hs Hu) as [b ->]. by eexists.
  - intros s s' (Hr & Hs & Hu).
    destruct (unsubscribe_member _ _ _ _ (run_wf _ _ Hr) Hs Hu) as (? & ch & _ & _ & Hch & _ & ->).
    intros [= <-]. simpl. rewrite taken_app, app_nil_r. split; [done|].
    unfold buffered. simpl. by rewrite lookup_insert_eq, Hch.
  - intros s Hl. destruct (live_channel s Hl) as (ch & Hch & _). destruct Hl as (Hr%run_wf & _).
    unfold buffered. rewrite Hch. by destruct (wf_buffer _ _ Hr _ _ Hch).
Qed.

Lemma subscribe_live executionID l b :
  run l b → Broker.Broker.publishing b = [] →
  let s := Subscribe executionID l b in live s ∧ carried s = waiting s.
Proof.
  intros Hr Hp. unfold Subscribe. destruct (Broker.Broker.Subscribe executionID b) as [c b'] eqn:E.
  pose proof (run_subscribe l b executionID Hr Hp) as Hr'. rewrite E in Hr'. simpl in *.
  assert (Broker.Broker.channels b !! c = None) as Hc.
  { unfold Broker.Broker.Subscribe in E. simplify_eq. apply not_elem_of_dom, is_fresh. }
  apply run_wf in Hr as W. destruct (wf_unknown _ _ W c Hc) as [Ht Hrc]. split; [split; [done|]|].
  - rewrite !elem_snoc. split; [by right|]. intros [Hu|]; [|done]. apply (wf_left _ _ W) in Hu.
    destruct (wf_exists _ _ W _ _ Hu) as (ch & Hch & _). congruence.
  - pose proof (buffered_taken _ _ c Hr') as Hb. revert Hb.
    rewrite taken_app, received_app, Ht, Hrc. done.
Qed.
End Local.

(** ** A subscription to Redis *)

Module Remote.
Import RedisStream.Subscription.

(** What has happened to it, and the subscription. *)
Record t := mk { history : list note; subscription : RedisStream.Subscription.t }.

#[global] Instance ops : StreamOps t := {
  Receive s :=
    '(event, sub) ← receive (subscription s);
    Some (event, mk (history s ++ [from_option Got GotEnd event]) sub);
  Unsubscribe s := Some (mk (history s ++ [Stopped]) (unsubscribe (subscription s)));
  unlocked s := true;
  (* the goroutine moves on, the library delivers a message or ends *)
  meanwhile s s' :=
    (forwards (subscription s) (subscription s') ∧ history s' = history s) ∨
    (∃ p, deliver p (subscription s) = Some (subscription s') ∧ history s' = history s ++ [Delivered p]) ∨
    (subscription s' = close_inbox (subscription s) ∧ history s' = history s)
}.

#[global] Instance view : StreamView t := {
  live s := reach (history s) (subscription s);
  carried s := got (history s) ++ events (subscription s);
  waiting s := events (subscription s)
}.

Definition start : t := mk [] Subscribe.

Lemma forwards_events s s' : forwards s s' → ∃ new, events s' = events s ++ new.
Proof.
  destruct 1 as [s s' E|s s' E|s s' E|s s' E|s s' E].
  - exists []. unfold take_message in E. destruct (at_ s), (inbox s); simplify_eq/=. by rewrite app_nil_r.
  - exists []. unfold message_end in E.
    destruct (at_ s), (inbox s), (inbox_closed s); simplify_eq/=. by rewrite app_nil_r.
  - unfold send in E. destruct (at_ s) as [|e| |]; try done. case_match; simplify_eq/=. by exists [e].
  - exists []. unfold context_done in E. destruct (cancelled s), (at_ s); simplify_eq/=; by rewrite app_nil_r.
  - exists []. unfold leave, unsubscribe in E. destruct (at_ s); simplify_eq/=.
    rewrite app_nil_r. by destruct (once s).
Qed.

Lemma reach_note l s n s' : reach l s → disturbs s n s' → reach (l ++ n) s'.
Proof. intros Hr Hd. eapply reach_step; [done|by apply step_other]. Qed.

#[global] Instance laws : StreamLaws t.
Proof.
  split; simpl.
  - intros [l s] [l' s'] Hl [[Hf ->]|[(p & Hd & ->)|[-> ->]]]; simpl in *.
    + split; [rewrite <-(app_nil_r l); eapply reach_step; [done|by apply step_own]|].
      destruct (forwards_events _ _ Hf) as [new ->]. exists new. by rewrite (assoc_L (++)).
    + split; [by eapply reach_note, disturbs_deliver|]. exists [].
      unfold deliver in Hd. case_match; simplify_eq/=. by rewrite notes_got, !app_nil_r.
    + split; [rewrite <-(app_nil_r l); by eapply reach_note, disturbs_close|]. exists [].
      by rewrite !app_nil_r.
  - intros [l s] s' e Hl E. simpl in *. destruct (receive s) as [[event sub]|] eqn:Hr; [|done].
    simplify_eq/=. split; [by eapply reach_note, disturbs_receive|].
    unfold receive in Hr. destruct (events s) as [|e' rest] eqn:He; [by destruct (events_closed s)|].
    simplify_eq/=. by rewrite notes_got, <-(assoc_L (++)).
  - intros [l s] s' Hl E. simpl in *. destruct (receive s) as [[event sub]|] eqn:Hr; [|done].
    simplify_eq/=. split; [by eapply reach_note, disturbs_receive_end|].
    unfold receive in Hr. destruct (events s) as [|e' rest] eqn:He; [|done].
    destruct (events_closed s); simplify_eq/=. by rewrite notes_got, He, !app_nil_r.
  - intros [l s] _ Hw. simpl in *. unfold receive. destruct (events s) as [|e rest]; [done|].
    by eexists _, _.
  - intros s _ _. by eexists.
  - intros [l s] s' _ [= <-]. simpl. rewrite notes_got, app_nil_r. unfold unsubscribe. by destruct (once s).
  - intros [l s] Hl%reach_valid. apply Hl.
Qed.
End Remote.

(** ** A websocket that follows an execution over Redis *)

Import RedisStream.Subscription (reach, reach_start, reach_step, delivered, decoded, inbox).

Section redis.
Implicit Types (c : connection Remote.t).

(** The closure may be called: nothing it does ends the invariant. *)
Lemma remote_live c : rtc happens (connect Remote.start) c → live (feed c).
Proof.
  intros Hr. assert (live (feed (connect Remote.start))) as Hl by apply reach_start.
  induction Hr as [|c c1 c2 Hs _ IH]; [done|]. apply IH. clear IH.
  destruct Hs as [why c c' E|c s _ Hm]; [|by destruct (meanwhile_live (feed c) s Hl Hm)].
  unfold proceed in E. destruct why as [|failed| |], (at_ c); try done.
  - destruct (Receive (feed c)) as [[[event|] s]|] eqn:Hrc; [| |done]; injection E as <-.
    + by destruct (receive_event _ _ _ Hl Hrc).
    + by destruct (receive_end _ _ Hl Hrc).
  - injection E as <-. by destruct failed.
  - by injection E as <-.
  - injection E as <-. by eapply Remote.reach_note, RedisStream.Subscription.disturbs_unsubscribe.
Qed.

(** The events of payloads that [RedisBroker.Publish] made. *)
Lemma decoded_published ps evs :
  Forall2 (λ p e, encode_event e = Ok p ∧ valid_event e) ps evs → decoded ps = sorted_event <$> evs.
Proof.
  induction 1 as [|p e ps evs [Hp He] _ IH]; [done|]. rewrite decoded_cons, IH. csimpl.
  pose proof (encode_decode_event e He) as Hd. rewrite Hp in Hd. cbn in Hd. by rewrite Hd.
Qed.

(** C32: From [RedisBroker.Publish] to a websocket: if the messages that Redis has delivered to the
    subscription are the payloads of some events (with texts of valid UTF-8, data that are strings
    under different names, and a time JSON can print), in that order, then what the handler has
    written to its connection is a front part of these events, each once, in order and as it
    was published up to the order of its data, whatever the goroutine, the library and the handler
    did in between; and once nothing is on its way, it is all of them.  At most 32 events wait. *)
Theorem redis_websocket c evs :
  rtc happens (connect Remote.start) c →
  Forall2 (λ p e, encode_event e = Ok p ∧ valid_event e) (delivered (Remote.history (feed c))) evs →
  written c `prefix_of` (sorted_event <$> evs) ∧
  (let s := Remote.subscription (feed c) in
   length (RedisStream.Subscription.events s) ≤ 32 ∧
   (at_ c = Waiting → RedisStream.Subscription.at_ s = RedisStream.Subscription.Waiting →
    inbox s = [] → RedisStream.Subscription.events s = [] → written c = sorted_event <$> evs)).
Proof.
  intros Hr Hev%decoded_published. assert (live Remote.start) as Hl by apply reach_start.
  destruct (accounted_reach Remote.start c Hl eq_refl Hr) as [_ (lost & Hh & Hc)].
  pose proof (reach_valid _ _ (remote_live c Hr)) as V. simpl in Hc.
  assert (written c `prefix_of` RedisStream.Subscription.got (Remote.history (feed c)) ++
            RedisStream.Subscription.events (Remote.subscription (feed c))) as Hw.
  { rewrite Hc. by eexists. }
  split; [|split; [by apply V|]].
  - rewrite <-Hev. etrans; [exact Hw|by apply V].
  - intros Ha Hg Hi He. rewrite Ha in Hh. simpl in Hh. subst lost. rewrite He, !app_nil_r in Hc.
    rewrite <-Hev, <-Hc. pose proof (valid_active _ _ V) as Hv.
    unfold RedisStream.Subscription.active, RedisStream.Subscription.held in Hv.
    rewrite Hg, Hi, He in Hv. specialize (Hv eq_refl). simpl in Hv.
    unfold decoded at 1 in Hv. simpl in Hv. by rewrite app_nil_r in Hv.
Qed.
End redis.

(** ** In use *)

Definition remote (notes : list RedisStream.Subscription.note) (inbox : list string)
    (p : RedisStream.Subscription.place) (events : list Event.t) : Remote.t :=
  Remote.mk notes (RedisStream.Subscription.mk inbox false p events false false false).

Definition delivered_notes : list RedisStream.Subscription.note :=
  [RedisStream.Subscription.Delivered demo_payload].
Definition followed : connection Remote.t :=
  mkConnection (remote (delivered_notes ++ [RedisStream.Subscription.Got demo_event]) []
                  RedisStream.Subscription.Waiting []) Waiting [demo_event].

Lemma followed_reach : rtc happens (connect Remote.start) followed.
Proof.
  eapply rtc_l.
  { apply (happens_other _ (remote delivered_notes [demo_payload] RedisStream.Subscription.Waiting []));
      [done|]. right. left. by exists demo_payload. }
  eapply rtc_l.
  { apply (happens_other _ (remote delivered_notes [] (RedisStream.Subscription.Sending demo_event) []));
      [done|]. left. split; [|done]. apply RedisStream.Subscription.forwards_message.
    vm_compute. reflexivity. }
  eapply rtc_l.
  { apply (happens_other _ (remote delivered_notes [] RedisStream.Subscription.Waiting [demo_event]));
      [done|]. left. split; [|done]. by apply RedisStream.Subscription.forwards_send. }
  eapply rtc_l; [by apply (happens_own Reads)|].
  eapply rtc_l; [by apply (happens_own (Writes false))|]. apply rtc_refl.
Qed.

Lemma redis_websocket_witness :
  written followed `prefix_of` [demo_event] ∧ written followed = [demo_event].
Proof.
  assert (Forall2 (λ p e, encode_event e = Ok p ∧ valid_event e)
            (delivered (Remote.history (feed followed))) [demo_event]) as Hp.
  { constructor; [|constructor]. split; [vm_compute; reflexivity|exact demo_event_valid]. }
  destruct (redis_websocket followed [demo_event] followed_reach Hp) as (Hw & _ & Hall).
  exact (conj Hw (Hall eq_refl eq_refl eq_refl eq_refl)).
Defined.

(** A subscriber of the broker: an event is published and taken, received and written. *)
Definition subscribed_to_x : Local.t := Local.Subscribe "x" [] Broker.Broker.NewBroker.
Definition started : Event.t := Event.mk "x" "agent.started" "" [] 0.

Definition published : Broker.Broker.t :=
  Broker.Broker.publish_begin started [Local.channel subscribed_to_x] (Local.broker subscribed_to_x).
Definition offered : Broker.Broker.t :=
  match Broker.Broker.publish_offer started (Local.channel subscribed_to_x) published with
  | Some (_, b) => Broker.Broker.set_publishing [(started, [])] b
  | None => published
  end.
Definition offered_to_x : Local.t :=
  Local.mk (Local.history subscribed_to_x ++ [Published started; Taken (Local.channel subscribed_to_x) started])
    offered "x" (Local.channel subscribed_to_x).

Lemma offered_run : run (Local.history offered_to_x) (Local.broker offered_to_x).
Proof.
  assert (run (Local.history subscribed_to_x) (Local.broker subscribed_to_x)) as Hs
    by (apply (run_subscribe [] _ "x"); [constructor|done]).
  assert (Broker.Broker.range_of (Event.ExecutionID started) [Local.channel subscribed_to_x]
            (Local.broker subscribed_to_x)) as Hr.
  { unfold Broker.Broker.range_of. by vm_compute. }
  pose proof (run_begin _ _ started [Local.channel subscribed_to_x] Hs Hr) as Hb.
  eapply (run_offer _ _ 0 started (Local.channel subscribed_to_x) [] true) in Hb; [exact Hb|done|].
  vm_compute. reflexivity.
Qed.

Lemma offered_reach : rtc happens (connect subscribed_to_x) (mkConnection offered_to_x Waiting []).
Proof.
  eapply rtc_l; [|apply rtc_refl]. apply (happens_other (connect subscribed_to_x)); [done|].
  split; [|by split; [apply offered_run|]]. eexists. split; [reflexivity|]. constructor; [by intros []|]. constructor; [by intros []|]. by apply Forall_nil.
Qed.

Lemma stream_followed_witness :
  (∃ e c', proceed Reads (mkConnection offered_to_x Waiting []) = Some c' ∧ at_ c' = Writing e) ∧
  (∃ lost, in_hand (at_ followed) lost ∧
     carried (feed followed) = written followed ++ lost ++ waiting (feed followed)).
Proof.
  destruct (Local.subscribe_live "x" [] Broker.Broker.NewBroker) as [Hl Hc]; [constructor|done|].
  destruct (stream_followed subscribed_to_x _ Hl Hc offered_reach) as (_ & _ & Hr).
  split; [apply Hr; [done|vm_compute; discriminate]|].
  assert (live Remote.start) as Hl' by apply reach_start.
  exact (proj1 (stream_followed Remote.start followed Hl' eq_refl followed_reach)).
Defined.
