(* ===== verification/Postgres.v ===== *)
(** * [internal/store/postgres/postgres.go]: the PostgreSQL store

    The statements of the file are translated, one function each, into operations on the tables
    that [migrations/000001_init.up.sql] declares: keys, foreign keys with their cascades,
    unique and check constraints.  What the server adds is a parameter ([PgServer]): the text
    form of its types, the order of equal rows, and the failure of any statement at any
    time, with or without effect.  Above that are the methods of [Store]: transactions,
    scanning and the mapping of errors. *)

From S2P Require Import Prelude GoLang GoString Utf8 GoJson JsonFacts GoDate Domain Store.
From S2P Require Import RedisStream.
From stdpp Require Import sorting.
Open Scope Z_scope.

(** ** The server *)

Class PgServer := {
  (* the canonical text of a uuid; [None]: not a uuid *)
  uuid_in : string → option string;
  (* what a column of type timestamptz keeps of an instant *)
  timestamptz : time → time;
  (* a text the encoding of the database can hold *)
  text_ok : string → bool;
  (* the text of a jsonb value that was written as the given text *)
  jsonb : string → option string;
  (* ORDER BY; rows with equal keys come in any order *)
  order_by {A} : Call → (A → time) → list A → list A;
  (* the n-th statement of a call fails: the error, and whether it took effect *)
  fault : Call → nat → option (error * bool)
}.

Class PgLaws `{PgServer} := {
  (* the canonical form, with four hyphens, is read as itself *)
  uuid_canonical s u : uuid_in s = Some u → uuid_in u = Some u ∧ len u = 36;
  timestamptz_idem t : timestamptz (timestamptz t) = timestamptz t;
  (* a list of strings is kept *)
  jsonb_strings s s' raw js :
    parse_json s = Some (JArray raw js) → Forall (λ j, ∃ t, erase j = VString t) js →
    jsonb s = Some s' →
    ∃ raw' js', parse_json s' = Some (JArray raw' js') ∧ erase <$> js' = erase <$> js;
  order_by_perm {A} c (key : A → time) l : order_by c key l ≡ₚ l;
  order_by_sorted {A} c (key : A → time) l :
    StronglySorted (λ x y, key x ≤ key y) (order_by c key l);
  (* the driver refuses a context that is done; no error of a statement is ErrNoRows *)
  fault_done c n : is_Some (call_err c) → ∃ e, fault c n = Some (e, false);
  fault_no_rows c n e b : fault c n = Some (e, b) → Is e NoRows = false
}.

(** ** The tables *)

Module AgentRow.
Record t := mk {
  owner_id : string; name : string; description : string; current_version : Z;
  created_at : time; updated_at : time
}.
End AgentRow.

Module VersionRow.
Record t := mk {
  system_prompt : string; model : string; temperature : float64; max_tokens : Z; tool_names : string
}.
End VersionRow.

Module MessageRow.
Record t := mk {
  id : string; conversation_id : string; role : string; content : string;
  tool_call_id : string;   (* empty: NULL *)
  metadata : string; created_at : time
}.
End MessageRow.

(** The columns of an execution are the fields of the struct (an empty key or conversation is
    NULL) and the version of the agent. *)
Module ExecutionRow.
Record t := mk { fields : Execution.t; agent_version : Z }.
End ExecutionRow.

Module StepRow.
Record t := mk {
  id : string; execution_id : string; step_type : string; name : string; input : string;
  output : string; error_ : string; retry_count : Z; started_at : time; completed_at : option time
}.
End StepRow.

Module Tables.
Record t := mk {
  users : gset string;
  agents : gmap string AgentRow.t;
  agent_versions : gmap (string * Z) VersionRow.t;
  conversations : gmap string Conversation.t;
  messages : list MessageRow.t;
  executions : gmap string ExecutionRow.t;
  execution_steps : list StepRow.t
}.
End Tables.

Import Tables.

(** The errors of the server: a value of the wrong form, a violated constraint. *)
Definition invalid (what : string) : error := Foreign ("invalid " +:+ what).
Definition violates (constraint : string) : error := Foreign ("violates " +:+ constraint).

Definition guard_ (b : bool) (e : error) : result unit := if b then Ok tt else Err e.

Section columns.
Context `{PgServer}.

Definition uuid (s : string) : result string :=
  match uuid_in s with Some u => Ok u | None => Err (invalid "uuid") end.
(** [NULLIF(s,'')::uuid]. *)
Definition uuid_or_null (s : string) : result string := if decide (s = "") then Ok "" else uuid s.
Definition text (s : string) : result string :=
  if text_ok s then Ok s else Err (invalid "byte sequence").
Definition int4 (z : Z) : result Z :=
  if within (- 2 ^ 31) z (2 ^ 31 - 1) then Ok z else Err (invalid "int4").
Definition json_column (s : string) : result string :=
  match jsonb s with Some s => Ok s | None => Err (invalid "json") end.

(** [temperature BETWEEN 0 AND 2]. *)
Definition temperature_ok (f : float64) : bool :=
  SFleb (S754_zero false) f && SFleb f (binary_normalize prec64 emax64 2 0 false).

(** ** The statements *)

(** No other row with the same owner and name. *)
Definition name_free (id owner name : string) (db : t) : bool :=
  forallb (λ '(i, a), bool_decide (i = id) ||
                      negb (bool_decide (AgentRow.owner_id a = owner ∧ AgentRow.name a = name)))
          (map_to_list (agents db)).

Definition insert_agent (a : Agent.t) (db : t) : result t :=
  id ← uuid (Agent.ID a);
  owner ← uuid (Agent.OwnerID a);
  name ← text (Agent.Name a);
  description ← text (Agent.Description a);
  version ← int4 (Agent.Version a);
  guard_ (bool_decide (agents db !! id = None)) (violates "agents_pkey");;
  guard_ (bool_decide (owner ∈ users db)) (violates "agents_owner_id_fkey");;
  guard_ (name_free id owner name db) (violates "agents_owner_id_name_key");;
  Ok (mk (users db)
         (<[id := AgentRow.mk owner name description version (timestamptz (Agent.CreatedAt a))
                              (timestamptz (Agent.UpdatedAt a))]> (agents db))
         (agent_versions db) (conversations db) (messages db) (executions db) (execution_steps db)).

Definition insert_version (a : Agent.t) (tools : string) (db : t) : result t :=
  id ← uuid (Agent.ID a);
  version ← int4 (Agent.Version a);
  system_prompt ← text (Agent.SystemPrompt a);
  model ← text (Agent.Model a);
  max_tokens ← int4 (Agent.MaxTokens a);
  tool_names ← json_column tools;
  guard_ (bool_decide (is_Some (agents db !! id))) (violates "agent_versions_agent_id_fkey");;
  guard_ (bool_decide (agent_versions db !! (id, version) = None))
         (violates "agent_versions_agent_id_version_key");;
  guard_ (temperature_ok (Agent.Temperature a)) (violates "agent_versions_temperature_check");;
  guard_ (0 <? max_tokens) (violates "agent_versions_max_tokens_check");;
  Ok (mk (users db) (agents db)
         (<[(id, version) := VersionRow.mk system_prompt model (Agent.Temperature a) max_tokens
                                           tool_names]> (agent_versions db))
         (conversations db) (messages db) (executions db) (execution_steps db)).

(** [UPDATE agents ... WHERE owner_id=$1 AND id=$2]: the number of rows, and the tables. *)
Definition update_agent (a : Agent.t) (db : t) : result (Z * t) :=
  owner ← uuid (Agent.OwnerID a);
  id ← uuid (Agent.ID a);
  name ← text (Agent.Name a);
  description ← text (Agent.Description a);
  version ← int4 (Agent.Version a);
  match agents db !! id with
  | Some row =>
      if decide (AgentRow.owner_id row = owner) then
        guard_ (name_free id owner name db) (violates "agents_owner_id_name_key");;
        Ok (1, mk (users db)
                  (<[id := AgentRow.mk owner name description version (AgentRow.created_at row)
                                       (timestamptz (Agent.UpdatedAt a))]> (agents db))
                  (agent_versions db) (conversations db) (messages db) (executions db)
                  (execution_steps db))
      else Ok (0, db)
  | None => Ok (0, db)
  end.

(** [ON DELETE SET NULL]: an execution loses a conversation that is gone. *)
Definition set_null (talks : gmap string Conversation.t) (x : ExecutionRow.t) : ExecutionRow.t :=
  let e := ExecutionRow.fields x in
  if decide (Execution.ConversationID e = "" ∨ is_Some (talks !! Execution.ConversationID e)) then x
  else ExecutionRow.mk
         (Execution.mk (Execution.ID e) (Execution.RequestID e) (Execution.IdempotencyKey e)
            (Execution.AgentID e) (Execution.OwnerID e) "" (Execution.Input e) (Execution.Output e)
            (Execution.Status e) (Execution.Model e) (Execution.PromptTokens e)
            (Execution.OutputTokens e) (Execution.Error e) (Execution.RetryCount e)
            (Execution.StartedAt e) (Execution.CompletedAt e) (Execution.CreatedAt e))
         (ExecutionRow.agent_version x).

(** [DELETE FROM agents ...] and what its cascades remove: the versions, the conversations with
    their messages and the executions with their steps; an execution of another agent
    loses a conversation that goes. *)
Definition delete_agent (ownerID agentID : string) (db : t) : result (Z * t) :=
  owner ← uuid ownerID;
  id ← uuid agentID;
  match agents db !! id with
  | Some row =>
      if decide (AgentRow.owner_id row = owner) then
        let talks := filter (λ kv, Conversation.AgentID kv.2 ≠ id) (conversations db) in
        let runs := filter (λ kv, Execution.AgentID (ExecutionRow.fields kv.2) ≠ id) (executions db) in
        Ok (1, mk (users db) (delete id (agents db))
                  (filter (λ kv, kv.1.1 ≠ id) (agent_versions db)) talks
                  (filter (λ m, is_Some (talks !! MessageRow.conversation_id m)) (messages db))
                  (set_null talks <$> runs)
                  (filter (λ s, is_Some (runs !! StepRow.execution_id s)) (execution_steps db)))
      else Ok (0, db)
  | None => Ok (0, db)
  end.

(** The join of an agent with its current version; [None] is no row. *)
Definition select_agent (ownerID agentID : string) (db : t)
    : result (option (string * AgentRow.t * VersionRow.t)) :=
  owner ← uuid ownerID;
  id ← uuid agentID;
  Ok (row ← agents db !! id;
      if decide (AgentRow.owner_id row = owner)
      then v ← agent_versions db !! (id, AgentRow.current_version row); Some (id, row, v)
      else None).
End columns.

Section more_statements.
Context `{PgServer}.

Definition insert_conversation (v : Conversation.t) (db : t) : result t :=
  id ← uuid (Conversation.ID v);
  owner ← uuid (Conversation.OwnerID v);
  agent ← uuid (Conversation.AgentID v);
  title ← text (Conversation.Title v);
  guard_ (bool_decide (conversations db !! id = None)) (violates "conversations_pkey");;
  guard_ (bool_decide (owner ∈ users db)) (violates "conversations_owner_id_fkey");;
  guard_ (bool_decide (is_Some (agents db !! agent))) (violates "conversations_agent_id_fkey");;
  Ok (mk (users db) (agents db) (agent_versions db)
         (<[id := Conversation.mk id owner agent title (timestamptz (Conversation.CreatedAt v))
                                  (timestamptz (Conversation.UpdatedAt v))]> (conversations db))
         (messages db) (executions db) (execution_steps db)).

Definition select_conversation (ownerID conversationID : string) (db : t)
    : result (option Conversation.t) :=
  owner ← uuid ownerID;
  id ← uuid conversationID;
  Ok (v ← conversations db !! id; if decide (Conversation.OwnerID v = owner) then Some v else None).

Definition role_ok (role : string) : bool :=
  bool_decide (role ∈ ["system"; "user"; "assistant"; "tool"]).

Definition insert_message (m : Message.t) (metadata : string) (db : t) : result t :=
  id ← uuid (Message.ID m);
  conversation ← uuid (Message.ConversationID m);
  role ← text (Message.Role m);
  content ← text (Message.Content m);
  call ← text (Message.ToolCallID m);
  metadata ← json_column metadata;
  guard_ (negb (existsb (λ r, bool_decide (MessageRow.id r = id)) (messages db)))
         (violates "messages_pkey");;
  guard_ (bool_decide (is_Some (conversations db !! conversation)))
         (violates "messages_conversation_id_fkey");;
  guard_ (role_ok role) (violates "messages_role_check");;
  Ok (mk (users db) (agents db) (agent_versions db) (conversations db)
         (messages db ++ [MessageRow.mk id conversation role content call metadata
                                        (timestamptz (Message.CreatedAt m))])
         (executions db) (execution_steps db)).

(** The last [limit] messages of a conversation of the owner, in the order of their creation. *)
Definition select_messages (c : Call) (ownerID conversationID : string) (limit : Z) (db : t)
    : result (list MessageRow.t) :=
  owner ← uuid ownerID;
  id ← uuid conversationID;
  guard_ (0 <=? limit) (Foreign "LIMIT must not be negative");;
  let rows := match conversations db !! id with
              | Some v => if decide (Conversation.OwnerID v = owner)
                          then filter (λ m, MessageRow.conversation_id m = id) (messages db) else []
              | None => []
              end in
  let recent := take (Z.to_nat limit) (order_by c (λ m, - MessageRow.created_at m) rows) in
  Ok (order_by c MessageRow.created_at recent).

(** No other row with the same owner and key; a NULL key equals nothing. *)
Definition key_free (owner key : string) (db : t) : bool :=
  bool_decide (key = "") ||
  forallb (λ '(_, x), negb (bool_decide (Execution.OwnerID (ExecutionRow.fields x) = owner ∧
                                         Execution.IdempotencyKey (ExecutionRow.fields x) = key)))
          (map_to_list (executions db)).

Definition insert_execution (x : Execution.t) (db : t) : result t :=
  id ← uuid (Execution.ID x);
  request ← uuid (Execution.RequestID x);
  key ← text (Execution.IdempotencyKey x);
  agent ← uuid (Execution.AgentID x);
  owner ← uuid (Execution.OwnerID x);
  conversation ← uuid_or_null (Execution.ConversationID x);
  input ← text (Execution.Input x);
  output ← text (Execution.Output x);
  model ← text (Execution.Model x);
  err ← text (Execution.Error x);
  retries ← int4 (Execution.RetryCount x);
  match agents db !! agent with
  | None => Err (violates "executions_agent_version_not_null")
  | Some row =>
      guard_ (bool_decide (executions db !! id = None)) (violates "executions_pkey");;
      guard_ (key_free owner key db) (violates "executions_owner_id_idempotency_key_key");;
      guard_ (bool_decide (owner ∈ users db)) (violates "executions_owner_id_fkey");;
      guard_ (bool_decide (conversation = "" ∨ is_Some (conversations db !! conversation)))
             (violates "executions_conversation_id_fkey");;
      Ok (mk (users db) (agents db) (agent_versions db) (conversations db) (messages db)
             (<[id := ExecutionRow.mk
                        (Execution.mk id request key agent owner conversation input output
                           (Execution.Status x) model (Execution.PromptTokens x)
                           (Execution.OutputTokens x) err retries
                           (timestamptz <$> Execution.StartedAt x)
                           (timestamptz <$> Execution.CompletedAt x)
                           (timestamptz (Execution.CreatedAt x)))
                        (AgentRow.current_version row)]> (executions db))
             (execution_steps db))
  end.

Definition select_execution (ownerID executionID : string) (db : t) : result (option Execution.t) :=
  owner ← uuid ownerID;
  id ← uuid executionID;
  Ok (x ← executions db !! id;
      if decide (Execution.OwnerID (ExecutionRow.fields x) = owner)
      then Some (ExecutionRow.fields x) else None).

(** [WHERE owner_id=$1 AND idempotency_key=$2], which matches one row at most. *)
Definition select_by_key (ownerID key : string) (db : t) : result (option Execution.t) :=
  owner ← uuid ownerID;
  key ← text key;
  Ok (head (omap (λ '(_, x), let e := ExecutionRow.fields x in
                             if decide (Execution.OwnerID e = owner ∧ key ≠ "" ∧
                                        Execution.IdempotencyKey e = key)
                             then Some e else None) (map_to_list (executions db)))).

Definition update_execution (x : Execution.t) (db : t) : result (Z * t) :=
  id ← uuid (Execution.ID x);
  output ← text (Execution.Output x);
  model ← text (Execution.Model x);
  err ← text (Execution.Error x);
  retries ← int4 (Execution.RetryCount x);
  match executions db !! id with
  | Some row =>
      let e := ExecutionRow.fields row in
      Ok (1, mk (users db) (agents db) (agent_versions db) (conversations db) (messages db)
                (<[id := ExecutionRow.mk
                           (Execution.mk (Execution.ID e) (Execution.RequestID e)
                              (Execution.IdempotencyKey e) (Execution.AgentID e)
                              (Execution.OwnerID e) (Execution.ConversationID e)
                              (Execution.Input e) output (Execution.Status x) model
                              (Execution.PromptTokens x) (Execution.OutputTokens x) err retries
                              (timestamptz <$> Execution.StartedAt x)
                              (timestamptz <$> Execution.CompletedAt x) (Execution.CreatedAt e))
                           (ExecutionRow.agent_version row)]> (executions db))
                (execution_steps db))
  | None => Ok (0, db)
  end.

Definition insert_step (s : Step.t) (input output : string) (db : t) : result t :=
  id ← uuid (Step.ID s);
  execution ← uuid (Step.ExecutionID s);
  type_ ← text (Step.Type_ s);
  name ← text (Step.Name s);
  input ← json_column input;
  output ← json_column output;
  err ← text (Step.Error s);
  retries ← int4 (Step.RetryCount s);
  guard_ (negb (existsb (λ r, bool_decide (StepRow.id r = id)) (execution_steps db)))
         (violates "execution_steps_pkey");;
  guard_ (bool_decide (is_Some (executions db !! execution)))
         (violates "execution_steps_execution_id_fkey");;
  Ok (mk (users db) (agents db) (agent_versions db) (conversations db) (messages db) (executions db)
         (execution_steps db ++ [StepRow.mk id execution type_ name input output err retries
                                   (timestamptz (Step.StartedAt s))
                                   (timestamptz <$> Step.CompletedAt s)])).

Definition select_steps (c : Call) (executionID : string) (db : t) : result (list StepRow.t) :=
  id ← uuid executionID;
  Ok (order_by c StepRow.started_at
        (filter (λ s, StepRow.execution_id s = id) (execution_steps db))).

Definition select_executions (c : Call) (ownerID agentID : string) (limit : Z) (db : t)
    : result (list Execution.t) :=
  owner ← uuid ownerID;
  agent ← uuid agentID;
  guard_ (0 <=? limit) (Foreign "LIMIT must not be negative");;
  let rows := filter (λ e, Execution.OwnerID e = owner ∧ Execution.AgentID e = agent)
                     (ExecutionRow.fields ∘ snd <$> map_to_list (executions db)) in
  Ok (take (Z.to_nat limit) (order_by c (λ e, - Execution.CreatedAt e) rows)).
End more_statements.

(** ** The methods of [Store] *)

Module Postgres.
Section store.
Context `{PgServer}.

(** A statement that changes the tables, outside a transaction. *)
Definition Exec {A} (c : Call) (statement : t → result (A * t)) (db : t) : result A * t :=
  match fault c 0, statement db with
  | Some (e, applied), Ok (_, db') => (Err e, if applied then db' else db)
  | Some (e, _), Err _ => (Err e, db)
  | None, Ok (a, db') => (Ok a, db')
  | None, Err e => (Err e, db)
  end.

(** A statement that reads. *)
Definition Query {A} (c : Call) (statement : t → result A) (db : t) : result A :=
  match fault c 0 with Some (e, _) => Err e | None => statement db end.

(** The [n]-th statement of a transaction. *)
Definition tx_exec {A} (c : Call) (n : nat) (statement : t → result A) (tx : t) : result A :=
  match fault c n with Some (e, _) => Err e | None => statement tx end.

(** [tx.Commit]: the tables afterwards, and its error. *)
Definition commit (c : Call) (n : nat) (tx db : t) : option error * t :=
  match fault c n with
  | None => (None, tx)
  | Some (e, applied) => (Some e, if applied then tx else db)
  end.

Definition no_value (s : t → result t) (db : t) : result (unit * t) := tx ← s db; Ok (tt, tx).

(** [json.Marshal(agent.Tools)]; a nil slice is written as null and reads as nil. *)
Definition encode_tools (tools : list string) : string :=
  of_bytes (print_array (print_string <$> tools)).

Definition CreateAgent (c : Call) (agent : Agent.t) (db : t) : option error * t :=
  let tools := encode_tools (Agent.Tools agent) in
  match fault c 0 with
  | Some (err, _) => (Some (Wrap "begin create agent" err), db)
  | None =>
      match tx_exec c 1 (insert_agent agent) db with
      | Err err => (Some (Wrap "insert agent" err), db)
      | Ok tx =>
          match tx_exec c 2 (insert_version agent tools) tx with
          | Err err => (Some (Wrap "insert agent version" err), db)
          | Ok tx => let '(err, db) := commit c 3 tx db in (Wrap "commit create agent" <$> err, db)
          end
      end
  end.

(** Scanning a row; [json.Unmarshal(tools, &agent.Tools)]. *)
Definition scan_agent (row : string * AgentRow.t * VersionRow.t) : result Agent.t :=
  let '(id, a, v) := row in
  match parse_json (VersionRow.tool_names v) with
  | None => Err (Wrap "decode tools" json_error)
  | Some j =>
      match decode_strings j [] with
      | Err err => Err (Wrap "decode tools" err)
      | Ok tools =>
          Ok (Agent.mk id (AgentRow.owner_id a) (AgentRow.name a) (AgentRow.description a)
                (VersionRow.system_prompt v) (VersionRow.model v) (VersionRow.temperature v)
                (VersionRow.max_tokens v) tools (AgentRow.current_version a)
                (AgentRow.created_at a) (AgentRow.updated_at a))
      end
  end.

(** [QueryRow ... Scan]: no row is [pgx.ErrNoRows]. *)
Definition query_row {A B} (what : string) (c : Call) (statement : t → result (option A))
    (scan : A → result B) (db : t) : result B :=
  match Query c statement db with
  | Err err => if Is err NoRows then Err (Sentinel NotFound) else Err (Wrap what err)
  | Ok None => Err (Sentinel NotFound)
  | Ok (Some row) => scan row
  end.

Definition GetAgent (c : Call) (ownerID agentID : string) (db : t) : result Agent.t :=
  query_row "get agent" c (select_agent ownerID agentID) scan_agent db.

Definition UpdateAgent (c : Call) (agent : Agent.t) (db : t) : option error * t :=
  let tools := encode_tools (Agent.Tools agent) in
  match fault c 0 with
  | Some (err, _) => (Some err, db)
  | None =>
      match tx_exec c 1 (update_agent agent) db with
      | Err err => (Some (Wrap "update agent" err), db)
      | Ok (rows, tx) =>
          if rows =? 0 then (Some (Sentinel NotFound), db) else
          match tx_exec c 2 (insert_version agent tools) tx with
          | Err err => (Some (Wrap "insert agent version" err), db)
          | Ok tx => commit c 3 tx db
          end
      end
  end.

(** An update or a deletion that has to find its row. *)
Definition must_affect (what : string) (r : result Z * t) : option error * t :=
  match r with
  | (Err err, db) => (Some (Wrap what err), db)
  | (Ok rows, db) => (if rows =? 0 then Some (Sentinel NotFound) else None, db)
  end.

Definition DeleteAgent (c : Call) (ownerID agentID : string) (db : t) : option error * t :=
  must_affect "delete agent" (Exec c (delete_agent ownerID agentID) db).

Definition CreateConversation (c : Call) (v : Conversation.t) (db : t) : option error * t :=
  let '(r, db) := Exec c (no_value (insert_conversation v)) db in
  (Wrap "create conversation" <$> result_error r, db).

Definition GetConversation (c : Call) (ownerID conversationID : string) (db : t)
    : result Conversation.t :=
  query_row "get conversation" c (select_conversation ownerID conversationID) Ok db.

(** A nil map is written as null, like the empty one here. *)
Definition encode_map (m : list (string * value)) : result string :=
  if decide (m = []) then Ok "null" else Marshal (VObject m).

Definition AppendMessage (c : Call) (m : Message.t) (db : t) : option error * t :=
  match encode_map (Message.Metadata m) with
  | Err err => (Some (Wrap "encode message metadata" err), db)
  | Ok metadata =>
      let '(r, db) := Exec c (no_value (insert_message m metadata)) db in
      (Wrap "append message" <$> result_error r, db)
  end.

(** [_ = json.Unmarshal(column, &field)]: what cannot be decoded stays nil. *)
Definition decode_column (column : string) : list (string * value) :=
  match parse_json column with
  | Some j => match decode_map j [] with Ok m => m | Err _ => [] end
  | None => []
  end.

Definition scan_message (r : MessageRow.t) : Message.t :=
  Message.mk (MessageRow.id r) (MessageRow.conversation_id r) (MessageRow.role r)
    (MessageRow.content r) (MessageRow.tool_call_id r) (decode_column (MessageRow.metadata r))
    (MessageRow.created_at r).

(** [Query] fails when the statement cannot be sent; what the server says of it shows in the rows. *)
Definition ListMessages (c : Call) (ownerID conversationID : string) (limit : Z) (db : t)
    : option (result (list Message.t)) :=
  Some (match Query c (λ _, Ok tt) db with
        | Err err => Err (Wrap "list messages" err)
        | Ok _ =>
            match tx_exec c 1 (select_messages c ownerID conversationID limit) db with
            | Err err => Err err
            | Ok rows => Ok (scan_message <$> rows)
            end
        end).

Definition CreateExecution (c : Call) (execution : Execution.t) (db : t) : option error * t :=
  let '(r, db) := Exec c (no_value (insert_execution execution)) db in
  (Wrap "create execution" <$> result_error r, db).

Definition GetExecution (c : Call) (ownerID executionID : string) (db : t) : result Execution.t :=
  query_row "get execution" c (select_execution ownerID executionID) Ok db.

Definition GetByIdempotencyKey (c : Call) (ownerID key : string) (db : t) : result Execution.t :=
  query_row "get execution" c (select_by_key ownerID key) Ok db.

Definition UpdateExecution (c : Call) (execution : Execution.t) (db : t) : option error * t :=
  must_affect "update execution" (Exec c (update_execution execution) db).

Definition AppendStep (c : Call) (step : Step.t) (db : t) : option error * t :=
  match encode_map (Step.Input step), encode_map (Step.Output step) with
  | Ok input, Ok output =>
      let '(r, db) := Exec c (no_value (insert_step step input output)) db in (result_error r, db)
  | Err err, _ | Ok _, Err err => (Some err, db)
  end.

Definition scan_step (r : StepRow.t) : Step.t :=
  Step.mk (StepRow.id r) (StepRow.execution_id r) (StepRow.step_type r) (StepRow.name r)
    (decode_column (StepRow.input r)) (decode_column (StepRow.output r)) (StepRow.error_ r)
    (StepRow.retry_count r) (StepRow.started_at r) (StepRow.completed_at r).

(** The execution and its steps are read by two statements. *)
Definition TraceAt (c : Call) (ownerID executionID : string) (db1 db2 : t) : result Trace.t :=
  match GetExecution c ownerID executionID db1 with
  | Err err => Err err
  | Ok execution =>
      match tx_exec c 1 (select_steps c executionID) db2 with
      | Err err => Err err
      | Ok rows => Ok (Trace.mk execution (scan_step <$> rows))
      end
  end.

Definition ListAgentExecutions (c : Call) (ownerID agentID : string) (limit : Z) (db : t)
    : result (list Execution.t) :=
  Query c (select_executions c ownerID agentID limit) db.

#[global] Instance ops : StoreOps t := {|
  Store.CreateAgent := CreateAgent; Store.GetAgent := GetAgent; Store.UpdateAgent := UpdateAgent;
  Store.DeleteAgent := DeleteAgent; Store.CreateConversation := CreateConversation;
  Store.GetConversation := GetConversation; Store.AppendMessage := AppendMessage;
  Store.ListMessages := ListMessages; Store.CreateExecution := CreateExecution;
  Store.GetExecution := GetExecution; Store.GetByIdempotencyKey := GetByIdempotencyKey;
  Store.UpdateExecution := UpdateExecution; Store.AppendStep := AppendStep;
  Store.TraceAt := TraceAt; Store.ListAgentExecutions := ListAgentExecutions |}.
End store.
End Postgres.
