(* ===== verification/PostgresFacts.v ===== *)
(** * Round trips through the PostgreSQL store

    What a statement that succeeds has found and done; what is read back of an execution and of
    an agent; and the one thing the columns change that the program does not expect: the
    text of an identifier. *)

From S2P Require Import Prelude GoLang GoString Utf8 GoJson JsonFacts GoDate Domain Store.
From S2P Require Import RedisStream Postgres.
From stdpp Require Import sorting.
Open Scope Z_scope.

Import Tables.

(** ** Inversion of the statements *)

Lemma bind_Ok {A B} (r : result A) (k : A → result B) b :
  (r ≫= k) = Ok b → ∃ a, r = Ok a ∧ k a = Ok b.
Proof. destruct r as [a|e]; [by exists a|done]. Qed.

Lemma guard_Ok b e : guard_ b e = Ok tt ↔ b = true.
Proof. by destruct b. Qed.

(** Splits the successful statement [H] into its columns and checks. *)
Ltac statement H :=
  repeat match type of H with
  | mbind _ _ = Ok _ => let E := fresh "E" in apply bind_Ok in H as (? & E & H); cbv beta in H
  | (if decide ?P then _ else _) = Ok _ => destruct (decide P)
  | match ?x with Some _ => _ | None => _ end = Ok _ => destruct x eqn:?; try discriminate H
  end;
  repeat match goal with
  | E : guard_ _ _ = Ok ?u |- _ =>
      destruct u; apply guard_Ok in E; first [apply bool_decide_eq_true in E | idtac]
  end.

Section columns.
Context `{PgLaws}.

(** The text of an identifier as it is read back, and the other columns. *)
Definition canon (s : string) : string := default s (uuid_in s).
Definition canon_or_null (s : string) : string := if decide (s = "") then "" else canon s.

Lemma uuid_Ok s u : uuid s = Ok u → uuid_in s = Some u ∧ u = canon s.
Proof. unfold uuid, canon. destruct (uuid_in s); [|done]. by intros [= ->]. Qed.
Lemma uuid_null_Ok s u : uuid_or_null s = Ok u → u = canon_or_null s.
Proof. unfold uuid_or_null, canon_or_null. case_decide; [by intros [= <-]|]. by intros [_ ?]%uuid_Ok. Qed.
Lemma text_Ok s t : text s = Ok t → t = s.
Proof. unfold text. destruct (text_ok s); congruence. Qed.
Lemma int4_Ok z n : int4 z = Ok n → n = z.
Proof. unfold int4. destruct (within _ _ _); congruence. Qed.
Lemma canon_idem s : is_Some (uuid_in s) → uuid (canon s) = uuid s ∧ canon (canon s) = canon s.
Proof.
  intros [u Hu]. unfold canon, uuid. rewrite Hu. simpl.
  by rewrite (proj1 (uuid_canonical _ _ Hu)).
Qed.

Lemma canon_some s : is_Some (uuid_in s) → is_Some (uuid_in (canon s)).
Proof.
  intros [u Hu]. unfold canon. rewrite Hu. simpl. exists u. by apply (uuid_canonical _ _ Hu).
Qed.

End columns.

(** Rewrites the columns a successful statement has read. *)
Ltac columns :=
  repeat match goal with
  | E : uuid _ = Ok _ |- _ => let F := fresh E in apply uuid_Ok in E as [F ->]
  | E : uuid_or_null _ = Ok _ |- _ => apply uuid_null_Ok in E as ->
  | E : text _ = Ok _ |- _ => apply text_Ok in E as ->
  | E : int4 _ = Ok _ |- _ => apply int4_Ok in E as ->
  end.

Section facts.
Context `{PgLaws}.
Implicit Types (db : Tables.t).

(** An execution as the table keeps it. *)
Definition stored_form (x : Execution.t) : Execution.t :=
  Execution.mk (canon (Execution.ID x)) (canon (Execution.RequestID x)) (Execution.IdempotencyKey x)
    (canon (Execution.AgentID x)) (canon (Execution.OwnerID x))
    (canon_or_null (Execution.ConversationID x)) (Execution.Input x) (Execution.Output x)
    (Execution.Status x) (Execution.Model x) (Execution.PromptTokens x) (Execution.OutputTokens x)
    (Execution.Error x) (Execution.RetryCount x) (timestamptz <$> Execution.StartedAt x)
    (timestamptz <$> Execution.CompletedAt x) (timestamptz (Execution.CreatedAt x)).

Lemma insert_execution_Ok x db db' :
  insert_execution x db = Ok db' →
  is_Some (uuid_in (Execution.ID x)) ∧ is_Some (uuid_in (Execution.OwnerID x)) ∧
  ∃ row, agents db !! canon (Execution.AgentID x) = Some row ∧
    executions db !! canon (Execution.ID x) = None ∧
    key_free (canon (Execution.OwnerID x)) (Execution.IdempotencyKey x) db = true ∧
    canon (Execution.OwnerID x) ∈ users db ∧
    (canon_or_null (Execution.ConversationID x) = "" ∨
     is_Some (conversations db !! canon_or_null (Execution.ConversationID x))) ∧
    db' = mk (users db) (agents db) (agent_versions db) (conversations db) (messages db)
             (<[canon (Execution.ID x) := ExecutionRow.mk (stored_form x) (AgentRow.current_version row)]>
                (executions db)) (execution_steps db).
Proof.
  unfold insert_execution. intros Hs. statement Hs. columns. injection Hs as <-.
  split; [by eexists|]. split; [by eexists|]. eexists. split_and!; done.
Qed.

(** *** The writes and reads around the statements *)

Lemma Exec_Ok {A} c (s : Tables.t → result (A * Tables.t)) db a db' :
  Postgres.Exec c s db = (Ok a, db') → s db = Ok (a, db').
Proof. unfold Postgres.Exec. destruct (fault c 0) as [[e []]|], (s db) as [[a' db1]|]; congruence. Qed.

Lemma no_value_Ok (s : Tables.t → result Tables.t) db u db' :
  Postgres.no_value s db = Ok (u, db') → s db = Ok db'.
Proof. unfold Postgres.no_value. destruct (s db); cbn; congruence. Qed.

Lemma create_execution_Ok c x db db' :
  Postgres.CreateExecution c x db = (None, db') → insert_execution x db = Ok db'.
Proof.
  unfold Postgres.CreateExecution. destruct (Postgres.Exec _ _ _) as [[u|e] db1] eqn:E; simpl; [|done].
  intros [= <-]. by apply Exec_Ok, no_value_Ok in E.
Qed.

Lemma get_execution_found c o i db y v :
  fault c 0 = None → is_Some (uuid_in o) → is_Some (uuid_in i) →
  executions db !! canon i = Some (ExecutionRow.mk y v) → Execution.OwnerID y = canon o →
  Postgres.GetExecution c o i db = Ok y.
Proof.
  intros Hf [o' Ho] [i' Hi] Hx Hy. unfold Postgres.GetExecution, Postgres.query_row, Postgres.Query.
  rewrite Hf. unfold select_execution, uuid. rewrite Ho, Hi. cbn [mbind result_bind].
  unfold canon in Hx, Hy. rewrite Hi in Hx. rewrite Ho in Hy. simpl in Hx, Hy. rewrite Hx.
  cbn [mbind option_bind ExecutionRow.fields]. by rewrite decide_True.
Qed.

(** What is written is read back: after [CreateExecution] has succeeded, [GetExecution]
    returns, for the same owner and identifier, the execution with every text and count
    unchanged, its identifiers in canonical form and its times as the columns keep them; the
    canonical identifiers find it as well. *)
Theorem postgres_execution_roundtrip c c' x db db' :
  Postgres.CreateExecution c x db = (None, db') → fault c' 0 = None →
  Postgres.GetExecution c' (Execution.OwnerID x) (Execution.ID x) db' = Ok (stored_form x) ∧
  Postgres.GetExecution c' (canon (Execution.OwnerID x)) (canon (Execution.ID x)) db' =
    Ok (stored_form x).
Proof.
  intros Hc Hf. apply create_execution_Ok, insert_execution_Ok in Hc
    as (Hi & Ho & row & _ & _ & _ & _ & _ & ->).
  destruct (canon_idem _ Hi) as [_ Hi2], (canon_idem _ Ho) as [_ Ho2].
  split; apply (get_execution_found _ _ _ _ _ (AgentRow.current_version row)); try done.
  - apply lookup_insert_eq.
  - by eapply canon_some.
  - by eapply canon_some.
  - simpl. rewrite Hi2. apply lookup_insert_eq.
Qed.

(** The identifier changes on the way: [id.New] returns 32 digits, and an identifier of that length
    is read back with another text, the 36 characters of the canonical form.  So a worker
    that loads an execution runs it, and publishes its events, under another identifier than
    the one the caller was given. *)
Theorem postgres_id_form c c' x db db' :
  Postgres.CreateExecution c x db = (None, db') → fault c' 0 = None → len (Execution.ID x) = 32 →
  ∃ y, Postgres.GetExecution c' (Execution.OwnerID x) (Execution.ID x) db' = Ok y ∧
       len (Execution.ID y) = 36 ∧ Execution.ID y ≠ Execution.ID x.
Proof.
  intros Hc Hf Hl. apply create_execution_Ok, insert_execution_Ok in Hc
    as (Hi & Ho & row & _ & _ & _ & _ & _ & ->).
  exists (stored_form x).
  assert (len (Execution.ID (stored_form x)) = 36) as H36.
  { simpl. unfold canon. destruct Hi as [i Hi]. rewrite Hi. by apply (uuid_canonical _ _ Hi). }
  split; [|split; [done|intros E; rewrite E in H36; lia]].
  apply (get_execution_found _ _ _ _ _ (AgentRow.current_version row)); try done.
  apply lookup_insert_eq.
Qed.

(** *** Agents *)

(** The lemmas [..._Ok]: what a statement that succeeds has found, and what it leaves. *)
Definition agent_row (a : Agent.t) (created : time) : AgentRow.t :=
  AgentRow.mk (canon (Agent.OwnerID a)) (Agent.Name a) (Agent.Description a) (Agent.Version a)
    created (timestamptz (Agent.UpdatedAt a)).

Lemma insert_agent_Ok a db db' :
  insert_agent a db = Ok db' →
  is_Some (uuid_in (Agent.ID a)) ∧ is_Some (uuid_in (Agent.OwnerID a)) ∧
  agents db !! canon (Agent.ID a) = None ∧ canon (Agent.OwnerID a) ∈ users db ∧
  name_free (canon (Agent.ID a)) (canon (Agent.OwnerID a)) (Agent.Name a) db = true ∧
  db' = mk (users db)
           (<[canon (Agent.ID a) := agent_row a (timestamptz (Agent.CreatedAt a))]> (agents db))
           (agent_versions db) (conversations db) (messages db) (executions db)
           (execution_steps db).
Proof.
  unfold insert_agent. intros Hs. statement Hs. columns. injection Hs as <-.
  split_and!; by try eexists.
Qed.

Lemma insert_version_Ok a tools db db' :
  insert_version a tools db = Ok db' →
  is_Some (agents db !! canon (Agent.ID a)) ∧
  agent_versions db !! (canon (Agent.ID a), Agent.Version a) = None ∧
  temperature_ok (Agent.Temperature a) = true ∧ 0 < Agent.MaxTokens a ∧
  ∃ kept, jsonb tools = Some kept ∧
  db' = mk (users db) (agents db)
           (<[(canon (Agent.ID a), Agent.Version a) :=
                VersionRow.mk (Agent.SystemPrompt a) (Agent.Model a) (Agent.Temperature a)
                              (Agent.MaxTokens a) kept]> (agent_versions db))
           (conversations db) (messages db) (executions db) (execution_steps db).
Proof.
  unfold insert_version, json_column. intros Hs. statement Hs. columns.
  destruct (jsonb tools) as [kept|] eqn:Ek; [|discriminate]. simplify_eq.
  split_and!; try done; [by apply Z.ltb_lt|]. eauto.
Qed.

Lemma update_agent_Ok a db n db' :
  update_agent a db = Ok (n, db') →
  is_Some (uuid_in (Agent.ID a)) ∧ is_Some (uuid_in (Agent.OwnerID a)) ∧
  (n = 0 ∧ db' = db ∨ n = 1 ∧ ∃ row, agents db !! canon (Agent.ID a) = Some row ∧
     AgentRow.owner_id row = canon (Agent.OwnerID a) ∧
     name_free (canon (Agent.ID a)) (canon (Agent.OwnerID a)) (Agent.Name a) db = true ∧
     db' = mk (users db)
              (<[canon (Agent.ID a) := agent_row a (AgentRow.created_at row)]> (agents db))
              (agent_versions db) (conversations db) (messages db) (executions db)
              (execution_steps db)).
Proof.
  unfold update_agent. intros Hs. statement Hs; columns; simplify_eq;
    (split; [by eexists|]; split; [by eexists|]); [|by left..].
  right. split; [done|]. by eexists.
Qed.

(** The names of tools are written as a JSON array and come back, up to invalid bytes. *)
Lemma encode_tools_reads tools :
  ∃ raw js, parse_json (Postgres.encode_tools tools) = Some (JArray raw js) ∧
            erase <$> js = VString ∘ clean <$> tools.
Proof.
  destruct (reads_parse (reads_array 0 (print_string <$> tools) (is_text <$> tools)
    ltac:(done) ltac:(apply Forall2_fmap, Forall_Forall2_diag, Forall_true; intros; apply reads_string)))
    as (j & Hj & raw & js & -> & Hjs).
  exists raw, js. split; [done|]. clear Hj. revert js Hjs.
  induction tools as [|s tools IH]; intros js Hjs; inv Hjs; [done|].
  simpl. f_equal; [|by apply IH]. by match goal with H : is_text _ _ |- _ => destruct H as [? ->] end.
Qed.

Lemma decode_strings_erased raw js tools :
  erase <$> js = VString <$> tools → decode_strings (JArray raw js) [] = Ok tools.
Proof.
  revert tools. simpl. induction js as [|j js IH]; intros [|s tools] E; try discriminate; [done|].
  injection E as E1 E2. destruct j; try discriminate. injection E1 as ->.
  simpl. by rewrite (IH _ E2).
Qed.

Lemma tools_kept tools kept :
  jsonb (Postgres.encode_tools tools) = Some kept →
  ∃ j, parse_json kept = Some j ∧ decode_strings j [] = Ok (clean <$> tools).
Proof.
  intros Hk. destruct (encode_tools_reads tools) as (raw & js & Hp & He).
  destruct (jsonb_strings _ kept _ _ Hp) as (raw' & js' & Hp' & He'); [|done|].
  { apply (Forall_fmap erase (λ v, ∃ t, v = VString t)). rewrite He. apply Forall_fmap, Forall_true.
    intros t. by exists (clean t). }
  exists (JArray raw' js'). split; [done|]. apply decode_strings_erased.
  by rewrite He', He, <- list_fmap_compose.
Qed.

(** An agent as the tables keep it; [created] is the creation time in its row. *)
Definition stored_agent (a : Agent.t) (created : time) : Agent.t :=
  Agent.mk (canon (Agent.ID a)) (canon (Agent.OwnerID a)) (Agent.Name a) (Agent.Description a)
    (Agent.SystemPrompt a) (Agent.Model a) (Agent.Temperature a) (Agent.MaxTokens a)
    (clean <$> Agent.Tools a) (Agent.Version a) created (timestamptz (Agent.UpdatedAt a)).

Lemma get_agent_found c a created kept db :
  fault c 0 = None → is_Some (uuid_in (Agent.OwnerID a)) → is_Some (uuid_in (Agent.ID a)) →
  agents db !! canon (Agent.ID a) = Some (agent_row a created) →
  agent_versions db !! (canon (Agent.ID a), Agent.Version a) =
    Some (VersionRow.mk (Agent.SystemPrompt a) (Agent.Model a) (Agent.Temperature a)
                        (Agent.MaxTokens a) kept) →
  jsonb (Postgres.encode_tools (Agent.Tools a)) = Some kept →
  Postgres.GetAgent c (Agent.OwnerID a) (Agent.ID a) db = Ok (stored_agent a created).
Proof.
  intros Hf [o Ho] [i Hi] Ha Hv Hk. destruct (tools_kept _ _ Hk) as (j & Hj & Hd).
  unfold Postgres.GetAgent, Postgres.query_row, Postgres.Query, select_agent, uuid.
  rewrite Hf, Ho, Hi. cbn [mbind result_bind].
  assert (canon (Agent.ID a) = i) as Ei by (unfold canon; by rewrite Hi).
  assert (canon (Agent.OwnerID a) = o) as Eo by (unfold canon; by rewrite Ho).
  rewrite Ei in Ha, Hv. rewrite Ha. cbn [mbind option_bind agent_row AgentRow.owner_id].
  rewrite Eo, decide_True by done. cbn [AgentRow.current_version agent_row]. rewrite Hv.
  cbn [mbind option_bind]. unfold Postgres.scan_agent. cbn [VersionRow.tool_names]. rewrite Hj, Hd.
  unfold stored_agent, agent_row. by rewrite Ei, Eo.
Qed.

(** The transactions that commit. *)
Lemma commit_Ok c n tx db db' : Postgres.commit c n tx db = (None, db') → db' = tx.
Proof. unfold Postgres.commit. destruct (fault c n) as [[]|]; congruence. Qed.

Lemma create_agent_Ok c a db db' :
  Postgres.CreateAgent c a db = (None, db') →
  ∃ tx, insert_agent a db = Ok tx ∧
        insert_version a (Postgres.encode_tools (Agent.Tools a)) tx = Ok db'.
Proof.
  unfold Postgres.CreateAgent, Postgres.tx_exec. repeat case_match; simplify_eq/=; try done.
  intros E. match goal with H : Postgres.commit _ _ _ _ = (?o, _) |- _ => destruct o; [done|] end.
  injection E as <-. match goal with H : Postgres.commit _ _ _ _ = _ |- _ => apply commit_Ok in H as -> end.
  eauto.
Qed.

Lemma update_agent_committed c a db db' :
  Postgres.UpdateAgent c a db = (None, db') →
  ∃ n tx, update_agent a db = Ok (n, tx) ∧ n ≠ 0 ∧
          insert_version a (Postgres.encode_tools (Agent.Tools a)) tx = Ok db'.
Proof.
  unfold Postgres.UpdateAgent, Postgres.tx_exec. repeat case_match; simplify_eq/=; try done.
  intros ->%commit_Ok. eexists _, _. split_and!; [done|by apply Z.eqb_neq|done].
Qed.

(** C23: Agents are read back as they were written: after a [CreateAgent] or an [UpdateAgent] that
    succeeded, [GetAgent] returns the agent with all its fields, the version and the tools
    included, up to the canonical form of identifiers, the precision of times and invalid
    bytes in the names of tools; an update keeps the creation time that was stored. *)
Theorem postgres_agent_roundtrip c c' a db db' :
  fault c' 0 = None →
  (Postgres.CreateAgent c a db = (None, db') →
   Postgres.GetAgent c' (Agent.OwnerID a) (Agent.ID a) db' =
     Ok (stored_agent a (timestamptz (Agent.CreatedAt a)))) ∧
  (Postgres.UpdateAgent c a db = (None, db') →
   ∃ row, agents db !! canon (Agent.ID a) = Some row ∧
     AgentRow.owner_id row = canon (Agent.OwnerID a) ∧
     Postgres.GetAgent c' (Agent.OwnerID a) (Agent.ID a) db' =
       Ok (stored_agent a (AgentRow.created_at row))).
Proof.
  intros Hf. split.
  - intros (tx & Ha & Hv)%create_agent_Ok.
    apply insert_agent_Ok in Ha as (Hi & Ho & _ & _ & _ & ->).
    apply insert_version_Ok in Hv as (_ & _ & _ & _ & kept & Hk & ->).
    eapply get_agent_found; try done; apply lookup_insert_eq.
  - intros (n & tx & Ha & Hn & Hv)%update_agent_committed.
    apply update_agent_Ok in Ha as (Hi & Ho & [[-> _]|(_ & row & Hrow & Hown & _ & ->)]); [done|].
    apply insert_version_Ok in Hv as (_ & _ & _ & _ & kept & Hk & ->).
    exists row. split_and!; [done..|]. eapply get_agent_found; try done; apply lookup_insert_eq.
Qed.
End facts.
