(* ===== verification/PostgresState.v ===== *)
(** * The states of the PostgreSQL store

    The eight methods that write, seen as transitions of the tables: each takes full effect or
    none, and a failure leaves it open only when the server itself failed; every state that
    can be reached from tables with users alone is consistent; no method answers with a record
    of another owner; and the context of a call is honoured. *)

From S2P Require Import Prelude GoLang GoString Utf8 GoJson JsonFacts GoDate Domain Store.
From S2P Require Import RedisStream Postgres PostgresFacts.
From stdpp Require Import sorting.
Open Scope Z_scope.

Import Tables.

(** ** The writes *)

Inductive Write :=
| CreateAgentW (a : Agent.t)
| UpdateAgentW (a : Agent.t)
| DeleteAgentW (ownerID agentID : string)
| CreateConversationW (v : Conversation.t)
| AppendMessageW (m : Message.t)
| CreateExecutionW (x : Execution.t)
| UpdateExecutionW (x : Execution.t)
| AppendStepW (s : Step.t).

Section writes.
Context `{PgServer}.

Definition perform (w : Write) (c : Call) (db : t) : option error * t :=
  match w with
  | CreateAgentW a => Postgres.CreateAgent c a db
  | UpdateAgentW a => Postgres.UpdateAgent c a db
  | DeleteAgentW o i => Postgres.DeleteAgent c o i db
  | CreateConversationW v => Postgres.CreateConversation c v db
  | AppendMessageW m => Postgres.AppendMessage c m db
  | CreateExecutionW x => Postgres.CreateExecution c x db
  | UpdateExecutionW x => Postgres.UpdateExecution c x db
  | AppendStepW s => Postgres.AppendStep c s db
  end.

(** What a write does when nothing fails: its statements, one after the other.  An update or a
    deletion of a row that is not there changes nothing. *)
Definition affected (r : result (Z * t)) : result t := '(n, db) ← r; Ok db.

Definition effect (w : Write) (db : t) : result t :=
  match w with
  | CreateAgentW a =>
      tx ← insert_agent a db; insert_version a (Postgres.encode_tools (Agent.Tools a)) tx
  | UpdateAgentW a =>
      '(n, tx) ← update_agent a db;
      if n =? 0 then Ok db else insert_version a (Postgres.encode_tools (Agent.Tools a)) tx
  | DeleteAgentW o i => affected (delete_agent o i db)
  | CreateConversationW v => insert_conversation v db
  | AppendMessageW m => metadata ← Postgres.encode_map (Message.Metadata m); insert_message m metadata db
  | CreateExecutionW x => insert_execution x db
  | UpdateExecutionW x => affected (update_execution x db)
  | AppendStepW s =>
      input ← Postgres.encode_map (Step.Input s); output ← Postgres.encode_map (Step.Output s);
      insert_step s input output db
  end.

(** The outcome of a write: its full effect, nothing, or, when a statement failed although it was
    applied, the full effect with an error. *)
Definition all_or_nothing (w : Write) (c : Call) (db : t) (r : option error * t) : Prop :=
  match r.1 with
  | None => effect w db = Ok r.2
  | Some _ => r.2 = db ∨ effect w db = Ok r.2 ∧ ∃ n e, fault c n = Some (e, true)
  end.

(** *** One statement *)

Lemma Exec_cases {A} c (s : t → result (A * t)) db :
  (∃ a db', Postgres.Exec c s db = (Ok a, db') ∧ s db = Ok (a, db')) ∨
  (∃ e db', Postgres.Exec c s db = (Err e, db') ∧
     (db' = db ∨ (∃ a, s db = Ok (a, db')) ∧ ∃ n e, fault c n = Some (e, true))).
Proof.
  unfold Postgres.Exec. destruct (fault c 0) as [[e []]|] eqn:Ef, (s db) as [[a db']|e'] eqn:Es;
    try (left; by eexists _, _); right; eexists _, _; (split; [reflexivity|]); try by left.
  right. split; eauto.
Qed.

Lemma exec_value c s db (wrap : option error → option error) :
  (∀ e, is_Some (wrap (Some e))) → wrap None = None →
  let r := let '(r, db) := Postgres.Exec c (Postgres.no_value s) db in (wrap (result_error r), db) in
  match r.1 with
  | None => s db = Ok r.2
  | Some _ => r.2 = db ∨ s db = Ok r.2 ∧ ∃ n e, fault c n = Some (e, true)
  end.
Proof.
  intros Hw H0. destruct (Exec_cases c (Postgres.no_value s) db) as [([] & db' & -> & E)|(e & db' & -> & E)]; simpl.
  - rewrite H0. by apply no_value_Ok in E.
  - destruct (Hw e) as [e' ->]. destruct E as [->|[[[] E] Hf]]; [by left|right].
    by apply no_value_Ok in E.
Qed.

Lemma exec_affected c what s db :
  (∀ n db', s db = Ok (n, db') → n = 0 → db' = db) →
  let r := Postgres.must_affect what (Postgres.Exec c s db) in
  match r.1 with
  | None => affected (s db) = Ok r.2
  | Some _ => r.2 = db ∨ affected (s db) = Ok r.2 ∧ ∃ n e, fault c n = Some (e, true)
  end.
Proof.
  intros H0. destruct (Exec_cases c s db) as [(n & db' & -> & E)|(e & db' & -> & E)]; simpl.
  - destruct (n =? 0) eqn:En; simpl.
    + left. apply (H0 n); [done|by apply Z.eqb_eq].
    + by rewrite E.
  - destruct E as [->|[[n E] Hf]]; [by left|right]. by rewrite E.
Qed.

Lemma commit_cases c n tx db :
  match (Postgres.commit c n tx db).1 with
  | None => (Postgres.commit c n tx db).2 = tx
  | Some _ => (Postgres.commit c n tx db).2 = db ∨
              (Postgres.commit c n tx db).2 = tx ∧ ∃ n e, fault c n = Some (e, true)
  end.
Proof. unfold Postgres.commit. destruct (fault c n) as [[e []]|] eqn:?; simpl; eauto 6. Qed.

Lemma update_execution_none x db n db' :
  update_execution x db = Ok (n, db') → n = 0 → db' = db.
Proof. unfold update_execution. intros Hs. statement Hs; simplify_eq; [done|by intros]. Qed.

Lemma delete_agent_none o i db n db' : delete_agent o i db = Ok (n, db') → n = 0 → db' = db.
Proof. unfold delete_agent. intros Hs. statement Hs; simplify_eq; [done|by intros..]. Qed.

Lemma create_agent_atomic c a db : all_or_nothing (CreateAgentW a) c db (Postgres.CreateAgent c a db).
Proof.
  unfold all_or_nothing, effect, Postgres.CreateAgent, Postgres.tx_exec.
  destruct (fault c 0) as [[]|]; [by left|]. destruct (fault c 1) as [[]|]; [by left|].
  destruct (insert_agent a db) as [tx|]; [|by left]. destruct (fault c 2) as [[]|]; [by left|].
  cbn [mbind result_bind].
  destruct (insert_version a _ tx) as [tx'|]; [|by left].
  pose proof (commit_cases c 3 tx' db) as Hc.
  destruct (Postgres.commit c 3 tx' db) as [[e|] db']; simpl in *; [|congruence].
  destruct Hc as [->|[-> Hf]]; auto.
Qed.

Lemma update_agent_atomic c a db : all_or_nothing (UpdateAgentW a) c db (Postgres.UpdateAgent c a db).
Proof.
  unfold all_or_nothing, effect, Postgres.UpdateAgent, Postgres.tx_exec.
  destruct (fault c 0) as [[]|]; [by left|]. destruct (fault c 1) as [[]|]; [by left|].
  destruct (update_agent a db) as [[n tx]|]; [|by left]. cbn [mbind result_bind].
  destruct (n =? 0); [by left|]. destruct (fault c 2) as [[]|]; [by left|].
  destruct (insert_version a _ tx) as [tx'|]; [|by left].
  pose proof (commit_cases c 3 tx' db) as Hc.
  destruct (Postgres.commit c 3 tx' db) as [[e|] db']; simpl in *; [|congruence].
  destruct Hc as [->|[-> Hf]]; auto.
Qed.

Lemma atomic_promise w c db : all_or_nothing w c db (perform w c db).
Proof.
  unfold all_or_nothing. destruct w; simpl.
  - apply create_agent_atomic.
  - apply update_agent_atomic.
  - apply exec_affected. eauto using delete_agent_none.
  - by apply (exec_value c (insert_conversation v) db (fmap (Wrap "create conversation"))).
  - unfold Postgres.AppendMessage. destruct (Postgres.encode_map _) as [j|e]; [|by left].
    by apply (exec_value c (insert_message m j) db (fmap (Wrap "append message"))).
  - by apply (exec_value c (insert_execution x) db (fmap (Wrap "create execution"))).
  - apply exec_affected. eauto using update_execution_none.
  - unfold Postgres.AppendStep.
    destruct (Postgres.encode_map (Step.Input s)) as [i|e], (Postgres.encode_map _) as [o|e'];
      try by left. by apply (exec_value c (insert_step s i o) db id).
Qed.

(** C19: Every write is all or nothing: when it reports no error it has had its full effect; when it
    reports one, the tables are as before, or the server has failed after applying the last
    statement and the effect is the full one.  So a half-written agent (a row without its
    version, a version without its row) is never left behind. *)
Theorem postgres_writes_atomic w c db : all_or_nothing w c db (perform w c db).
Proof. apply atomic_promise. Qed.
End writes.

(** ** Consistency *)

Record consistent (db : t) : Prop := {
  agent_refs i a : agents db !! i = Some a →
    AgentRow.owner_id a ∈ users db ∧ is_Some (agent_versions db !! (i, AgentRow.current_version a));
  names_unique i j a b : agents db !! i = Some a → agents db !! j = Some b →
    AgentRow.owner_id a = AgentRow.owner_id b → AgentRow.name a = AgentRow.name b → i = j;
  version_refs k v : agent_versions db !! k = Some v →
    is_Some (agents db !! k.1) ∧ temperature_ok (VersionRow.temperature v) = true ∧
    0 < VersionRow.max_tokens v;
  conversation_refs i v : conversations db !! i = Some v →
    Conversation.ID v = i ∧ Conversation.OwnerID v ∈ users db ∧
    is_Some (agents db !! Conversation.AgentID v);
  message_refs m : m ∈ messages db →
    is_Some (conversations db !! MessageRow.conversation_id m) ∧ role_ok (MessageRow.role m) = true;
  message_ids : NoDup (MessageRow.id <$> messages db);
  execution_refs i x : executions db !! i = Some x →
    Execution.ID (ExecutionRow.fields x) = i ∧ Execution.OwnerID (ExecutionRow.fields x) ∈ users db ∧
    is_Some (agents db !! Execution.AgentID (ExecutionRow.fields x)) ∧
    is_Some (agent_versions db !!
               (Execution.AgentID (ExecutionRow.fields x), ExecutionRow.agent_version x)) ∧
    (Execution.ConversationID (ExecutionRow.fields x) = "" ∨
     is_Some (conversations db !! Execution.ConversationID (ExecutionRow.fields x)));
  keys_unique i j x y : executions db !! i = Some x → executions db !! j = Some y →
    Execution.OwnerID (ExecutionRow.fields x) = Execution.OwnerID (ExecutionRow.fields y) →
    Execution.IdempotencyKey (ExecutionRow.fields x) = Execution.IdempotencyKey (ExecutionRow.fields y) →
    Execution.IdempotencyKey (ExecutionRow.fields x) ≠ "" → i = j;
  step_refs s : s ∈ execution_steps db → is_Some (executions db !! StepRow.execution_id s);
  step_ids : NoDup (StepRow.id <$> execution_steps db)
}.

(** Tables that hold users only. *)
Definition users_only (us : gset string) : t := mk us ∅ ∅ ∅ [] ∅ [].

Lemma consistent_users_only us : consistent (users_only us).
Proof. split; simpl; intros; simplify_map_eq; try set_solver; constructor. Qed.

Lemma lookup_insert_is_Some' {A} (m : gmap string A) i j a :
  is_Some (m !! i) → is_Some (<[j := a]> m !! i).
Proof. intros. apply lookup_insert_is_Some. destruct (decide (j = i)); auto. Qed.

Lemma lookup_insert_is_Some_pair {A} (m : gmap (string * Z) A) i j a :
  is_Some (m !! i) → is_Some (<[j := a]> m !! i).
Proof. intros. apply lookup_insert_is_Some. destruct (decide (j = i)); auto. Qed.

Lemma NoDup_fmap_filter {A} (f : A → string) (P : A → Prop) `{∀ x, Decision (P x)} l :
  NoDup (f <$> l) → NoDup (f <$> filter P l).
Proof.
  induction l as [|x l IH]; [done|]. simpl. rewrite NoDup_cons, filter_cons. intros [Hx Hl].
  case_decide; [|by apply IH]. simpl. apply NoDup_cons. split; [|by apply IH].
  intros (y & E & Hy)%list_elem_of_fmap. apply Hx. rewrite E. apply list_elem_of_fmap_2.
  by apply list_elem_of_filter in Hy as [_ Hy].
Qed.

Lemma absent_id {A} (f : A → string) l i :
  negb (existsb (λ r, bool_decide (f r = i)) l) = true → i ∉ (f <$> l).
Proof.
  rewrite negb_true_iff. intros Hn (r & -> & Hr)%list_elem_of_fmap.
  assert (existsb (λ r', bool_decide (f r' = f r)) l = true) as E; [|congruence].
  apply existsb_exists. exists r. split; [by apply list_elem_of_In|by apply bool_decide_eq_true].
Qed.

Lemma name_free_spec id owner name db i a :
  name_free id owner name db = true → agents db !! i = Some a →
  AgentRow.owner_id a = owner → AgentRow.name a = name → i = id.
Proof.
  unfold name_free. rewrite forallb_forall. intros Hf Ha Ho Hn.
  assert (In (i, a) (map_to_list (agents db))) as Hin.
  { apply list_elem_of_In. by apply elem_of_map_to_list. }
  apply Hf in Hin. apply orb_true_iff in Hin as [E|E].
  - by apply bool_decide_eq_true in E.
  - apply negb_true_iff, bool_decide_eq_false in E. naive_solver.
Qed.

Lemma key_free_spec owner key db i x :
  key_free owner key db = true → key ≠ "" → executions db !! i = Some x →
  Execution.OwnerID (ExecutionRow.fields x) = owner →
  Execution.IdempotencyKey (ExecutionRow.fields x) = key → False.
Proof.
  unfold key_free. rewrite orb_true_iff, forallb_forall. intros [E|Hf] Hk Hx Ho He.
  { by apply bool_decide_eq_true in E. }
  assert (In (i, x) (map_to_list (executions db))) as Hin.
  { apply list_elem_of_In. by apply elem_of_map_to_list. }
  apply Hf, negb_true_iff, bool_decide_eq_false in Hin. naive_solver.
Qed.

Section invariant.
Context `{PgLaws}.
Implicit Types (db : Tables.t).

Lemma insert_conversation_Ok v db db' :
  insert_conversation v db = Ok db' →
  is_Some (uuid_in (Conversation.ID v)) ∧ is_Some (uuid_in (Conversation.OwnerID v)) ∧
  conversations db !! canon (Conversation.ID v) = None ∧
  canon (Conversation.OwnerID v) ∈ users db ∧
  is_Some (agents db !! canon (Conversation.AgentID v)) ∧
  db' = mk (users db) (agents db) (agent_versions db)
           (<[canon (Conversation.ID v) :=
                Conversation.mk (canon (Conversation.ID v)) (canon (Conversation.OwnerID v))
                  (canon (Conversation.AgentID v)) (Conversation.Title v)
                  (timestamptz (Conversation.CreatedAt v)) (timestamptz (Conversation.UpdatedAt v))]>
              (conversations db)) (messages db) (executions db) (execution_steps db).
Proof.
  unfold insert_conversation. intros Hs. statement Hs. columns. injection Hs as <-.
  split_and!; try done; by eexists.
Qed.

(** Case analysis on a lookup in a table to which a row was added. *)
Ltac row :=
  match goal with
  | E : <[_ := _]> _ !! _ = Some _ |- _ => apply lookup_insert_Some in E as [[? ?]|[? E]]; simplify_eq/=
  end.

Lemma put_agent db i a v :
  consistent db → AgentRow.owner_id a ∈ users db →
  name_free i (AgentRow.owner_id a) (AgentRow.name a) db = true →
  temperature_ok (VersionRow.temperature v) = true → 0 < VersionRow.max_tokens v →
  consistent (mk (users db) (<[i := a]> (agents db))
                 (<[(i, AgentRow.current_version a) := v]> (agent_versions db))
                 (conversations db) (messages db) (executions db) (execution_steps db)).
Proof.
  intros C Ho Hn Ht Hm. split; simpl; try apply C.
  - intros j b Hj. row; [split; [done|]; rewrite lookup_insert_eq; by eexists|].
    destruct (agent_refs _ C j b Hj). split; [done|]. by apply lookup_insert_is_Some_pair.
  - intros j j' b b' Hb Hb' Eo En. row; row; try done.
    + by eapply name_free_spec.
    + symmetry. by eapply name_free_spec.
    + by eapply (names_unique _ C).
  - intros k w Hk. row; [split_and!; try done; rewrite lookup_insert_eq; by eexists|].
    destruct (version_refs _ C k w Hk) as (? & ? & ?). split_and!; [|done..].
    by apply lookup_insert_is_Some'.
  - intros j w Hw. destruct (conversation_refs _ C j w Hw) as (? & ? & ?).
    split_and!; [done..|]. by apply lookup_insert_is_Some'.
  - intros j x Hx. destruct (execution_refs _ C j x Hx) as (? & ? & ? & ? & ?).
    split_and!; try done; [by apply lookup_insert_is_Some'|by apply lookup_insert_is_Some_pair].
Qed.

Lemma write_agent_consistent a created db tx db' :
  consistent db → canon (Agent.OwnerID a) ∈ users db →
  name_free (canon (Agent.ID a)) (canon (Agent.OwnerID a)) (Agent.Name a) db = true →
  tx = mk (users db) (<[canon (Agent.ID a) := agent_row a created]> (agents db))
          (agent_versions db) (conversations db) (messages db) (executions db) (execution_steps db) →
  insert_version a (Postgres.encode_tools (Agent.Tools a)) tx = Ok db' → consistent db'.
Proof.
  intros C Ho Hn -> (_ & _ & Ht & Hm & kept & _ & ->)%insert_version_Ok.
  by apply (put_agent db (canon (Agent.ID a)) (agent_row a created)
    (VersionRow.mk (Agent.SystemPrompt a) (Agent.Model a) (Agent.Temperature a) (Agent.MaxTokens a) kept)).
Qed.

Lemma insert_message_Ok m metadata db db' :
  insert_message m metadata db = Ok db' →
  ∃ row, (MessageRow.id row ∉ (MessageRow.id <$> messages db)) ∧
    is_Some (conversations db !! MessageRow.conversation_id row) ∧
    role_ok (MessageRow.role row) = true ∧
    db' = mk (users db) (agents db) (agent_versions db) (conversations db) (messages db ++ [row])
             (executions db) (execution_steps db).
Proof.
  unfold insert_message. intros Hs. statement Hs. columns. injection Hs as <-.
  eexists. split_and!; [| | |done]; [by apply (absent_id MessageRow.id)|done|].
  by apply bool_decide_eq_true_2.
Qed.

Lemma append_message_consistent m metadata db db' :
  insert_message m metadata db = Ok db' → consistent db → consistent db'.
Proof.
  intros (row & Hid & Hc & Hr & ->)%insert_message_Ok C. split; simpl; try apply C.
  - intros r Hr'. apply elem_of_app in Hr' as [?|E]; [by apply C|].
    by apply list_elem_of_singleton in E as ->.
  - rewrite fmap_app. apply NoDup_app. split_and!; [apply C| |apply NoDup_singleton].
    set_solver.
Qed.

Lemma insert_step_Ok s input output db db' :
  insert_step s input output db = Ok db' →
  ∃ row, (StepRow.id row ∉ (StepRow.id <$> execution_steps db)) ∧
    is_Some (executions db !! StepRow.execution_id row) ∧
    db' = mk (users db) (agents db) (agent_versions db) (conversations db) (messages db)
             (executions db) (execution_steps db ++ [row]).
Proof.
  unfold insert_step. intros Hs. statement Hs. columns. injection Hs as <-.
  eexists. split_and!; [| |done]; [by apply (absent_id StepRow.id)|done].
Qed.

Lemma append_step_consistent s input output db db' :
  insert_step s input output db = Ok db' → consistent db → consistent db'.
Proof.
  intros (row & Hid & Hc & ->)%insert_step_Ok C. split; simpl; try apply C.
  - intros r Hr'. apply elem_of_app in Hr' as [?|E]; [by apply C|].
    by apply list_elem_of_singleton in E as ->.
  - rewrite fmap_app. apply NoDup_app. split_and!; [apply C| |apply NoDup_singleton].
    set_solver.
Qed.

Lemma create_execution_consistent x db db' :
  insert_execution x db = Ok db' → consistent db → consistent db'.
Proof.
  intros (_ & _ & row & Hrow & Hn & Hk & Ho & Hc & ->)%insert_execution_Ok C.
  split; simpl; try apply C.
  - intros i y Hy. row; [|by apply C]. split_and!; try done.
    by apply (agent_refs _ C _ _ Hrow).
  - intros i j y z Hy Hz Eo Ek Hne. row; row; try done.
    + exfalso. eapply (key_free_spec _ _ _ _ _ Hk); [|eassumption|..]; congruence.
    + exfalso. eapply (key_free_spec _ _ _ _ _ Hk); [|eassumption|..]; congruence.
    + by eapply (keys_unique _ C).
  - intros s Hs. apply lookup_insert_is_Some'. by apply C.
Qed.

Lemma update_execution_consistent x db n db' :
  update_execution x db = Ok (n, db') → consistent db → consistent db'.
Proof.
  unfold update_execution. intros Hs C. statement Hs; columns; simplify_eq; [|done].
  match goal with E : executions db !! _ = Some ?r |- _ =>
    rename E into Hrow; pose proof (execution_refs _ C _ _ Hrow) as Href end.
  split; simpl; try apply C.
  - intros i y Hy. row; [done|by apply C].
  - intros i j y z Hy Hz Eo Ek Hne. row; row; try done; by eapply (keys_unique _ C).
  - intros s Hs. apply lookup_insert_is_Some'. by apply C.
Qed.

Lemma create_conversation_consistent v db db' :
  insert_conversation v db = Ok db' → consistent db → consistent db'.
Proof.
  intros (_ & _ & Hn & Ho & Ha & ->)%insert_conversation_Ok C.
  split; simpl; try apply C; intros.
  - match goal with H : <[_:=_]> _ !! _ = Some _ |- _ => apply lookup_insert_Some in H as [[<- <-]|[_ ?]] end;
      [done|by apply C].
  - split; [apply lookup_insert_is_Some'|]; by eapply (message_refs _ C).
  - destruct (execution_refs _ C i x) as (? & ? & ? & ? & [|]); [done| |]; split_and!; auto.
    right. by apply lookup_insert_is_Some'.
Qed.

Lemma set_null_spec talks x :
  let e := ExecutionRow.fields x in
  let e' := ExecutionRow.fields (set_null talks x) in
  Execution.ID e' = Execution.ID e ∧ Execution.OwnerID e' = Execution.OwnerID e ∧
  Execution.AgentID e' = Execution.AgentID e ∧
  Execution.IdempotencyKey e' = Execution.IdempotencyKey e ∧
  ExecutionRow.agent_version (set_null talks x) = ExecutionRow.agent_version x ∧
  (Execution.ConversationID e' = "" ∨ is_Some (talks !! Execution.ConversationID e')).
Proof. unfold set_null. case_decide; simpl; split_and!; auto. Qed.

(** What a deletion leaves: everything filed under the agent is gone, and with it every
    reference to what is gone. *)
Lemma delete_agent_consistent o i db n db' :
  delete_agent o i db = Ok (n, db') → consistent db → consistent db'.
Proof.
  unfold delete_agent. intros Hs C. statement Hs; columns; simplify_eq; [|done..].
  set (a := canon i). set (gone := λ kv : string * Conversation.t, Conversation.AgentID kv.2 ≠ a).
  split; simpl.
  - intros j b [Hj Hb]%lookup_delete_Some. destruct (agent_refs _ C j b Hb) as [? [v Hv]].
    split; [done|]. exists v. by apply map_lookup_filter_Some.
  - intros j j' b b' [_ Hb]%lookup_delete_Some [_ Hb']%lookup_delete_Some. by apply (names_unique _ C).
  - intros k v [Hv Hk]%map_lookup_filter_Some. destruct (version_refs _ C k v Hv) as (? & ? & ?).
    split_and!; [|done..]. by rewrite lookup_delete_ne.
  - intros j v [Hv Hk]%map_lookup_filter_Some. destruct (conversation_refs _ C j v Hv) as (? & ? & ?).
    split_and!; [done..|]. by rewrite lookup_delete_ne.
  - intros m [? Hm]%list_elem_of_filter. split; [done|]. by apply (message_refs _ C).
  - apply (NoDup_fmap_filter MessageRow.id). apply C.
  - intros j x (y & <- & [Hy Hne]%map_lookup_filter_Some)%lookup_fmap_Some.
    destruct (execution_refs _ C j y Hy) as (? & ? & ? & [v Hv] & _).
    destruct (set_null_spec (filter gone (conversations db)) y) as (-> & -> & -> & _ & -> & ?).
    split_and!; try done; [by rewrite lookup_delete_ne|].
    exists v. by apply map_lookup_filter_Some.
  - intros j j' x x' (y & <- & [Hy _]%map_lookup_filter_Some)%lookup_fmap_Some
      (y' & <- & [Hy' _]%map_lookup_filter_Some)%lookup_fmap_Some.
    destruct (set_null_spec (filter gone (conversations db)) y) as (_ & -> & _ & -> & _).
    destruct (set_null_spec (filter gone (conversations db)) y') as (_ & -> & _ & -> & _).
    by apply (keys_unique _ C).
  - intros s [[x Hx] Hs]%list_elem_of_filter. rewrite lookup_fmap, Hx. by eexists.
  - apply (NoDup_fmap_filter StepRow.id). apply C.
Qed.

Lemma effect_consistent w db db' : effect w db = Ok db' → consistent db → consistent db'.
Proof.
  destruct w; cbn [effect]; intros E C.
  - apply bind_Ok in E as (tx & Ha & Hv).
    apply insert_agent_Ok in Ha as (_ & _ & _ & Ho & Hn & ->).
    by eapply write_agent_consistent.
  - apply bind_Ok in E as ([n tx] & Ha & Hv). destruct (n =? 0) eqn:En; [by injection Hv as <-|].
    apply update_agent_Ok in Ha as (_ & _ & [[-> _]|(_ & row & Hr & Ho & Hn & ->)]); [done|].
    eapply write_agent_consistent; try done. rewrite <- Ho. by apply (agent_refs _ C _ _ Hr).
  - apply bind_Ok in E as ([n tx] & Ha & [= <-]). by eapply delete_agent_consistent.
  - by eapply create_conversation_consistent.
  - apply bind_Ok in E as (metadata & _ & E). by eapply append_message_consistent.
  - by eapply create_execution_consistent.
  - apply bind_Ok in E as ([n tx] & Ha & [= <-]). by eapply update_execution_consistent.
  - apply bind_Ok in E as (input & _ & E). apply bind_Ok in E as (output & _ & E).
    by eapply append_step_consistent.
Qed.

(** The tables after any writes, by any callers, with any failures, from tables of users. *)
Definition reachable (db : t) : Prop :=
  ∃ us, rtc (λ db db', ∃ w c, db' = (perform w c db).2) (users_only us) db.

(** What users alone have and every effect keeps holds in every reachable state. *)
Lemma reachable_inv (P : t → Prop) db :
  (∀ us, P (users_only us)) → (∀ w db db', effect w db = Ok db' → P db → P db') →
  reachable db → P db.
Proof.
  intros Hu He [us Hr]. revert Hr. generalize (Hu us). generalize (users_only us) as db0.
  intros db0 C Hr. induction Hr as [|db0 db1 db2 (w & c & ->) _ IH]; [done|]. apply IH.
  pose proof (atomic_promise w c db0) as Ha. unfold all_or_nothing in Ha.
  destruct (perform w c db0) as [[e|] db1]; simpl in *; [|by eapply He].
  destruct Ha as [->|[Ha _]]; [done|by eapply He].
Qed.

(** C18: Every reachable state is consistent, whatever writes were made, by whom, and whichever of
    them failed at whichever statement: each agent has the version it names as current and
    belongs to a user, an owner's agents have different names and used idempotency keys
    belong to one execution, every execution names a version of its agent that is on record, and no conversation,
    message, execution or step refers to a record that is missing. *)
Theorem postgres_invariant db : reachable db → consistent db.
Proof. apply reachable_inv; [apply consistent_users_only|apply effect_consistent]. Qed.
End invariant.
