(* ===== verification/PostgresTypes.v ===== *)
(** * The types of the PostgreSQL columns

    A row only ever holds values of the types of its columns: identifiers in canonical form, texts of
    the encoding of the database, numbers of 32 bits, instants of the precision of timestamptz.
    [effect_typed], that every write keeps this, is what [PostgresWorld] needs of it. *)

From S2P Require Import Prelude GoLang GoString Utf8 GoJson JsonFacts GoDate Domain Store.
From S2P Require Import RedisStream Postgres PostgresFacts PostgresState.
Open Scope Z_scope.

Import Tables.

Section types.
Context `{PgServer}.

Definition is_uuid (s : string) : Prop := uuid_in s = Some s.
Definition is_text_ (s : string) : Prop := text_ok s = true.
Definition is_int4 (z : Z) : Prop := - 2 ^ 31 ≤ z ≤ 2 ^ 31 - 1.
Definition is_instant (t : time) : Prop := timestamptz t = t.

(** A null is an absent time, and an empty conversation. *)
Definition or_null {A} (P : A → Prop) (x : option A) : Prop :=
  match x with Some x => P x | None => True end.

Record agent_typed (i : string) (a : AgentRow.t) : Prop := {
  _ : is_uuid i; _ : is_uuid (AgentRow.owner_id a); _ : is_text_ (AgentRow.name a);
  _ : is_text_ (AgentRow.description a); _ : is_int4 (AgentRow.current_version a);
  _ : is_instant (AgentRow.created_at a); _ : is_instant (AgentRow.updated_at a)
}.

Record version_typed (k : string * Z) (v : VersionRow.t) : Prop := {
  _ : is_uuid k.1; _ : is_int4 k.2; _ : is_text_ (VersionRow.system_prompt v);
  _ : is_text_ (VersionRow.model v); _ : is_int4 (VersionRow.max_tokens v)
}.

Record conversation_typed (i : string) (v : Conversation.t) : Prop := {
  _ : is_uuid i; _ : is_uuid (Conversation.OwnerID v); _ : is_uuid (Conversation.AgentID v);
  _ : is_text_ (Conversation.Title v); _ : is_instant (Conversation.CreatedAt v);
  _ : is_instant (Conversation.UpdatedAt v)
}.

Record message_typed (m : MessageRow.t) : Prop := {
  _ : is_uuid (MessageRow.id m); _ : is_uuid (MessageRow.conversation_id m);
  _ : is_text_ (MessageRow.role m); _ : is_text_ (MessageRow.content m);
  _ : is_text_ (MessageRow.tool_call_id m); _ : is_instant (MessageRow.created_at m)
}.

Record execution_typed (i : string) (e : Execution.t) : Prop := {
  execution_id_typed : is_uuid i; _ : is_uuid (Execution.RequestID e);
  _ : is_text_ (Execution.IdempotencyKey e); _ : is_uuid (Execution.AgentID e);
  _ : is_uuid (Execution.OwnerID e);
  _ : Execution.ConversationID e = "" ∨ is_uuid (Execution.ConversationID e);
  _ : is_text_ (Execution.Input e); _ : is_text_ (Execution.Output e);
  _ : is_text_ (Execution.Model e); _ : is_text_ (Execution.Error e);
  _ : is_int4 (Execution.RetryCount e); _ : or_null is_instant (Execution.StartedAt e);
  _ : or_null is_instant (Execution.CompletedAt e); _ : is_instant (Execution.CreatedAt e)
}.

Record step_typed (s : StepRow.t) : Prop := {
  _ : is_uuid (StepRow.id s); _ : is_uuid (StepRow.execution_id s);
  _ : is_text_ (StepRow.step_type s); _ : is_text_ (StepRow.name s);
  _ : is_text_ (StepRow.error_ s); _ : is_int4 (StepRow.retry_count s);
  _ : is_instant (StepRow.started_at s); _ : or_null is_instant (StepRow.completed_at s)
}.

(** Every row of every table. *)
Record typed (db : t) : Prop := {
  agents_typed : map_Forall agent_typed (agents db);
  versions_typed : map_Forall version_typed (agent_versions db);
  conversations_typed : map_Forall conversation_typed (conversations db);
  messages_typed : Forall message_typed (messages db);
  executions_typed : map_Forall (λ i x, execution_typed i (ExecutionRow.fields x)) (executions db);
  steps_typed : Forall step_typed (execution_steps db)
}.
End types.

Lemma users_only_typed `{PgServer} us : typed (users_only us).
Proof. split; simpl; try apply map_Forall_empty; constructor. Qed.

Section preserved.
Context `{PgLaws}.
Implicit Types (db : Tables.t).

(** A column that was read has the type of the column. *)
Lemma uuid_typed s u : uuid s = Ok u → is_uuid u.
Proof.
  unfold uuid, is_uuid. destruct (uuid_in s) eqn:E; [|done]. intros [= <-].
  by apply (uuid_canonical s).
Qed.
Lemma uuid_null_typed s u : uuid_or_null s = Ok u → u = "" ∨ is_uuid u.
Proof. unfold uuid_or_null. case_decide; [intros [= <-]; by left|]. intros E. right. by eapply uuid_typed. Qed.
Lemma text_typed s u : text s = Ok u → is_text_ u.
Proof. unfold text, is_text_. destruct (text_ok s) eqn:E; [|done]. by intros [= <-]. Qed.
Lemma int4_typed z n : int4 z = Ok n → is_int4 n.
Proof.
  unfold int4, is_int4, within. destruct (_ && _) eqn:E; [|done]. intros [= <-].
  apply andb_true_iff in E as [?%Z.leb_le ?%Z.leb_le]. lia.
Qed.
Lemma instant_typed t : is_instant (timestamptz t).
Proof. apply timestamptz_idem. Qed.
Lemma instant_null_typed (t : option time) : or_null is_instant (timestamptz <$> t).
Proof. destruct t; [apply instant_typed|done]. Qed.
End preserved.

Create HintDb columns.
#[export] Hint Resolve uuid_typed uuid_null_typed text_typed int4_typed instant_typed instant_null_typed : columns.

Section writes.
Context `{PgLaws}.
Implicit Types (db : Tables.t).

(** After a successful statement: the tables it leaves alone, and the row it has written. *)
Ltac written C :=
  split; simpl; try apply C;
  first [apply map_Forall_insert_2; [constructor; simpl; eauto with columns|by apply C]
        |apply Forall_app_2; [by apply C|apply Forall_singleton; constructor; simpl; eauto with columns]].

Lemma insert_agent_typed a db db' : insert_agent a db = Ok db' → typed db → typed db'.
Proof. unfold insert_agent. intros Hs C. statement Hs. injection Hs as <-. written C. Qed.

Lemma insert_version_typed a tools db db' : insert_version a tools db = Ok db' → typed db → typed db'.
Proof. unfold insert_version. intros Hs C. statement Hs. injection Hs as <-. written C. Qed.

Lemma insert_conversation_typed v db db' : insert_conversation v db = Ok db' → typed db → typed db'.
Proof. unfold insert_conversation. intros Hs C. statement Hs. injection Hs as <-. written C. Qed.

Lemma insert_message_typed m j db db' : insert_message m j db = Ok db' → typed db → typed db'.
Proof. unfold insert_message. intros Hs C. statement Hs. injection Hs as <-. written C. Qed.

Lemma insert_execution_typed x db db' : insert_execution x db = Ok db' → typed db → typed db'.
Proof. unfold insert_execution. intros Hs C. statement Hs. injection Hs as <-. written C. Qed.

Lemma insert_step_typed s i o db db' : insert_step s i o db = Ok db' → typed db → typed db'.
Proof. unfold insert_step. intros Hs C. statement Hs. injection Hs as <-. written C. Qed.

Lemma update_agent_typed a db n db' : update_agent a db = Ok (n, db') → typed db → typed db'.
Proof.
  unfold update_agent. intros Hs C. statement Hs; simplify_eq; try done.
  match goal with E : agents db !! _ = Some _ |- _ => destruct (agents_typed _ C _ _ E) end. written C.
Qed.

Lemma update_execution_typed x db n db' : update_execution x db = Ok (n, db') → typed db → typed db'.
Proof.
  unfold update_execution. intros Hs C. statement Hs; simplify_eq; try done.
  match goal with E : executions db !! _ = Some _ |- _ => destruct (executions_typed _ C _ _ E) end.
  written C.
Qed.

Lemma set_null_typed i talks x :
  execution_typed i (ExecutionRow.fields x) → execution_typed i (ExecutionRow.fields (set_null talks x)).
Proof. unfold set_null. case_decide; [done|]. intros []. constructor; simpl; auto. Qed.

Lemma list_filter_typed {A} (P Q : A → Prop) `{∀ x, Decision (Q x)} l : Forall P l → Forall P (filter Q l).
Proof. rewrite !Forall_forall. intros Hl x [_ Hx]%list_elem_of_filter. by apply Hl. Qed.

Lemma delete_agent_typed o i db n db' : delete_agent o i db = Ok (n, db') → typed db → typed db'.
Proof.
  unfold delete_agent. intros Hs C. statement Hs; simplify_eq; try done.
  split; simpl.
  - by apply map_Forall_delete, C.
  - intros k v [Hv _]%map_lookup_filter_Some. by apply (versions_typed _ C).
  - intros k v [Hv _]%map_lookup_filter_Some. by apply (conversations_typed _ C).
  - apply list_filter_typed, C.
  - intros j x (y & <- & [Hy _]%map_lookup_filter_Some)%lookup_fmap_Some.
    by apply set_null_typed, (executions_typed _ C).
  - apply list_filter_typed, C.
Qed.

Lemma effect_typed w db db' : effect w db = Ok db' → typed db → typed db'.
Proof.
  destruct w; cbn [effect]; intros E C.
  - apply bind_Ok in E as (tx & Ha & Hv).
    by eapply insert_version_typed, insert_agent_typed.
  - apply bind_Ok in E as ([n tx] & Ha & Hv). destruct (n =? 0); [by injection Hv as <-|].
    by eapply insert_version_typed, update_agent_typed.
  - apply bind_Ok in E as ([n tx] & Ha & [= <-]). by eapply delete_agent_typed.
  - by eapply insert_conversation_typed.
  - apply bind_Ok in E as (metadata & _ & E). by eapply insert_message_typed.
  - by eapply insert_execution_typed.
  - apply bind_Ok in E as ([n tx] & Ha & [= <-]). by eapply update_execution_typed.
  - apply bind_Ok in E as (input & _ & E). apply bind_Ok in E as (output & _ & E).
    by eapply insert_step_typed.
Qed.
End writes.
