(* ===== verification/PostgresReads.v ===== *)
(** * What the PostgreSQL store answers

    The reads: to whom the records belong that they return, which messages of a conversation
    the engine is given, in which order lists come; and that a call whose context is done has
    no effect. *)

From S2P Require Import Prelude GoLang GoString Utf8 GoJson JsonFacts GoDate Domain Store.
From S2P Require Import RedisStream Postgres PostgresFacts PostgresState.
From stdpp Require Import sorting.
Open Scope Z_scope.

Import Tables.

Section reads.
Context `{PgLaws}.
Implicit Types (db : Tables.t).

(** A read of one record that succeeds has found a row and scanned it. *)
Lemma query_row_Ok {A B} what c (s : t → result (option A)) (scan : A → result B) db b :
  Postgres.query_row what c s scan db = Ok b → ∃ row, s db = Ok (Some row) ∧ scan row = Ok b.
Proof.
  unfold Postgres.query_row, Postgres.Query. destruct (fault c 0) as [[e ?]|].
  { by destruct (Is e NoRows). }
  destruct (s db) as [[row|]|e]; [eauto|done|by destruct (Is e NoRows)].
Qed.

Lemma select_agent_Ok o i db k a v :
  select_agent o i db = Ok (Some (k, a, v)) →
  k = canon i ∧ agents db !! canon i = Some a ∧ AgentRow.owner_id a = canon o ∧
  agent_versions db !! (canon i, AgentRow.current_version a) = Some v.
Proof.
  unfold select_agent. intros Hs. statement Hs. columns. injection Hs as Hs.
  destruct (agents db !! canon i) as [a'|]; [|done]. cbn [mbind option_bind] in Hs. case_decide; [|done].
  destruct (agent_versions db !! _) as [v'|] eqn:Ev; [|done]. cbn [mbind option_bind] in Hs.
  by simplify_eq.
Qed.

Lemma get_agent_own c o i db a :
  Postgres.GetAgent c o i db = Ok a →
  Agent.ID a = canon i ∧ Agent.OwnerID a = canon o ∧
  ∃ row, agents db !! canon i = Some row ∧ AgentRow.current_version row = Agent.Version a.
Proof.
  intros ([[k row] v] & Hs & Hc)%query_row_Ok. apply select_agent_Ok in Hs as (-> & Hr & Ho & _).
  unfold Postgres.scan_agent in Hc. destruct (parse_json _) as [j|]; [|done].
  destruct (decode_strings j []); [|done]. injection Hc as <-. simpl. eauto.
Qed.

Lemma get_conversation_own c o i db v :
  Postgres.GetConversation c o i db = Ok v →
  Conversation.OwnerID v = canon o ∧ conversations db !! canon i = Some v.
Proof.
  intros (row & Hs & [= ->])%query_row_Ok. unfold select_conversation in Hs. statement Hs. columns.
  injection Hs as Hs. destruct (conversations db !! canon i) as [v'|]; [|done].
  cbn [mbind option_bind] in Hs. by case_decide; simplify_eq.
Qed.

Lemma get_execution_own c o i db x :
  Postgres.GetExecution c o i db = Ok x →
  Execution.OwnerID x = canon o ∧
  ∃ row, executions db !! canon i = Some row ∧ ExecutionRow.fields row = x.
Proof.
  intros (row & Hs & [= ->])%query_row_Ok. unfold select_execution in Hs. statement Hs. columns.
  injection Hs as Hs. destruct (executions db !! canon i) as [x'|]; [|done].
  cbn [mbind option_bind] in Hs. case_decide; simplify_eq. eauto.
Qed.

Lemma get_by_key_own c o k db x :
  Postgres.GetByIdempotencyKey c o k db = Ok x →
  Execution.OwnerID x = canon o ∧ Execution.IdempotencyKey x = k ∧ k ≠ "" ∧
  ∃ i row, executions db !! i = Some row ∧ ExecutionRow.fields row = x.
Proof.
  intros (row & Hs & [= ->])%query_row_Ok. unfold select_by_key in Hs. statement Hs. columns.
  injection Hs as Hs. apply head_Some_elem_of, list_elem_of_omap in Hs as ([i row'] & Hin & Hs).
  simpl in Hs. case_decide as Hd; [|done]. injection Hs as <-. destruct Hd as (? & ? & ?).
  split_and!; try done. exists i, row'. split; [by apply elem_of_map_to_list|done].
Qed.

(** *** Lists *)

Lemma tx_exec_Ok {A} c n (s : t → result A) db a : Postgres.tx_exec c n s db = Ok a → s db = Ok a.
Proof. unfold Postgres.tx_exec. by destruct (fault c n) as [[]|]. Qed.

Lemma Query_Ok {A} c (s : t → result A) db a : Postgres.Query c s db = Ok a → s db = Ok a.
Proof. unfold Postgres.Query. by destruct (fault c 0) as [[]|]. Qed.

Lemma StronglySorted_fmap {A B} (f : A → B) (R : B → B → Prop) l :
  StronglySorted (λ x y, R (f x) (f y)) l → StronglySorted R (f <$> l).
Proof. induction 1; simpl; constructor; [done|]. by apply Forall_fmap. Qed.

Lemma StronglySorted_take {A} (R : A → A → Prop) n l :
  StronglySorted R l →
  StronglySorted R (take n l) ∧ ∀ x y, x ∈ take n l → y ∈ drop n l → R x y.
Proof.
  intros Hl. rewrite <- (take_drop n l) in Hl. by apply StronglySorted_app in Hl as (? & ? & ?).
Qed.

Lemma trace_own c o i db db' tr :
  Postgres.TraceAt c o i db db' = Ok tr →
  Execution.OwnerID (Trace.Execution_ tr) = canon o ∧
  Forall (λ s, Step.ExecutionID s = canon i) (Trace.Steps tr).
Proof.
  unfold Postgres.TraceAt. destruct (Postgres.GetExecution c o i db) as [x|] eqn:Ex; [|done].
  destruct (Postgres.tx_exec c 1 _ db') as [rows|] eqn:Er; [|done]. intros [= <-]. simpl.
  split; [by apply (get_execution_own _ _ _ _ _ Ex)|].
  apply tx_exec_Ok in Er. unfold select_steps in Er. statement Er. columns. injection Er as <-.
  apply Forall_fmap. rewrite order_by_perm. apply Forall_forall.
  by intros s [? _]%list_elem_of_filter.
Qed.

Lemma list_own c o i limit db l :
  Postgres.ListAgentExecutions c o i limit db = Ok l →
  Forall (λ x, Execution.OwnerID x = canon o ∧ Execution.AgentID x = canon i) l.
Proof.
  intros Hl%Query_Ok. unfold select_executions in Hl. statement Hl. columns. injection Hl as <-.
  apply Forall_take. rewrite order_by_perm. apply Forall_forall.
  by intros x [? _]%list_elem_of_filter.
Qed.

(** C35: No read answers with a record of somebody else: an agent, conversation, execution or trace
    that is returned, by its identifier or by its idempotency key, is the row under that
    identifier or key and belongs to the caller; a list of executions holds executions of
    the caller and of the agent only. *)
Theorem postgres_reads_own c o db :
  (∀ i a, Postgres.GetAgent c o i db = Ok a → Agent.ID a = canon i ∧ Agent.OwnerID a = canon o) ∧
  (∀ i v, Postgres.GetConversation c o i db = Ok v →
     Conversation.OwnerID v = canon o ∧ conversations db !! canon i = Some v) ∧
  (∀ i x, Postgres.GetExecution c o i db = Ok x →
     Execution.OwnerID x = canon o ∧
     ∃ row, executions db !! canon i = Some row ∧ ExecutionRow.fields row = x) ∧
  (∀ k x, Postgres.GetByIdempotencyKey c o k db = Ok x →
     Execution.OwnerID x = canon o ∧ Execution.IdempotencyKey x = k ∧ k ≠ "") ∧
  (∀ i db' tr, Postgres.TraceAt c o i db db' = Ok tr →
     Execution.OwnerID (Trace.Execution_ tr) = canon o ∧
     Forall (λ s, Step.ExecutionID s = canon i) (Trace.Steps tr)) ∧
  (∀ i limit l, Postgres.ListAgentExecutions c o i limit db = Ok l →
     Forall (λ x, Execution.OwnerID x = canon o ∧ Execution.AgentID x = canon i) l).
Proof.
  split_and!.
  - intros i a Ha. by destruct (get_agent_own _ _ _ _ _ Ha) as (? & ? & _).
  - intros i v. apply get_conversation_own.
  - intros i x. apply get_execution_own.
  - intros k x Hx. by destruct (get_by_key_own _ _ _ _ _ Hx) as (? & ? & ? & _).
  - intros i db' tr. apply trace_own.
  - intros i limit l Hl. by apply list_own in Hl.
Qed.

(** The rows of a conversation, for its owner. *)
Definition own_messages (o i : string) db : list MessageRow.t :=
  match conversations db !! canon i with
  | Some v => if decide (Conversation.OwnerID v = canon o)
              then filter (λ m, MessageRow.conversation_id m = canon i) (messages db) else []
  | None => []
  end.

(** The history of a conversation is its most recent part, oldest first: [ListMessages] returns
    as many of the messages of the caller's conversation as the limit admits, in the order
    of their creation, and none it leaves out is newer than one it returns. *)
Theorem postgres_recent_messages c o i limit db l :
  Postgres.ListMessages c o i limit db = Some (Ok l) →
  0 ≤ limit ∧ ∃ kept rest,
    l = Postgres.scan_message <$> kept ∧ kept ++ rest ≡ₚ own_messages o i db ∧
    length kept = Nat.min (Z.to_nat limit) (length (own_messages o i db)) ∧
    StronglySorted (λ m m', MessageRow.created_at m ≤ MessageRow.created_at m') kept ∧
    ∀ m m', m ∈ kept → m' ∈ rest → MessageRow.created_at m' ≤ MessageRow.created_at m.
Proof.
  unfold Postgres.ListMessages. destruct (Postgres.Query c _ db) as [[]|]; [|done].
  destruct (Postgres.tx_exec c 1 _ db) as [rows|] eqn:Er; [|done]. intros [= <-].
  apply tx_exec_Ok in Er. unfold select_messages in Er. statement Er. columns. injection Er as <-.
  fold (own_messages o i db). set (sorted := order_by c (λ m, - MessageRow.created_at m) (own_messages o i db)).
  match goal with E : (0 <=? limit) = true |- _ => apply Z.leb_le in E end. split; [done|].
  destruct (StronglySorted_take _ (Z.to_nat limit) sorted (order_by_sorted c _ _)) as [_ Hd].
  eexists _, (drop (Z.to_nat limit) sorted). split; [done|]. split_and!.
  - rewrite order_by_perm, take_drop. apply order_by_perm.
  - rewrite order_by_perm, length_take. f_equal. subst sorted. by rewrite order_by_perm.
  - apply order_by_sorted.
  - intros m m' Hm Hm'. rewrite order_by_perm in Hm. specialize (Hd _ _ Hm Hm'). simpl in Hd. lia.
Qed.

(** *** Contexts that are done *)

Lemma done_no_effect w c db :
  is_Some (call_err c) → ∃ e, perform w c db = (Some e, db).
Proof.
  intros Hc. destruct (fault_done c 0 Hc) as [e He].
  assert (∀ A (s : t → result (A * t)), ∃ e', Postgres.Exec c s db = (Err e', db)) as Hx.
  { intros A s. unfold Postgres.Exec. rewrite He. destruct (s db) as [[]|]; by eexists. }
  destruct w; simpl.
  - unfold Postgres.CreateAgent. rewrite He. by eexists.
  - unfold Postgres.UpdateAgent. rewrite He. by eexists.
  - unfold Postgres.DeleteAgent. destruct (Hx _ (delete_agent ownerID agentID)) as [e' ->]. by eexists.
  - unfold Postgres.CreateConversation.
    destruct (Hx _ (Postgres.no_value (insert_conversation v))) as [e' ->]. by eexists.
  - unfold Postgres.AppendMessage. destruct (Postgres.encode_map _) as [j|]; [|by eexists].
    destruct (Hx _ (Postgres.no_value (insert_message m j))) as [e' ->]. by eexists.
  - unfold Postgres.CreateExecution.
    destruct (Hx _ (Postgres.no_value (insert_execution x))) as [e' ->]. by eexists.
  - unfold Postgres.UpdateExecution. destruct (Hx _ (update_execution x)) as [e' ->]. by eexists.
  - unfold Postgres.AppendStep. destruct (Postgres.encode_map _) as [j|]; [|by eexists].
    destruct (Postgres.encode_map _) as [j'|]; [|by eexists].
    destruct (Hx _ (Postgres.no_value (insert_step s j j'))) as [e' ->]. by eexists.
Qed.

(** What [EngineCancel] asks of a store. *)
#[export] Instance postgres_honors_context : StoreHonorsContext t.
Proof. constructor. intros c x db Hc. exact (done_no_effect (UpdateExecutionW x) c db Hc). Qed.
End reads.
