(* ===== verification/PostgresStore.v ===== *)
(** * The PostgreSQL store implements the persistence contract

    The instance of [StoreLaws] for the tables, for a server whose failed statements have no
    effect: so what is proved of the engine, the service and the HTTP handlers holds with
    PostgreSQL behind them.  Identifiers are known in canonical form ([canon]), records are
    kept as the columns keep them ([stored_form], [stored_agent]). *)

From S2P Require Import Prelude GoLang GoString Utf8 GoJson JsonFacts GoDate Domain Store.
From S2P Require Import RedisStream Postgres PostgresFacts PostgresState PostgresReads.
From stdpp Require Import sorting.
Open Scope Z_scope.

Import Tables.

(** An error of a statement means that it had no effect: no connection is lost between the
    effect and its confirmation. *)
Class PgReliable `{PgServer} := fault_no_effect c n e b : fault c n = Some (e, b) → b = false.

(** ** The abstract state of the tables *)

Section view.
Context `{PgServer}.
Implicit Types (db : Tables.t).

Definition agent_at (k : string) db : option Agent.t :=
  row ← agents db !! k;
  v ← agent_versions db !! (k, AgentRow.current_version row);
  match Postgres.scan_agent (k, row, v) with Ok a => Some a | Err _ => None end.

Definition steps_at (k : string) db : list Step.t :=
  Postgres.scan_step <$> filter (λ s, StepRow.execution_id s = k) (execution_steps db).
Definition messages_at (k : string) db : list Message.t :=
  Postgres.scan_message <$> filter (λ m, MessageRow.conversation_id m = k) (messages db).

(** A map that was written to a jsonb column, as it is read. *)
Definition kept_map (m : list (string * value)) : list (string * value) :=
  match Postgres.encode_map m with
  | Ok text => match jsonb text with Some text => Postgres.decode_column text | None => [] end
  | Err _ => []
  end.

Definition stored_conversation (v : Conversation.t) : Conversation.t :=
  Conversation.mk (canon (Conversation.ID v)) (canon (Conversation.OwnerID v))
    (canon (Conversation.AgentID v)) (Conversation.Title v)
    (timestamptz (Conversation.CreatedAt v)) (timestamptz (Conversation.UpdatedAt v)).
Definition stored_step (s : Step.t) : Step.t :=
  Step.mk (canon (Step.ID s)) (canon (Step.ExecutionID s)) (Step.Type_ s) (Step.Name s)
    (kept_map (Step.Input s)) (kept_map (Step.Output s)) (Step.Error s) (Step.RetryCount s)
    (timestamptz (Step.StartedAt s)) (timestamptz <$> Step.CompletedAt s).
Definition stored_message (m : Message.t) : Message.t :=
  Message.mk (canon (Message.ID m)) (canon (Message.ConversationID m)) (Message.Role m)
    (Message.Content m) (Message.ToolCallID m) (kept_map (Message.Metadata m))
    (timestamptz (Message.CreatedAt m)).

(** What is filed under an agent, and the conversation of an execution, belong to one owner. *)
Record owners_agree db : Prop := {
  conversation_owner i v : conversations db !! i = Some v →
    ∃ a, agents db !! Conversation.AgentID v = Some a ∧ AgentRow.owner_id a = Conversation.OwnerID v;
  execution_owner i x : executions db !! i = Some x →
    ∃ a, agents db !! Execution.AgentID (ExecutionRow.fields x) = Some a ∧
         AgentRow.owner_id a = Execution.OwnerID (ExecutionRow.fields x);
  execution_talk i x : executions db !! i = Some x →
    Execution.ConversationID (ExecutionRow.fields x) = "" ∨
    ∃ v, conversations db !! Execution.ConversationID (ExecutionRow.fields x) = Some v ∧
         Conversation.OwnerID v = Execution.OwnerID (ExecutionRow.fields x)
}.

#[export] Instance postgres_view : StoreView Tables.t := {
  agents_of db i := agent_at (canon i) db;
  conversations_of db i := conversations db !! canon i;
  stored db i := ExecutionRow.fields <$> executions db !! canon i;
  steps_of db i := steps_at (canon i) db;
  messages_of db i := messages_at (canon i) db;
  among db x := ∃ i row, executions db !! i = Some row ∧ ExecutionRow.fields row = x;
  apart := owners_agree;
  key := canon;
  kept_agent a := stored_agent a (timestamptz (Agent.CreatedAt a));
  kept_conversation := stored_conversation;
  kept := stored_form;
  kept_step := stored_step;
  kept_message := stored_message
}.
End view.

Section laws.
Context `{PgLaws, !PgReliable}.
Implicit Types (db : Tables.t).

Lemma canon_canon s : canon (canon s) = canon s.
Proof.
  unfold canon at 2 3. destruct (uuid_in s) as [u|] eqn:E; simpl.
  - unfold canon. by rewrite (proj1 (uuid_canonical _ _ E)).
  - unfold canon. by rewrite E.
Qed.

(** *** The writes: nothing, or all and no error *)

Lemma perform_cases w c db :
  (is_Some (perform w c db).1 ∧ (perform w c db).2 = db) ∨
  ((perform w c db).1 = None ∧ effect w db = Ok (perform w c db).2).
Proof.
  pose proof (atomic_promise w c db) as Ha. unfold all_or_nothing in Ha.
  destruct (perform w c db) as [[e|] db']; simpl in *; [left|by right].
  split; [by eexists|]. destruct Ha as [?|(_ & n & e' & Hf)]; [done|].
  by apply fault_no_effect in Hf.
Qed.

(** The state after a write that has failed. *)
Lemma perform_failed w c db e : (perform w c db).1 = Some e → (perform w c db).2 = db.
Proof. destruct (perform_cases w c db) as [[_ ?]|[-> _]]; [done|discriminate]. Qed.

Ltac write_failed w E :=
  let F := fresh "F" in pose proof (perform_failed w _ _ _ E) as F; cbn [perform] in F; rewrite F.

(** What every outcome of a write keeps, given that its effect keeps it. *)
Lemma perform_keeps w c db (R : Tables.t → Tables.t → Prop) :
  R db db → (∀ db', effect w db = Ok db' → R db db') → R db (perform w c db).2.
Proof. intros Hr He. destruct (perform_cases w c db) as [[_ ->]|[_ E]]; auto. Qed.

Lemma perform_done w c db : (perform w c db).1 = None → effect w db = Ok (perform w c db).2.
Proof. destruct (perform_cases w c db) as [[[e ->] _]|[_ ?]]; [discriminate|done]. Qed.

(** *** Executions *)

(** A row after an update: the identity it had, the progress of [x]. *)
Definition progressed (x e : Execution.t) : Execution.t :=
  Execution.mk (Execution.ID e) (Execution.RequestID e) (Execution.IdempotencyKey e)
    (Execution.AgentID e) (Execution.OwnerID e) (Execution.ConversationID e) (Execution.Input e)
    (Execution.Output x) (Execution.Status x) (Execution.Model x) (Execution.PromptTokens x)
    (Execution.OutputTokens x) (Execution.Error x) (Execution.RetryCount x)
    (timestamptz <$> Execution.StartedAt x) (timestamptz <$> Execution.CompletedAt x)
    (Execution.CreatedAt e).

Lemma progressed_stored x e : same_identity (stored_form x) e → progressed x e = stored_form x.
Proof. intros Hi. apply same_both; [by rewrite Hi|by split_and!]. Qed.

Definition with_executions (m : gmap string ExecutionRow.t) db : Tables.t :=
  mk (users db) (agents db) (agent_versions db) (conversations db) (messages db) m
     (execution_steps db).

Lemma update_execution_Ok x db n db' :
  update_execution x db = Ok (n, db') →
  (n = 0 ∧ db' = db) ∨
  (n = 1 ∧ ∃ row, executions db !! canon (Execution.ID x) = Some row ∧
     db' = with_executions
             (<[canon (Execution.ID x) := ExecutionRow.mk (progressed x (ExecutionRow.fields row))
                                            (ExecutionRow.agent_version row)]> (executions db)) db).
Proof.
  unfold update_execution. intros Hs. statement Hs; columns; simplify_eq; [right|by left].
  split; [done|]. by eexists.
Qed.

Lemma update_done c x db :
  (Postgres.UpdateExecution c x db).1 = None →
  ∃ row, executions db !! canon (Execution.ID x) = Some row ∧
    (Postgres.UpdateExecution c x db).2 =
      with_executions
        (<[canon (Execution.ID x) := ExecutionRow.mk (progressed x (ExecutionRow.fields row))
                                       (ExecutionRow.agent_version row)]> (executions db)) db.
Proof.
  unfold Postgres.UpdateExecution.
  destruct (Exec_cases c (update_execution x) db) as [(n & db' & -> & E)|(e & db' & -> & _)]; [|done].
  simpl. intros Hn. destruct (update_execution_Ok _ _ _ _ E) as [[-> _]|[-> Hr]]; [done|exact Hr].
Qed.

Lemma update_cases c x db :
  (Postgres.UpdateExecution c x db).2 = db ∨
  ∃ row, executions db !! canon (Execution.ID x) = Some row ∧
    (Postgres.UpdateExecution c x db).2 =
      with_executions
        (<[canon (Execution.ID x) := ExecutionRow.mk (progressed x (ExecutionRow.fields row))
                                       (ExecutionRow.agent_version row)]> (executions db)) db.
Proof.
  destruct ((Postgres.UpdateExecution c x db).1) as [e|] eqn:E.
  - left. exact (perform_failed (UpdateExecutionW x) c db e E).
  - right. exact (update_done c x db E).
Qed.

(** *** Steps and messages *)

Lemma decode_stored m j kept :
  Postgres.encode_map m = Ok j → json_column j = Ok kept → Postgres.decode_column kept = kept_map m.
Proof.
  unfold json_column, kept_map. intros ->. destruct (jsonb j); [|done]. by intros [= ->].
Qed.

Lemma append_step_done s db db' :
  effect (AppendStepW s) db = Ok db' →
  ∃ row, Postgres.scan_step row = stored_step s ∧ StepRow.execution_id row = canon (Step.ExecutionID s) ∧
    is_Some (executions db !! canon (Step.ExecutionID s)) ∧
    db' = mk (users db) (agents db) (agent_versions db) (conversations db) (messages db)
             (executions db) (execution_steps db ++ [row]).
Proof.
  cbn [effect]. intros E. apply bind_Ok in E as (i & Hi & E). apply bind_Ok in E as (o & Ho & E).
  unfold insert_step in E. statement E. columns. injection E as <-.
  eexists. split; [|split; [|split; [eassumption|reflexivity]]]; [|done].
  unfold Postgres.scan_step, stored_step. cbn. f_equal; by eapply decode_stored.
Qed.

Lemma append_message_done m db db' :
  effect (AppendMessageW m) db = Ok db' →
  ∃ row, Postgres.scan_message row = stored_message m ∧
    MessageRow.conversation_id row = canon (Message.ConversationID m) ∧
    is_Some (conversations db !! canon (Message.ConversationID m)) ∧
    db' = mk (users db) (agents db) (agent_versions db) (conversations db) (messages db ++ [row])
             (executions db) (execution_steps db).
Proof.
  cbn [effect]. intros E. apply bind_Ok in E as (j & Hj & E).
  unfold insert_message in E. statement E. columns. injection E as <-.
  eexists. split; [|split; [|split; [eassumption|reflexivity]]]; [|done].
  unfold Postgres.scan_message, stored_message. cbn. f_equal. by eapply decode_stored.
Qed.

(** One more row, under one identifier. *)
Lemma filter_snoc {A B} (f : A → B) (owner : A → string) k l row :
  f <$> filter (λ r, owner r = k) (l ++ [row]) =
  if decide (k = owner row) then (f <$> filter (λ r, owner r = k) l) ++ [f row]
  else f <$> filter (λ r, owner r = k) l.
Proof.
  rewrite filter_app, fmap_app, filter_cons, filter_nil.
  repeat case_decide; try congruence; [done|]. apply app_nil_r.
Qed.
(** *** Agents *)

(** An agent and its version are written together. *)
Lemma write_agent_at a created tx db' k :
  insert_version a (Postgres.encode_tools (Agent.Tools a))
    (mk (users tx) (<[canon (Agent.ID a) := agent_row a created]> (agents tx)) (agent_versions tx)
        (conversations tx) (messages tx) (executions tx) (execution_steps tx)) = Ok db' →
  agent_at k db' = (if decide (k = canon (Agent.ID a)) then Some (stored_agent a created)
                    else agent_at k tx) ∧
  conversations db' = conversations tx ∧ messages db' = messages tx ∧
  executions db' = executions tx ∧ execution_steps db' = execution_steps tx.
Proof.
  intros (_ & _ & _ & _ & kept & Hk & ->)%insert_version_Ok. split; [|by split_and!].
  unfold agent_at. simpl. case_decide as Hd; [subst k|].
  - rewrite !lookup_insert_eq. cbn [mbind option_bind AgentRow.current_version agent_row].
    rewrite lookup_insert_eq. cbn [mbind option_bind]. destruct (tools_kept _ _ Hk) as (j & Hj & Hd).
    unfold Postgres.scan_agent. cbn [VersionRow.tool_names]. by rewrite Hj, Hd.
  - rewrite lookup_insert_ne by done. destruct (agents tx !! k) as [row|]; [|done].
    cbn [mbind option_bind]. by rewrite lookup_insert_ne by congruence.
Qed.

Lemma agent_at_row k db a : agent_at k db = Some a →
  ∃ row, agents db !! k = Some row ∧ Agent.OwnerID a = AgentRow.owner_id row ∧
         Agent.ID a = k ∧ Agent.CreatedAt a = AgentRow.created_at row.
Proof.
  unfold agent_at. destruct (agents db !! k) as [row|]; [|done]. cbn [mbind option_bind].
  destruct (agent_versions db !! _) as [v|]; [|done]. cbn [mbind option_bind].
  destruct (Postgres.scan_agent _) as [b|] eqn:Hs; [|done]. intros [= <-]. exists row.
  unfold Postgres.scan_agent in Hs. destruct (parse_json _) as [j|]; [|done].
  destruct (decode_strings j []); [|done]. by injection Hs as <-.
Qed.

Lemma get_agent_at c o i db a :
  Postgres.GetAgent c o i db = Ok a → agent_at (canon i) db = Some a ∧ Agent.OwnerID a = canon o.
Proof.
  intros Hg. split; [|by destruct (get_agent_own _ _ _ _ _ Hg) as (_ & ? & _)].
  apply query_row_Ok in Hg as ([[k row] v] & (-> & Hr & _ & Hv)%select_agent_Ok & Hs).
  unfold agent_at. rewrite Hr. cbn [mbind option_bind]. rewrite Hv. cbn [mbind option_bind]. by rewrite Hs.
Qed.

Lemma create_agent_done c a db :
  (Postgres.CreateAgent c a db).1 = None →
  agents db !! canon (Agent.ID a) = None ∧
  insert_version a (Postgres.encode_tools (Agent.Tools a))
    (mk (users db) (<[canon (Agent.ID a) := agent_row a (timestamptz (Agent.CreatedAt a))]> (agents db))
        (agent_versions db) (conversations db) (messages db) (executions db) (execution_steps db)) =
    Ok (Postgres.CreateAgent c a db).2.
Proof.
  intros E. pose proof (perform_done (CreateAgentW a) c db E) as He. cbn [effect] in He.
  apply bind_Ok in He as (tx & Ha & Hv). by apply insert_agent_Ok in Ha as (_ & _ & Hn & _ & _ & ->).
Qed.

Lemma update_agent_done c a db :
  (Postgres.UpdateAgent c a db).1 = None →
  ∃ row, agents db !! canon (Agent.ID a) = Some row ∧
    AgentRow.owner_id row = canon (Agent.OwnerID a) ∧
    insert_version a (Postgres.encode_tools (Agent.Tools a))
      (mk (users db) (<[canon (Agent.ID a) := agent_row a (AgentRow.created_at row)]> (agents db))
          (agent_versions db) (conversations db) (messages db) (executions db) (execution_steps db)) =
      Ok (Postgres.UpdateAgent c a db).2.
Proof.
  intros E. destruct (Postgres.UpdateAgent c a db) as [r db'] eqn:Eu. simpl in E. subst r.
  apply update_agent_committed in Eu as (n & tx & Ha & Hn & Hv).
  apply update_agent_Ok in Ha as (_ & _ & [[-> _]|(_ & row & Hrow & Hown & _ & ->)]); [done|].
  by exists row.
Qed.

(** *** Deletions *)

Lemma delete_done c o i db :
  (Postgres.DeleteAgent c o i db).1 = None →
  ∃ row, agents db !! canon i = Some row ∧ AgentRow.owner_id row = canon o ∧
    delete_agent o i db = Ok (1, (Postgres.DeleteAgent c o i db).2).
Proof.
  unfold Postgres.DeleteAgent.
  destruct (Exec_cases c (delete_agent o i) db) as [(n & db' & -> & E)|(e & db' & -> & _)]; [|done].
  simpl. destruct (n =? 0) eqn:En; [done|]. intros _. rewrite E.
  unfold delete_agent in E. statement E; columns; simplify_eq; [|done..].
  by eexists.
Qed.

(** What an agent's deletion leaves of the records of other owners. *)
Section deletion.
Context (db db' : Tables.t) (o i : string) (row : AgentRow.t).
Context (Hrow : agents db !! canon i = Some row) (Hown : AgentRow.owner_id row = canon o).
Context (Hdel : delete_agent o i db = Ok (1, db')) (Hap : owners_agree db).

Abbreviation talks := (filter (λ kv, Conversation.AgentID kv.2 ≠ canon i) (conversations db)).
Abbreviation runs :=
  (filter (λ kv, Execution.AgentID (ExecutionRow.fields kv.2) ≠ canon i) (executions db)).

Lemma deleted_tables :
  agents db' = delete (canon i) (agents db) ∧
  agent_versions db' = filter (λ kv, kv.1.1 ≠ canon i) (agent_versions db) ∧
  conversations db' = talks ∧
  messages db' = filter (λ m, is_Some (talks !! MessageRow.conversation_id m)) (messages db) ∧
  executions db' = set_null talks <$> runs ∧
  execution_steps db' = filter (λ s, is_Some (runs !! StepRow.execution_id s)) (execution_steps db).
Proof using Hrow Hown Hdel.
  clear Hap. unfold delete_agent in Hdel. statement Hdel; columns; simplify_eq; [|done..].
  by split_and!.
Qed.

Lemma deleted_agent_at k : k ≠ canon i → agent_at k db' = agent_at k db.
Proof using Hrow Hown Hdel.
  intros Hk. destruct deleted_tables as (Ha & Hv & _). unfold agent_at. rewrite Ha, Hv.
  rewrite lookup_delete_ne by done. destruct (agents db !! k) as [r|]; [|done].
  cbn [mbind option_bind]. f_equal.
  destruct (agent_versions db !! (k, AgentRow.current_version r)) as [v|] eqn:E.
  - by apply map_lookup_filter_Some.
  - by apply map_lookup_filter_None; left.
Qed.

Lemma kept_talk k v :
  conversations db !! k = Some v → Conversation.OwnerID v ≠ canon o → talks !! k = Some v.
Proof using Hrow Hown Hap.
  intros Hv Ho. apply map_lookup_filter_Some. split; [done|]. simpl. intros E.
  destruct (conversation_owner _ Hap k v Hv) as (a & Ha & Hao). rewrite E in Ha. congruence.
Qed.

Lemma kept_run k x :
  executions db !! k = Some x → Execution.OwnerID (ExecutionRow.fields x) ≠ canon o →
  runs !! k = Some x ∧ set_null talks x = x.
Proof using Hrow Hown Hap.
  intros Hx Ho. split.
  - apply map_lookup_filter_Some. split; [done|]. simpl. intros E.
    destruct (execution_owner _ Hap k x Hx) as (a & Ha & Hao). rewrite E in Ha. congruence.
  - unfold set_null. rewrite decide_True; [done|].
    destruct (execution_talk _ Hap k x Hx) as [->|(v & Hv & Hvo)]; [by left|right].
    exists v. apply kept_talk; [done|congruence].
Qed.

(** A list of rows loses those of other identifiers only. *)
Lemma filter_kept {A} (P : A → Prop) `{∀ a, Decision (P a)} (owner : A → string) k (l : list A) :
  (∀ a, owner a = k → P a) → filter (λ a, owner a = k) (filter P l) = filter (λ a, owner a = k) l.
Proof.
  intros HP. rewrite list_filter_filter. apply list_filter_iff. intros a.
  split; [intros [E _]; exact E|]. intros E. split; [exact E|by apply HP].
Qed.

Lemma deleted_others : others_same o db db'.
Proof.
  destruct deleted_tables as (Ha & _ & Hc & Hm & Hx & Hs).
  unfold others_same, key. simpl. split_and!.
  - intros j a Ho. destruct (decide (canon j = canon i)) as [E|Hne].
    + rewrite E. split.
      * intros (r & Hr & Hro & _)%agent_at_row. congruence.
      * intros (r & Hr & _)%agent_at_row. rewrite Ha, lookup_delete_eq in Hr. done.
    + by rewrite deleted_agent_at.
  - intros j v Ho. rewrite Hc. split; [intros Hv; by apply kept_talk|].
    by intros [? _]%map_lookup_filter_Some.
  - intros j x Ho. rewrite Hx, lookup_fmap. split.
    + intros (r & Hr & ->)%fmap_Some. destruct (kept_run _ r Hr Ho) as [-> Hn]. simpl. by rewrite Hn.
    + intros (r & (r' & [Hr' _]%map_lookup_filter_Some & ->)%fmap_Some & ->)%fmap_Some.
      rewrite Hr'. simpl. destruct (set_null_spec talks r') as (_ & E & _). rewrite E in Ho.
      by destruct (kept_run _ r' Hr' Ho) as [_ ->].
  - intros j x (r & Hr & ->)%fmap_Some Ho. destruct (kept_run _ r Hr Ho) as [Hk _].
    unfold steps_at. rewrite Hs, filter_kept; [done|]. intros st ->. by exists r.
  - intros j v Hv Ho. pose proof (kept_talk _ v Hv Ho) as Hk.
    unfold messages_at. rewrite Hm, filter_kept; [done|]. intros m ->. by exists v.
Qed.
End deletion.
(** *** Records of different owners stay apart *)

Lemma progressed_apart x row db :
  executions db !! canon (Execution.ID x) = Some row → owners_agree db →
  owners_agree (with_executions
    (<[canon (Execution.ID x) := ExecutionRow.mk (progressed x (ExecutionRow.fields row))
                                   (ExecutionRow.agent_version row)]> (executions db)) db).
Proof.
  intros Hrow C. split; simpl; [apply C|..];
    intros i y [[_ <-]|[_ Hy]]%lookup_insert_Some; simpl; by eapply C.
Qed.

(** A new agent, or one that keeps its owner. *)
Lemma agent_put_apart k a db vs :
  (∀ old, agents db !! k = Some old → AgentRow.owner_id old = AgentRow.owner_id a) →
  owners_agree db →
  owners_agree (mk (users db) (<[k := a]> (agents db)) vs (conversations db) (messages db)
                   (executions db) (execution_steps db)).
Proof.
  intros Hk C.
  assert (∀ j o, (∃ b, agents db !! j = Some b ∧ AgentRow.owner_id b = o) →
                 ∃ b, <[k := a]> (agents db) !! j = Some b ∧ AgentRow.owner_id b = o) as Hput.
  { intros j o (b & Hb & <-). rewrite lookup_insert_case. case_decide as Hj; [subst j|by exists b].
    exists a. split; [done|]. symmetry. by apply Hk. }
  split; simpl; [intros; by eapply Hput, C|intros; by eapply Hput, C|apply C].
Qed.

Lemma insert_version_tables a tools tx db' :
  insert_version a tools tx = Ok db' →
  ∃ vs, db' = mk (users tx) (agents tx) vs (conversations tx) (messages tx) (executions tx)
                 (execution_steps tx).
Proof. intros (_ & _ & _ & _ & kept & _ & ->)%insert_version_Ok. by eexists. Qed.

Lemma agents_apart c a db db' :
  db' = (Postgres.CreateAgent c a db).2 ∨ db' = (Postgres.UpdateAgent c a db).2 →
  owners_agree db → owners_agree db'.
Proof.
  intros [-> | ->] C.
  - destruct ((Postgres.CreateAgent c a db).1) as [e|] eqn:E; [by write_failed (CreateAgentW a) E|].
    destruct (create_agent_done c a db E) as [Hn Hv]. apply insert_version_tables in Hv as [vs ->].
    apply (agent_put_apart _ _ db); [|done]. congruence.
  - destruct ((Postgres.UpdateAgent c a db).1) as [e|] eqn:E; [by write_failed (UpdateAgentW a) E|].
    destruct (update_agent_done c a db E) as (row & Hrow & Hown & Hv).
    apply insert_version_tables in Hv as [vs ->].
    apply (agent_put_apart _ _ db); [|done]. intros old Hold. simpl. congruence.
Qed.

Lemma deleted_apart o i db n db' :
  delete_agent o i db = Ok (n, db') → owners_agree db → owners_agree db'.
Proof.
  unfold delete_agent. intros Hs C. statement Hs; columns; simplify_eq; [|done..].
  set (gone := canon i). split; simpl.
  - intros j v [Hv Hne]%map_lookup_filter_Some. simpl in Hne. rewrite lookup_delete_ne by done.
    by eapply C.
  - intros j x (y & <- & [Hy Hne]%map_lookup_filter_Some)%lookup_fmap_Some. simpl in Hne.
    destruct (set_null_spec (filter (λ kv, Conversation.AgentID kv.2 ≠ gone) (conversations db)) y)
      as (_ & -> & -> & _). rewrite lookup_delete_ne by done. by eapply C.
  - intros j x (y & <- & [Hy _]%map_lookup_filter_Some)%lookup_fmap_Some.
    unfold set_null. case_decide as Hd; [|by left].
    destruct Hd as [Hd|[v Hv]]; [by left|].
    destruct (execution_talk _ C j y Hy) as [He|(v' & Hv' & <-)]; [by left|right].
    exists v. split; [done|]. apply map_lookup_filter_Some in Hv as [Hv _]. congruence.
Qed.

Lemma talk_apart v db :
  conversations db !! canon (Conversation.ID v) = None →
  (∃ a, agents db !! canon (Conversation.AgentID v) = Some a ∧
        AgentRow.owner_id a = canon (Conversation.OwnerID v)) →
  owners_agree db →
  owners_agree (mk (users db) (agents db) (agent_versions db)
                   (<[canon (Conversation.ID v) := stored_conversation v]> (conversations db))
                   (messages db) (executions db) (execution_steps db)).
Proof.
  intros Hn Ha C. split; simpl; [|apply C|].
  - intros i w [[_ <-]|[_ Hw]]%lookup_insert_Some; [done|by eapply C].
  - intros i x Hx. destruct (execution_talk _ C i x Hx) as [?|(w & Hw & Ho)]; [by left|right].
    exists w. split; [|done]. rewrite lookup_insert_ne; congruence.
Qed.

Lemma run_apart x version db :
  (∃ a, agents db !! canon (Execution.AgentID x) = Some a ∧
        AgentRow.owner_id a = canon (Execution.OwnerID x)) →
  (∃ v, conversations db !! canon (Execution.ConversationID x) = Some v ∧
        Conversation.OwnerID v = canon (Execution.OwnerID x)) →
  owners_agree db →
  owners_agree (with_executions
    (<[canon (Execution.ID x) := ExecutionRow.mk (stored_form x) version]> (executions db)) db).
Proof.
  intros Ha Hv C. split; simpl; [apply C|..];
    intros i y [[_ <-]|[_ Hy]]%lookup_insert_Some; simpl; try by eapply C.
  - done.
  - unfold canon_or_null. case_decide; [by left|by right].
Qed.

(** *** The laws *)

Lemma create_execution_done c x db :
  (Postgres.CreateExecution c x db).1 = None →
  executions db !! canon (Execution.ID x) = None ∧
  ∃ version, (Postgres.CreateExecution c x db).2 =
    with_executions (<[canon (Execution.ID x) := ExecutionRow.mk (stored_form x) version]>
                       (executions db)) db.
Proof.
  intros E. pose proof (perform_done (CreateExecutionW x) c db E) as He. cbn [effect] in He.
  apply insert_execution_Ok in He as (_ & _ & row & _ & Hn & _ & _ & _ & He). split; [done|]. by eexists.
Qed.

Lemma create_conversation_done c v db :
  (Postgres.CreateConversation c v db).1 = None →
  conversations db !! canon (Conversation.ID v) = None ∧
  (Postgres.CreateConversation c v db).2 =
    mk (users db) (agents db) (agent_versions db)
       (<[canon (Conversation.ID v) := stored_conversation v]> (conversations db))
       (messages db) (executions db) (execution_steps db).
Proof.
  intros E. pose proof (perform_done (CreateConversationW v) c db E) as He. cbn [effect] in He.
  by apply insert_conversation_Ok in He as (_ & _ & Hn & _ & _ & He).
Qed.

(** Agents have changed at most. *)
Definition agents_only db db' : Prop :=
  conversations db' = conversations db ∧ messages db' = messages db ∧
  executions db' = executions db ∧ execution_steps db' = execution_steps db.

Lemma agents_only_frame c a db db' :
  db' = (Postgres.CreateAgent c a db).2 ∨ db' = (Postgres.UpdateAgent c a db).2 → agents_only db db'.
Proof.
  intros [-> | ->].
  - destruct ((Postgres.CreateAgent c a db).1) as [e|] eqn:E.
    + by write_failed (CreateAgentW a) E.
    + destruct (create_agent_done c a db E) as [_ Hv].
      by destruct (write_agent_at _ _ db _ "" Hv) as [_ ?].
  - destruct ((Postgres.UpdateAgent c a db).1) as [e|] eqn:E.
    + by write_failed (UpdateAgentW a) E.
    + destruct (update_agent_done c a db E) as (row & _ & _ & Hv).
      by destruct (write_agent_at _ _ db _ "" Hv) as [_ ?].
Qed.

Lemma select_list c (l : list Execution.t) limit (P : Execution.t → Prop) :
  1 ≤ limit → Forall P l →
  let r := take (Z.to_nat limit) (order_by c (λ e, - Execution.CreatedAt e) l) in
  Z.of_nat (length r) ≤ limit ∧ Forall P r.
Proof.
  intros Hl HP. simpl. split; [rewrite length_take; lia|]. apply Forall_take. by rewrite order_by_perm.
Qed.

Lemma list_executions_promise c o a limit db l :
  Postgres.ListAgentExecutions c o a limit db = Ok l → 1 ≤ limit →
  Z.of_nat (length l) ≤ limit ∧
  Forall (λ x, Execution.OwnerID x = canon o ∧ Execution.AgentID x = canon a ∧
               ∃ i row, executions db !! i = Some row ∧ ExecutionRow.fields row = x) l.
Proof.
  intros Hl%Query_Ok Hn. unfold select_executions in Hl. statement Hl. columns. injection Hl as <-.
  apply select_list; [done|]. apply Forall_forall. intros x [[Ho Ha] Hx]%list_elem_of_filter.
  apply list_elem_of_fmap in Hx as ([i row] & -> & Hr%elem_of_map_to_list).
  split_and!; [done..|]. by exists i, row.
Qed.

Lemma list_messages_promise c o i n db l :
  Postgres.ListMessages c o i (Z.of_nat n) db = Some (Ok l) →
  (length l ≤ n)%nat ∧ ∃ rest, l ++ rest ≡ₚ messages_at (canon i) db.
Proof.
  unfold Postgres.ListMessages. destruct (Postgres.Query c _ db) as [[]|]; [|done].
  destruct (Postgres.tx_exec c 1 _ db) as [rows|] eqn:Er; [|done]. intros [= <-].
  apply tx_exec_Ok in Er. unfold select_messages in Er. statement Er. columns. injection Er as <-.
  rewrite length_fmap, order_by_perm, length_take. split; [lia|].
  unfold messages_at. set (mine := filter _ (messages db)).
  set (rows := match conversations db !! canon i with Some _ => _ | None => _ end).
  assert (∃ more, rows ++ more ≡ₚ mine) as [more Hmore].
  { subst rows. destruct (conversations db !! canon i) as [v|]; [|by exists mine].
    case_decide; [exists []; by rewrite app_nil_r|by exists mine]. }
  clearbody rows. set (sorted := order_by c _ rows).
  exists (Postgres.scan_message <$> (drop (Z.to_nat (Z.of_nat n)) sorted ++ more)).
  rewrite <-fmap_app, order_by_perm, (assoc_L (++)), take_drop. apply fmap_Permutation.
  subst sorted. by rewrite order_by_perm.
Qed.

Lemma trace_promise c o i db db' tr :
  Postgres.TraceAt c o i db db' = Ok tr →
  Postgres.GetExecution c o i db = Ok (Trace.Execution_ tr) ∧ Trace.Steps tr ≡ₚ steps_at (canon i) db'.
Proof.
  unfold Postgres.TraceAt. destruct (Postgres.GetExecution c o i db) as [x|] eqn:Ex; [|done].
  destruct (Postgres.tx_exec c 1 _ db') as [rows|] eqn:Er; [|done]. intros [= <-]. split; [done|].
  apply tx_exec_Ok in Er. unfold select_steps in Er. statement Er. columns. injection Er as <-.
  simpl. unfold steps_at. by rewrite order_by_perm.
Qed.

(** *** What each write leaves in place *)

Ltac unfold_view :=
  simpl; unfold same_agents, same_conversations, same_stored, same_steps, same_messages;
  unfold key, kept_agent, kept_conversation, kept, kept_step, kept_message; simpl.

Lemma step_appended_law c st db i :
  (Postgres.AppendStep c st db).1 = None →
  steps_at (canon i) (Postgres.AppendStep c st db).2 =
    if decide (canon i = canon (Step.ExecutionID st)) then steps_at (canon i) db ++ [stored_step st]
    else steps_at (canon i) db.
Proof.
  intros E. destruct (append_step_done _ _ _ (perform_done (AppendStepW st) c db E))
    as (row & Hrow & Hid & _ & E'). simpl in E'. unfold steps_at. rewrite E'. cbn [execution_steps].
  by rewrite (filter_snoc Postgres.scan_step StepRow.execution_id), Hid, Hrow.
Qed.

Lemma message_appended_law c m db i :
  (Postgres.AppendMessage c m db).1 = None →
  messages_at (canon i) (Postgres.AppendMessage c m db).2 =
    if decide (canon i = canon (Message.ConversationID m))
    then messages_at (canon i) db ++ [stored_message m] else messages_at (canon i) db.
Proof.
  intros E. destruct (append_message_done _ _ _ (perform_done (AppendMessageW m) c db E))
    as (row & Hrow & Hid & _ & E'). simpl in E'. unfold messages_at. rewrite E'. cbn [messages].
  by rewrite (filter_snoc Postgres.scan_message MessageRow.conversation_id), Hid, Hrow.
Qed.

Lemma step_frame_law c st db :
  let db' := (Postgres.AppendStep c st db).2 in
  same_agents db db' ∧ same_conversations db db' ∧ same_stored db db' ∧ same_messages db db' ∧
  (owners_agree db → owners_agree db').
Proof.
  apply (perform_keeps (AppendStepW st) c db (λ db db', same_agents db db' ∧ same_conversations db db' ∧
    same_stored db db' ∧ same_messages db db' ∧ (owners_agree db → owners_agree db'))); [by split_and!|].
  intros db' (row & _ & _ & _ & ->)%append_step_done. split_and!; try done. intros C. split; apply C.
Qed.

Lemma message_frame_law c m db :
  let db' := (Postgres.AppendMessage c m db).2 in
  same_agents db db' ∧ same_conversations db db' ∧ same_stored db db' ∧ same_steps db db' ∧
  (owners_agree db → owners_agree db').
Proof.
  apply (perform_keeps (AppendMessageW m) c db (λ db db', same_agents db db' ∧ same_conversations db db' ∧
    same_stored db db' ∧ same_steps db db' ∧ (owners_agree db → owners_agree db'))); [by split_and!|].
  intros db' (row & _ & _ & _ & ->)%append_message_done. split_and!; try done. intros C. split; apply C.
Qed.

Lemma update_law c x y db i :
  (Postgres.UpdateExecution c x db).1 = None → stored db (Execution.ID x) = Some y →
  same_identity (stored_form x) y → canon (Execution.ID x) = canon i →
  stored (Postgres.UpdateExecution c x db).2 i = Some (stored_form x).
Proof.
  simpl. intros E Hy Hi <-. destruct (update_done c x db E) as (row & Hrow & ->).
  rewrite Hrow in Hy. injection Hy as Hy. simpl. rewrite lookup_insert_eq. simpl. f_equal.
  apply progressed_stored. by rewrite Hy.
Qed.

Lemma update_agent_law c a old db :
  (Postgres.UpdateAgent c a db).1 = None → agent_at (canon (Agent.ID a)) db = Some old →
  Agent.OwnerID old = canon (Agent.OwnerID a) ∧
  ∀ i, agent_at (canon i) (Postgres.UpdateAgent c a db).2 =
       if decide (canon i = canon (Agent.ID a)) then Some (stored_agent a (Agent.CreatedAt old))
       else agent_at (canon i) db.
Proof.
  intros E Hold. destruct (update_agent_done c a db E) as (row & Hrow & Hown & Hv).
  apply agent_at_row in Hold as (row' & Hrow' & Ho & _ & Hcr).
  rewrite Hrow in Hrow'. injection Hrow' as <-. split; [congruence|].
  intros j. destruct (write_agent_at _ _ db _ (canon j) Hv) as [-> _]. by rewrite Hcr.
Qed.

Lemma create_frame_law c x db :
  let db' := (Postgres.CreateExecution c x db).2 in
  same_agents db db' ∧ same_conversations db db' ∧ same_steps db db' ∧ same_messages db db'.
Proof.
  simpl. destruct ((Postgres.CreateExecution c x db).1) as [e|] eqn:E.
  - by write_failed (CreateExecutionW x) E.
  - by destruct (create_execution_done c x db E) as (_ & version & ->).
Qed.

Lemma conversation_frame_law c v db :
  let db' := (Postgres.CreateConversation c v db).2 in
  same_agents db db' ∧ same_stored db db' ∧ same_steps db db' ∧ same_messages db db'.
Proof.
  simpl. destruct ((Postgres.CreateConversation c v db).1) as [e|] eqn:E.
  - by write_failed (CreateConversationW v) E.
  - by destruct (create_conversation_done c v db E) as (_ & ->).
Qed.

Lemma agent_frame_law c a db db' :
  db' = (Postgres.CreateAgent c a db).2 ∨ db' = (Postgres.UpdateAgent c a db).2 →
  same_conversations db db' ∧ same_stored db db' ∧ same_steps db db' ∧ same_messages db db'.
Proof.
  intros Hs. destruct (agents_only_frame _ _ _ _ Hs) as (Hv & Hm & Hx & Hst).
  unfold same_conversations, same_stored, same_steps, same_messages. simpl.
  unfold steps_at, messages_at. by rewrite Hv, Hm, Hx, Hst.
Qed.

Lemma delete_law c o i db :
  (Postgres.DeleteAgent c o i db).1 = None →
  (∀ a, agent_at (canon i) db = Some a → Agent.OwnerID a = canon o) ∧
  agent_at (canon i) (Postgres.DeleteAgent c o i db).2 = None ∧
  (owners_agree db → others_same o db (Postgres.DeleteAgent c o i db).2).
Proof.
  intros (row & Hrow & Hown & Hdel)%delete_done. split_and!.
  - intros a (row' & Hrow' & -> & _)%agent_at_row. congruence.
  - destruct (deleted_tables _ _ _ _ _ Hrow Hown Hdel) as (Ha & _). unfold agent_at.
    by rewrite Ha, lookup_delete_eq.
  - by apply (deleted_others _ _ _ _ row Hrow Hown Hdel).
Qed.

Lemma apart_deleted_law c o i db : owners_agree db → owners_agree (Postgres.DeleteAgent c o i db).2.
Proof.
  intros C. apply (perform_keeps (DeleteAgentW o i) c db (λ _, owners_agree)); [done|].
  intros db' E. cbn [effect] in E. apply bind_Ok in E as ([n tx] & Hd & [= <-]).
  by eapply deleted_apart.
Qed.

Lemma apart_conversation_law c v a db :
  agent_at (canon (Conversation.AgentID v)) db = Some a →
  Agent.OwnerID a = canon (Conversation.OwnerID v) →
  owners_agree db → owners_agree (Postgres.CreateConversation c v db).2.
Proof.
  intros (row & Hrow & Ho & _)%agent_at_row Hov C.
  destruct ((Postgres.CreateConversation c v db).1) as [e|] eqn:E; [by write_failed (CreateConversationW v) E|].
  destruct (create_conversation_done c v db E) as (Hn & ->). apply talk_apart; [done| |done].
  exists row. split; [done|congruence].
Qed.

Lemma apart_execution_law c x a v db :
  agent_at (canon (Execution.AgentID x)) db = Some a → Agent.OwnerID a = canon (Execution.OwnerID x) →
  conversations db !! canon (Execution.ConversationID x) = Some v →
  Conversation.OwnerID v = canon (Execution.OwnerID x) →
  owners_agree db → owners_agree (Postgres.CreateExecution c x db).2.
Proof.
  intros (row & Hrow & Ho & _)%agent_at_row Hox Hv Hov C.
  destruct ((Postgres.CreateExecution c x db).1) as [e|] eqn:E; [by write_failed (CreateExecutionW x) E|].
  destruct (create_execution_done c x db E) as (_ & version & ->). apply run_apart; [|by exists v|done].
  exists row. split; [done|congruence].
Qed.

(** The laws in the order of [StoreLaws]. *)
#[export] Instance postgres_laws : StoreLaws Tables.t.
Proof.
  split; unfold_view; intros *.
  (* the forms of identifiers and records *)
  1: apply canon_canon.
  1-3: by rewrite canon_canon.
  1-3: done.
  1: intros (E1 & E2 & E3 & E4 & E5 & E6 & E7 & E8); unfold same_identity; simpl;
     by rewrite E1, E2, E3, E4, E5, E6, E7, E8.
  1: done.
  (* failed writes *)
  1: apply (perform_failed (UpdateExecutionW x)).
  1: apply (perform_failed (AppendStepW st)).
  1: apply (perform_failed (AppendMessageW m)).
  1: apply (perform_failed (CreateExecutionW x)).
  1: apply (perform_failed (CreateConversationW v)).
  (* updates, steps and messages *)
  - intros (row & -> & _)%update_done. by eexists.
  - apply update_law.
  - intros Hne. destruct (update_cases c x s) as [->|(row & _ & ->)]; [done|]. simpl.
    by rewrite lookup_insert_ne.
  - by destruct (update_cases c x s) as [->|(row & _ & ->)].
  - apply step_appended_law.
  - by destruct (step_frame_law c st s) as (? & ? & ? & ? & _).
  - apply message_appended_law.
  - by destruct (message_frame_law c m s) as (? & ? & ? & ? & _).
  (* reads *)
  - by intros (Ho & row & -> & <-)%get_execution_own.
  - by intros (Ho & Hk & _ & Hrow)%get_by_key_own.
  - apply get_agent_at.
  - by intros [? ?]%get_conversation_own.
  - apply trace_promise.
  - apply list_executions_promise.
  - apply list_messages_promise.
  - by eexists.
  (* creation *)
  - intros E. destruct (create_execution_done c x s E) as (Hn & version & ->). rewrite Hn. split; [done|].
    intros j. simpl. rewrite lookup_insert_case. by case_decide.
  - apply (create_frame_law c x s).
  - intros E. destruct (create_conversation_done c v s E) as (Hn & ->). split; [done|].
    intros j. simpl. by rewrite lookup_insert_case.
  - apply (conversation_frame_law c v s).
  (* agents *)
  - apply (perform_failed (CreateAgentW a)).
  - apply (perform_failed (UpdateAgentW a)).
  - intros E. destruct (create_agent_done c a s E) as [Hn Hv]. split; [unfold agent_at; by rewrite Hn|].
    intros j. by destruct (write_agent_at _ _ s _ (canon j) Hv) as [-> _].
  - intros E Hold _. by apply update_agent_law.
  - apply (agent_frame_law c a s).
  - apply (perform_failed (DeleteAgentW o i)).
  - apply delete_law.
  (* owners *)
  - intros C. destruct (update_cases c x s) as [->|(row & Hrow & ->)]; [done|]. by apply progressed_apart.
  - by destruct (step_frame_law c st s) as (_ & _ & _ & _ & ?).
  - by destruct (message_frame_law c m s) as (_ & _ & _ & _ & ?).
  - apply agents_apart.
  - apply apart_deleted_law.
  - apply apart_conversation_law.
  - apply apart_execution_law.
Qed.
End laws.
