(* ===== verification/PostgresWorld.v ===== *)
(** * The program with PostgreSQL behind it

    The in-memory store and the PostgreSQL store keep one contract, so the theorems on the engine,
    the service and the handlers hold for either.  This file draws the consequences that
    depend on the tables: a run that a worker starts from a row, the events of such a run, and
    the conversations that cannot be continued. *)

From S2P Require Import Prelude GoLang GoString Conc Runtime Id Domain Breaker Retry Store Memory.
From S2P Require Import MemoryFacts Tool Llm World Engine EngineSpec EngineProof EngineLogs EngineFacts.
From S2P Require Import Queue Service ServiceFacts StartFacts.
From S2P Require Import Postgres PostgresFacts PostgresState PostgresTypes PostgresReads PostgresStore.
Open Scope Z_scope.

Import Tables.

(** C16: Both implementations of [store.Store] keep the contract [StoreLaws] the rest of the
    program is verified against: the in-memory maps, for any order in which Go iterates over a map,
    and the PostgreSQL tables, for any server that behaves as documented and whose failed
    statements have no effect. *)
Theorem stores_implement_contract `{MapOrder, PgLaws, !PgReliable} :
  StoreLaws Memory.t ∧ StoreLaws Tables.t.
Proof. split; apply _. Qed.

(** ** Rows of reachable tables *)

Section rows.
Context `{PgLaws}.
Implicit Types (db : Tables.t).

Lemma reachable_rows db : reachable db → consistent db ∧ typed db.
Proof.
  intros Hr. split; (eapply reachable_inv; [| |exact Hr]).
  - apply consistent_users_only.
  - apply effect_consistent.
  - apply users_only_typed.
  - apply effect_typed.
Qed.

Lemma canon_uuid s : is_uuid s → canon s = s.
Proof. unfold is_uuid, canon. by intros ->. Qed.

Lemma uuid_len s : is_uuid s → len s = 36.
Proof. intros Hs. by apply (uuid_canonical s). Qed.

(** What a row holds is in the form the table keeps. *)
Lemma row_kept db i row :
  reachable db → executions db !! i = Some row →
  is_uuid i ∧ Execution.ID (ExecutionRow.fields row) = i ∧
  same_identity (stored_form (ExecutionRow.fields row)) (ExecutionRow.fields row).
Proof.
  intros [C T]%reachable_rows Hrow. destruct (execution_refs _ C i row Hrow) as (Hid & _).
  destruct (executions_typed _ T i row Hrow). split_and!; [done..|].
  unfold same_identity. simpl. rewrite Hid, !canon_uuid by done. split_and!; try done.
  unfold canon_or_null. case_decide as Hc; [by rewrite Hc|]. apply canon_uuid. naive_solver.
Qed.

Lemma row_read db c o i x :
  reachable db → Postgres.GetExecution c o i db = Ok x →
  is_uuid (Execution.ID x) ∧ Execution.ID x = canon i ∧
  stored db (Execution.ID x) = Some x ∧ same_identity (stored_form x) x.
Proof.
  intros Hr (_ & row & Hrow & <-)%get_execution_own.
  destruct (row_kept _ _ _ Hr Hrow) as (Hu & Hid & Hs). rewrite Hid. split_and!; try done.
  simpl. by rewrite (canon_uuid _ Hu), Hrow.
Qed.
End rows.

(** ** A run that starts from a row *)

Section runs.
Context `{Env} {SK QU : Type} `{PgLaws, !PgReliable, SinkOps SK, Counters, Unicode}.
Context (w : World Tables.t SK QU) (e : Engine.t) (ctx : Context) (agent : Agent.t).
Context (Hattempts : 1 ≤ RetryPolicy.MaxAttempts (Engine.retryPolicy e))
        (Hsane : Engine.metrics e = true → sane_provider (Engine.provider e)).
Context (c : Call) (o i : string) (x : Execution.t).
Context (Hreach : reachable (w_store w)) (Hread : Postgres.GetExecution c o i (w_store w) = Ok x).

Lemma row_holds : holds x w.
Proof. destruct (row_read _ _ _ _ _ Hreach Hread) as (_ & _ & Hst & Hs). by exists x. Qed.

(** C17: A run over PostgreSQL, if failed statements change nothing, the policy allows an attempt and,
    with metrics, usage is not negative: when a worker has read an
    execution from reachable tables, the row it has read records what becomes of the run.  A run
    that could not mark the row as running reports that and leaves it as it was.  Any other run makes
    two writes, of the execution as running and of the final state it returns: the row holds the
    final state, with times as the column keeps them, or, if exactly that write failed, still
    says running; the error the run returns is as [final_state] says.  The rows of other executions,
    and their steps, are as before. *)
Theorem postgres_run :
  pwp (Engine.Execute e ctx agent x) (λ '(y, err) w',
    (∃ tr, w_log w' = w_log w ++ tr ∧
       final_state stored_form x y err tr (Some x)
         (ExecutionRow.fields <$> executions (w_store w') !! canon i)) ∧
    ∀ j, canon j ≠ canon i →
      ExecutionRow.fields <$> executions (w_store w') !! canon j =
      ExecutionRow.fields <$> executions (w_store w) !! canon j ∧
      steps_at (canon j) (w_store w') = steps_at (canon j) (w_store w)) w.
Proof.
  destruct (row_read _ _ _ _ _ Hreach Hread) as (Hu & Hid & Hst & _).
  assert (canon i = canon (Execution.ID x)) as Hi by (by rewrite (canon_uuid _ Hu)).
  eapply pwp_mono; [apply pwp_and|].
  - by apply (Execute_final w e ctx agent x Hattempts Hsane), row_holds.
  - by apply (Execute_isolated w e ctx agent x Hattempts Hsane), row_holds.
  - intros [y err] w' [(tr & Hl & Hf) [Ho _]]. split.
    + exists tr. split; [done|]. rewrite Hi. simpl in Hf, Hst. rewrite Hst in Hf. exact Hf.
    + intros j Hj. apply (Ho j). unfold key. simpl. by rewrite <-Hi.
Qed.

End runs.

(** ** Conversations that cannot be continued *)

Section conversations.
Context `{Env} {SK QU : Type} `{PgLaws, QueueOps QU}.
Implicit Types (w : World Tables.t SK QU).

(** A conversation cannot be continued under the identifier that the creation of its
    agent returned: the service compares that text, 32 digits, with the canonical form, 36
    characters, that the table gives back.  Whatever the owner, the conversation and the agent,
    such a request is refused; nothing is stored and nothing is enqueued. *)
Theorem postgres_conversation_refused ctx owner agentID input w :
  reachable (w_store w) → len agentID ≠ 36 → ExecutionInput.ConversationID input ≠ "" →
  ExecutionInput.IdempotencyKey input = "" →
  wp (Service.StartExecution ctx owner agentID input) (λ out w',
    (∃ err, out = (None, false, Some err)) ∧ w_store w' = w_store w ∧ w_queue w' = w_queue w) w.
Proof.
  intros [_ T]%reachable_rows Hl Hc Hk. unfold Service.StartExecution. case_decide; [by split_and!; eauto|].
  rewrite Hk. rewrite decide_True by done. unfold Service.create_execution.
  apply wp_bind, wp_atomic. cbn [fst snd]. destruct (Store.GetAgent _ _ _ _) as [a|e]; [|by split_and!; eauto].
  apply wp_bind. unfold Service.resolve_conversation. rewrite decide_False by done.
  apply wp_bind, wp_atomic. cbn [fst snd].
  destruct (GetConversation _ _ _ _) as [v|e] eqn:Hg; [|by split_and!; eauto].
  change (Postgres.GetConversation (call_at ctx (get_rt (advance (advance w)))) owner
            (ExecutionInput.ConversationID input) (w_store w) = Ok v) in Hg.
  apply get_conversation_own in Hg as [_ Hv].
  destruct (conversations_typed _ T _ _ Hv) as [_ _ Ha _ _ _].
  case_decide as E; [|by split_and!; eauto].
  exfalso. apply Hl. rewrite <-E. by apply uuid_len.
Qed.
End conversations.
