(* ===== verification/PostgresDemo.v ===== *)
(** * The theorems on the PostgreSQL store, at work

    A server that satisfies [PgLaws]: identifiers of 32 or 36 characters, times to the
    microsecond, no failure but that of a context that is done.  On it an agent, a
    conversation with messages and an execution go through the store, and a run starts
    from the row that a worker reads. *)

From S2P Require Import Prelude GoLang GoString Utf8 GoJson JsonFacts GoDate Conc Runtime Domain.
From S2P Require Import Breaker Retry Store Memory MemoryFacts Tool ToolExamples Llm World Engine.
From S2P Require Import EngineSpec EngineProof EngineLogs EngineFacts EngineDemo Queue Service.
From S2P Require Import ServiceFacts StartFacts RedisStream Postgres PostgresFacts PostgresState.
From S2P Require Import PostgresTypes PostgresReads PostgresStore PostgresWorld.
From stdpp Require Import sorting.
Open Scope Z_scope.

Definition slice (i j : Z) (s : string) : string :=
  of_bytes (take (Z.to_nat (j - i)) (drop (Z.to_nat i) (bytes s))).

Definition with_hyphens (s : string) : string :=
  slice 0 8 s +:+ "-" +:+ slice 8 12 s +:+ "-" +:+ slice 12 16 s +:+ "-" +:+ slice 16 20 s +:+ "-" +:+
  slice 20 32 s.

#[local] Instance demo_server : PgServer := {|
  uuid_in s := if len s =? 36 then Some s
               else if (len s =? 32) && (len (with_hyphens s) =? 36) then Some (with_hyphens s)
               else None;
  timestamptz t := t / 1000 * 1000;
  text_ok := valid_utf8;
  jsonb := Some;
  order_by A c key l := @merge_sort A (λ x y, key x ≤ key y) (λ x y, Z.le_dec (key x) (key y)) l;
  fault c n := match call_err c with Some _ => Some (Foreign "context", false) | None => None end
|}.

#[local] Instance demo_laws : PgLaws.
Proof.
  split; simpl.
  - intros s u. destruct (len s =? 36) eqn:E36; [intros [= <-]; rewrite E36; apply Z.eqb_eq in E36; done|].
    destruct ((len s =? 32) && (len (with_hyphens s) =? 36)) eqn:E; [|done].
    intros [= <-]. apply andb_true_iff in E as [_ E]. rewrite E. by apply Z.eqb_eq in E.
  - intros t. by rewrite Z.div_mul.
  - intros s s' raw js Hp _ [= <-]. by exists raw, js.
  - intros A c key l. apply merge_sort_Permutation.
  - intros A c key l. assert (Transitive (λ x y, key x ≤ key y)) by (intros x y z; lia).
    assert (Total (λ x y, key x ≤ key y)) by (intros x y; lia).
    apply (StronglySorted_merge_sort (λ x y, key x ≤ key y)).
  - intros c n [e ->]. by eexists.
  - intros c n e b. destruct (call_err c); [|done]. by intros [= <- <-].
Qed.

Definition demo_owner : string := "0f8fad5b-d9cb-469f-a165-70867728950e".
Definition demo_agent : Agent.t :=
  Agent.mk "7c9e6679742540de944be07fc1f90ae7" demo_owner "greeter" "says hello" "Be kind." "mock"
    (S754_zero false) 64 ["calculator"] 1 1234567 1234567.
Definition demo_talk : Conversation.t :=
  Conversation.mk "11111111111111111111111111111111" demo_owner (Agent.ID demo_agent) "first" 2000 2000.
Definition demo_message (id : string) (content : string) (t : time) : Message.t :=
  Message.mk id (Conversation.ID demo_talk) "user" content "" [] t.
Definition demo_run : Execution.t :=
  Execution.mk "22222222222222222222222222222222" "33333333333333333333333333333333" "once"
    (Agent.ID demo_agent) demo_owner (Conversation.ID demo_talk) "Hi" "" ExecutionQueued "" 0 0 "" 0
    None None 5000999.

Definition demo_call : Call := mkCall Background 0 0.

Definition demo_writes : list Write :=
  [CreateAgentW demo_agent; CreateConversationW demo_talk;
   AppendMessageW (demo_message "44444444444444444444444444444444" "one" 3000);
   AppendMessageW (demo_message "55555555555555555555555555555555" "two" 4000);
   AppendMessageW (demo_message "66666666666666666666666666666666" "three" 5000);
   CreateExecutionW demo_run].

Definition after (ws : list Write) (db : Tables.t) : Tables.t :=
  foldl (λ db w, (perform w demo_call db).2) db ws.

Definition demo_users : Tables.t := users_only {[ demo_owner ]}.
Definition demo_db (n : nat) : Tables.t := after (take n demo_writes) demo_users.

Lemma after_reachable ws db :
  rtc (λ db db', ∃ w c, db' = (perform w c db).2) db (after ws db).
Proof.
  revert db. induction ws as [|w ws IH]; intros db; [done|].
  eapply rtc_l; [|apply IH]. by exists w, demo_call.
Qed.

Lemma demo_created : Postgres.CreateExecution demo_call demo_run (demo_db 5) = (None, demo_db 6).
Proof. vm_compute. reflexivity. Qed.
Lemma no_fault : fault demo_call 0 = None.
Proof. reflexivity. Qed.

Lemma postgres_execution_roundtrip_witness :
  Postgres.GetExecution demo_call demo_owner (Execution.ID demo_run) (demo_db 6) =
    Ok (stored_form demo_run) ∧
  Execution.ID (stored_form demo_run) = "22222222-2222-2222-2222-222222222222" ∧
  Execution.CreatedAt (stored_form demo_run) = 5000000.
Proof.
  split; [|vm_compute; split; reflexivity].
  exact (proj1 (postgres_execution_roundtrip demo_call demo_call demo_run _ _ demo_created no_fault)).
Defined.

Lemma postgres_id_form_witness :
  ∃ y, Postgres.GetExecution demo_call demo_owner (Execution.ID demo_run) (demo_db 6) = Ok y ∧
       len (Execution.ID y) = 36 ∧ Execution.ID y ≠ Execution.ID demo_run.
Proof.
  assert (len (Execution.ID demo_run) = 32) as Hl by (vm_compute; reflexivity).
  exact (postgres_id_form demo_call demo_call demo_run _ _ demo_created no_fault Hl).
Defined.

Lemma postgres_agent_roundtrip_witness :
  Postgres.GetAgent demo_call demo_owner (Agent.ID demo_agent) (demo_db 1) =
    Ok (stored_agent demo_agent 1234000).
Proof.
  assert (Postgres.CreateAgent demo_call demo_agent demo_users = (None, demo_db 1)) as Hc.
  { vm_compute. reflexivity. }
  exact (proj1 (postgres_agent_roundtrip demo_call demo_call demo_agent _ _ no_fault) Hc).
Defined.

Lemma postgres_invariant_witness : consistent (demo_db 6).
Proof.
  apply (postgres_invariant (demo_db 6)). exists {[ demo_owner ]}. apply after_reachable.
Defined.

Lemma postgres_reads_own_witness :
  Execution.OwnerID (stored_form demo_run) = canon demo_owner ∧
  ∃ row, Tables.executions (demo_db 6) !! canon (Execution.ID demo_run) = Some row ∧
         ExecutionRow.fields row = stored_form demo_run.
Proof.
  destruct (postgres_reads_own demo_call demo_owner (demo_db 6)) as (_ & _ & Hx & _).
  apply (Hx (Execution.ID demo_run)). by vm_compute.
Defined.

(** The last two of three messages. *)
Lemma postgres_recent_messages_witness :
  ∃ l, Postgres.ListMessages demo_call demo_owner (Conversation.ID demo_talk) 2 (demo_db 5) = Some (Ok l) ∧
    Message.Content <$> l = ["two"; "three"] ∧
    ∃ kept rest, l = Postgres.scan_message <$> kept ∧
      kept ++ rest ≡ₚ own_messages demo_owner (Conversation.ID demo_talk) (demo_db 5).
Proof.
  eexists. split; [vm_compute; reflexivity|]. split; [reflexivity|].
  edestruct (postgres_recent_messages demo_call demo_owner (Conversation.ID demo_talk) 2 (demo_db 5))
    as (_ & kept & rest & Hl & Hp & _); [vm_compute; reflexivity|].
  exists kept, rest. exact (conj Hl Hp).
Defined.

(** ** The program on this server *)

#[local] Instance demo_reliable : PgReliable.
Proof. intros c n e b. simpl. destruct (call_err c); [|done]. by intros [= <- <-]. Qed.

#[local] Existing Instance demo_env.
#[local] Existing Instance demo_unicode.
#[local] Existing Instance NopEventSink.ops.
#[local] Existing Instance demo_counters.
#[local] Existing Instance MemoryFacts.demo_order.

Lemma stores_implement_contract_witness : StoreLaws Memory.t ∧ StoreLaws Tables.t.
Proof. exact stores_implement_contract. Defined.

Lemma demo_db_reachable n : reachable (demo_db n).
Proof. exists {[ demo_owner ]}. apply after_reachable. Qed.

Definition pg_world (db : Tables.t) : World Tables.t unit Immediate.t :=
  mkWorld (mkRuntime 1000000000 0) db tt (Immediate.NewImmediate 8) Engine.new_breaker
          calculator_only [].

(** The execution as a worker reads it, and what its row holds after the run. *)
Lemma pg_run :
  ∃ out w', exec (Engine.Execute demo_engine Background (stored_agent demo_agent 1234000)
                    (stored_form demo_run)) (pg_world (demo_db 6)) out w' ∧
            summary out = ("3 and 3.5", ExecutionSucceeded, 20, 10, 0, None).
Proof. apply (prun_result demo_schedule). vm_compute. reflexivity. Qed.

Lemma pg_read :
  Postgres.GetExecution demo_call demo_owner (Execution.ID demo_run) (demo_db 6) =
  Ok (stored_form demo_run).
Proof. vm_compute. reflexivity. Qed.

Lemma postgres_run_witness :
  ∃ y (w' : World Tables.t unit Immediate.t),
    summary (y, None) = ("3 and 3.5", ExecutionSucceeded, 20, 10, 0, None) ∧
    ExecutionRow.fields <$> Tables.executions (w_store w') !! canon (Execution.ID demo_run) =
      Some (stored_form y).
Proof.
  destruct pg_run as ([y err] & w' & He & Hs).
  pose proof (postgres_run (pg_world (demo_db 6)) demo_engine Background
    (stored_agent demo_agent 1234000) demo_attempts (λ _, demo_sane) demo_call demo_owner
    (Execution.ID demo_run) (stored_form demo_run) (demo_db_reachable 6) pg_read) as Hp.
  pose proof (pwp_exec _ _ _ _ _ Hp He) as [(tr & _ & _ & now & Hc) _].
  assert (err = None) as -> by (injection Hs; intros; assumption). exists y, w'.
  split; [exact Hs|].
  destruct Hc as [(c & _ & Hn & _)|(r & (_ & _ & [[_ <-]|(c & _ & _ & Hn)]) & _ & Hrow)];
    [discriminate|exact Hrow|discriminate].
Defined.


(** The conversation is of the owner with the agent; under the canonical identifier of the
    agent it goes on, under the one the caller was given it does not. *)
Definition next_turn : ExecutionInput.t :=
  ExecutionInput.mk "And 7/2?" (Conversation.ID demo_talk) "" "77777777777777777777777777777777".
Definition accepted (agentID : string) : option bool :=
  (λ r, bool_decide (r.1.2 = None)) <$>
    run (Service.StartExecution start_ctx demo_owner agentID next_turn) (pg_world (demo_db 6)).

Lemma postgres_conversation_refused_witness :
  wp (Service.StartExecution start_ctx demo_owner (Agent.ID demo_agent) next_turn) (λ out w',
    (∃ err, out = (None, false, Some err)) ∧ w_store w' = w_store (pg_world (demo_db 6)))
    (pg_world (demo_db 6)) ∧
  accepted (Agent.ID demo_agent) = Some false ∧ accepted (canon (Agent.ID demo_agent)) = Some true.
Proof.
  split; [|vm_compute; split; reflexivity].
  eapply wp_mono.
  - apply (postgres_conversation_refused start_ctx demo_owner (Agent.ID demo_agent) next_turn
             (pg_world (demo_db 6))); [apply demo_db_reachable|by vm_compute..].
  - intros out w' (Ho & Hs & _). exact (conj Ho Hs).
Defined.
