(* ===== verification/Config.v ===== *)
(** * [internal/config/config.go]: the configuration, from the environment

    The environment is a function from names to values; a variable that is not set reads as
    the empty string ([os.Getenv]). *)

From S2P Require Import Prelude GoLang GoString GoTime.
Open Scope Z_scope.

Module HTTPConfig.
Record t := mk {
  Addr : string;
  ReadHeaderTimeout : duration;
  ReadTimeout : duration;
  WriteTimeout : duration;
  IdleTimeout : duration
}.
End HTTPConfig.

Module Config.
Record t := mk {
  HTTP : HTTPConfig.t;
  DatabaseURL : string;
  RedisAddr : string;
  RedisPassword : string;
  RedisDB : Z;
  QueueKey : string;
  EventChannelPrefix : string;
  WorkerConcurrency : Z;
  JWTSecret : string;
  APIKey : string;
  APIKeyUser : string;
  LLMBaseURL : string;
  LLMAPIKey : string;
  LLMProvider : string;
  RunMode : string;
  OTLPEndpoint : string
}.
End Config.

Section load.
Context `{Unicode}.
Context (Getenv : string → string).

Definition stringFromEnv (key fallback : string) : string :=
  let value := Getenv key in if decide (value = "") then fallback else value.

Definition durationFromEnv (key : string) (fallback : duration) : result duration :=
  let value := Getenv key in
  if decide (value = "") then Ok fallback
  else match ParseDuration value with
       | Err err => Err (Wrap ("parse " +:+ key) err)
       | Ok duration =>
           if duration <=? 0 then Err (ErrorString (key +:+ " must be positive")) else Ok duration
       end.

Definition intFromEnv (key : string) (fallback : Z) : result Z :=
  let value := Getenv key in
  if decide (value = "") then Ok fallback
  else match Atoi value with
       | (_, Some err) => Err (Wrap ("parse " +:+ key) err)
       | (parsed, None) => Ok parsed
       end.

Definition Load : result Config.t :=
  readHeaderTimeout ← durationFromEnv "HTTP_READ_HEADER_TIMEOUT" (5 * Second);
  readTimeout ← durationFromEnv "HTTP_READ_TIMEOUT" (15 * Second);
  writeTimeout ← durationFromEnv "HTTP_WRITE_TIMEOUT" (30 * Second);
  idleTimeout ← durationFromEnv "HTTP_IDLE_TIMEOUT" (60 * Second);
  redisDB ← intFromEnv "REDIS_DB" 0;
  match intFromEnv "WORKER_CONCURRENCY" 4 with
  | Err _ => Err (ErrorString "WORKER_CONCURRENCY must be a positive integer")
  | Ok workerConcurrency =>
      if workerConcurrency <? 1
      then Err (ErrorString "WORKER_CONCURRENCY must be a positive integer")
      else
        Ok (Config.mk
              (HTTPConfig.mk (stringFromEnv "HTTP_ADDR" ":8080")
                 readHeaderTimeout readTimeout writeTimeout idleTimeout)
              (Getenv "DATABASE_URL") (Getenv "REDIS_ADDR") (Getenv "REDIS_PASSWORD") redisDB
              (stringFromEnv "REDIS_QUEUE_KEY" "agentflow:jobs")
              (stringFromEnv "REDIS_EVENT_PREFIX" "agentflow:events:") workerConcurrency
              (stringFromEnv "JWT_SECRET" "development-only-change-me")
              (stringFromEnv "AGENTFLOW_API_KEY" "dev-agentflow-key")
              (stringFromEnv "AGENTFLOW_API_KEY_USER" "00000000-0000-0000-0000-000000000001")
              (stringFromEnv "LLM_BASE_URL" "https://api.openai.com/v1") (Getenv "LLM_API_KEY")
              (stringFromEnv "LLM_PROVIDER" "mock") (stringFromEnv "RUN_MODE" "all")
              (Getenv "OTEL_EXPORTER_OTLP_ENDPOINT"))
  end.

(** ** Properties *)

(** A variable that is not set, or a positive duration. *)
Definition duration_set (key : string) : Prop :=
  Getenv key = "" ∨ ∃ d, ParseDuration (Getenv key) = Ok d ∧ 0 < d.
Definition int_set (key : string) (P : Z → Prop) : Prop :=
  Getenv key = "" ∨ ∃ n, Atoi (Getenv key) = (n, None) ∧ P n.

(** The value of a setting: its default where its variable is not set, and otherwise what the
    variable says. *)
Definition text_setting (key fallback value : string) : Prop :=
  (Getenv key = "" ∧ value = fallback) ∨ (Getenv key ≠ "" ∧ value = Getenv key).
Definition duration_setting (key : string) (fallback value : duration) : Prop :=
  (Getenv key = "" ∧ value = fallback) ∨
  (Getenv key ≠ "" ∧ ParseDuration (Getenv key) = Ok value ∧ 0 < value).
Definition int_setting (key : string) (fallback value : Z) : Prop :=
  (Getenv key = "" ∧ value = fallback) ∨ (Getenv key ≠ "" ∧ Atoi (Getenv key) = (value, None)).

(** Every setting, with the variable it is read from and its default. *)
Record settings (c : Config.t) : Prop := {
  set_addr : text_setting "HTTP_ADDR" ":8080" (HTTPConfig.Addr (Config.HTTP c));
  set_header_timeout : duration_setting "HTTP_READ_HEADER_TIMEOUT" (5 * Second)
    (HTTPConfig.ReadHeaderTimeout (Config.HTTP c));
  set_read_timeout : duration_setting "HTTP_READ_TIMEOUT" (15 * Second)
    (HTTPConfig.ReadTimeout (Config.HTTP c));
  set_write_timeout : duration_setting "HTTP_WRITE_TIMEOUT" (30 * Second)
    (HTTPConfig.WriteTimeout (Config.HTTP c));
  set_idle_timeout : duration_setting "HTTP_IDLE_TIMEOUT" (60 * Second)
    (HTTPConfig.IdleTimeout (Config.HTTP c));
  set_database : Config.DatabaseURL c = Getenv "DATABASE_URL";
  set_redis : Config.RedisAddr c = Getenv "REDIS_ADDR";
  set_redis_password : Config.RedisPassword c = Getenv "REDIS_PASSWORD";
  set_redis_db : int_setting "REDIS_DB" 0 (Config.RedisDB c);
  set_queue : text_setting "REDIS_QUEUE_KEY" "agentflow:jobs" (Config.QueueKey c);
  set_events : text_setting "REDIS_EVENT_PREFIX" "agentflow:events:" (Config.EventChannelPrefix c);
  set_workers : int_setting "WORKER_CONCURRENCY" 4 (Config.WorkerConcurrency c) ∧
    1 ≤ Config.WorkerConcurrency c;
  set_secret : text_setting "JWT_SECRET" "development-only-change-me" (Config.JWTSecret c);
  set_api_key : text_setting "AGENTFLOW_API_KEY" "dev-agentflow-key" (Config.APIKey c);
  set_api_user : text_setting "AGENTFLOW_API_KEY_USER" "00000000-0000-0000-0000-000000000001"
    (Config.APIKeyUser c);
  set_llm_url : text_setting "LLM_BASE_URL" "https://api.openai.com/v1" (Config.LLMBaseURL c);
  set_llm_key : Config.LLMAPIKey c = Getenv "LLM_API_KEY";
  set_llm : text_setting "LLM_PROVIDER" "mock" (Config.LLMProvider c);
  set_mode : text_setting "RUN_MODE" "all" (Config.RunMode c);
  set_otlp : Config.OTLPEndpoint c = Getenv "OTEL_EXPORTER_OTLP_ENDPOINT"
}.

Lemma stringFromEnv_setting key fallback value :
  value = stringFromEnv key fallback ↔ text_setting key fallback value.
Proof. unfold stringFromEnv, text_setting. case_decide; naive_solver. Qed.

Lemma durationFromEnv_setting key fallback value :
  durationFromEnv key fallback = Ok value ↔ duration_setting key fallback value.
Proof.
  unfold durationFromEnv, duration_setting. case_decide as He; [naive_solver|].
  destruct (ParseDuration (Getenv key)) as [d|e]; [|naive_solver]. case_cmp; naive_solver lia.
Qed.

Lemma intFromEnv_setting key fallback value :
  intFromEnv key fallback = Ok value ↔ int_setting key fallback value.
Proof.
  unfold intFromEnv, int_setting. case_decide as He; [naive_solver|].
  destruct (Atoi (Getenv key)) as [n [e|]]; naive_solver.
Qed.

Lemma Load_settings c : Load = Ok c ↔ settings c.
Proof.
  unfold Load. split.
  - intros Hl.
    destruct (durationFromEnv "HTTP_READ_HEADER_TIMEOUT" _) as [d1|] eqn:E1; [cbn in Hl|done].
    destruct (durationFromEnv "HTTP_READ_TIMEOUT" _) as [d2|] eqn:E2; [cbn in Hl|done].
    destruct (durationFromEnv "HTTP_WRITE_TIMEOUT" _) as [d3|] eqn:E3; [cbn in Hl|done].
    destruct (durationFromEnv "HTTP_IDLE_TIMEOUT" _) as [d4|] eqn:E4; [cbn in Hl|done].
    destruct (intFromEnv "REDIS_DB" _) as [n5|] eqn:E5; [cbn in Hl|done].
    destruct (intFromEnv "WORKER_CONCURRENCY" _) as [n6|] eqn:E6; [cbn in Hl|done].
    destruct (Z.ltb_spec n6 1) as [Hn|Hn]; [done|]. injection Hl as <-.
    split; simpl; try done; try (by apply stringFromEnv_setting);
      try (by apply durationFromEnv_setting); [by apply intFromEnv_setting|].
    split; [by apply intFromEnv_setting|done].
  - intros [S1 D1 D2 D3 D4 G1 G2 G3 N1 S2 S3 [N2 Hn] S4 S5 S6 S7 G4 S8 S9 G5].
    apply durationFromEnv_setting in D1, D2, D3, D4. apply intFromEnv_setting in N1, N2.
    apply stringFromEnv_setting in S1, S2, S3, S4, S5, S6, S7, S8, S9.
    rewrite D1. cbn. rewrite D2. cbn. rewrite D3. cbn. rewrite D4. cbn. rewrite N1. cbn. rewrite N2.
    rewrite (proj2 (Z.ltb_ge _ _) Hn), <-S1, <-S2, <-S3, <-S4, <-S5, <-S6, <-S7, <-S8, <-S9.
    rewrite <-G1, <-G2, <-G3, <-G4, <-G5. by destruct c as [[]].
Qed.

Lemma duration_settable key fallback :
  duration_set key ↔ ∃ d, duration_setting key fallback d.
Proof.
  unfold duration_set, duration_setting. destruct (decide (Getenv key = "")) as [E|E]; [naive_solver|].
  naive_solver.
Qed.

Lemma int_settable key fallback P :
  P fallback → int_set key P ↔ ∃ n, int_setting key fallback n ∧ P n.
Proof.
  intros HP. unfold int_set, int_setting. destruct (decide (Getenv key = "")) as [E|E]; [naive_solver|].
  naive_solver.
Qed.

(** C37: The configuration, setting by setting: [Load] succeeds exactly when each timeout that is set
    is a positive duration, the Redis database an integer and the worker concurrency a positive
    one; and it returns a configuration exactly when every field of it is what its own variable says,
    or the default of that setting if this variable is not set, whichever of the others are. *)
Theorem Load_spec :
  (is_ok Load = true ↔
   duration_set "HTTP_READ_HEADER_TIMEOUT" ∧ duration_set "HTTP_READ_TIMEOUT" ∧
   duration_set "HTTP_WRITE_TIMEOUT" ∧ duration_set "HTTP_IDLE_TIMEOUT" ∧
   int_set "REDIS_DB" (λ _, True) ∧ int_set "WORKER_CONCURRENCY" (λ n, 1 ≤ n)) ∧
  ∀ c, Load = Ok c ↔ settings c.
Proof.
  split; [|exact Load_settings].
  rewrite (duration_settable "HTTP_READ_HEADER_TIMEOUT" (5 * Second)).
  rewrite (duration_settable "HTTP_READ_TIMEOUT" (15 * Second)).
  rewrite (duration_settable "HTTP_WRITE_TIMEOUT" (30 * Second)).
  rewrite (duration_settable "HTTP_IDLE_TIMEOUT" (60 * Second)).
  rewrite (int_settable "REDIS_DB" 0), (int_settable "WORKER_CONCURRENCY" 4) by done. split.
  - destruct Load as [c|] eqn:E; [|done]. intros _. apply Load_settings in E.
    destruct E. split_and!; eauto.
  - intros ((d1 & D1) & (d2 & D2) & (d3 & D3) & (d4 & D4) & (n5 & N5 & _) & n6 & N6 & Hn).
    set (c := Config.mk (HTTPConfig.mk (stringFromEnv "HTTP_ADDR" ":8080") d1 d2 d3 d4)
      (Getenv "DATABASE_URL") (Getenv "REDIS_ADDR") (Getenv "REDIS_PASSWORD") n5
      (stringFromEnv "REDIS_QUEUE_KEY" "agentflow:jobs")
      (stringFromEnv "REDIS_EVENT_PREFIX" "agentflow:events:") n6
      (stringFromEnv "JWT_SECRET" "development-only-change-me")
      (stringFromEnv "AGENTFLOW_API_KEY" "dev-agentflow-key")
      (stringFromEnv "AGENTFLOW_API_KEY_USER" "00000000-0000-0000-0000-000000000001")
      (stringFromEnv "LLM_BASE_URL" "https://api.openai.com/v1") (Getenv "LLM_API_KEY")
      (stringFromEnv "LLM_PROVIDER" "mock") (stringFromEnv "RUN_MODE" "all")
      (Getenv "OTEL_EXPORTER_OTLP_ENDPOINT")).
    enough (Load = Ok c) as -> by done. apply Load_settings.
    split; simpl; try done; by apply stringFromEnv_setting.
Qed.
End load.

#[local] Existing Instance demo_unicode.

Definition demo_environment (key : string) : string :=
  if decide (key = "HTTP_READ_TIMEOUT") then "1m30s"
  else if decide (key = "WORKER_CONCURRENCY") then "16" else "".

Lemma Load_spec_witness :
  ∃ c, settings demo_environment c ∧
    HTTPConfig.ReadTimeout (Config.HTTP c) = 90 * Second ∧
    HTTPConfig.WriteTimeout (Config.HTTP c) = 30 * Second ∧ Config.WorkerConcurrency c = 16 ∧
    duration_set demo_environment "HTTP_READ_TIMEOUT" ∧
    is_ok (Load (λ key, if decide (key = "WORKER_CONCURRENCY") then "0" else "")) = false.
Proof.
  destruct (Load_spec demo_environment) as [Hl Hs].
  destruct (Load demo_environment) as [c|] eqn:E; [|vm_compute in E; discriminate E].
  exists c. split; [exact (proj1 (Hs c) eq_refl)|].
  vm_compute in E. injection E as <-. split; [reflexivity|]. split; [reflexivity|]. split; [reflexivity|].
  split; [exact (proj1 (proj2 (proj1 Hl eq_refl)))|vm_compute; reflexivity].
Defined.
