(* ===== verification/Main.v ===== *)
(** * [cmd/api/main.go]: the process

    [main] up to its [select] is a function of the configuration and of what the host answers
    ([startup]): which implementations are chosen, what is opened, what is deferred, what is
    started.  From there the process is a transition system: the pool of workers moves, a
    signal or the end of the server wakes [main], and [main] returns or exits.  A return runs
    the deferred calls, last first; [os.Exit] runs none.  Logging is left out. *)

From S2P Require Import Prelude GoLang GoString Conc Runtime Domain Breaker Retry Memory Tool.
From S2P Require Import ToolExamples Llm OpenAi World Engine Queue Service WorkerPool Broker Auth.
From S2P Require Import Observability GoTime Config.
Open Scope Z_scope.

(** ** The choices *)

Module Options.
Record t := mk { Addr : string; Password : string; DB : Z }.
End Options.

(** What the process opens and has to close. *)
Inductive handle : Set :=
| PostgresPool (databaseURL : string)
| QueueClient (options : Options.t)
| EventClient (options : Options.t).

Inductive store_choice := InMemory (storage : Memory.t) | InPostgres (databaseURL : string).
Inductive queue_choice := InProcess (jobs : Immediate.t) | InRedis (options : Options.t) (key : string).
Inductive stream_choice := LocalEvents (broker : Broker.t) | RedisEvents (options : Options.t) (prefix : string).
Inductive provider_choice := MockModel | RemoteModel (provider : OpenAICompatible.t).

Definition redis_options (cfg : Config.t) : Options.t :=
  Options.mk (Config.RedisAddr cfg) (Config.RedisPassword cfg) (Config.RedisDB cfg).

Definition buildProvider (cfg : Config.t) : provider_choice :=
  if decide (Config.LLMProvider cfg = "mock") then MockModel
  else RemoteModel (OpenAICompatible.NewOpenAICompatible (Config.LLMBaseURL cfg) (Config.LLMAPIKey cfg)).

(** The [http.Server] that [New] of package httpapi returns; its handler is [Http.serve]. *)
Module HTTPServer.
Record t := mk {
  Addr : string;
  ReadHeaderTimeout : duration;
  ReadTimeout : duration;
  WriteTimeout : duration;
  IdleTimeout : duration
}.
End HTTPServer.

Definition new_server (c : HTTPConfig.t) : HTTPServer.t :=
  HTTPServer.mk (HTTPConfig.Addr c) (HTTPConfig.ReadHeaderTimeout c) (HTTPConfig.ReadTimeout c)
    (HTTPConfig.WriteTimeout c) (HTTPConfig.IdleTimeout c).

(** ** The actions of [main] *)

Inductive action : Set :=
| Open (h : handle) | Close (h : handle)
| StopTracing | StopSignals
| Work (concurrency : Z) | Listen (addr : string)
| CancelWorkers | Shutdown (outcome : option error) | CancelShutdown.

(** What the host answers. *)
Class Host := {
  (* the exporter of spans *)
  host_otel :: Otel;
  (* the creation of a connection pool; a Redis client is always created *)
  new_pool : string → option error;
  (* a ping of what was opened *)
  ping : handle → option error
}.

(** The part of a process before its select: what was done, and what is deferred. *)
Module Boot.
Record t := mk { trace : list action; deferred : list action }.
End Boot.

(** A step of [main]; [None]: [os.Exit(1)]. *)
Definition boot (A : Type) : Type := Boot.t → Boot.t * option A.

#[export] Instance boot_ret : MRet boot := λ A a b, (b, Some a).
#[export] Instance boot_bind : MBind boot := λ A B f p b,
  match p b with (b, Some a) => f a b | (b, None) => (b, None) end.

Definition act (a : action) : boot unit :=
  λ b, (Boot.mk (Boot.trace b ++ [a]) (Boot.deferred b), Some tt).
Definition defer_ (l : list action) : boot unit :=
  λ b, (Boot.mk (Boot.trace b) (l ++ Boot.deferred b), Some tt).
Definition exit {A} : boot A := λ b, (b, None).
Definition must {A} (r : result A) : boot A := match r with Ok a => mret a | Err _ => exit end.
Definition check_ (err : option error) : boot unit := if err is Some _ then exit else mret tt.

Section startup.
Context `{Host, Unicode}.

(** [Open] of package postgres. *)
Definition open_postgres (databaseURL : string) : boot unit :=
  check_ (new_pool databaseURL);;
  act (Open (PostgresPool databaseURL));;
  if ping (PostgresPool databaseURL) is Some _ then act (Close (PostgresPool databaseURL));; exit else mret tt.

(** A Redis client that is pinged. *)
Definition open_redis (h : handle) : boot unit :=
  act (Open h);; if ping h is Some _ then act (Close h);; exit else mret tt.

Definition buildStore (cfg : Config.t) : boot (store_choice * list action) :=
  if decide (Config.DatabaseURL cfg = "") then mret (InMemory Memory.NewMemory, [])
  else
    open_postgres (Config.DatabaseURL cfg);;
    mret (InPostgres (Config.DatabaseURL cfg), [Close (PostgresPool (Config.DatabaseURL cfg))]).

Definition buildQueue (cfg : Config.t) : boot (queue_choice * list action) :=
  if decide (Config.RedisAddr cfg = "") then mret (InProcess (Immediate.NewImmediate 1024), [])
  else
    open_redis (QueueClient (redis_options cfg));;
    mret (InRedis (redis_options cfg) (Config.QueueKey cfg), [Close (QueueClient (redis_options cfg))]).

Definition buildEventStream (cfg : Config.t) : boot (stream_choice * list action) :=
  if decide (Config.RedisAddr cfg = "") then mret (LocalEvents Broker.NewBroker, [])
  else
    open_redis (EventClient (redis_options cfg));;
    mret (RedisEvents (redis_options cfg) (Config.EventChannelPrefix cfg),
          [Close (EventClient (redis_options cfg))]).

(** What is wired together. *)
Record wiring := mkWiring {
  the_config : Config.t;
  the_store : store_choice;
  the_queue : queue_choice;
  the_stream : stream_choice;
  the_provider : provider_choice;
  the_tools : Registry.t;
  the_auth : Authenticator.t;
  the_spans : tracing;
  the_server : HTTPServer.t
}.

Definition works (cfg : Config.t) : bool :=
  bool_decide (Config.RunMode cfg = "worker" ∨ Config.RunMode cfg = "all").
Definition serves (cfg : Config.t) : bool :=
  bool_decide (Config.RunMode cfg = "api" ∨ Config.RunMode cfg = "all").

(** [main] up to its select. *)
Definition startup (config : result Config.t) : boot wiring :=
  cfg ← must config;
  defer_ [StopSignals];;
  spans ← must (InitTracing ("agentflow-" +:+ Config.RunMode cfg) (Config.OTLPEndpoint cfg));
  defer_ [StopTracing];;
  '(storage, closeStorage) ← buildStore cfg;
  defer_ closeStorage;;
  '(jobQueue, closeQueue) ← buildQueue cfg;
  defer_ closeQueue;;
  registry ← must (Registry.NewRegistry DefaultTools);
  '(broker, closeBroker) ← buildEventStream cfg;
  defer_ closeBroker;;
  (if negb (works cfg) && negb (serves cfg) then exit else mret tt);;
  defer_ [CancelWorkers];;
  (if works cfg then act (Work (Config.WorkerConcurrency cfg)) else mret tt);;
  (if serves cfg then act (Listen (HTTPServer.Addr (new_server (Config.HTTP cfg)))) else mret tt);;
  mret (mkWiring cfg storage jobQueue broker (buildProvider cfg) registry
          (Authenticator.New (Config.JWTSecret cfg) (Config.APIKey cfg) (Config.APIKeyUser cfg))
          spans (new_server (Config.HTTP cfg))).
End startup.

(** ** The process *)

Module Process.
Inductive phase : Set := Serving | Stopping | Exited (code : Z).

Definition running (f : phase) : bool := match f with Exited _ => false | _ => true end.

Record t (QU : Type) := mk {
  ph : phase;
  trace : list action;
  deferred : list action;
  mode : option Config.t;             (* [None]: [startup] has exited *)
  pool : option (Pool.t QU);
  cancelled : option time             (* the context of the workers *)
}.
Arguments mk {QU}.
Arguments ph {QU}.
Arguments trace {QU}.
Arguments deferred {QU}.
Arguments mode {QU}.
Arguments pool {QU}.
Arguments cancelled {QU}.

Section process.
Context `{Host, Unicode} {QU : Type} `{QueueOps QU}.
Implicit Types (p : t QU).

(** The process after [startup]; [jobs] is the queue that was chosen, as it is found. *)
Definition main (config : result Config.t) (now : time) (jobs : QU) : t QU :=
  match startup config (Boot.mk [] []) with
  | (b, None) => mk (Exited 1) (Boot.trace b) (Boot.deferred b) None None None
  | (b, Some w) =>
      mk Serving (Boot.trace b) (Boot.deferred b) (Some (the_config w))
         (if works (the_config w)
          then Some (Pool.Run now (Config.WorkerConcurrency (the_config w)) jobs) else None) None
  end.

Definition workers_context p : Context :=
  match cancelled p with Some stop => CancelledAt stop | None => Background end.

(** The select is left: [cancelWorkers] follows. *)
Definition wake (at_ : time) p : t QU :=
  mk Stopping (trace p ++ [CancelWorkers]) (deferred p) (mode p) (pool p) (Some at_).

(** [main] returns after the actions [l]. *)
Definition return_ (l : list action) p : t QU :=
  mk (Exited 0) (trace p ++ l ++ deferred p) [] (mode p) (pool p) (cancelled p).

Inductive step : t QU → t QU → Prop :=
| step_pool p pl pl' :
    running (ph p) = true → pool p = Some pl → Pool.moves (workers_context p) pl pl' →
    step p (mk (ph p) (trace p) (deferred p) (mode p) (Some pl') (cancelled p))
| step_signal p at_ :
    ph p = Serving → (∀ pl, pool p = Some pl → Pool.now pl ≤ at_) → step p (wake at_ p)
| step_server_ended p cfg at_ :
    ph p = Serving → mode p = Some cfg → serves cfg = true →
    (∀ pl, pool p = Some pl → Pool.now pl ≤ at_) → step p (wake at_ p)
| step_return p cfg :
    ph p = Stopping → mode p = Some cfg → serves cfg = false → step p (return_ [] p)
| step_shutdown p cfg :
    ph p = Stopping → mode p = Some cfg → serves cfg = true →
    step p (return_ [Shutdown None; CancelShutdown] p)
| step_shutdown_failed p cfg err :
    ph p = Stopping → mode p = Some cfg → serves cfg = true →
    step p (mk (Exited 1) (trace p ++ [Shutdown (Some err)]) (deferred p) (mode p) (pool p)
               (cancelled p)).
End process.
End Process.

(** ** Properties *)

(** The handles that are opened and closed in a trace, in order. *)
Definition opened (l : list action) : list handle :=
  omap (λ a, match a with Open h => Some h | _ => None end) l.
Definition closed (l : list action) : list handle :=
  omap (λ a, match a with Close h => Some h | _ => None end) l.

(** Whether the last spans are sent to the collector. *)
Definition flushed (l : list action) : bool :=
  existsb (λ a, match a with StopTracing => true | _ => false end) l.

(** What an exit leaves behind: at most the handle it has failed on is closed. *)
Definition abandoned (l : list action) : Prop :=
  flushed l = false ∧
  (closed l = [] ∨ ∃ l' h, opened l = l' ++ [h] ∧ closed l = [h]).

Lemma opened_app l l' : opened (l ++ l') = opened l ++ opened l'.
Proof. apply omap_app. Qed.
Lemma closed_app l l' : closed (l ++ l') = closed l ++ closed l'.
Proof. apply omap_app. Qed.

Lemma default_registry `{Unicode} : ∃ r, Registry.NewRegistry DefaultTools = Ok r.
Proof. by eexists. Qed.

(** What stands between a process and its select. *)
Definition can_start `{Host} (cfg : Config.t) : Prop :=
  is_ok (InitTracing ("agentflow-" +:+ Config.RunMode cfg) (Config.OTLPEndpoint cfg)) = true ∧
  (Config.DatabaseURL cfg ≠ "" →
   new_pool (Config.DatabaseURL cfg) = None ∧ ping (PostgresPool (Config.DatabaseURL cfg)) = None) ∧
  (Config.RedisAddr cfg ≠ "" →
   ping (QueueClient (redis_options cfg)) = None ∧ ping (EventClient (redis_options cfg)) = None) ∧
  Config.RunMode cfg ∈ ["api"; "worker"; "all"].

(** The handles a configuration asks for. *)
Definition handles (cfg : Config.t) : list handle :=
  (if decide (Config.DatabaseURL cfg = "") then [] else [PostgresPool (Config.DatabaseURL cfg)]) ++
  (if decide (Config.RedisAddr cfg = "") then []
   else [QueueClient (redis_options cfg); EventClient (redis_options cfg)]).

Section startup_facts.
Context `{Host, Unicode}.

Lemma modes cfg : negb (works cfg) && negb (serves cfg) = false ↔ Config.RunMode cfg ∈ ["api"; "worker"; "all"].
Proof.
  unfold works, serves. rewrite <- negb_orb, negb_false_iff, orb_true_iff, !bool_decide_eq_true.
  rewrite !elem_of_cons, elem_of_nil. naive_solver.
Qed.

#[local] Arguments InitTracing : simpl never.
#[local] Arguments new_pool : simpl never.
#[local] Arguments ping : simpl never.
#[local] Arguments Registry.NewRegistry : simpl never.
#[local] Arguments DefaultTools : simpl never.
#[local] Arguments String.append : simpl never.

(** Closes a case in which [startup] exits. *)
Ltac stopped :=
  split; [intros ? [= <-] (? & ? & ? & ?); naive_solver congruence|split; [done|]; first [by left | right; first [by eexists [], _ | by eexists [_], _ | by eexists [_; _], _]]].

Lemma startup_cases config :
  match startup config (Boot.mk [] []) with
  | (b, Some w) =>
      config = Ok (the_config w) ∧ can_start (the_config w) ∧
      opened (Boot.trace b) = handles (the_config w) ∧ closed (Boot.trace b) = [] ∧
      flushed (Boot.trace b) = false ∧
      (existsb (λ a, match a with Listen _ => true | _ => false end) (Boot.trace b) = serves (the_config w)) ∧
      Boot.deferred b = [CancelWorkers] ++ (Close <$> reverse (handles (the_config w))) ++
                        [StopTracing; StopSignals]
  | (b, None) => (∀ cfg, config = Ok cfg → ¬ can_start cfg) ∧ abandoned (Boot.trace b)
  end.
Proof.
  destruct config as [cfg|err]; [|split; [done|by split; [|left]]].
  destruct default_registry as [r Hr]. pose proof (modes cfg) as Hm.
  unfold startup, can_start, handles, check_, must, defer_, act, exit, mbind, boot_bind, mret, boot_ret.
  cbn. destruct (InitTracing _ _) as [spans|e] eqn:Et.
  2: { split; [intros ? [= <-] (Ht & _); by rewrite Et in Ht|]. split; [done|by left]. }
  unfold buildStore, buildQueue, buildEventStream, open_postgres, open_redis, check_, act, exit,
    mbind, boot_bind, mret, boot_ret.
  destruct (decide (Config.DatabaseURL cfg = "")) as [Ed|Ed];
    [|destruct (new_pool _) eqn:Ep; [stopped|]; destruct (ping (PostgresPool _)) eqn:Eg; [stopped|]].
  all: cbn; destruct (decide (Config.RedisAddr cfg = "")) as [Er|Er];
    [|destruct (ping (QueueClient _)) eqn:Eq; [stopped|]].
  all: cbn; rewrite Hr; cbn;
    try (destruct (ping (EventClient _)) eqn:Ee; [stopped|]).
  all: cbn; destruct (negb (works cfg) && negb (serves cfg)) eqn:Ew; [stopped|].
  all: destruct (works cfg) eqn:?, (serves cfg) eqn:?; cbn; try discriminate Ew.
  all: split_and!; try done; try (by rewrite Et); try (by apply Hm); repeat case_decide; done.
Qed.
End startup_facts.

(** ** The life of the process *)

Section life.
Context `{Host, Unicode} {QU : Type} `{QueueOps QU}.
Implicit Types (p : Process.t QU).

(** What is deferred once everything is started. *)
Definition base (cfg : Config.t) : list action :=
  [CancelWorkers] ++ (Close <$> reverse (handles cfg)) ++ [StopTracing; StopSignals].

Lemma closed_base cfg : closed (base cfg) = reverse (handles cfg) ∧ opened (base cfg) = [] ∧
  flushed (base cfg) = true.
Proof.
  assert (∀ l, closed (Close <$> l) = l ∧ opened (Close <$> l) = []) as Hl.
  { induction l as [|h l [IH1 IH2]]; [done|]. split; [by simpl; f_equal|done]. }
  destruct (Hl (reverse (handles cfg))) as [E1 E2]. unfold base, flushed. simpl.
  rewrite closed_app, opened_app, E1, E2, existsb_app, app_nil_r. split_and!; try done.
  simpl. by rewrite orb_true_r.
Qed.

Inductive history : list action → Prop :=
| history_intro l l' :
    closed l = [] → closed l' = reverse (opened l) → opened l' = [] → flushed l' = true →
    history (l ++ CancelWorkers :: l').

(** What every reachable process satisfies. *)
Definition lives p : Prop :=
  match Process.ph p with
  | Process.Serving => ∃ cfg, Process.mode p = Some cfg ∧ can_start cfg ∧
      Process.deferred p = base cfg ∧ opened (Process.trace p) = handles cfg ∧
      closed (Process.trace p) = [] ∧ flushed (Process.trace p) = false
  | Process.Stopping => ∃ cfg l, Process.mode p = Some cfg ∧ Process.trace p = l ++ [CancelWorkers] ∧
      Process.deferred p = base cfg ∧ opened l = handles cfg ∧ closed l = [] ∧ flushed l = false
  | Process.Exited code =>
      code = 0 ∧ history (Process.trace p) ∨ code = 1 ∧ abandoned (Process.trace p)
  end.

Lemma main_lives config now (jobs : QU) : lives (Process.main config now jobs).
Proof.
  pose proof (startup_cases config) as Hs. unfold Process.main.
  destruct (startup config _) as [b [w|]]; unfold lives; simpl.
  - destruct Hs as (_ & Hc & Ho & Hcl & Hf & _ & Hd). by exists (the_config w).
  - right. by destruct Hs.
Qed.

Lemma history_end cfg l m :
  opened l = handles cfg → closed l = [] → closed m = [] → opened m = [] →
  history ((l ++ [CancelWorkers]) ++ m ++ base cfg).
Proof.
  intros Ho Hc Hm Hm'. rewrite <- (assoc_L (++)). destruct (closed_base cfg) as (E1 & E2 & E3).
  simpl. apply history_intro; [done|..].
  - by rewrite closed_app, Hm, E1, Ho.
  - by rewrite opened_app, Hm', E2.
  - unfold flushed in *. by rewrite existsb_app, E3, orb_true_r.
Qed.

Lemma step_lives p p' : lives p → Process.step p p' → lives p'.
Proof.
  intros Hp Hs. unfold lives in *.
  destruct Hs as [p pl pl' Hr Hpl Hm|p at_ Hph Hn|p cfg at_ Hph Hm Hsv Hn|p cfg Hph Hm Hsv
                 |p cfg Hph Hm Hsv|p cfg err Hph Hm Hsv].
  - simpl. by destruct (Process.ph p).
  - rewrite Hph in Hp. destruct Hp as (cfg & Hmode & _ & Hd & Ho & Hc & Hf).
    simpl. by exists cfg, (Process.trace p).
  - rewrite Hph in Hp. destruct Hp as (cfg' & Hmode & _ & Hd & Ho & Hc & Hf).
    simpl. by exists cfg', (Process.trace p).
  - rewrite Hph in Hp. destruct Hp as (cfg' & l & Hmode & Ht & Hd & Ho & Hc & Hf).
    simpl. left. split; [done|]. rewrite Ht, Hd. by apply (history_end _ _ []).
  - rewrite Hph in Hp. destruct Hp as (cfg' & l & Hmode & Ht & Hd & Ho & Hc & Hf).
    simpl. left. split; [done|]. rewrite Ht, Hd. by apply (history_end _ _ [_; _]).
  - rewrite Hph in Hp. destruct Hp as (cfg' & l & Hmode & Ht & Hd & Ho & Hc & Hf).
    simpl. right. split; [done|]. split.
    + rewrite Ht. unfold flushed in *. by rewrite !existsb_app, Hf.
    + left. rewrite Ht, !closed_app, Hc. done.
Qed.

(** C34: How the process ends: with code 0 it has first cancelled the workers, then closed everything it had
    opened, each once and in the reverse order, and stopped tracing; with code 1, because
    something failed at start or the server did not shut down in time, nothing that was deferred is
    run: no handle but the one that failed is closed and the last spans are not sent. *)
Theorem main_releases config now (jobs : QU) p code :
  rtc Process.step (Process.main config now jobs) p → Process.ph p = Process.Exited code →
  code = 0 ∧ history (Process.trace p) ∨ code = 1 ∧ abandoned (Process.trace p).
Proof.
  intros Hr He.
  assert (lives p) as Hp.
  { revert Hr. generalize (main_lives config now jobs). generalize (Process.main config now jobs).
    intros p0 Hp0 Hr. induction Hr as [|p0 p1 p2 Hs _ IH]; [done|]. by eapply IH, step_lives. }
  unfold lives in Hp. by rewrite He in Hp.
Qed.

(** What a process runs: it reaches its select exactly when the configuration loads, every service the
    configuration names answers and the run mode is api, worker or all; it then has opened
    what the configuration asks for, serves the API in the modes api and all, and runs the
    configured number of workers in the modes worker and all, and none in mode api. *)
Theorem main_starts config now (jobs : QU) :
  (Process.ph (Process.main config now jobs) = Process.Serving ↔ ∃ cfg, config = Ok cfg ∧ can_start cfg) ∧
  ∀ cfg, config = Ok cfg → can_start cfg →
    let p := Process.main config now jobs in
    opened (Process.trace p) = handles cfg ∧
    Process.pool p = (if works cfg then Some (Pool.Run now (Config.WorkerConcurrency cfg) jobs) else None) ∧
    existsb (λ a, match a with Listen _ => true | _ => false end) (Process.trace p) = serves cfg.
Proof.
  pose proof (startup_cases config) as Hs. unfold Process.main.
  destruct (startup config _) as [b [w|]]; simpl.
  - destruct Hs as (-> & Hc & Ho & Hcl & Hf & Hl & Hd). split; [split; [|done]; by exists (the_config w)|].
    by intros cfg [= <-] _.
  - destruct Hs as [Hn _]. split.
    + split; [done|]. intros (cfg & -> & Hc). by destruct (Hn cfg).
    + intros cfg -> Hc. by destruct (Hn cfg).
Qed.

Lemma run_workers now cfg (jobs : QU) :
  ∃ n, Pool.workers (Pool.Run now (Config.WorkerConcurrency cfg) jobs) = replicate (S n) Pool.Polling.
Proof.
  unfold Pool.Run. cbn [Pool.workers]. set (k := Config.WorkerConcurrency cfg).
  assert (1 ≤ if k <? 1 then 1 else k) as Hk by (destruct (Z.ltb_spec k 1); lia).
  revert Hk. generalize (if k <? 1 then 1 else k) as z. intros z Hz.
  exists (Z.to_nat (z - 1)). f_equal. lia.
Qed.

(** A shutdown does not wait for the workers: whenever a worker can take a job, the process can
    take it from the queue, be signalled and exit with code 0 while the job still runs; the
    queue no longer holds it. *)
Theorem shutdown_abandons_job cfg now (jobs : QU) rt job d q :
  can_start cfg → works cfg = true → now ≤ rt_now rt →
  Dequeue Background rt jobs = Some (Ok job, d, q) →
  ∃ p pl, rtc Process.step (Process.main (Ok cfg) now jobs) p ∧ Process.ph p = Process.Exited 0 ∧
    Process.pool p = Some pl ∧ Pool.Running job ∈ Pool.workers pl ∧ Pool.jobs pl = q.
Proof.
  intros Hc Hw Ht Hq. pose proof (startup_cases (Ok cfg)) as Hs.
  unfold Process.main. destruct (startup (Ok cfg) _) as [b [w|]]; [|by destruct Hs as [Hn _]; destruct (Hn cfg)].
  destruct Hs as ([= <-] & _). rewrite Hw.
  set (pl := Pool.Run now (Config.WorkerConcurrency cfg) jobs).
  set (pl' := Pool.mk d (<[O := Pool.Running job]> (Pool.workers pl)) q None).
  set (p0 := Process.mk Process.Serving (Boot.trace b) (Boot.deferred b) (Some cfg) (Some pl) None).
  destruct (run_workers now cfg jobs) as [n Hn]. fold pl in Hn.
  assert (rtc Process.step p0 (Process.wake d
    (Process.mk Process.Serving (Boot.trace b) (Boot.deferred b) (Some cfg) (Some pl') None))) as Hr.
  { eapply rtc_l; [|apply rtc_once, (Process.step_signal _ d); [done|by intros ? [= <-]]].
    apply (Process.step_pool p0 pl pl'); [done|done|left].
    apply (Pool.step_dequeue Background pl O rt (Ok job) d q); [by rewrite Hn|done|done]. }
  assert (Pool.Running job ∈ Pool.workers pl') as Hin.
  { change (Pool.workers pl') with (<[O := Pool.Running job]> (Pool.workers pl)).
    rewrite Hn. left. }
  destruct (serves cfg) eqn:Esv; eexists _, pl'; (split; [eapply rtc_r; [exact Hr|]|]).
  - by apply (Process.step_shutdown _ cfg).
  - done.
  - by apply (Process.step_return _ cfg).
  - done.
Qed.
End life.

(** ** A worker process

    It has a database, Redis and one job, and is stopped. *)

#[local] Existing Instance demo_env.
#[local] Existing Instance demo_unicode.
#[local] Instance demo_host : Host := {|
  host_otel := {| new_exporter _ := None; new_resource _ := None |}; new_pool _ := None; ping _ := None |}.

Definition worker_environment (key : string) : string :=
  if decide (key = "DATABASE_URL") then "postgres://db/agentflow"
  else if decide (key = "REDIS_ADDR") then "redis:6379"
  else if decide (key = "RUN_MODE") then "worker" else "".

Definition worker_config : Config.t :=
  Config.mk (HTTPConfig.mk ":8080" (5 * Second) (15 * Second) (30 * Second) (60 * Second))
    "postgres://db/agentflow" "redis:6379" "" 0 "agentflow:jobs" "agentflow:events:" 4
    "development-only-change-me" "dev-agentflow-key" "00000000-0000-0000-0000-000000000001"
    "https://api.openai.com/v1" "" "mock" "worker" "".

Example worker_config_loads : Load worker_environment = Ok worker_config.
Proof. vm_compute. reflexivity. Qed.

Lemma worker_can_start : can_start worker_config.
Proof. split_and!; try done. vm_compute. right. left. Qed.

Lemma main_starts_witness :
  let p := Process.main (Ok worker_config) 0 demo_pool_queue in
  Process.ph p = Process.Serving ∧
  opened (Process.trace p) =
    [PostgresPool "postgres://db/agentflow"; QueueClient (Options.mk "redis:6379" "" 0);
     EventClient (Options.mk "redis:6379" "" 0)] ∧
  Process.pool p = Some (Pool.Run 0 4 demo_pool_queue).
Proof.
  intros p. destruct (main_starts (Ok worker_config) 0 demo_pool_queue) as [Hs Hp].
  split; [apply Hs; exact (ex_intro _ worker_config (conj eq_refl worker_can_start))|].
  destruct (Hp worker_config eq_refl worker_can_start) as (Ho & Hl & _).
  split; [exact Ho|exact Hl].
Defined.

Lemma main_releases_witness :
  let p := Process.return_ [] (Process.wake 7 (Process.main (Ok worker_config) 0 demo_pool_queue)) in
  rtc Process.step (Process.main (Ok worker_config) 0 demo_pool_queue) p ∧
  closed (Process.trace p) =
    [EventClient (Options.mk "redis:6379" "" 0); QueueClient (Options.mk "redis:6379" "" 0);
     PostgresPool "postgres://db/agentflow"] ∧
  (0 = 0 ∧ history (Process.trace p) ∨ 0 = 1 ∧ abandoned (Process.trace p)).
Proof.
  intros p.
  assert (rtc Process.step (Process.main (Ok worker_config) 0 demo_pool_queue) p) as Hr.
  { eapply rtc_l; [apply (Process.step_signal _ 7); [reflexivity|]|apply rtc_once].
    - intros pl E. vm_compute in E. injection E as <-. vm_compute. discriminate.
    - by apply (Process.step_return _ worker_config). }
  split; [exact Hr|]. split; [reflexivity|].
  apply (main_releases (Ok worker_config) 0 demo_pool_queue p 0 Hr). reflexivity.
Defined.

Lemma shutdown_abandons_job_witness :
  ∃ p pl, rtc Process.step (Process.main (Ok worker_config) 0 demo_pool_queue) p ∧
    Process.ph p = Process.Exited 0 ∧ Process.pool p = Some pl ∧
    Pool.Running (Job.mk "x" "a" "o") ∈ Pool.workers pl ∧ Pool.jobs pl = Immediate.mk 4 [].
Proof.
  apply (shutdown_abandons_job worker_config 0 demo_pool_queue (mkRuntime 5 1) (Job.mk "x" "a" "o") 5).
  - exact worker_can_start.
  - reflexivity.
  - vm_compute. discriminate.
  - vm_compute. reflexivity.
Defined.
